(* ===== verification/_CoqProject ===== *)
-Q . S2P
Prelude.v
Clock.v
Coordinate.v
Types.v
Core.v
Sample.v
Membership.v
MemberTraces.v
Lifecycle.v
Convergence.v
UserEvents.v
MemberTimes.v
Responses.v
Query.v
QueryFacts.v
QueryContexts.v
Coalesce.v
Snapshot.v
SnapshotFacts.v
Delegate.v
Api.v
Background.v
Tasks.v
Surface.v
Wire.v
CodecIntents.v
CodecEvents.v
CodecQuery.v
CodecMember.v
CodecPushPull.v
CodecKeys.v
CodecCoordinate.v
CodecMessage.v
WireSample.v
Exchange.v
Fuzzy.v
Generators.v
Cluster.v
ClusterQuery.v
ClusterEvents.v
InternalQuery.v
KeyManager.v
Ownership.v
EventStream.v
F64Sample.v
ToyConsul.v
WireExamples.v
ClusterExamples.v
FuzzExamples.v
