(* ===== verification/Prelude.v ===== *)
(** * Verification of serf-core: gossip-based cluster membership

    serf keeps, on every node of a cluster, a table of the members and their
    states, spreads user events and queries by gossip, and survives restarts
    through a snapshot file.  The library is serf-core/src; it runs on the
    memberlist crate (failure detection, gossip transport, wire encoding),
    which calls back into serf and is a parameter of this development.

    ** How the program hangs together, and where it is modelled

    memberlist reports nodes joining, failing and changing, delivers gossip
    and exchanges whole states with peers (serf/delegate.rs, [Delegate]).
    The callbacks run the handlers of serf/base.rs on the core of the
    instance (serf.rs, [Core]): membership ([Membership], [MemberTraces],
    [Lifecycle]), user events ([UserEvents]) and queries ([Query], [QueryFacts]).  The
    replies to a query are collected by a [QueryResponse] (serf/query.rs,
    [Responses]).  Handlers order what they hear by three Lamport clocks
    (types/clock.rs, [Clock]) and emit events, which the coalescers
    (coalesce.rs, [Coalesce]) merge and the snapshotter (snapshot.rs,
    [Snapshot], [SnapshotFacts]) records.  Pings feed the network coordinates
    (types/coordinate.rs, [Coordinate]).  The application starts an instance,
    joins, leaves and sends events through serf/api.rs ([Api]); the tasks an
    instance runs, and how shutting it down ends them, are [Tasks].  Events
    reach it over a chain of tasks (event.rs, [EventStream]); one of them keeps the
    internal queries and answers them (serf/internal_query.rs,
    [InternalQuery]), and the key manager issues such queries (key_manager.rs,
    [KeyManager]).  Everything nodes tell each other is encoded by types/*.rs
    ([Wire] and the files named [Codec...]); types/fuzzy.rs checks them on
    random messages ([Fuzzy], [Generators]).  The core points back to itself
    through its delegate and its key manager, weakly ([Ownership]).
    [Cluster] puts instances together that gossip, exchange states and send
    each other packets; [ClusterQuery] and [ClusterEvents] follow queries and
    user events through it, and [ToyConsul] is a program on top of them
    (examples/toyconsul).

    - [Prelude]: results and panics, machine integers, bytes and
      little-endian integers, [Vec] operations, tactics and the hint database.
    - [Clock]: [time], [increment], [witness] and their interleavings on one
      atomic, as a step relation over program points with the calls and
      returns it makes observable; times as bytes.
    - [Coordinate]: the Vivaldi client on binary64 numbers ([spec_float]);
      [powf] and the random numbers are parameters.
    - [Types]: members, messages, events, errors, and [Codec], the interface
      of types/message.rs and types/tags.rs that handlers encode with.
    - [Core]: [Serf], the fields of [SerfCore] together with what leaves the
      instance (broadcast queues, events, packets, tasks), and [Options].
    - [Sample]: a small codec and instance that inhabit the interfaces.
    - [Membership]: [handle_node_join], [handle_node_leave],
      [handle_node_update], [handle_node_join_intent],
      [handle_node_leave_intent], the reaper ([reap_tick]), the reconnector
      ([reconnect_tick]), intents, and the invariant [wf_members].
    - [MemberTraces]: sequences of handler calls.
    - [Lifecycle]: the life cycle of one member as a deterministic machine
      ([life]) over its node, tags, status, time and buffered intent, that the
      handlers refine, and what is remembered of a member meanwhile.
    - [Convergence]: what a node makes of the intents about a member, whatever
      the order it hears them in.
    - [MemberTimes]: the clock against the times in the member table.
    - [UserEvents]: [handle_user_event] and its ring buffer.
    - [Responses]: the concurrent hand-over of acks and responses.
    - [Query], [QueryFacts]: [query_in], [handle_query], filters, acks,
      relays, replies and [respond].  [QueryContexts]: the context that the
      clones of a query event share, and responding through it.
    - [Coalesce]: both coalescers and the loop that drives them.
    - [Snapshot], [SnapshotFacts]: the record format, [replay], [append_line],
      [compact], and the stream.
    - [Delegate]: [notify_message], [broadcast_messages], [local_state],
      [merge_remote_state], node events, merge and conflict delegates, pings.
    - [Api]: [new_in], [join], [leave], [force_leave], [user_event],
      [set_tags], [shutdown].
    - [Background]: options and the tags they share, broadcasts and the checks
      of their queues, the delegates a user plugs in.
    - [Tasks]: the background tasks, the detached tasks and the calls of
      [shutdown], as a labelled step relation over the instance, and its fair
      runs.
    - [Surface]: moments ([Epoch]), names, errors and their texts, accessors.
    - [Wire]: memberlist-proto's encoding as an interface: the class [Wire]
      (varints, tags, [skip]) with its laws [WireLaws], [Data] and [Scalar]
      for the traits, the loops that encoders and decoders are made of, and
      the lemmas that carry a field through both.
    - [CodecIntents] (clock, versions, join, leave), [CodecEvents] (user
      events), [CodecQuery] (filters, queries, responses), [CodecMember]
      (tags, members, conflict responses), [CodecPushPull], [CodecKeys],
      [CodecCoordinate]: one encoder, length and decoder per type.
      [CodecMessage]: the envelope (types/message.rs) and relays.
    - [Exchange]: [wire_codec], the [Codec] that the handlers of the other
      files are given by these encoders, and what crosses from node to node.
    - [Fuzzy]: [encodable_round_trip] and the fuzz target; [Generators]: the
      random messages of types/quickcheck_impl.rs and types/arbitrary_impl.rs
      over a [Source].
    - [Cluster]: instances that gossip, send packets and exchange states,
      against the interface [Gossip], which the wire codecs implement, and
      what their operations leave alone.  [ClusterQuery]: queries, acks and
      answers across the cluster.  [ClusterEvents]: user events across it.
    - [InternalQuery]: conflict queries and key queries answered;
      [KeyManager]: key queries issued and their replies added up.
    - [Ownership]: strong and weak references to the core, and the callbacks
      of the delegate and the key manager with and without an instance.
    - [EventStream]: the tee, the internal-query task, the two coalescing
      tasks, the producer and the subscriber, as a step relation over their
      channels; the line of events that the chain as a whole is ([lmove]).
    - [ToyConsul]: the service registry of the example, over bincode and a
      skip map as parameters.
    - [WireSample], [F64Sample], [WireExamples], [ClusterExamples],
      [FuzzExamples]: LEB128 varints, IEEE binary64 bytes, a registry and a
      source of numbers that inhabit the interfaces, and the properties at
      concrete messages and clusters.

    A handler that holds a lock from its first read to its last write is a
    function from state to state.  Where two threads can interleave inside a
    call (the clock's compare-and-swap loop, the collection of replies, the
    tasks between the core and the application, the calls of [shutdown]), and
    where nodes act on their own, the model is a step relation.  [outcome]
    marks expressions that may panic, [Result] the errors of the source.

    ** What the theorems show

    Membership: in every reachable state the table and the lists of departed
    members agree; every handler makes its target take the one step the
    life-cycle machine has for it, tells the application exactly that step and
    leaves the others alone; an intent is rebroadcast once while its node is
    not forgotten; a live instance refutes its own departure; the reaper removes
    exactly the expired members; the reconnector never panics; the clock stays ahead of every time in the table;
    merging a peer's state takes every member through the step of the peer's
    intent and catches up with the peer; nodes that hear the same intents, none
    of them tied for the newest, agree on a member whatever the order; at most one of two
    instances that contest an id stays, and it is the one whose address the
    majority of their peers has on file.

    Events and queries: at most one delivery per event and per query while
    handling never panics; what issuing, filtering, relaying and answering
    do; the events of the core that no coalescer takes reach the application in
    order and, where the snapshotter's tee finds room, all of them, the others
    are never made up; the replies of
    a query arrive at most once, within the channel's capacity, never after
    the close, under any interleaving; what the coalescers report, and when
    their timers ring; when gossip packets stay within their limit, and when
    the rest of it wraps.  In a cluster, whatever is lost,
    repeated or reordered, no application is given an event nobody sent or
    the same event twice, and gossip can carry an event along any chain of
    nodes; what a caller finds in the channels of a query are acks and answers
    that nodes gave to that very query, and a query is answered by every node
    of a chain that listens; a query event is answered once through all its
    clones; a service registered at one node of the example is listed at the
    others.

    The wire: every message, alone or in a relay envelope, is encoded into
    exactly the announced length and reads back as itself, so the fuzz target
    passes, and the random tests on messages whose lengths fit; delivered to another node it runs the handler of its
    kind; a relayed response is forwarded byte for byte; tags that are accepted
    are announced and read back by the peers; pings carry coordinates; every
    decoding loop ends.

    Keys: a key query is answered with success exactly when the keyring was
    changed and written; lists of keys are cut to the size limit; the key
    manager counts replies, failures and keys.

    Clocks and coordinates: concurrent clock calls are linearizable with what
    they return and in the order they were made, return,
    and leave the clock ahead of what was witnessed; coordinate updates keep
    coordinates valid and refuse bad input without effect.

    Persistence and operations: records round trip, torn files are rejected,
    the file replays to the snapshotter's state, a restart ignores what was
    already recorded; leaving does what it promises; shutting down returns
    in every fair run in which the application reads, and leaves no task but
    detached ones behind; the core lives
    exactly as long as someone holds it, and callbacks after that are empty.

    Some theorems state behaviour that departs from a comment or from the
    evident intent: recurring user events refused by a stale slot, two
    queries at one clock reading sharing a registration, answers relayed to
    the answering node, coalescing timers that restart or are dropped, nodes
    that are too long to be recorded, a panic after a failed compaction, relay
    envelopes that make the decoder panic, gravity that vanishes below a
    second, a clock that wraps at [u64::MAX], copies of options that share
    their tags, a failed shutdown that cannot be repeated, a full channel that
    blocks it, a limit that wraps when memberlist counts more for a packet than
    its queue does.

    ** Bounds and fuel

    Arithmetic on [u64] and [u32] wraps at its width, as in a release build.
    Statements about clocks ask for values below the last one ([regular]),
    which a cluster never reaches.  [replay_loop] has the length of the file
    as fuel; every round consumes a byte.  So do the decoding loops ([decode_loop]
    in [Wire]): their fuel is the length of the buffer, and [decoders_terminate]
    shows that it suffices on every input.  The reaper's loop has the length of
    the list as fuel; every round removes a member or moves past one.  The
    random search of [random_members] runs its own bounded number of rounds.

    The loops of the generators that draw until a value will do have rounds as
    fuel: those over the fuzzer's bytes end by themselves
    ([arb_coordinate_returns]); those of quickcheck end with probability one
    only, and the theorems say what was drawn when the rounds ran out.

    ** Not modelled

    memberlist and memberlist-proto themselves (the interfaces [Wire],
    [Keyring], the queues and the transport), generators and trait
    implementations made by derive macros, the setters viewit makes, the serde
    forms, the sockets, the command line and the start of the example,
    metrics and logging, what exists for tests only (message droppers, bad
    pings), and the crate serf, which only re-exports.
*)

From Stdlib Require Import ZArith Lia Strings.Byte.
From stdpp Require Import base list gmap strings.

(** ** Results and panics

    [Result A E] is Rust's [Result<A, E>].  [outcome A] is the value of an
    expression that may panic in every build profile (an index out of
    range, a remainder by zero, a failed [assert!]); overflow of [+] and [-]
    is not one of these, it wraps in the release profile the development
    follows. *)

Inductive Result (A E : Type) : Type :=
| Ok (a : A)
| Err (e : E).

Arguments Ok {A E} a.
Arguments Err {A E} e.

Inductive outcome (A : Type) : Type :=
| Done (a : A)
| Panic.

Arguments Done {A} a.
Arguments Panic {A}.

Declare Scope serf_scope.
Delimit Scope serf_scope with serf.

(** [f a?]: the early return of Rust's [?] operator. *)
Notation "'try!' x := c 'in' k" :=
  (match c with Ok x => k | Err err => Err err end)
  (at level 10, x pattern, c at level 100, k at level 200) : serf_scope.

(** Sequencing past a computation that may panic. *)
Notation "'run!' x := c 'in' k" :=
  (match c with Done x => k | Panic => Panic end)
  (at level 10, x pattern, c at level 100, k at level 200) : serf_scope.

#[export] Instance Result_eq_dec {A E} `{EqDecision A} `{EqDecision E} :
  EqDecision (Result A E).
Proof. solve_decision. Defined.

#[export] Instance outcome_eq_dec {A} `{EqDecision A} : EqDecision (outcome A).
Proof. solve_decision. Defined.

#[export] Instance byte_eq_dec : EqDecision byte := Byte.byte_eq_dec.

(** ** Automation

    [destruct_match] splits on an innermost discriminee of the goal or of a
    hypothesis; [bool_to_prop] turns boolean tests into propositions.  The
    [serf] hint database collects the preservation lemmas. *)

Create HintDb serf discriminated.
#[export] Hint Constants Opaque : serf.
#[export] Hint Variables Transparent : serf.

Ltac destruct_match :=
  match goal with
  | |- context [match ?x with _ => _ end] =>
      lazymatch x with context [match _ with _ => _ end] => fail | _ => idtac end;
      destruct x eqn:?
  | H : context [match ?x with _ => _ end] |- _ =>
      lazymatch x with context [match _ with _ => _ end] => fail | _ => idtac end;
      destruct x eqn:?
  end.

Ltac bool_to_prop :=
  repeat match goal with
  | H : bool_decide _ = true |- _ => apply bool_decide_eq_true in H
  | H : bool_decide _ = false |- _ => apply bool_decide_eq_false in H
  | H : (_ <? _)%Z = true |- _ => apply Z.ltb_lt in H
  | H : (_ <? _)%Z = false |- _ => apply Z.ltb_ge in H
  | H : (_ <=? _)%Z = true |- _ => apply Z.leb_le in H
  | H : (_ <=? _)%Z = false |- _ => apply Z.leb_gt in H
  | H : (_ =? _)%Z = true |- _ => apply Z.eqb_eq in H
  | H : (_ =? _)%Z = false |- _ => apply Z.eqb_neq in H
  | H : (_ && _)%bool = true |- _ => apply andb_true_iff in H as [? ?]
  | H : (_ || _)%bool = false |- _ => apply orb_false_iff in H as [? ?]
  | H : negb _ = true |- _ => apply negb_true_iff in H
  | H : negb _ = false |- _ => apply negb_false_iff in H
  end.

(** ** Machine integers

    Unsigned integers are kept as [Z] with their width written out.  The
    operations below are the release-profile ones: [+], [-] and
    [fetch_add] wrap. *)

Definition u64_modulus : Z := 18446744073709551616.
Definition u32_modulus : Z := 4294967296.

Definition wrap64 (z : Z) : Z := z mod u64_modulus.

(** The values a [u64] can hold. *)
Definition is_u64 (z : Z) : Prop := (0 <= z < u64_modulus)%Z.

#[export] Instance is_u64_dec z : Decision (is_u64 z).
Proof. unfold is_u64. apply _. Defined.

Definition add64 (a b : Z) : Z := wrap64 (a + b).
Definition sub64 (a b : Z) : Z := wrap64 (a - b).

(** [Instant::elapsed] and the difference of two instants saturate at zero;
    durations and instants are nanoseconds. *)
Definition since (now t : Z) : Z := Z.max 0 (now - t).

Lemma wrap64_u64 z : is_u64 (wrap64 z).
Proof. unfold is_u64, wrap64, u64_modulus. apply Z.mod_pos_bound. lia. Qed.

Lemma wrap64_id z : is_u64 z → wrap64 z = z.
Proof. unfold is_u64, wrap64, u64_modulus. intros. apply Z.mod_small. lia. Qed.

Lemma add64_exact a b : is_u64 a → is_u64 b → (a + b < u64_modulus)%Z → add64 a b = (a + b)%Z.
Proof. intros [] [] ?. apply wrap64_id. split; lia. Qed.

Lemma sub64_exact a b : is_u64 a → is_u64 b → (b <= a)%Z → sub64 a b = (a - b)%Z.
Proof. intros [] [] ?. apply wrap64_id. split; lia. Qed.

#[export] Hint Resolve wrap64_u64 : serf.

(** ** Bytes

    [z as u8], and a byte as an integer. *)

Abbreviation bytes := (list byte) (only parsing).

Definition byte_of_Z (z : Z) : byte :=
  match Byte.of_N (Z.to_N (z mod 256)%Z) with Some b => b | None => x00 end.
Definition Z_of_byte (b : byte) : Z := Z.of_N (Byte.to_N b).

Lemma byte_roundtrip z : (0 <= z < 256)%Z → Z_of_byte (byte_of_Z z) = z.
Proof.
  intros Hz. unfold byte_of_Z. rewrite Z.mod_small by done.
  destruct (Byte.of_N (Z.to_N z)) as [b|] eqn:E.
  - apply Byte.to_of_N in E. unfold Z_of_byte. rewrite E. lia.
  - apply Byte.of_N_None_iff in E. lia.
Qed.

Lemma byte_of_Z_mod z : byte_of_Z (z mod 256)%Z = byte_of_Z z.
Proof. unfold byte_of_Z. by rewrite Z.mod_mod. Qed.

Lemma byte_of_Z_of_byte b : byte_of_Z (Z_of_byte b) = b.
Proof. by destruct b. Qed.

(** *** Little-endian integers *)

(** [to_le_bytes] of an integer of [n] bytes, and reading it back. *)
Fixpoint to_le (n : nat) (z : Z) : bytes :=
  match n with O => [] | S n => byte_of_Z z :: to_le n (z / 256)%Z end.
Fixpoint of_le (b : bytes) : Z :=
  match b with [] => 0%Z | x :: b => (Z_of_byte x + 256 * of_le b)%Z end.

Lemma to_le_length n : ∀ z, length (to_le n z) = n.
Proof. induction n as [|n IH]; intros z; simpl; [done|]. by rewrite IH. Qed.

Lemma le_roundtrip n : ∀ z, (0 <= z < 256 ^ Z.of_nat n)%Z → of_le (to_le n z) = z.
Proof.
  induction n as [|n IH]; intros z Hz; [simpl in *; lia|]. cbn [to_le of_le].
  rewrite Nat2Z.inj_succ, Z.pow_succ_r in Hz by lia.
  rewrite IH.
  - rewrite <- byte_of_Z_mod, byte_roundtrip by (apply Z.mod_pos_bound; lia).
    pose proof (Z.div_mod z 256 ltac:(lia)). lia.
  - split; [apply Z.div_pos; lia|]. apply Z.div_lt_upper_bound; lia.
Qed.

(** ** Lists

    [Vec::swap_remove]: the last element takes the place of the removed one. *)
Definition swap_remove {A} (i : nat) (l : list A) : list A :=
  match last l with
  | None => l
  | Some x => <[i := x]> (take (length l - 1) l)
  end.

Section swap_remove.
Context {A : Type}.
Implicit Types l : list A.

Lemma last_snoc_inv l x : last l = Some x → ∃ l', l = l' ++ [x].
Proof.
  intros H. destruct l as [|y l'] using rev_ind; [done|].
  rewrite last_snoc in H. simplify_eq. eauto.
Qed.

Lemma swap_remove_snoc i l x : swap_remove i (l ++ [x]) = <[i := x]> l.
Proof.
  unfold swap_remove. rewrite last_snoc, length_app. simpl.
  replace (length l + 1 - 1) with (length l) by lia. by rewrite take_app_length.
Qed.

(** Removing by swap drops exactly the element at the index. *)
Lemma swap_remove_perm i l x : l !! i = Some x → l ≡ₚ x :: swap_remove i l.
Proof.
  destruct l as [|y l' _] using rev_ind; [done|]. rewrite swap_remove_snoc.
  intros H. destruct (decide (i < length l')) as [Hi|Hi].
  - rewrite lookup_app_l in H by lia.
    rewrite <- (take_drop_middle l' i x H) at 1.
    rewrite insert_take_drop by lia. rewrite <- !app_assoc. simpl.
    rewrite <- Permutation_middle. constructor.
    rewrite (Permutation_cons_append (drop (S i) l') y). done.
  - assert (i = length l') as ->.
    { apply lookup_lt_Some in H. rewrite length_app in H. simpl in H. lia. }
    rewrite lookup_app_r, Nat.sub_diag in H by lia. simpl in H. simplify_eq.
    rewrite list_insert_ge by lia. by rewrite (Permutation_cons_append l' x).
Qed.

Lemma swap_remove_length i l :
  i < length l → length (swap_remove i l) = length l - 1.
Proof.
  intros Hi. destruct (lookup_lt_is_Some_2 l i Hi) as [x Hx].
  apply swap_remove_perm, Permutation_length in Hx. simpl in Hx. lia.
Qed.

End swap_remove.

(** [Vec::retain] keeps the elements a predicate accepts. *)
Lemma list_filter_false {A} (P : A → Prop) `{∀ x, Decision (P x)} (l : list A) :
  (∀ x, x ∈ l → P x) → filter P l = l.
Proof.
  induction l as [|x l IH]; intros Hl; [done|].
  rewrite filter_cons_True by (apply Hl; set_solver).
  f_equal. apply IH. set_solver.
Qed.

Lemma swap_remove_take {A} (i : nat) (l : list A) :
  i < length l → take i (swap_remove i l) = take i l.
Proof.
  intros Hi. destruct l as [|x l' _] using rev_ind; [simpl in *; lia|].
  rewrite swap_remove_snoc. rewrite length_app in Hi. simpl in Hi.
  rewrite take_insert_ge by lia. rewrite take_app_le by lia. done.
Qed.

(** ** Strings *)

Lemma string_app_nil_r (s : string) : s +:+ EmptyString = s.
Proof. induction s as [|a s IH]; [done|]. change (String a (s +:+ EmptyString) = String a s). by rewrite IH. Qed.

Lemma string_app_assoc (r s t : string) : r +:+ (s +:+ t) = (r +:+ s) +:+ t.
Proof.
  induction r as [|a r IH]; [done|].
  change (String a (r +:+ (s +:+ t)) = String a ((r +:+ s) +:+ t)). by rewrite IH.
Qed.

(** ** Insertion-ordered maps and sets

    [IndexMap::insert] gives a known key its new value where it stands and
    puts a new key last; [IndexSet::insert] keeps the first occurrence.
    [collect] inserts one element after the other. *)
Section index_map.
Context {K V : Type} `{EqDecision K}.

Definition index_insert (m : list (K * V)) (p : K * V) : list (K * V) :=
  match list_find (λ q, q.1 = p.1) m with
  | Some (i, _) => <[i := p]> m
  | None => m ++ [p]
  end.
Definition index_map_of (l : list (K * V)) : list (K * V) := foldl index_insert [] l.

Definition index_add (s : list K) (x : K) : list K := if decide (x ∈ s) then s else s ++ [x].
Definition index_set_of (l : list K) : list K := foldl index_add [] l.

Lemma index_insert_new m p : p.1 ∉ m.*1 → index_insert m p = m ++ [p].
Proof.
  intros Hp. unfold index_insert. destruct (list_find _ m) as [[i q]|] eqn:Hf; [|done].
  apply list_find_Some in Hf as (Hi & Hq & _). destruct Hp. rewrite <- Hq.
  apply list_elem_of_fmap_2. by eapply list_elem_of_lookup_2.
Qed.

Lemma foldl_index_insert l : ∀ m,
  NoDup (m ++ l).*1 → foldl index_insert m l = m ++ l.
Proof.
  induction l as [|p l IH]; intros m Hn; simpl; [by rewrite app_nil_r|].
  rewrite index_insert_new.
  - rewrite IH by (by rewrite <- app_assoc). by rewrite <- app_assoc.
  - rewrite fmap_app in Hn. apply NoDup_app in Hn as (_ & Hd & _).
    intros Hp. apply (Hd _ Hp). simpl. set_solver.
Qed.

Lemma index_map_of_nodup l : NoDup l.*1 → index_map_of l = l.
Proof. apply (foldl_index_insert l []). Qed.

Lemma foldl_index_add l : ∀ s, NoDup (s ++ l) → foldl index_add s l = s ++ l.
Proof.
  induction l as [|x l IH]; intros s Hn; simpl; [by rewrite app_nil_r|].
  unfold index_add at 2. rewrite decide_False.
  - rewrite IH by (by rewrite <- app_assoc). by rewrite <- app_assoc.
  - apply NoDup_app in Hn as (_ & Hd & _). intros Hx. apply (Hd _ Hx). set_solver.
Qed.

Lemma index_set_of_nodup l : NoDup l → index_set_of l = l.
Proof. apply (foldl_index_add l []). Qed.

(** What is collected has every key once, and nothing that was not there. *)
Lemma index_insert_keys m p : NoDup m.*1 → NoDup (index_insert m p).*1 ∧ index_insert m p ⊆ m ++ [p].
Proof.
  intros Hm. unfold index_insert. destruct (list_find _ m) as [[i q]|] eqn:Hf.
  - apply list_find_Some in Hf as (Hi & Hq & _). split.
    + rewrite list_fmap_insert, list_insert_id; [done|]. by rewrite list_lookup_fmap, Hi, <- Hq.
    + intros x Hx. apply elem_of_app. apply list_elem_of_lookup in Hx as [j Hj].
      destruct (decide (i = j)) as [->|Hne].
      * rewrite list_lookup_insert_eq in Hj by (by eapply lookup_lt_Some). simplify_eq. right. set_solver.
      * rewrite list_lookup_insert_ne in Hj by done. left. by eapply list_elem_of_lookup_2.
  - split; [|done]. rewrite fmap_app. apply NoDup_app. split_and!; [done| |apply NoDup_singleton].
    intros k (q & -> & Hq)%list_elem_of_fmap Hk%list_elem_of_singleton.
    apply list_find_None in Hf. rewrite Forall_forall in Hf. by eapply Hf.
Qed.

Lemma index_map_of_keys l : NoDup (index_map_of l).*1 ∧ index_map_of l ⊆ l.
Proof.
  unfold index_map_of. induction l as [|p l IH] using rev_ind; [split; [constructor|done]|].
  rewrite foldl_app. simpl. destruct IH as [Hn Hs]. destruct (index_insert_keys _ p Hn) as [Hk Hi].
  split; [done|]. intros x [Hx|Hx]%Hi%elem_of_app; set_solver.
Qed.

Lemma index_set_of_keys l : NoDup (index_set_of l) ∧ index_set_of l ⊆ l.
Proof.
  unfold index_set_of. induction l as [|x l IH] using rev_ind; [split; [constructor|done]|].
  rewrite foldl_app. simpl. unfold index_add at 1 3. destruct IH as [Hn Hs]. case_decide as Hx.
  - split; [done|]. set_solver.
  - split; [|set_solver]. apply NoDup_app. split_and!; [done|set_solver|apply NoDup_singleton].
Qed.

End index_map.
