(* ===== verification/Clock.v ===== *)
(** * Lamport times and clocks (serf-core/src/types/clock.rs)

    [LamportTime] is a [u64]; [LamportClock] is an atomic [u64] that every
    handler shares.  [Module Clock] has the three operations as the code
    runs them alone; [Module Atomic] runs any number of [time], [increment]
    and [witness] calls interleaved, with the call, the load, [fetch_add], the
    weak compare-exchange and its retry, and the return as separate steps, and
    shows that the calls are linearizable. *)

From Stdlib Require Import ZArith Lia.
From stdpp Require Import base list gmap.
From S2P Require Import Prelude.
Local Open Scope Z_scope.

Module Clock.

(** The value of a [LamportTime]: a [u64] kept as [Z]. *)
Abbreviation LamportTime := Z (only parsing).

Definition ZERO : LamportTime := 0.

(** [Add] and [Sub] wrap at 64 bits; [Rem] panics on a zero divisor. *)
Definition add (a b : LamportTime) : LamportTime := add64 a b.
Definition sub (a b : LamportTime) : LamportTime := sub64 a b.
Definition rem (a b : LamportTime) : outcome LamportTime :=
  if b =? 0 then Panic else Done (a mod b).

(** A [LamportClock] is the value of its atomic cell. *)
Definition new : Z := 0.

Definition time (c : Z) : LamportTime := c.

(** Returns the new cell and the incremented time. *)
Definition increment (c : Z) : Z * LamportTime := (add64 c 1, add64 c 1).

Definition witness (c : Z) (t : LamportTime) : Z :=
  if t <? c then c else add64 t 1.

Section facts.
Implicit Types c t : Z.

Lemma witness_u64 c t : is_u64 c → is_u64 (witness c t).
Proof. intros. unfold witness. destruct_match; [done|]. apply wrap64_u64. Qed.

Lemma increment_u64 c : is_u64 (increment c).1.
Proof. apply wrap64_u64. Qed.

Lemma witness_spec c t :
  is_u64 t → t < u64_modulus - 1 → witness c t = Z.max c (t + 1).
Proof.
  intros Ht Hmax. unfold witness. destruct_match; bool_to_prop; [lia|].
  rewrite add64_exact; unfold is_u64, u64_modulus in *; lia.
Qed.

Lemma witness_mono c t :
  is_u64 t → t < u64_modulus - 1 → c <= witness c t.
Proof. intros. rewrite witness_spec by done. lia. Qed.

Lemma witness_gt c t :
  is_u64 t → t < u64_modulus - 1 → t < witness c t.
Proof. intros. rewrite witness_spec by done. lia. Qed.

End facts.

#[export] Hint Resolve witness_u64 increment_u64 : serf.

(** ** Times as bytes *)

Definition to_le_bytes (t : LamportTime) : bytes := to_le 8 t.
Definition to_be_bytes (t : LamportTime) : bytes := rev (to_le 8 t).
Definition from_le_bytes (b : bytes) : LamportTime := of_le b.
Definition from_be_bytes (b : bytes) : LamportTime := of_le (rev b).

(** A time comes back from its eight bytes in either order, and the two orders
    are each other's reverse. *)
Lemma time_bytes_roundtrip t :
  is_u64 t →
  from_le_bytes (to_le_bytes t) = t ∧ from_be_bytes (to_be_bytes t) = t ∧
  to_be_bytes t = rev (to_le_bytes t) ∧ length (to_le_bytes t) = 8%nat.
Proof.
  intros Ht. assert (of_le (to_le 8 t) = t) as E by (apply le_roundtrip; exact Ht).
  unfold from_be_bytes, to_be_bytes. by rewrite rev_involutive.
Qed.

End Clock.

Module Atomic.
Import Clock.

(** The calls on the shared cell. *)
Inductive op : Type :=
| Time
| Increment
| Witness (t : Z).

(** What a call returns: a time, or nothing. *)
Inductive ret : Type :=
| RTime (t : Z)
| RUnit.

#[export] Instance op_eq_dec : EqDecision op.
Proof. solve_decision. Defined.
#[export] Instance ret_eq_dec : EqDecision ret.
Proof. solve_decision. Defined.

(** The sequential object: the cell after a call that runs alone, and what
    the call returns. *)
Definition apply (c : Z) (o : op) : Z * ret :=
  match o with
  | Time => (c, RTime (time c))
  | Increment => let '(c', t) := increment c in (c', RTime t)
  | Witness t => (witness c t, RUnit)
  end.

(** Where a call is: not made yet; made and about to touch the cell (the head
    of the [loop] of [witness]); between the load of [current] and the
    compare-exchange; past [fetch_add] or [load] with the value it read; past
    the last access of [witness]; returned. *)
Inductive pc : Type :=
| Idle (o : op)
| Invoked (o : op)
| Cas (t current : Z)
| Fetched (old : Z)
| Loaded (v : Z)
| Witnessed (t : Z)
| Returned (o : op) (r : ret).

Definition pc_op (p : pc) : op :=
  match p with
  | Idle o | Invoked o | Returned o _ => o
  | Cas t _ | Witnessed t => Witness t
  | Fetched _ => Increment
  | Loaded _ => Time
  end.

(** What a caller and its thread can see: that call [i] was made, and that it
    returned. *)
Inductive event : Type :=
| Call (i : nat)
| Ret (i : nat) (r : ret).

Record state : Type := State {
  cell : Z;
  threads : list pc;
  trace : list event;
}.

(** One step of call [i]: a call, one atomic memory operation, or a return. *)
Inductive step : state → state → Prop :=
| step_call c ts tr i o :
    ts !! i = Some (Idle o) →
    step (State c ts tr) (State c (<[i := Invoked o]> ts) (tr ++ [Call i]))
| step_load c ts tr i :
    ts !! i = Some (Invoked Time) →
    step (State c ts tr) (State c (<[i := Loaded c]> ts) tr)
| step_load_ret c ts tr i v :
    ts !! i = Some (Loaded v) →
    step (State c ts tr)
         (State c (<[i := Returned Time (RTime v)]> ts) (tr ++ [Ret i (RTime v)]))
| step_fetch_add c ts tr i :
    ts !! i = Some (Invoked Increment) →
    step (State c ts tr) (State (add64 c 1) (<[i := Fetched c]> ts) tr)
| step_fetch_ret c ts tr i old :
    (* [fetch_add] gives the old value; the call adds one to it *)
    ts !! i = Some (Fetched old) →
    step (State c ts tr)
         (State c (<[i := Returned Increment (RTime (add64 old 1))]> ts)
            (tr ++ [Ret i (RTime (add64 old 1))]))
| step_load_old c ts tr i t :
    ts !! i = Some (Invoked (Witness t)) → t < c →
    step (State c ts tr) (State c (<[i := Witnessed t]> ts) tr)
| step_load_new c ts tr i t :
    ts !! i = Some (Invoked (Witness t)) → c <= t →
    step (State c ts tr) (State c (<[i := Cas t c]> ts) tr)
| step_cas_ok c ts tr i t :
    ts !! i = Some (Cas t c) →
    step (State c ts tr) (State (add64 t 1) (<[i := Witnessed t]> ts) tr)
| step_cas_fail c ts tr i t current :
    (* the weak form may also fail when the values agree *)
    ts !! i = Some (Cas t current) →
    step (State c ts tr) (State c (<[i := Invoked (Witness t)]> ts) tr)
| step_witness_ret c ts tr i t :
    ts !! i = Some (Witnessed t) →
    step (State c ts tr)
         (State c (<[i := Returned (Witness t) RUnit]> ts) (tr ++ [Ret i RUnit])).

Definition steps : state → state → Prop := rtc step.

Definition start (c : Z) (os : list op) : state := State c (Idle <$> os) [].

(** ** Linearizability *)

(** A sequential history: which call, what it did and what it returned. *)
Definition entry : Type := nat * (op * ret).

(** [legal c h c']: the calls of [h], run one after the other from the cell
    [c], return what [h] says and leave [c']. *)
Fixpoint legal (c : Z) (h : list entry) (c' : Z) : Prop :=
  match h with
  | [] => c' = c
  | (_, (o, r)) :: h => (apply c o).2 = r ∧ legal (apply c o).1 h c'
  end.

Definition precedes (i j : nat) (h : list entry) : Prop :=
  ∃ h1 h2, h = h1 ++ h2 ∧ i ∈ h1.*1 ∧ j ∈ h2.*1.

(** The calls [os] with the observed [tr] are explained by one sequential
    history: it is legal, it has each call at most once and as it was made, it
    has every call that returned with the value it returned, and a call that
    returned before another was made comes first. *)
Record linearizes (c : Z) (os : list op) (tr : list event) (c' : Z) (h : list entry) : Prop := {
  lin_legal : legal c h c';
  lin_nodup : NoDup h.*1;
  lin_made : ∀ i o r, (i, (o, r)) ∈ h → Call i ∈ tr ∧ os !! i = Some o;
  lin_returned : ∀ i r, Ret i r ∈ tr → ∃ o, (i, (o, r)) ∈ h;
  lin_order : ∀ tr1 tr2 i j r, tr = tr1 ++ tr2 → Ret i r ∈ tr1 → Call j ∈ tr2 →
              j ∈ h.*1 → precedes i j h;
}.

(** The entry of a call that has taken effect. *)
Definition effect (p : pc) : option (op * ret) :=
  match p with
  | Idle _ | Invoked _ | Cas _ _ => None
  | Fetched old => Some (Increment, RTime (add64 old 1))
  | Loaded v => Some (Time, RTime v)
  | Witnessed t => Some (Witness t, RUnit)
  | Returned o r => Some (o, r)
  end.

(** The invariant of the interleaving: the history linearizes the trace and
    has the calls that took effect; the trace knows which calls were made and
    which returned; a pending compare-exchange holds a value the [if] let
    through. *)
Record inv (c0 : Z) (os : list op) (s : state) (h : list entry) : Prop := {
  inv_lin : linearizes c0 os (trace s) (cell s) h;
  inv_effect : ∀ i e, (i, e) ∈ h ↔ ∃ p, threads s !! i = Some p ∧ effect p = Some e;
  inv_ops : pc_op <$> threads s = os;
  inv_call : ∀ i p, threads s !! i = Some p → (Call i ∈ trace s ↔ p ≠ Idle (pc_op p));
  inv_ret : ∀ i r, Ret i r ∈ trace s → ∃ o, threads s !! i = Some (Returned o r);
  inv_cas : ∀ i t cur, threads s !! i = Some (Cas t cur) → cur <= t;
}.

Implicit Types (ts : list pc) (os : list op) (h : list entry) (tr : list event).

Lemma pc_op_insert ts (i : nat) p q :
  ts !! i = Some p → pc_op q = pc_op p → pc_op <$> <[i := q]> ts = pc_op <$> ts.
Proof.
  intros Hi Hq. rewrite list_fmap_insert. apply list_insert_id.
  by rewrite list_lookup_fmap, Hi, Hq.
Qed.

Lemma legal_snoc c h c' i o :
  legal c h c' → legal c (h ++ [(i, (o, (apply c' o).2))]) (apply c' o).1.
Proof.
  revert c. induction h as [|[j [o' r']] h IH]; intros c; simpl.
  - by intros ->.
  - intros [? ?]. eauto.
Qed.

Lemma precedes_app i j h h' : precedes i j h → precedes i j (h ++ h').
Proof.
  intros (h1 & h2 & -> & ? & ?). exists h1, (h2 ++ h'). rewrite app_assoc. split_and!; try done.
  rewrite fmap_app. apply elem_of_app. by left.
Qed.

Lemma elem_of_ids i h : i ∈ h.*1 ↔ ∃ e, (i, e) ∈ h.
Proof.
  rewrite list_elem_of_fmap. split.
  - intros ([j e] & -> & ?). by exists e.
  - intros [e ?]. by exists (i, e).
Qed.

(** A step that neither takes effect nor is observed. *)
Lemma inv_silent c0 os c ts tr h (i : nat) p q :
  inv c0 os (State c ts tr) h → ts !! i = Some p →
  pc_op q = pc_op p → effect p = None → effect q = None →
  p ≠ Idle (pc_op p) → q ≠ Idle (pc_op q) →
  (∀ t cur, q = Cas t cur → cur <= t) →
  inv c0 os (State c (<[i := q]> ts) tr) h.
Proof.
  intros [Hl He Ho Hc Hr Hcas] Hi Hop Hp Hq Hpi Hqi Hnew. simpl in *.
  pose proof (lookup_lt_Some _ _ _ Hi) as Hlt. constructor; simpl; [done| | | | |].
  - intros j e. rewrite He. split; intros (p' & Hj & Hpe).
    + exists p'. split; [|done]. rewrite list_lookup_insert_ne; [done|]. intros ->. congruence.
    + apply list_lookup_insert_Some in Hj as [(-> & <- & _)|[? ?]]; [congruence|eauto].
  - by erewrite pc_op_insert.
  - intros j p' [(-> & <- & _)|[? ?]]%list_lookup_insert_Some; [|by apply Hc].
    rewrite (Hc j p Hi). tauto.
  - intros j r Hj. destruct (Hr j r Hj) as [o Hj']. exists o.
    rewrite list_lookup_insert_ne; [done|]. intros ->. by simplify_eq.
  - intros j t cur [(-> & ? & _)|[? ?]]%list_lookup_insert_Some; eauto.
Qed.

(** A step that takes effect: the call is appended to the history. *)
Lemma inv_effect_step c0 os c ts tr h (i : nat) p q :
  inv c0 os (State c ts tr) h → ts !! i = Some p →
  pc_op q = pc_op p → effect p = None → effect q = Some (pc_op p, (apply c (pc_op p)).2) →
  p ≠ Idle (pc_op p) →
  inv c0 os (State (apply c (pc_op p)).1 (<[i := q]> ts) tr)
    (h ++ [(i, (pc_op p, (apply c (pc_op p)).2))]).
Proof.
  intros [Hl He Ho Hc Hr Hcas] Hi Hop Hp Hq Hpi. simpl in *.
  pose proof (lookup_lt_Some _ _ _ Hi) as Hlt.
  assert (i ∉ h.*1) as Hfresh.
  { intros [e (p' & ? & ?)%He]%elem_of_ids. congruence. }
  destruct Hl as [Hleg Hnd Hmade Hret Hord]. constructor; simpl; [constructor| | | | |].
  - by apply legal_snoc.
  - rewrite fmap_app. apply NoDup_app. split_and!; [done| |apply NoDup_singleton].
    intros j Hj ->%list_elem_of_singleton. done.
  - intros j o r [?|[= -> -> ->]%list_elem_of_singleton]%elem_of_app; [by eapply Hmade|].
    split; [by apply (Hc i p)|]. rewrite <- Ho, list_lookup_fmap, Hi. done.
  - intros j r Hj. destruct (Hret j r Hj) as [o ?]. exists o. apply elem_of_app. by left.
  - intros tr1 tr2 j k r Htr Hj Hk. rewrite fmap_app. intros [Hin|Hin]%elem_of_app.
    { by eapply precedes_app, Hord. }
    exists h, [(i, (pc_op p, (apply c (pc_op p)).2))]. split_and!; [done| |done].
    destruct (Hret j r) as [o ?]; [rewrite Htr; apply elem_of_app; by left|].
    apply elem_of_ids. eauto.
  - intros j e. rewrite elem_of_app, He, list_elem_of_singleton. split.
    + intros [(p' & Hj & Hpe)|[= -> ->]].
      * exists p'. split; [|done]. rewrite list_lookup_insert_ne; [done|]. intros ->. congruence.
      * exists q. by rewrite list_lookup_insert_eq.
    + intros (p' & Hj & Hpe).
      apply list_lookup_insert_Some in Hj as [(-> & <- & _)|[? ?]]; [|eauto].
      right. congruence.
  - by erewrite pc_op_insert.
  - intros j p' [(-> & <- & _)|[? ?]]%list_lookup_insert_Some; [|by apply Hc].
    rewrite (Hc j p Hi). split; [|done]. intros _ Hidle. by rewrite Hidle in Hq.
  - intros j r Hj. destruct (Hr j r Hj) as [o Hj']. exists o.
    rewrite list_lookup_insert_ne; [done|]. intros ->. by simplify_eq.
  - intros j t cur [(-> & Hqc & _)|[? ?]]%list_lookup_insert_Some; [by rewrite Hqc in Hq|eauto].
Qed.

(** A call is made. *)
Lemma inv_call_step c0 os c ts tr h (i : nat) o :
  inv c0 os (State c ts tr) h → ts !! i = Some (Idle o) →
  inv c0 os (State c (<[i := Invoked o]> ts) (tr ++ [Call i])) h.
Proof.
  intros [Hl He Ho Hc Hr Hcas] Hi. simpl in *.
  pose proof (lookup_lt_Some _ _ _ Hi) as Hlt.
  assert (i ∉ h.*1) as Hfresh.
  { intros [e (p' & ? & ?)%He]%elem_of_ids. by simplify_eq. }
  destruct Hl as [Hleg Hnd Hmade Hret Hord]. constructor; simpl; [constructor| | | | |].
  - done.
  - done.
  - intros j o' r Hj. destruct (Hmade j o' r Hj). split; [|done]. apply elem_of_app. by left.
  - intros j r [?|Hj%list_elem_of_singleton]%elem_of_app; [eauto|done].
  - intros tr1 tr2 j k r Htr Hj Hk Hin. destruct tr2 as [|x tr2 _] using rev_ind.
    { by apply not_elem_of_nil in Hk. }
    rewrite app_assoc in Htr. apply app_inj_tail in Htr as [Htr <-].
    apply elem_of_app in Hk as [Hk|Hk%list_elem_of_singleton]; [by eapply Hord|].
    simplify_eq. done.
  - intros j e. rewrite He. split; intros (p' & Hj & Hpe).
    + exists p'. split; [|done]. rewrite list_lookup_insert_ne; [done|]. intros ->. by simplify_eq.
    + apply list_lookup_insert_Some in Hj as [(-> & <- & _)|[? ?]]; [done|eauto].
  - by erewrite pc_op_insert.
  - intros j p' Hj. rewrite elem_of_app, list_elem_of_singleton.
    apply list_lookup_insert_Some in Hj as [(-> & <- & _)|[Hne Hj]].
    + split; [done|]. by right.
    + rewrite (Hc j p' Hj). split; [intros [?|?]; [done|congruence]|by left].
  - intros j r [Hj|Hj%list_elem_of_singleton]%elem_of_app; [|done].
    destruct (Hr j r Hj) as [o' Hj']. exists o'.
    rewrite list_lookup_insert_ne; [done|]. intros ->. by simplify_eq.
  - intros j t cur [(-> & ? & _)|[? ?]]%list_lookup_insert_Some; [done|eauto].
Qed.

(** A call that has taken effect returns. *)
Lemma inv_return_step c0 os c ts tr h (i : nat) p r :
  inv c0 os (State c ts tr) h → ts !! i = Some p → effect p = Some (pc_op p, r) →
  p ≠ Idle (pc_op p) → (∀ o r, p ≠ Returned o r) →
  inv c0 os (State c (<[i := Returned (pc_op p) r]> ts) (tr ++ [Ret i r])) h.
Proof.
  intros [Hl He Ho Hc Hr Hcas] Hi Hp Hpi Hnr. simpl in *.
  pose proof (lookup_lt_Some _ _ _ Hi) as Hlt.
  destruct Hl as [Hleg Hnd Hmade Hret Hord]. constructor; simpl; [constructor| | | | |].
  - done.
  - done.
  - intros j o' r' Hj. destruct (Hmade j o' r' Hj). split; [|done]. apply elem_of_app. by left.
  - intros j r' [?|[= -> ->]%list_elem_of_singleton]%elem_of_app; [eauto|].
    exists (pc_op p). apply He. eauto.
  - intros tr1 tr2 j k r' Htr Hj Hk Hin. destruct tr2 as [|x tr2 _] using rev_ind.
    { by apply not_elem_of_nil in Hk. }
    rewrite app_assoc in Htr. apply app_inj_tail in Htr as [Htr <-].
    apply elem_of_app in Hk as [Hk|Hk%list_elem_of_singleton]; [by eapply Hord|done].
  - intros j e. rewrite He. split; intros (p' & Hj & Hpe).
    + destruct (decide (j = i)) as [->|Hne].
      * exists (Returned (pc_op p) r). rewrite list_lookup_insert_eq by done. simplify_eq. done.
      * exists p'. by rewrite list_lookup_insert_ne.
    + apply list_lookup_insert_Some in Hj as [(-> & <- & _)|[? ?]]; [|eauto].
      simpl in Hpe. exists p. split; congruence.
  - by erewrite pc_op_insert.
  - intros j p' Hj. rewrite elem_of_app, list_elem_of_singleton.
    apply list_lookup_insert_Some in Hj as [(-> & <- & _)|[Hne Hj]].
    + rewrite (Hc j p Hi). split; [done|]. by left.
    + rewrite (Hc j p' Hj). split; [intros [?|?]; done|by left].
  - intros j r' [Hj|[= -> ->]%list_elem_of_singleton]%elem_of_app.
    + destruct (Hr j r' Hj) as [o' Hj']. exists o'.
      rewrite list_lookup_insert_ne; [done|]. intros ->. simplify_eq. by destruct (Hnr o' r').
    + exists (pc_op p). by rewrite list_lookup_insert_eq.
  - intros j t cur [(-> & ? & _)|[? ?]]%list_lookup_insert_Some; [done|eauto].
Qed.

Lemma inv_start c os : inv c os (start c os) [].
Proof.
  constructor; simpl; [constructor; simpl| | | | |].
  - done.
  - apply NoDup_nil_2.
  - by intros ??? ?%not_elem_of_nil.
  - by intros ?? ?%not_elem_of_nil.
  - intros ????? _ _ _ ?%not_elem_of_nil. done.
  - intros i e. split; [by intros ?%not_elem_of_nil|].
    intros (p & Hp & Heff). rewrite list_lookup_fmap in Hp.
    destruct (os !! i); simplify_eq/=.
  - rewrite <- list_fmap_compose. by apply list_fmap_id.
  - intros i p Hp. rewrite list_lookup_fmap in Hp. destruct (os !! i); simplify_eq/=.
    split; [by intros ?%not_elem_of_nil|done].
  - by intros ?? ?%not_elem_of_nil.
  - intros i t cur. rewrite list_lookup_fmap. by destruct (os !! i).
Qed.

Lemma inv_step c0 os s s' h : inv c0 os s h → step s s' → ∃ h', inv c0 os s' h'.
Proof.
  intros Hinv Hstep. pose proof (inv_cas _ _ _ _ Hinv) as Hcas. destruct Hstep; simpl in Hcas.
  - eexists. by eapply inv_call_step.
  - eexists. eapply (inv_effect_step c0 os c ts tr h i (Invoked Time)); done.
  - eexists. eapply (inv_return_step c0 os c ts tr h i (Loaded v)); done.
  - eexists. eapply (inv_effect_step c0 os c ts tr h i (Invoked Increment)); done.
  - eexists. eapply (inv_return_step c0 os c ts tr h i (Fetched old)); done.
  - eexists. pose proof (inv_effect_step c0 os c ts tr h i _ (Witnessed t) Hinv H) as Hs.
    simpl in Hs. unfold witness in Hs. rewrite (proj2 (Z.ltb_lt t c)) in Hs by done. by apply Hs.
  - eexists. eapply (inv_silent c0 os c ts tr h i); try done. by intros ?? [= <- <-].
  - eexists. pose proof (inv_effect_step c0 os c ts tr h i _ (Witnessed t) Hinv H) as Hs.
    simpl in Hs. unfold witness in Hs. specialize (Hcas _ _ _ H).
    rewrite (proj2 (Z.ltb_ge t c)) in Hs by done. by apply Hs.
  - eexists. by eapply (inv_silent c0 os c ts tr h i).
  - eexists. eapply (inv_return_step c0 os c ts tr h i (Witnessed t)); done.
Qed.

Lemma inv_steps c0 os s : steps (start c0 os) s → ∃ h, inv c0 os s h.
Proof.
  intros H. remember (start c0 os) as s0 eqn:E.
  assert (∃ h, inv c0 os s0 h) as [h Hs0] by (subst; eexists; apply inv_start). clear E.
  revert h Hs0. induction H as [|s0 s1 s2 Hs _ IH]; intros h Hs0; [eauto|].
  destruct (inv_step _ _ _ _ _ Hs0 Hs) as [h' ?]. eauto.
Qed.

(** *** Sequential histories below the top of [u64] *)

(** The cell never falls, and an increment returns the value it leaves. *)
Lemma apply_mono c o M :
  0 <= c <= M → (∀ t, o = Witness t → 0 <= t < M) → M + 1 < u64_modulus →
  c <= (apply c o).1 <= M + 1 ∧ (∀ t, o = Witness t → t < (apply c o).1) ∧
  (o = Increment → c < (apply c o).1 ∧ (apply c o).2 = RTime (apply c o).1).
Proof.
  intros Hc Ht HM. destruct o as [| |t]; simpl; [by split_and!; (lia || done)| |].
  - rewrite add64_exact by (unfold is_u64, u64_modulus in *; lia). split_and!; [lia|lia|done|].
    intros _. split; [lia|done].
  - specialize (Ht t eq_refl). rewrite witness_spec by (unfold is_u64, u64_modulus in *; lia).
    split_and!; [lia|lia| |done]. intros ? [= <-]. lia.
Qed.

(** Increments return times past the cell they found, in increasing order. *)
Lemma legal_increments h : ∀ c c' M,
  legal c h c' → 0 <= c <= M →
  (∀ i t r, (i, (Witness t, r)) ∈ h → 0 <= t < M) →
  M + Z.of_nat (length h) < u64_modulus →
  c <= c' ∧ (∀ i t, (i, (Increment, RTime t)) ∈ h → c < t <= c') ∧
  (∀ i t r, (i, (Witness t, r)) ∈ h → t < c') ∧
  (∀ i j t, (i, (Increment, RTime t)) ∈ h → (j, (Increment, RTime t)) ∈ h → NoDup h.*1 → i = j).
Proof.
  induction h as [|[k [o r]] h IH]; intros c c' M; simpl.
  { intros -> ? _ _. split_and!; [lia|..]; intros *; by intros ?%not_elem_of_nil. }
  intros [Hr Hl] Hc Hw HM.
  destruct (apply_mono c o M Hc) as (Hb & Ho & Hinc); [|lia|].
  { intros t ->. eapply Hw. apply elem_of_cons. by left. }
  destruct (IH (apply c o).1 c' (M + 1)) as (H1 & H2 & H3 & H4); [done|lia| |lia|].
  { intros i t r' Hin. assert (0 <= t < M); [|lia]. eapply Hw. apply elem_of_cons. by right. }
  split_and!.
  - lia.
  - intros i t [[= -> <- Ht]|Hin]%elem_of_cons; [|specialize (H2 _ _ Hin); lia].
    destruct (Hinc eq_refl) as [? E]. assert (t = (apply c Increment).1) as -> by congruence. lia.
  - intros i t r' [[= -> <- Ht]|Hin]%elem_of_cons; [|by eapply H3].
    specialize (Ho t eq_refl). lia.
  - intros i j t Hi Hj [Hk Hnd]%NoDup_cons.
    apply elem_of_cons in Hi as [Ei|Hi], Hj as [Ej|Hj]; [congruence| | |by eauto]; exfalso.
    + injection Ei as -> <- Ht. destruct (Hinc eq_refl) as [? E]. specialize (H2 _ _ Hj).
      assert (t = (apply c Increment).1) as -> by congruence. lia.
    + injection Ej as -> <- Ht. destruct (Hinc eq_refl) as [? E]. specialize (H2 _ _ Hi).
      assert (t = (apply c Increment).1) as -> by congruence. lia.
Qed.

(** C23: Concurrent calls of [time], [increment] and [witness] are
    linearizable: whatever the interleaving, weak compare-exchange failures
    included, one sequential history explains what every call returned and the
    value the clock has, and keeps every two calls of which one returned before
    the other was made in that order. *)
Theorem clock_linearizable c os s :
  steps (start c os) s → ∃ h, linearizes c os (trace s) (cell s) h.
Proof. intros [h Hinv]%inv_steps. exists h. apply Hinv. Qed.

(** Calls 0 and 1 overlap; call 0 reloads after call 1 has moved the clock;
    call 2 starts when both have returned. *)
Definition sample_trace : state :=
  State 42 [Returned (Witness 41) RUnit; Returned Increment (RTime 1); Returned Time (RTime 42)]
    [Call 0; Call 1; Ret 1 (RTime 1); Ret 0 RUnit; Call 2; Ret 2 (RTime 42)].

Lemma sample_trace_steps : steps (start 0 [Witness 41; Increment; Time]) sample_trace.
Proof.
  unfold steps, start; simpl.
  eapply rtc_l. { by apply (step_call _ _ _ 0%nat). } simpl.
  eapply rtc_l. { apply (step_load_new _ _ _ 0%nat 41); [done|lia]. } simpl.
  eapply rtc_l. { by apply (step_call _ _ _ 1%nat). } simpl.
  eapply rtc_l. { by apply (step_fetch_add _ _ _ 1%nat). } simpl.
  eapply rtc_l. { by apply (step_fetch_ret _ _ _ 1%nat). } simpl.
  eapply rtc_l. { by apply (step_cas_fail _ _ _ 0%nat 41 0). } simpl.
  eapply rtc_l. { apply (step_load_new _ _ _ 0%nat 41); [done|vm_compute; discriminate]. } simpl.
  eapply rtc_l. { by apply (step_cas_ok _ _ _ 0%nat 41). } simpl.
  eapply rtc_l. { by apply (step_witness_ret _ _ _ 0%nat). } simpl.
  eapply rtc_l. { by apply (step_call _ _ _ 2%nat). } simpl.
  eapply rtc_l. { by apply (step_load _ _ _ 2%nat). } simpl.
  eapply rtc_l. { by apply (step_load_ret _ _ _ 2%nat). } simpl.
  vm_compute. apply rtc_refl.
Qed.

Lemma clock_linearizable_witness :
  ∃ h, linearizes 0 [Witness 41; Increment; Time] (trace sample_trace) 42 h.
Proof. exact (clock_linearizable 0 _ sample_trace sample_trace_steps). Defined.

(** No two calls of [increment] return the same time, and the clock ends ahead
    of every time that was witnessed, while the times stay clear of
    [u64::MAX]. *)
Theorem increments_distinct c os s M :
  steps (start c os) s →
  0 <= c <= M → (∀ t, Witness t ∈ os → 0 <= t < M) →
  M + Z.of_nat (length os) < u64_modulus →
  c <= cell s ∧
  (∀ i j t, threads s !! i = Some (Returned Increment (RTime t)) →
            threads s !! j = Some (Returned Increment (RTime t)) → i = j) ∧
  (∀ i t r, threads s !! i = Some (Returned (Witness t) r) → t < cell s).
Proof.
  intros [h [[Hleg Hnd Hmade _ _] He Ho _ _ _]]%inv_steps Hc Hos HM.
  destruct (legal_increments h c (cell s) M) as (H1 & H2 & H3 & H4); [done|done| | |].
  - intros i t r Hin. apply Hos. destruct (Hmade _ _ _ Hin) as [_ ?].
    by eapply list_elem_of_lookup_2.
  - enough (length h <= length os)%nat by lia.
    enough (length h.*1 <= length (seq 0 (length os)))%nat as Hlen
      by (by rewrite length_fmap, length_seq in Hlen).
    apply submseteq_length, NoDup_submseteq; [done|].
    intros i [[o r] Hi]%elem_of_ids. apply elem_of_seq.
    destruct (Hmade _ _ _ Hi) as [_ ?%lookup_lt_Some]. lia.
  - split_and!; [done| |].
    + intros i j t Hi Hj. eapply (H4 i j t); [apply He; eauto..|done].
    + intros i t r Hi. eapply H3. apply He. eauto.
Qed.

Lemma increments_distinct_witness : 41 < cell sample_trace.
Proof.
  destruct (increments_distinct 0 [Witness 41; Increment; Time] sample_trace 100
    sample_trace_steps) as (_ & _ & Hw).
  - lia.
  - intros t Ht. repeat (apply elem_of_cons in Ht as [?|Ht]; [simplify_eq; lia|]).
    by apply not_elem_of_nil in Ht.
  - vm_compute. done.
  - by apply (Hw 0%nat 41 RUnit).
Defined.

(** A call never gets stuck: from every state, a call that was made returns
    when it is scheduled alone, whatever value its compare-exchange was
    prepared with. *)
Theorem clock_call_returns s (i : nat) p :
  threads s !! i = Some p → ∃ s' r, steps s s' ∧ threads s' !! i = Some (Returned (pc_op p) r).
Proof.
  destruct s as [c ts tr]. simpl. intros Hi.
  assert (∀ (ts : list pc) q, (i < length ts)%nat → <[i := q]> ts !! i = Some q) as Hins
    by (intros; by apply list_lookup_insert_eq).
  assert (∀ ts c tr q, ts !! i = Some q → (∀ o, q ≠ Idle o) → (∀ o, q ≠ Invoked o) →
    (∀ t cur, q ≠ Cas t cur) →
    ∃ s' r, steps (State c ts tr) s' ∧ threads s' !! i = Some (Returned (pc_op q) r)) as Hlate.
  { clear -Hins. intros ts c tr q Hq H1 H2 H3. pose proof (lookup_lt_Some _ _ _ Hq) as Hlt.
    destruct q as [o|o|t cur|old|v|t|o r];
      [by destruct (H1 o)|by destruct (H2 o)|by destruct (H3 t cur)|..];
      [eexists _, _; split; [eapply rtc_once; by econstructor|by apply Hins]..|].
    eexists _, r. split; [apply rtc_refl|done]. }
  assert (∀ ts tr o, ts !! i = Some (Invoked o) →
    ∃ s' r, steps (State c ts tr) s' ∧ threads s' !! i = Some (Returned o r)) as Hloop.
  { clear -Hins Hlate. intros ts tr o Hq. pose proof (lookup_lt_Some _ _ _ Hq) as Hlt.
    assert (∀ c' q, step (State c ts tr) (State c' (<[i := q]> ts) tr) →
      (∀ o, q ≠ Idle o) → (∀ o, q ≠ Invoked o) → (∀ t cur, q ≠ Cas t cur) → pc_op q = o →
      ∃ s' r, steps (State c ts tr) s' ∧ threads s' !! i = Some (Returned o r)) as Hgo.
    { intros c' q Hs H1 H2 H3 <-.
      destruct (Hlate (<[i := q]> ts) c' tr q) as (s' & r & ? & ?); [by apply Hins|done..|].
      exists s', r. split; [|done]. by eapply rtc_l. }
    destruct o as [| |t].
    - by eapply Hgo; [eapply step_load|..].
    - by eapply Hgo; [eapply step_fetch_add|..].
    - destruct (Z_lt_le_dec t c) as [Hc|Hc]; [by eapply Hgo; [eapply step_load_old|..]|].
      destruct (Hlate (<[i := Witnessed t]> (<[i := Cas t c]> ts)) (add64 t 1) tr (Witnessed t))
        as (s' & r & ? & ?); [apply Hins; by rewrite length_insert|done..|].
      exists s', r. split; [|done]. eapply rtc_l; [by eapply step_load_new|].
      eapply rtc_l; [by apply step_cas_ok, Hins|done]. }
  pose proof (lookup_lt_Some _ _ _ Hi) as Hlt.
  destruct p as [o|o|t cur|old|v|t|o r]; try (by eapply Hlate).
  - destruct (Hloop (<[i := Invoked o]> ts) (tr ++ [Call i]) o) as (s' & r & ? & ?);
      [by apply Hins|].
    exists s', r. split; [|done]. eapply rtc_l; [by eapply step_call|done].
  - by eapply Hloop.
  - destruct (Hloop (<[i := Invoked (Witness t)]> ts) tr (Witness t)) as (s' & r & ? & ?);
      [by apply Hins|].
    exists s', r. split; [|done]. eapply rtc_l; [by eapply step_cas_fail|done].
Qed.

Lemma clock_call_returns_witness :
  ∃ s' r, steps (State 7 [Cas 9 3] []) s' /\
        threads s' !! 0%nat = Some (Returned (Witness 9) r).
Proof. exact (clock_call_returns (State 7 [Cas 9 3] []) 0%nat (Cas 9 3) eq_refl). Defined.

(** A witnessed time of [u64::MAX] does not push the clock one ahead:
    in the release profile [time.0 + 1] wraps, and the clock restarts at
    zero whatever it was. *)
Theorem witness_max_resets c : is_u64 c → witness c (u64_modulus - 1) = 0.
Proof.
  intros [_ Hc]. unfold witness. destruct_match; bool_to_prop; [lia|reflexivity].
Qed.

Lemma witness_max_resets_witness : is_u64 42 /\ witness 42 (u64_modulus - 1) = 0.
Proof. split; [vm_compute; split; discriminate || done|].
  apply witness_max_resets. vm_compute. split; discriminate || done. Defined.

End Atomic.
