(* ===== verification/Coordinate.v ===== *)
(** * Network coordinates (serf-core/src/types/coordinate.rs)

    The Vivaldi coordinate client.  [f64] is IEEE 754 binary64 as Stdlib's
    [SpecFloat] defines it, so every operation rounds as the code's does and
    every definition runs.  Randomness and [f64::powf], whose precision Rust
    leaves open, are arguments. *)

From Stdlib Require Import ZArith Lia SpecFloat.
From stdpp Require Import base list gmap.
From S2P Require Import Prelude.
Local Open Scope Z_scope.

(** ** Floating point *)

Module F64.

Abbreviation f64 := spec_float (only parsing).

Definition prec : Z := 53.
Definition emax : Z := 1024.

Definition add (x y : f64) : f64 := SFadd prec emax x y.
Definition sub (x y : f64) : f64 := SFsub prec emax x y.
Definition mul (x y : f64) : f64 := SFmul prec emax x y.
Definition div (x y : f64) : f64 := SFdiv prec emax x y.
Definition sqrt (x : f64) : f64 := SFsqrt prec emax x.
Definition neg (x : f64) : f64 := SFopp x.
Definition abs (x : f64) : f64 := SFabs x.
Definition gt (x y : f64) : bool := SFltb y x.
Definition lt (x y : f64) : bool := SFltb x y.
Definition le (x y : f64) : bool := SFleb x y.

Definition zero : f64 := S754_zero false.
Definition neg_zero : f64 := S754_zero true.

(** [z as f64] for an integer. *)
Definition of_Z (z : Z) : f64 := binary_normalize prec emax z 0 false.

(** The literal [n / d]: one correctly rounded division of two integers. *)
Definition lit (n d : Z) : f64 := div (of_Z n) (of_Z d).

Definition one : f64 := of_Z 1.
Definition recip (x : f64) : f64 := div one x.

Definition is_nan (x : f64) : bool :=
  match x with S754_nan => true | _ => false end.

Definition is_finite (x : f64) : bool :=
  match x with S754_zero _ | S754_finite _ _ _ => true | _ => false end.

(** [f64::max] and [f64::min] return the other argument on a NaN. *)
Definition max (x y : f64) : f64 :=
  if is_nan x then y else if is_nan y then x else if lt x y then y else x.
Definition min (x y : f64) : f64 :=
  if is_nan x then y else if is_nan y then x else if lt y x then y else x.

(** [x as u64]: truncation that saturates, NaN to zero. *)
Definition to_u64 (x : f64) : Z :=
  match x with
  | S754_finite false m e => Z.min (u64_modulus - 1) (Z.shiftl (Z.pos m) e)
  | S754_infinity false => u64_modulus - 1
  | _ => 0
  end.

Lemma le_refl x : is_finite x = true → le x x = true.
Proof.
  destruct x as [s| | |s m e]; try done.
  intros _. unfold le, SFleb, SFcompare.
  destruct s; rewrite Z.compare_refl; rewrite Pos.compare_cont_refl; done.
Qed.

Lemma SFcompare_antisym x y :
  is_nan x = false → is_nan y = false →
  SFcompare y x = (CompOpp <$> SFcompare x y).
Proof.
  destruct x as [[]|[]| |s m e], y as [[]|[]| |s' m' e']; try done;
    try (destruct s'; done); try (destruct s; done).
  intros _ _. unfold SFcompare. destruct s, s'; try done.
  - rewrite (Z.compare_antisym e e'). destruct (e ?= e'); simpl; try done.
    rewrite (Pos.compare_cont_antisym m m' Eq). simpl. done.
  - rewrite (Z.compare_antisym e e'). destruct (e ?= e'); simpl; try done.
    by rewrite (Pos.compare_cont_antisym m m' Eq).
Qed.

Lemma not_lt_le x y :
  is_nan x = false → is_nan y = false → lt x y = false → le y x = true.
Proof.
  intros Hx Hy. unfold lt, le, SFltb, SFleb.
  rewrite (SFcompare_antisym x y Hx Hy). intros H.
  destruct (SFcompare x y) as [[]|] eqn:E; simpl; try done.
  exfalso. revert E. clear H.
  destruct x as [[]|[]| |[] m e], y as [[]|[]| |[] m' e']; try done;
    unfold SFcompare; destruct (e ?= e'); done.
Qed.

Lemma finite_not_nan x : is_finite x = true → is_nan x = false.
Proof. by destruct x. Qed.

(** A maximum with a finite floor is at least the floor, a minimum with a
    finite ceiling at most the ceiling. *)
Lemma max_ge x y : is_finite y = true → le y (max x y) = true.
Proof.
  intros Hy. unfold max. rewrite (finite_not_nan y) by done.
  destruct (is_nan x) eqn:Hx; [by apply le_refl|].
  destruct (lt x y) eqn:E; [by apply le_refl|].
  apply not_lt_le; auto using finite_not_nan.
Qed.

Lemma min_le x y : is_finite y = true → le (min x y) y = true.
Proof.
  intros Hy. unfold min. rewrite (finite_not_nan y) by done.
  destruct (is_nan x) eqn:Hx; [by apply le_refl|].
  destruct (lt y x) eqn:E; [by apply le_refl|].
  apply not_lt_le; auto using finite_not_nan.
Qed.

End F64.

(** ** Durations: nanoseconds *)

Definition NANOS_PER_SEC : Z := 1000000000.
Definition as_secs (d : Z) : Z := d / NANOS_PER_SEC.
Definition as_secs_f64 (d : Z) : spec_float :=
  F64.add (F64.of_Z (d / NANOS_PER_SEC))
          (F64.div (F64.of_Z (d mod NANOS_PER_SEC)) (F64.of_Z NANOS_PER_SEC)).

(** ** Coordinates *)

Import F64.

Record CoordinateOptions : Type := mkCoordinateOptions {
  dimensionality : nat;
  vivaldi_error_max : f64;
  vivaldi_ce : f64;
  vivaldi_cc : f64;
  adjustment_window_size : nat;
  height_min : f64;
  latency_filter_size : nat;
  gravity_rho : f64;
}.

Definition default_coordinate_options : CoordinateOptions := {|
  dimensionality := 8;
  vivaldi_error_max := lit 3 2;
  vivaldi_ce := lit 1 4;
  vivaldi_cc := lit 1 4;
  adjustment_window_size := 20;
  height_min := lit 1 100000;
  latency_filter_size := 3;
  gravity_rho := of_Z 150;
|}.

Definition SECONDS_TO_NANOSECONDS : f64 := of_Z 1000000000.
Definition ZERO_THRESHOLD : f64 := lit 1 1000000.

Record Coordinate : Type := mkCoordinate {
  portion : list f64;
  error : f64;
  adjustment : f64;
  height : f64;
}.

(** [Coordinate::with_options]: the origin. *)
Definition with_options (opts : CoordinateOptions) : Coordinate := {|
  portion := replicate (dimensionality opts) zero;
  error := vivaldi_error_max opts;
  adjustment := zero;
  height := height_min opts;
|}.

Definition is_valid (c : Coordinate) : bool :=
  forallb is_finite (portion c) && is_finite (error c)
  && is_finite (adjustment c) && is_finite (height c).

Definition is_compatible_with (c other : Coordinate) : bool :=
  (length (portion c) =? length (portion other))%nat.

Definition add_in_place (vec1 vec2 : list f64) : list f64 := zip_with add vec1 vec2.
Definition diff (vec1 vec2 : list f64) : list f64 := zip_with sub vec1 vec2.
Definition mul_in_place (vec : list f64) (factor : f64) : list f64 :=
  (λ x, mul x factor) <$> vec.
Definition magnitude_in_place (vec : list f64) : f64 :=
  sqrt (foldl (λ acc x, add acc (mul x x)) zero vec).

(** [rand_f64] divides a draw from [0 .. 2^63) by [2^63] and draws again
    when the quotient rounds to one; [draws] are the values the generator
    hands out. *)
Fixpoint rand_f64 (draws : list Z) : option (f64 * list Z) :=
  match draws with
  | [] => None
  | d :: draws' =>
      let f := div (of_Z d) (of_Z (2 ^ 63)) in
      if SFeqb f one then rand_f64 draws' else Some (f, draws')
  end.

(** [rnd i] is the value of the [i]-th call of [rand_f64]. *)
Definition unit_vector_at (rnd : nat → f64) (vec1 vec2 : list f64)
  : outcome (list f64 * f64) :=
  let ret := diff vec1 vec2 in
  let mag := magnitude_in_place ret in
  if gt mag ZERO_THRESHOLD then Done (mul_in_place ret (recip mag), mag)
  else
    let ret := imap (λ i _, sub (rnd i) (lit 1 2)) ret in
    let mag := magnitude_in_place ret in
    if gt mag ZERO_THRESHOLD then Done (mul_in_place ret (recip mag), zero)
    else
      (* [ret.fill(0.0); ret[0] = 1.0] *)
      match ret with
      | [] => Panic
      | _ :: tl => Done (one :: ((λ _, zero) <$> tl), zero)
      end.

Definition apply_force (rnd : nat → f64) (hmin force : f64) (c other : Coordinate)
  : outcome Coordinate :=
  if is_compatible_with c other then
    match unit_vector_at rnd (portion c) (portion other) with
    | Panic => Panic
    | Done (unit, mag) =>
        let portion' := add_in_place (portion c) (mul_in_place unit force) in
        let height' :=
          if gt mag ZERO_THRESHOLD then
            let h := add (div (mul (add (height c) (height other)) force) mag) (height c) in
            max h hmin
          else height c in
        Done (mkCoordinate portion' (error c) (adjustment c) height')
    end
  else Panic.

Definition raw_distance_to (c other : Coordinate) : f64 :=
  add (add (magnitude_in_place (diff (portion c) (portion other))) (height c)) (height other).

(** The estimate in nanoseconds; the assertion panics on a mismatch. *)
Definition distance_to (c other : Coordinate) : outcome Z :=
  if is_compatible_with c other then
    let dist := raw_distance_to c other in
    let adjusted := add (add dist (adjustment c)) (adjustment other) in
    let dist := if gt adjusted zero then adjusted else dist in
    Done (to_u64 (mul dist SECONDS_TO_NANOSECONDS))
  else Panic.

Inductive CoordinateError : Type :=
| DimensionalityMismatch
| InvalidCoordinate
| InvalidRTT (rtt : Z).

(** ** The client *)

Record CoordinateClient (I : Type) `{Countable I} : Type := mkClient {
  coord : Coordinate;
  origin : Coordinate;
  copts : CoordinateOptions;
  adjustment_index : nat;
  adjustment_samples : list f64;
  latency_filter_samples : gmap I (list f64);
  resets : nat;
}.
Arguments mkClient {I _ _}.
Arguments coord {I _ _} c : rename.
Arguments origin {I _ _} c : rename.
Arguments copts {I _ _} c : rename.
Arguments adjustment_index {I _ _} c : rename.
Arguments adjustment_samples {I _ _} c : rename.
Arguments latency_filter_samples {I _ _} c : rename.
Arguments resets {I _ _} c : rename.

(** [sort_unstable_by(partial_cmp or Equal)]; the samples are round trip
    times, never NaN and never a negative zero, so equal elements are the
    same value and any sort gives this list. *)
Fixpoint insert_sample (x : f64) (l : list f64) : list f64 :=
  match l with
  | [] => [x]
  | y :: l' => if gt x y then y :: insert_sample x l' else x :: y :: l'
  end.
Definition sort_samples (l : list f64) : list f64 := foldr insert_sample [] l.

Definition check_coordinate (this other : Coordinate) : Result unit CoordinateError :=
  if negb (is_compatible_with this other) then Err DimensionalityMismatch
  else if negb (is_valid other) then Err InvalidCoordinate
  else Ok tt.

Section client.
Context {I : Type} `{Countable I}.
Context (powf : f64 → f64 → f64).
Implicit Types cl : CoordinateClient I.

Definition set_coord cl (c : Coordinate) : CoordinateClient I :=
  mkClient c (origin cl) (copts cl) (adjustment_index cl) (adjustment_samples cl)
    (latency_filter_samples cl) (resets cl).

Definition client_with_options (opts : CoordinateOptions) : CoordinateClient I := {|
  coord := with_options opts;
  origin := with_options opts;
  copts := opts;
  adjustment_index := 0;
  adjustment_samples := replicate (adjustment_window_size opts) zero;
  latency_filter_samples := ∅;
  resets := 0;
|}.

Definition get_coordinate cl : Coordinate := coord cl.

Definition set_coordinate cl (c : Coordinate)
  : CoordinateClient I * Result unit CoordinateError :=
  match check_coordinate (coord cl) c with
  | Ok tt => (set_coord cl c, Ok tt)
  | Err e => (cl, Err e)
  end.

Definition forget_node cl (id : I) : CoordinateClient I :=
  mkClient (coord cl) (origin cl) (copts cl) (adjustment_index cl) (adjustment_samples cl)
    (delete id (latency_filter_samples cl)) (resets cl).

(** The force of gravity on the current coordinate: the distance enters as
    [as_secs], whole seconds. *)
Definition gravity_force cl (dist : Z) : f64 :=
  neg (powf (div (of_Z (as_secs dist)) (gravity_rho (copts cl))) (of_Z 2)).

Definition update_gravity (rnd : nat → f64) cl : outcome (CoordinateClient I) :=
  match distance_to (origin cl) (coord cl) with
  | Panic => Panic
  | Done dist =>
      match apply_force rnd (height_min (copts cl)) (gravity_force cl dist)
              (coord cl) (origin cl) with
      | Panic => Panic
      | Done c => Done (set_coord cl c)
      end
  end.

(** Files the sample, drops the oldest past the window, returns the median. *)
Definition latency_filter cl (id : I) (rtt_seconds : f64)
  : outcome (CoordinateClient I * f64) :=
  let samples := default [] (latency_filter_samples cl !! id) ++ [rtt_seconds] in
  let samples :=
    if (latency_filter_size (copts cl) <? length samples)%nat then drop 1 samples else samples in
  let cl' := mkClient (coord cl) (origin cl) (copts cl) (adjustment_index cl)
               (adjustment_samples cl) (<[id := samples]> (latency_filter_samples cl))
               (resets cl) in
  match sort_samples samples !! (length samples / 2)%nat with
  | Some median => Done (cl', median)
  | None => Panic
  end.

Definition update_vivaldi (rnd : nat → f64) cl (other : Coordinate) (rtt_seconds : f64)
  : outcome (CoordinateClient I) :=
  match distance_to (coord cl) other with
  | Panic => Panic
  | Done d =>
      let dist := as_secs_f64 d in
      let rtt := max rtt_seconds ZERO_THRESHOLD in
      let wrongness := abs (div (sub dist rtt) rtt) in
      let total_error := max (add (error (coord cl)) (error other)) ZERO_THRESHOLD in
      let weight := div (error (coord cl)) total_error in
      let ce := vivaldi_ce (copts cl) in
      let err :=
        min (add (mul (mul ce weight) wrongness)
                 (mul (error (coord cl)) (sub one (mul ce weight))))
            (vivaldi_error_max (copts cl)) in
      let force := mul (mul (vivaldi_cc (copts cl)) weight) (sub rtt dist) in
      let c := mkCoordinate (portion (coord cl)) err (adjustment (coord cl)) (height (coord cl)) in
      match apply_force rnd (height_min (copts cl)) force c other with
      | Panic => Panic
      | Done c' => Done (set_coord cl c')
      end
  end.

Definition update_adjustment cl (other : Coordinate) (rtt_seconds : f64)
  : outcome (CoordinateClient I) :=
  if (adjustment_window_size (copts cl) =? 0)%nat then Done cl
  else
    let dist := raw_distance_to (coord cl) other in
    if (adjustment_index cl <? length (adjustment_samples cl))%nat then
      let samples := <[adjustment_index cl := sub rtt_seconds dist]> (adjustment_samples cl) in
      let index := ((adjustment_index cl + 1) mod adjustment_window_size (copts cl))%nat in
      let adj := div (foldl add neg_zero samples)
                     (mul (of_Z 2) (of_Z (Z.of_nat (adjustment_window_size (copts cl))))) in
      let c := mkCoordinate (portion (coord cl)) (error (coord cl)) adj (height (coord cl)) in
      Done (mkClient c (origin cl) (copts cl) index samples
              (latency_filter_samples cl) (resets cl))
    else Panic.

Definition MAX_RTT : Z := 10 * NANOS_PER_SEC.

(** [rnd1] and [rnd2] are the draws of the two force applications. *)
Definition update (rnd1 rnd2 : nat → f64) cl (id : I) (other : Coordinate) (rtt : Z)
  : outcome (CoordinateClient I * Result Coordinate CoordinateError) :=
  match check_coordinate (coord cl) other with
  | Err e => Done (cl, Err e)
  | Ok tt =>
      if MAX_RTT <? rtt then Done (cl, Err (InvalidRTT rtt))
      else
        match latency_filter cl id (as_secs_f64 rtt) with
        | Panic => Panic
        | Done (cl, rtt_seconds) =>
        match update_vivaldi rnd1 cl other rtt_seconds with
        | Panic => Panic
        | Done cl =>
        match update_adjustment cl other rtt_seconds with
        | Panic => Panic
        | Done cl =>
        match update_gravity rnd2 cl with
        | Panic => Panic
        | Done cl =>
            let cl :=
              if is_valid (coord cl) then cl
              else mkClient (with_options (copts cl)) (origin cl) (copts cl)
                     (adjustment_index cl) (adjustment_samples cl)
                     (latency_filter_samples cl) (S (resets cl)) in
            Done (cl, Ok (coord cl))
        end end end end
  end.

End client.

(** ** Well-formed clients *)

Record wf_options (o : CoordinateOptions) : Prop := {
  wfo_dim : (0 < dimensionality o)%nat;
  wfo_latency : (0 < latency_filter_size o)%nat;
  wfo_error : is_finite (vivaldi_error_max o) = true;
  wfo_height : is_finite (height_min o) = true;
}.

Section invariant.
Context {I : Type} `{Countable I}.
Context (powf : f64 → f64 → f64).
Implicit Types cl : CoordinateClient I.

Record wf_client cl : Prop := {
  wfc_options : wf_options (copts cl);
  wfc_coord : length (portion (coord cl)) = dimensionality (copts cl);
  wfc_origin : length (portion (origin cl)) = dimensionality (copts cl);
  wfc_samples : length (adjustment_samples cl) = adjustment_window_size (copts cl);
  wfc_index : (adjustment_index cl < adjustment_window_size (copts cl))%nat
              ∨ adjustment_window_size (copts cl) = 0%nat;
  wfc_latency : map_Forall (λ _ l, (length l <= latency_filter_size (copts cl))%nat)
                  (latency_filter_samples cl);
  wfc_valid : is_valid (coord cl) = true;
}.

Lemma compatible_iff c c' :
  is_compatible_with c c' = true ↔ length (portion c) = length (portion c').
Proof. apply Nat.eqb_eq. Qed.

Lemma with_options_valid o : wf_options o → is_valid (with_options o) = true.
Proof.
  intros [_ _ He Hh]. unfold is_valid. simpl. rewrite He, Hh.
  assert (forallb is_finite (replicate (dimensionality o) zero) = true) as ->; [|done].
  induction (dimensionality o); done.
Qed.

Lemma unit_vector_at_done rnd v1 v2 :
  length v1 = length v2 → (0 < length v1)%nat →
  ∃ u mag, unit_vector_at rnd v1 v2 = Done (u, mag) ∧ length u = length v1.
Proof.
  intros Hlen Hpos. unfold unit_vector_at.
  assert (length (diff v1 v2) = length v1) as Hd.
  { unfold diff. rewrite length_zip_with. lia. }
  case_match; [|case_match].
  - do 2 eexists. split; [done|]. unfold mul_in_place. by rewrite length_fmap.
  - do 2 eexists. split; [done|]. unfold mul_in_place. by rewrite length_fmap, length_imap.
  - destruct (imap _ (diff v1 v2)) as [|x tl] eqn:E.
    { apply (f_equal length) in E. rewrite length_imap in E. simpl in E. lia. }
    do 2 eexists. split; [done|]. apply (f_equal length) in E.
    rewrite length_imap in E. simpl in *. rewrite length_fmap. lia.
Qed.

Lemma apply_force_done rnd hmin force c other :
  length (portion c) = length (portion other) → (0 < length (portion c))%nat →
  ∃ c', apply_force rnd hmin force c other = Done c' ∧
        length (portion c') = length (portion c) ∧
        error c' = error c ∧ adjustment c' = adjustment c ∧
        (height c' = height c ∨ ∃ h, height c' = max h hmin).
Proof.
  intros Hlen Hpos. unfold apply_force. rewrite (proj2 (compatible_iff c other)) by done.
  destruct (unit_vector_at_done rnd (portion c) (portion other)) as (u & mag & -> & Hu);
    [done..|].
  eexists. split; [done|]. simpl. split_and!; try done.
  - unfold add_in_place, mul_in_place. rewrite length_zip_with, length_fmap. lia.
  - case_match; eauto.
Qed.

Lemma sort_samples_perm l : sort_samples l ≡ₚ l.
Proof.
  induction l as [|x l IH]; [done|]. simpl. rewrite <- IH at 2.
  generalize (sort_samples l). intros k. induction k as [|y k IHk]; [done|].
  simpl. case_match; [|done]. rewrite IHk. apply Permutation_swap.
Qed.

Lemma latency_filter_done cl id x :
  wf_client cl →
  ∃ cl' med, latency_filter cl id x = Done (cl', med) ∧ wf_client cl' ∧
    copts cl' = copts cl ∧ coord cl' = coord cl ∧
    ∃ l, latency_filter_samples cl' !! id = Some l ∧ med ∈ l ∧ last l = Some x.
Proof.
  intros [Ho Hc Hor Hs Hi Hl Hv]. unfold latency_filter.
  set (old := default [] (latency_filter_samples cl !! id)).
  assert (length old <= latency_filter_size (copts cl))%nat as Hold.
  { unfold old. destruct (latency_filter_samples cl !! id) as [l|] eqn:E; simpl; [|lia].
    apply (Hl id l E). }
  set (l := if (latency_filter_size (copts cl) <? length (old ++ [x]))%nat
            then drop 1 (old ++ [x]) else old ++ [x]).
  assert ((0 < length l <= latency_filter_size (copts cl))%nat ∧ last l = Some x)
    as [Hlen Hlast].
  { destruct Ho as [_ Hlf _ _]. unfold l. rewrite length_app. simpl. case_match eqn:E.
    - apply Nat.ltb_lt in E. destruct old as [|y old']; simpl in *; [lia|].
      rewrite drop_0, last_snoc, length_app. simpl. split; [lia|done].
    - apply Nat.ltb_ge in E. rewrite last_snoc, length_app. simpl. split; [lia|done]. }
  destruct (lookup_lt_is_Some_2 (sort_samples l) (length l / 2)) as [med Hmed].
  { rewrite sort_samples_perm. apply Nat.div_lt; lia. }
  rewrite Hmed. do 2 eexists. split; [done|]. split_and!; try done.
  - constructor; try done. simpl. apply map_Forall_insert_2; [lia|done].
  - exists l. simpl. rewrite lookup_insert_eq. split_and!; try done.
    rewrite <- (sort_samples_perm l). by apply list_elem_of_lookup_2 in Hmed.
Qed.

(** The part of the invariant that the intermediate steps keep; validity
    is restored at the end. *)
Definition wf_shape cl : Prop :=
  length (portion (coord cl)) = dimensionality (copts cl) ∧
  length (portion (origin cl)) = dimensionality (copts cl) ∧
  length (adjustment_samples cl) = adjustment_window_size (copts cl) ∧
  ((adjustment_index cl < adjustment_window_size (copts cl))%nat
   ∨ adjustment_window_size (copts cl) = 0%nat).

Definition height_ok cl : Prop := le (height_min (copts cl)) (height (coord cl)) = true.

Lemma update_vivaldi_done rnd cl other x :
  wf_options (copts cl) → wf_shape cl → length (portion other) = dimensionality (copts cl) →
  ∃ cl', update_vivaldi rnd cl other x = Done cl' ∧ wf_shape cl' ∧
    copts cl' = copts cl ∧ latency_filter_samples cl' = latency_filter_samples cl ∧
    le (error (coord cl')) (vivaldi_error_max (copts cl)) = true ∧
    (height_ok cl → height_ok cl').
Proof.
  intros Ho (Hc & Hor & Hs & Hi) Hother. unfold update_vivaldi, distance_to.
  rewrite (proj2 (compatible_iff (coord cl) other)) by lia.
  match goal with |- context [apply_force rnd ?h ?f ?c other] =>
    destruct (apply_force_done rnd h f c other) as (c' & -> & Hlen & He & Ha & Hh) end;
    simpl in *; [lia|destruct Ho; lia|].
  eexists. split; [done|]. split; [unfold wf_shape; simpl; by rewrite Hlen|].
  split_and!; simpl; try done.
  - rewrite He. apply min_le, Ho.
  - unfold height_ok. simpl. intros Hold. destruct Hh as [->|[h ->]]; [done|].
    apply max_ge, Ho.
Qed.

Lemma update_adjustment_done cl other x :
  wf_shape cl →
  ∃ cl', update_adjustment cl other x = Done cl' ∧ wf_shape cl' ∧
    copts cl' = copts cl ∧ latency_filter_samples cl' = latency_filter_samples cl ∧
    error (coord cl') = error (coord cl) ∧ height (coord cl') = height (coord cl).
Proof.
  intros (Hc & Hor & Hs & Hi). unfold update_adjustment. case_match eqn:E.
  { eexists. split; [done|]. by split_and!. }
  apply Nat.eqb_neq in E. destruct Hi as [Hi|]; [|lia].
  rewrite (proj2 (Nat.ltb_lt _ _)) by lia.
  eexists. split; [done|]. split; [|by split_and!].
  split_and!; simpl; try done.
  - by rewrite length_insert.
  - left. apply Nat.mod_upper_bound. lia.
Qed.

Lemma update_gravity_done rnd cl :
  wf_options (copts cl) → wf_shape cl →
  ∃ cl', update_gravity powf rnd cl = Done cl' ∧ wf_shape cl' ∧
    copts cl' = copts cl ∧ latency_filter_samples cl' = latency_filter_samples cl ∧
    error (coord cl') = error (coord cl) ∧ (height_ok cl → height_ok cl').
Proof.
  intros Ho (Hc & Hor & Hs & Hi). unfold update_gravity, distance_to.
  rewrite (proj2 (compatible_iff (origin cl) (coord cl))) by lia.
  match goal with |- context [apply_force rnd ?h ?f ?c ?o] =>
    destruct (apply_force_done rnd h f c o) as (c' & -> & Hlen & He & Ha & Hh) end;
    simpl in *; [lia|destruct Ho; lia|].
  eexists. split; [done|]. split; [unfold wf_shape; simpl; by rewrite Hlen|].
  split_and!; simpl; try done.
  unfold height_ok. simpl. intros Hold. destruct Hh as [->|[h ->]]; [done|].
  apply max_ge, Ho.
Qed.

Lemma check_coordinate_ok c other :
  check_coordinate c other = Ok tt ↔
  length (portion c) = length (portion other) ∧ is_valid other = true.
Proof.
  unfold check_coordinate. rewrite <- compatible_iff.
  destruct (is_compatible_with c other), (is_valid other); simpl; intuition congruence.
Qed.

Lemma wf_client_shape cl : wf_client cl → wf_shape cl.
Proof. intros []. by split_and!. Qed.

Lemma client_with_options_wf o : wf_options o → wf_client (client_with_options o).
Proof.
  intros Ho. constructor; simpl; try done; rewrite ?length_replicate; try done.
  - destruct (adjustment_window_size o); [by right|left; lia].
  - by apply with_options_valid.
Qed.

Lemma update_rejected rnd1 rnd2 cl id other rtt e :
  check_coordinate (coord cl) other = Err e →
  update powf rnd1 rnd2 cl id other rtt = Done (cl, Err e).
Proof. unfold update. by intros ->. Qed.

(** The accepted path of [update], one step after the other. *)
Lemma update_accepted rnd1 rnd2 cl id other rtt :
  wf_client cl →
  check_coordinate (coord cl) other = Ok tt → rtt <= MAX_RTT →
  ∃ cl', update powf rnd1 rnd2 cl id other rtt = Done (cl', Ok (coord cl')) ∧
    wf_client cl' ∧ copts cl' = copts cl ∧
    le (error (coord cl')) (vivaldi_error_max (copts cl)) = true ∧
    (height_ok cl → height_ok cl').
Proof.
  intros Hwf Hck Hrtt. pose proof (proj1 (check_coordinate_ok _ _) Hck) as [Hlen _].
  unfold update. rewrite Hck, (proj2 (Z.ltb_ge MAX_RTT rtt) Hrtt).
  destruct (latency_filter_done cl id (as_secs_f64 rtt) Hwf)
    as (cl1 & med & -> & Hwf1 & Ho1 & Hc1 & _).
  assert (wf_options (copts cl1)) as Hopt by apply Hwf1.
  destruct (update_vivaldi_done rnd1 cl1 other med) as (cl2 & -> & Hs2 & Ho2 & Hl2 & He2 & Hh2);
    [done|by apply wf_client_shape|rewrite <- Hlen, Ho1; apply Hwf|].
  destruct (update_adjustment_done cl2 other med) as (cl3 & -> & Hs3 & Ho3 & Hl3 & He3 & Hh3);
    [done|].
  destruct (update_gravity_done rnd2 cl3) as (cl4 & -> & Hs4 & Ho4 & Hl4 & He4 & Hh4);
    [by rewrite Ho3, Ho2|done|].
  assert (copts cl4 = copts cl) as Hopts by congruence.
  assert (wf_options (copts cl4)) as Hopt4 by (rewrite Hopts; apply Hwf).
  assert (map_Forall (λ _ l, (length l <= latency_filter_size (copts cl4))%nat)
            (latency_filter_samples cl4)) as Hlat.
  { rewrite Hl4, Hl3, Hl2, Hopts, <- Ho1. apply Hwf1. }
  destruct Hs4 as (Hd & Hd' & Hw & Hx). destruct (is_valid (coord cl4)) eqn:Hv.
  - eexists. split; [done|]. split; [by constructor|]. split; [done|]. split.
    + rewrite He4, He3, <- Ho1. done.
    + intros Hh. apply Hh4. unfold height_ok. rewrite Ho3, Hh3. apply Hh2.
      unfold height_ok. by rewrite Ho1, Hc1.
  - eexists. split; [done|]. split; [|split; [done|split]].
    + constructor; simpl; try done; [by rewrite length_replicate|by apply with_options_valid].
    + simpl. rewrite Hopts. apply le_refl. rewrite <- Hopts. apply Hopt4.
    + intros _. unfold height_ok. simpl. apply le_refl, Hopt4.
Qed.

End invariant.

(** ** Properties *)

(** C30: an accepted update never panics and never leaves the client with a
    coordinate that holds an infinity or a NaN, whatever the round trip
    time, the other coordinate and the random draws: the well-formedness of
    the client (its dimension, window sizes and indices) is kept, the error
    estimate stays at or below [vivaldi_error_max], and the height stays at
    or above [height_min]. *)
Theorem update_valid {I} `{Countable I} powf rnd1 rnd2 (cl : CoordinateClient I) id other rtt :
  wf_client cl → height_ok cl →
  check_coordinate (coord cl) other = Ok tt → rtt <= MAX_RTT →
  ∃ cl', update powf rnd1 rnd2 cl id other rtt = Done (cl', Ok (coord cl')) ∧
    wf_client cl' ∧ is_valid (coord cl') = true ∧
    le (error (coord cl')) (vivaldi_error_max (copts cl)) = true ∧ height_ok cl'.
Proof.
  intros Hwf Hh Hck Hrtt.
  destruct (update_accepted powf rnd1 rnd2 cl id other rtt) as (cl' & ? & Hwf' & ? & ? & ?);
    [done..|].
  exists cl'. split_and!; auto. apply Hwf'.
Qed.

Lemma default_options_wf : wf_options default_coordinate_options.
Proof. constructor; vm_compute; lia || reflexivity. Qed.

Lemma update_valid_witness :
  ∃ cl', update (λ x _, mul x x) (λ _, zero) (λ _, zero)
           (client_with_options (I := nat) default_coordinate_options) 7%nat
           (mkCoordinate (replicate 8 (lit 1 10)) (lit 1 2) zero (lit 1 1000)) 50000000
         = Done (cl', Ok (coord cl')) ∧
    wf_client cl' ∧ is_valid (coord cl') = true ∧
    le (error (coord cl')) (lit 3 2) = true ∧ height_ok cl'.
Proof.
  apply (update_valid (λ x _, mul x x) (λ _, zero) (λ _, zero)
           (client_with_options (I := nat) default_coordinate_options) 7%nat
           (mkCoordinate (replicate 8 (lit 1 10)) (lit 1 2) zero (lit 1 1000)) 50000000).
  - apply client_with_options_wf, default_options_wf.
  - vm_compute. reflexivity.
  - vm_compute. reflexivity.
  - vm_compute. discriminate.
Defined.

(** [update] rejects, in this order, a coordinate of another dimension,
    a coordinate that is not finite, and a round trip time above ten
    seconds; a rejected update leaves the client as it was, and no other
    update is rejected. *)
Theorem update_errors {I} `{Countable I} powf rnd1 rnd2 (cl : CoordinateClient I) id other rtt :
  wf_client cl →
  let res := update powf rnd1 rnd2 cl id other rtt in
  (length (portion other) ≠ dimensionality (copts cl) →
     res = Done (cl, Err DimensionalityMismatch)) ∧
  (length (portion other) = dimensionality (copts cl) → is_valid other = false →
     res = Done (cl, Err InvalidCoordinate)) ∧
  (length (portion other) = dimensionality (copts cl) → is_valid other = true →
     MAX_RTT < rtt → res = Done (cl, Err (InvalidRTT rtt))) ∧
  (length (portion other) = dimensionality (copts cl) → is_valid other = true →
     rtt <= MAX_RTT → ∃ cl' c, res = Done (cl', Ok c)).
Proof.
  intros Hwf res. unfold res. pose proof (wfc_coord _ Hwf) as Hc.
  split_and!.
  - intros Hd. apply update_rejected. unfold check_coordinate.
    destruct (is_compatible_with _ _) eqn:E; [|done].
    apply compatible_iff in E. lia.
  - intros Hd Hv. apply update_rejected. unfold check_coordinate.
    rewrite (proj2 (compatible_iff (coord cl) other)) by lia. by rewrite Hv.
  - intros Hd Hv Hr. unfold update.
    rewrite (proj2 (check_coordinate_ok (coord cl) other)) by (split; [lia|done]).
    by rewrite (proj2 (Z.ltb_lt MAX_RTT rtt)).
  - intros Hd Hv Hr.
    destruct (update_accepted powf rnd1 rnd2 cl id other rtt) as (cl' & -> & _); eauto.
    apply check_coordinate_ok. split; [lia|done].
Qed.

Lemma update_errors_witness :
  let cl := client_with_options (I := nat) default_coordinate_options in
  update (λ x _, mul x x) (λ _, zero) (λ _, zero) cl 7%nat
    (mkCoordinate [zero] zero zero zero) 5 = Done (cl, Err DimensionalityMismatch).
Proof.
  intros cl.
  apply (update_errors (λ x _, mul x x) (λ _, zero) (λ _, zero) cl 7%nat
           (mkCoordinate [zero] zero zero zero) 5).
  - apply client_with_options_wf, default_options_wf.
  - vm_compute. discriminate.
Defined.

(** gravity has no effect on a coordinate estimated to be less than a
    second from the origin: the distance enters the force as whole seconds,
    so the force there is a negative zero, and with it the Vivaldi drift
    that gravity is there to combat goes uncorrected.  [powf] is only
    assumed to raise zero to two as IEEE 754 says. *)
Theorem gravity_vanishes_below_one_second {I} `{Countable I} (powf : f64 → f64 → f64)
    rnd (cl : CoordinateClient I) dist :
  powf zero (of_Z 2) = zero →
  gravity_rho (copts cl) = of_Z 150 →
  distance_to (origin cl) (coord cl) = Done dist → dist < NANOS_PER_SEC → 0 <= dist →
  update_gravity powf rnd cl =
    match apply_force rnd (height_min (copts cl)) neg_zero (coord cl) (origin cl) with
    | Done c => Done (set_coord cl c)
    | Panic => Panic
    end.
Proof.
  intros Hpow Hrho Hd Hlt Hge. unfold update_gravity. rewrite Hd.
  assert (gravity_force powf cl dist = neg_zero) as ->; [|by destruct (apply_force _ _ _ _ _)].
  unfold gravity_force, as_secs. rewrite Z.div_small by done. rewrite Hrho.
  assert (div (of_Z 0) (of_Z 150) = zero) as -> by (vm_compute; reflexivity).
  by rewrite Hpow.
Qed.

(** The origin client moved to 0.9 s along one axis. *)
Definition drifted : CoordinateClient nat :=
  set_coord (client_with_options default_coordinate_options)
    (mkCoordinate (lit 9 10 :: replicate 7 zero) (lit 3 2) zero (lit 1 100000)).

Lemma gravity_vanishes_witness :
  update_gravity (λ x _, mul x x) (λ _, zero) drifted = Done drifted.
Proof.
  rewrite (gravity_vanishes_below_one_second (λ x _, mul x x) (λ _, zero) drifted 900019999).
  - vm_compute. reflexivity.
  - vm_compute. reflexivity.
  - vm_compute. reflexivity.
  - vm_compute. reflexivity.
  - vm_compute. reflexivity.
  - vm_compute. discriminate.
Defined.
