(* ===== verification/Types.v ===== *)
(** * The data the components exchange

    Members and their states (types/member.rs), the gossip messages
    (types/join.rs, leave.rs, user_event.rs, query.rs, push_pull.rs,
    filter.rs), the events handed to the application (event.rs,
    event/crate_event.rs) and the codec interface through which handlers
    read and write bytes (types/message.rs, types/tags.rs).

    [I] is a node id, [A] a resolved address.  Durations and instants are
    nanoseconds, Lamport times [u64] values, both in [Z]. *)

From Stdlib Require Import ZArith Lia Strings.Byte.
From stdpp Require Import base list gmap strings.
From S2P Require Import Prelude.
Local Open Scope Z_scope.


(** [Tags] is an insertion-ordered [IndexMap<SmolStr, SmolStr>]. *)
Abbreviation Tags := (list (string * string)) (only parsing).

(** The errors a decoder reports. *)
Inductive DecodeError : Type :=
| DuplicateField (tag : Z)
| MissingField
| BufferUnderflow
| Custom (msg : string).

#[export] Instance DecodeError_eq_dec : EqDecision DecodeError.
Proof. solve_decision. Defined.

Inductive EncodeError : Type :=
| InsufficientBuffer (required remaining : Z)
| TooLarge.

#[export] Instance EncodeError_eq_dec : EqDecision EncodeError.
Proof. solve_decision. Defined.

(** The kinds of [std::io::Error] the snapshot tells apart. *)
Inductive IoError : Type := UnexpectedEof | InvalidData | NotFound | OtherIo.

Inductive SnapshotError : Type :=
| SOpen (e : IoError) | SOpenNew (e : IoError) | SFlushNew (e : IoError) | SFlush (e : IoError)
| SSync (e : IoError) | SStat (e : IoError) | SRemove (e : IoError) | SInstall (e : IoError)
| SWriteNew (e : IoError) | SWrite (e : IoError) | SSeekStart (e : IoError)
| SSeekEnd (e : IoError) | SReplay (e : IoError) | UnknownRecordType (v : Z).

(** ** Versions, statuses and message types *)

Inductive DelegateVersion : Type := DV1 | DUnknown (v : Z).
Inductive ProtocolVersion : Type := PV1 | PUnknown (v : Z).

#[export] Instance DelegateVersion_eq_dec : EqDecision DelegateVersion.
Proof. solve_decision. Defined.
#[export] Instance ProtocolVersion_eq_dec : EqDecision ProtocolVersion.
Proof. solve_decision. Defined.

Module MemberStatus.
Inductive t : Type :=
| None | Alive | Leaving | Left | Failed | Unknown (v : Z).

#[global] Instance eq_dec : EqDecision t.
Proof. solve_decision. Defined.

Definition of_u8 (v : Z) : t :=
  if v =? 0 then None else if v =? 1 then Alive else if v =? 2 then Leaving
  else if v =? 3 then Left else if v =? 4 then Failed else Unknown v.

Definition to_u8 (s : t) : Z :=
  match s with
  | None => 0 | Alive => 1 | Leaving => 2 | Left => 3 | Failed => 4 | Unknown v => v
  end.
End MemberStatus.

Module MessageType.
Inductive t : Type :=
| Leave | Join | PushPull | UserEvent | Query | QueryResponse
| ConflictResponse | Relay | KeyRequest | KeyResponse | Unknown (v : Z).

#[global] Instance eq_dec : EqDecision t.
Proof. solve_decision. Defined.

Definition of_u8 (v : Z) : t :=
  if v =? 1 then Leave else if v =? 2 then Join else if v =? 3 then PushPull
  else if v =? 4 then UserEvent else if v =? 5 then Query
  else if v =? 6 then QueryResponse else if v =? 7 then ConflictResponse
  else if v =? 8 then Relay else if v =? 9 then KeyRequest
  else if v =? 10 then KeyResponse else Unknown v.

Definition to_u8 (m : t) : Z :=
  match m with
  | Leave => 1 | Join => 2 | PushPull => 3 | UserEvent => 4 | Query => 5
  | QueryResponse => 6 | ConflictResponse => 7 | Relay => 8 | KeyRequest => 9
  | KeyResponse => 10 | Unknown v => v
  end.
End MessageType.

Module SerfState.
Inductive t : Type := Alive | Leaving | Left | Shutdown.

#[global] Instance eq_dec : EqDecision t.
Proof. solve_decision. Defined.
End SerfState.

Module MemberEventType.
Inductive t : Type := Join | Leave | Failed | Update | Reap.

#[global] Instance eq_dec : EqDecision t.
Proof. solve_decision. Defined.
End MemberEventType.

(** What the public operations report.  [Memberlist] stands for the errors
    of the memberlist crate, which serf passes through. *)
Inductive Error : Type :=
| Memberlist
| UserEventLimitTooLarge (n : Z)
| UserEventTooLarge (n : Z)
| BadJoinStatus (s : SerfState.t)
| BadLeaveStatus (s : SerfState.t)
| RawUserEventTooLarge (n : Z)
| QueryTooLarge (n : Z)
| QueryTimeout
| QueryResponseTooLarge (limit got : Z)
| QueryAlreadyResponsed
| FailTruncateResponse
| TagsTooLarge (n : Z)
| RelayedResponseTooLarge (n : Z)
| QueryResponseDeliveryFailed
| CoordinatesDisabled
| Snapshot (e : SnapshotError)
| Decode (e : DecodeError)
| Encode (e : EncodeError)
| RemovalBroadcastTimeout
| BroadcastChannelClosed.

(** ** Nodes and members *)

Record Node (I A : Type) : Type := mkNode { node_id : I; address : A }.
Arguments mkNode {I A} node_id address.
Arguments node_id {I A} n : rename.
Arguments address {I A} n : rename.

#[export] Instance Node_eq_dec {I A} `{EqDecision I} `{EqDecision A} :
  EqDecision (Node I A).
Proof. solve_decision. Defined.

#[export] Program Instance Node_countable {I A} `{Countable I} `{Countable A} :
  Countable (Node I A) :=
  inj_countable' (λ n, (node_id n, address n)) (λ p, mkNode p.1 p.2) _.
Next Obligation. by intros I A ???? [i a]. Qed.

Record Member (I A : Type) : Type := mkMember {
  node : Node I A;
  tags : Tags;
  status : MemberStatus.t;
  memberlist_protocol_version : ProtocolVersion;
  memberlist_delegate_version : DelegateVersion;
  protocol_version : ProtocolVersion;
  delegate_version : DelegateVersion;
}.
Arguments mkMember {I A}.
Arguments node {I A} m : rename.
Arguments tags {I A} m : rename.
Arguments status {I A} m : rename.
Arguments memberlist_protocol_version {I A} m : rename.
Arguments memberlist_delegate_version {I A} m : rename.
Arguments protocol_version {I A} m : rename.
Arguments delegate_version {I A} m : rename.

Record MemberState (I A : Type) : Type := mkMemberState {
  member : Member I A;
  status_time : Z;            (** Lamport time of the last accepted intent *)
  leave_time : option Z;      (** wall-clock time of the departure *)
}.
Arguments mkMemberState {I A}.
Arguments member {I A} m : rename.
Arguments status_time {I A} m : rename.
Arguments leave_time {I A} m : rename.

(** The id under which a member state is filed. *)
Definition ms_id {I A} (m : MemberState I A) : I := node_id (node (member m)).
Definition ms_status {I A} (m : MemberState I A) : MemberStatus.t := status (member m).

Record NodeIntent : Type := mkNodeIntent {
  intent_ty : MessageType.t;
  wall_time : Z;
  intent_ltime : Z;
}.

Record Members (I A : Type) `{Countable I} : Type := mkMembers {
  states : gmap I (MemberState I A);
  recent_intents : gmap I NodeIntent;
  left_members : list (MemberState I A);
  failed_members : list (MemberState I A);
}.
Arguments mkMembers {I A _ _}.
Arguments states {I A _ _} m : rename.
Arguments recent_intents {I A _ _} m : rename.
Arguments left_members {I A _ _} m : rename.
Arguments failed_members {I A _ _} m : rename.

Definition default_members {I A} `{Countable I} : Members I A :=
  mkMembers ∅ ∅ [] [].

(** memberlist's view of a node, as its callbacks pass it. *)
Inductive NodeLiveness : Type := NSAlive | NSSuspect | NSDead | NSLeft | NSUnknown (v : Z).

#[export] Instance NodeLiveness_eq_dec : EqDecision NodeLiveness.
Proof. solve_decision. Defined.

Record NodeState (I A : Type) : Type := mkNodeState {
  ns_node : Node I A;
  meta : bytes;
  ns_state : NodeLiveness;
  ns_protocol_version : ProtocolVersion;
  ns_delegate_version : DelegateVersion;
}.
Arguments mkNodeState {I A}.
Arguments ns_node {I A} n : rename.
Arguments meta {I A} n : rename.
Arguments ns_state {I A} n : rename.
Arguments ns_protocol_version {I A} n : rename.
Arguments ns_delegate_version {I A} n : rename.

(** ** Messages *)

Record JoinMessage (I : Type) : Type := mkJoin { join_ltime : Z; join_id : I }.
Arguments mkJoin {I}.
Arguments join_ltime {I} j : rename.
Arguments join_id {I} j : rename.

Record LeaveMessage (I : Type) : Type := mkLeave {
  leave_ltime : Z; leave_id : I; prune : bool }.
Arguments mkLeave {I}.
Arguments leave_ltime {I} l : rename.
Arguments leave_id {I} l : rename.
Arguments prune {I} l : rename.

Record UserEvent : Type := mkUserEvent { ue_name : string; ue_payload : bytes }.

#[export] Instance UserEvent_eq_dec : EqDecision UserEvent.
Proof. solve_decision. Defined.

Record UserEvents : Type := mkUserEvents { ues_ltime : Z; ues_events : list UserEvent }.

Record UserEventMessage : Type := mkUserEventMessage {
  uem_ltime : Z; uem_name : string; uem_payload : bytes; cc : bool }.

#[export] Instance UserEventMessage_eq_dec : EqDecision UserEventMessage.
Proof. solve_decision. Defined.

(** A filter as a local caller gives it: the regular expression is compiled.
    [R] is the [regex] crate's compiled expression. *)
Inductive Filter (I R : Type) : Type :=
| FilterId (ids : list I)
| FilterTag (tag : string) (expr : option R).
Arguments FilterId {I R}.
Arguments FilterTag {I R}.

(** A filter as it is read from the wire: ids decode one at a time as the
    filter is walked, the expression is still text. *)
Inductive FilterRef (I : Type) : Type :=
| FilterRefId (ids : list (Result I DecodeError))
| FilterRefTag (tag : string) (expr : option string).
Arguments FilterRefId {I}.
Arguments FilterRefTag {I}.

(** [QueryFlag] is a bit set over [u32]. *)
Definition FLAG_ACK : Z := Z.shiftl 1 0.
Definition FLAG_NO_BROADCAST : Z := Z.shiftl 1 1.
Definition flags_contains (flags f : Z) : bool := Z.land flags f =? f.

Record QueryMessage (I A R : Type) : Type := mkQuery {
  q_ltime : Z; q_id : Z; q_from : Node I A; q_filters : list (Filter I R);
  q_flags : Z; q_relay_factor : Z; q_timeout : Z; q_name : string; q_payload : bytes;
}.
Arguments mkQuery {I A R}.
Arguments q_ltime {I A R} q : rename.
Arguments q_id {I A R} q : rename.
Arguments q_from {I A R} q : rename.
Arguments q_filters {I A R} q : rename.
Arguments q_flags {I A R} q : rename.
Arguments q_relay_factor {I A R} q : rename.
Arguments q_timeout {I A R} q : rename.
Arguments q_name {I A R} q : rename.
Arguments q_payload {I A R} q : rename.

(** A query on the wire: filters decode as they are iterated, the source
    node when it is first needed. *)
Record QueryMessageRef (I A : Type) : Type := mkQueryRef {
  qr_ltime : Z; qr_id : Z; qr_from : Result (Node I A) DecodeError;
  qr_filters : list (Result (FilterRef I) DecodeError);
  qr_flags : Z; qr_relay_factor : Z; qr_timeout : Z; qr_name : string; qr_payload : bytes;
}.
Arguments mkQueryRef {I A}.
Arguments qr_ltime {I A} q : rename.
Arguments qr_id {I A} q : rename.
Arguments qr_from {I A} q : rename.
Arguments qr_filters {I A} q : rename.
Arguments qr_flags {I A} q : rename.
Arguments qr_relay_factor {I A} q : rename.
Arguments qr_timeout {I A} q : rename.
Arguments qr_name {I A} q : rename.
Arguments qr_payload {I A} q : rename.

Record QueryResponseMessage (I A : Type) : Type := mkQueryResponse {
  r_ltime : Z; r_id : Z; r_from : Node I A; r_flags : Z; r_payload : bytes }.
Arguments mkQueryResponse {I A}.
Arguments r_ltime {I A} r : rename.
Arguments r_id {I A} r : rename.
Arguments r_from {I A} r : rename.
Arguments r_flags {I A} r : rename.
Arguments r_payload {I A} r : rename.

(** [status_ltimes] is an [IndexMap], [left_members] an [IndexSet]: both are
    walked in insertion order. *)
Record PushPullMessage (I : Type) : Type := mkPushPull {
  pp_ltime : Z;
  pp_status_ltimes : list (I * Z);
  pp_left_members : list I;
  pp_event_ltime : Z;
  pp_events : list UserEvents;
  pp_query_ltime : Z;
}.
Arguments mkPushPull {I}.
Arguments pp_ltime {I} p : rename.
Arguments pp_status_ltimes {I} p : rename.
Arguments pp_left_members {I} p : rename.
Arguments pp_event_ltime {I} p : rename.
Arguments pp_events {I} p : rename.
Arguments pp_query_ltime {I} p : rename.

(** ** Events *)

Inductive InternalQueryEvent (I : Type) : Type :=
| IQPing | IQConflict (id : I) | IQInstallKey | IQUseKey | IQRemoveKey | IQListKey.
Arguments IQPing {I}.
Arguments IQConflict {I}.
Arguments IQInstallKey {I}.
Arguments IQUseKey {I}.
Arguments IQRemoveKey {I}.
Arguments IQListKey {I}.

Record MemberEvent (I A : Type) : Type := mkMemberEvent {
  me_ty : MemberEventType.t; me_members : list (Member I A) }.
Arguments mkMemberEvent {I A}.
Arguments me_ty {I A} e : rename.
Arguments me_members {I A} e : rename.

(** The deadline of a query event starts when it is created; [None] once the
    application has responded. *)
Record QueryEvent (I A : Type) : Type := mkQueryEvent {
  qe_ltime : Z; qe_name : string; qe_payload : bytes;
  qe_timeout : Z; qe_span : option Z;
  qe_id : Z; qe_from : Node I A; qe_relay_factor : Z }.
Arguments mkQueryEvent {I A}.
Arguments qe_ltime {I A} e : rename.
Arguments qe_name {I A} e : rename.
Arguments qe_payload {I A} e : rename.
Arguments qe_timeout {I A} e : rename.
Arguments qe_span {I A} e : rename.
Arguments qe_id {I A} e : rename.
Arguments qe_from {I A} e : rename.
Arguments qe_relay_factor {I A} e : rename.

Inductive CrateEvent (I A : Type) : Type :=
| EvMember (e : MemberEvent I A)
| EvUser (e : UserEventMessage)
| EvQuery (e : QueryEvent I A)
| EvInternalQuery (kind : InternalQueryEvent I) (query : QueryEvent I A).
Arguments EvMember {I A}.
Arguments EvUser {I A}.
Arguments EvQuery {I A}.
Arguments EvInternalQuery {I A}.

(** A member event about one member. *)
Definition member_event {I A} (ty : MemberEventType.t) (m : Member I A) : CrateEvent I A :=
  EvMember (mkMemberEvent ty [m]).

(** ** The codec interface *)

(** The messages the handlers encode. *)
Inductive Message (I A R : Type) : Type :=
| MLeave (m : LeaveMessage I)
| MJoin (m : JoinMessage I)
| MPushPull (m : PushPullMessage I)
| MUserEvent (m : UserEventMessage)
| MQuery (m : QueryMessage I A R)
| MQueryResponse (m : QueryResponseMessage I A).
Arguments MLeave {I A R}.
Arguments MJoin {I A R}.
Arguments MPushPull {I A R}.
Arguments MUserEvent {I A R}.
Arguments MQuery {I A R}.
Arguments MQueryResponse {I A R}.

(** What [decode_message] yields.  The parts that only decode when they are
    converted to owned values keep their [Result]. *)
Inductive MessageRef (I A : Type) : Type :=
| RLeave (ltime : Z) (id : Result I DecodeError) (prune : bool)
| RJoin (ltime : Z) (id : Result I DecodeError)
| RPushPull (ltime event_ltime query_ltime : Z) (pp : Result (PushPullMessage I) DecodeError)
| RUserEvent (m : UserEventMessage)
| RQuery (m : QueryMessageRef I A)
| RQueryResponse (ltime id : Z) (resp : Result (QueryResponseMessage I A) DecodeError)
| RConflictResponse (addr : Result A DecodeError)
| RRelay (addr : Result A DecodeError) (payload_offset : nat) (payload : bytes)
| RKeyRequest
| RKeyResponse.
Arguments RLeave {I A}.
Arguments RJoin {I A}.
Arguments RPushPull {I A}.
Arguments RUserEvent {I A}.
Arguments RQuery {I A}.
Arguments RQueryResponse {I A}.
Arguments RConflictResponse {I A}.
Arguments RRelay {I A}.
Arguments RKeyRequest {I A}.
Arguments RKeyResponse {I A}.

(** The functions of types/message.rs and types/tags.rs that handlers call,
    over the wire format of the memberlist crate, and the [regex] crate.
    [META_MAX_SIZE] is memberlist's limit on a node's meta data and
    [u32_encoded_len] the length of its variable-length [u32]. *)
Class Codec (I A R : Type) : Type := {
  META_MAX_SIZE : Z;
  u32_encoded_len : Z → Z;
  encoded_message_len : Message I A R → Z;
  encode_message_to_bytes : Message I A R → Result bytes EncodeError;
  encoded_relay_message_len : QueryResponseMessage I A → Node I A → Z;
  encode_relay_message_to_bytes : QueryResponseMessage I A → Node I A → Result bytes EncodeError;
  decode_message : bytes → outcome (Result (MessageRef I A) DecodeError);
  decode_tags : bytes → Result Tags DecodeError;
  tags_encoded_len : Tags → Z;
  tags_encoded_len_with_length_delimited : Tags → Z;
  encode_tags : Tags → Result bytes EncodeError;
  encode_id : I → Result bytes EncodeError;
  decode_id : bytes → Result I DecodeError;
  regex_new : string → option R;
  regex_is_match : R → string → bool;
}.
