(* ===== verification/Core.v ===== *)
(** * The state of a serf instance (serf-core/src/serf.rs, options.rs)

    [Serf] is [SerfCore]: the three clocks, the broadcast queues, the members,
    the event and query buffers, the life-cycle state and the coordinates,
    together with what the instance hands to the outside: the events on its
    channel, the packets given to memberlist and the tasks it spawned.  Every
    handler of the other files maps a [Serf] to a [Serf]. *)

From Stdlib Require Import ZArith Lia Strings.Byte.
From stdpp Require Import base list gmap strings.
From S2P Require Import Prelude Clock Coordinate Types.
Local Open Scope Z_scope.

Record CoordCore (I : Type) `{Countable I} : Type := mkCoordCore {
  client : CoordinateClient I;
  cache : gmap I Coordinate;
}.
Arguments mkCoordCore {I _ _}.
Arguments client {I _ _} c : rename.
Arguments cache {I _ _} c : rename.

(** A gossip broadcast: the encoded message and whether a caller waits on its
    [notify_tx]. *)
Record SerfBroadcast : Type := mkBroadcast { bmsg : bytes; notify : bool }.

Record Queries : Type := mkQueries { queries_ltime : Z; query_ids : list Z }.

Record EventCore : Type := mkEventCore {
  event_min_time : Z; event_buffer : list (option UserEvents) }.

(** [responses] maps a Lamport time to a handle of the response heap. *)
Record QueryCore : Type := mkQueryCore {
  responses : gmap Z nat; query_min_time : Z; query_buffer : list (option Queries) }.

(** A bounded channel: its capacity, what it holds, whether it is closed. *)
Record Channel (T : Type) : Type := mkChannel {
  capacity : nat; queue : list T; ch_closed : bool }.
Arguments mkChannel {T}.
Arguments capacity {T} c : rename.
Arguments queue {T} c : rename.
Arguments ch_closed {T} c : rename.

Record NodeResponse (I A : Type) : Type := mkNodeResponse {
  nr_from : Node I A; nr_payload : bytes }.
Arguments mkNodeResponse {I A}.
Arguments nr_from {I A} r : rename.
Arguments nr_payload {I A} r : rename.

Record QueryResponse (I A : Type) `{Countable I} `{Countable A} : Type := mkQR {
  deadline : Z;
  qresp_id : Z;
  qresp_ltime : Z;
  closed : bool;
  acks : gset (Node I A);
  resps : gset (Node I A);
  ack_ch : option (Channel (Node I A));
  resp_ch : Channel (NodeResponse I A);
}.
Arguments mkQR {I A _ _ _ _}.
Arguments deadline {I A _ _ _ _} q : rename.
Arguments qresp_id {I A _ _ _ _} q : rename.
Arguments qresp_ltime {I A _ _ _ _} q : rename.
Arguments closed {I A _ _ _ _} q : rename.
Arguments acks {I A _ _ _ _} q : rename.
Arguments resps {I A _ _ _ _} q : rename.
Arguments ack_ch {I A _ _ _ _} q : rename.
Arguments resp_ch {I A _ _ _ _} q : rename.

(** What the instance sets going outside its own state: the refutation of a
    leave intent, the vote on an id conflict, the timer that closes a query,
    the leave signal to the snapshotter, the end of the background tasks. *)
Inductive Task : Type :=
| TaskBroadcastJoin (ltime : Z)
| TaskResolveConflict
| TaskCloseQuery (at_time ltime : Z)
| TaskSnapshotLeave
| TaskShutdown.

(** memberlist's own options appear as the values serf asks for; the tags,
    which sit in a shared cell, as the value the cell holds. *)
Record Options : Type := mkOptions {
  opt_tags : Tags;
  opt_protocol_version : ProtocolVersion;
  opt_delegate_version : DelegateVersion;
  opt_memberlist_protocol_version : ProtocolVersion;
  opt_memberlist_delegate_version : DelegateVersion;
  gossip_interval : Z;
  broadcast_timeout : Z;
  leave_propagate_delay : Z;
  opt_coalesce_period : Z;
  opt_quiescent_period : Z;
  opt_user_coalesce_period : Z;
  opt_user_quiescent_period : Z;
  reap_interval : Z;
  reconnect_interval : Z;
  reconnect_timeout : Z;
  tombstone_timeout : Z;
  flap_timeout : Z;
  queue_check_interval : Z;
  queue_depth_warning : Z;
  recent_intent_timeout : Z;
  max_queue_depth : Z;
  min_queue_depth : Z;
  event_buffer_size : nat;
  query_buffer_size : nat;
  query_timeout_mult : Z;
  query_response_size_limit : Z;
  query_size_limit : Z;
  opt_snapshot_path : option string;
  opt_rejoin_after_leave : bool;
  enable_id_conflict_resolution : bool;
  disable_coordinates : bool;
  opt_keyring_file : option string;
  max_user_event_size : Z;
}.

Definition SECOND : Z := 1000000000.

(** [Options::new], with the values of memberlist's LAN profile left to the
    caller. *)
Definition default_options (mpv : ProtocolVersion) (mdv : DelegateVersion) (gossip : Z) : Options := {|
  opt_tags := [];
  opt_protocol_version := PV1;
  opt_delegate_version := DV1;
  opt_memberlist_protocol_version := mpv;
  opt_memberlist_delegate_version := mdv;
  gossip_interval := gossip;
  broadcast_timeout := 5 * SECOND;
  leave_propagate_delay := 1 * SECOND;
  opt_coalesce_period := 0;
  opt_quiescent_period := 0;
  opt_user_coalesce_period := 0;
  opt_user_quiescent_period := 0;
  reap_interval := 15 * SECOND;
  reconnect_interval := 30 * SECOND;
  reconnect_timeout := 3600 * 24 * SECOND;
  tombstone_timeout := 3600 * 24 * SECOND;
  flap_timeout := 60 * SECOND;
  queue_check_interval := 30 * SECOND;
  queue_depth_warning := 128;
  recent_intent_timeout := 60 * 5 * SECOND;
  max_queue_depth := 4096;
  min_queue_depth := 0;
  event_buffer_size := 512;
  query_buffer_size := 512;
  query_timeout_mult := 16;
  query_response_size_limit := 1024;
  query_size_limit := 1024;
  opt_snapshot_path := None;
  opt_rejoin_after_leave := false;
  enable_id_conflict_resolution := true;
  disable_coordinates := false;
  opt_keyring_file := None;
  max_user_event_size := 512;
|}.

Record Serf (I A : Type) `{Countable I} `{Countable A} : Type := mkSerf {
  clock : Z;  (** Lamport clock of membership intents *)
  event_clock : Z;  (** Lamport clock of user events *)
  query_clock : Z;  (** Lamport clock of queries *)
  broadcasts : list SerfBroadcast;  (** intents handed to memberlist's transmit queue *)
  event_broadcasts : list SerfBroadcast;  (** user events handed to the queue *)
  query_broadcasts : list SerfBroadcast;  (** queries handed to the queue *)
  members : Members I A;
  event_tx : list (CrateEvent I A);  (** events sent to the application, oldest first *)
  event_join_ignore : bool;
  event_core : EventCore;
  query_core : QueryCore;
  query_heap : list (QueryResponse I A);  (** the shared [QueryResponse]s; [query_core] and callers hold indices *)
  opts : Options;
  serf_state : SerfState.t;
  coord_core : option (CoordCore I);
  sent : list (A * bytes);  (** packets passed to [memberlist.send] *)
  spawned : list Task;  (** tasks and signals set going so far *)
  local_node : Node I A;  (** [memberlist.local_id] and [advertise_node] *)
}.
Arguments mkSerf {I A _ _ _ _}.
Arguments clock {I A _ _ _ _} s : rename.
Arguments event_clock {I A _ _ _ _} s : rename.
Arguments query_clock {I A _ _ _ _} s : rename.
Arguments broadcasts {I A _ _ _ _} s : rename.
Arguments event_broadcasts {I A _ _ _ _} s : rename.
Arguments query_broadcasts {I A _ _ _ _} s : rename.
Arguments members {I A _ _ _ _} s : rename.
Arguments event_tx {I A _ _ _ _} s : rename.
Arguments event_join_ignore {I A _ _ _ _} s : rename.
Arguments event_core {I A _ _ _ _} s : rename.
Arguments query_core {I A _ _ _ _} s : rename.
Arguments query_heap {I A _ _ _ _} s : rename.
Arguments opts {I A _ _ _ _} s : rename.
Arguments serf_state {I A _ _ _ _} s : rename.
Arguments coord_core {I A _ _ _ _} s : rename.
Arguments sent {I A _ _ _ _} s : rename.
Arguments spawned {I A _ _ _ _} s : rename.
Arguments local_node {I A _ _ _ _} s : rename.

Section setters.
Context {I A : Type} `{Countable I} `{Countable A}.
Implicit Types s : Serf I A.

Definition set_clock s (v : Z) : Serf I A :=
  mkSerf v (s.(event_clock)) (s.(query_clock)) (s.(broadcasts)) (s.(event_broadcasts)) (s.(query_broadcasts)) (s.(members)) (s.(event_tx)) (s.(event_join_ignore)) (s.(event_core)) (s.(query_core)) (s.(query_heap)) (s.(opts)) (s.(serf_state)) (s.(coord_core)) (s.(sent)) (s.(spawned)) (s.(local_node)).
Definition set_event_clock s (v : Z) : Serf I A :=
  mkSerf (s.(clock)) v (s.(query_clock)) (s.(broadcasts)) (s.(event_broadcasts)) (s.(query_broadcasts)) (s.(members)) (s.(event_tx)) (s.(event_join_ignore)) (s.(event_core)) (s.(query_core)) (s.(query_heap)) (s.(opts)) (s.(serf_state)) (s.(coord_core)) (s.(sent)) (s.(spawned)) (s.(local_node)).
Definition set_query_clock s (v : Z) : Serf I A :=
  mkSerf (s.(clock)) (s.(event_clock)) v (s.(broadcasts)) (s.(event_broadcasts)) (s.(query_broadcasts)) (s.(members)) (s.(event_tx)) (s.(event_join_ignore)) (s.(event_core)) (s.(query_core)) (s.(query_heap)) (s.(opts)) (s.(serf_state)) (s.(coord_core)) (s.(sent)) (s.(spawned)) (s.(local_node)).
Definition set_broadcasts s (v : list SerfBroadcast) : Serf I A :=
  mkSerf (s.(clock)) (s.(event_clock)) (s.(query_clock)) v (s.(event_broadcasts)) (s.(query_broadcasts)) (s.(members)) (s.(event_tx)) (s.(event_join_ignore)) (s.(event_core)) (s.(query_core)) (s.(query_heap)) (s.(opts)) (s.(serf_state)) (s.(coord_core)) (s.(sent)) (s.(spawned)) (s.(local_node)).
Definition set_event_broadcasts s (v : list SerfBroadcast) : Serf I A :=
  mkSerf (s.(clock)) (s.(event_clock)) (s.(query_clock)) (s.(broadcasts)) v (s.(query_broadcasts)) (s.(members)) (s.(event_tx)) (s.(event_join_ignore)) (s.(event_core)) (s.(query_core)) (s.(query_heap)) (s.(opts)) (s.(serf_state)) (s.(coord_core)) (s.(sent)) (s.(spawned)) (s.(local_node)).
Definition set_query_broadcasts s (v : list SerfBroadcast) : Serf I A :=
  mkSerf (s.(clock)) (s.(event_clock)) (s.(query_clock)) (s.(broadcasts)) (s.(event_broadcasts)) v (s.(members)) (s.(event_tx)) (s.(event_join_ignore)) (s.(event_core)) (s.(query_core)) (s.(query_heap)) (s.(opts)) (s.(serf_state)) (s.(coord_core)) (s.(sent)) (s.(spawned)) (s.(local_node)).
Definition set_members s (v : Members I A) : Serf I A :=
  mkSerf (s.(clock)) (s.(event_clock)) (s.(query_clock)) (s.(broadcasts)) (s.(event_broadcasts)) (s.(query_broadcasts)) v (s.(event_tx)) (s.(event_join_ignore)) (s.(event_core)) (s.(query_core)) (s.(query_heap)) (s.(opts)) (s.(serf_state)) (s.(coord_core)) (s.(sent)) (s.(spawned)) (s.(local_node)).
Definition set_event_tx s (v : list (CrateEvent I A)) : Serf I A :=
  mkSerf (s.(clock)) (s.(event_clock)) (s.(query_clock)) (s.(broadcasts)) (s.(event_broadcasts)) (s.(query_broadcasts)) (s.(members)) v (s.(event_join_ignore)) (s.(event_core)) (s.(query_core)) (s.(query_heap)) (s.(opts)) (s.(serf_state)) (s.(coord_core)) (s.(sent)) (s.(spawned)) (s.(local_node)).
Definition set_event_join_ignore s (v : bool) : Serf I A :=
  mkSerf (s.(clock)) (s.(event_clock)) (s.(query_clock)) (s.(broadcasts)) (s.(event_broadcasts)) (s.(query_broadcasts)) (s.(members)) (s.(event_tx)) v (s.(event_core)) (s.(query_core)) (s.(query_heap)) (s.(opts)) (s.(serf_state)) (s.(coord_core)) (s.(sent)) (s.(spawned)) (s.(local_node)).
Definition set_event_core s (v : EventCore) : Serf I A :=
  mkSerf (s.(clock)) (s.(event_clock)) (s.(query_clock)) (s.(broadcasts)) (s.(event_broadcasts)) (s.(query_broadcasts)) (s.(members)) (s.(event_tx)) (s.(event_join_ignore)) v (s.(query_core)) (s.(query_heap)) (s.(opts)) (s.(serf_state)) (s.(coord_core)) (s.(sent)) (s.(spawned)) (s.(local_node)).
Definition set_query_core s (v : QueryCore) : Serf I A :=
  mkSerf (s.(clock)) (s.(event_clock)) (s.(query_clock)) (s.(broadcasts)) (s.(event_broadcasts)) (s.(query_broadcasts)) (s.(members)) (s.(event_tx)) (s.(event_join_ignore)) (s.(event_core)) v (s.(query_heap)) (s.(opts)) (s.(serf_state)) (s.(coord_core)) (s.(sent)) (s.(spawned)) (s.(local_node)).
Definition set_query_heap s (v : list (QueryResponse I A)) : Serf I A :=
  mkSerf (s.(clock)) (s.(event_clock)) (s.(query_clock)) (s.(broadcasts)) (s.(event_broadcasts)) (s.(query_broadcasts)) (s.(members)) (s.(event_tx)) (s.(event_join_ignore)) (s.(event_core)) (s.(query_core)) v (s.(opts)) (s.(serf_state)) (s.(coord_core)) (s.(sent)) (s.(spawned)) (s.(local_node)).
Definition set_opts s (v : Options) : Serf I A :=
  mkSerf (s.(clock)) (s.(event_clock)) (s.(query_clock)) (s.(broadcasts)) (s.(event_broadcasts)) (s.(query_broadcasts)) (s.(members)) (s.(event_tx)) (s.(event_join_ignore)) (s.(event_core)) (s.(query_core)) (s.(query_heap)) v (s.(serf_state)) (s.(coord_core)) (s.(sent)) (s.(spawned)) (s.(local_node)).
Definition set_serf_state s (v : SerfState.t) : Serf I A :=
  mkSerf (s.(clock)) (s.(event_clock)) (s.(query_clock)) (s.(broadcasts)) (s.(event_broadcasts)) (s.(query_broadcasts)) (s.(members)) (s.(event_tx)) (s.(event_join_ignore)) (s.(event_core)) (s.(query_core)) (s.(query_heap)) (s.(opts)) v (s.(coord_core)) (s.(sent)) (s.(spawned)) (s.(local_node)).
Definition set_coord_core s (v : option (CoordCore I)) : Serf I A :=
  mkSerf (s.(clock)) (s.(event_clock)) (s.(query_clock)) (s.(broadcasts)) (s.(event_broadcasts)) (s.(query_broadcasts)) (s.(members)) (s.(event_tx)) (s.(event_join_ignore)) (s.(event_core)) (s.(query_core)) (s.(query_heap)) (s.(opts)) (s.(serf_state)) v (s.(sent)) (s.(spawned)) (s.(local_node)).
Definition set_sent s (v : list (A * bytes)) : Serf I A :=
  mkSerf (s.(clock)) (s.(event_clock)) (s.(query_clock)) (s.(broadcasts)) (s.(event_broadcasts)) (s.(query_broadcasts)) (s.(members)) (s.(event_tx)) (s.(event_join_ignore)) (s.(event_core)) (s.(query_core)) (s.(query_heap)) (s.(opts)) (s.(serf_state)) (s.(coord_core)) v (s.(spawned)) (s.(local_node)).
Definition set_spawned s (v : list Task) : Serf I A :=
  mkSerf (s.(clock)) (s.(event_clock)) (s.(query_clock)) (s.(broadcasts)) (s.(event_broadcasts)) (s.(query_broadcasts)) (s.(members)) (s.(event_tx)) (s.(event_join_ignore)) (s.(event_core)) (s.(query_core)) (s.(query_heap)) (s.(opts)) (s.(serf_state)) (s.(coord_core)) (s.(sent)) v (s.(local_node)).

(** [event_tx.send]: a closed receiver only costs a log line. *)
Definition send_event s (e : CrateEvent I A) : Serf I A := set_event_tx s (event_tx s ++ [e]).

(** [spawn_detach] and [spawn_after]. *)
Definition spawn s (t : Task) : Serf I A := set_spawned s (spawned s ++ [t]).

(** [memberlist.send]; a failed send only costs a log line. *)
Definition memberlist_send s (to : A) (msg : bytes) : Serf I A :=
  set_sent s (sent s ++ [(to, msg)]).

Definition local_id s : I := node_id (local_node s).

(** [clock.witness(t)] on the membership clock. *)
Definition witness_clock s (t : Z) : Serf I A := set_clock s (Clock.witness (clock s) t).
Definition witness_event_clock s (t : Z) : Serf I A :=
  set_event_clock s (Clock.witness (event_clock s) t).
Definition witness_query_clock s (t : Z) : Serf I A :=
  set_query_clock s (Clock.witness (query_clock s) t).

End setters.
