(* ===== verification/Sample.v ===== *)
(** * A concrete instance

    Node ids and addresses are natural numbers, messages are a few bytes.
    The codec below reads back what it writes for intents and user events
    whose numbers fit a byte, reads conflict responses, and writes every tag
    table as no bytes.
    It inhabits the [Codec] interface, so that statements about all codecs
    can be evaluated on small clusters. *)

From Stdlib Require Import ZArith Lia Strings.Byte.
From stdpp Require Import base list gmap strings.
From S2P Require Import Prelude Clock Coordinate Types Core.
Local Open Scope Z_scope.

Definition byte_of (z : Z) : byte :=
  match Byte.of_N (Z.to_N z) with Some b => b | None => x00 end.
Definition of_byte (b : byte) : Z := Z.of_N (Byte.to_N b).

Definition sample_encode (m : Message nat nat string) : Result bytes EncodeError :=
  match m with
  | MLeave l => Ok [x01; byte_of (leave_ltime l); byte_of (Z.of_nat (leave_id l));
                    if prune l then x01 else x00]
  | MJoin j => Ok [x02; byte_of (join_ltime j); byte_of (Z.of_nat (join_id j))]
  | MUserEvent e => Ok (x04 :: byte_of (uem_ltime e) :: (if cc e then x01 else x00) :: uem_payload e)
  | MQueryResponse r => Ok [x06; byte_of (r_ltime r); byte_of (r_id r)]
  | MPushPull p => Ok [x03; byte_of (pp_ltime p)]
  | MQuery q => Ok [x05; byte_of (q_ltime q); byte_of (q_id q)]
  end.

Definition sample_decode (b : bytes) : Result (MessageRef nat nat) DecodeError :=
  match b with
  | x01 :: t :: i :: p :: [] =>
      Ok (RLeave (of_byte t) (Ok (Z.to_nat (of_byte i))) (of_byte p =? 1))
  | x02 :: t :: i :: [] => Ok (RJoin (of_byte t) (Ok (Z.to_nat (of_byte i))))
  | x04 :: t :: c :: rest =>
      Ok (RUserEvent (mkUserEventMessage (of_byte t) EmptyString rest (of_byte c =? 1)))
  | x07 :: a :: [] => Ok (RConflictResponse (Ok (Z.to_nat (of_byte a))))
  | _ => Err BufferUnderflow
  end.

#[export] Instance sample_codec : Codec nat nat string := {|
  META_MAX_SIZE := 512;
  u32_encoded_len _ := 1;
  encoded_message_len m := match sample_encode m with Ok b => Z.of_nat (length b) | Err _ => 0 end;
  encode_message_to_bytes := sample_encode;
  encoded_relay_message_len _ _ := 3;
  encode_relay_message_to_bytes r n :=
    Ok [x08; byte_of (Z.of_nat (node_id n)); byte_of (r_ltime r)];
  decode_message b := Done (sample_decode b);
  decode_tags _ := Ok [];
  tags_encoded_len t := Z.of_nat (length t);
  tags_encoded_len_with_length_delimited t := 1 + Z.of_nat (length t);
  encode_tags _ := Ok [];
  encode_id i := Ok [byte_of (Z.of_nat i)];
  decode_id b := match b with [i] => Ok (Z.to_nat (of_byte i)) | _ => Err BufferUnderflow end;
  regex_new s := Some s;
  regex_is_match r s := bool_decide (r = s);
|}.

Definition sample_options : Options := default_options PV1 DV1 (SECOND / 5).

(** A fresh instance that is node [i] at address [i]. *)
Definition sample_serf (i : nat) : Serf nat nat := {|
  clock := 1; event_clock := 1; query_clock := 1;
  broadcasts := []; event_broadcasts := []; query_broadcasts := [];
  members := default_members; event_tx := []; event_join_ignore := false;
  event_core := mkEventCore 0 (replicate 4 None);
  query_core := mkQueryCore ∅ 0 (replicate 4 None);
  query_heap := []; opts := sample_options; serf_state := SerfState.Alive;
  coord_core := None; sent := []; spawned := []; local_node := mkNode i i;
|}.

Definition sample_node (i : nat) : NodeState nat nat :=
  mkNodeState (mkNode i i) [] NSAlive PV1 DV1.
