(* ===== verification/Membership.v ===== *)
(** * Membership (serf-core/src/serf/base.rs)

    The handlers that memberlist's callbacks and gossiped intents run on the
    member table, the reaper and the pruning of members, each the whole
    handler with its early returns.  A handler holds the members lock from
    its first read to its last write, so it is one step.  [now] is the
    reading of the wall clock it takes.

    The invariant [wf_members] ties the member table to the two lists of
    departed members; every handler keeps it.  MemberTraces.v composes the
    handlers in any order. *)

From Stdlib Require Import ZArith Lia Strings.Byte.
From stdpp Require Import base list gmap strings.
From S2P Require Import Prelude Clock Coordinate Types Core.
Local Open Scope Z_scope.

(** ** The intent buffer *)

Section intents.
Context {I : Type} `{Countable I}.
Implicit Types m : gmap I NodeIntent.

Definition recent_intent m (id : I) (ty : MessageType.t) : option Z :=
  match m !! id with
  | Some intent => if decide (intent_ty intent = ty) then Some (intent_ltime intent) else None
  | None => None
  end.

Definition upsert_intent m (id : I) (t : MessageType.t) (ltime now : Z)
  : gmap I NodeIntent * bool :=
  match m !! id with
  | Some intent =>
      if intent_ltime intent <? ltime
      then (<[id := mkNodeIntent t now ltime]> m, true)
      else (m, false)
  | None => (<[id := mkNodeIntent t now ltime]> m, true)
  end.

Definition reap_intents m (now timeout : Z) : gmap I NodeIntent :=
  filter (λ p, since now (wall_time p.2) <= timeout) m.

End intents.

Section handlers.
Context {I A R : Type} `{Countable I} `{Countable A} `{!Codec I A R}.
Implicit Types (s : Serf I A) (ms : MemberState I A) (m : Members I A).

Definition remove_old_member (old : list (MemberState I A)) (id : I) : list (MemberState I A) :=
  filter (λ x, ms_id x ≠ id) old.

(** Record updates of a member state. *)
Definition set_status ms (st : MemberStatus.t) : MemberState I A :=
  let b := member ms in
  mkMemberState
    (mkMember (node b) (tags b) st (memberlist_protocol_version b)
       (memberlist_delegate_version b) (protocol_version b) (delegate_version b))
    (status_time ms) (leave_time ms).
Definition set_status_time ms (t : Z) : MemberState I A :=
  mkMemberState (member ms) t (leave_time ms).
Definition set_leave_time ms (t : option Z) : MemberState I A :=
  mkMemberState (member ms) (status_time ms) t.

Definition insert_state m (id : I) ms : Members I A :=
  mkMembers (<[id := ms]> (states m)) (recent_intents m) (left_members m) (failed_members m).
Definition delete_state m (id : I) : Members I A :=
  mkMembers (delete id (states m)) (recent_intents m) (left_members m) (failed_members m).
Definition set_left m l : Members I A :=
  mkMembers (states m) (recent_intents m) l (failed_members m).
Definition set_failed m l : Members I A :=
  mkMembers (states m) (recent_intents m) (left_members m) l.
Definition set_intents m (i : gmap I NodeIntent) : Members I A :=
  mkMembers (states m) i (left_members m) (failed_members m).

(** [erase_node!]: out of the table, out of the coordinate client and cache,
    and an event. *)
Definition forget_coordinate s (id : I) : Serf I A :=
  match coord_core s with
  | Some cc => set_coord_core s (Some (mkCoordCore (forget_node (client cc) id)
                                         (delete id (cache cc))))
  | None => s
  end.

Definition erase_node s (id : I) (b : Member I A) : Serf I A :=
  let s := set_members s (delete_state (members s) id) in
  let s := forget_coordinate s id in
  send_event s (member_event MemberEventType.Reap b).

Definition handle_prune s ms : Serf I A :=
  let st := ms_status ms in
  let id := ms_id ms in
  let s :=
    if decide (st = MemberStatus.Leaving ∨ st = MemberStatus.Left)
    then set_members s (set_left (members s) (remove_old_member (left_members (members s)) id))
    else s in
  erase_node s id (member ms).

(** ** memberlist callbacks *)

(** [old_status] is [None] for a node the table does not hold. *)
Definition handle_node_join s (n : NodeState I A) : Serf I A :=
  match (if decide (meta n = []) then Ok [] else decode_tags (meta n)) with
  | Err _ => s
  | Ok tg =>
      let nd := ns_node n in
      let id := node_id nd in
      let m := members s in
      let '(old_status, m, b) :=
        match states m !! id with
        | Some ms =>
            let b := mkMember nd tg MemberStatus.Alive
                       (memberlist_protocol_version (member ms))
                       (memberlist_delegate_version (member ms))
                       (protocol_version (member ms)) (delegate_version (member ms)) in
            (ms_status ms, insert_state m id (mkMemberState b (status_time ms) None), b)
        | None =>
            let st0 := (MemberStatus.Alive, 0) in
            let st1 :=
              match recent_intent (recent_intents m) id MessageType.Join with
              | Some t => (MemberStatus.Alive, t)
              | None => st0
              end in
            let '(st, lt) :=
              match recent_intent (recent_intents m) id MessageType.Leave with
              | Some t => (MemberStatus.Leaving, t)
              | None => st1
              end in
            let b := mkMember nd tg st
                       (opt_memberlist_protocol_version (opts s))
                       (opt_memberlist_delegate_version (opts s))
                       (opt_protocol_version (opts s)) (opt_delegate_version (opts s)) in
            (MemberStatus.None, insert_state m id (mkMemberState b lt None), b)
        end in
      let m :=
        if decide (old_status = MemberStatus.Failed ∨ old_status = MemberStatus.Left)
        then set_left (set_failed m (remove_old_member (failed_members m) id))
               (remove_old_member (left_members m) id)
        else m in
      send_event (set_members s m) (member_event MemberEventType.Join b)
  end.

Definition handle_node_leave s (n : NodeState I A) (now : Z) : Serf I A :=
  let id := node_id (ns_node n) in
  let m := members s in
  match states m !! id with
  | None => s
  | Some ms =>
      match ms_status ms with
      | MemberStatus.Leaving =>
          let ms := set_leave_time (set_status ms MemberStatus.Left) (Some now) in
          let m := insert_state m id ms in
          let m := set_left m (left_members m ++ [ms]) in
          send_event (set_members s m) (member_event MemberEventType.Leave (member ms))
      | MemberStatus.Alive =>
          let ms := set_leave_time (set_status ms MemberStatus.Failed) (Some now) in
          let m := insert_state m id ms in
          let m := set_failed m (failed_members m ++ [ms]) in
          send_event (set_members s m) (member_event MemberEventType.Failed (member ms))
      | _ => s
      end
  end.

Definition handle_node_update s (n : NodeState I A) : Serf I A :=
  match decode_tags (meta n) with
  | Err _ => s
  | Ok tg =>
      let id := node_id (ns_node n) in
      match states (members s) !! id with
      | None => s
      | Some ms =>
          let b := mkMember (ns_node n) tg (ms_status ms) PV1 DV1 PV1 DV1 in
          let s := set_members s (insert_state (members s) id
                     (mkMemberState b (status_time ms) (leave_time ms))) in
          send_event s (member_event MemberEventType.Update b)
      end
  end.

(** ** Intents *)

(** Returns whether the message is to be rebroadcast. *)
Definition handle_node_join_intent s (msg : JoinMessage I) (now : Z) : Serf I A * bool :=
  let s := witness_clock s (join_ltime msg) in
  let m := members s in
  match states m !! join_id msg with
  | Some ms =>
      if join_ltime msg <=? status_time ms then (s, false)
      else
        let ms := set_status_time ms (join_ltime msg) in
        let ms := if decide (ms_status ms = MemberStatus.Leaving)
                  then set_status ms MemberStatus.Alive else ms in
        (set_members s (insert_state m (join_id msg) ms), true)
  | None =>
      let '(i, b) := upsert_intent (recent_intents m) (join_id msg) MessageType.Join
                       (join_ltime msg) now in
      (set_members s (set_intents m i), b)
  end.

(** The prune at the end of a leave intent. *)
Definition prune_if s (msg : LeaveMessage I) ms : Serf I A :=
  if prune msg then handle_prune s ms else s.

Definition handle_node_leave_intent s (msg : LeaveMessage I) (now : Z) : Serf I A * bool :=
  let state := serf_state s in
  let s := witness_clock s (leave_ltime msg) in
  let m := members s in
  let id := leave_id msg in
  match states m !! id with
  | None =>
      let '(i, b) := upsert_intent (recent_intents m) id MessageType.Leave
                       (leave_ltime msg) now in
      (set_members s (set_intents m i), b)
  | Some ms =>
      if leave_ltime msg <=? status_time ms then (s, false)
      else if decide (id = local_id s ∧ state = SerfState.Alive) then
        (spawn s (TaskBroadcastJoin (clock s)), false)
      else
        let ms := set_status_time ms (leave_ltime msg) in
        match ms_status ms with
        | MemberStatus.None => (set_members s (insert_state m id ms), false)
        | MemberStatus.Alive | MemberStatus.Unknown _ =>
            let ms := set_status ms MemberStatus.Leaving in
            (prune_if (set_members s (insert_state m id ms)) msg ms, true)
        | MemberStatus.Leaving | MemberStatus.Left =>
            (prune_if (set_members s (insert_state m id ms)) msg ms, true)
        | MemberStatus.Failed =>
            let ms := set_status ms MemberStatus.Left in
            let m := insert_state m id ms in
            let m := set_failed m (filter (λ x, ms_id x ≠ ms_id ms) (failed_members m)) in
            let m := set_left m (left_members m ++ [ms]) in
            let s := send_event (set_members s m)
                       (member_event MemberEventType.Leave (member ms)) in
            (prune_if s msg ms, true)
        end
  end.

(** ** The reaper *)

(** [ReconnectDelegate::reconnect_timeout] of the user's delegate, if any. *)
Context (reconnector : option (Member I A → Z → Z)).

Definition member_timeout (timeout : Z) ms : Z :=
  match reconnector with Some r => r (member ms) timeout | None => timeout end.

(** A member with no leave time is past its timeout at once. *)
Definition expired (now timeout : Z) ms : bool :=
  match leave_time ms with
  | Some t => member_timeout timeout ms <? since now t
  | None => true
  end.

(** The loop of [reap!]: [k] is [n - i]; every round either steps [i] or
    shortens the list, so the loop runs [k] rounds. *)
Fixpoint reap_loop (k i : nat) (now timeout : Z) (l : list (MemberState I A)) s
  : list (MemberState I A) * Serf I A :=
  match k with
  | O => (l, s)
  | S k =>
      match l !! i with
      | None => (l, s)
      | Some ms =>
          if expired now timeout ms
          then reap_loop k i now timeout (swap_remove i l) (erase_node s (ms_id ms) (member ms))
          else reap_loop k (S i) now timeout l s
      end
  end.

Definition reap_failed s (now timeout : Z) : Serf I A :=
  let l := failed_members (members s) in
  let '(l, s) := reap_loop (length l) 0 now timeout l s in
  set_members s (set_failed (members s) l).

Definition reap_left s (now timeout : Z) : Serf I A :=
  let l := left_members (members s) in
  let '(l, s) := reap_loop (length l) 0 now timeout l s in
  set_members s (set_left (members s) l).

(** One tick of the reaper. *)
Definition reap_tick s (now : Z) : Serf I A :=
  let s := reap_failed s now (reconnect_timeout (opts s)) in
  let s := reap_left s now (tombstone_timeout (opts s)) in
  set_members s (set_intents (members s)
    (reap_intents (recent_intents (members s)) now (recent_intent_timeout (opts s)))).

(** ** The reconnector, the queue checker, and small queries *)

(** [usize] subtraction, checked: the value the reconnector divides by. *)
Definition num_alive m : option Z :=
  let ns := Z.of_nat (size (states m)) in
  let nf := Z.of_nat (length (failed_members m)) in
  let nl := Z.of_nat (length (left_members m)) in
  if ns <? nf then None
  else if ns - nf <? nl then None
  else Some (Z.max (ns - nf - nl) 1).

(** [rng.random_range(0..n)]: a value of the range, and a panic when the range
    is empty.  [draw] is what the generator produces. *)
Definition random_range (n draw : nat) : outcome nat :=
  if (n =? 0)%nat then Panic else Done (draw mod n)%nat.

(** One tick of the reconnector.  [throttled f a] is the outcome of the random
    throttle against the probability [f / a]; returns the member to join, if
    any. *)
Definition reconnect_tick m (throttled : Z → Z → bool) (draw : nat) : outcome (option (Node I A)) :=
  let num_failed := length (failed_members m) in
  if (num_failed =? 0)%nat then Done None
  else
    match num_alive m with
    | None => Panic
    | Some alive =>
        if throttled (Z.of_nat num_failed) alive then Done None
        else match random_range num_failed draw with
             | Done idx =>
                 match failed_members m !! idx with
                 | Some ms => Done (Some (node (member ms)))
                 | None => Panic
                 end
             | Panic => Panic
             end
    end.

Definition has_alive_members s : bool :=
  bool_decide (map_Exists (λ _ ms, ms_id ms ≠ local_id s ∧ ms_status ms = MemberStatus.Alive)
                 (states (members s))).

Definition get_queue_max (o : Options) m : Z :=
  if 0 <? min_queue_depth o
  then Z.max (Z.of_nat (size (states m)) * 2) (min_queue_depth o)
  else max_queue_depth o.

End handlers.

(** ** The invariant *)

Section invariant.
Context {I A : Type} `{Countable I} `{Countable A}.
Implicit Types (ms x : MemberState I A) (m : Members I A)
  (tbl : gmap I (MemberState I A)) (l : list (MemberState I A)).

(** The table holds [id] with status [st]. *)
Definition has_status (st : MemberStatus.t) tbl (id : I) : Prop :=
  ∃ ms, tbl !! id = Some ms ∧ ms_status ms = st.

(** A list of departed members files each id of status [st] once, with that
    status and a leave time, and nothing else. *)
Record tracks (st : MemberStatus.t) tbl l : Prop := {
  tracks_nodup : NoDup (ms_id <$> l);
  tracks_entry : ∀ x, x ∈ l → ms_status x = st ∧ is_Some (leave_time x);
  tracks_ids : ∀ id, id ∈ ms_id <$> l ↔ has_status st tbl id;
}.

Definition known_status (st : MemberStatus.t) : Prop :=
  st = MemberStatus.Alive ∨ st = MemberStatus.Leaving ∨
  st = MemberStatus.Left ∨ st = MemberStatus.Failed.

Definition departed (st : MemberStatus.t) : Prop :=
  st = MemberStatus.Left ∨ st = MemberStatus.Failed.

(** A member state filed under [id] is about [id], has a status the handlers
    produce, and has a leave time exactly when it is known to be gone. *)
Record wf_entry (id : I) ms : Prop := {
  wfe_id : ms_id ms = id;
  wfe_status : known_status (ms_status ms);
  wfe_leave : departed (ms_status ms) → is_Some (leave_time ms);
  wfe_alive : ¬ departed (ms_status ms) → leave_time ms = None;
}.

Record wf_members m : Prop := {
  wfm_entries : map_Forall wf_entry (states m);
  wfm_left : tracks MemberStatus.Left (states m) (left_members m);
  wfm_failed : tracks MemberStatus.Failed (states m) (failed_members m);
  wfm_intents : map_Forall (λ _ i, intent_ty i = MessageType.Join ∨ intent_ty i = MessageType.Leave)
                  (recent_intents m);
}.

(** Two tables that agree outside [id]. *)
Definition agree_except (id : I) tbl tbl' : Prop := ∀ j, j ≠ id → tbl' !! j = tbl !! j.

Lemma agree_insert id tbl ms : agree_except id tbl (<[id := ms]> tbl).
Proof. intros j Hj. by rewrite lookup_insert_ne. Qed.

Lemma agree_delete id tbl : agree_except id tbl (delete id tbl).
Proof. intros j Hj. by rewrite lookup_delete_ne. Qed.

Lemma has_status_agree st id tbl tbl' j :
  agree_except id tbl tbl' → j ≠ id → has_status st tbl' j ↔ has_status st tbl j.
Proof. intros Ha Hj. unfold has_status. by rewrite (Ha j Hj). Qed.

Lemma has_status_insert st id tbl ms :
  has_status st (<[id := ms]> tbl) id ↔ ms_status ms = st.
Proof.
  unfold has_status. rewrite lookup_insert_eq. split; [|eauto].
  by intros (? & [= <-] & ?).
Qed.

Lemma has_status_delete st id tbl : ¬ has_status st (delete id tbl) id.
Proof. intros (? & Hx & _). by rewrite lookup_delete_eq in Hx. Qed.

Lemma elem_of_remove_ids l (id j : I) :
  j ∈ ms_id <$> remove_old_member l id ↔ j ≠ id ∧ j ∈ ms_id <$> l.
Proof.
  unfold remove_old_member. rewrite !list_elem_of_fmap. split.
  - intros (x & -> & Hx). apply list_elem_of_filter in Hx as [? ?]. eauto.
  - intros (? & x & -> & Hx). exists x. split; [done|].
    by apply list_elem_of_filter.
Qed.

Lemma NoDup_remove_ids l (id : I) :
  NoDup (ms_id <$> l) → NoDup (ms_id <$> remove_old_member l id).
Proof.
  unfold remove_old_member. induction l as [|x l IH]; [done|].
  simpl. intros [Hx Hl]%NoDup_cons. rewrite filter_cons. case_decide; [|by apply IH].
  simpl. constructor; [|by apply IH].
  intros Hin. apply Hx. apply (elem_of_remove_ids l id) in Hin. apply Hin.
Qed.

(** Removing an id from its list when its status changes. *)
Lemma tracks_remove st id tbl tbl' l :
  tracks st tbl l → agree_except id tbl tbl' → ¬ has_status st tbl' id →
  tracks st tbl' (remove_old_member l id).
Proof.
  intros [Hnd He Hids] Ha Hno. constructor.
  - by apply NoDup_remove_ids.
  - intros x Hx. apply He. by apply list_elem_of_filter in Hx as [_ ?].
  - intros j. rewrite elem_of_remove_ids, Hids.
    destruct (decide (j = id)) as [->|Hj]; [tauto|].
    rewrite (has_status_agree st id tbl tbl' j) by done. tauto.
Qed.

(** An update that neither gives nor takes the status. *)
Lemma tracks_keep st id tbl tbl' l :
  tracks st tbl l → agree_except id tbl tbl' →
  (has_status st tbl' id ↔ has_status st tbl id) → tracks st tbl' l.
Proof.
  intros [Hnd He Hids] Ha Hiff. constructor; [done..|].
  intros j. rewrite Hids. destruct (decide (j = id)) as [->|Hj]; [by rewrite Hiff|].
  by rewrite (has_status_agree st id tbl tbl' j).
Qed.

(** Filing an id that takes the status. *)
Lemma tracks_push st id tbl tbl' l x :
  tracks st tbl l → agree_except id tbl tbl' →
  has_status st tbl' id → ¬ has_status st tbl id →
  ms_id x = id → ms_status x = st → is_Some (leave_time x) →
  tracks st tbl' (l ++ [x]).
Proof.
  intros [Hnd He Hids] Ha Hyes Hno Hid Hst Hlt. constructor.
  - rewrite fmap_app. simpl. apply NoDup_app. split; [done|]. split.
    + intros j Hj Hj'. apply list_elem_of_singleton in Hj' as ->. rewrite Hid, Hids in Hj. done.
    + apply NoDup_singleton.
  - intros y [Hy|Hy%list_elem_of_singleton]%elem_of_app; [by apply He|]. by subst.
  - intros j. rewrite fmap_app, elem_of_app, Hids. simpl. rewrite list_elem_of_singleton, Hid.
    destruct (decide (j = id)) as [->|Hj]; [tauto|].
    rewrite (has_status_agree st id tbl tbl' j) by done. tauto.
Qed.

(** Removing an id that is not in the list changes nothing. *)
Lemma remove_old_member_absent st id tbl l :
  tracks st tbl l → ¬ has_status st tbl id → remove_old_member l id = l.
Proof.
  intros Ht Hno. unfold remove_old_member. apply list_filter_false.
  intros x Hx ?. apply Hno, (tracks_ids _ _ _ Ht). apply list_elem_of_fmap. eauto.
Qed.

Lemma departed_leaving : ¬ departed MemberStatus.Leaving.
Proof. by intros [|]. Qed.
Lemma departed_alive : ¬ departed MemberStatus.Alive.
Proof. by intros [|]. Qed.

End invariant.

(** Closes a goal from a hypothesis that an alive or leaving member departed. *)
Ltac not_departed :=
  exfalso; first [by apply departed_alive | by apply departed_leaving].

#[export] Hint Resolve agree_insert agree_delete has_status_delete departed_leaving
  departed_alive : serf.

Section preservation.
Context {I A R : Type} `{Countable I} `{Countable A} `{!Codec I A R}.
Implicit Types (ms x : MemberState I A) (m : Members I A) (s : Serf I A)
  (tbl : gmap I (MemberState I A)) (l : list (MemberState I A)).

Lemma has_status_lookup st tbl id ms :
  tbl !! id = Some ms → has_status st tbl id ↔ ms_status ms = st.
Proof.
  intros Hms. unfold has_status. split; [|eauto]. intros (? & ? & ?). by simplify_eq.
Qed.

Lemma has_status_none st tbl id : tbl !! id = None → ¬ has_status st tbl id.
Proof. intros Hn (? & ? & _). by simplify_eq. Qed.

(** The status of [id] in the old table, [None] when it is absent. *)
Definition status_of tbl (id : I) : option MemberStatus.t := ms_status <$> tbl !! id.

Lemma has_status_of st tbl id : has_status st tbl id ↔ status_of tbl id = Some st.
Proof.
  unfold has_status, status_of. destruct (tbl !! id) as [ms|]; simpl.
  - split; [by intros (? & [= <-] & <-)|intros [= ?]; eauto].
  - split; [by intros (? & ? & _)|done].
Qed.

(** Storing an entry whose departure status is the old one. *)
Lemma wf_insert_same m id ms :
  wf_members m → wf_entry id ms →
  (departed (ms_status ms) → status_of (states m) id = Some (ms_status ms)) →
  (∀ st, departed st → status_of (states m) id = Some st → ms_status ms = st) →
  wf_members (insert_state m id ms).
Proof.
  intros [He Hl Hf Hi] Hms Hnew Hold. constructor; simpl; try done.
  - by apply map_Forall_insert_2.
  - eapply tracks_keep; [done|apply agree_insert|].
    rewrite has_status_insert, has_status_of. unfold departed in *.
    split; [intros E; rewrite <- E; apply Hnew; auto|by apply Hold; left].
  - eapply tracks_keep; [done|apply agree_insert|].
    rewrite has_status_insert, has_status_of. unfold departed in *.
    split; [intros E; rewrite <- E; apply Hnew; auto|by apply Hold; right].
Qed.

(** A member that comes back is taken off both lists. *)
Lemma wf_insert_return m id ms :
  wf_members m → wf_entry id ms → ¬ departed (ms_status ms) →
  wf_members (set_left (set_failed (insert_state m id ms)
                          (remove_old_member (failed_members m) id))
                       (remove_old_member (left_members m) id)).
Proof.
  intros [He Hl Hf Hi] Hms Hnd. constructor; simpl; try done.
  - by apply map_Forall_insert_2.
  - eapply tracks_remove; [done|apply agree_insert|].
    rewrite has_status_insert. intros E. apply Hnd. by left.
  - eapply tracks_remove; [done|apply agree_insert|].
    rewrite has_status_insert. intros E. apply Hnd. by right.
Qed.

(** A member that leaves or fails is filed in its list. *)
Lemma wf_insert_left m id ms :
  wf_members m → wf_entry id ms → ms_status ms = MemberStatus.Left →
  (∀ st, departed st → status_of (states m) id ≠ Some st) →
  wf_members (set_left (insert_state m id ms) (left_members m ++ [ms])).
Proof.
  intros [He Hl Hf Hi] Hms Hst Hold. constructor; simpl; try done.
  - by apply map_Forall_insert_2.
  - eapply tracks_push; [done|apply agree_insert| | |apply Hms|done|].
    + by rewrite has_status_insert.
    + rewrite has_status_of. apply Hold. by left.
    + apply Hms. rewrite Hst. by left.
  - eapply tracks_keep; [done|apply agree_insert|].
    rewrite has_status_insert, has_status_of. split; [congruence|].
    intros E. exfalso. eapply Hold; [by right|done].
Qed.

Lemma wf_insert_failed m id ms :
  wf_members m → wf_entry id ms → ms_status ms = MemberStatus.Failed →
  (∀ st, departed st → status_of (states m) id ≠ Some st) →
  wf_members (set_failed (insert_state m id ms) (failed_members m ++ [ms])).
Proof.
  intros [He Hl Hf Hi] Hms Hst Hold. constructor; simpl; try done.
  - by apply map_Forall_insert_2.
  - eapply tracks_keep; [done|apply agree_insert|].
    rewrite has_status_insert, has_status_of. split; [congruence|].
    intros E. exfalso. eapply Hold; [by left|done].
  - eapply tracks_push; [done|apply agree_insert| | |apply Hms|done|].
    + by rewrite has_status_insert.
    + rewrite has_status_of. apply Hold. by right.
    + apply Hms. rewrite Hst. by right.
Qed.

(** A failed member that turns out to have left moves between the lists. *)
Lemma wf_insert_failed_left m id ms :
  wf_members m → wf_entry id ms → ms_status ms = MemberStatus.Left →
  status_of (states m) id = Some MemberStatus.Failed →
  wf_members (set_left (set_failed (insert_state m id ms)
                          (remove_old_member (failed_members m) id))
                       (left_members m ++ [ms])).
Proof.
  intros [He Hl Hf Hi] Hms Hst Hold. constructor; simpl; try done.
  - by apply map_Forall_insert_2.
  - eapply tracks_push; [done|apply agree_insert| | |apply Hms|done|].
    + by rewrite has_status_insert.
    + rewrite has_status_of. congruence.
    + apply Hms. rewrite Hst. by left.
  - eapply tracks_remove; [done|apply agree_insert|].
    rewrite has_status_insert. congruence.
Qed.

(** Erasing a member whose departure list no longer names it. *)
Lemma wf_delete m id l f :
  wf_members m →
  l = remove_old_member (left_members m) id →
  f = remove_old_member (failed_members m) id →
  wf_members (set_left (set_failed (delete_state m id) f) l).
Proof.
  intros [He Hl Hf Hi] -> ->. constructor; simpl; try done.
  - by apply map_Forall_delete.
  - eapply tracks_remove; [done|apply agree_delete|apply has_status_delete].
  - eapply tracks_remove; [done|apply agree_delete|apply has_status_delete].
Qed.

Lemma wf_set_intents m i :
  wf_members m →
  map_Forall (λ _ i, intent_ty i = MessageType.Join ∨ intent_ty i = MessageType.Leave) i →
  wf_members (set_intents m i).
Proof. intros [] ?. by constructor. Qed.

Lemma upsert_intent_types (i : gmap I NodeIntent) id ty lt now :
  (ty = MessageType.Join ∨ ty = MessageType.Leave) →
  map_Forall (λ _ i, intent_ty i = MessageType.Join ∨ intent_ty i = MessageType.Leave) i →
  map_Forall (λ _ i, intent_ty i = MessageType.Join ∨ intent_ty i = MessageType.Leave)
    (upsert_intent i id ty lt now).1.
Proof.
  intros Hty Hi. unfold upsert_intent. repeat case_match; try done; by apply map_Forall_insert_2.
Qed.

Lemma default_members_wf : wf_members (I := I) (A := A) default_members.
Proof.
  constructor; simpl; try apply map_Forall_empty.
  all: constructor; simpl; [constructor|by intros ? ?%not_elem_of_nil|].
  all: intros id; split; [by intros ?%not_elem_of_nil|by intros (? & ? & _)].
Qed.

Lemma forget_coordinate_members s id : members (forget_coordinate s id) = members s.
Proof. unfold forget_coordinate. by destruct (coord_core s). Qed.

Lemma members_erase_node s id b : members (erase_node s id b) = delete_state (members s) id.
Proof. unfold erase_node. simpl. by rewrite forget_coordinate_members. Qed.

Lemma handle_prune_wf s ms :
  wf_members (members s) → ¬ has_status MemberStatus.Failed (states (members s)) (ms_id ms) →
  (ms_status ms = MemberStatus.Leaving ∨ ms_status ms = MemberStatus.Left) →
  wf_members (members (handle_prune s ms)).
Proof.
  intros Hwf Hnf Hst. unfold handle_prune. rewrite decide_True by done.
  rewrite members_erase_node. simpl.
  apply (wf_delete (members s) (ms_id ms) _ (failed_members (members s)) Hwf); [done|].
  symmetry. eapply remove_old_member_absent; [apply Hwf|done].
Qed.

Lemma status_of_lookup tbl id ms : tbl !! id = Some ms → status_of tbl id = Some (ms_status ms).
Proof. unfold status_of. by intros ->. Qed.

Lemma status_of_none tbl id : tbl !! id = None → status_of tbl id = None.
Proof. unfold status_of. by intros ->. Qed.

Lemma wf_entry_live (id : I) (b : Member I A) lt :
  node_id (node b) = id → known_status (status b) → ¬ departed (status b) →
  wf_entry id (mkMemberState b lt None).
Proof. intros. by constructor. Qed.

Lemma wf_entry_status_time id ms t : wf_entry id ms → wf_entry id (set_status_time ms t).
Proof. intros []. by constructor. Qed.

Lemma wf_entry_set_status id ms st :
  wf_entry id ms → known_status st → (departed st ↔ departed (ms_status ms)) →
  wf_entry id (set_status ms st).
Proof.
  intros [Hid _ Hl Ha] Hk Hd. constructor; try done; unfold ms_status in *; simpl in *; tauto.
Qed.

Lemma wf_entry_depart id ms st now :
  wf_entry id ms → departed st → wf_entry id (set_leave_time (set_status ms st) (Some now)).
Proof.
  intros [Hid _ _ _] Hd. constructor; unfold ms_status in *; simpl; try done.
  unfold known_status, departed in *. tauto.
Qed.

Lemma handle_node_join_wf s n :
  wf_members (members s) → wf_members (members (handle_node_join s n)).
Proof.
  intros Hwf. unfold handle_node_join.
  destruct (if decide _ then _ else _) as [tg|]; [|done].
  set (id := node_id (ns_node n)).
  destruct (states (members s) !! id) as [ms|] eqn:Hms; simpl.
  - pose proof (wfm_entries _ Hwf id ms Hms) as Hent.
    case_decide as Hold; simpl.
    + apply wf_insert_return; [done|apply wf_entry_live|]; simpl; auto with serf. by left.
    + apply wf_insert_same; [done|apply wf_entry_live| |]; simpl; auto with serf; [by left| |].
      * intros ?. exfalso. by apply departed_alive.
      * intros st Hst. rewrite (status_of_lookup _ _ _ Hms). intros [= <-].
        exfalso. apply Hold. destruct Hst; auto.
  - destruct (recent_intent _ id MessageType.Leave); simpl;
      [|destruct (recent_intent _ id MessageType.Join)]; simpl.
    all: apply wf_insert_same; [done|apply wf_entry_live| |];
      simpl; auto with serf; try (unfold known_status; tauto).
    all: try (intros st _; by rewrite (status_of_none _ _ Hms)).
    all: intros []; discriminate.
Qed.

Lemma handle_node_leave_wf s n now :
  wf_members (members s) → wf_members (members (handle_node_leave s n now)).
Proof.
  intros Hwf. unfold handle_node_leave.
  set (id := node_id (ns_node n)).
  destruct (states (members s) !! id) as [ms|] eqn:Hms; [|done].
  pose proof (wfm_entries _ Hwf id ms Hms) as Hent.
  assert (∀ st, ms_status ms = MemberStatus.Alive ∨ ms_status ms = MemberStatus.Leaving →
            departed st → status_of (states (members s)) id ≠ Some st) as Hno.
  { intros st Hst Hd. rewrite (status_of_lookup _ _ _ Hms). intros [= <-].
    destruct Hst as [E|E]; rewrite E in Hd; not_departed. }
  destruct (ms_status ms) eqn:Hst; try done; simpl.
  - apply (wf_insert_failed (members s) id); auto.
    apply wf_entry_depart; [done|by right].
  - apply (wf_insert_left (members s) id); auto.
    apply wf_entry_depart; [done|by left].
Qed.

Lemma handle_node_update_wf s n :
  wf_members (members s) → wf_members (members (handle_node_update s n)).
Proof.
  intros Hwf. unfold handle_node_update. destruct (decode_tags (meta n)) as [tg|]; [|done].
  destruct (states (members s) !! _) as [ms|] eqn:Hms; [|done]. simpl.
  pose proof (wfm_entries _ Hwf _ ms Hms) as Hent.
  apply wf_insert_same; [done| | |].
  - destruct Hent as [? ? ? ?]. by constructor.
  - intros _. by rewrite (status_of_lookup _ _ _ Hms).
  - intros st _. rewrite (status_of_lookup _ _ _ Hms). by intros [= <-].
Qed.

Lemma handle_node_join_intent_wf s msg now :
  wf_members (members s) → wf_members (members (handle_node_join_intent s msg now).1).
Proof.
  intros Hwf. unfold handle_node_join_intent. simpl.
  destruct (states (members s) !! join_id msg) as [ms|] eqn:Hms.
  - pose proof (wfm_entries _ Hwf _ ms Hms) as Hent.
    case_match; [done|]. simpl.
    assert (∀ st, status_of (states (members s)) (join_id msg) = Some st → ms_status ms = st)
      as Hold.
    { intros st. rewrite (status_of_lookup _ _ _ Hms). by intros [= <-]. }
    case_decide as Hl.
    + apply wf_insert_same; [done| | |].
      * apply wf_entry_set_status; [by apply wf_entry_status_time|by left|].
        unfold ms_status in *. simpl in *. rewrite Hl.
        split; intros ?; not_departed.
      * intros []; discriminate.
      * intros st Hd Hs. apply Hold in Hs. unfold ms_status in *. simpl in *. subst.
        rewrite Hl in Hd. by apply departed_leaving in Hd.
    + apply wf_insert_same; [done|by apply wf_entry_status_time| |].
      * intros _. by rewrite (status_of_lookup _ _ _ Hms).
      * intros st _. apply Hold.
  - destruct (upsert_intent _ _ _ _ _) as [i b] eqn:Hu. simpl.
    apply wf_set_intents; [done|].
    pose proof (upsert_intent_types (recent_intents (members s)) (join_id msg)
      MessageType.Join (join_ltime msg) now) as Ht. rewrite Hu in Ht.
    apply Ht; [by left|apply Hwf].
Qed.

Lemma prune_if_wf s msg ms :
  wf_members (members s) → ¬ has_status MemberStatus.Failed (states (members s)) (ms_id ms) →
  (ms_status ms = MemberStatus.Leaving ∨ ms_status ms = MemberStatus.Left) →
  wf_members (members (prune_if s msg ms)).
Proof. intros. unfold prune_if. destruct (prune msg); [by apply handle_prune_wf|done]. Qed.

(** The three ways a leave intent changes a known member. *)
Lemma leave_intent_alive_wf s msg ms :
  wf_members (members s) → states (members s) !! leave_id msg = Some ms →
  ms_status ms = MemberStatus.Alive →
  let ms' := set_status (set_status_time ms (leave_ltime msg)) MemberStatus.Leaving in
  wf_members (members (prune_if (set_members s (insert_state (members s) (leave_id msg) ms')) msg ms')).
Proof.
  intros Hwf Hms Hst. pose proof (wfm_entries _ Hwf _ ms Hms) as Hent.
  apply prune_if_wf; simpl; [| |by left].
  - apply wf_insert_same; [done| | |].
    + apply wf_entry_set_status; [by apply wf_entry_status_time|right; by left|].
      change (ms_status (set_status_time ms (leave_ltime msg))) with (ms_status ms).
      rewrite Hst. split; intros ?; not_departed.
    + intros []; discriminate.
    + intros st Hd. rewrite (status_of_lookup _ _ _ Hms), Hst. intros [= <-].
      by apply departed_alive in Hd.
  - change (ms_id (set_status _ _)) with (ms_id ms).
    rewrite (wfe_id _ _ Hent), has_status_insert. discriminate.
Qed.

Lemma leave_intent_same_wf s msg ms :
  wf_members (members s) → states (members s) !! leave_id msg = Some ms →
  ms_status ms = MemberStatus.Leaving ∨ ms_status ms = MemberStatus.Left →
  let ms' := set_status_time ms (leave_ltime msg) in
  wf_members (members (prune_if (set_members s (insert_state (members s) (leave_id msg) ms')) msg ms')).
Proof.
  intros Hwf Hms Hst. pose proof (wfm_entries _ Hwf _ ms Hms) as Hent. simpl.
  assert (ms_status (set_status_time ms (leave_ltime msg)) = ms_status ms) as Hsame by done.
  apply prune_if_wf; simpl; [| |by rewrite Hsame].
  - apply wf_insert_same; [done|by apply wf_entry_status_time| |];
      rewrite Hsame, (status_of_lookup _ _ _ Hms); [done|]. by intros st _ [= <-].
  - change (ms_id (set_status_time _ _)) with (ms_id ms).
    rewrite (wfe_id _ _ Hent), has_status_insert, Hsame. by destruct Hst as [-> | ->].
Qed.

Lemma leave_intent_failed_wf s msg ms ev :
  wf_members (members s) → states (members s) !! leave_id msg = Some ms →
  ms_status ms = MemberStatus.Failed →
  let ms' := set_status (set_status_time ms (leave_ltime msg)) MemberStatus.Left in
  let m := insert_state (members s) (leave_id msg) ms' in
  let m := set_failed m (filter (λ x, ms_id x ≠ ms_id ms') (failed_members m)) in
  let m := set_left m (left_members m ++ [ms']) in
  wf_members (members (prune_if (send_event (set_members s m) ev) msg ms')).
Proof.
  intros Hwf Hms Hst. pose proof (wfm_entries _ Hwf _ ms Hms) as Hent. cbv zeta.
  change (ms_id (set_status _ _)) with (ms_id ms). rewrite (wfe_id _ _ Hent).
  apply prune_if_wf; simpl; [| |by right].
  - apply wf_insert_failed_left; [done| |done|by rewrite (status_of_lookup _ _ _ Hms), Hst].
    apply wf_entry_set_status; [by apply wf_entry_status_time|right; right; by left|].
    change (ms_status (set_status_time ms (leave_ltime msg))) with (ms_status ms).
    rewrite Hst. split; intros _; [by right|by left].
  - change (ms_id (set_status _ _)) with (ms_id ms).
    rewrite (wfe_id _ _ Hent), has_status_insert. discriminate.
Qed.

Lemma handle_node_leave_intent_wf s msg now :
  wf_members (members s) → wf_members (members (handle_node_leave_intent s msg now).1).
Proof.
  intros Hwf. unfold handle_node_leave_intent. cbv zeta.
  change (members (witness_clock s (leave_ltime msg))) with (members s).
  destruct (states (members s) !! leave_id msg) as [ms|] eqn:Hms.
  2:{ destruct (upsert_intent _ _ _ _ _) as [i b] eqn:Hu. simpl.
      apply wf_set_intents; [done|].
      pose proof (upsert_intent_types (recent_intents (members s)) (leave_id msg)
        MessageType.Leave (leave_ltime msg) now) as Ht. rewrite Hu in Ht.
      apply Ht; [by right|apply Hwf]. }
  case_match; [done|]. case_decide; [done|].
  pose proof (wfe_status _ _ (wfm_entries _ Hwf _ ms Hms)) as Hk. unfold known_status in Hk.
  change (ms_status (set_status_time ms (leave_ltime msg))) with (ms_status ms).
  destruct (ms_status ms) eqn:Hst; cbn [fst]; try (intuition discriminate).
  - by apply (leave_intent_alive_wf (witness_clock s (leave_ltime msg))).
  - apply (leave_intent_same_wf (witness_clock s (leave_ltime msg))); [done..|by left].
  - apply (leave_intent_same_wf (witness_clock s (leave_ltime msg))); [done..|by right].
  - by apply (leave_intent_failed_wf (witness_clock s (leave_ltime msg))).
Qed.

End preservation.

#[export] Hint Resolve default_members_wf handle_node_join_wf handle_node_leave_wf
  handle_node_update_wf handle_node_join_intent_wf handle_node_leave_intent_wf : serf.

(** ** The reaper removes exactly the expired members *)

Section reaper.
Context {I A : Type} `{Countable I} `{Countable A}.
Context (reconnector : option (Member I A → Z → Z)).
Implicit Types (ms x : MemberState I A) (m : Members I A) (s : Serf I A)
  (l gone : list (MemberState I A)).

Definition erase_all s gone : Serf I A :=
  foldl (λ s x, erase_node s (ms_id x) (member x)) s gone.

Lemma reap_loop_spec now timeout k : ∀ i l s l' s',
  length l = (i + k)%nat →
  reap_loop reconnector k i now timeout l s = (l', s') →
  ∃ gone, l ≡ₚ l' ++ gone ∧ s' = erase_all s gone ∧ take i l' = take i l ∧
    Forall (λ x, expired reconnector now timeout x = true) gone ∧
    Forall (λ x, expired reconnector now timeout x = false) (drop i l').
Proof.
  induction k as [|k IH]; intros i l s l' s' Hlen Hr; simpl in Hr.
  { simplify_eq. exists []. rewrite app_nil_r. split_and!; try done.
    rewrite drop_ge by lia. constructor. }
  destruct (lookup_lt_is_Some_2 l i) as [ms Hms]; [lia|]. rewrite Hms in Hr.
  destruct (expired reconnector now timeout ms) eqn:Hx.
  - pose proof (swap_remove_length i l) as Hl.
    apply IH in Hr as (gone & Hp & Hs & Ht & Hg & Hd); [|lia].
    exists (ms :: gone). split_and!; try done.
    + rewrite (swap_remove_perm i l ms Hms), Hp. by rewrite Permutation_middle.
    + rewrite Ht. by apply swap_remove_take; lia.
    + by constructor.
  - apply IH in Hr as (gone & Hp & Hs & Ht & Hg & Hd); [|lia].
    exists gone. split_and!; try done.
    + rewrite <- (Nat.min_l i (S i)) by lia. rewrite <- !take_take. by rewrite Ht.
    + assert (l' !! i = Some ms) as Hi.
      { assert (take (S i) l' !! i = Some ms) as E.
        { rewrite Ht. rewrite lookup_take_lt by lia. done. }
        rewrite lookup_take_lt in E by lia. done. }
      rewrite (drop_S _ _ _ Hi). by constructor.
Qed.

(** The loop over a whole list: what stays is what has not expired. *)
Lemma reap_loop_all now timeout l s :
  ∃ l' gone, reap_loop reconnector (length l) 0 now timeout l s = (l', erase_all s gone) ∧
    l ≡ₚ l' ++ gone ∧
    Forall (λ x, expired reconnector now timeout x = true) gone ∧
    Forall (λ x, expired reconnector now timeout x = false) l'.
Proof.
  destruct (reap_loop reconnector (length l) 0 now timeout l s) as [l' s'] eqn:E.
  apply reap_loop_spec in E as (gone & ? & -> & _ & ? & ?); [|done].
  exists l', gone. by rewrite drop_0 in *.
Qed.

Lemma members_erase_all gone : ∀ s,
  members (erase_all s gone) =
  mkMembers (foldl (λ t x, delete (ms_id x) t) (states (members s)) gone)
    (recent_intents (members s)) (left_members (members s)) (failed_members (members s)).
Proof.
  induction gone as [|x gone IH]; intros s; simpl; [by destruct (members s)|].
  unfold erase_all in *. simpl. by rewrite IH, members_erase_node.
Qed.

Lemma event_tx_erase_all gone : ∀ s,
  event_tx (erase_all s gone) =
  event_tx s ++ ((λ x, member_event MemberEventType.Reap (member x)) <$> gone).
Proof.
  induction gone as [|x gone IH]; intros s; simpl; [by rewrite app_nil_r|].
  unfold erase_all in *. simpl. rewrite IH. unfold erase_node, forget_coordinate. simpl.
  destruct (coord_core s); simpl; by rewrite <- app_assoc.
Qed.

Lemma lookup_delete_all (t : gmap I (MemberState I A)) gone id : 
  foldl (λ t x, delete (ms_id x) t) t gone !! id =
  if decide (id ∈ ms_id <$> gone) then None else t !! id.
Proof.
  revert t. induction gone as [|x gone IH]; intros t.
  { rewrite decide_False by apply not_elem_of_nil. done. }
  rewrite fmap_cons. cbn [foldl]. rewrite IH. destruct (decide (id ∈ ms_id <$> gone)) as [Hin|Hin].
  { by rewrite decide_True by (by apply elem_of_cons; right). }
  destruct (decide (id = ms_id x)) as [->|Hne].
  - rewrite lookup_delete_eq. by rewrite decide_True by (by apply elem_of_cons; left).
  - rewrite lookup_delete_ne by done. rewrite decide_False; [done|].
    by intros [?|?]%elem_of_cons.
Qed.

(** Erasing members that a list tracks, together with their list entries. *)
Lemma tracks_erase_all st t l l' gone :
  tracks st t l → l ≡ₚ l' ++ gone →
  tracks st (foldl (λ t x, delete (ms_id x) t) t gone) l'.
Proof.
  intros [Hnd He Hids] Hp.
  assert (ms_id <$> l ≡ₚ (ms_id <$> l') ++ (ms_id <$> gone)) as Hpi
    by (rewrite <- fmap_app; by apply fmap_Permutation).
  assert (NoDup ((ms_id <$> l') ++ (ms_id <$> gone))) as Hnd' by by rewrite <- Hpi.
  apply NoDup_app in Hnd' as (Hnd1 & Hdisj & _). constructor; [done| |].
  - intros x Hx. apply He. rewrite Hp. apply elem_of_app. by left.
  - intros id. unfold has_status. rewrite lookup_delete_all. case_decide as Hg.
    + split; [intros Hl'; by destruct (Hdisj id Hl')|by intros (? & ? & _)].
    + specialize (Hids id). rewrite Hpi, elem_of_app in Hids. unfold has_status in Hids. tauto.
Qed.

(** Erasing members of another status. *)
Lemma tracks_erase_other st st' t l f gone :
  tracks st t l → tracks st' t f → st ≠ st' → Forall (λ x, x ∈ f) gone →
  tracks st (foldl (λ t x, delete (ms_id x) t) t gone) l.
Proof.
  intros [Hnd He Hids] Hf Hne Hg. constructor; [done..|].
  intros id. rewrite Hids. unfold has_status. rewrite lookup_delete_all.
  case_decide as Hin; [|done]. split; [|by intros (? & ? & _)].
  intros (ms & Hms & Hst). exfalso. apply Hne.
  apply list_elem_of_fmap in Hin as (x & -> & Hx).
  rewrite Forall_forall in Hg. specialize (Hg x Hx).
  assert (has_status st' t (ms_id x)) as (ms' & Hms' & <-).
  { apply (tracks_ids _ _ _ Hf). apply list_elem_of_fmap. eauto. }
  by simplify_eq.
Qed.

Lemma entries_delete_all (t : gmap I (MemberState I A)) gone :
  map_Forall wf_entry t → map_Forall wf_entry (foldl (λ t x, delete (ms_id x) t) t gone).
Proof.
  intros Ht id ms. rewrite lookup_delete_all. case_decide; [done|]. apply Ht.
Qed.

Lemma Forall_perm_r l l' gone : l ≡ₚ l' ++ gone → Forall (λ x, x ∈ l) gone.
Proof.
  intros Hp. apply Forall_forall. intros x Hx. rewrite Hp. apply elem_of_app. by right.
Qed.

Lemma reap_failed_wf s now timeout :
  wf_members (members s) → wf_members (members (reap_failed reconnector s now timeout)).
Proof.
  intros [He Hl Hf Hi]. unfold reap_failed.
  destruct (reap_loop_all now timeout (failed_members (members s)) s)
    as (l' & gone & -> & Hp & _ & _).
  simpl. rewrite members_erase_all. constructor; simpl; try done.
  - by apply entries_delete_all.
  - eapply tracks_erase_other; [done|exact Hf|done|by eapply Forall_perm_r].
  - by eapply tracks_erase_all.
Qed.

Lemma reap_left_wf s now timeout :
  wf_members (members s) → wf_members (members (reap_left reconnector s now timeout)).
Proof.
  intros [He Hl Hf Hi]. unfold reap_left.
  destruct (reap_loop_all now timeout (left_members (members s)) s)
    as (l' & gone & -> & Hp & _ & _).
  simpl. rewrite members_erase_all. constructor; simpl; try done.
  - by apply entries_delete_all.
  - by eapply tracks_erase_all.
  - eapply tracks_erase_other; [done|exact Hl|done|by eapply Forall_perm_r].
Qed.

Lemma reap_tick_wf s now :
  wf_members (members s) → wf_members (members (reap_tick reconnector s now)).
Proof.
  intros Hwf. unfold reap_tick. simpl. apply wf_set_intents.
  - by apply reap_left_wf, reap_failed_wf.
  - unfold reap_intents. intros id i [Hi _]%map_lookup_filter_Some.
    pose proof (reap_left_wf _ now (tombstone_timeout (opts
      (reap_failed reconnector s now (reconnect_timeout (opts s)))))
      (reap_failed_wf s now (reconnect_timeout (opts s)) Hwf)) as W.
    by apply (wfm_intents _ W) in Hi.
Qed.

(** The two lists of departed members never outnumber the table. *)
Lemma departed_bound m :
  wf_members m →
  (length (failed_members m) + length (left_members m) <= size (states m))%nat.
Proof.
  intros [He Hl Hf _].
  assert (NoDup ((ms_id <$> failed_members m) ++ (ms_id <$> left_members m))) as Hnd.
  { apply NoDup_app. split; [apply Hf|]. split; [|apply Hl].
    intros id (ms & Hms & Hst)%(tracks_ids _ _ _ Hf) (ms' & Hms' & Hst')%(tracks_ids _ _ _ Hl).
    simplify_eq. congruence. }
  rewrite <- (length_fmap ms_id (failed_members m)), <- (length_fmap ms_id (left_members m)).
  rewrite <- length_app, <- size_dom, <- (size_list_to_set (C := gset I)) by done.
  apply subseteq_size. intros id. rewrite elem_of_list_to_set, elem_of_app.
  intros [Hin|Hin]; [apply (tracks_ids _ _ _ Hf) in Hin|apply (tracks_ids _ _ _ Hl) in Hin];
    destruct Hin as (ms & Hms & _); apply elem_of_dom; eauto.
Qed.

End reaper.

#[export] Hint Resolve reap_failed_wf reap_left_wf reap_tick_wf : serf.
