(* ===== verification/MemberTraces.v ===== *)
(** * Membership over time

    [op] is one handler call of Membership.v; [run] composes any sequence of
    them.  [seen] is the newest intent time an instance remembers for an id,
    which bounds how often a gossiped intent is passed on.  Lifecycle.v relates
    the handlers to the life cycle of a single member. *)

From Stdlib Require Import ZArith Lia Strings.Byte.
From stdpp Require Import base list gmap strings.
From S2P Require Import Prelude Clock Coordinate Types Core Sample Membership.
Local Open Scope Z_scope.

Inductive op (I A : Type) : Type :=
| OpJoin (n : NodeState I A)
| OpLeave (n : NodeState I A) (now : Z)
| OpUpdate (n : NodeState I A)
| OpJoinIntent (msg : JoinMessage I) (now : Z)
| OpLeaveIntent (msg : LeaveMessage I) (now : Z)
| OpReap (now : Z).
Arguments OpJoin {I A}.
Arguments OpLeave {I A}.
Arguments OpUpdate {I A}.
Arguments OpJoinIntent {I A}.
Arguments OpLeaveIntent {I A}.
Arguments OpReap {I A}.

Section traces.
Context {I A R : Type} `{Countable I} `{Countable A} `{!Codec I A R}.
Context (reconnector : option (Member I A → Z → Z)).
Implicit Types (s : Serf I A) (o : op I A).

Definition run_op s o : Serf I A :=
  match o with
  | OpJoin n => handle_node_join s n
  | OpLeave n now => handle_node_leave s n now
  | OpUpdate n => handle_node_update s n
  | OpJoinIntent msg now => (handle_node_join_intent s msg now).1
  | OpLeaveIntent msg now => (handle_node_leave_intent s msg now).1
  | OpReap now => reap_tick reconnector s now
  end.

Definition run s (os : list (op I A)) : Serf I A := foldl run_op s os.

(** The id an operation is about; the reaper looks at all of them. *)
Definition op_target o : option I :=
  match o with
  | OpJoin n | OpLeave n _ | OpUpdate n => Some (node_id (ns_node n))
  | OpJoinIntent msg _ => Some (join_id msg)
  | OpLeaveIntent msg _ => Some (leave_id msg)
  | OpReap _ => None
  end.

Definition event_types (es : list (CrateEvent I A)) : list MemberEventType.t :=
  omap (λ e, match e with EvMember e => Some (me_ty e) | _ => None end) es.

(** The newest intent time remembered for an id: its member's status time,
    else the buffered intent's. *)
Definition seen s (id : I) : Z :=
  match states (members s) !! id with
  | Some ms => status_time ms
  | None =>
      match recent_intents (members s) !! id with
      | Some i => intent_ltime i
      | None => -1
      end
  end.

Lemma run_op_wf s o : wf_members (members s) → wf_members (members (run_op s o)).
Proof. destruct o; cbn [run_op]; eauto with serf. Qed.

Lemma run_wf s os : wf_members (members s) → wf_members (members (run s os)).
Proof.
  unfold run. revert s. induction os as [|o os IH]; intros s Hwf; [done|].
  simpl. apply IH. by apply run_op_wf.
Qed.

(** *** Effects of the pieces on the status of an id and on the events *)

Lemma states_erase s id b : states (members (erase_node s id b)) = delete id (states (members s)).
Proof. by rewrite members_erase_node. Qed.

Lemma events_erase s id b :
  event_tx (erase_node s id b) = event_tx s ++ [member_event MemberEventType.Reap b].
Proof. unfold erase_node, forget_coordinate. simpl. by destruct (coord_core s). Qed.

Lemma states_prune s ms :
  states (members (handle_prune s ms)) = delete (ms_id ms) (states (members s)).
Proof. unfold handle_prune. rewrite states_erase. by case_decide. Qed.

Lemma events_prune s ms :
  event_tx (handle_prune s ms) = event_tx s ++ [member_event MemberEventType.Reap (member ms)].
Proof. unfold handle_prune. rewrite events_erase. by case_decide. Qed.

Lemma intents_prune s ms :
  recent_intents (members (handle_prune s ms)) = recent_intents (members s).
Proof. unfold handle_prune. rewrite members_erase_node. by case_decide. Qed.

Abbreviation stat s id := (status_of (states (members s)) id).

Lemma status_of_insert (t : gmap I (MemberState I A)) id ms j :
  status_of (<[id := ms]> t) j = if decide (id = j) then Some (ms_status ms) else status_of t j.
Proof. unfold status_of. rewrite lookup_insert. by case_decide. Qed.

Lemma status_of_delete (t : gmap I (MemberState I A)) id j :
  status_of (delete id t) j = if decide (id = j) then None else status_of t j.
Proof. unfold status_of. rewrite lookup_delete. by case_decide. Qed.

(** *** The reaper *)

Abbreviation expired_in now timeout l :=
  (filter (λ x, expired reconnector now timeout x = true) l).

Lemma opts_erase_all gone s : opts (erase_all s gone) = opts s.
Proof.
  unfold erase_all. revert s. induction gone as [|x gone IH]; intros s; [done|].
  simpl. rewrite IH. unfold erase_node, forget_coordinate. simpl. by destruct (coord_core s).
Qed.

Lemma reap_split now timeout (l l' gone : list (MemberState I A)) :
  l ≡ₚ l' ++ gone →
  Forall (λ x, expired reconnector now timeout x = true) gone →
  Forall (λ x, expired reconnector now timeout x = false) l' →
  gone ≡ₚ expired_in now timeout l.
Proof.
  intros Hp Hg Hl. rewrite Hp, filter_app.
  assert (filter (λ x, expired reconnector now timeout x = true) l' = []) as ->.
  { clear Hp. induction Hl as [|x k Hx Hk IH]; [done|]. rewrite filter_cons_False; [done|].
    by rewrite Hx. }
  rewrite Forall_forall in Hg. by rewrite list_filter_false.
Qed.

Lemma reap_failed_effect s now timeout :
  ∃ gone, gone ≡ₚ expired_in now timeout (failed_members (members s)) ∧
    let s' := reap_failed reconnector s now timeout in
    states (members s') = foldl (λ t x, delete (ms_id x) t) (states (members s)) gone ∧
    left_members (members s') = left_members (members s) ∧
    opts s' = opts s ∧
    event_tx s' = event_tx s ++ ((λ x, member_event MemberEventType.Reap (member x)) <$> gone).
Proof.
  unfold reap_failed.
  destruct (reap_loop_all reconnector now timeout (failed_members (members s)) s)
    as (l' & gone & -> & Hp & Hg & Hl).
  exists gone. split; [by eapply reap_split|]. simpl.
  by rewrite members_erase_all, opts_erase_all, event_tx_erase_all.
Qed.

Lemma reap_left_effect s now timeout :
  ∃ gone, gone ≡ₚ expired_in now timeout (left_members (members s)) ∧
    let s' := reap_left reconnector s now timeout in
    states (members s') = foldl (λ t x, delete (ms_id x) t) (states (members s)) gone ∧
    event_tx s' = event_tx s ++ ((λ x, member_event MemberEventType.Reap (member x)) <$> gone).
Proof.
  unfold reap_left.
  destruct (reap_loop_all reconnector now timeout (left_members (members s)) s)
    as (l' & gone & -> & Hp & Hg & Hl).
  exists gone. split; [by eapply reap_split|]. simpl.
  by rewrite members_erase_all, event_tx_erase_all.
Qed.

(** The members one tick of the reaper removes. *)
Definition reaped s (now : Z) : list (MemberState I A) :=
  expired_in now (reconnect_timeout (opts s)) (failed_members (members s)) ++
  expired_in now (tombstone_timeout (opts s)) (left_members (members s)).

Lemma reap_tick_effect s now :
  ∃ gone, gone ≡ₚ reaped s now ∧
    let s' := reap_tick reconnector s now in
    states (members s') = foldl (λ t x, delete (ms_id x) t) (states (members s)) gone ∧
    event_tx s' = event_tx s ++ ((λ x, member_event MemberEventType.Reap (member x)) <$> gone).
Proof.
  unfold reap_tick.
  destruct (reap_failed_effect s now (reconnect_timeout (opts s)))
    as (g1 & Hp1 & Hs1 & Hl1 & Ho1 & He1).
  set (s1 := reap_failed _ _ _ _) in *.
  destruct (reap_left_effect s1 now (tombstone_timeout (opts s1))) as (g2 & Hp2 & Hs2 & He2).
  set (s2 := reap_left _ _ _ _) in *.
  exists (g1 ++ g2). rewrite Ho1 in Hp2. rewrite Hl1 in Hp2. unfold reaped. split.
  { by rewrite Hp1, Hp2. }
  simpl. rewrite Hs2, Hs1, He2, He1, foldl_app, fmap_app, app_assoc. done.
Qed.

Lemma reap_failed_rest s now timeout :
  recent_intents (members (reap_failed reconnector s now timeout)) = recent_intents (members s) ∧
  opts (reap_failed reconnector s now timeout) = opts s.
Proof.
  unfold reap_failed.
  destruct (reap_loop_all reconnector now timeout (failed_members (members s)) s)
    as (l & g & -> & _). simpl. by rewrite members_erase_all, opts_erase_all.
Qed.

Lemma reap_left_rest s now timeout :
  recent_intents (members (reap_left reconnector s now timeout)) = recent_intents (members s) ∧
  opts (reap_left reconnector s now timeout) = opts s.
Proof.
  unfold reap_left.
  destruct (reap_loop_all reconnector now timeout (left_members (members s)) s)
    as (l & g & -> & _). simpl. by rewrite members_erase_all, opts_erase_all.
Qed.

Lemma reap_tick_intents s now :
  recent_intents (members (reap_tick reconnector s now)) =
  reap_intents (recent_intents (members s)) now (recent_intent_timeout (opts s)).
Proof.
  unfold reap_tick. cbn [members set_members recent_intents set_intents].
  destruct (reap_failed_rest s now (reconnect_timeout (opts s))) as [Hi Ho].
  set (s1 := reap_failed _ _ _ _) in *.
  destruct (reap_left_rest s1 now (tombstone_timeout (opts s1))) as [-> ->]. by rewrite Hi, Ho.
Qed.

(** A member that is reaped is listed with the status the table has. *)
Lemma reaped_status s now x ms :
  wf_members (members s) → x ∈ reaped s now → states (members s) !! ms_id x = Some ms →
  ms_status x = ms_status ms.
Proof.
  intros Hwf Hx Hms. unfold reaped in Hx.
  apply elem_of_app in Hx as [Hx|Hx]; apply list_elem_of_filter in Hx as [_ Hx].
  - pose proof (wfm_failed _ Hwf) as Hf. destruct (tracks_entry _ _ _ Hf x Hx) as [-> _].
    assert (ms_id x ∈ ms_id <$> failed_members (members s)) as (? & ? & <-)%(tracks_ids _ _ _ Hf)
      by (apply list_elem_of_fmap; eauto). by simplify_eq.
  - pose proof (wfm_left _ Hwf) as Hl. destruct (tracks_entry _ _ _ Hl x Hx) as [-> _].
    assert (ms_id x ∈ ms_id <$> left_members (members s)) as (? & ? & <-)%(tracks_ids _ _ _ Hl)
      by (apply list_elem_of_fmap; eauto). by simplify_eq.
Qed.

Lemma reaped_departed s now id :
  wf_members (members s) → id ∈ ms_id <$> reaped s now →
  ∃ st, departed st ∧ stat s id = Some st.
Proof.
  intros Hwf (x & -> & Hx)%list_elem_of_fmap. unfold reaped in Hx.
  apply elem_of_app in Hx as [Hx|Hx]; apply list_elem_of_filter in Hx as [_ Hx].
  - exists MemberStatus.Failed. split; [by right|]. apply has_status_of.
    apply (tracks_ids _ _ _ (wfm_failed _ Hwf)), list_elem_of_fmap. eauto.
  - exists MemberStatus.Left. split; [by left|]. apply has_status_of.
    apply (tracks_ids _ _ _ (wfm_left _ Hwf)), list_elem_of_fmap. eauto.
Qed.

Lemma reap_lookup s now id :
  states (members (reap_tick reconnector s now)) !! id =
  if decide (id ∈ ms_id <$> reaped s now) then None else states (members s) !! id.
Proof.
  destruct (reap_tick_effect s now) as (gone & Hp & Hs & _). cbv zeta in Hs.
  rewrite Hs, lookup_delete_all.
  assert (id ∈ ms_id <$> gone ↔ id ∈ ms_id <$> reaped s now) as Hiff by by rewrite Hp.
  repeat case_decide; tauto.
Qed.

(** *** What an instance remembers about intents *)

Lemma seen_erase_free s s' id :
  states (members s') !! id = states (members s) !! id →
  recent_intents (members s') = recent_intents (members s) →
  seen s' id = seen s id.
Proof. intros Hs Hi. unfold seen. by rewrite Hs, Hi. Qed.

Lemma seen_upsert s s' id j ty lt now :
  0 <= lt →
  states (members s') = states (members s) → states (members s) !! id = None →
  recent_intents (members s') = (upsert_intent (recent_intents (members s)) id ty lt now).1 →
  seen s j <= seen s' j.
Proof.
  intros Hlt0 Hs Hn Hi. unfold seen. rewrite Hs, Hi. destruct (states (members s) !! j); [lia|].
  unfold upsert_intent.
  destruct (recent_intents (members s) !! id) as [it|] eqn:Hit; simpl.
  - destruct (intent_ltime it <? lt) eqn:Hlt; simpl; [|reflexivity]. rewrite lookup_insert.
    case_decide; [|reflexivity]. subst j.
    rewrite Hit. simpl. bool_to_prop. lia.
  - rewrite lookup_insert. case_decide; [|reflexivity]. subst j. rewrite Hit. simpl. lia.
Qed.

Lemma seen_insert s s' id ms j :
  states (members s') = <[id := ms]> (states (members s)) →
  recent_intents (members s') = recent_intents (members s) →
  seen s id <= status_time ms → seen s j <= seen s' j.
Proof.
  intros Hs Hi Hle. unfold seen in *. rewrite Hs, Hi, lookup_insert.
  case_decide; [by subst|reflexivity].
Qed.

(** The Lamport times of messages are unsigned. *)
Definition op_unsigned o : Prop :=
  match o with
  | OpJoinIntent msg _ => 0 <= join_ltime msg
  | OpLeaveIntent msg _ => 0 <= leave_ltime msg
  | _ => True
  end.

Lemma seen_join s n j : wf_members (members s) → seen s j <= seen (handle_node_join s n) j.
Proof.
  intros Hwf. unfold handle_node_join.
  destruct (if decide _ then _ else _) as [tg|]; [|reflexivity].
  set (id := node_id (ns_node n)).
  destruct (states (members s) !! id) as [ms|] eqn:Hms; simpl.
  - eapply (seen_insert _ _ id); [case_decide; done|case_decide; done|].
    unfold seen. by rewrite Hms.
  - assert (∀ ms : MemberState I A, status_time ms = match recent_intents (members s) !! id with
                    Some i => intent_ltime i | None => 0 end → seen s id <= status_time ms) as Hok.
    { intros ms ->. unfold seen. rewrite Hms. by destruct (recent_intents (members s) !! id). }
    unfold recent_intent. destruct (recent_intents (members s) !! id) as [i|] eqn:Hi; simpl.
    + destruct (wfm_intents _ Hwf id i Hi) as [E|E]; rewrite E; simpl;
        (eapply (seen_insert _ _ id); [done|done|by apply Hok]).
    + eapply (seen_insert _ _ id); [done|done|by apply Hok].
Qed.

Lemma seen_leave s n now j : seen s j <= seen (handle_node_leave s n now) j.
Proof.
  unfold handle_node_leave. set (id := node_id (ns_node n)).
  destruct (states (members s) !! id) as [ms|] eqn:Hms; [|reflexivity].
  destruct (ms_status ms); try reflexivity;
    (eapply (seen_insert _ _ id); [done|done|]; unfold seen; by rewrite Hms).
Qed.

Lemma seen_update s n j : seen s j <= seen (handle_node_update s n) j.
Proof.
  unfold handle_node_update. destruct (decode_tags (meta n)); [|reflexivity].
  set (id := node_id (ns_node n)).
  destruct (states (members s) !! id) as [ms|] eqn:Hms; [|reflexivity].
  eapply (seen_insert _ _ id); [done|done|]. unfold seen. by rewrite Hms.
Qed.

(** An intent is accepted only when it is newer than what is remembered;
    an accepted one is remembered. *)
Lemma join_intent_spec s msg now :
  0 <= join_ltime msg →
  let '(s', b) := handle_node_join_intent s msg now in
  (b = true ↔ seen s (join_id msg) < join_ltime msg) ∧
  (b = true → seen s' (join_id msg) = join_ltime msg) ∧
  ∀ j, seen s j <= seen s' j.
Proof.
  intros Hpos. unfold handle_node_join_intent. simpl.
  destruct (states (members s) !! join_id msg) as [ms|] eqn:Hms.
  - assert (seen s (join_id msg) = status_time ms) as Hseen by (unfold seen; by rewrite Hms).
    destruct (join_ltime msg <=? status_time ms) eqn:Hle; bool_to_prop.
    { rewrite Hseen. split; [split; [discriminate|lia]|]. split; [discriminate|reflexivity]. }
    rewrite Hseen. split; [split; [intros _; lia|done]|]. split.
    + intros _. unfold seen. cbn [members set_members insert_state states].
      rewrite lookup_insert_eq. by case_decide.
    + intros j. eapply (seen_insert _ _ (join_id msg)); [done|done|].
      rewrite Hseen. case_decide; simpl; lia.
  - destruct (upsert_intent _ _ _ _ _) as [i b] eqn:Hu.
    split; [|split].
    + unfold seen. rewrite Hms. revert Hu. unfold upsert_intent.
      destruct (recent_intents (members s) !! join_id msg); [case_match|]; intros ?; simplify_eq;
        bool_to_prop; split; (done || lia).
    + intros ->. unfold seen. simpl. rewrite Hms. revert Hu. unfold upsert_intent.
      destruct (recent_intents (members s) !! join_id msg); [case_match|]; intros ?; simplify_eq;
        by rewrite lookup_insert_eq.
    + intros j. eapply seen_upsert; [done|done|exact Hms|]. by rewrite Hu.
Qed.

(** A leave intent is accepted only when it is newer than what is remembered;
    the refutation of one about the instance itself is not an acceptance. *)
Lemma leave_intent_newer s msg now :
  0 <= leave_ltime msg → (handle_node_leave_intent s msg now).2 = true →
  seen s (leave_id msg) < leave_ltime msg.
Proof.
  intros Hpos. unfold handle_node_leave_intent, seen. simpl.
  destruct (states (members s) !! leave_id msg) as [ms|] eqn:Hms; simpl.
  - destruct (leave_ltime msg <=? status_time ms) eqn:Hle; bool_to_prop; [done|]. lia.
  - unfold upsert_intent. destruct (recent_intents (members s) !! leave_id msg) as [i|]; simpl;
      [|lia]. destruct (intent_ltime i <? leave_ltime msg) eqn:Hlt; bool_to_prop; [done|by simpl].
Qed.

(** One that does not prune is remembered when it is accepted. *)
Lemma leave_intent_spec s msg now :
  0 <= leave_ltime msg → prune msg = false →
  let '(s', b) := handle_node_leave_intent s msg now in
  (b = true → seen s' (leave_id msg) = leave_ltime msg) ∧
  ∀ j, seen s j <= seen s' j.
Proof.
  intros Hpos Hprune. unfold handle_node_leave_intent, prune_if. rewrite Hprune. simpl.
  destruct (states (members s) !! leave_id msg) as [ms|] eqn:Hms.
  2:{ destruct (upsert_intent _ _ _ _ _) as [i b] eqn:Hu. split.
      + intros ->. unfold seen. simpl. rewrite Hms. revert Hu. unfold upsert_intent.
        destruct (recent_intents (members s) !! leave_id msg); [case_match|];
          intros ?; simplify_eq; by rewrite lookup_insert_eq.
      + intros j. eapply seen_upsert; [done|done|exact Hms|]. by rewrite Hu. }
  assert (seen s (leave_id msg) = status_time ms) as Hseen by (unfold seen; by rewrite Hms).
  destruct (leave_ltime msg <=? status_time ms) eqn:Hle; bool_to_prop;
    [split; (done || reflexivity)|].
  case_decide; [split; (done || reflexivity)|].
  unfold ms_status. simpl. destruct (status (member ms)); simpl.
  all: split; intros; try done.
  all: try (unfold seen; simpl; by rewrite lookup_insert_eq).
  all: (eapply (seen_insert _ _ (leave_id msg)); [done|done|]; rewrite Hseen; simpl; lia).
Qed.

Lemma reaped_nodup s now : wf_members (members s) → NoDup (ms_id <$> reaped s now).
Proof.
  intros Hwf. pose proof (wfm_left _ Hwf) as Hl. pose proof (wfm_failed _ Hwf) as Hf.
  unfold reaped. rewrite fmap_app. apply NoDup_app. split_and!.
  - eapply sublist_NoDup; [apply Hf|apply fmap_sublist, sublist_filter].
  - intros id Hin Hin'.
    apply list_elem_of_fmap in Hin as (x & -> & [_ Hx]%list_elem_of_filter).
    apply list_elem_of_fmap in Hin' as (y & Hxy & [_ Hy]%list_elem_of_filter).
    assert (has_status MemberStatus.Failed (states (members s)) (ms_id x)) as (m1 & Hm1 & E1)
      by (apply (tracks_ids _ _ _ Hf), list_elem_of_fmap; eauto).
    assert (has_status MemberStatus.Left (states (members s)) (ms_id x)) as (m2 & Hm2 & E2)
      by (apply (tracks_ids _ _ _ Hl), list_elem_of_fmap; eauto).
    simplify_eq. congruence.
  - eapply sublist_NoDup; [apply Hl|apply fmap_sublist, sublist_filter].
Qed.

Lemma reconnect_tick_safe (m : Members I A) throttled draw :
  wf_members m →
  ∃ r, reconnect_tick m throttled draw = Done r ∧
    (failed_members m = [] → r = None) ∧
    (failed_members m ≠ [] → (∀ f a, throttled f a = false) → is_Some r) ∧
    ∀ nd, r = Some nd → status_of (states m) (node_id nd) = Some MemberStatus.Failed.
Proof.
  intros Hwf. pose proof (departed_bound m Hwf) as Hb. unfold reconnect_tick, num_alive.
  destruct (length (failed_members m) =? 0)%nat eqn:E0.
  { apply Nat.eqb_eq, nil_length_inv in E0. exists None. split_and!; by rewrite ?E0. }
  pose proof E0 as Hne%Nat.eqb_neq.
  assert (failed_members m ≠ []) as Hnil by (intros E; by rewrite E in Hne).
  destruct (_ <? Z.of_nat (length (failed_members m))) eqn:E1; bool_to_prop; [lia|].
  destruct (_ - _ <? Z.of_nat (length (left_members m))) eqn:E2; bool_to_prop; [lia|].
  destruct (throttled _ _) eqn:Ht.
  { exists None. split_and!; try done. intros _ Hf. by rewrite Hf in Ht. }
  unfold random_range. rewrite E0.
  destruct (lookup_lt_is_Some_2 (failed_members m) (draw mod length (failed_members m)))
    as [ms Hms]; [by apply Nat.mod_upper_bound|].
  rewrite Hms. eexists. split_and!; [done|done|eauto|].
  intros nd [= <-]. apply has_status_of. apply (tracks_ids _ _ _ (wfm_failed _ Hwf)).
  apply list_elem_of_fmap. exists ms. split; [done|]. by eapply list_elem_of_lookup_2.
Qed.

(** Whether a gossiped intent is passed on, and what it is about. *)
Definition rebroadcasts s o : bool :=
  match o with
  | OpJoinIntent msg now => (handle_node_join_intent s msg now).2
  | OpLeaveIntent msg now => (handle_node_leave_intent s msg now).2
  | _ => false
  end.

Definition intent_key o : option (I * Z) :=
  match o with
  | OpJoinIntent msg _ => Some (join_id msg, join_ltime msg)
  | OpLeaveIntent msg _ => Some (leave_id msg, leave_ltime msg)
  | _ => None
  end.

Lemma rebroadcasts_newer s o id t :
  intent_key o = Some (id, t) → 0 <= t → rebroadcasts s o = true → seen s id < t.
Proof.
  destruct o as [| | |msg now|msg now|]; try done; simpl; intros [= <- <-] Ht Hb.
  - pose proof (join_intent_spec s msg now Ht) as Hs.
    destruct (handle_node_join_intent s msg now). by apply Hs.
  - by eapply leave_intent_newer.
Qed.

(** ** Properties *)

(** C8: From an empty table, every sequence of memberlist notifications,
    gossiped intents and reaper ticks leaves the table and the two lists of
    departed members consistent: each entry is filed under its own id, has a
    leave time exactly when it is gone, and the left and failed lists hold
    each left and each failed member exactly once. *)
Theorem members_consistent s os :
  members s = default_members → wf_members (members (run s os)).
Proof. intros Hs. apply run_wf. rewrite Hs. apply default_members_wf. Qed.

(** C14: A reaper tick removes exactly the departed members whose timeout has
    passed (the reconnect timeout for failed, the tombstone timeout for left
    ones, as the reconnect delegate adjusts them), tells the application of
    each of them once, and keeps every other member as it was. *)
Theorem reap_exact s now :
  wf_members (members s) →
  let s' := reap_tick reconnector s now in
  (∀ id, states (members s') !! id =
     if decide (id ∈ ms_id <$> reaped s now) then None else states (members s) !! id) ∧
  ∃ gone, gone ≡ₚ reaped s now ∧ NoDup (ms_id <$> gone) ∧
    event_tx s' = event_tx s ++ ((λ x, member_event MemberEventType.Reap (member x)) <$> gone).
Proof.
  intros Hwf s'. split; [intros; apply reap_lookup|].
  destruct (reap_tick_effect s now) as (gone & Hp & _ & He).
  exists gone. split; [done|]. split; [|done]. rewrite Hp. by apply reaped_nodup.
Qed.

(** C26: A tick of the reconnector never panics, neither on its [usize]
    subtractions nor on its random draw nor on its index, whatever the
    generator produces: it does nothing when no member has failed, and when the
    throttle lets it through it picks a node that the table holds as failed. *)
Theorem reconnect_safe s os throttled draw :
  members s = default_members →
  let m := members (run s os) in
  ∃ r, reconnect_tick m throttled draw = Done r ∧
    (failed_members m = [] → r = None) ∧
    (failed_members m ≠ [] → (∀ f a, throttled f a = false) → is_Some r) ∧
    ∀ nd, r = Some nd → status_of (states m) (node_id nd) = Some MemberStatus.Failed.
Proof.
  intros Hs. apply reconnect_tick_safe, run_wf. rewrite Hs. apply default_members_wf.
Qed.

(** C13: An alive instance refutes a fresh leave intent about itself: its
    entry is unchanged, the intent is not passed on, and one join broadcast
    is scheduled with a time past the intent, which the instance accepts as
    its own newer intent. *)
Theorem leave_about_self_refuted s msg now now' ms :
  states (members s) !! leave_id msg = Some ms →
  leave_id msg = local_id s → serf_state s = SerfState.Alive →
  status_time ms < leave_ltime msg →
  is_u64 (leave_ltime msg) → leave_ltime msg < u64_modulus - 1 →
  let '(s', b) := handle_node_leave_intent s msg now in
  b = false ∧ members s' = members s ∧ event_tx s' = event_tx s ∧
  spawned s' = spawned s ++ [TaskBroadcastJoin (clock s')] ∧
  leave_ltime msg < clock s' ∧
  rebroadcasts s' (OpJoinIntent (mkJoin (clock s') (leave_id msg)) now') = true.
Proof.
  intros Hms Hid Hst Hlt Hu Hmax. unfold handle_node_leave_intent. simpl. rewrite Hms.
  replace (leave_ltime msg <=? status_time ms) with false by (symmetry; apply Z.leb_gt; lia).
  rewrite decide_True by done. pose proof (Clock.witness_gt (clock s) _ Hu Hmax) as Hgt.
  split_and!; try done. unfold rebroadcasts, handle_node_join_intent. simpl. rewrite Hms.
  simpl. replace (_ <=? status_time ms) with false; [done|]. symmetry. apply Z.leb_gt. lia.
Qed.

End traces.

(** ** The properties at work on a small cluster *)

Section witnesses.
Local Open Scope nat_scope.

Definition sample_ops : list (op nat nat) :=
  [OpJoin (sample_node 1); OpJoin (sample_node 2); OpLeave (sample_node 2) 5%Z;
   OpLeaveIntent (mkLeave 3%Z 1 false) 6%Z; OpLeave (sample_node 1) 7%Z].

Definition sample_after : Serf nat nat := run None (sample_serf 0) sample_ops.

(** Node 1 left and node 2 failed; a day later the reaper removes both. *)
Example sample_after_members :
  (ms_id <$> left_members (members sample_after), ms_id <$> failed_members (members sample_after),
   ms_id <$> reaped None sample_after (10 + 86400 * SECOND)%Z) = ([1], [2], [2; 1]).
Proof. vm_compute. reflexivity. Qed.

Lemma members_consistent_witness : wf_members (members sample_after).
Proof. exact (members_consistent (R := string) None (sample_serf 0) sample_ops eq_refl). Defined.

Lemma reap_exact_witness :
  let now := (10 + 86400 * SECOND)%Z in
  states (members (reap_tick None sample_after now)) !! 2 = None.
Proof.
  destruct (reap_exact None sample_after (10 + 86400 * SECOND)%Z) as [Hl _].
  - apply run_wf, default_members_wf.
  - cbv zeta. rewrite Hl. vm_compute. reflexivity.
Defined.

Lemma reconnect_safe_witness :
  reconnect_tick (members sample_after) (λ _ _, false) 5 = Done (Some (mkNode 2 2)) ∧
  reconnect_tick (members (sample_serf 0)) (λ _ _, false) 5 = Done None.
Proof.
  destruct (reconnect_safe None (sample_serf 0) sample_ops (λ _ _, false) 5 eq_refl)
    as (r & Hr & _ & _ & _).
  destruct (reconnect_safe None (sample_serf 0) [] (λ _ _, false) 5 eq_refl)
    as (r' & Hr' & Hnone & _ & _).
  split.
  - refine (eq_trans Hr _). revert Hr. vm_compute. by intros [= <-].
  - refine (eq_trans Hr' _). by rewrite (Hnone eq_refl).
Defined.

Lemma leave_about_self_refuted_witness :
  (handle_node_leave_intent (run_op None (sample_serf 0) (OpJoin (sample_node 0)))
     (mkLeave 9%Z 0 false) 4%Z).2 = false.
Proof.
  pose proof (leave_about_self_refuted (run_op None (sample_serf 0) (OpJoin (sample_node 0)))
    (mkLeave 9%Z 0 false) 4%Z 5%Z _ eq_refl eq_refl eq_refl) as Hr.
  destruct (handle_node_leave_intent _ _ _) as [s' b]. apply Hr; vm_compute; intuition congruence.
Defined.

End witnesses.
