(* ===== verification/Lifecycle.v ===== *)
(** * The life cycle of a member

    [life] is the abstract machine of a single id: what an instance knows of
    it (node, tags, status, status time), the intent buffered for it, and the
    news the application gets.  Every rule says when it fires, the rules for
    doing nothing included, and at most one fires ([life_deterministic]), so
    an instance that refines the machine can neither skip a transition nor
    make one up.  Nothing here mentions the table, the two lists of departed
    members or the order of the handlers' writes.

    What an instance remembers of intents follows from the machine: while it
    does not forget an id, it never passes on an intent about it twice. *)

From Stdlib Require Import ZArith Lia Strings.Byte.
From stdpp Require Import base list gmap strings.
From S2P Require Import Prelude Clock Coordinate Types Core Sample Membership MemberTraces.
Local Open Scope Z_scope.

Section machine.
Context {I A R : Type} `{Countable I} `{Countable A} `{!Codec I A R}.

(** What the application is told of a member. *)
Record profile : Type := mkProfile {
  pf_node : Node I A;
  pf_tags : Tags;
  pf_status : MemberStatus.t;
}.

(** What an instance holds about one id: the member and its status time, and
    the intent that is buffered for it. *)
Record slot : Type := mkSlot {
  known : option (profile * Z);
  rumour : option NodeIntent;
}.

Local Abbreviation news := (list (MemberEventType.t * profile)).

Definition with_status (p : profile) (st : MemberStatus.t) : profile :=
  mkProfile (pf_node p) (pf_tags p) st.

(** What the machine takes from its surroundings: whether the id is that of
    the instance itself, which is alive; whether the reaper's timeout for it
    has passed; how long a buffered intent is kept. *)
Record surroundings : Type := mkSurroundings {
  is_self_alive : bool;
  timed_out : bool;
  intent_timeout : Z;
}.

(** The status and time a new member starts with. *)
Definition first_view (r : option NodeIntent) : MemberStatus.t * Z :=
  match r with
  | None => (MemberStatus.Alive, 0)
  | Some i => (if decide (intent_ty i = MessageType.Leave) then MemberStatus.Leaving
               else MemberStatus.Alive, intent_ltime i)
  end.

(** An intent is news when it is newer than the last one heard. *)
Definition fresh (sl : slot) (t : Z) : Prop :=
  match sl with
  | mkSlot (Some (_, last)) _ => last < t
  | mkSlot None (Some i) => intent_ltime i < t
  | mkSlot None None => True
  end.

(** The tags in a node's meta data. *)
Definition tags_of (n : NodeState I A) : Result Tags DecodeError :=
  if decide (meta n = []) then Ok [] else decode_tags (meta n).

(** What a fresh leave intent makes of a status, and the news of it. *)
Definition on_leave_intent (st : MemberStatus.t) : MemberStatus.t * list MemberEventType.t :=
  match st with
  | MemberStatus.Alive => (MemberStatus.Leaving, [])
  | MemberStatus.Failed => (MemberStatus.Left, [MemberEventType.Leave])
  | st => (st, [])
  end.

Definition refuted (st : MemberStatus.t) : MemberStatus.t :=
  if decide (st = MemberStatus.Leaving) then MemberStatus.Alive else st.

(** The operations an id is not concerned by. *)
Definition concerns (id : I) (o : op I A) : Prop := op_target o = Some id ∨ op_target o = None.

Inductive life (e : surroundings) (id : I) : op I A → slot → slot → news → Prop :=
| life_other o sl : ¬ concerns id o → life e id o sl sl []
(* memberlist reports the node *)
| life_join_new n tg r :
    node_id (ns_node n) = id → tags_of n = Ok tg →
    let p := mkProfile (ns_node n) tg (first_view r).1 in
    life e id (OpJoin n) (mkSlot None r) (mkSlot (Some (p, (first_view r).2)) r)
      [(MemberEventType.Join, p)]
| life_join_back n tg old t r :
    node_id (ns_node n) = id → tags_of n = Ok tg →
    let p := mkProfile (ns_node n) tg MemberStatus.Alive in
    life e id (OpJoin n) (mkSlot (Some (old, t)) r) (mkSlot (Some (p, t)) r)
      [(MemberEventType.Join, p)]
| life_join_bad n err sl :
    node_id (ns_node n) = id → tags_of n = Err err → life e id (OpJoin n) sl sl []
(* memberlist reports that it is gone *)
| life_fail n now p t r :
    node_id (ns_node n) = id → pf_status p = MemberStatus.Alive →
    let p' := with_status p MemberStatus.Failed in
    life e id (OpLeave n now) (mkSlot (Some (p, t)) r) (mkSlot (Some (p', t)) r)
      [(MemberEventType.Failed, p')]
| life_left n now p t r :
    node_id (ns_node n) = id → pf_status p = MemberStatus.Leaving →
    let p' := with_status p MemberStatus.Left in
    life e id (OpLeave n now) (mkSlot (Some (p, t)) r) (mkSlot (Some (p', t)) r)
      [(MemberEventType.Leave, p')]
| life_gone_already n now p t r :
    node_id (ns_node n) = id → departed (pf_status p) →
    life e id (OpLeave n now) (mkSlot (Some (p, t)) r) (mkSlot (Some (p, t)) r) []
| life_gone_unknown n now r :
    node_id (ns_node n) = id → life e id (OpLeave n now) (mkSlot None r) (mkSlot None r) []
(* memberlist reports new meta data *)
| life_update n tg old t r :
    node_id (ns_node n) = id → decode_tags (meta n) = Ok tg →
    let p := mkProfile (ns_node n) tg (pf_status old) in
    life e id (OpUpdate n) (mkSlot (Some (old, t)) r) (mkSlot (Some (p, t)) r)
      [(MemberEventType.Update, p)]
| life_update_bad n err sl :
    node_id (ns_node n) = id → decode_tags (meta n) = Err err → life e id (OpUpdate n) sl sl []
| life_update_unknown n tg r :
    node_id (ns_node n) = id → decode_tags (meta n) = Ok tg →
    life e id (OpUpdate n) (mkSlot None r) (mkSlot None r) []
(* intents *)
| life_join_stale msg now sl :
    join_id msg = id → ¬ fresh sl (join_ltime msg) → life e id (OpJoinIntent msg now) sl sl []
| life_join_intent msg now p t r :
    join_id msg = id → fresh (mkSlot (Some (p, t)) r) (join_ltime msg) →
    life e id (OpJoinIntent msg now) (mkSlot (Some (p, t)) r)
      (mkSlot (Some (with_status p (refuted (pf_status p)), join_ltime msg)) r) []
| life_join_rumour msg now r :
    join_id msg = id → fresh (mkSlot None r) (join_ltime msg) →
    life e id (OpJoinIntent msg now) (mkSlot None r)
      (mkSlot None (Some (mkNodeIntent MessageType.Join now (join_ltime msg)))) []
| life_leave_stale msg now sl :
    leave_id msg = id → ¬ fresh sl (leave_ltime msg) → life e id (OpLeaveIntent msg now) sl sl []
| life_leave_refuted msg now p t r :
    leave_id msg = id → fresh (mkSlot (Some (p, t)) r) (leave_ltime msg) →
    is_self_alive e = true →
    life e id (OpLeaveIntent msg now) (mkSlot (Some (p, t)) r) (mkSlot (Some (p, t)) r) []
| life_leave_intent msg now p t r :
    leave_id msg = id → fresh (mkSlot (Some (p, t)) r) (leave_ltime msg) →
    is_self_alive e = false → prune msg = false →
    let p' := with_status p (on_leave_intent (pf_status p)).1 in
    life e id (OpLeaveIntent msg now) (mkSlot (Some (p, t)) r)
      (mkSlot (Some (p', leave_ltime msg)) r) ((., p') <$> (on_leave_intent (pf_status p)).2)
| life_leave_prune msg now p t r :
    leave_id msg = id → fresh (mkSlot (Some (p, t)) r) (leave_ltime msg) →
    is_self_alive e = false → prune msg = true →
    let p' := with_status p (on_leave_intent (pf_status p)).1 in
    life e id (OpLeaveIntent msg now) (mkSlot (Some (p, t)) r) (mkSlot None r)
      ((., p') <$> (on_leave_intent (pf_status p)).2 ++ [MemberEventType.Reap])
| life_leave_rumour msg now r :
    leave_id msg = id → fresh (mkSlot None r) (leave_ltime msg) →
    life e id (OpLeaveIntent msg now) (mkSlot None r)
      (mkSlot None (Some (mkNodeIntent MessageType.Leave now (leave_ltime msg)))) []
(* the reaper; its list shows the member as it was when it departed *)
| life_reap now p p' t r r' :
    timed_out e = true → pf_status p' = pf_status p → departed (pf_status p) →
    r' = (i ← r; if decide (since now (wall_time i) <= intent_timeout e) then Some i else None) →
    life e id (OpReap now) (mkSlot (Some (p, t)) r) (mkSlot None r') [(MemberEventType.Reap, p')]
| life_reap_keep now k r r' :
    timed_out e = false →
    r' = (i ← r; if decide (since now (wall_time i) <= intent_timeout e) then Some i else None) →
    life e id (OpReap now) (mkSlot k r) (mkSlot k r') [].

(** The machine has no choice: an operation determines the slot it leaves and
    the events, and with the reaper apart, the members in them. *)
Lemma life_deterministic e id o sl sl1 sl2 n1 n2 :
  life e id o sl sl1 n1 → life e id o sl sl2 n2 →
  sl1 = sl2 ∧ n1.*1 = n2.*1 ∧ (op_target o ≠ None → n1 = n2).
Proof.
  intros H1 H2; destruct H1; inversion H2; subst; simpl in *; unfold concerns, departed in *;
    simpl in *; simplify_eq; try (by auto); try (by exfalso; eauto); try congruence;
    try (by naive_solver).
  all: try match goal with
       | Hx : ?x = Ok ?a, Hy : ?x = Ok ?b |- _ => assert (a = b) as -> by congruence; by auto
       end.
  all: exfalso; destruct_or!; congruence.
Qed.

End machine.

Arguments profile : clear implicits.
Arguments slot : clear implicits.

Abbreviation news I A := (list (MemberEventType.t * profile I A)).

Section refinement.
Context {I A R : Type} `{Countable I} `{Countable A} `{!Codec I A R}.
Context (reconnector : option (Member I A → Z → Z)).
Implicit Types (s : Serf I A) (o : op I A) (id : I).

(** ** From an instance to the machine *)

Definition profile_of (b : Member I A) : profile I A := mkProfile (node b) (tags b) (status b).

Definition slot_of s id : slot I A :=
  mkSlot ((λ ms, (profile_of (member ms), status_time ms)) <$> states (members s) !! id)
    (recent_intents (members s) !! id).

(** The news about [id] among the events sent to the application. *)
Definition news_in id (e : CrateEvent I A) : news I A :=
  match e with
  | EvMember e => (λ b, (me_ty e, profile_of b)) <$> filter (λ b, node_id (node b) = id) (me_members e)
  | _ => []
  end.

Definition news_about id (es : list (CrateEvent I A)) : news I A := es ≫= news_in id.

Definition around s id o : surroundings :=
  mkSurroundings
    (bool_decide (id = local_id s ∧ serf_state s = SerfState.Alive))
    (match o with OpReap now => bool_decide (id ∈ ms_id <$> reaped reconnector s now) | _ => false end)
    (recent_intent_timeout (opts s)).

(** An operation sends member events only, and takes every id along its life
    cycle with exactly the news about it. *)
Definition refines o s s' : Prop :=
  ∃ evs, event_tx s' = event_tx s ++ evs ∧
    Forall (λ e, ∃ ty b, e = member_event ty b) evs ∧
    ∀ id, life (around s id o) id o (slot_of s id) (slot_of s' id) (news_about id evs).

(** *** Events *)

(** The events of an operation on the member [b]. *)
Abbreviation told b l := ((λ ty, member_event ty b) <$> l).

Lemma news_cons id ty (b : Member I A) es :
  news_about id (member_event ty b :: es) =
  (if decide (node_id (node b) = id) then [(ty, profile_of b)] else []) ++ news_about id es.
Proof.
  unfold news_about. csimpl. case_decide;
    [rewrite filter_cons_True by done|rewrite filter_cons_False by done]; by rewrite filter_nil.
Qed.

Lemma news_told id (b : Member I A) l :
  node_id (node b) = id → news_about id (told b l) = (., profile_of b) <$> l.
Proof.
  intros Hb. induction l as [|ty l IH]; [done|]. rewrite !fmap_cons, news_cons, IH.
  by rewrite decide_True.
Qed.

Lemma news_told_other id (b : Member I A) l :
  node_id (node b) ≠ id → news_about id (told b l) = [].
Proof.
  intros Hb. induction l as [|ty l IH]; [done|]. rewrite !fmap_cons, news_cons, IH.
  by rewrite decide_False.
Qed.

Abbreviation farewells gone := ((λ x, member_event MemberEventType.Reap (member x)) <$> gone).

Lemma news_reaped_none id (gone : list (MemberState I A)) :
  id ∉ ms_id <$> gone → news_about id (farewells gone) = [].
Proof.
  induction gone as [|x gone IH]; [done|]. rewrite !fmap_cons.
  intros [Hx Hg]%not_elem_of_cons. rewrite news_cons, IH by done. rewrite decide_False; [done|].
  intros ?. by apply Hx.
Qed.

Lemma news_reaped id (gone : list (MemberState I A)) x :
  NoDup (ms_id <$> gone) → x ∈ gone → ms_id x = id →
  news_about id (farewells gone) = [(MemberEventType.Reap, profile_of (member x))].
Proof.
  induction gone as [|y gone IH]; [by intros _ ?%not_elem_of_nil|]. rewrite !fmap_cons.
  intros [Hy Hnd]%NoDup_cons Hx Hid. rewrite news_cons. apply elem_of_cons in Hx as [<-|Hx].
  - rewrite decide_True by done. by rewrite news_reaped_none by (by rewrite <- Hid).
  - rewrite IH by done. rewrite decide_False; [done|]. intros E. apply Hy.
    apply list_elem_of_fmap. exists x. split; [|done]. rewrite Hid. exact E.
Qed.

(** *** One entry of the table *)

Lemma slot_other s s' (id j : I) ms :
  j ≠ id → states (members s') = <[id := ms]> (states (members s)) →
  recent_intents (members s') = recent_intents (members s) → slot_of s' j = slot_of s j.
Proof. intros Hj Hs Hi. unfold slot_of. by rewrite Hs, Hi, lookup_insert_ne. Qed.

(** An operation that leaves the other ids alone. *)
Lemma refines_target o s s' id b l :
  op_target o = Some id → node_id (node b) = id →
  event_tx s' = event_tx s ++ told b l →
  (∀ j, j ≠ id → slot_of s' j = slot_of s j) →
  life (around s id o) id o (slot_of s id) (slot_of s' id) ((., profile_of b) <$> l) →
  refines o s s'.
Proof.
  intros Ht Hb He Ho Hl. exists (told b l). split; [done|]. split.
  { apply Forall_fmap, Forall_true. intros ty. by exists ty, b. }
  intros j. destruct (decide (j = id)) as [->|Hj]; [by rewrite news_told|].
  rewrite news_told_other, Ho by congruence. apply life_other.
  unfold concerns. rewrite Ht. intros [|]; congruence.
Qed.

(** A handler that stores one entry. *)
Lemma refines_insert o s s' id ms l :
  op_target o = Some id → ms_id ms = id →
  event_tx s' = event_tx s ++ told (member ms) l →
  states (members s') = <[id := ms]> (states (members s)) →
  recent_intents (members s') = recent_intents (members s) →
  life (around s id o) id o (slot_of s id)
    (mkSlot (Some (profile_of (member ms), status_time ms)) (recent_intents (members s) !! id))
    ((., profile_of (member ms)) <$> l) →
  refines o s s'.
Proof.
  intros Ht Hid He Hs Hi Hl. eapply refines_target; [done|exact Hid|exact He| |].
  - intros j Hj. by eapply slot_other.
  - unfold slot_of at 2. by rewrite Hs, Hi, lookup_insert_eq.
Qed.

(** A handler that does nothing to the table, the buffer and the events. *)
Lemma refines_stay o s s' id :
  op_target o = Some id → event_tx s' = event_tx s → members s' = members s →
  life (around s id o) id o (slot_of s id) (slot_of s id) [] → refines o s s'.
Proof.
  intros Ht He Hm Hl. exists []. rewrite app_nil_r. split; [done|]. split; [constructor|].
  assert (∀ j, slot_of s' j = slot_of s j) as Hsl by (intros; unfold slot_of; by rewrite Hm).
  intros j. rewrite Hsl. destruct (decide (j = id)) as [->|Hj]; [done|]. apply life_other.
  unfold concerns. rewrite Ht. intros [|]; congruence.
Qed.

(** A handler that buffers an intent about an unknown id. *)
Lemma refines_rumour o s s' id ty t now :
  op_target o = Some id → states (members s) !! id = None →
  event_tx s' = event_tx s →
  members s' = set_intents (members s) (upsert_intent (recent_intents (members s)) id ty t now).1 →
  (¬ fresh (slot_of s id) t → life (around s id o) id o (slot_of s id) (slot_of s id) []) →
  (fresh (slot_of s id) t →
   life (around s id o) id o (slot_of s id) (mkSlot None (Some (mkNodeIntent ty now t))) []) →
  refines o s s'.
Proof.
  intros Ht Hn He Hm Hstale Hfresh. exists []. rewrite app_nil_r. split; [done|].
  split; [constructor|]. intros j. unfold slot_of at 2. rewrite Hm. simpl.
  destruct (decide (j = id)) as [->|Hj].
  - unfold slot_of in *. rewrite Hn in *. simpl in *. unfold upsert_intent.
    destruct (recent_intents (members s) !! id) as [i|] eqn:Hi; simpl in *.
    + destruct (intent_ltime i <? t) eqn:E; bool_to_prop; simpl.
      * rewrite lookup_insert_eq. by apply Hfresh.
      * rewrite Hi. apply Hstale. lia.
    + rewrite lookup_insert_eq. by apply Hfresh.
  - replace ((upsert_intent _ _ _ _ _).1 !! j) with (recent_intents (members s) !! j).
    2:{ unfold upsert_intent. repeat case_match; simpl; by rewrite ?lookup_insert_ne. }
    apply life_other. unfold concerns. rewrite Ht. intros [|]; congruence.
Qed.

(** *** Each handler *)

Lemma slot_known s id ms :
  states (members s) !! id = Some ms →
  slot_of s id = mkSlot (Some (profile_of (member ms), status_time ms)) (recent_intents (members s) !! id).
Proof. intros Hms. unfold slot_of. by rewrite Hms. Qed.

Lemma slot_unknown s id :
  states (members s) !! id = None → slot_of s id = mkSlot None (recent_intents (members s) !! id).
Proof. intros Hn. unfold slot_of. by rewrite Hn. Qed.

Lemma join_refines s n :
  wf_members (members s) → refines (OpJoin n) s (handle_node_join s n).
Proof.
  intros Hwf. unfold handle_node_join. fold (tags_of n).
  destruct (tags_of n) as [tg|e] eqn:Htg.
  2:{ eapply refines_stay; [done..|]. by eapply life_join_bad. }
  set (id := node_id (ns_node n)).
  destruct (states (members s) !! id) as [ms|] eqn:Hms; simpl.
  - set (b := mkMember _ _ _ _ _ _ _).
    apply (refines_insert _ _ _ id (mkMemberState b (status_time ms) None) [MemberEventType.Join]);
      [done|done|done|by case_decide|by case_decide|].
    rewrite (slot_known _ _ _ Hms). by apply life_join_back.
  - set (r := recent_intents (members s) !! id).
    assert (let v := first_view r in
      match recent_intent (recent_intents (members s)) id MessageType.Leave with
      | Some t => (MemberStatus.Leaving, t)
      | None => match recent_intent (recent_intents (members s)) id MessageType.Join with
                | Some t => (MemberStatus.Alive, t) | None => (MemberStatus.Alive, 0) end
      end = v) as Hv.
    { unfold recent_intent. fold r. destruct r as [i|] eqn:Hr; [|done]. simpl.
      destruct (wfm_intents _ Hwf id i Hr) as [E|E]; rewrite E; done. }
    cbv zeta in Hv. rewrite Hv. destruct (first_view r) as [st lt] eqn:Hf. simpl.
    set (b := mkMember _ _ _ _ _ _ _).
    apply (refines_insert _ _ _ id (mkMemberState b lt None) [MemberEventType.Join]);
      [done|done|done|done|done|].
    rewrite (slot_unknown _ _ Hms). fold r.
    pose proof (life_join_new (around s id (OpJoin n)) id n tg r eq_refl Htg) as Hl.
    rewrite Hf in Hl. exact Hl.
Qed.

Lemma leave_refines s n now :
  wf_members (members s) → refines (OpLeave n now) s (handle_node_leave s n now).
Proof.
  intros Hwf. unfold handle_node_leave. set (id := node_id (ns_node n)).
  destruct (states (members s) !! id) as [ms|] eqn:Hms.
  2:{ eapply refines_stay; [done..|]. fold id. rewrite (slot_unknown _ _ Hms).
      by apply life_gone_unknown. }
  pose proof (wfm_entries _ Hwf _ _ Hms) as [Hid Hst _ _].
  destruct (ms_status ms) eqn:E.
  3: { apply (refines_insert _ _ _ id (set_leave_time (set_status ms MemberStatus.Left) (Some now))
         [MemberEventType.Leave]); [done|exact Hid|done|done|done|].
       rewrite (slot_known _ _ _ Hms). by apply life_left. }
  2: { apply (refines_insert _ _ _ id (set_leave_time (set_status ms MemberStatus.Failed) (Some now))
         [MemberEventType.Failed]); [done|exact Hid|done|done|done|].
       rewrite (slot_known _ _ _ Hms). by apply life_fail. }
  all: eapply refines_stay; [done..|]; fold id; rewrite (slot_known _ _ _ Hms);
    apply life_gone_already; [done|]; unfold departed, known_status, ms_status in *; simpl;
    naive_solver.
Qed.

Lemma update_refines s n : refines (OpUpdate n) s (handle_node_update s n).
Proof.
  unfold handle_node_update. destruct (decode_tags (meta n)) as [tg|e] eqn:Htg.
  2:{ eapply refines_stay; [done..|]. by eapply life_update_bad. }
  set (id := node_id (ns_node n)).
  destruct (states (members s) !! id) as [ms|] eqn:Hms.
  2:{ eapply refines_stay; [done..|]. fold id. rewrite (slot_unknown _ _ Hms).
      by eapply life_update_unknown. }
  set (b := mkMember _ _ _ _ _ _ _).
  apply (refines_insert _ _ _ id (mkMemberState b (status_time ms) (leave_time ms))
    [MemberEventType.Update]); [done|done|done|done|done|].
  rewrite (slot_known _ _ _ Hms). by apply life_update.
Qed.

Lemma join_intent_refines s msg now :
  wf_members (members s) →
  refines (OpJoinIntent msg now) s (handle_node_join_intent s msg now).1.
Proof.
  intros Hwf. unfold handle_node_join_intent. simpl.
  destruct (states (members s) !! join_id msg) as [ms|] eqn:Hms.
  - destruct (join_ltime msg <=? status_time ms) eqn:Hle; bool_to_prop.
    { eapply refines_stay; [done..|]. simpl. rewrite (slot_known _ _ _ Hms).
      apply life_join_stale; [done|]. simpl. lia. }
    pose proof (wfe_id _ _ (wfm_entries _ Hwf _ _ Hms)) as Hid.
    simpl. set (ms' := if decide _ then _ else _).
    apply (refines_insert _ _ _ (join_id msg) ms' []);
      [done| |simpl; by rewrite app_nil_r|done|done|].
    { subst ms'. case_decide; exact Hid. }
    subst ms'.
    rewrite (slot_known _ _ _ Hms).
    pose proof (life_join_intent (around s (join_id msg) (OpJoinIntent msg now)) (join_id msg) msg now
      (profile_of (member ms)) (status_time ms) (recent_intents (members s) !! join_id msg)
      eq_refl ltac:(simpl; lia)) as Hl.
    unfold refuted, with_status in Hl. unfold ms_status. simpl in *.
    case_decide; simpl in *; [exact Hl|]. by destruct (member ms).
  - destruct (upsert_intent _ _ _ _ _) as [i b] eqn:Hu.
    eapply (refines_rumour _ _ _ (join_id msg) MessageType.Join (join_ltime msg) now);
      [done|done|done|simpl; by rewrite Hu| |].
    + intros. by apply life_join_stale.
    + rewrite (slot_unknown _ _ Hms). intros. by apply life_join_rumour.
Qed.

(** The prune at the end of a leave intent. *)
Lemma prune_refines s s1 msg now ms0 ms l :
  states (members s) !! leave_id msg = Some ms0 → ms_id ms = leave_id msg →
  status_time ms0 < leave_ltime msg →
  ¬ (leave_id msg = local_id s ∧ serf_state s = SerfState.Alive) →
  profile_of (member ms) = with_status (profile_of (member ms0)) (on_leave_intent (ms_status ms0)).1 →
  status_time ms = leave_ltime msg → l = (on_leave_intent (ms_status ms0)).2 →
  event_tx s1 = event_tx s ++ told (member ms) l →
  states (members s1) = <[leave_id msg := ms]> (states (members s)) →
  recent_intents (members s1) = recent_intents (members s) →
  refines (OpLeaveIntent msg now) s (prune_if s1 msg ms).
Proof.
  intros Hms Hid Hlt Hself Hp Ht -> He Hs Hi. unfold prune_if.
  assert (is_self_alive (around s (leave_id msg) (OpLeaveIntent msg now)) = false) as Hal
    by by apply bool_decide_eq_false_2.
  destruct (prune msg) eqn:Hprune.
  - eapply (refines_target _ _ _ (leave_id msg) (member ms)
      ((on_leave_intent (ms_status ms0)).2 ++ [MemberEventType.Reap])); [done|exact Hid| | |].
    + by rewrite events_prune, He, fmap_app, <- app_assoc.
    + intros j Hj. unfold slot_of.
      by rewrite states_prune, intents_prune, Hs, Hi, Hid, lookup_delete_ne, lookup_insert_ne.
    + unfold slot_of at 2. rewrite states_prune, intents_prune, Hi, Hid, lookup_delete_eq.
      rewrite (slot_known _ _ _ Hms), Hp. by apply life_leave_prune.
  - eapply refines_insert; [done|exact Hid|exact He|done|done|].
    rewrite (slot_known _ _ _ Hms), Hp, Ht. by apply life_leave_intent.
Qed.

Lemma leave_intent_refines s msg now :
  wf_members (members s) →
  refines (OpLeaveIntent msg now) s (handle_node_leave_intent s msg now).1.
Proof.
  intros Hwf. unfold handle_node_leave_intent. simpl.
  destruct (states (members s) !! leave_id msg) as [ms|] eqn:Hms.
  2:{ destruct (upsert_intent _ _ _ _ _) as [i b] eqn:Hu.
      eapply (refines_rumour _ _ _ (leave_id msg) MessageType.Leave (leave_ltime msg) now);
        [done|done|done|simpl; by rewrite Hu| |].
      + intros. by apply life_leave_stale.
      + rewrite (slot_unknown _ _ Hms). intros. by apply life_leave_rumour. }
  destruct (leave_ltime msg <=? status_time ms) eqn:Hle; bool_to_prop.
  { eapply refines_stay; [done..|]. simpl. rewrite (slot_known _ _ _ Hms).
    apply life_leave_stale; [done|]. simpl. lia. }
  case_decide as Hself; simpl in Hself.
  { eapply refines_stay; [done..|]. simpl. rewrite (slot_known _ _ _ Hms).
    apply life_leave_refuted; [done|simpl; lia|by apply bool_decide_eq_true_2]. }
  pose proof (wfm_entries _ Hwf _ _ Hms) as [Hid Hst _ _].
  unfold ms_status at 1. simpl. fold (ms_status ms).
  destruct (ms_status ms) eqn:E; simpl.
  1, 6: exfalso; unfold known_status in Hst; destruct_or! Hst; congruence.
  all: eapply (prune_refines _ _ _ _ ms);
    [done|exact Hid|lia|done| |done|by rewrite E|simpl; rewrite ?app_nil_r; done|done|done].
  all: rewrite E; unfold ms_status, profile_of, with_status in *; simpl; by rewrite ?E.
Qed.

Lemma reap_refines s now :
  wf_members (members s) → refines (OpReap now) s (reap_tick reconnector s now).
Proof.
  intros Hwf. destruct (reap_tick_effect reconnector s now) as (gone & Hp & _ & He).
  pose proof (reaped_nodup reconnector s now Hwf) as Hnd. rewrite <- Hp in Hnd.
  eexists. split; [exact He|]. split.
  { apply Forall_fmap, Forall_true. intros x. by eexists _, _. }
  intros id. unfold slot_of. rewrite reap_lookup, reap_tick_intents. unfold reap_intents.
  rewrite map_lookup_filter.
  assert (∀ r : option NodeIntent, (r ≫= λ i, guard (since now (wall_time (id, i).2) <=
      recent_intent_timeout (opts s)) ≫= λ _, Some i) =
    (i ← r; if decide (since now (wall_time i) <= recent_intent_timeout (opts s))
            then Some i else None)) as Hr.
  { intros [i|]; [|done]. simpl. unfold guard. by case_decide. }
  rewrite Hr. clear Hr. destruct (decide (id ∈ ms_id <$> reaped reconnector s now)) as [Hin|Hin].
  - destruct (reaped_departed reconnector s now id Hwf Hin) as (st & Hd & Hst).
    assert (id ∈ ms_id <$> gone) as (x & Hx & Hxg)%list_elem_of_fmap by by rewrite Hp.
    rewrite (news_reaped id gone x) by done.
    unfold status_of in Hst. destruct (states (members s) !! id) as [ms|] eqn:Hms; [|done].
    simplify_eq/=. apply life_reap.
    + by apply bool_decide_eq_true_2.
    + by eapply reaped_status; [|rewrite <- Hp|].
    + done.
    + done.
  - rewrite news_reaped_none by (by rewrite Hp). apply life_reap_keep; [|done].
    by apply bool_decide_eq_false_2.
Qed.

Lemma run_op_refines s o : wf_members (members s) → refines o s (run_op reconnector s o).
Proof.
  intros Hwf. destruct o; cbn [run_op]; eauto using join_refines, leave_refines,
    update_refines, join_intent_refines, leave_intent_refines, reap_refines.
Qed.

End refinement.

(** ** What an instance remembers *)

Section memory.
Context {I A R : Type} `{Countable I} `{Countable A} `{!Codec I A R}.
Context (reconnector : option (Member I A → Z → Z)).
Implicit Types (s : Serf I A) (o : op I A) (id : I) (sl : slot I A).

(** The newest intent time a slot has. *)
Definition heard sl : Z :=
  match sl with
  | mkSlot (Some (_, t)) _ => t
  | mkSlot None (Some i) => intent_ltime i
  | mkSlot None None => -1
  end.

Lemma seen_heard s id : seen s id = heard (slot_of s id).
Proof. unfold seen, slot_of. repeat case_match; simplify_eq/=; done. Qed.

(** From [sl] to [sl'] the id is not forgotten: a member is not erased, and
    the intent about an unknown id is not dropped. *)
Definition not_forgotten sl sl' : Prop :=
  match sl with
  | mkSlot (Some _) _ => is_Some (known sl')
  | mkSlot None (Some _) => is_Some (known sl') ∨ is_Some (rumour sl')
  | mkSlot None None => True
  end.

(** The instance does not forget [id] in any step of a run. *)
Fixpoint remembered id s (os : list (op I A)) : Prop :=
  match os with
  | [] => True
  | o :: os =>
      not_forgotten (slot_of s id) (slot_of (run_op reconnector s o) id) ∧
      remembered id (run_op reconnector s o) os
  end.

Lemma kept_rumour (now timeout : Z) (r : option NodeIntent) :
  is_Some (i ← r; if decide (since now (wall_time i) <= timeout) then Some i else None) →
  (i ← r; if decide (since now (wall_time i) <= timeout) then Some i else None) = r.
Proof. destruct r; simpl; [|done]. case_decide; [done|]. by intros [? ?]. Qed.

(** An id that is not forgotten is heard of at least as late as before. *)
Lemma life_heard e id o sl sl' n :
  life e id o sl sl' n → op_unsigned o → not_forgotten sl sl' → heard sl <= heard sl'.
Proof.
  intros Hl Hu Hn. destruct Hl; simpl in *; try reflexivity; try lia;
    try (by destruct Hn as [? ?]).
  - destruct r as [i|]; simpl; lia.
  - destruct r as [i|]; simpl in *; lia.
  - destruct r as [i|]; simpl in *; lia.
  - destruct k as [[p t]|]; [done|]. destruct r as [i|]; [|by subst r'].
    destruct Hn as [[? ?]|Hk]; [done|]. simpl in Hk. subst r'.
    by rewrite (kept_rumour _ _ (Some i) Hk).
Qed.

Lemma run_op_life s o id :
  wf_members (members s) →
  ∃ n, life (around reconnector s id o) id o (slot_of s id) (slot_of (run_op reconnector s o) id) n.
Proof. intros Hwf. destruct (run_op_refines reconnector s o Hwf) as (evs & _ & _ & Hl). eauto. Qed.

Lemma seen_run s os id :
  wf_members (members s) → Forall op_unsigned os → remembered id s os →
  seen s id <= seen (run reconnector s os) id.
Proof.
  intros Hwf Hos. unfold run. revert s Hwf. induction Hos as [|o os Hu Hos IH]; intros s Hwf Hr;
    [reflexivity|].
  destruct Hr as [Hn Hr]. simpl. etrans; [|apply IH; [by apply run_op_wf|done]].
  rewrite !seen_heard. destruct (run_op_life s o id Hwf) as [n Hl]. by eapply life_heard.
Qed.

(** An intent that is passed on is a fresh one the machine follows. *)
Lemma rebroadcasts_followed s o id t :
  intent_key o = Some (id, t) → rebroadcasts s o = true →
  fresh (slot_of s id) t ∧
  (is_Some (known (slot_of s id)) → (∃ msg now, o = OpLeaveIntent msg now) →
   is_self_alive (around reconnector s id o) = false).
Proof.
  destruct o as [| | |msg now|msg now|]; try done; simpl; intros [= <- <-].
  - unfold handle_node_join_intent, slot_of, upsert_intent. simpl.
    destruct (states (members s) !! join_id msg) as [ms|] eqn:Hms; simpl.
    + destruct (join_ltime msg <=? status_time ms) eqn:Hle; bool_to_prop; [done|].
      intros _. split; [lia|]. by intros _ (? & ? & ?).
    + destruct (recent_intents (members s) !! join_id msg) as [i|]; simpl.
      * destruct (intent_ltime i <? join_ltime msg) eqn:E; bool_to_prop; [|done].
        intros _. split; [done|]. by intros [? ?].
      * intros _. split; [done|]. by intros [? ?].
  - unfold handle_node_leave_intent, slot_of, upsert_intent. simpl.
    destruct (states (members s) !! leave_id msg) as [ms|] eqn:Hms; simpl.
    + destruct (leave_ltime msg <=? status_time ms) eqn:Hle; bool_to_prop; [done|].
      case_decide; [done|]. intros _. split; [lia|]. intros _ _. by apply bool_decide_eq_false_2.
    + destruct (recent_intents (members s) !! leave_id msg) as [i|]; simpl.
      * destruct (intent_ltime i <? leave_ltime msg) eqn:E; bool_to_prop; [|done].
        intros _. split; [done|]. by intros [? ?].
      * intros _. split; [done|]. by intros [? ?].
Qed.

(** A fresh intent that is not refuted and not followed by a prune is heard. *)
Lemma life_accepts e id o sl sl' n t :
  life e id o sl sl' n → intent_key o = Some (id, t) → fresh sl t →
  (is_Some (known sl) → (∃ msg now, o = OpLeaveIntent msg now) → is_self_alive e = false) →
  not_forgotten sl sl' → heard sl' = t.
Proof.
  intros Hl Hk Hf Hself Hn. destruct Hl as [o sl Hc| | | | | | | | | | | | | | | msg now p t0 r _ _ Ha| | | | |]; simpl in *; simplify_eq; try done.
  - exfalso. apply Hc. left. destruct o; simpl in *; simplify_eq; done.
  - by rewrite Hself in Ha by eauto.
Qed.

Lemma rebroadcasts_remembered s o id t :
  wf_members (members s) → intent_key o = Some (id, t) → rebroadcasts s o = true →
  not_forgotten (slot_of s id) (slot_of (run_op reconnector s o) id) →
  seen (run_op reconnector s o) id = t.
Proof.
  intros Hwf Hk Hb Hn. rewrite seen_heard.
  destruct (rebroadcasts_followed s o id t Hk Hb) as [Hf Hself].
  destruct (run_op_life s o id Hwf) as [n Hl]. by eapply life_accepts.
Qed.

(** No operation gives the instance another name. *)
Lemma local_erase_all gone s : local_id (erase_all s gone) = local_id s.
Proof.
  unfold erase_all. revert s. induction gone as [|x gone IH]; intros s; [done|].
  simpl. rewrite IH. unfold erase_node, forget_coordinate. simpl. by destruct (coord_core s).
Qed.

Lemma local_reap s now : local_id (reap_tick reconnector s now) = local_id s.
Proof.
  unfold reap_tick. change (local_id (reap_left reconnector (reap_failed reconnector s now
    (reconnect_timeout (opts s))) now (tombstone_timeout (opts (reap_failed reconnector s now
    (reconnect_timeout (opts s)))))) = local_id s).
  unfold reap_left. destruct (reap_loop_all reconnector now
    (tombstone_timeout (opts (reap_failed reconnector s now (reconnect_timeout (opts s)))))
    (left_members (members (reap_failed reconnector s now (reconnect_timeout (opts s)))))
    (reap_failed reconnector s now (reconnect_timeout (opts s)))) as (l & g & -> & _).
  change (local_id (erase_all (reap_failed reconnector s now (reconnect_timeout (opts s))) g)
    = local_id s). rewrite local_erase_all. unfold reap_failed.
  destruct (reap_loop_all reconnector now (reconnect_timeout (opts s))
    (failed_members (members s)) s) as (l' & g' & -> & _).
  change (local_id (erase_all s g') = local_id s). apply local_erase_all.
Qed.

Lemma local_kept s o : local_id (run_op reconnector s o) = local_id s.
Proof.
  destruct o; cbn [run_op]; [..|apply local_reap];
    unfold handle_node_join, handle_node_leave, handle_node_update, handle_node_join_intent,
      handle_node_leave_intent, prune_if, handle_prune, erase_node, forget_coordinate; cbn;
    repeat (case_match; simplify_eq/=); done.
Qed.

(** *** Several intents, each about another id *)

Lemma life_unconcerned e id o sl sl' n : life e id o sl sl' n → ¬ concerns id o → sl' = sl.
Proof.
  intros Hl Hc.
  by destruct (life_deterministic e id o sl sl' sl n [] Hl (life_other e id o sl Hc)).
Qed.

Lemma intent_target o : is_Some (intent_key o) → is_Some (op_target o).
Proof. destruct o; simpl; intros [? ?]; try done; by eexists. Qed.

Lemma around_kept s o id o' :
  is_Some (intent_key o) → is_Some (intent_key o') →
  around reconnector (run_op reconnector s o) id o' = around reconnector s id o'.
Proof.
  intros Ho Ho'. unfold around. rewrite local_kept.
  assert (serf_state (run_op reconnector s o) = serf_state s ∧
          opts (run_op reconnector s o) = opts s) as [-> ->].
  { destruct o as [| | |msg now|msg now|]; simpl in Ho; try (by destruct Ho); cbn [run_op];
      unfold handle_node_join_intent, handle_node_leave_intent, prune_if, handle_prune, erase_node,
        forget_coordinate; cbn; repeat (case_match; simplify_eq/=); done. }
  destruct o'; simpl in Ho'; done.
Qed.

Lemma run_untouched s os id :
  wf_members (members s) → Forall (λ o, is_Some (intent_key o)) os →
  Some id ∉ op_target <$> os →
  slot_of (run reconnector s os) id = slot_of s id ∧
  ∀ o, is_Some (intent_key o) → around reconnector (run reconnector s os) id o = around reconnector s id o.
Proof.
  intros Hwf Hos. revert s Hwf. unfold run. induction Hos as [|o os Ho Hos IH]; intros s Hwf; [done|].
  rewrite fmap_cons. intros [Hid Hn]%not_elem_of_cons. simpl.
  destruct (IH (run_op reconnector s o) (run_op_wf reconnector s o Hwf) Hn) as [-> Ha].
  destruct (run_op_life s o id Hwf) as [n Hl]. split.
  - eapply life_unconcerned; [exact Hl|]. intros [?|E]; [by apply Hid|].
    destruct (intent_target o Ho) as [? ?]. congruence.
  - intros o' Ho'. rewrite Ha by done. by apply around_kept.
Qed.

(** Intents about distinct ids: each id makes the step of the intent about it. *)
Lemma run_distinct s os id o :
  wf_members (members s) → Forall (λ o, is_Some (intent_key o)) os →
  NoDup (op_target <$> os) → o ∈ os → op_target o = Some id →
  ∃ n, life (around reconnector s id o) id o (slot_of s id) (slot_of (run reconnector s os) id) n.
Proof.
  intros Hwf Hos Hnd (os1 & os2 & ->)%list_elem_of_split Ht.
  apply Forall_app in Hos as [Hos1 [Ho Hos2]%Forall_cons].
  rewrite fmap_app, fmap_cons in Hnd. apply NoDup_app in Hnd as (_ & Hd1 & [Hd2 _]%NoDup_cons).
  assert (Some id ∉ op_target <$> os1) as Hn1.
  { intros Hin. apply (Hd1 _ Hin). rewrite Ht. apply elem_of_cons. by left. }
  destruct (run_untouched s os1 id Hwf Hos1 Hn1) as [Hs1 Ha1].
  pose proof (run_wf reconnector s os1 Hwf) as Hwf1.
  unfold run in *. rewrite foldl_app. simpl. set (s1 := foldl _ s os1) in *.
  destruct (run_op_life s1 o id Hwf1) as [n Hl]. exists n.
  rewrite <- (Ha1 o Ho), <- Hs1.
  destruct (run_untouched (run_op reconnector s1 o) os2 id (run_op_wf reconnector s1 o Hwf1) Hos2)
    as [Hs2 _]; [by rewrite <- Ht|]. unfold run in Hs2. by rewrite Hs2.
Qed.

(** ** Properties *)

(** C1: In every state that membership traffic can reach, every operation
    takes each member along its life cycle: the member it concerns, if any,
    makes the one transition the machine [life] has for it, from its node,
    tags, status, status time and buffered intent to the next ones, the
    application is sent exactly the news of that transition, with the member
    in it, and every other member is left alone. *)
Theorem lifecycle_refinement s os o :
  members s = default_members →
  refines reconnector o (run reconnector s os) (run_op reconnector (run reconnector s os) o).
Proof. intros Hs. apply run_op_refines, run_wf. rewrite Hs. apply default_members_wf. Qed.

(** C11: Once an intent has been accepted for rebroadcast, no intent about the
    same node that is as old or older is rebroadcast again, whatever
    notifications, intents, prunes and reaper ticks come in between, as long as
    none of them makes the instance forget that node: its member is not erased
    and, while it is unknown, its buffered intent is not dropped. *)
Theorem rebroadcast_once s o1 mid o2 id t1 t2 :
  wf_members (members s) →
  intent_key o1 = Some (id, t1) → intent_key o2 = Some (id, t2) → 0 <= t2 <= t1 →
  Forall op_unsigned mid → remembered id s (o1 :: mid) →
  rebroadcasts s o1 = true →
  rebroadcasts (run reconnector s (o1 :: mid)) o2 = false.
Proof.
  intros Hwf Hk1 Hk2 Ht Hmid [Hn Hr] Hb.
  destruct (rebroadcasts (run reconnector s (o1 :: mid)) o2) eqn:Hb2; [exfalso|done].
  apply (rebroadcasts_newer _ _ id t2) in Hb2; [|done|lia].
  pose proof (rebroadcasts_remembered s o1 id t1 Hwf Hk1 Hb Hn).
  pose proof (seen_run (run_op reconnector s o1) mid id
    (run_op_wf reconnector s o1 Hwf) Hmid Hr).
  unfold run in *. simpl in Hb2. lia.
Qed.

End memory.

(** ** The properties at work *)

Section witnesses.
Local Open Scope nat_scope.

(** Node 2 has failed; a forced leave takes it to left. *)
Lemma lifecycle_refinement_witness :
  let o := OpLeaveIntent (mkLeave 9%Z 2 false) 8%Z in
  refines None o sample_after (run_op None sample_after o) ∧
  ∃ p, known (slot_of (run_op None sample_after o) 2) = Some (p, 9%Z) ∧
       pf_status p = MemberStatus.Left.
Proof.
  split.
  - exact (lifecycle_refinement (R := string) None (sample_serf 0) sample_ops
      (OpLeaveIntent (mkLeave 9%Z 2 false) 8%Z) eq_refl).
  - vm_compute. eexists. by split.
Defined.

(** A reaper tick and the prune of another node come between two copies of a
    leave intent about node 1. *)
Lemma rebroadcast_once_witness :
  rebroadcasts (run None sample_after
    [OpLeaveIntent (mkLeave 6%Z 1 false) 8%Z; OpReap 9%Z; OpLeaveIntent (mkLeave 7%Z 2 true) 9%Z])
    (OpLeaveIntent (mkLeave 6%Z 1 false) 10%Z) = false.
Proof.
  apply (rebroadcast_once None sample_after (OpLeaveIntent (mkLeave 6%Z 1 false) 8%Z)
    [OpReap 9%Z; OpLeaveIntent (mkLeave 7%Z 2 true) 9%Z]
    (OpLeaveIntent (mkLeave 6%Z 1 false) 10%Z) 1 6%Z 6%Z).
  - apply run_wf, default_members_wf.
  - reflexivity.
  - reflexivity.
  - lia.
  - repeat constructor. simpl. lia.
  - vm_compute. split_and!; eauto.
  - reflexivity.
Defined.

End witnesses.
