(* ===== verification/Convergence.v ===== *)
(** * Agreement on a member

    Gossip delivers intents late, twice, and in a different order at every
    node, and memberlist may report a node before or after the intents about
    it.  [verdict] is what a node should make of the intents about a present
    member, as a set: the newest one decides.  The handlers compute it in any
    order, so two nodes that heard the same intents agree, as long as they do
    not forget the member, memberlist does not report it gone, and no join and
    leave tie for the newest ([ties_diverge] shows that a tie splits nodes). *)

From Stdlib Require Import ZArith Lia Strings.Byte.
From stdpp Require Import base list gmap strings.
From S2P Require Import Prelude Clock Coordinate Types Core Sample Membership MemberTraces Lifecycle.
Local Open Scope Z_scope.

(** ** The specification *)

Record Intent : Type := mkIntent { is_leave : bool; at_time : Z }.

(** The newest of the intents; of two at one time, the first. *)
Definition newer (best : option Intent) (x : Intent) : option Intent :=
  match best with
  | Some y => if at_time y <? at_time x then Some x else best
  | None => Some x
  end.

Definition newest (l : list Intent) : option Intent := foldl newer None l.

(** The status and status time of a present member, given the newest intent. *)
Definition verdict (best : option Intent) : MemberStatus.t * Z :=
  match best with
  | None => (MemberStatus.Alive, 0)
  | Some (mkIntent true t) => (MemberStatus.Leaving, t)
  | Some (mkIntent false t) => (MemberStatus.Alive, t)
  end.

(** No join and leave tie for the newest time.  A node numbers its own intents
    from its clock, but another node that forces it to leave takes the time
    from its own clock, so ties can occur. *)
Definition unambiguous (l : list Intent) : Prop :=
  ∀ x y, x ∈ l → y ∈ l → at_time x = at_time y →
    (∀ z, z ∈ l → at_time z <= at_time x) → x = y.

Lemma newest_intent_snoc l x : newest (l ++ [x]) = newer (newest l) x.
Proof. unfold newest. by rewrite foldl_app. Qed.

Lemma newest_spec l :
  match newest l with
  | None => l = []
  | Some x => x ∈ l ∧ ∀ y, y ∈ l → at_time y <= at_time x
  end.
Proof.
  induction l as [|x l IH] using rev_ind; [done|]. rewrite newest_intent_snoc.
  destruct (newest l) as [y|]; simpl.
  - destruct IH as [Hin Hmax]. destruct (at_time y <? at_time x) eqn:Hlt; bool_to_prop;
      (split; [set_solver|]); intros z [Hz%Hmax|Hz]%elem_of_app;
      [lia|apply list_elem_of_singleton in Hz as ->; lia|lia|apply list_elem_of_singleton in Hz as ->; lia].
  - subst l. split; [set_solver|]. intros z Hz. apply list_elem_of_singleton in Hz as ->. lia.
Qed.

(** The newest intent depends on the set only. *)
Lemma newest_set l1 l2 :
  (∀ x, x ∈ l1 ↔ x ∈ l2) → unambiguous l1 → newest l1 = newest l2.
Proof.
  intros Heq Hun. pose proof (newest_spec l1) as H1. pose proof (newest_spec l2) as H2.
  destruct (newest l1) as [x|], (newest l2) as [y|].
  - destruct H1 as [Hx Hmx], H2 as [Hy Hmy]. f_equal. apply Hun; [done|by apply Heq| |done].
    pose proof (Hmx y (proj2 (Heq y) Hy)). pose proof (Hmy x (proj1 (Heq x) Hx)). lia.
  - subst l2. destruct H1 as [Hx%Heq _]. by apply not_elem_of_nil in Hx.
  - subst l1. destruct H2 as [Hy%Heq _]. by apply not_elem_of_nil in Hy.
  - done.
Qed.

Section converge.
Context {I A R : Type} `{Countable I} `{Countable A} `{!Codec I A R}.
Context (reconnector : option (Member I A → Z → Z)).
Implicit Types (s : Serf I A) (o : op I A) (id : I).

(** The intent about [id] an operation brings, and whether it is memberlist's
    report of [id] with meta data that decodes. *)
Definition intent_about id o : option Intent :=
  match o with
  | OpJoinIntent msg _ => if decide (join_id msg = id) then Some (mkIntent false (join_ltime msg)) else None
  | OpLeaveIntent msg _ => if decide (leave_id msg = id) then Some (mkIntent true (leave_ltime msg)) else None
  | _ => None
  end.

Definition intents_about id (os : list (op I A)) : list Intent := omap (intent_about id) os.

Definition reports id o : bool :=
  match o with OpJoin n => bool_decide (node_id (ns_node n) = id) | _ => false end.

(** Gossip about [id] and anything about the others: memberlist has not seen
    [id] go, a report of [id] has meta data that decodes, and an intent about it
    has a time past zero, as every clock that was incremented gives. *)
Definition gossip_about id o : Prop :=
  match o with
  | OpJoin n => node_id (ns_node n) = id → meta n = [] ∨ ∃ tg, decode_tags (meta n) = Ok tg
  | OpLeave n _ => node_id (ns_node n) ≠ id
  | OpJoinIntent msg _ => join_id msg = id → 0 < join_ltime msg
  | OpLeaveIntent msg _ => leave_id msg = id → 0 < leave_ltime msg
  | _ => True
  end.

(** ** The handlers follow the specification *)

(** What a slot holds once its node has heard [best], before and after
    memberlist reported the member. *)
Definition opinion (sl : slot I A) (arrived : bool) (best : option Intent) : Prop :=
  if arrived then ∃ p t, known sl = Some (p, t) ∧ (pf_status p, t) = verdict best
  else
    known sl = None ∧
    match best with
    | None => rumour sl = None
    | Some x => ∃ wall, rumour sl = Some (mkNodeIntent
        (if is_leave x then MessageType.Leave else MessageType.Join) wall (at_time x))
    end.

Lemma verdict_present best st t :
  (st, t) = verdict best → st = MemberStatus.Alive ∨ st = MemberStatus.Leaving.
Proof. destruct best as [[[] t']|]; cbn; intros ?; simplify_eq; auto. Qed.

Lemma newer_accepts best x :
  0 < at_time x → newer best x = if (verdict best).2 <? at_time x then Some x else best.
Proof. intros Hx. destruct best as [[[] t]|]; cbn; [done..|]. by rewrite (proj2 (Z.ltb_lt _ _)). Qed.

(** An intent is fresh when it is newer than the newest heard. *)
Lemma opinion_fresh sl a best x :
  0 < at_time x → opinion sl a best →
  (fresh sl (at_time x) → newer best x = Some x) ∧ (¬ fresh sl (at_time x) → newer best x = best).
Proof.
  intros Hx Ho. destruct a, sl as [k r]; cbn in Ho.
  - destruct Ho as (p & t & -> & Hv). rewrite newer_accepts by done. rewrite <- Hv. cbn.
    split; intros; [by rewrite (proj2 (Z.ltb_lt _ _))|rewrite (proj2 (Z.ltb_ge _ _)); [done|lia]].
  - destruct Ho as [-> Hb]. destruct best as [y|]; [destruct Hb as [w ->]|rewrite Hb]; cbn;
      split; intros; try done; [by rewrite (proj2 (Z.ltb_lt _ _))|].
    rewrite (proj2 (Z.ltb_ge _ _)); [done|lia].
Qed.

(** One step of the machine: its intent, if it has one, is weighed; a report
    of the member makes it present. *)
Lemma life_follows e id o sl sl' n a best :
  life e id o sl sl' n → gossip_about id o → is_self_alive e = false →
  (a = true → reports id o = false) → not_forgotten sl sl' → opinion sl a best →
  opinion sl' (a || reports id o) (from_option (newer best) best (intent_about id o)).
Proof.
  intros Hl Hg Hself Ha Hn Ho.
  assert (∀ x : Intent, 0 < at_time x → _) as Hfresh by exact (λ x Hx, opinion_fresh sl a best x Hx Ho).
  destruct Hl; cbn in Hg, Ha |- *; rewrite ?orb_false_r; try done.
  - assert (reports id o = false ∧ intent_about id o = None) as [-> ->].
    { unfold concerns in *. destruct o; cbn in *; rewrite ?bool_decide_eq_false_2, ?decide_False;
        naive_solver. }
    by rewrite orb_false_r.
  - destruct a; [destruct Ho as (? & ? & ? & _); done|].
    rewrite bool_decide_eq_true_2 by done. destruct Ho as [_ Hb]. cbn in Hb |- *.
    eexists _, _. split; [done|]. unfold p. cbn.
    destruct best as [[[] t]|]; [destruct Hb as [w ->]..|rewrite Hb]; done.
  - destruct a; [|by destruct Ho]. rewrite bool_decide_eq_true_2 in Ha by done.
    by specialize (Ha eq_refl).
  - exfalso. destruct (Hg ltac:(done)) as [Hm|[tg Hm]]; unfold tags_of in *; case_decide; congruence.
  - destruct a; [|by destruct Ho]. destruct Ho as (q & u & Hq & Hv). cbn in Hq. simplify_eq.
    by eexists _, _.
  - rewrite decide_True by done. cbn. by rewrite (proj2 (Hfresh (mkIntent false _) (Hg ltac:(done)))).
  - rewrite decide_True by done. cbn.
    rewrite (proj1 (Hfresh (mkIntent false _) (Hg ltac:(done)))) by done.
    destruct a; [|by destruct Ho]. destruct Ho as (q & u & Hq & Hv). cbn in Hq. simplify_eq.
    eexists _, _. split; [done|]. cbn. unfold refuted.
    by destruct (verdict_present _ _ _ Hv) as [-> | ->].
  - rewrite decide_True by done. cbn.
    rewrite (proj1 (Hfresh (mkIntent false _) (Hg ltac:(done)))) by done.
    destruct a; [destruct Ho as (? & ? & ? & _); done|]. cbn. eauto.
  - rewrite decide_True by done. cbn. by rewrite (proj2 (Hfresh (mkIntent true _) (Hg ltac:(done)))).
  - congruence.
  - rewrite decide_True by done. cbn.
    rewrite (proj1 (Hfresh (mkIntent true _) (Hg ltac:(done)))) by done.
    destruct a; [|by destruct Ho]. destruct Ho as (q & u & Hq & Hv). cbn in Hq. simplify_eq.
    eexists _, _. split; [done|]. unfold p'. cbn.
    by destruct (verdict_present _ _ _ Hv) as [-> | ->].
  - by destruct Hn.
  - rewrite decide_True by done. cbn.
    rewrite (proj1 (Hfresh (mkIntent true _) (Hg ltac:(done)))) by done.
    destruct a; [destruct Ho as (? & ? & ? & _); done|]. cbn. eauto.
  - by destruct Hn.
  - destruct a; [exact Ho|]. destruct Ho as [Hk Hb]. cbn in Hk, Hb. subst k r'. split; [done|]. cbn.
    destruct best as [x|]; [|by rewrite Hb]. destruct Hb as [w ->]. exists w.
    destruct Hn as [[? ?]|Hr]; [done|]. by rewrite (kept_rumour _ _ (Some _) Hr).
Qed.

(** How often memberlist reports [id]. *)
Definition arrivals id (os : list (op I A)) : nat := length (filter (λ o, reports id o = true) os).

Lemma run_follows id os : ∀ s a best,
  wf_members (members s) → Forall (gossip_about id) os → remembered reconnector id s os →
  id ≠ local_id s → opinion (slot_of s id) a best →
  (if a then arrivals id os = 0 else (arrivals id os <= 1))%nat →
  opinion (slot_of (run reconnector s os) id) (a || bool_decide (0 < arrivals id os)%nat)
    (foldl newer best (intents_about id os)).
Proof.
  induction os as [|o os IH]; intros s a best Hwf Hg Hr Hl Ho Ha; [by rewrite orb_false_r|].
  apply Forall_cons in Hg as [Hg0 Hg]. destruct Hr as [Hn Hr].
  unfold arrivals in *. rewrite filter_cons in *.
  assert (a = true → reports id o = false) as Ha0.
  { intros ->. destruct (reports id o); [|done]. rewrite decide_True in Ha by done. done. }
  destruct (run_op_life reconnector s o id Hwf) as [n Hlife].
  pose proof (life_follows _ _ _ _ _ _ _ _ Hlife Hg0
    ltac:(apply bool_decide_eq_false_2; by intros [? _]) Ha0 Hn Ho) as Ho'.
  specialize (IH (run_op reconnector s o) (a || reports id o)
    (from_option (newer best) best (intent_about id o)) (run_op_wf reconnector s o Hwf) Hg Hr).
  assert (foldl newer best (intents_about id (o :: os)) =
    foldl newer (from_option (newer best) best (intent_about id o)) (intents_about id os)) as ->.
  { unfold intents_about. cbn. by destruct (intent_about id o). }
  rewrite local_kept in IH. specialize (IH Hl Ho').
  change (run reconnector s (o :: os)) with (run reconnector (run_op reconnector s o) os).
  destruct (reports id o); case_decide; try done; cbn [length] in *.
  - rewrite orb_true_r in IH. destruct a; [done|]. apply IH. lia.
  - rewrite orb_false_r in IH. by apply IH.
Qed.

(** C3: Nodes agree on a present member whatever the order in which they learn
    of it: two nodes that start knowing nothing about [id], to which memberlist
    reports it once and does not report it gone, and which hear the same
    intents about it, in any order, any number of times, before or after the
    report and among any other membership traffic, reaper ticks and prunes
    included, give it the same status and status time, those of the newest
    intent, provided that neither forgets [id] on the way and that no join and
    leave tie for the newest time. *)
Theorem intents_converge id s1 s2 os1 os2 :
  wf_members (members s1) → wf_members (members s2) →
  opinion (slot_of s1 id) false None → opinion (slot_of s2 id) false None →
  id ≠ local_id s1 → id ≠ local_id s2 →
  Forall (gossip_about id) os1 → Forall (gossip_about id) os2 →
  remembered reconnector id s1 os1 → remembered reconnector id s2 os2 →
  arrivals id os1 = 1%nat → arrivals id os2 = 1%nat →
  (∀ x, x ∈ intents_about id os1 ↔ x ∈ intents_about id os2) → unambiguous (intents_about id os1) →
  ∃ m1 m2,
    states (members (run reconnector s1 os1)) !! id = Some m1 ∧
    states (members (run reconnector s2 os2)) !! id = Some m2 ∧
    (ms_status m1, status_time m1) = verdict (newest (intents_about id os1)) ∧
    ms_status m2 = ms_status m1 ∧ status_time m2 = status_time m1.
Proof.
  intros W1 W2 O1 O2 L1 L2 G1 G2 M1 M2 A1 A2 Hsame Hun.
  pose proof (run_follows id os1 s1 false None W1 G1 M1 L1 O1) as R1.
  pose proof (run_follows id os2 s2 false None W2 G2 M2 L2 O2) as R2.
  rewrite A1 in R1. rewrite A2 in R2.
  destruct R1 as (p1 & t1 & H1 & V1); [lia|]. destruct R2 as (p2 & t2 & H2 & V2); [lia|].
  pose proof (newest_set _ _ Hsame Hun) as Hn. unfold newest in Hn. rewrite <- Hn, <- V1 in V2.
  unfold slot_of in H1, H2. cbn in H1, H2. apply fmap_Some in H1 as (m1 & H1 & [= -> ->]).
  apply fmap_Some in H2 as (m2 & H2 & [= -> ->]).
  exists m1, m2. split_and!; [done..| |]; cbn in *; unfold ms_status; congruence.
Qed.

End converge.

(** ** The property at work *)

(** Node 1 hears that node 3 left and came back before it meets node 3, with a
    reaper tick in between; node 2 meets it first, hears the news twice and the
    other way round, and prunes a node that failed. *)
Lemma intents_converge_witness :
  ∃ m1 m2,
    states (members (run None (sample_serf 1)
      [OpLeaveIntent (mkLeave 4 3%nat false) 9; OpReap 10; OpJoinIntent (mkJoin 6 3%nat) 11;
       OpJoin (sample_node 3)])) !! 3%nat = Some m1 ∧
    states (members (run None (sample_serf 2)
      [OpJoin (sample_node 3); OpJoinIntent (mkJoin 6 3%nat) 9; OpJoin (sample_node 7);
       OpLeave (sample_node 7) 9; OpLeaveIntent (mkLeave 8 7%nat true) 9;
       OpLeaveIntent (mkLeave 4 3%nat false) 9; OpJoinIntent (mkJoin 6 3%nat) 9])) !! 3%nat = Some m2 ∧
    (ms_status m1, status_time m1) = (MemberStatus.Alive, 6) ∧
    ms_status m2 = ms_status m1 ∧ status_time m2 = status_time m1.
Proof.
  apply (intents_converge None 3%nat (sample_serf 1) (sample_serf 2)).
  - apply default_members_wf.
  - apply default_members_wf.
  - split; reflexivity.
  - split; reflexivity.
  - discriminate.
  - discriminate.
  - repeat constructor; cbn; auto; lia.
  - repeat constructor; cbn; auto; try discriminate; lia.
  - vm_compute. split_and!; eauto.
  - vm_compute. split_and!; eauto.
  - reflexivity.
  - reflexivity.
  - cbn. set_solver.
  - cbn. intros x y Hx Hy. repeat (apply elem_of_cons in Hx as [->|Hx]; [|]);
      repeat (apply elem_of_cons in Hy as [->|Hy]; [|]); try done; by set_solver.
Defined.

(** A join and a leave at one time: the node that hears the join first shows
    the member alive, the one that hears the leave first shows it leaving. *)
Example ties_diverge :
  let join := OpJoinIntent (mkJoin 6 3%nat) 9 in
  let leave := OpLeaveIntent (mkLeave 6 3%nat false) 9 in
  let status_at s os := status_of (states (members (run None s os))) 3%nat in
  status_at (sample_serf 1) [OpJoin (sample_node 3); join; leave] = Some MemberStatus.Alive ∧
  status_at (sample_serf 2) [OpJoin (sample_node 3); leave; join] = Some MemberStatus.Leaving.
Proof. vm_compute. by split. Qed.
