(* ===== verification/UserEvents.v ===== *)
(** * User events (serf-core/src/serf/base.rs, [handle_user_event])

    User events are de-duplicated through a ring of [event_buffer_size] slots
    indexed by Lamport time.  The theorems say when an event is delivered to
    the application, that it is delivered at most once, and what a slot that
    is still occupied by an earlier turn of the ring does to a later event. *)

From Stdlib Require Import ZArith Lia Strings.Byte.
From stdpp Require Import base list gmap strings.
From S2P Require Import Prelude Clock Coordinate Types Core Sample.
Local Open Scope Z_scope.
Local Open Scope serf_scope.

Section user_events.
Context {I A : Type} `{Countable I} `{Countable A}.
Implicit Types (s : Serf I A) (msg : UserEventMessage).

Definition event_of msg : UserEvent := mkUserEvent (uem_name msg) (uem_payload msg).

(** The slot after recording an event, unless it already holds it. *)
Definition record_event (slot : option UserEvents) (ltime : Z) (e : UserEvent)
  : option UserEvents :=
  match slot with
  | Some seen =>
      if decide (e ∈ ues_events seen) then None
      else Some (mkUserEvents (ues_ltime seen) (ues_events seen ++ [e]))
  | None => Some (mkUserEvents ltime [e])
  end.

(** A time that has fallen out of a ring of [len] slots. *)
Definition too_old (cur : Z) (len : nat) (ltime : Z) : bool :=
  (Z.of_nat len <? cur) && (ltime <? Clock.sub cur (Z.of_nat len)).

(** Returns whether the event is to be rebroadcast. *)
Definition handle_user_event s msg : outcome (Serf I A * bool) :=
  let ltime := uem_ltime msg in
  let s := witness_event_clock s ltime in
  let el := event_core s in
  if ltime <? event_min_time el then Done (s, false)
  else if too_old (Clock.time (event_clock s)) (length (event_buffer el)) ltime
  then Done (s, false)
  else
    run! r := Clock.rem ltime (Z.of_nat (length (event_buffer el))) in
    let idx := Z.to_nat r in
    match event_buffer el !! idx with
    | None => Panic
    | Some seen =>
        match record_event seen ltime (event_of msg) with
        | None => Done (s, false)
        | Some slot =>
            let s := set_event_core s
              (mkEventCore (event_min_time el) (<[idx := Some slot]> (event_buffer el))) in
            Done (send_event s (EvUser msg), true)
        end
    end.

Fixpoint run_user_events s (msgs : list UserEventMessage) : outcome (Serf I A) :=
  match msgs with
  | [] => Done s
  | msg :: msgs => run! (s, _) := handle_user_event s msg in run_user_events s msgs
  end.

(** Lamport times below the last one, after which clocks wrap. *)
Definition regular (t : Z) : Prop := 0 <= t < u64_modulus - 1.

(** The slot for a time holds an event. *)
Definition holds (buf : list (option UserEvents)) (t : Z) (e : UserEvent) : Prop :=
  ∃ us, buf !! Z.to_nat (t mod Z.of_nat (length buf)) = Some (Some us) ∧ e ∈ ues_events us.

(** Nothing will deliver [msg] any more. *)
Definition settled s msg : Prop :=
  uem_ltime msg < event_clock s ∧
  (uem_ltime msg < event_min_time (event_core s) ∨
   too_old (event_clock s) (length (event_buffer (event_core s))) (uem_ltime msg) = true ∨
   holds (event_buffer (event_core s)) (uem_ltime msg) (event_of msg)).

(** *** The ring *)

Lemma slot_in_range t (len : nat) :
  (0 < len)%nat → 0 <= t → (Z.to_nat (t mod Z.of_nat len) < len)%nat.
Proof. intros Hn Ht. pose proof (Z.mod_pos_bound t (Z.of_nat len) ltac:(lia)). lia. Qed.

Lemma record_event_none slot t e :
  record_event slot t e = None ↔ ∃ us, slot = Some us ∧ e ∈ ues_events us.
Proof.
  unfold record_event. destruct slot as [us|]; [|by split; [|intros (? & ? & _)]].
  case_decide; (split; [|intros (us' & [= <-] & Hin)]); by eauto.
Qed.

Lemma record_event_some slot t e us :
  record_event slot t e = Some us →
  e ∈ ues_events us ∧ ∀ us0, slot = Some us0 → ∀ x, x ∈ ues_events us0 → x ∈ ues_events us.
Proof.
  unfold record_event. destruct slot as [us0|]; [case_decide|]; intros ?; simplify_eq; simpl;
    set_solver.
Qed.

Lemma holds_insert buf i slot t e us :
  buf !! i = Some slot →
  (∀ us0, slot = Some us0 → ∀ x, x ∈ ues_events us0 → x ∈ ues_events us) →
  holds buf t e → holds (<[i := Some us]> buf) t e.
Proof.
  intros Hi Hsub (us0 & Hl & He). unfold holds. rewrite length_insert.
  destruct (decide (i = Z.to_nat (t mod Z.of_nat (length buf)))) as [->|Hne].
  - exists us. rewrite list_lookup_insert_eq by (by eapply lookup_lt_Some). split; [done|].
    rewrite Hi in Hl. simplify_eq. eauto.
  - exists us0. by rewrite list_lookup_insert_ne.
Qed.

Lemma too_old_mono c c' len t :
  is_u64 c → is_u64 c' → c <= c' → too_old c len t = true → too_old c' len t = true.
Proof.
  unfold too_old, Clock.sub. intros Hc Hc' Hle [Hn Ht]%andb_true_iff. bool_to_prop.
  rewrite sub64_exact in Ht by (unfold is_u64 in *; lia).
  apply andb_true_iff. split; [apply Z.ltb_lt; lia|].
  apply Z.ltb_lt. rewrite sub64_exact by (unfold is_u64 in *; lia). lia.
Qed.

(** *** One event *)

(** What a call does, by the four ways it can return. *)
Inductive event_case s msg : Serf I A * bool → Prop :=
| case_settled :
    settled (witness_event_clock s (uem_ltime msg)) msg →
    event_case s msg (witness_event_clock s (uem_ltime msg), false)
| case_deliver slot us :
    let buf := event_buffer (event_core s) in
    let idx := Z.to_nat (uem_ltime msg mod Z.of_nat (length buf)) in
    event_min_time (event_core s) <= uem_ltime msg →
    buf !! idx = Some slot → record_event slot (uem_ltime msg) (event_of msg) = Some us →
    event_case s msg
      (send_event (set_event_core (witness_event_clock s (uem_ltime msg))
         (mkEventCore (event_min_time (event_core s)) (<[idx := Some us]> buf))) (EvUser msg), true).

Lemma handle_user_event_cases s msg :
  regular (uem_ltime msg) → (0 < length (event_buffer (event_core s)))%nat →
  ∃ r, handle_user_event s msg = Done r ∧ event_case s msg r.
Proof.
  intros Ht Hlen. unfold handle_user_event.
  assert (uem_ltime msg < event_clock (witness_event_clock s (uem_ltime msg))) as Hlt.
  { apply Clock.witness_gt; unfold regular, is_u64 in *; lia. }
  destruct (_ <? event_min_time _) eqn:Hmin; bool_to_prop.
  { eexists. split; [done|]. constructor. split; [done|]. by left. }
  destruct (too_old _ _ _) eqn:Hold.
  { eexists. split; [done|]. constructor. split; [done|]. right. by left. }
  unfold Clock.rem. cbn [event_core witness_event_clock set_event_clock].
  replace (_ =? 0) with false by (symmetry; apply Z.eqb_neq; lia).
  destruct (lookup_lt_is_Some_2 (event_buffer (event_core s))
    (Z.to_nat (uem_ltime msg mod Z.of_nat (length (event_buffer (event_core s)))))) as [slot Hs].
  { apply slot_in_range; [done|apply Ht]. }
  rewrite Hs. destruct (record_event _ _ _) as [us|] eqn:Hr.
  - eexists. split; [done|]. by eapply case_deliver.
  - apply record_event_none in Hr as (us & -> & Hin).
    eexists. split; [done|]. constructor. split; [done|]. right. right. by exists us.
Qed.

(** After a call nothing will deliver its event again. *)
Lemma event_case_settled s msg r :
  regular (uem_ltime msg) → event_case s msg r → settled r.1 msg.
Proof.
  intros Ht [Hs|slot us buf idx Hmin Hb Hr]; [done|]. split.
  { apply Clock.witness_gt; unfold regular, is_u64 in *; lia. }
  right. right. simpl. exists us. rewrite length_insert. fold buf idx.
  rewrite list_lookup_insert_eq by (by eapply lookup_lt_Some).
  by apply record_event_some in Hr as [? _].
Qed.

(** The quantities a call never decreases. *)
Lemma event_case_frame s msg r :
  regular (uem_ltime msg) → is_u64 (event_clock s) → event_case s msg r →
  is_u64 (event_clock r.1) ∧ event_clock s <= event_clock r.1 ∧
  length (event_buffer (event_core r.1)) = length (event_buffer (event_core s)) ∧
  event_min_time (event_core r.1) = event_min_time (event_core s) ∧
  ∀ t e, holds (event_buffer (event_core s)) t e → holds (event_buffer (event_core r.1)) t e.
Proof.
  intros Ht Hc Hcase.
  assert (is_u64 (event_clock r.1) ∧ event_clock s <= event_clock r.1) as [Hc1 Hc2].
  { assert (event_clock r.1 = Clock.witness (event_clock s) (uem_ltime msg)) as ->
      by by destruct Hcase.
    split; [by apply Clock.witness_u64|].
    apply Clock.witness_mono; unfold regular, is_u64 in *; lia. }
  split; [done|]. split; [done|]. destruct Hcase as [Hs|slot us buf idx Hmin Hb Hr]; [done|].
  simpl. rewrite length_insert. split_and!; try done.
  intros t e. eapply holds_insert; [exact Hb|]. by apply record_event_some in Hr as [_ ?].
Qed.

Lemma settled_preserved s msg msg' r :
  regular (uem_ltime msg') → is_u64 (event_clock s) → settled s msg →
  event_case s msg' r → settled r.1 msg.
Proof.
  intros Ht Hc [Hlt Hs] Hcase.
  destruct (event_case_frame s msg' r Ht Hc Hcase) as (Hc' & Hle & Hlen & Hmin & Hholds).
  split; [lia|]. rewrite Hmin, Hlen. destruct Hs as [?|[Ho|?]]; [auto| |auto].
  right. left. by eapply too_old_mono; [exact Hc| | |].
Qed.

(** A settled event is refused and changes nothing. *)
Lemma settled_refused s msg :
  0 <= uem_ltime msg → (0 < length (event_buffer (event_core s)))%nat →
  settled s msg → handle_user_event s msg = Done (s, false).
Proof.
  intros Ht Hlen [Hlt Hs]. unfold handle_user_event.
  assert (witness_event_clock s (uem_ltime msg) = s) as ->.
  { unfold witness_event_clock, Clock.witness. rewrite (proj2 (Z.ltb_lt _ _)) by done.
    by destruct s. }
  destruct (_ <? event_min_time _) eqn:Hm; [done|].
  destruct (too_old _ _ _) eqn:Hold; [done|]. bool_to_prop.
  destruct Hs as [?|[Ho|(us & Hl & He)]]; [lia|unfold Clock.time in Hold; congruence|].
  unfold Clock.rem. replace (_ =? 0) with false by (symmetry; apply Z.eqb_neq; lia).
  rewrite Hl. by rewrite (proj2 (record_event_none _ _ _)) by eauto.
Qed.

Lemma run_user_events_settled msgs : ∀ s msg,
  Forall (λ m, regular (uem_ltime m)) msgs → is_u64 (event_clock s) →
  (0 < length (event_buffer (event_core s)))%nat → settled s msg →
  ∃ s', run_user_events s msgs = Done s' ∧ settled s' msg ∧
    length (event_buffer (event_core s')) = length (event_buffer (event_core s)).
Proof.
  induction msgs as [|m msgs IH]; intros s msg Hreg Hc Hlen Hset; [by exists s|].
  apply Forall_cons in Hreg as [Hm Hreg]. simpl.
  destruct (handle_user_event_cases s m Hm Hlen) as ([s1 b] & -> & Hcase).
  destruct (event_case_frame s m _ Hm Hc Hcase) as (Hc1 & _ & Hl1 & _ & _). simpl in *.
  destruct (IH s1 msg) as (s' & Hr & Hs' & Hl'); [done..|lia| |].
  { by eapply (settled_preserved s msg m (s1, b)). }
  exists s'. split_and!; [done..|lia].
Qed.

(** ** Properties *)

(** A user event is delivered to the application at most once: after a
    call, and after any further events, the same event (time, name and
    payload) is refused and leaves the instance as it was.  With at least one
    slot no call panics. *)
Theorem user_event_at_most_once s msg msgs :
  regular (uem_ltime msg) → Forall (λ m, regular (uem_ltime m)) msgs →
  is_u64 (event_clock s) → (0 < length (event_buffer (event_core s)))%nat →
  ∃ s1 b s2, handle_user_event s msg = Done (s1, b) ∧ run_user_events s1 msgs = Done s2 ∧
    handle_user_event s2 msg = Done (s2, false).
Proof.
  intros Ht Hreg Hc Hlen.
  destruct (handle_user_event_cases s msg Ht Hlen) as ([s1 b] & H1 & Hcase).
  destruct (event_case_frame s msg _ Ht Hc Hcase) as (Hc1 & _ & Hl1 & _ & _). simpl in *.
  destruct (run_user_events_settled msgs s1 msg Hreg Hc1 ltac:(lia)) as (s2 & H2 & Hs2 & Hl2).
  { by apply (event_case_settled s msg (s1, b)). }
  exists s1, b, s2. split_and!; [done..|]. apply settled_refused; [apply Ht|lia|done].
Qed.

(** An event that is not older than the minimum time, is still within
    the ring, and whose slot does not already hold an equal name and payload
    is delivered once and rebroadcast; the clock ends past its time. *)
Theorem user_event_delivered s msg :
  regular (uem_ltime msg) → (0 < length (event_buffer (event_core s)))%nat →
  event_min_time (event_core s) <= uem_ltime msg →
  too_old (Clock.witness (event_clock s) (uem_ltime msg))
    (length (event_buffer (event_core s))) (uem_ltime msg) = false →
  ¬ holds (event_buffer (event_core s)) (uem_ltime msg) (event_of msg) →
  ∃ s', handle_user_event s msg = Done (s', true) ∧
    event_tx s' = event_tx s ++ [EvUser msg] ∧ uem_ltime msg < event_clock s' ∧
    members s' = members s ∧ settled s' msg.
Proof.
  intros Ht Hlen Hmin Hold Hnot.
  destruct (handle_user_event_cases s msg Ht Hlen) as (r & Hr & Hcase).
  pose proof (event_case_settled s msg r Ht Hcase) as Hset.
  destruct Hcase as [[Hlt Hs]|slot us buf idx Hm Hb Hre].
  - exfalso. destruct Hs as [Hs|[Hs|Hs]]; simpl in Hs; [lia| |by apply Hnot].
    unfold Clock.time in *. congruence.
  - eexists. split_and!; [exact Hr|done| |done|done]. by destruct Hset.
Qed.

(** A slot keeps the events of earlier turns of the ring: once an event
    has been recorded, a later event with the same name and payload whose
    time falls on the same slot is refused, though it is new. *)
Theorem recurring_event_refused s msg s1 msg' :
  handle_user_event s msg = Done (s1, true) →
  regular (uem_ltime msg) → regular (uem_ltime msg') →
  (0 < length (event_buffer (event_core s)))%nat →
  event_of msg' = event_of msg →
  uem_ltime msg' mod Z.of_nat (length (event_buffer (event_core s))) =
  uem_ltime msg mod Z.of_nat (length (event_buffer (event_core s))) →
  ∃ s2, handle_user_event s1 msg' = Done (s2, false) ∧ event_tx s2 = event_tx s1.
Proof.
  intros H1 Ht Ht' Hlen He Hmod.
  destruct (handle_user_event_cases s msg Ht Hlen) as (r & Hr & Hcase).
  rewrite H1 in Hr. injection Hr as <-. inversion Hcase as [|slot us buf idx Hm Hb Hre]; subst.
  edestruct handle_user_event_cases as (r' & Hr' & Hcase');
    [exact Ht'| |rewrite Hr'].
  { simpl. rewrite length_insert. exact Hlen. }
  inversion Hcase' as [Hs2|slot' us' buf' idx' Hm' Hb' Hre']; [by eexists|].
  exfalso. subst buf' idx'. simpl in Hb', Hre'. rewrite length_insert in Hb'.
  unfold idx, buf in *. rewrite Hmod in Hb'.
  rewrite list_lookup_insert_eq in Hb' by (by eapply lookup_lt_Some).
  injection Hb' as <-. rewrite He in Hre'.
  assert (record_event (Some us) (uem_ltime msg') (event_of msg) = None) as E.
  { apply record_event_none. exists us. split; [done|].
    by apply record_event_some in Hre as [? _]. }
  by rewrite E in Hre'.
Qed.

End user_events.

(** ** The properties at work *)

Section witnesses.
Let ev (t : Z) : UserEventMessage := mkUserEventMessage t "deploy" [] false.

Lemma user_event_at_most_once_witness :
  ∃ s1 b s2, handle_user_event (sample_serf 0) (ev 3) = Done (s1, b) ∧
    run_user_events s1 [ev 5; ev 9] = Done s2 ∧
    handle_user_event s2 (ev 3) = Done (s2, false).
Proof.
  apply user_event_at_most_once; [|repeat constructor| |simpl; lia];
    unfold regular, is_u64, u64_modulus; simpl; lia.
Defined.

Lemma user_event_delivered_witness :
  ∃ s', handle_user_event (sample_serf 0) (ev 3) = Done (s', true) ∧
    event_tx s' = [EvUser (ev 3)].
Proof.
  destruct (user_event_delivered (sample_serf 0) (ev 3)) as (s' & H1 & H2 & _).
  - unfold regular, u64_modulus. simpl. lia.
  - simpl. lia.
  - simpl. lia.
  - reflexivity.
  - intros (us & Hl & _). vm_compute in Hl. discriminate.
  - exists s'. split; [exact H1|exact H2].
Defined.

(** The ring of the sample instance has four slots: times 3 and 7 share one. *)
Lemma recurring_event_refused_witness :
  ∃ s1 s2, handle_user_event (sample_serf 0) (ev 3) = Done (s1, true) ∧
    handle_user_event s1 (ev 7) = Done (s2, false).
Proof.
  eexists. destruct (recurring_event_refused (sample_serf 0) (ev 3) _ (ev 7) eq_refl)
    as (s2 & H2 & _).
  - unfold regular, u64_modulus. simpl. lia.
  - unfold regular, u64_modulus. simpl. lia.
  - simpl. lia.
  - reflexivity.
  - reflexivity.
  - exists s2. split; [reflexivity|exact H2].
Defined.

End witnesses.
