(* ===== verification/MemberTimes.v ===== *)
(** * Times in the member table

    Every Lamport time the membership handlers store is a time some message
    carried, and a message is witnessed before it is used: the clock stays
    ahead of everything the table remembers.  That is what lets a node refute
    what others say about it: the time it draws next is newer. *)

From Stdlib Require Import ZArith Lia Strings.Byte.
From stdpp Require Import base list gmap strings.
From S2P Require Import Prelude Clock Coordinate Types Core Sample Membership MemberTraces UserEvents.
Local Open Scope Z_scope.

Section times.
Context {I A R : Type} `{Countable I} `{Countable A} `{!Codec I A R}.
Context (reconnector : option (Member I A → Z → Z)).
Implicit Types (s : Serf I A) (o : op I A) (m : Members I A).

(** The times of a table lie between zero and [c]. *)
Record times_below (c : Z) m : Prop := {
  tb_states : map_Forall (λ _ ms, 0 <= status_time ms < c) (states m);
  tb_intents : map_Forall (λ _ it, 0 <= intent_ltime it < c) (recent_intents m);
}.

Record typed s : Prop := {
  ty_clock : is_u64 (clock s);
  ty_started : 0 < clock s;
  ty_times : times_below (clock s) (members s);
}.

(** The messages of an operation carry times that can still be incremented. *)
Definition op_regular o : Prop :=
  match o with
  | OpJoinIntent msg _ => regular (join_ltime msg)
  | OpLeaveIntent msg _ => regular (leave_ltime msg)
  | _ => True
  end.

Lemma times_below_mono c c' m : c <= c' → times_below c m → times_below c' m.
Proof.
  intros Hc [Hs Hi]. split; (eapply map_Forall_impl; [eassumption|]); simpl; intros; lia.
Qed.

(** Operations that only take entries away. *)
Lemma times_below_subset c m m' :
  states m' ⊆ states m → recent_intents m' ⊆ recent_intents m → times_below c m → times_below c m'.
Proof. intros Hs Hi [Ts Ti]. split; intros i x Hx; [apply (Ts i x)|apply (Ti i x)]; by eapply lookup_weaken. Qed.

Lemma witness_typed s t : typed s → regular t → typed (witness_clock s t) ∧ t < clock (witness_clock s t).
Proof.
  intros [Hc Hp Ht] [Ht1 Ht2]. unfold regular in *.
  assert (is_u64 t) as Hu by (unfold is_u64; lia).
  pose proof (Clock.witness_mono (clock s) t Hu Ht2). pose proof (Clock.witness_gt (clock s) t Hu Ht2).
  split; [|done]. split; cbn; [by apply Clock.witness_u64|lia|]. by eapply times_below_mono.
Qed.

(** The handlers that leave the clock alone. *)
Lemma typed_members s s' :
  typed s → clock s' = clock s → times_below (clock s) (members s') → typed s'.
Proof. intros [Hc Hp _] Hcl Ht. split; rewrite Hcl; done. Qed.

(** One entry of the table, or of the buffered intents, replaced. *)
Lemma typed_insert s s' id ms :
  typed s → clock s' = clock s → states (members s') = <[id := ms]> (states (members s)) →
  recent_intents (members s') = recent_intents (members s) → 0 <= status_time ms < clock s → typed s'.
Proof.
  intros Hs Hc Es Ei Ht. apply (typed_members s); [done..|]. destruct (ty_times _ Hs) as [Ts Ti].
  split; rewrite ?Es, ?Ei; [by apply map_Forall_insert_2|done].
Qed.

Lemma typed_upsert s id ty t now :
  typed s → 0 <= t < clock s →
  typed (set_members s (set_intents (members s) (upsert_intent (recent_intents (members s)) id ty t now).1)).
Proof.
  intros Hs Ht. apply (typed_members s); [done..|]. destruct (ty_times _ Hs) as [Ts Ti].
  split; simpl; [done|]. unfold upsert_intent. repeat case_match; try done; by apply map_Forall_insert_2.
Qed.

Lemma clock_erase s id b : clock (erase_node s id b) = clock s.
Proof. unfold erase_node, forget_coordinate. by destruct (coord_core _). Qed.

Lemma erase_typed s id b : typed s → typed (erase_node s id b).
Proof.
  intros Hs. apply (typed_members s); [done|apply clock_erase|]. rewrite members_erase_node.
  eapply times_below_subset; [..|apply Hs]; [apply delete_subseteq|done].
Qed.

Lemma prune_typed s msg ms : typed s → typed (prune_if s msg ms).
Proof.
  intros Hs. unfold prune_if, handle_prune. destruct (prune msg); [|done]. apply erase_typed.
  case_decide; [|done]. apply (typed_members s); [done..|]. split; apply Hs.
Qed.

Lemma reap_loop_typed now timeout k : ∀ i l s,
  typed s → typed (reap_loop reconnector k i now timeout l s).2.
Proof.
  induction k as [|k IH]; intros i l s Hs; [done|]. cbn [reap_loop].
  destruct (l !! i) as [ms|]; [|done]. case_match; apply IH; [by apply erase_typed|done].
Qed.

Lemma reap_tick_typed s now : typed s → typed (reap_tick reconnector s now).
Proof.
  assert (∀ s l timeout (g : Members I A → list (MemberState I A) → Members I A),
    typed s → (∀ m l, states (g m l) = states m ∧ recent_intents (g m l) = recent_intents m) →
    typed (let '(l, s) := reap_loop reconnector (length l) 0 now timeout l s in
           set_members s (g (members s) l))) as Hreap.
  { intros s0 l timeout g Hs Hg. pose proof (reap_loop_typed now timeout (length l) 0 l s0 Hs) as Hr.
    destruct (reap_loop _ _ _ _ _ _ _) as [l' s1]. simpl in Hr. destruct (Hg (members s1) l') as [E1 E2].
    apply (typed_members s1); [done..|]. cbn. destruct (ty_times _ Hr). split; by rewrite ?E1, ?E2. }
  intros Hs. unfold reap_tick.
  assert (typed (reap_failed reconnector s now (reconnect_timeout (opts s)))) as H1'
    by (unfold reap_failed; by apply (Hreap s _ _ set_failed)).
  set (s1 := reap_failed _ s _ _) in *.
  assert (typed (reap_left reconnector s1 now (tombstone_timeout (opts s1)))) as H2'
    by (unfold reap_left; by apply (Hreap s1 _ _ set_left)).
  set (s2 := reap_left _ s1 _ _) in *. apply (typed_members s2); [done..|].
  eapply times_below_subset; [..|apply H2']; cbn; [done|]. apply map_filter_subseteq.
Qed.

Lemma recent_intent_below c m id ty t :
  times_below c m → recent_intent (recent_intents m) id ty = Some t → 0 <= t < c.
Proof.
  intros [_ Hi]. unfold recent_intent. destruct (recent_intents m !! id) as [it|] eqn:E; [|done].
  case_decide; [|done]. intros [= <-]. by apply (Hi id it).
Qed.

Lemma join_typed s n : typed s → typed (handle_node_join s n).
Proof.
  intros Hs. pose proof Hs as [_ Hpos Ht]. unfold handle_node_join.
  destruct (if decide (meta n = []) then _ else _) as [tg|]; [|done].
  destruct (states (members s) !! node_id (ns_node n)) as [ms|] eqn:Hms.
  - pose proof (tb_states _ _ Ht _ _ Hms) as Hb. simpl in Hb.
    case_decide; by eapply (typed_insert s).
  - destruct (recent_intent _ _ MessageType.Leave) as [t|] eqn:El;
      [|destruct (recent_intent _ _ MessageType.Join) as [t|] eqn:Ej];
      case_decide; (eapply (typed_insert s); [done|reflexivity..|]; cbn;
        first [by eapply recent_intent_below | lia]).
Qed.

Lemma leave_typed s n now : typed s → typed (handle_node_leave s n now).
Proof.
  intros Hs. unfold handle_node_leave.
  destruct (states (members s) !! node_id (ns_node n)) as [ms|] eqn:Hms; [|done].
  pose proof (tb_states _ _ (ty_times _ Hs) _ _ Hms) as Hb.
  destruct (ms_status ms); try done; by eapply (typed_insert s).
Qed.

Lemma update_typed s n : typed s → typed (handle_node_update s n).
Proof.
  intros Hs. unfold handle_node_update. destruct (decode_tags (meta n)); [|done].
  destruct (states (members s) !! node_id (ns_node n)) as [ms|] eqn:Hms; [|done].
  pose proof (tb_states _ _ (ty_times _ Hs) _ _ Hms) as Hb. by eapply (typed_insert s).
Qed.

Lemma join_intent_typed s msg now :
  typed s → regular (join_ltime msg) → typed (handle_node_join_intent s msg now).1.
Proof.
  intros Hs Hr. destruct (witness_typed s _ Hs Hr) as [Hw Hlt]. unfold regular in Hr.
  unfold handle_node_join_intent. set (s0 := witness_clock s (join_ltime msg)) in *.
  destruct (states (members s0) !! join_id msg) as [ms|].
  - case_match; [done|]. eapply (typed_insert s0); [done|reflexivity..|]. case_decide; (split; [cbn; lia|exact Hlt]).
  - pose proof (typed_upsert s0 (join_id msg) MessageType.Join (join_ltime msg) now Hw ltac:(lia)) as Hu.
    by destruct (upsert_intent _ _ _ _ _).
Qed.

Lemma leave_intent_typed s msg now :
  typed s → regular (leave_ltime msg) → typed (handle_node_leave_intent s msg now).1.
Proof.
  intros Hs Hr. destruct (witness_typed s _ Hs Hr) as [Hw Hlt]. unfold regular in Hr.
  unfold handle_node_leave_intent. set (s0 := witness_clock s (leave_ltime msg)) in *.
  destruct (states (members s0) !! leave_id msg) as [ms|].
  - case_match; [done|]. case_decide; [by apply (typed_members s0); [..|apply Hw]|].
    destruct (ms_status _); cbn [fst]; try apply prune_typed;
      (eapply (typed_insert s0); [done|reflexivity..|]; split; [cbn; lia|exact Hlt]).
  - pose proof (typed_upsert s0 (leave_id msg) MessageType.Leave (leave_ltime msg) now Hw ltac:(lia)) as Hu.
    by destruct (upsert_intent _ _ _ _ _).
Qed.

Lemma run_op_typed s o : typed s → op_regular o → typed (run_op reconnector s o).
Proof.
  destruct o; cbn; auto using join_typed, leave_typed, update_typed, join_intent_typed,
    leave_intent_typed, reap_tick_typed.
Qed.

(** C15: Every time in the member table is a machine time the clock has
    passed: under any sequence of handler calls whose messages carry times
    below the largest, the clock stays a [u64], and every status time and
    every buffered intent stays below it, so that the next time this node
    draws is newer than all it has heard about any node. *)
Theorem clock_ahead_of_table s os :
  typed s → Forall op_regular os →
  typed (run reconnector s os) ∧
  ∀ id, seen (run reconnector s os) id < clock (run reconnector s os).
Proof.
  intros Hs Hos. assert (typed (run reconnector s os)) as Ht.
  { revert s Hs. induction Hos as [|o os Ho _ IH]; intros s Hs; [done|]. apply IH. by apply run_op_typed. }
  split; [done|]. destruct Ht as [_ Hpos [Hst Hi]]. intros id. unfold seen.
  destruct (states (members (run reconnector s os)) !! id) as [ms|] eqn:E; [by apply (Hst id ms)|].
  destruct (recent_intents (members (run reconnector s os)) !! id) as [it|] eqn:E'; [by apply (Hi id it)|lia].
Qed.

End times.

(** ** The property at work *)

Lemma clock_ahead_of_table_witness :
  seen (run None (sample_serf 1)
    [OpJoin (sample_node 2); OpLeaveIntent (mkLeave 7 2%nat false) 5; OpJoinIntent (mkJoin 9 3%nat) 6]) 3%nat
  < clock (run None (sample_serf 1)
    [OpJoin (sample_node 2); OpLeaveIntent (mkLeave 7 2%nat false) 5; OpJoinIntent (mkJoin 9 3%nat) 6]).
Proof.
  apply (clock_ahead_of_table None (sample_serf 1)).
  - split; [apply (bool_decide_eq_true_1 (is_u64 _)); reflexivity|reflexivity|].
    split; intros id x Hx; discriminate Hx.
  - repeat constructor; unfold regular, u64_modulus; cbn; lia.
Defined.
