(* ===== verification/Responses.v ===== *)
(** * Collecting the replies to a query (serf-core/src/serf/query.rs)

    A [QueryResponse] collects acks and responses from other nodes and hands
    them to the caller over bounded channels.  [QueryResponse::close] and the
    two [send_*] methods hold the write lock of the core from their checks to
    their effect, so each is one atomic step; [handle_query_response] checks
    under the read lock first, drops it, and then takes such a step.  The
    receiving end of the channels belongs to the caller: [OpRecv] and
    [OpRecvAck] are the caller taking a message. *)

From Stdlib Require Import ZArith Lia Strings.Byte.
From stdpp Require Import base list gmap strings.
From S2P Require Import Prelude Clock Coordinate Types Core.
Local Open Scope Z_scope.
Local Open Scope serf_scope.

(** ** Bounded channels *)

Section channels.
Context {T : Type}.
Implicit Types c : Channel T.

(** [async_channel::bounded] panics on a zero capacity. *)
Definition bounded (cap : nat) : outcome (Channel T) :=
  match cap with O => Panic | _ => Done (mkChannel cap [] false) end.

(** Polling a [send] once: not ready when the channel is full; ready with an
    error, which the callers ignore, when it is closed. *)
Definition poll_send c (x : T) : option (Channel T) :=
  if ch_closed c then Some c
  else if (length (queue c) <? capacity c)%nat
  then Some (mkChannel (capacity c) (queue c ++ [x]) false)
  else None.

Definition close_channel c : Channel T := mkChannel (capacity c) (queue c) true.

(** The receiver takes the oldest message. *)
Definition recv c : option T * Channel T :=
  match queue c with
  | [] => (None, c)
  | x :: q => (Some x, mkChannel (capacity c) q (ch_closed c))
  end.

End channels.

Section responses.
Context {I A : Type} `{Countable I} `{Countable A}.
Implicit Types (q : QueryResponse I A) (nr : NodeResponse I A) (n : Node I A)
  (resp : QueryResponseMessage I A).

Definition r_ack resp : bool := flags_contains (r_flags resp) FLAG_ACK.

(** [QueryResponse::new]. *)
Definition new_query_response (id ltime : Z) (num_nodes : nat) (deadline : Z) (ack : bool)
  : outcome (QueryResponse I A) :=
  run! ack_ch := (if ack then run! c := bounded num_nodes in Done (Some c) else Done None) in
  run! resp_ch := bounded num_nodes in
  Done (mkQR deadline id ltime false ∅ ∅ ack_ch resp_ch).

Definition finished q (now : Z) : bool := closed q || (deadline q <? now).

Definition close q : QueryResponse I A :=
  if closed q then q
  else mkQR (deadline q) (qresp_id q) (qresp_ltime q) true (acks q) (resps q)
         (close_channel <$> ack_ch q) (close_channel (resp_ch q)).

Definition send_response q nr : QueryResponse I A * Result unit Error :=
  if decide (nr_from nr ∈ resps q) then (q, Ok tt)
  else if closed q then (q, Ok tt)
  else
    match poll_send (resp_ch q) nr with
    | Some ch =>
        (mkQR (deadline q) (qresp_id q) (qresp_ltime q) (closed q) (acks q)
           ({[nr_from nr]} ∪ resps q) (ack_ch q) ch, Ok tt)
    | None => (q, Err QueryResponseDeliveryFailed)
    end.

Definition send_ack q (from : Node I A) : QueryResponse I A * Result unit Error :=
  if decide (from ∈ acks q) then (q, Ok tt)
  else if closed q then (q, Ok tt)
  else
    match ack_ch q with
    | Some ch =>
        match poll_send ch from with
        | Some ch =>
            (mkQR (deadline q) (qresp_id q) (qresp_ltime q) (closed q)
               ({[from]} ∪ acks q) (resps q) (Some ch) (resp_ch q), Ok tt)
        | None => (q, Err QueryResponseDeliveryFailed)
        end
    | None => (q, Ok tt)
    end.

(** The check under the read lock: whether the reply goes on to be sent. *)
Definition wants_response q resp (now : Z) : bool :=
  if finished q now then false
  else if r_ack resp then bool_decide (r_from resp ∉ acks q)
  else bool_decide (r_from resp ∉ resps q).

(** The step under the write lock; an error is only logged. *)
Definition deliver q resp : QueryResponse I A :=
  if r_ack resp then (send_ack q (r_from resp)).1
  else (send_response q (mkNodeResponse (r_from resp) (r_payload resp))).1.

Definition handle_query_response q resp (now : Z) : QueryResponse I A :=
  if wants_response q resp now then deliver q resp else q.

(** ** Any interleaving of tasks on one response *)

Inductive rop : Type :=
| OpDeliver (resp : QueryResponseMessage I A)
| OpClose
| OpRecv
| OpRecvAck.

(** A response together with what the caller has taken so far. *)
Record rstate : Type := mkRState {
  rs_q : QueryResponse I A;
  rs_got : list (NodeResponse I A);
  rs_acked : list (Node I A);
}.

Definition rstep (st : rstate) (o : rop) : rstate :=
  let q := rs_q st in
  match o with
  | OpDeliver resp => mkRState (deliver q resp) (rs_got st) (rs_acked st)
  | OpClose => mkRState (close q) (rs_got st) (rs_acked st)
  | OpRecv =>
      let '(x, ch) := recv (resp_ch q) in
      mkRState (mkQR (deadline q) (qresp_id q) (qresp_ltime q) (closed q) (acks q) (resps q)
                  (ack_ch q) ch)
        (rs_got st ++ option_list x) (rs_acked st)
  | OpRecvAck =>
      match ack_ch q with
      | None => st
      | Some c =>
          let '(x, ch) := recv c in
          mkRState (mkQR (deadline q) (qresp_id q) (qresp_ltime q) (closed q) (acks q) (resps q)
                      (Some ch) (resp_ch q))
            (rs_got st) (rs_acked st ++ option_list x)
      end
  end.

(** Everything handed to the caller, taken or still queued. *)
Definition delivered (st : rstate) : list (NodeResponse I A) :=
  rs_got st ++ queue (resp_ch (rs_q st)).
Definition ack_queue q : list (Node I A) := match ack_ch q with Some c => queue c | None => [] end.
Definition delivered_acks (st : rstate) : list (Node I A) := rs_acked st ++ ack_queue (rs_q st).

Definition chan_ok {T} (q_closed : bool) (cap : nat) (c : Channel T) : Prop :=
  capacity c = cap ∧ (length (queue c) <= cap)%nat ∧ ch_closed c = q_closed.

(** The sets of responders are exactly the senders of what was handed over,
    each once, the channels stay within their capacity, and they are closed
    exactly when the response is. *)
Record rinv (cap : nat) (st : rstate) : Prop := {
  rinv_resps : ∀ n, n ∈ resps (rs_q st) ↔ n ∈ nr_from <$> delivered st;
  rinv_nodup : NoDup (nr_from <$> delivered st);
  rinv_acks : ∀ n, n ∈ acks (rs_q st) ↔ n ∈ delivered_acks st;
  rinv_acks_nodup : NoDup (delivered_acks st);
  rinv_resp_ch : chan_ok (closed (rs_q st)) cap (resp_ch (rs_q st));
  rinv_ack_ch : ∀ c, ack_ch (rs_q st) = Some c → chan_ok (closed (rs_q st)) cap c;
}.

Lemma poll_send_open {T} cap (c : Channel T) x c' :
  chan_ok false cap c → poll_send c x = Some c' →
  queue c' = queue c ++ [x] ∧ chan_ok false cap c'.
Proof.
  intros (Hcap & Hlen & Hopen). unfold poll_send, chan_ok. rewrite Hopen.
  case_match eqn:Hlt; [|done]. apply Nat.ltb_lt in Hlt. intros [= <-]. simpl.
  rewrite length_app. simpl. split; [done|]. split_and!; [done|lia|done].
Qed.

Lemma close_channel_ok {T} b cap (c : Channel T) :
  chan_ok b cap c → chan_ok true cap (close_channel c).
Proof. intros (?&?&?). done. Qed.

Lemma recv_ok {T} b cap (c : Channel T) :
  chan_ok b cap c →
  chan_ok b cap (recv c).2 ∧ option_list (recv c).1 ++ queue (recv c).2 = queue c.
Proof.
  intros (Hcap & Hlen & Hb). unfold recv, chan_ok.
  destruct (queue c) as [|x r] eqn:E; simpl in *; [by rewrite E|]. split_and!; try done; lia.
Qed.

Lemma fmap_snoc_nodup {T} (f : T → Node I A) (l : list T) x :
  NoDup (f <$> l) → f x ∉ f <$> l → NoDup (f <$> l ++ [x]).
Proof.
  intros Hnd Hx. rewrite fmap_app. change (f <$> [x]) with [f x].
  apply NoDup_app. split; [done|]. split; [|apply NoDup_singleton].
  intros y Hy Hy'. apply list_elem_of_singleton in Hy'. by subst.
Qed.

Lemma rinv_same cap st : rinv cap st → rinv cap (mkRState (rs_q st) (rs_got st) (rs_acked st)).
Proof. by destruct st. Qed.

Lemma send_response_inv cap st nr :
  rinv cap st →
  rinv cap (mkRState (send_response (rs_q st) nr).1 (rs_got st) (rs_acked st)).
Proof.
  intros Hinv. pose proof Hinv as [Hr Hn Ha Han Hrc Hac]. unfold send_response.
  case_decide as Hin; [by apply rinv_same|]. destruct (closed (rs_q st)) eqn:Hc; [by apply rinv_same|].
  destruct (poll_send _ nr) as [ch|] eqn:Hp; [|by apply rinv_same].
  apply (poll_send_open cap) in Hp as [Hq Hch]; [|done].
  assert (nr_from nr ∉ nr_from <$> delivered st) as Hfresh by by rewrite <- Hr.
  unfold delivered in *. constructor; unfold delivered, delivered_acks, ack_queue in *; simpl in *;
    rewrite ?Hc, ?Hq, ?app_assoc; try done.
  - intros n. rewrite (fmap_app nr_from _ [nr]), elem_of_app, elem_of_union, elem_of_singleton, Hr.
    change (nr_from <$> [nr]) with [nr_from nr]. rewrite list_elem_of_singleton. tauto.
  - by apply fmap_snoc_nodup.
Qed.

Lemma send_ack_inv cap st from :
  rinv cap st → rinv cap (mkRState (send_ack (rs_q st) from).1 (rs_got st) (rs_acked st)).
Proof.
  intros Hinv. pose proof Hinv as [Hr Hn Ha Han Hrc Hac]. unfold send_ack.
  case_decide as Hin; [by apply rinv_same|]. destruct (closed (rs_q st)) eqn:Hc; [by apply rinv_same|].
  destruct (ack_ch (rs_q st)) as [c|] eqn:Ec; [|by apply rinv_same].
  destruct (poll_send c from) as [ch|] eqn:Hp; [|by apply rinv_same].
  apply (poll_send_open cap) in Hp as [Hq Hch]; [|by apply Hac].
  assert (from ∉ delivered_acks st) as Hfresh by by rewrite <- Ha.
  unfold delivered_acks, ack_queue in *. rewrite Ec in *.
  constructor; unfold delivered, delivered_acks, ack_queue in *; simpl in *;
    rewrite ?Hc, ?Hq, ?app_assoc; try done.
  - intros n. rewrite (elem_of_app _ [from]), list_elem_of_singleton, elem_of_union,
      elem_of_singleton, Ha. tauto.
  - rewrite <- (list_fmap_id (_ ++ _)). apply fmap_snoc_nodup; by rewrite ?list_fmap_id.
  - intros c' [= <-]. done.
Qed.

Lemma close_inv cap st :
  rinv cap st → rinv cap (mkRState (close (rs_q st)) (rs_got st) (rs_acked st)).
Proof.
  intros Hinv. pose proof Hinv as [Hr Hn Ha Han Hrc Hac]. unfold close.
  destruct (closed (rs_q st)) eqn:Hc; [by apply rinv_same|].
  unfold delivered, delivered_acks, ack_queue in *.
  constructor; unfold delivered, delivered_acks, ack_queue in *; simpl; try done;
    try (by eapply close_channel_ok);
    destruct (ack_ch (rs_q st)) as [c|] eqn:Ec; simpl; try done.
  intros c' [= <-]. eapply close_channel_ok. by apply Hac.
Qed.

Lemma recv_inv cap st : rinv cap st → rinv cap (rstep st OpRecv).
Proof.
  intros [Hr Hn Ha Han Hrc Hac]. simpl.
  destruct (recv_ok _ _ _ Hrc) as [Hch Hq]. destruct (recv (resp_ch (rs_q st))) as [x ch].
  simpl in *. unfold delivered, delivered_acks, ack_queue in *.
  constructor; unfold delivered, delivered_acks, ack_queue in *; simpl;
    rewrite <- ?app_assoc, ?Hq; done.
Qed.

Lemma recv_ack_inv cap st : rinv cap st → rinv cap (rstep st OpRecvAck).
Proof.
  intros [Hr Hn Ha Han Hrc Hac]. simpl. destruct (ack_ch (rs_q st)) as [c|] eqn:Ec; [|by constructor; rewrite ?Ec].
  destruct (recv_ok _ _ _ (Hac c eq_refl)) as [Hch Hq]. destruct (recv c) as [x ch].
  simpl in *. unfold delivered, delivered_acks, ack_queue in *. rewrite Ec in *.
  constructor; unfold delivered, delivered_acks, ack_queue in *; simpl;
    rewrite <- ?app_assoc, ?Hq; try done.
  intros c' [= <-]. done.
Qed.

Lemma rstep_inv cap st o : rinv cap st → rinv cap (rstep st o).
Proof.
  intros Hinv. destruct o as [resp| | |].
  - simpl. unfold deliver. destruct (r_ack resp);
      [by apply send_ack_inv|by apply send_response_inv].
  - by apply close_inv.
  - by apply recv_inv.
  - by apply recv_ack_inv.
Qed.

Lemma new_inv id ltime num deadline ack q :
  new_query_response id ltime num deadline ack = Done q → rinv num (mkRState q [] []).
Proof.
  unfold new_query_response, bounded. destruct num as [|num]; [by destruct ack|].
  destruct ack; intros ?; simplify_eq; constructor; unfold delivered, delivered_acks, ack_queue;
    simpl; try set_solver; try apply NoDup_nil_2; try (split_and!; simpl; done || lia).
  all: intros c ?; simplify_eq; split_and!; simpl; done || lia.
Qed.

(** A closed response takes nothing more. *)
Lemma rstep_closed st o :
  closed (rs_q st) = true →
  closed (rs_q (rstep st o)) = true ∧ delivered (rstep st o) = delivered st ∧
  delivered_acks (rstep st o) = delivered_acks st.
Proof.
  intros Hc. destruct o as [resp| | |]; simpl.
  - unfold deliver, send_ack, send_response. destruct (r_ack resp); case_decide; rewrite ?Hc; done.
  - unfold close. by rewrite Hc.
  - unfold recv. destruct (queue (resp_ch (rs_q st))) as [|x r] eqn:E; unfold delivered; simpl;
      rewrite ?E, ?app_nil_r; try done. by rewrite <- app_assoc.
  - destruct (ack_ch (rs_q st)) as [c|] eqn:E; [|done]. unfold recv.
    destruct (queue c) as [|x r] eqn:E'; unfold delivered_acks, ack_queue; simpl;
      rewrite ?E, ?E', ?app_nil_r; try done. by rewrite <- app_assoc.
Qed.

(** ** Properties *)

(** C22: Whatever interleaving of deliveries, closing and receiving runs on a
    new response, the caller is handed at most one response and one ack per
    node, the recorded responders are exactly the nodes whose reply was
    handed over, no channel exceeds its capacity, and from the close on
    nothing more is handed over. *)
Theorem responses_at_most_once id ltime num deadline ack q os os' :
  new_query_response id ltime num deadline ack = Done q →
  let st := foldl rstep (mkRState q [] []) os in
  rinv num st ∧
  let st1 := rstep st OpClose in
  let st2 := foldl rstep st1 os' in
  delivered st2 = delivered st1 ∧ delivered_acks st2 = delivered_acks st1.
Proof.
  intros Hq st. split.
  - unfold st. apply new_inv in Hq. revert Hq. generalize (mkRState q [] []).
    induction os as [|o os IH]; intros st0 Hinv; [done|]. apply IH. by apply rstep_inv.
  - intros st1 st2. unfold st2. assert (closed (rs_q st1) = true) as Hc.
    { unfold st1. simpl. unfold close. by destruct (closed (rs_q st)) eqn:E. }
    revert Hc. generalize st1. clear st1 st2. induction os' as [|o os' IH]; intros st1 Hc; [done|].
    destruct (rstep_closed st1 o Hc) as (Hc' & Hd & Ha). simpl.
    destruct (IH _ Hc') as [-> ->]. done.
Qed.

(** An open response with room hands over the first response of a node
    that arrives in time, payload and all; a repeated, late or closed one
    changes nothing. *)
Theorem response_handed_over q resp now :
  r_ack resp = false →
  handle_query_response q resp now =
    if finished q now || bool_decide (r_from resp ∈ resps q) ||
       negb (ch_closed (resp_ch q) || (length (queue (resp_ch q)) <? capacity (resp_ch q))%nat)
    then q
    else mkQR (deadline q) (qresp_id q) (qresp_ltime q) false (acks q)
           ({[r_from resp]} ∪ resps q) (ack_ch q)
           (if ch_closed (resp_ch q) then resp_ch q
            else mkChannel (capacity (resp_ch q))
                   (queue (resp_ch q) ++ [mkNodeResponse (r_from resp) (r_payload resp)]) false).
Proof.
  intros Hack. unfold handle_query_response, wants_response, deliver. rewrite Hack.
  destruct (finished q now) eqn:Hf; [done|]. unfold finished in Hf.
  apply orb_false_iff in Hf as [Hc _]. rewrite bool_decide_not.
  case_bool_decide as Hin; simpl; [done|]. unfold send_response, poll_send. simpl.
  rewrite decide_False by done. rewrite Hc. destruct (ch_closed (resp_ch q)); simpl; [done|].
  by destruct (_ <? _)%nat.
Qed.

End responses.

(** ** The properties at work *)

Lemma responses_at_most_once_witness :
  ∃ q : QueryResponse nat nat, new_query_response 7 3 2 100 true = Done q ∧
  nr_from <$> delivered (foldl rstep (mkRState q [] [])
    [OpDeliver (mkQueryResponse 3 7 (mkNode 1%nat 1%nat) 0 []); OpRecv;
     OpDeliver (mkQueryResponse 3 7 (mkNode 1%nat 1%nat) 0 [x01])]) = [mkNode 1%nat 1%nat] ∧
  rinv 2 (foldl rstep (mkRState q [] [])
    [OpDeliver (mkQueryResponse 3 7 (mkNode 1%nat 1%nat) 0 [])]).
Proof.
  eexists. split; [reflexivity|]. split; [reflexivity|].
  apply (responses_at_most_once 7 3 2 100 true _
    [OpDeliver (mkQueryResponse 3 7 (mkNode 1%nat 1%nat) 0 [])] []). reflexivity.
Defined.

Lemma response_handed_over_witness :
  ∃ q : QueryResponse nat nat, new_query_response 7 3 2 100 false = Done q ∧
  queue (resp_ch (handle_query_response q (mkQueryResponse 3 7 (mkNode 1%nat 1%nat) 0 [x01]) 50)) =
    [mkNodeResponse (mkNode 1%nat 1%nat) [x01]].
Proof.
  eexists. split; [reflexivity|]. rewrite response_handed_over by reflexivity. reflexivity.
Defined.
