(* ===== verification/Query.v ===== *)
(** * Queries (serf-core/src/serf/base.rs, serf/query.rs, event.rs)

    Issuing a query, handling one that arrives, filtering, acking, relaying
    and responding, and routing the replies back to the response that was
    registered for the query.  What is drawn at random or read from
    memberlist is an argument: [rnd i] is the [i]-th [u32] drawn, [online]
    the number of online members, [send_ok] whether memberlist accepts a
    packet for an address. *)

From Stdlib Require Import ZArith Lia Strings.Byte.
From stdpp Require Import base list gmap strings.
From S2P Require Import Prelude Clock Coordinate Types Core Sample UserEvents Responses.
Local Open Scope Z_scope.
Local Open Scope serf_scope.

(** ** Parameters and timeouts *)

Record QueryParam (I R : Type) : Type := mkQueryParam {
  p_filters : list (Filter I R); request_ack : bool; p_relay_factor : Z; p_timeout : Z }.
Arguments mkQueryParam {I R}.
Arguments p_filters {I R} p : rename.
Arguments request_ack {I R} p : rename.
Arguments p_relay_factor {I R} p : rename.
Arguments p_timeout {I R} p : rename.

(** [Duration::MAX], in nanoseconds; [Duration * u32] panics past it. *)
Definition DURATION_MAX : Z := u64_modulus * SECOND - 1.
Definition duration_mul (d k : Z) : outcome Z :=
  if d * k <=? DURATION_MAX then Done (d * k) else Panic.

(** [(m as f64).log10().ceil() as u32]: the least [k] with [m <= 10^k].  The
    floating-point logarithm agrees with it for fewer than [10^14] nodes. *)
Fixpoint ceil_log10_from (fuel : nat) (k p m : Z) : Z :=
  match fuel with
  | O => k
  | S fuel => if m <=? p then k else ceil_log10_from fuel (k + 1) (p * 10) m
  end.
Definition ceil_log10 (m : Z) : Z := ceil_log10_from 20 0 1 m.

Definition default_query_timeout (o : Options) (online : nat) : outcome Z :=
  run! t := duration_mul (gossip_interval o) (query_timeout_mult o mod u32_modulus) in
  duration_mul t (ceil_log10 (Z.of_nat online + 1)).

Definition default_query_param {I R} (o : Options) (online : nat) : outcome (QueryParam I R) :=
  run! t := default_query_timeout o online in Done (mkQueryParam [] false 0 t).

(** ** Choosing relays *)

(** [slice::swap]. *)
Definition swap {T} (i j : nat) (l : list T) : list T :=
  match l !! i, l !! j with
  | Some x, Some y => <[i := y]> (<[j := x]> l)
  | _, _ => l
  end.

(** The [while] loop; it steps [i] towards [n], so [n] rounds are enough. *)
Fixpoint random_loop {T} (fuel i k n : nat) (rnd : nat → Z) (l : list T) : list T :=
  match fuel with
  | O => l
  | S fuel =>
      if ((i <? 3 * n) && (i <? n))%nat then
        let j := (Z.to_nat (rnd i) mod (n - i) + i)%nat in
        let l := swap i j l in
        let i := S i in
        if ((k <=? i) && (3 * n <=? i))%nat then l else random_loop fuel i k n rnd l
      else l
  end.

Definition random_members {T} (k : nat) (rnd : nat → Z) (l : list T) : list T :=
  let n := length l in
  if (n =? 0)%nat then [] else take k (random_loop n 0 k n rnd l).

Section query.
Context {I A R : Type} `{Countable I} `{Countable A} `{!Codec I A R}.
Implicit Types (s : Serf I A) (rnd : nat → Z).

(** ** Filters *)

Definition get_tag (tg : Tags) (k : string) : option string :=
  match list_find (λ p, p.1 = k) tg with Some (_, (_, v)) => Some v | None => None end.

(** A tag filter without an expression only asks for the tag. *)
Definition tag_passes (tg : Tags) (tag : string) (m : string → bool) : bool :=
  match tg with
  | [] => false
  | _ => match get_tag tg tag with Some v => m v | None => false end
  end.

(** Over owned filters. *)
Fixpoint should_process_query s (filters : list (Filter I R)) : bool :=
  match filters with
  | [] => true
  | FilterId ids :: rest =>
      if bool_decide (local_id s ∈ ids) then should_process_query s rest else false
  | FilterTag tag expr :: rest =>
      if tag_passes (opt_tags (opts s)) tag
           (λ v, match expr with Some re => regex_is_match re v | None => true end)
      then should_process_query s rest else false
  end.

(** Walks the encoded ids until one is this node's. *)
Fixpoint ids_contain (id : I) (ids : list (Result I DecodeError)) : Result bool DecodeError :=
  match ids with
  | [] => Ok false
  | Err e :: _ => Err e
  | Ok x :: rest => if decide (x = id) then Ok true else ids_contain id rest
  end.

(** The expression is compiled only when this node has the tag. *)
Definition tag_passes_ref (tg : Tags) (tag : string) (expr : option string)
  : Result bool DecodeError :=
  match tg with
  | [] => Ok false
  | _ =>
      match get_tag tg tag with
      | None => Ok false
      | Some v =>
          match expr with
          | None => Ok true
          | Some re =>
              match regex_new re with
              | None => Err (Custom "invalid regex")
              | Some r => Ok (regex_is_match r v)
              end
          end
      end
  end.

(** Over the filters of an encoded query, decoded as they are walked. *)
Fixpoint should_process_query_ref s (filters : list (Result (FilterRef I) DecodeError))
  : Result bool DecodeError :=
  match filters with
  | [] => Ok true
  | Err e :: _ => Err e
  | Ok (FilterRefId ids) :: rest =>
      try! found := ids_contain (local_id s) ids in
      if (found : bool) then should_process_query_ref s rest else Ok false
  | Ok (FilterRefTag tag expr) :: rest =>
      try! pass := tag_passes_ref (opt_tags (opts s)) tag expr in
      if (pass : bool) then should_process_query_ref s rest else Ok false
  end.

(** ** Relaying *)

Definition relay_candidates s : list (Member I A) :=
  omap (λ p, if decide (ms_status p.2 = MemberStatus.Alive ∧ p.1 ≠ local_id s)
             then Some (member p.2) else None)
    (map_to_list (states (members s))).

(** The sends run concurrently and their failures are dropped. *)
Definition relay_response s (relay_factor : Z) (nd : Node I A)
    (resp : QueryResponseMessage I A) rnd : Serf I A * Result unit Error :=
  if relay_factor =? 0 then (s, Ok tt)
  else if Z.of_nat (size (states (members s))) <? relay_factor + 1 then (s, Ok tt)
  else
    let ms := relay_candidates s in
    match ms with
    | [] => (s, Ok tt)
    | _ =>
        if query_response_size_limit (opts s) <? encoded_relay_message_len resp nd
        then (s, Err (RelayedResponseTooLarge (query_response_size_limit (opts s))))
        else
          match encode_relay_message_to_bytes resp nd with
          | Err e => (s, Err (Encode e))
          | Ok raw =>
              let relays := random_members (Z.to_nat relay_factor) rnd ms in
              (foldl (λ s m, memberlist_send s (address (node m)) raw) s relays, Ok tt)
          end
    end.

(** ** Handling a query *)

(** A query as it arrives: still encoded, or from the local caller. *)
Inductive AnyQuery : Type :=
| QLeft (q : QueryMessageRef I A)
| QRight (q : QueryMessage I A R).

Definition aq_ltime (q : AnyQuery) : Z :=
  match q with QLeft q => qr_ltime q | QRight q => q_ltime q end.
Definition aq_id (q : AnyQuery) : Z :=
  match q with QLeft q => qr_id q | QRight q => q_id q end.
Definition aq_timeout (q : AnyQuery) : Z :=
  match q with QLeft q => qr_timeout q | QRight q => q_timeout q end.
Definition aq_flags (q : AnyQuery) : Z :=
  match q with QLeft q => qr_flags q | QRight q => q_flags q end.
Definition aq_name (q : AnyQuery) : string :=
  match q with QLeft q => qr_name q | QRight q => q_name q end.
Definition aq_payload (q : AnyQuery) : bytes :=
  match q with QLeft q => qr_payload q | QRight q => q_payload q end.
Definition aq_from (q : AnyQuery) : Result (Node I A) DecodeError :=
  match q with QLeft q => qr_from q | QRight q => Ok (q_from q) end.
Definition aq_relay_factor (q : AnyQuery) : Z :=
  match q with QLeft q => qr_relay_factor q | QRight q => q_relay_factor q end.
Definition aq_should_process s (q : AnyQuery) : Result bool DecodeError :=
  match q with
  | QLeft q => should_process_query_ref s (qr_filters q)
  | QRight q => Ok (should_process_query s (q_filters q))
  end.

(** A slot that holds this very time collects ids; any other is replaced. *)
Definition record_query (slot : option Queries) (ltime id : Z) : option Queries :=
  match slot with
  | Some seen =>
      if queries_ltime seen =? ltime then
        if decide (id ∈ query_ids seen) then None
        else Some (mkQueries ltime (query_ids seen ++ [id]))
      else Some (mkQueries ltime [id])
  | None => Some (mkQueries ltime [id])
  end.

(** From the clock to the ring: [None] when the query is too old or known. *)
Definition admit_query s (ltime id : Z) : outcome (Serf I A * bool) :=
  let s := witness_query_clock s ltime in
  let qc := query_core s in
  if ltime <? query_min_time qc then Done (s, false)
  else if too_old (Clock.time (query_clock s)) (length (query_buffer qc)) ltime
  then Done (s, false)
  else
    run! r := Clock.rem ltime (Z.of_nat (length (query_buffer qc))) in
    let idx := Z.to_nat r in
    match query_buffer qc !! idx with
    | None => Panic
    | Some seen =>
        match record_query seen ltime id with
        | None => Done (s, false)
        | Some slot =>
            Done (set_query_core s (mkQueryCore (responses qc) (query_min_time qc)
                    (<[idx := Some slot]> (query_buffer qc))), true)
        end
    end.

Definition query_event (ltime : Z) (name : string) (payload : bytes) (timeout id : Z)
    (from : Node I A) (relay_factor now : Z) : QueryEvent I A :=
  mkQueryEvent ltime name payload timeout (Some now) id from relay_factor.

(** The ack goes to the source directly and through the relays. *)
Definition ack_query s (q : AnyQuery) (from : Node I A) rnd : Serf I A :=
  let ack := mkQueryResponse (aq_ltime q) (aq_id q) (local_node s) FLAG_ACK [] in
  match encode_message_to_bytes (MQueryResponse ack) with
  | Ok raw =>
      let s := memberlist_send s (address from) raw in
      (relay_response s (aq_relay_factor q) from ack rnd).1
  | Err _ => s
  end.

(** Past the ring: filter, ack, hand to the application. *)
Definition process_query s (q : AnyQuery) (ty : option (InternalQueryEvent I)) (now : Z) rnd
  : Serf I A * Result bool DecodeError :=
  let rebroadcast := negb (flags_contains (aq_flags q) FLAG_NO_BROADCAST) in
  match aq_should_process s q with
  | Err e => (s, Err e)
  | Ok false => (s, Ok rebroadcast)
  | Ok true =>
      match aq_from q with
      | Err e => (s, Err e)
      | Ok from =>
          let s := if flags_contains (aq_flags q) FLAG_ACK then ack_query s q from rnd else s in
          let ev := query_event (aq_ltime q) (aq_name q) (aq_payload q) (aq_timeout q) (aq_id q)
                      from (aq_relay_factor q) now in
          (send_event s (match ty with Some ty => EvInternalQuery ty ev | None => EvQuery ev end),
           Ok rebroadcast)
      end
  end.

Definition handle_query s (q : AnyQuery) (ty : option (InternalQueryEvent I)) (now : Z) rnd
  : outcome (Serf I A * Result bool DecodeError) :=
  run! (s, fresh) := admit_query s (aq_ltime q) (aq_id q) in
  if (fresh : bool) then Done (process_query s q ty now rnd) else Done (s, Ok false).

(** ** Issuing a query *)

(** [responses.insert] and the timer; the response joins the heap. *)
Definition register_query_response s (timeout : Z) (resp : QueryResponse I A) (now : Z)
  : Serf I A * nat :=
  let h := length (query_heap s) in
  let s := set_query_heap s (query_heap s ++ [resp]) in
  let qc := query_core s in
  let s := set_query_core s (mkQueryCore (<[qresp_ltime resp := h]> (responses qc))
                               (query_min_time qc) (query_buffer qc)) in
  (spawn s (TaskCloseQuery (now + timeout) (qresp_ltime resp)), h).

(** The timer's task. *)
Definition close_query s (ltime : Z) : Serf I A :=
  let qc := query_core s in
  match responses qc !! ltime with
  | None => s
  | Some h =>
      let s := set_query_core s (mkQueryCore (delete ltime (responses qc))
                                   (query_min_time qc) (query_buffer qc)) in
      set_query_heap s (alter close h (query_heap s))
  end.

(** The message, from the clock as it stands. *)
Definition build_query s (name : string) (payload : bytes) (params : QueryParam I R) (id : Z)
  : QueryMessage I A R :=
  mkQuery (Clock.time (query_clock s)) id (local_node s) (p_filters params)
    (if request_ack params then FLAG_ACK else 0) (p_relay_factor params) (p_timeout params)
    name payload.

(** From the built message on: size check, encoding, registration, local
    handling, broadcast.  Returns the handle of the response. *)
Definition issue_query s (q : QueryMessage I A R) (ty : option (InternalQueryEvent I))
    (online : nat) (now : Z) rnd : outcome (Serf I A * Result nat Error) :=
  let len := encoded_message_len (MQuery q) in
  if query_size_limit (opts s) <? len then Done (s, Err (QueryTooLarge len))
  else
    match encode_message_to_bytes (MQuery q) with
    | Err e => Done (s, Err (Encode e))
    | Ok raw =>
        run! resp := new_query_response (q_id q) (q_ltime q) online (now + q_timeout q)
                       (flags_contains (q_flags q) FLAG_ACK) in
        let '(s, h) := register_query_response s (q_timeout q) resp now in
        run! (s, r) := handle_query s (QRight q) ty now rnd in
        match r with
        | Err e => Done (s, Err (Decode e))
        | Ok _ =>
            Done (set_query_broadcasts s (query_broadcasts s ++ [mkBroadcast raw false]), Ok h)
        end
    end.

(** [n1] and [n2] are the two readings of the number of online members. *)
Definition query_in s (name : string) (payload : bytes) (params : option (QueryParam I R))
    (ty : option (InternalQueryEvent I)) (id : Z) (n1 n2 : nat) (now : Z) rnd
  : outcome (Serf I A * Result nat Error) :=
  run! params :=
    match params with
    | Some p =>
        if p_timeout p =? 0 then
          run! t := default_query_timeout (opts s) n1 in
          Done (mkQueryParam (p_filters p) (request_ack p) (p_relay_factor p) t)
        else Done p
    | None => default_query_param (opts s) n1
    end in
  issue_query s (build_query s name payload params id) ty n2 now rnd.

(** ** Replies *)

(** Routes a reply to the response registered under its time. *)
Definition serf_handle_query_response s (ltime id : Z)
    (resp : Result (QueryResponseMessage I A) DecodeError) (now : Z)
  : Serf I A * Result unit DecodeError :=
  match responses (query_core s) !! ltime with
  | None => (s, Ok tt)
  | Some h =>
      match query_heap s !! h with
      | None => (s, Ok tt)
      | Some q =>
          if qresp_id q =? id then
            match resp with
            | Err e => (s, Err e)
            | Ok resp =>
                (set_query_heap s (<[h := handle_query_response q resp now]> (query_heap s)), Ok tt)
            end
          else (s, Ok tt)
      end
  end.

(** ** Responding (event.rs) *)

Definition check_response_size s (size : Z) : Result unit Error :=
  if query_response_size_limit (opts s) <? size
  then Err (QueryResponseTooLarge (query_response_size_limit (opts s)) size)
  else Ok tt.

Definition clear_span (e : QueryEvent I A) : QueryEvent I A :=
  mkQueryEvent (qe_ltime e) (qe_name e) (qe_payload e) (qe_timeout e) None (qe_id e) (qe_from e)
    (qe_relay_factor e).

(** The span is locked throughout; it is cleared only at the very end. *)
Definition respond_with_message_and_response s (e : QueryEvent I A) (raw : bytes)
    (resp : QueryResponseMessage I A) (send_ok : A → bool) (now : Z) rnd
  : Serf I A * QueryEvent I A * Result unit Error :=
  match check_response_size s (Z.of_nat (length raw)) with
  | Err er => (s, e, Err er)
  | Ok _ =>
      match qe_span e with
      | None => (s, e, Err QueryAlreadyResponsed)
      | Some start =>
          if qe_timeout e <? since now start then (s, e, Err QueryTimeout)
          else
            let to := address (qe_from e) in
            if send_ok to then
              let s := memberlist_send s to raw in
              match relay_response s (qe_relay_factor e) (r_from resp) resp rnd with
              | (s, Err er) => (s, e, Err er)
              | (s, Ok _) => (s, clear_span e, Ok tt)
              end
            else (s, e, Err Memberlist)
      end
  end.

Definition respond s (e : QueryEvent I A) (msg : bytes) (send_ok : A → bool) (now : Z) rnd
  : Serf I A * QueryEvent I A * Result unit Error :=
  let resp := mkQueryResponse (qe_ltime e) (qe_id e) (local_node s) 0 msg in
  match encode_message_to_bytes (MQueryResponse resp) with
  | Err er => (s, e, Err (Encode er))
  | Ok buf => respond_with_message_and_response s e buf resp send_ok now rnd
  end.

End query.
