(* ===== verification/QueryFacts.v ===== *)
(** * What queries guarantee

    The theorems about the definitions of Query.v: a query is processed at
    most once, the encoded and the owned filters decide alike, relays are
    distinct live peers, replies reach the response they belong to, and how
    two queries issued at the same time share a registration. *)

From Stdlib Require Import ZArith Lia Strings.Byte.
From stdpp Require Import base list gmap strings.
From S2P Require Import Prelude Clock Coordinate Types Core Sample UserEvents Responses Query.
Local Open Scope Z_scope.
Local Open Scope serf_scope.

(** ** Random choice *)

Section random.
Context {T : Type}.
Implicit Types l : list T.

Lemma swap_perm i j l : swap i j l ≡ₚ l.
Proof.
  unfold swap. destruct (l !! i) as [x|] eqn:Hi; [|done].
  destruct (l !! j) as [y|] eqn:Hj; [|done].
  destruct (decide (i = j)) as [<-|Hne].
  { simplify_eq. rewrite list_insert_insert_eq. by rewrite list_insert_id. }
  symmetry. apply Permutation_inj. split; [by rewrite !length_insert|].
  exists (λ k, if decide (k = i) then j else if decide (k = j) then i else k). split.
  - intros a b. repeat case_decide; congruence.
  - intros k. pose proof (lookup_lt_Some _ _ _ Hi). pose proof (lookup_lt_Some _ _ _ Hj).
    repeat case_decide; subst.
    + rewrite list_lookup_insert_ne by done. by rewrite list_lookup_insert_eq.
    + rewrite list_lookup_insert_eq by by rewrite length_insert. done.
    + by rewrite !list_lookup_insert_ne by done.
Qed.

Lemma random_loop_perm fuel : ∀ i k n rnd l, random_loop fuel i k n rnd l ≡ₚ l.
Proof.
  induction fuel as [|fuel IH]; intros i k n rnd l; simpl; [done|].
  destruct_match; [|done]. destruct_match; [apply swap_perm|]. by rewrite IH, swap_perm.
Qed.

(** More fuel than [n] rounds changes nothing: the loop ends by its own
    condition. *)
Lemma random_loop_fuel fuel : ∀ i k n rnd l extra,
  (n <= i + fuel)%nat →
  random_loop (fuel + extra) i k n rnd l = random_loop fuel i k n rnd l.
Proof.
  induction fuel as [|fuel IH]; intros i k n rnd l extra Hn; simpl.
  - destruct extra; [done|]. cbn [random_loop]. destruct ((i <? 3 * n) && (i <? n))%nat eqn:E; [|done].
    apply andb_true_iff in E as [_ E%Nat.ltb_lt]. lia.
  - destruct_match; [|done]. destruct_match; [done|]. apply IH. lia.
Qed.

Lemma random_members_spec k rnd l :
  length (random_members k rnd l) = min k (length l) ∧
  ∃ rest, l ≡ₚ random_members k rnd l ++ rest.
Proof.
  unfold random_members. destruct (length l =? 0)%nat eqn:E.
  { apply Nat.eqb_eq, nil_length_inv in E as ->. simpl. split; [lia|]. by exists []. }
  rewrite length_take, (Permutation_length (random_loop_perm _ _ _ _ _ _)). split; [lia|].
  eexists (drop k _). by rewrite take_drop, random_loop_perm.
Qed.

End random.

Section facts.
Context {I A R : Type} `{Countable I} `{Countable A} `{!Codec I A R}.
Implicit Types (s : Serf I A) (rnd : nat → Z).

(** ** The query ring *)

Definition ring_holds (buf : list (option Queries)) (t id : Z) : Prop :=
  ∃ qs, buf !! Z.to_nat (t mod Z.of_nat (length buf)) = Some (Some qs) ∧
    queries_ltime qs = t ∧ id ∈ query_ids qs.

(** Every time in the ring has been witnessed, and sits in its own slot. *)
Definition ring_ok s : Prop :=
  is_u64 (query_clock s) ∧ (0 < length (query_buffer (query_core s)))%nat ∧
  ∀ i qs, query_buffer (query_core s) !! i = Some (Some qs) →
    0 <= queries_ltime qs < query_clock s ∧
    i = Z.to_nat (queries_ltime qs mod Z.of_nat (length (query_buffer (query_core s)))).

Definition query_settled s (t id : Z) : Prop :=
  t < query_clock s ∧
  (t < query_min_time (query_core s) ∨
   too_old (query_clock s) (length (query_buffer (query_core s))) t = true ∨
   ring_holds (query_buffer (query_core s)) t id).

Inductive admit_case s (t id : Z) : Serf I A * bool → Prop :=
| admit_settled :
    query_settled (witness_query_clock s t) t id →
    admit_case s t id (witness_query_clock s t, false)
| admit_fresh slot qs :
    let qc := query_core s in
    let idx := Z.to_nat (t mod Z.of_nat (length (query_buffer qc))) in
    too_old (Clock.witness (query_clock s) t) (length (query_buffer qc)) t = false →
    query_buffer qc !! idx = Some slot → record_query slot t id = Some qs →
    admit_case s t id
      (set_query_core (witness_query_clock s t)
         (mkQueryCore (responses qc) (query_min_time qc) (<[idx := Some qs]> (query_buffer qc))), true).

Lemma record_query_none slot t id :
  record_query slot t id = None ↔
  ∃ qs, slot = Some qs ∧ queries_ltime qs = t ∧ id ∈ query_ids qs.
Proof.
  unfold record_query. destruct slot as [qs|]; [|by split; [|intros (? & ? & _)]].
  destruct (queries_ltime qs =? t) eqn:E; bool_to_prop; [case_decide|];
    (split; [|intros (qs' & [= <-] & ? & ?)]); by eauto.
Qed.

Lemma record_query_some slot t id qs :
  record_query slot t id = Some qs →
  queries_ltime qs = t ∧ id ∈ query_ids qs ∧
  ∀ qs0, slot = Some qs0 → queries_ltime qs0 = t → ∀ x, x ∈ query_ids qs0 → x ∈ query_ids qs.
Proof.
  unfold record_query. destruct slot as [qs0|]; [|intros ?; simplify_eq; set_solver].
  destruct (queries_ltime qs0 =? t) eqn:E; bool_to_prop; [case_decide; [done|]|];
    intros ?; simplify_eq; simpl; split_and!; try set_solver.
Qed.

Lemma admit_query_cases s t id :
  regular t → (0 < length (query_buffer (query_core s)))%nat →
  ∃ r, admit_query s t id = Done r ∧ admit_case s t id r.
Proof.
  intros Ht Hlen. unfold admit_query.
  assert (t < query_clock (witness_query_clock s t)) as Hlt.
  { apply Clock.witness_gt; unfold regular, is_u64 in *; lia. }
  destruct (_ <? query_min_time _) eqn:Hmin; bool_to_prop.
  { eexists. split; [done|]. constructor. split; [done|]. by left. }
  destruct (too_old _ _ _) eqn:Hold.
  { eexists. split; [done|]. constructor. split; [done|]. right. by left. }
  unfold Clock.rem. cbn [query_core witness_query_clock set_query_clock].
  replace (_ =? 0) with false by (symmetry; apply Z.eqb_neq; lia).
  destruct (lookup_lt_is_Some_2 (query_buffer (query_core s))
    (Z.to_nat (t mod Z.of_nat (length (query_buffer (query_core s)))))) as [slot Hs].
  { apply slot_in_range; [done|apply Ht]. }
  rewrite Hs. destruct (record_query _ _ _) as [qs|] eqn:Hr.
  - eexists. split; [done|]. by eapply admit_fresh.
  - apply record_query_none in Hr as (qs & -> & Hq & Hin).
    eexists. split; [done|]. constructor. split; [done|]. right. right. by exists qs.
Qed.

Lemma witness_query_frame s t :
  regular t → is_u64 (query_clock s) →
  is_u64 (Clock.witness (query_clock s) t) ∧ query_clock s <= Clock.witness (query_clock s) t ∧
  t < Clock.witness (query_clock s) t.
Proof.
  intros Ht Hc. split; [by apply Clock.witness_u64|].
  split; [apply Clock.witness_mono|apply Clock.witness_gt]; unfold regular, is_u64 in *; lia.
Qed.

Lemma admit_case_settled s t id r :
  regular t → is_u64 (query_clock s) → admit_case s t id r → query_settled r.1 t id.
Proof.
  intros Ht Hc [Hs|slot qs qc idx Ho Hb Hr]; [done|].
  destruct (witness_query_frame s t Ht Hc) as (_ & _ & Hgt). split; [done|].
  right. right. simpl. exists qs. rewrite length_insert. fold idx.
  rewrite list_lookup_insert_eq by (by eapply lookup_lt_Some).
  by apply record_query_some in Hr as (? & ? & _).
Qed.

Lemma admit_case_ring s t id r : regular t → ring_ok s → admit_case s t id r → ring_ok r.1.
Proof.
  intros Ht (Hc & Hlen & Hring) Hcase.
  destruct (witness_query_frame s t Ht Hc) as (Hc' & Hle & Hgt).
  destruct Hcase as [Hs|slot qs qc idx Ho Hb Hr]; simpl.
  - split; [done|]. split; [done|]. simpl. intros i qs Hi. apply Hring in Hi as [? ?].
    split; [lia|done].
  - split; [done|]. simpl. rewrite length_insert. split; [done|]. intros i qs' Hi.
    destruct (decide (i = idx)) as [->|Hne].
    + rewrite list_lookup_insert_eq in Hi by (by eapply lookup_lt_Some). simplify_eq.
      apply record_query_some in Hr as (<- & _ & _). unfold regular in Ht. split; [lia|done].
    + rewrite list_lookup_insert_ne in Hi by done. apply Hring in Hi as [? ?]. split; [lia|done].
Qed.

(** Two times of one slot are a whole turn apart. *)
Lemma same_slot_apart t t' (len : nat) :
  (0 < len)%nat → 0 <= t → 0 <= t' →
  Z.to_nat (t mod Z.of_nat len) = Z.to_nat (t' mod Z.of_nat len) → t < t' →
  t + Z.of_nat len <= t'.
Proof.
  intros Hn Ht Ht' Heq Hlt.
  pose proof (Z.mod_pos_bound t (Z.of_nat len) ltac:(lia)).
  pose proof (Z.mod_pos_bound t' (Z.of_nat len) ltac:(lia)).
  assert (t mod Z.of_nat len = t' mod Z.of_nat len) as E by lia.
  pose proof (Z.div_mod t (Z.of_nat len) ltac:(lia)).
  pose proof (Z.div_mod t' (Z.of_nat len) ltac:(lia)).
  assert (t / Z.of_nat len < t' / Z.of_nat len) by nia. nia.
Qed.

Lemma too_old_turn c (len : nat) t :
  is_u64 c → 0 <= t → t + Z.of_nat len < c → too_old c len t = true.
Proof.
  intros Hc Ht Hlt. unfold too_old, Clock.sub. apply andb_true_iff.
  split; apply Z.ltb_lt; [lia|]. rewrite sub64_exact; unfold is_u64 in *; lia.
Qed.

Lemma query_settled_preserved s t id t' id' r :
  regular t → regular t' → ring_ok s → query_settled s t id →
  admit_case s t' id' r → query_settled r.1 t id.
Proof.
  intros Ht Ht' (Hc & Hlen & Hring) [Hlt Hset] Hcase.
  destruct (witness_query_frame s t' Ht' Hc) as (Hc' & Hle & Hgt).
  assert (query_clock r.1 = Clock.witness (query_clock s) t') as Hcl by by destruct Hcase.
  split; [lia|]. rewrite Hcl.
  destruct Hset as [Hmin|[Hold|Hh]].
  - left. by destruct Hcase.
  - right. left.
    replace (length (query_buffer (query_core r.1))) with (length (query_buffer (query_core s)))
      by (destruct Hcase; simpl; by rewrite ?length_insert).
    eapply too_old_mono; [exact Hc|done|done|done].
  - destruct Hcase as [_|slot qs qc idx Ho Hb Hr]; [by right; right|].
    right. simpl. rewrite length_insert. unfold ring_holds. rewrite length_insert.
    destruct Hh as (qs0 & Hl & Hq0 & Hin).
    set (it := Z.to_nat (t mod _)) in *.
    destruct (decide (idx = it)) as [Hi|Hi].
    2:{ right. exists qs0. by rewrite list_lookup_insert_ne. }
    destruct (decide (t = t')) as [<-|Hne].
    { right. exists qs. rewrite <- Hi, list_lookup_insert_eq by (by eapply lookup_lt_Some).
      rewrite Hi in Hb. fold qc in Hl. simplify_eq.
      apply record_query_some in Hr as (? & ? & Hsub). eauto. }
    left. unfold regular in *. destruct (decide (t < t')) as [Htt|Htt].
    + apply too_old_turn; [done|lia|]. pose proof (same_slot_apart t t' _ Hlen
        ltac:(lia) ltac:(lia) (eq_sym Hi) Htt). unfold qc. lia.
    + exfalso. pose proof (same_slot_apart t' t _ Hlen ltac:(lia) ltac:(lia) Hi ltac:(lia)) as Hap.
      rewrite too_old_turn in Ho; [done|done|lia|]. unfold qc. lia.
Qed.

Lemma query_settled_refused s t id :
  0 <= t → (0 < length (query_buffer (query_core s)))%nat →
  query_settled s t id → admit_query s t id = Done (s, false).
Proof.
  intros Ht Hlen [Hlt Hs]. unfold admit_query.
  assert (witness_query_clock s t = s) as ->.
  { unfold witness_query_clock, Clock.witness. rewrite (proj2 (Z.ltb_lt _ _)) by done.
    by destruct s. }
  destruct (_ <? query_min_time _) eqn:Hm; [done|].
  destruct (too_old _ _ _) eqn:Hold; [done|]. bool_to_prop.
  destruct Hs as [?|[Ho|(qs & Hl & Hq & He)]]; [lia|unfold Clock.time in Hold; congruence|].
  unfold Clock.rem. replace (_ =? 0) with false by (symmetry; apply Z.eqb_neq; lia).
  rewrite Hl. by rewrite (proj2 (record_query_none _ _ _)) by eauto.
Qed.

(** ** What processing leaves alone *)

(** The parts of the instance that sending packets and events never touch. *)
Definition same_tables s s' : Prop :=
  query_core s' = query_core s ∧ query_clock s' = query_clock s ∧ members s' = members s ∧
  opts s' = opts s ∧ local_node s' = local_node s ∧ query_heap s' = query_heap s ∧
  query_broadcasts s' = query_broadcasts s ∧ spawned s' = spawned s.

#[local] Instance same_tables_preorder : PreOrder same_tables.
Proof.
  split; [by intros s|]. unfold same_tables. intros s1 s2 s3 ? ?. intuition congruence.
Qed.

Lemma sends_same_tables (ms : list (Member I A)) raw s :
  same_tables s (foldl (λ s m, memberlist_send s (address (node m)) raw) s ms) ∧
  event_tx (foldl (λ s m, memberlist_send s (address (node m)) raw) s ms) = event_tx s.
Proof.
  revert s. induction ms as [|m ms IH]; intros s; [done|]. simpl.
  destruct (IH (memberlist_send s (address (node m)) raw)) as [H1 H2]. split; [|by rewrite H2].
  etrans; [|exact H1]. done.
Qed.

Lemma sent_relays (ms : list (Member I A)) raw s :
  sent (foldl (λ s m, memberlist_send s (address (node m)) raw) s ms) =
  sent s ++ ((λ m, (address (node m), raw)) <$> ms).
Proof.
  revert s. induction ms as [|m ms IH]; intros s; simpl; [by rewrite app_nil_r|].
  rewrite IH. simpl. by rewrite <- app_assoc.
Qed.

Lemma relay_same_tables s rf nd resp rnd :
  same_tables s (relay_response s rf nd resp rnd).1 ∧
  event_tx (relay_response s rf nd resp rnd).1 = event_tx s.
Proof.
  unfold relay_response. repeat destruct_match; try done. apply sends_same_tables.
Qed.

Lemma ack_same_tables s (q : AnyQuery (R := R)) from rnd :
  same_tables s (ack_query s q from rnd) ∧ event_tx (ack_query s q from rnd) = event_tx s.
Proof.
  unfold ack_query. destruct (encode_message_to_bytes _); [|done].
  destruct (relay_same_tables (memberlist_send s (address from) a) (aq_relay_factor q) from
    (mkQueryResponse (aq_ltime q) (aq_id q) (local_node s) FLAG_ACK []) rnd) as [H1 H2].
  split; [|by rewrite H2]. etrans; [|exact H1]. done.
Qed.

Lemma process_same_tables s (q : AnyQuery (R := R)) ty now rnd :
  same_tables s (process_query s q ty now rnd).1.
Proof.
  unfold process_query. destruct (aq_should_process s q) as [[]|]; try done.
  destruct (aq_from q) as [from|]; [|done]. simpl.
  destruct (flags_contains _ FLAG_ACK); [|done].
  destruct (ack_same_tables s q from rnd) as [H1 _]. etrans; [exact H1|]. done.
Qed.

(** ** Sequences of queries *)

Record arrival : Type := mkArrival {
  ar_query : AnyQuery (I := I) (A := A) (R := R); ar_ty : option (InternalQueryEvent I);
  ar_now : Z; ar_rnd : nat → Z }.

Fixpoint run_queries s (l : list arrival) : outcome (Serf I A) :=
  match l with
  | [] => Done s
  | a :: l =>
      run! (s, _) := handle_query s (ar_query a) (ar_ty a) (ar_now a) (ar_rnd a) in
      run_queries s l
  end.

Lemma same_tables_ring s s' : same_tables s s' → ring_ok s → ring_ok s'.
Proof. intros (Hc & Hcl & _). unfold ring_ok. by rewrite Hc, Hcl. Qed.

Lemma same_tables_settled s s' t id :
  same_tables s s' → query_settled s t id → query_settled s' t id.
Proof. intros (Hc & Hcl & _). unfold query_settled. by rewrite Hc, Hcl. Qed.

(** Handling a query is admitting it and then touching no table. *)
Lemma handle_query_admit s q ty now rnd :
  regular (aq_ltime q) → ring_ok s →
  ∃ s1 b s2 r, handle_query (R := R) s q ty now rnd = Done (s2, r) ∧
    admit_case s (aq_ltime q) (aq_id q) (s1, b) ∧ same_tables s1 s2.
Proof.
  intros Ht (Hc & Hlen & _). unfold handle_query.
  destruct (admit_query_cases s (aq_ltime q) (aq_id q) Ht Hlen) as ([s1 b] & -> & Hcase).
  pose proof (process_same_tables s1 q ty now rnd) as Hp.
  destruct b; [|by exists s1, false, s1, (Ok false)].
  destruct (process_query s1 q ty now rnd) as [s2 r]. by exists s1, true, s2, r.
Qed.

Lemma run_queries_settled l : ∀ s t id,
  Forall (λ a, regular (aq_ltime (ar_query a))) l → regular t → ring_ok s →
  query_settled s t id →
  ∃ s', run_queries s l = Done s' ∧ ring_ok s' ∧ query_settled s' t id.
Proof.
  induction l as [|a l IH]; intros s t id Hreg Ht Hring Hset; [by exists s|].
  apply Forall_cons in Hreg as [Ha Hreg]. simpl.
  destruct (handle_query_admit s (ar_query a) (ar_ty a) (ar_now a) (ar_rnd a) Ha Hring)
    as (s1 & b & s2 & r & -> & Hcase & Hsame).
  apply IH; [done..| |].
  - eapply same_tables_ring; [exact Hsame|]. exact (admit_case_ring s _ _ (s1, b) Ha Hring Hcase).
  - eapply same_tables_settled; [exact Hsame|].
    exact (query_settled_preserved s t id _ _ (s1, b) Ht Ha Hring Hset Hcase).
Qed.

(** ** Properties of arriving queries *)

(** C16: A query is processed at most once: after it has been handled, and
    after any further queries, a query with the same time and id, however
    encoded, is refused and leaves the instance as it was; handling never
    panics. *)
Theorem query_at_most_once s q ty now rnd l q' ty' now' rnd' :
  ring_ok s → regular (aq_ltime q) →
  Forall (λ a, regular (aq_ltime (ar_query a))) l →
  aq_ltime q' = aq_ltime q → aq_id q' = aq_id q →
  ∃ s1 r s2, handle_query (R := R) s q ty now rnd = Done (s1, r) ∧ run_queries s1 l = Done s2 ∧
    handle_query (R := R) s2 q' ty' now' rnd' = Done (s2, Ok false).
Proof.
  intros Hring Ht Hl Htt Hid. pose proof Hring as (Hc & _ & _).
  destruct (handle_query_admit s q ty now rnd Ht Hring)
    as (s0 & b & s1 & r & H1 & Hcase & Hsame).
  destruct (run_queries_settled l s1 (aq_ltime q) (aq_id q) Hl Ht) as (s2 & H2 & Hring2 & Hset2).
  { eapply same_tables_ring; [exact Hsame|]. exact (admit_case_ring s _ _ (s0, b) Ht Hring Hcase). }
  { eapply same_tables_settled; [exact Hsame|]. exact (admit_case_settled s _ _ (s0, b) Ht Hc Hcase). }
  exists s1, r, s2. split_and!; [done..|]. unfold handle_query. rewrite Htt, Hid.
  rewrite query_settled_refused; [done|apply Ht|apply Hring2|done].
Qed.

(** An encoded filter stands for an owned one when its ids decode to the
    same ids and its expression compiles to the same expression. *)
Inductive filter_denotes : Result (FilterRef I) DecodeError → Filter I R → Prop :=
| denotes_id ids : filter_denotes (Ok (FilterRefId (Ok <$> ids))) (FilterId ids)
| denotes_tag tag : filter_denotes (Ok (FilterRefTag tag None)) (FilterTag tag None)
| denotes_expr tag re r :
    regex_new re = Some r →
    filter_denotes (Ok (FilterRefTag tag (Some re))) (FilterTag tag (Some r)).

Lemma ids_contain_spec id (ids : list I) :
  ids_contain id (Ok <$> ids) = Ok (bool_decide (id ∈ ids)).
Proof.
  induction ids as [|x ids IH]; [done|]. rewrite fmap_cons. cbn [ids_contain].
  destruct (decide (x = id)) as [->|E].
  { rewrite bool_decide_eq_true_2; [done|]. by apply elem_of_cons; left. }
  rewrite IH. f_equal. apply bool_decide_ext. rewrite elem_of_cons.
  by split; [right|intros [->|?]].
Qed.

Lemma tag_passes_spec tg tag re (r : R) :
  match re with Some re => regex_new re = Some r | None => True end →
  tag_passes_ref tg tag re =
  Ok (tag_passes tg tag (λ v, match re with Some _ => regex_is_match r v | None => true end)).
Proof.
  intros Hre. unfold tag_passes_ref, tag_passes. destruct tg; [done|].
  destruct (get_tag _ _); [|done]. destruct re; [|done]. by rewrite Hre.
Qed.

(** A node decides whether a query is for it in the same way for an
    encoded query and for the query its sender built. *)
Theorem filters_agree s refs fs :
  Forall2 filter_denotes refs fs →
  should_process_query_ref s refs = Ok (should_process_query s fs).
Proof.
  intros Hfs. induction Hfs as [|rf f refs fs Hd Hfs IH]; [done|].
  destruct Hd as [ids|tag|tag re r Hre]; cbn [should_process_query_ref should_process_query].
  - rewrite ids_contain_spec. by destruct (bool_decide _).
  - unfold tag_passes_ref, tag_passes. destruct (opt_tags (opts s)); [done|].
    by destruct (get_tag _ _).
  - rewrite (tag_passes_spec _ _ (Some re) r Hre). by destruct (tag_passes _ _ _).
Qed.

Lemma relay_candidate_live s m :
  m ∈ relay_candidates s →
  ∃ id ms, states (members s) !! id = Some ms ∧ member ms = m ∧
    ms_status ms = MemberStatus.Alive ∧ id ≠ local_id s.
Proof.
  unfold relay_candidates. rewrite list_elem_of_omap.
  intros ([id ms] & Hin & Hm). apply elem_of_map_to_list in Hin. simpl in Hm.
  case_decide as Hd; [|done]. simplify_eq. destruct Hd. eauto 6.
Qed.

Lemma relay_sent s rf nd resp rnd :
  ∃ raw relays, sent (relay_response s rf nd resp rnd).1 =
      sent s ++ ((λ m, (address (node m), raw)) <$> relays) ∧
    (relays = [] ∨ encode_relay_message_to_bytes resp nd = Ok raw ∧
                   relays = random_members (Z.to_nat rf) rnd (relay_candidates s)).
Proof.
  unfold relay_response. repeat destruct_match;
    try (exists [], []; rewrite app_nil_r; split; [done|by left]).
  eexists _, _. split; [apply sent_relays|]. by right.
Qed.

(** Relaying sends one copy of the wrapped reply to each of at most
    [relay_factor] members, all of them live members of the table other than
    this node and no two of them the same entry, and as many as there are. *)
Theorem relay_targets s rf nd resp rnd :
  0 <= rf →
  ∃ raw relays, sent (relay_response s rf nd resp rnd).1 =
      sent s ++ ((λ m, (address (node m), raw)) <$> relays) ∧
    (relays ≠ [] → encode_relay_message_to_bytes resp nd = Ok raw ∧
                   length relays = min (Z.to_nat rf) (length (relay_candidates s))) ∧
    (∃ rest, relay_candidates s ≡ₚ relays ++ rest) ∧
    (∀ m, m ∈ relays → ∃ id ms, states (members s) !! id = Some ms ∧ member ms = m ∧
       ms_status ms = MemberStatus.Alive ∧ id ≠ local_id s).
Proof.
  intros Hrf. destruct (relay_sent s rf nd resp rnd) as (raw & relays & Hs & Hr).
  exists raw, relays. split; [done|]. destruct Hr as [->|[He ->]].
  { split_and!; [done|by exists (relay_candidates s)|]. intros m Hm.
    by apply not_elem_of_nil in Hm. }
  destruct (random_members_spec (Z.to_nat rf) rnd (relay_candidates s)) as (Hlen & rest & Hp).
  split_and!; [done|by exists rest|]. intros m Hm. apply relay_candidate_live.
  rewrite Hp. apply elem_of_app. by left.
Qed.

(** ** Issuing queries *)

(** A query that passes the size check and encodes. *)
Definition sendable s (q : QueryMessage I A R) (raw : bytes) : Prop :=
  encoded_message_len (MQuery q) <= query_size_limit (opts s) ∧
  encode_message_to_bytes (MQuery q) = Ok raw.

Definition fresh_response (q : QueryMessage I A R) (resp : QueryResponse I A) : Prop :=
  qresp_id resp = q_id q ∧ qresp_ltime resp = q_ltime q ∧ closed resp = false ∧
  acks resp = ∅ ∧ resps resp = ∅.

Lemma new_query_response_fresh (q : QueryMessage I A R) online dl :
  (0 < online)%nat →
  ∃ resp, new_query_response (q_id q) (q_ltime q) online dl
            (flags_contains (q_flags q) FLAG_ACK) = Done resp ∧ fresh_response q resp.
Proof.
  intros Hon. unfold new_query_response, bounded. destruct online; [lia|].
  by destruct (flags_contains _ _); eexists.
Qed.

(** A query of this node decodes, so handling it cannot fail. *)
Lemma process_right_ok s q ty now rnd :
  ∃ b, (process_query (R := R) s (QRight q) ty now rnd).2 = Ok b.
Proof.
  unfold process_query. simpl. destruct (should_process_query s (q_filters q)); simpl; eauto.
Qed.

Lemma handle_right_effect s q ty now rnd :
  regular (q_ltime q) → ring_ok s →
  ∃ s2 b, handle_query (R := R) s (QRight q) ty now rnd = Done (s2, Ok b) ∧ ring_ok s2 ∧
    responses (query_core s2) = responses (query_core s) ∧ query_heap s2 = query_heap s ∧
    query_clock s2 = Clock.witness (query_clock s) (q_ltime q) ∧ opts s2 = opts s ∧
    query_broadcasts s2 = query_broadcasts s ∧ spawned s2 = spawned s.
Proof.
  intros Ht Hring. pose proof Hring as (Hc & Hlen & _). unfold handle_query.
  cbn [aq_ltime aq_id].
  destruct (admit_query_cases s (q_ltime q) (q_id q) Ht Hlen) as ([s1 b] & -> & Hcase).
  pose proof (admit_case_ring s _ _ _ Ht Hring Hcase) as Hring1. simpl in Hring1.
  assert (responses (query_core s1) = responses (query_core s) ∧ query_heap s1 = query_heap s ∧
    query_clock s1 = Clock.witness (query_clock s) (q_ltime q) ∧ opts s1 = opts s ∧
    query_broadcasts s1 = query_broadcasts s ∧ spawned s1 = spawned s) as Hs1
    by (inversion Hcase; subst; done).
  pose proof (process_same_tables s1 (QRight q) ty now rnd) as Hsame.
  destruct (process_right_ok s1 q ty now rnd) as [b' Hb'].
  destruct b; [|by exists s1, false].
  destruct (process_query s1 (QRight q) ty now rnd) as [s2 r]. simpl in *. subst r.
  exists s2, b'. split; [done|]. split; [by eapply same_tables_ring|].
  destruct Hsame as (E1 & E2 & _ & E4 & _ & E6 & E7 & E8).
  rewrite E1, E2, E4, E6, E7, E8. exact Hs1.
Qed.

Lemma issue_effect s q raw ty online now rnd :
  ring_ok s → regular (q_ltime q) → sendable s q raw → (0 < online)%nat →
  ∃ s' resp, issue_query s q ty online now rnd = Done (s', Ok (length (query_heap s))) ∧
    fresh_response q resp ∧ query_heap s' = query_heap s ++ [resp] ∧
    responses (query_core s') =
      <[q_ltime q := length (query_heap s)]> (responses (query_core s)) ∧
    ring_ok s' ∧ query_clock s' = Clock.witness (query_clock s) (q_ltime q) ∧ opts s' = opts s ∧
    query_broadcasts s' = query_broadcasts s ++ [mkBroadcast raw false] ∧
    spawned s' = spawned s ++ [TaskCloseQuery (now + q_timeout q) (q_ltime q)].
Proof.
  intros Hring Ht [Hlen Hraw] Hon. unfold issue_query.
  replace (_ <? encoded_message_len _) with false by (symmetry; apply Z.ltb_ge; lia).
  rewrite Hraw. destruct (new_query_response_fresh q online (now + q_timeout q) Hon)
    as (resp & -> & Hf). unfold register_query_response.
  set (s1 := spawn _ _).
  assert (ring_ok s1) as Hring1 by exact Hring.
  destruct (handle_right_effect s1 q ty now rnd Ht Hring1)
    as (s2 & b & -> & Hr2 & E1 & E2 & E3 & E4 & E5 & E6).
  eexists _, resp. split; [done|]. split; [done|].
  destruct Hf as (_ & Hlt & _). simpl. rewrite E1, E2, E3, E4, E5, E6. simpl. by rewrite Hlt.
Qed.

(** The times under which responses are registered have been used. *)
Definition registered_past s : Prop :=
  ∀ t, is_Some (responses (query_core s) !! t) → t < query_clock s.

(** Issuing a query registers a new, open response for it under a time no
    other response is registered under, moves the query clock past that time
    so that the next query gets another one, queues the query for gossip and
    schedules the close of the response. *)
Theorem query_registered s name payload params id raw ty online now rnd :
  ring_ok s → registered_past s → regular (query_clock s) → (0 < online)%nat →
  let q := build_query s name payload params id in
  sendable s q raw →
  ∃ s' h resp, issue_query s q ty online now rnd = Done (s', Ok h) ∧
    responses (query_core s) !! q_ltime q = None ∧
    responses (query_core s') !! q_ltime q = Some h ∧ query_heap s' !! h = Some resp ∧
    fresh_response q resp ∧ q_ltime q < query_clock s' ∧ registered_past s' ∧ ring_ok s' ∧
    query_broadcasts s' = query_broadcasts s ++ [mkBroadcast raw false] ∧
    TaskCloseQuery (now + p_timeout params) (q_ltime q) ∈ spawned s'.
Proof.
  intros Hring Hpast Hreg Hon q Hsend.
  destruct (issue_effect s q raw ty online now rnd Hring Hreg Hsend Hon)
    as (s' & resp & Hi & Hf & Hh & Hr & Hring' & Hc & _ & Hb & Hsp).
  pose proof Hring as (Hu & _).
  destruct (witness_query_frame s (query_clock s) Hreg Hu) as (_ & Hle & Hgt).
  exists s', (length (query_heap s)), resp. split; [done|]. split.
  { destruct (responses (query_core s) !! q_ltime q) eqn:E; [|done].
    assert (query_clock s < query_clock s) by (apply Hpast; by eexists). lia. }
  rewrite Hr, Hh, Hb, Hc, Hsp. split; [by rewrite lookup_insert_eq|].
  split; [by rewrite list_lookup_middle|]. split; [done|]. split; [exact Hgt|]. split_and!; try done.
  - intros t. rewrite Hr, Hc, lookup_insert. case_decide as E; [by subst t|].
    intros Ht%Hpast. change (q_ltime q) with (query_clock s). lia.
  - apply elem_of_app. right. apply list_elem_of_singleton. done.
Qed.

(** Two queries that read the query clock before either is handled are
    registered under the same time: the second replaces the first, replies to
    the first are dropped, and the first timer closes the second response
    while the first one is never closed. *)
Theorem concurrent_queries_collide s name payload params id1 id2 raw1 raw2 ty online now rnd :
  ring_ok s → regular (query_clock s) → (0 < online)%nat → id1 ≠ id2 →
  let q1 := build_query s name payload params id1 in
  let q2 := build_query s name payload params id2 in
  sendable s q1 raw1 → sendable s q2 raw2 →
  ∃ s1 h1 s2 h2, issue_query s q1 ty online now rnd = Done (s1, Ok h1) ∧
    issue_query s1 q2 ty online now rnd = Done (s2, Ok h2) ∧
    (∀ resp now', serf_handle_query_response s2 (q_ltime q1) id1 resp now' = (s2, Ok tt)) ∧
    let s3 := close_query s2 (q_ltime q1) in
    (closed <$> query_heap s3 !! h1) = Some false ∧
    (closed <$> query_heap s3 !! h2) = Some true ∧
    close_query s3 (q_ltime q2) = s3.
Proof.
  intros Hring Hreg Hon Hne q1 q2 Hs1 Hs2.
  destruct (issue_effect s q1 raw1 ty online now rnd Hring Hreg Hs1 Hon)
    as (s1 & resp1 & Hi1 & Hf1 & Hh1 & Hr1 & Hring1 & _ & Ho1 & _ & _).
  assert (sendable s1 q2 raw2) as Hs2' by (unfold sendable; by rewrite Ho1).
  destruct (issue_effect s1 q2 raw2 ty online now rnd Hring1 Hreg Hs2' Hon)
    as (s2 & resp2 & Hi2 & Hf2 & Hh2 & Hr2 & _ & _ & _ & _ & _).
  assert (responses (query_core s2) !! query_clock s = Some (length (query_heap s1))) as Hreg2.
  { rewrite Hr2. change (q_ltime q2) with (query_clock s). by rewrite lookup_insert_eq. }
  assert (query_heap s2 !! length (query_heap s1) = Some resp2) as Hl2
    by (rewrite Hh2; by rewrite list_lookup_middle).
  assert (query_heap s2 !! length (query_heap s) = Some resp1) as Hl1.
  { rewrite Hh2, Hh1, <- app_assoc. cbn [app]. by rewrite list_lookup_middle. }
  assert (length (query_heap s1) ≠ length (query_heap s)) as Hneq
    by (rewrite Hh1, length_app; simpl; lia).
  destruct Hf2 as (Hid2 & Hlt2 & Hc2 & _). destruct Hf1 as (_ & _ & Hc1 & _).
  exists s1, (length (query_heap s)), s2, (length (query_heap s1)).
  split; [done|]. split; [done|]. cbv zeta. split_and!.
  - intros resp now'. unfold serf_handle_query_response.
    change (q_ltime q1) with (query_clock s). rewrite Hreg2, Hl2, Hid2. simpl.
    by replace (id2 =? id1) with false by (symmetry; apply Z.eqb_neq; done).
  - unfold close_query. change (q_ltime q1) with (query_clock s). rewrite Hreg2. simpl.
    rewrite list_lookup_alter_ne, Hl1 by done. simpl. by rewrite Hc1.
  - unfold close_query. change (q_ltime q1) with (query_clock s). rewrite Hreg2. simpl.
    rewrite list_lookup_alter_eq, Hl2. simpl. unfold close. by rewrite Hc2.
  - unfold close_query at 1. change (q_ltime q2) with (query_clock s).
    unfold close_query. change (q_ltime q1) with (query_clock s). rewrite Hreg2. simpl.
    by rewrite lookup_delete_eq.
Qed.

(** A reply reaches exactly the response registered under its time, and
    only when the id matches: every other response, and everything else of
    the instance, is untouched. *)
Theorem reply_routed s ltime id resp now h q :
  responses (query_core s) !! ltime = Some h → query_heap s !! h = Some q →
  let '(s', r) := serf_handle_query_response s ltime id (Ok resp) now in
  r = Ok tt ∧
  query_heap s' !! h =
    Some (if qresp_id q =? id then handle_query_response q resp now else q) ∧
  (∀ h', h' ≠ h → query_heap s' !! h' = query_heap s !! h') ∧
  query_core s' = query_core s ∧ event_tx s' = event_tx s ∧ members s' = members s.
Proof.
  intros Hr Hq. unfold serf_handle_query_response. rewrite Hr, Hq.
  destruct (qresp_id q =? id) eqn:E; [|by split_and!]. simpl.
  rewrite list_lookup_insert_eq by (by eapply lookup_lt_Some). split_and!; try done.
  intros h' Hne. by rewrite list_lookup_insert_ne.
Qed.

(** ** Responding *)

(** A query event is answered successfully at most once: the answer goes
    to the source of the query, every later attempt on the event fails, and
    one that reaches the deadline check reports that it was already answered,
    sending nothing. *)
Theorem respond_once s e msg send_ok now rnd s' e' :
  respond s e msg send_ok now rnd = (s', e', Ok tt) →
  (∃ raw rest, encode_message_to_bytes (MQueryResponse
       (mkQueryResponse (qe_ltime e) (qe_id e) (local_node s) 0 msg)) = Ok raw ∧
     sent s' = sent s ++ (address (qe_from e), raw) :: rest) ∧
  ∀ s2 msg2 send_ok2 now2 rnd2, ∃ er,
    respond s2 e' msg2 send_ok2 now2 rnd2 = (s2, e', Err er).
Proof.
  unfold respond. destruct (encode_message_to_bytes _) as [raw|] eqn:Henc; [|done].
  unfold respond_with_message_and_response.
  destruct (check_response_size _ _); [|done]. destruct (qe_span e) as [start|]; [|done].
  destruct (_ <? _); [done|]. destruct (send_ok _); [|done].
  destruct (relay_sent (memberlist_send s (address (qe_from e)) raw) (qe_relay_factor e)
    (local_node s) (mkQueryResponse (qe_ltime e) (qe_id e) (local_node s) 0 msg) rnd)
    as (raw' & relays & Hsent & _).
  destruct (relay_response _ _ _ _ _) as [s1 [|]]; [|done]. intros [= <- <-]. split.
  - exists raw. eexists. split; [done|]. simpl in Hsent. rewrite Hsent, <- app_assoc. done.
  - intros. clear Henc. cbn [clear_span qe_span]. repeat case_match; by eexists.
Qed.

(** The copies of an answer that go through relays are addressed, inside
    their envelope, to the answering node itself. *)
Theorem respond_relays_to_self s e msg send_ok now rnd s' e' :
  respond s e msg send_ok now rnd = (s', e', Ok tt) →
  let resp := mkQueryResponse (qe_ltime e) (qe_id e) (local_node s) 0 msg in
  ∃ raw raw' (relays : list (Member I A)),
    sent s' = sent s ++ (address (qe_from e), raw) ::
                ((λ m, (address (node m), raw')) <$> relays) ∧
    (relays = [] ∨ encode_relay_message_to_bytes resp (local_node s) = Ok raw').
Proof.
  intros Hr resp. revert Hr. unfold respond. fold resp.
  destruct (encode_message_to_bytes _) as [raw|] eqn:Henc; [|done].
  unfold respond_with_message_and_response.
  destruct (check_response_size _ _); [|done]. destruct (qe_span e) as [start|]; [|done].
  destruct (_ <? _); [done|]. destruct (send_ok _); [|done].
  destruct (relay_sent (memberlist_send s (address (qe_from e)) raw) (qe_relay_factor e)
    (local_node s) resp rnd) as (raw' & relays & Hsent & Hre).
  change (r_from resp) with (local_node s).
  destruct (relay_response _ _ _ _ _) as [s1 [|]]; [|done]. intros [= <- <-].
  exists raw, raw', relays. simpl in Hsent. rewrite Hsent, <- app_assoc. split; [done|].
  destruct Hre as [?|[? _]]; auto.
Qed.

End facts.

(** ** The properties at work *)

Section witnesses.
Local Open Scope nat_scope.

Let node1 : Node nat nat := mkNode 1 1.
Let rnd0 : nat → Z := λ _, 5%Z.
Let query_of (t id : Z) : QueryMessage nat nat string :=
  mkQuery t id node1 [FilterId [0; 2]] FLAG_ACK 1%Z 100%Z "uptime" [].
Let ref_of (t id : Z) : QueryMessageRef nat nat :=
  mkQueryRef t id (Ok node1) [Ok (FilterRefId [Ok 0; Ok 2])] FLAG_ACK 1%Z 100%Z "uptime" [].

Lemma sample_ring_ok : ring_ok (sample_serf 0).
Proof.
  split; [unfold is_u64, u64_modulus; simpl; lia|]. split; [simpl; lia|].
  intros i qs Hi. by destruct i as [|[|[|[|i]]]].
Qed.

Lemma query_at_most_once_witness :
  ∃ s1 r s2, handle_query (sample_serf 0) (QLeft (ref_of 3 9)) None 0%Z rnd0 = Done (s1, r) ∧
    run_queries s1 [mkArrival (QRight (query_of 7 1)) None 1%Z rnd0] = Done s2 ∧
    handle_query s2 (QRight (query_of 3 9)) None 2%Z rnd0 = Done (s2, Ok false).
Proof.
  apply query_at_most_once; [apply sample_ring_ok| | |reflexivity|reflexivity];
    repeat constructor; simpl; lia.
Defined.

Lemma filters_agree_witness :
  should_process_query_ref (R := string) (sample_serf 0)
    [Ok (FilterRefId [Ok 0; Ok 2]); Ok (FilterRefTag "role" (Some "web"))] =
  Ok (should_process_query (sample_serf 0) [FilterId [0; 2]; FilterTag "role" (Some "web")]).
Proof.
  apply filters_agree. constructor; [exact (denotes_id [0; 2])|].
  constructor; [|constructor]. apply denotes_expr. reflexivity.
Defined.

(** A cluster of three: node 0 and two live peers. *)
Definition sample_cluster : Serf nat nat :=
  let m i := mkMemberState (mkMember (mkNode i i) [] MemberStatus.Alive PV1 DV1 PV1 DV1) 1%Z None in
  set_members (sample_serf 0)
    (mkMembers (list_to_map [(0, m 0); (1, m 1); (2, m 2)]) ∅ [] []).

Lemma relay_targets_witness :
  ∃ raw relays, sent (relay_response (R := string) sample_cluster 1%Z node1
      (mkQueryResponse 3%Z 9%Z (mkNode 0 0) 0%Z []) rnd0).1 =
    ((λ m : Member nat nat, (address (node m), raw)) <$> relays) ∧ length relays = 1.
Proof.
  destruct (relay_targets (R := string) sample_cluster 1%Z node1
    (mkQueryResponse 3%Z 9%Z (mkNode 0 0) 0%Z []) rnd0) as (raw & relays & Hs & Hl & _).
  - lia.
  - exists raw, relays. split; [exact Hs|]. apply Hl. intros ->. vm_compute in Hs. discriminate.
Defined.

Let params : QueryParam nat string := mkQueryParam [] true 0%Z 100%Z.

Lemma query_registered_witness :
  ∃ s' h, issue_query (sample_serf 0) (build_query (sample_serf 0) "uptime" [] params 9%Z) None 3
      0%Z rnd0 = Done (s', Ok h) ∧ (responses (query_core s') !! 1%Z) = Some h.
Proof.
  destruct (query_registered (sample_serf 0) "uptime" [] params 9%Z [x05; x01; x09] None 3 0%Z rnd0)
    as (s' & h & resp & H1 & _ & H2 & _).
  - apply sample_ring_ok.
  - intros t [h Hh]. vm_compute in Hh. discriminate.
  - unfold regular, u64_modulus. simpl. lia.
  - lia.
  - split; [vm_compute; intros; discriminate|reflexivity].
  - exists s', h. split; [exact H1|exact H2].
Defined.

Lemma concurrent_queries_collide_witness :
  ∃ s1 h1 s2 h2,
    issue_query (sample_serf 0) (build_query (sample_serf 0) "uptime" [] params 9%Z) None 3
      0%Z rnd0 = Done (s1, Ok h1) ∧
    issue_query s1 (build_query (sample_serf 0) "uptime" [] params 4%Z) None 3
      0%Z rnd0 = Done (s2, Ok h2) ∧
    (closed <$> query_heap (close_query s2 1%Z) !! h1) = Some false ∧
    (closed <$> query_heap (close_query s2 1%Z) !! h2) = Some true.
Proof.
  destruct (concurrent_queries_collide (sample_serf 0) "uptime" [] params 9%Z 4%Z [x05; x01; x09]
    [x05; x01; x04] None 3 0%Z rnd0) as (s1 & h1 & s2 & h2 & H1 & H2 & _ & H3 & H4 & _).
  - apply sample_ring_ok.
  - unfold regular, u64_modulus. simpl. lia.
  - lia.
  - discriminate.
  - split; [vm_compute; intros; discriminate|reflexivity].
  - split; [vm_compute; intros; discriminate|reflexivity].
  - exists s1, h1, s2, h2. split; [exact H1|]. split; [exact H2|]. split; [exact H3|exact H4].
Defined.

(** The sample instance waiting for replies to one query. *)
Let waiting : Serf nat nat :=
  set_query_core (set_query_heap (sample_serf 0)
    [mkQR 100%Z 9%Z 1%Z false ∅ ∅ None (mkChannel 3 [] false)])
    (mkQueryCore {[ 1%Z := 0 ]} 0%Z (replicate 4 None)).

Lemma reply_routed_witness :
  (serf_handle_query_response waiting 1%Z 9%Z (Ok (mkQueryResponse 1%Z 9%Z node1 0%Z [x01])) 5%Z).2
  = Ok tt.
Proof.
  pose proof (reply_routed waiting 1%Z 9%Z (mkQueryResponse 1%Z 9%Z node1 0%Z [x01]) 5%Z 0 _
    eq_refl eq_refl) as Hr.
  destruct (serf_handle_query_response _ _ _ _ _) as [s' r]. apply Hr.
Defined.

Let asked : QueryEvent nat nat := mkQueryEvent 3%Z "uptime" [] 100%Z (Some 0%Z) 9%Z node1 1%Z.

Lemma respond_once_witness :
  ∃ s' e', respond sample_cluster asked [x01] (λ _, true) 5%Z rnd0 = (s', e', Ok tt) ∧
    ∃ er, respond s' e' [x01] (λ _, true) 6%Z rnd0 = (s', e', Err er).
Proof.
  eexists _, _. split; [reflexivity|].
  eapply (respond_once sample_cluster asked [x01] (λ _, true) 5%Z rnd0). reflexivity.
Defined.

Lemma respond_relays_to_self_witness :
  ∃ raw raw' relays,
    sent (respond sample_cluster asked [x01] (λ _, true) 5%Z rnd0).1.1 =
      (1, raw) :: ((λ m : Member nat nat, (address (node m), raw')) <$> relays) ∧
    length relays = 1.
Proof.
  destruct (respond_relays_to_self sample_cluster asked [x01] (λ _, true) 5%Z rnd0
    (respond sample_cluster asked [x01] (λ _, true) 5%Z rnd0).1.1
    (respond sample_cluster asked [x01] (λ _, true) 5%Z rnd0).1.2)
    as (raw & raw' & relays & Hs & _); [vm_compute; reflexivity|].
  exists raw, raw', relays. split; [exact Hs|].
  apply (f_equal length) in Hs. rewrite length_app, length_cons, length_fmap in Hs.
  change (length (sent sample_cluster)) with 0 in Hs.
  assert (length (sent (respond sample_cluster asked [x01] (λ _, true) 5%Z rnd0).1.1) = 2) as E
    by (vm_compute; reflexivity).
  lia.
Defined.

End witnesses.
