(* ===== verification/QueryContexts.v ===== *)
(** * The events of a query and their shared context (event.rs)

    A [QueryEvent] and its clones share one context, which holds the deadline
    of the query behind a lock; responding through any of them clears it for
    all.  Query.v has [respond] on an event with its deadline at hand; here
    the deadline is looked up in, and written back to, the store of contexts. *)

From Stdlib Require Import ZArith Lia Strings.Byte.
From stdpp Require Import base list gmap strings.
From S2P Require Import Prelude Clock Coordinate Types Core Sample UserEvents Responses Query QueryFacts.
Local Open Scope serf_scope.
Local Open Scope Z_scope.

Section contexts.
Context {I A R : Type} `{Countable I} `{Countable A} `{!Codec I A R}.
Implicit Types (s : Serf I A) (rnd : nat → Z).

(** Without the instance, which is an argument of the operations. *)
Record QueryContext : Type := mkContext { query_timeout : Z; span : option Z }.

(** A query event as the application holds it: [ctx] is the place of its
    context in the store. *)
Record EventHandle : Type := mkHandle {
  eh_ltime : Z; eh_name : string; eh_payload : bytes; ctx : nat; eh_id : Z; eh_from : Node I A; eh_relay_factor : Z }.
Implicit Types (h : EventHandle) (ctxs : list QueryContext).

Definition create_query_event ctxs (ltime : Z) (name : string) (payload : bytes) (timeout id : Z) (from : Node I A)
    (relay_factor now : Z) : list QueryContext * EventHandle :=
  (ctxs ++ [mkContext timeout (Some now)], mkHandle ltime name payload (length ctxs) id from relay_factor).

(** [Clone]: the context is shared. *)
Definition clone_event h : EventHandle :=
  mkHandle (eh_ltime h) (eh_name h) (eh_payload h) (ctx h) (eh_id h) (eh_from h) (eh_relay_factor h).

(** [PartialEq]: the context is not compared. *)
Definition event_eqb h h' : bool :=
  (eh_id h =? eh_id h') && bool_decide (eh_from h = eh_from h') && (eh_relay_factor h =? eh_relay_factor h') &&
  (eh_ltime h =? eh_ltime h') && bool_decide (eh_name h = eh_name h') && bool_decide (eh_payload h = eh_payload h').

(** The event of Query.v that a handle stands for. *)
Definition view h (c : QueryContext) : QueryEvent I A :=
  mkQueryEvent (eh_ltime h) (eh_name h) (eh_payload h) (query_timeout c) (span c) (eh_id h) (eh_from h)
    (eh_relay_factor h).

(** [QueryEvent::create_response]. *)
Definition create_response s h (buf : bytes) : QueryResponseMessage I A :=
  mkQueryResponse (eh_ltime h) (eh_id h) (local_node s) 0 buf.

(** [QueryEvent::respond] and its counterpart for a message that is already
    encoded; the lock is held from the check of the deadline to its end. *)
Definition respond_through s ctxs h (msg : bytes) (send_ok : A → bool) (now : Z) rnd
  : Serf I A * list QueryContext * Result unit Error :=
  match ctxs !! ctx h with
  | None => (s, ctxs, Err QueryAlreadyResponsed)  (* a handle always has its context *)
  | Some c =>
      let '(s, e, r) := respond (R := R) s (view h c) msg send_ok now rnd in
      (s, <[ctx h := mkContext (query_timeout c) (qe_span e)]> ctxs, r)
  end.

Definition respond_raw_through s ctxs h (raw : bytes) (resp : QueryResponseMessage I A) (send_ok : A → bool) (now : Z) rnd
  : Serf I A * list QueryContext * Result unit Error :=
  match ctxs !! ctx h with
  | None => (s, ctxs, Err QueryAlreadyResponsed)
  | Some c =>
      let '(s, e, r) := respond_with_message_and_response (R := R) s (view h c) raw resp send_ok now rnd in
      (s, <[ctx h := mkContext (query_timeout c) (qe_span e)]> ctxs, r)
  end.

(** ** Any number of clones *)

(** One call: through which handle, with an answer to encode or already
    encoded, and what became of the instance since the call before. *)
Record attempt : Type := mkAttempt {
  at_handle : EventHandle;
  at_answer : bytes + (bytes * QueryResponseMessage I A);
  at_send_ok : A → bool;
  at_now : Z;
  at_rnd : nat → Z;
  at_meanwhile : Serf I A → Serf I A;
}.

Definition attempt_response s ctxs (a : attempt) : Serf I A * list QueryContext * Result unit Error :=
  match at_answer a with
  | inl msg => respond_through s ctxs (at_handle a) msg (at_send_ok a) (at_now a) (at_rnd a)
  | inr (raw, resp) => respond_raw_through s ctxs (at_handle a) raw resp (at_send_ok a) (at_now a) (at_rnd a)
  end.

(** The contexts whose query was answered, in order. *)
Fixpoint answered_contexts s ctxs (l : list attempt) : list nat :=
  match l with
  | [] => []
  | a :: l =>
      let '(s, ctxs, r) := attempt_response (at_meanwhile a s) ctxs a in
      match r with Ok _ => [ctx (at_handle a)] | Err _ => [] end ++ answered_contexts s ctxs l
  end.

(** Success clears the deadline; anything else leaves it. *)
Lemma respond_raw_span s e raw resp send_ok now rnd s' e' r :
  respond_with_message_and_response (R := R) s e raw resp send_ok now rnd = (s', e', r) →
  match r with Ok _ => qe_span e ≠ None ∧ qe_span e' = None | Err _ => qe_span e' = qe_span e end.
Proof.
  unfold respond_with_message_and_response. repeat case_match; intros ?; simplify_eq; try done.
Qed.

Lemma respond_span s e msg send_ok now rnd s' e' r :
  respond (R := R) s e msg send_ok now rnd = (s', e', r) →
  match r with Ok _ => qe_span e ≠ None ∧ qe_span e' = None | Err _ => qe_span e' = qe_span e end.
Proof.
  unfold respond. destruct (encode_message_to_bytes _); [apply respond_raw_span|]. intros ?; by simplify_eq.
Qed.

(** The deadline of a context. *)
Definition open ctxs (k : nat) : Prop := ∃ c, ctxs !! k = Some c ∧ span c ≠ None.

Lemma attempt_effect s ctxs a s' ctxs' r :
  attempt_response s ctxs a = (s', ctxs', r) →
  (∀ k, open ctxs' k → open ctxs k) ∧
  match r with Ok _ => open ctxs (ctx (at_handle a)) ∧ ¬ open ctxs' (ctx (at_handle a)) | Err _ => True end.
Proof.
  set (k0 := ctx (at_handle a)).
  assert (∀ c sp, ctxs !! k0 = Some c → (sp = None ∨ sp = span c) →
    ∀ k, open (<[k0 := mkContext (query_timeout c) sp]> ctxs) k → open ctxs k) as Hkeep.
  { intros c sp Hc Hsp k (x & Hx & Hn). rewrite list_lookup_insert in Hx. case_decide as Hk; [|by exists x].
    destruct Hk as [-> _]. simplify_eq. cbn in Hn. exists c. destruct Hsp as [->| ->]; done. }
  assert (∀ (res : Serf I A * QueryEvent I A * Result unit Error) c, ctxs !! k0 = Some c →
    match res.2 with Ok _ => span c ≠ None ∧ qe_span res.1.2 = None | Err _ => qe_span res.1.2 = span c end →
    (res.1.1, <[k0 := mkContext (query_timeout c) (qe_span res.1.2)]> ctxs, res.2) = (s', ctxs', r) →
    (∀ k, open ctxs' k → open ctxs k) ∧
    match r with Ok _ => open ctxs k0 ∧ ¬ open ctxs' k0 | Err _ => True end) as Hmain.
  { intros [[s1 e1] r1] c Hc Hspan. cbn in *. intros [= <- <- <-]. destruct r1 as [u|er].
    - destruct Hspan as [Ho Hn]. split; [apply Hkeep; auto|]. split; [by exists c|].
      intros (x & Hx & Hxs). rewrite Hn, list_lookup_insert_eq in Hx by (by eapply lookup_lt_Some). by simplify_eq.
    - split; [|done]. apply Hkeep; [done|]. right. congruence. }
  unfold attempt_response, respond_through, respond_raw_through. fold k0.
  destruct (at_answer a) as [msg|[raw resp]], (ctxs !! k0) as [c|] eqn:Hc;
    try (intros [= <- <- <-]; by split).
  - destruct (respond _ _ _ _ _ _) as [[s1 e1] r1] eqn:Hr. apply respond_span in Hr.
    apply (Hmain (s1, e1, r1) c eq_refl Hr).
  - destruct (respond_with_message_and_response _ _ _ _ _ _ _) as [[s1 e1] r1] eqn:Hr. apply respond_raw_span in Hr.
    apply (Hmain (s1, e1, r1) c eq_refl Hr).
Qed.

Lemma answered_open l : ∀ s ctxs k, k ∈ answered_contexts s ctxs l → open ctxs k.
Proof.
  induction l as [|a l IH]; intros s ctxs k; cbn; [by intros ?%not_elem_of_nil|].
  destruct (attempt_response _ ctxs a) as [[s1 ctxs1] r] eqn:Ha. apply attempt_effect in Ha as [Hk Hr].
  intros [Hin|Hin]%elem_of_app; [|by eapply Hk, IH].
  destruct r; [|by apply not_elem_of_nil in Hin]. apply list_elem_of_singleton in Hin as ->. apply Hr.
Qed.

(** C35: A query is answered at most once, through however many clones of its
    event: whatever calls of [respond] are made on the handles of events, in
    whatever order and whatever happens to the instance in between, no context
    sees more than one that succeeds. *)
Theorem answered_once l : ∀ s ctxs, NoDup (answered_contexts s ctxs l).
Proof.
  induction l as [|a l IH]; intros s ctxs; cbn; [constructor|].
  destruct (attempt_response _ ctxs a) as [[s1 ctxs1] r] eqn:Ha. apply attempt_effect in Ha as [_ Hr].
  apply NoDup_app. split; [destruct r; [apply NoDup_singleton|constructor]|]. split; [|apply IH].
  intros k Hk Hl. destruct r; [|by apply not_elem_of_nil in Hk]. apply list_elem_of_singleton in Hk as ->.
  apply Hr. by eapply answered_open.
Qed.

(** ** Equality of events *)

(** Equality says nothing of the context, and clones are equal. *)
Lemma event_eqb_spec h h' : event_eqb h h' = true ↔ ∃ k, h = mkHandle (eh_ltime h') (eh_name h') (eh_payload h') k
  (eh_id h') (eh_from h') (eh_relay_factor h').
Proof.
  unfold event_eqb. rewrite !andb_true_iff, !Z.eqb_eq, !bool_decide_eq_true. destruct h as [t n p c i f r]. cbn.
  split; [intros (((((-> & ->) & ->) & ->) & ->) & ->); by exists c|]. intros [k [= -> -> -> -> -> -> ->]]. done.
Qed.

Lemma clone_shares h : event_eqb (clone_event h) h = true ∧ ctx (clone_event h) = ctx h.
Proof. split; [apply event_eqb_spec; by eexists|done]. Qed.

(** The event made for a query is the one of Query.v, with its own context. *)
Lemma created_view ctxs ltime name payload timeout id from rf now ctxs' h :
  create_query_event ctxs ltime name payload timeout id from rf now = (ctxs', h) →
  (∃ c, ctxs' !! ctx h = Some c ∧ view h c = query_event ltime name payload timeout id from rf now) ∧
  (∀ k, open ctxs k → k ≠ ctx h ∧ open ctxs' k).
Proof.
  intros [= <- <-]. split.
  - exists (mkContext timeout (Some now)). split; [|done]. cbn. by rewrite list_lookup_middle.
  - intros k (c & Hc & Ho). apply lookup_lt_Some in Hc as Hl. split; [cbn; lia|].
    exists c. split; [|done]. by apply lookup_app_l_Some.
Qed.

End contexts.

(** Two clones and three calls: the first call comes too late for its own
    deadline, the second succeeds, the third finds the query answered. *)
Lemma answered_once_example :
  let '(ctxs, h) := create_query_event [] 3 "uptime" [] 100 7 (mkNode 0%nat 0%nat) 0 50 in
  let call h now := mkAttempt h (inl [x01]) (λ _, true) now (λ _, 0) (λ s, s) in
  answered_contexts (sample_serf 1) ctxs [call h 200; call (clone_event h) 60; call h 70] = [0%nat].
Proof. vm_compute. reflexivity. Qed.
