(* ===== verification/Coalesce.v ===== *)
(** * Event coalescing (serf-core/src/coalesce.rs, coalesce/member.rs, coalesce/user.rs)

    [Coalescer] is the trait that the loop is generic over; the member and
    the user coalescer are its two implementations.  [loop_step] is one
    iteration of the [select!] of [coalesce_loop]: the branch that wins, and
    which of the two timer blocks had been polled before it, since a polled
    block has taken its timer out of the loop's variables. *)

From Stdlib Require Import ZArith Lia Strings.Byte.
From stdpp Require Import base list gmap strings.
From S2P Require Import Prelude Clock Coordinate Types.
Local Open Scope Z_scope.

(** The trait: which events a coalescer takes, how it takes one, and what a
    flush sends, in order. *)
Class Coalescer (C E : Type) : Type := {
  handle : C → E → bool;
  coalesce : C → E → C;
  flush : C → list E * C;
}.

(** ** Member events *)

Section member.
Context {I A : Type} `{Countable I} `{Countable A}.

Record CoalesceEvent : Type := mkCoalesceEvent { ce_ty : MemberEventType.t; ce_member : Member I A }.

Record MemberEventCoalescer : Type := mkMemberCoalescer {
  last_events : gmap (Node I A) MemberEventType.t;
  latest_events : gmap (Node I A) CoalesceEvent;
}.
Implicit Types (c : MemberEventCoalescer) (ev : CrateEvent I A).

Definition new_member_coalescer : MemberEventCoalescer := mkMemberCoalescer ∅ ∅.

Definition member_handle c ev : bool := match ev with EvMember _ => true | _ => false end.

Definition insert_latest (ty : MemberEventType.t) c (m : Member I A) : MemberEventCoalescer :=
  mkMemberCoalescer (last_events c) (<[node m := mkCoalesceEvent ty m]> (latest_events c)).

(** The loop only passes member events. *)
Definition member_coalesce c ev : MemberEventCoalescer :=
  match ev with
  | EvMember e => foldl (insert_latest (me_ty e)) c (me_members e)
  | _ => c
  end.

(** [events.entry(ty)]: push onto the event of this type, or start one. *)
Fixpoint add_event (ty : MemberEventType.t) (m : Member I A) (evs : list (MemberEvent I A))
  : list (MemberEvent I A) :=
  match evs with
  | [] => [mkMemberEvent ty [m]]
  | e :: evs =>
      if decide (me_ty e = ty) then mkMemberEvent ty (me_members e ++ [m]) :: evs
      else e :: add_event ty m evs
  end.

(** A repeated type is dropped, except updates. *)
Definition repeats (last : gmap (Node I A) MemberEventType.t) (n : Node I A)
    (ty : MemberEventType.t) : bool :=
  bool_decide (last !! n = Some ty ∧ ty ≠ MemberEventType.Update).

Definition flush_one (acc : gmap (Node I A) MemberEventType.t * list (MemberEvent I A))
    (p : Node I A * CoalesceEvent) :=
  let '(last, evs) := acc in
  let '(id, cev) := p in
  if repeats last id (ce_ty cev) then (last, evs)
  else (<[id := ce_ty cev]> last, add_event (ce_ty cev) (ce_member cev) evs).

Definition member_flush c : list (CrateEvent I A) * MemberEventCoalescer :=
  let '(last, evs) := foldl flush_one (last_events c, []) (map_to_list (latest_events c)) in
  (EvMember <$> evs, mkMemberCoalescer last ∅).

#[export] Instance member_coalescer : Coalescer MemberEventCoalescer (CrateEvent I A) := {|
  handle := member_handle; coalesce := member_coalesce; flush := member_flush |}.

(** [m] is reported with type [ty]. *)
Definition reports (evs : list (MemberEvent I A)) (ty : MemberEventType.t) (m : Member I A) : Prop :=
  ∃ e, e ∈ evs ∧ me_ty e = ty ∧ m ∈ me_members e.

Lemma add_event_reports ty m evs ty' m' :
  reports (add_event ty m evs) ty' m' ↔ reports evs ty' m' ∨ (ty' = ty ∧ m' = m).
Proof.
  unfold reports. induction evs as [|e evs IH]; simpl.
  { setoid_rewrite list_elem_of_singleton. split.
    - intros (e & -> & <- & Hm). right. simpl in *. by apply list_elem_of_singleton in Hm.
    - intros [(e & He & _)|[-> ->]]; [by apply not_elem_of_nil in He|].
      eexists. split_and!; [done..|]. by apply list_elem_of_singleton. }
  case_decide as E; setoid_rewrite elem_of_cons.
  - split.
    + intros (e' & [->|He'] & <- & Hm); simpl in *.
      * apply elem_of_app in Hm as [Hm|Hm%list_elem_of_singleton]; [left|by right]. eauto.
      * left. eauto.
    + intros [(e' & [->|He'] & <- & Hm)|[-> ->]].
      * eexists. split_and!; [by left|done|]. simpl. apply elem_of_app. by left.
      * eauto.
      * eexists. split_and!; [by left|done|]. simpl. apply elem_of_app. right.
        by apply list_elem_of_singleton.
  - split.
    + intros (e' & [->|He'] & <- & Hm); [left; eauto|].
      destruct (proj1 IH) as [(e2 & He2 & <- & Hm2)|?]; [eauto|left; eauto|by right].
    + intros [(e' & [->|He'] & <- & Hm)|Hd]; [eauto| |].
      * destruct (proj2 IH) as (e2 & He2 & ? & Hm2); [left; eauto|eauto].
      * destruct (proj2 IH) as (e2 & He2 & ? & Hm2); [by right|eauto].
Qed.

Lemma add_event_types ty m evs :
  NoDup (me_ty <$> evs) → NoDup (me_ty <$> add_event ty m evs) ∧
  (∀ t, t ∈ me_ty <$> add_event ty m evs ↔ t ∈ me_ty <$> evs ∨ t = ty).
Proof.
  induction evs as [|e evs IH]; intros Hnd.
  { split; [apply NoDup_singleton|]. intros t. simpl. rewrite list_elem_of_singleton.
    split; [by right|intros [Ht|?]; [by apply not_elem_of_nil in Ht|done]]. }
  rewrite fmap_cons in Hnd. apply NoDup_cons in Hnd as [Hn Hnd]. cbn [add_event].
  case_decide as E; rewrite fmap_cons.
  - cbn [me_ty]. split; [apply NoDup_cons; by subst|]. intros t.
    rewrite fmap_cons, !elem_of_cons, E. tauto.
  - destruct (IH Hnd) as [Hnd' Hin]. split.
    + apply NoDup_cons. rewrite Hin. split; [|done]. intros [?|?]; congruence.
    + intros t. rewrite fmap_cons, !elem_of_cons, Hin. tauto.
Qed.

(** What the fold over the drained map has done so far. *)
Lemma flush_fold last l :
  NoDup l.*1 →
  let '(last', evs) := foldl flush_one (last, []) l in
  NoDup (me_ty <$> evs) ∧
  (∀ n, last' !! n = match list_to_map (M := gmap (Node I A) CoalesceEvent) l !! n with
                     | Some cev => Some (ce_ty cev) | None => last !! n end) ∧
  (∀ ty m, reports evs ty m ↔
     ∃ n, (n, mkCoalesceEvent ty m) ∈ l ∧ repeats last n ty = false).
Proof.
  induction l as [|[n cev] l IH] using rev_ind; intros Hnd; simpl.
  { split_and!; [apply NoDup_nil_2|done|]. intros ty m. split.
    - intros (e & He & _). by apply not_elem_of_nil in He.
    - intros (n & Hn & _). by apply not_elem_of_nil in Hn. }
  rewrite foldl_app. rewrite fmap_app in Hnd. apply NoDup_app in Hnd as (Hnd & Hn & _).
  assert (n ∉ l.*1) as Hnl by (intros Hin; apply (Hn n Hin); by apply list_elem_of_singleton).
  specialize (IH Hnd). destruct (foldl flush_one (last, []) l) as [last' evs].
  destruct IH as (IHnd & IHlast & IHrep). cbn [foldl flush_one].
  assert (last' !! n = last !! n) as Hln.
  { rewrite IHlast. by rewrite not_elem_of_list_to_map_1. }
  assert (∀ k, list_to_map (M := gmap (Node I A) CoalesceEvent) (l ++ [(n, cev)]) !! k =
    if decide (k = n) then Some cev else list_to_map (M := gmap (Node I A) CoalesceEvent) l !! k)
    as Hmap.
  { intros k. rewrite list_to_map_app. case_decide as E.
    - subst k. rewrite lookup_union_r by by apply not_elem_of_list_to_map_1.
      simpl. by rewrite lookup_insert_eq.
    - destruct (list_to_map l !! k) eqn:El; [by apply lookup_union_Some_l|].
      rewrite lookup_union_r by done. simpl. by rewrite lookup_insert_ne, lookup_empty. }
  assert (repeats last' n (ce_ty cev) = repeats last n (ce_ty cev)) as Hrep
    by (unfold repeats; by rewrite Hln).
  rewrite Hrep. destruct (repeats last n (ce_ty cev)) eqn:Er.
  - split_and!; [done| |].
    + intros k. rewrite Hmap, IHlast. case_decide as E; [|done]. subst k.
      rewrite not_elem_of_list_to_map_1 by done.
      unfold repeats in Er. bool_to_prop. by destruct Er as [-> _].
    + intros ty m. rewrite IHrep. split; intros (k & Hk & Hr); exists k; (split; [|done]).
      * apply elem_of_app. by left.
      * apply elem_of_app in Hk as [?|Hk]; [done|]. apply list_elem_of_singleton in Hk.
        simplify_eq. simpl in Er. congruence.
  - destruct (add_event_types (ce_ty cev) (ce_member cev) evs IHnd) as [Hnd' _].
    split_and!; [done| |].
    + intros k. rewrite Hmap, lookup_insert. case_decide as E; case_decide; try congruence.
      by rewrite IHlast.
    + intros ty m. rewrite add_event_reports, IHrep. split.
      * intros [(k & Hk & Hr)|[-> ->]].
        -- exists k. rewrite elem_of_app. by auto.
        -- exists n. rewrite elem_of_app, list_elem_of_singleton. destruct cev; auto.
      * intros (k & Hk & Hr). apply elem_of_app in Hk as [?|Hk]; [eauto|].
        apply list_elem_of_singleton in Hk. simplify_eq. by right.
Qed.

(** The last type a stream of member events gives a node. *)
Definition final_type (n : Node I A) (evs : list (MemberEvent I A)) : option CoalesceEvent :=
  foldl (λ acc e, foldl (λ acc m, if decide (node m = n)
     then Some (mkCoalesceEvent (me_ty e) m) else acc) acc (me_members e)) None evs.

Lemma insert_latest_all ty ms n : ∀ c,
  latest_events (foldl (insert_latest ty) c ms) !! n =
    foldl (λ acc m, if decide (node m = n) then Some (mkCoalesceEvent ty m) else acc)
      (latest_events c !! n) ms.
Proof.
  induction ms as [|m ms IH]; intros c; [done|]. simpl. rewrite (IH (insert_latest ty c m)).
  simpl. rewrite lookup_insert. by repeat case_decide.
Qed.

Lemma insert_latest_last ty ms : ∀ c,
  last_events (foldl (insert_latest ty) c ms) = last_events c.
Proof. induction ms as [|m ms IH]; intros c; [done|]. simpl. by rewrite IH. Qed.

Lemma coalesce_all (evs : list (MemberEvent I A)) n : ∀ c,
  latest_events (foldl coalesce c (EvMember <$> evs)) !! n =
    foldl (λ acc e, foldl (λ acc m, if decide (node m = n)
      then Some (mkCoalesceEvent (me_ty e) m) else acc) acc (me_members e))
      (latest_events c !! n) evs.
Proof.
  induction evs as [|e evs IH]; intros c; [done|]. rewrite fmap_cons. cbn [foldl].
  rewrite (IH (coalesce c (EvMember e))). cbn [coalesce member_coalescer member_coalesce].
  by rewrite insert_latest_all.
Qed.

Lemma coalesce_last (evs : list (MemberEvent I A)) : ∀ c,
  last_events (foldl coalesce c (EvMember <$> evs)) = last_events c.
Proof.
  induction evs as [|e evs IH]; intros c; [done|]. rewrite fmap_cons. cbn [foldl].
  rewrite IH. apply insert_latest_last.
Qed.

(** C28: What a flush of the member coalescer sends for a stream of member
    events since the previous flush: at most one event per type; a member is
    reported, with the last type and the last data the stream gave its node,
    unless the previous report about the node had that very type (updates are
    always reported); and nothing else is.  Afterwards the coalescer remembers
    exactly the last type of every node. *)
Theorem member_flush_reports (last : gmap (Node I A) MemberEventType.t) (evs : list (MemberEvent I A)) :
  let c := foldl coalesce (mkMemberCoalescer last ∅) (EvMember <$> evs) in
  let '(out, c') := flush c in
  ∃ sentevs, out = EvMember <$> sentevs ∧ NoDup (me_ty <$> sentevs) ∧
    (∀ ty m, reports sentevs ty m ↔
       ∃ n, final_type n evs = Some (mkCoalesceEvent ty m) ∧ repeats last n ty = false) ∧
    (∀ n, last_events c' !! n = match final_type n evs with
                                | Some cev => Some (ce_ty cev) | None => last !! n end) ∧
    latest_events c' = ∅.
Proof.
  intros c. cbn [flush member_coalescer]. unfold member_flush.
  assert (∀ n, latest_events c !! n = final_type n evs) as Hlatest
    by (intros n; apply coalesce_all).
  assert (last_events c = last) as -> by apply coalesce_last.
  pose proof (flush_fold last (map_to_list (latest_events c))
    (NoDup_fst_map_to_list (latest_events c))) as Hf.
  destruct (foldl flush_one _ _) as [last' sentevs]. destruct Hf as (Hnd & Hlast & Hrep).
  exists sentevs. split_and!; try done.
  - intros ty m. rewrite Hrep. setoid_rewrite elem_of_map_to_list. by setoid_rewrite Hlatest.
  - intros n. cbn [last_events]. by rewrite Hlast, list_to_map_to_list, Hlatest.
Qed.

End member.

(** ** User events *)

Record LatestUserEvents : Type := mkLatest { lu_ltime : Z; lu_events : list UserEventMessage }.

(** [IndexMap<SmolStr, LatestUserEvents>], in insertion order. *)
Abbreviation UserEventCoalescer := (list (string * LatestUserEvents)) (only parsing).

Section user.
Context {I A : Type}.
Implicit Types (c : UserEventCoalescer) (e : UserEventMessage).

Definition new_user_coalescer : UserEventCoalescer := [].

Definition user_handle c (ev : CrateEvent I A) : bool :=
  match ev with EvUser e => cc e | _ => false end.

Definition update_latest (l : LatestUserEvents) e : LatestUserEvents :=
  if lu_ltime l <? uem_ltime e then mkLatest (uem_ltime e) [e]
  else if lu_ltime l =? uem_ltime e then mkLatest (lu_ltime l) (lu_events l ++ [e])
  else l.

Fixpoint coalesce_user c e : UserEventCoalescer :=
  match c with
  | [] => [(uem_name e, mkLatest (uem_ltime e) [e])]
  | (n, l) :: c =>
      if decide (n = uem_name e) then (n, update_latest l e) :: c
      else (n, l) :: coalesce_user c e
  end.

Definition user_coalesce c (ev : CrateEvent I A) : UserEventCoalescer :=
  match ev with EvUser e => coalesce_user c e | _ => c end.

Definition user_flush c : list (CrateEvent I A) * UserEventCoalescer :=
  (EvUser <$> concat ((λ p, lu_events p.2) <$> c), []).

#[export] Instance user_coalescer : Coalescer UserEventCoalescer (CrateEvent I A) := {|
  handle := user_handle; coalesce := user_coalesce; flush := user_flush |}.

(** The events of one name that a list of events leaves as the newest. *)
Definition newest (n : string) (es : list UserEventMessage) : list UserEventMessage :=
  let mine := filter (λ e, uem_name e = n) es in
  filter (λ e, Forall (λ e', uem_ltime e' <= uem_ltime e) mine) mine.

Definition entry c (n : string) : option LatestUserEvents :=
  match list_find (λ p, p.1 = n) c with Some (_, (_, l)) => Some l | None => None end.

Lemma entry_cons n l c k :
  entry ((n, l) :: c) k = if decide (n = k) then Some l else entry c k.
Proof.
  unfold entry. simpl. case_decide as E; simpl; [done|].
  by destruct (list_find _ c) as [[i [n' l']]|].
Qed.

Lemma entry_coalesce c e k :
  entry (coalesce_user c e) k =
  if decide (uem_name e = k) then
    Some match entry c k with
         | Some l => update_latest l e | None => mkLatest (uem_ltime e) [e] end
  else entry c k.
Proof.
  induction c as [|[n l] c IH]; cbn [coalesce_user].
  { rewrite entry_cons. by case_decide. }
  destruct (decide (n = uem_name e)) as [->|E]; rewrite !entry_cons, ?IH;
    repeat case_decide; subst; done || congruence.
Qed.

Lemma keys_coalesce c e : NoDup c.*1 → NoDup (coalesce_user c e).*1 ∧
  ∀ k, k ∈ (coalesce_user c e).*1 ↔ k ∈ c.*1 ∨ k = uem_name e.
Proof.
  induction c as [|[n l] c IH]; intros Hnd; cbn [coalesce_user].
  { split; [apply NoDup_singleton|]. intros k. simpl. rewrite list_elem_of_singleton.
    split; [by right|intros [Hk|?]; [by apply not_elem_of_nil in Hk|done]]. }
  rewrite fmap_cons in Hnd. apply NoDup_cons in Hnd as [Hn Hnd]. simpl in Hn.
  case_decide as E; rewrite fmap_cons; cbn [fst].
  - split; [by apply NoDup_cons|]. intros k. rewrite fmap_cons, !elem_of_cons, <- E. simpl. tauto.
  - destruct (IH Hnd) as [Hnd' Hk]. split.
    + apply NoDup_cons. rewrite Hk. split; [|done]. by intros [?|?].
    + intros k. rewrite fmap_cons, !elem_of_cons, Hk. simpl. tauto.
Qed.

(** The state after coalescing [es] from an empty coalescer. *)
Record latest_of (es : list UserEventMessage) c : Prop := {
  lo_keys : NoDup c.*1;
  lo_entry : ∀ n, match entry c n with
    | None => filter (λ e, uem_name e = n) es = []
    | Some l => lu_events l = newest n es ∧ lu_events l ≠ [] ∧
        Forall (λ e, uem_ltime e = lu_ltime l) (lu_events l) ∧
        Forall (λ e, uem_ltime e <= lu_ltime l) (filter (λ e, uem_name e = n) es)
    end;
}.

Lemma filter_all {T} (P : T → Prop) `{∀ x, Decision (P x)} (l : list T) :
  Forall P l → filter P l = l.
Proof. intros Hl. apply list_filter_false. by apply Forall_forall. Qed.

Lemma filter_none {T} (P : T → Prop) `{∀ x, Decision (P x)} (l : list T) :
  Forall (λ x, ¬ P x) l → filter P l = [].
Proof. induction 1 as [|x l Hx Hl IH]; [done|]. by rewrite filter_cons_False. Qed.

Lemma newest_other n es e : uem_name e ≠ n → newest n (es ++ [e]) = newest n es.
Proof.
  intros Hn. unfold newest. rewrite filter_app, (filter_cons_False _ e []) by done. simpl.
  rewrite filter_nil, app_nil_r. done.
Qed.

(** Adding an event of the name: the newest are the old ones, the new one, or
    both, by its time against theirs. *)
Lemma newest_snoc n es e t :
  uem_name e = n → newest n es ≠ [] →
  Forall (λ x, uem_ltime x = t) (newest n es) →
  Forall (λ x, uem_ltime x <= t) (filter (λ x, uem_name x = n) es) →
  newest n (es ++ [e]) =
    if t <? uem_ltime e then [e] else if t =? uem_ltime e then newest n es ++ [e]
    else newest n es.
Proof.
  intros Hn Hne Ht Hle. unfold newest in *.
  rewrite filter_app, (filter_cons_True _ e []), filter_nil by done.
  set (mine := filter (λ x, uem_name x = n) es) in *. rewrite filter_app.
  assert (∃ x0, x0 ∈ mine ∧ uem_ltime x0 = t) as (x0 & Hx0 & Ex0).
  { destruct (filter _ mine) as [|x0 l] eqn:El; [done|]. exists x0.
    apply Forall_cons in Ht as [Hx0 _]. split; [|done].
    assert (x0 ∈ x0 :: l) as Hin by (by apply elem_of_cons; left).
    rewrite <- El in Hin. by apply list_elem_of_filter in Hin as [_ ?]. }
  rewrite Forall_forall in Hle.
  assert (∀ x, Forall (λ e', uem_ltime e' <= uem_ltime x) (mine ++ [e]) ↔
               Forall (λ e', uem_ltime e' <= uem_ltime x) mine ∧ uem_ltime e <= uem_ltime x) as Hsplit
    by (intros x; by rewrite Forall_app, Forall_singleton).
  assert (∀ x, Forall (λ e', uem_ltime e' <= uem_ltime x) mine → t <= uem_ltime x) as Hmax
    by (intros x Hx; rewrite Forall_forall in Hx; rewrite <- Ex0; by apply Hx).
  assert (filter (λ x, Forall (λ e', uem_ltime e' <= uem_ltime x) (mine ++ [e])) [e] =
          if t <=? uem_ltime e then [e] else []) as ->.
  { destruct (t <=? uem_ltime e) eqn:E; bool_to_prop.
    - rewrite filter_cons_True; [done|]. apply Hsplit. split; [|lia]. apply Forall_forall. intros x Hx.
      specialize (Hle x Hx). simpl in Hle. lia.
    - rewrite filter_cons_False; [done|]. intros [Hx _]%Hsplit. apply Hmax in Hx. lia. }
  destruct (t <? uem_ltime e) eqn:E1; bool_to_prop.
  - rewrite (proj2 (Z.leb_le t (uem_ltime e))) by lia. rewrite filter_none; [done|].
    apply Forall_forall. intros x Hx [_ Hex]%Hsplit. specialize (Hle x Hx). simpl in Hle. lia.
  - assert (filter (λ x, Forall (λ e', uem_ltime e' <= uem_ltime x) (mine ++ [e])) mine =
            filter (λ x, Forall (λ e', uem_ltime e' <= uem_ltime x) mine) mine) as ->.
    { apply list_filter_iff. intros x. rewrite Hsplit. split; [tauto|]. intros Hx. split; [done|].
      apply Hmax in Hx. lia. }
    destruct (t =? uem_ltime e) eqn:E2; bool_to_prop.
    + by rewrite (proj2 (Z.leb_le t (uem_ltime e))) by lia.
    + rewrite (proj2 (Z.leb_gt t (uem_ltime e))) by lia. by rewrite app_nil_r.
Qed.

Lemma newest_first n es e :
  filter (λ x, uem_name x = n) es = [] → uem_name e = n → newest n (es ++ [e]) = [e].
Proof.
  intros Hes Hn. unfold newest. rewrite filter_app, Hes, (filter_cons_True _ e []), filter_nil by done.
  simpl. rewrite filter_cons_True; [by rewrite filter_nil|]. by apply Forall_singleton.
Qed.

Lemma latest_of_snoc es c e : latest_of es c → latest_of (es ++ [e]) (coalesce_user c e).
Proof.
  intros [Hk He]. split; [by apply keys_coalesce|]. intros n. rewrite entry_coalesce.
  specialize (He n). rewrite filter_app. case_decide as Hn.
  - rewrite (filter_cons_True _ e []), filter_nil by done.
    destruct (entry c n) as [l|].
    + destruct He as (Hev & Hne & Ht & Hle). rewrite Hev in Hne, Ht.
      rewrite (newest_snoc n es e (lu_ltime l) Hn Hne Ht Hle). unfold update_latest.
      destruct (lu_ltime l <? uem_ltime e) eqn:E1; bool_to_prop; [|destruct (_ =? _) eqn:E2; bool_to_prop];
        simpl; rewrite ?Hev; (split; [done|]); (split; [try done; by intros []%app_nil|]); split.
      * by apply Forall_singleton.
      * apply Forall_app. split; [|by apply Forall_singleton].
        eapply Forall_impl; [exact Hle|]. simpl. lia.
      * apply Forall_app. split; [done|by apply Forall_singleton].
      * apply Forall_app. split; [done|]. apply Forall_singleton. lia.
      * done.
      * apply Forall_app. split; [done|]. apply Forall_singleton. lia.
    + rewrite (newest_first n es e He Hn). simpl. rewrite He. simpl.
      split_and!; [done|done|by apply Forall_singleton..].
  - rewrite (filter_cons_False _ e []), filter_nil, app_nil_r by done.
    by rewrite newest_other.
Qed.

Lemma latest_of_all es : latest_of es (foldl coalesce_user [] es).
Proof.
  induction es as [|e es IH] using rev_ind; [by split; [apply NoDup_nil_2|]|].
  rewrite foldl_app. by apply latest_of_snoc.
Qed.

Lemma newest_name n es : Forall (λ e, uem_name e = n) (newest n es).
Proof.
  apply Forall_forall. intros e [_ Hin]%list_elem_of_filter.
  by apply list_elem_of_filter in Hin as [? _].
Qed.

Lemma flush_entry c n :
  NoDup c.*1 → (∀ k l, entry c k = Some l → Forall (λ e, uem_name e = k) (lu_events l)) →
  filter (λ e, uem_name e = n) (concat ((λ p, lu_events p.2) <$> c)) =
  match entry c n with Some l => lu_events l | None => [] end.
Proof.
  induction c as [|[k l] c IH]; intros Hnd Hok; [done|].
  rewrite fmap_cons in Hnd. apply NoDup_cons in Hnd as [Hk Hnd]. simpl in Hk.
  rewrite fmap_cons. cbn [concat snd]. rewrite filter_app, entry_cons.
  assert (Forall (λ e, uem_name e = k) (lu_events l)) as Hl.
  { apply Hok. rewrite entry_cons. by rewrite decide_True. }
  rewrite IH; [|done|].
  2:{ intros k' l' Hk'. apply Hok. rewrite entry_cons. case_decide as E; [|done]. subst k'.
      exfalso. apply Hk. unfold entry in Hk'.
      destruct (list_find _ c) as [[i [k2 l2]]|] eqn:Ef; [|done].
      apply list_find_Some in Ef as (Hi & Hp & _). simpl in Hp. subst k2.
      apply list_elem_of_fmap. exists (k, l2). split; [done|]. by eapply list_elem_of_lookup_2. }
  case_decide as E.
  - subst k. rewrite filter_all by done.
    assert (entry c n = None) as ->; [|by rewrite app_nil_r].
    unfold entry. destruct (list_find _ c) as [[i [k2 l2]]|] eqn:Ef; [|done].
    apply list_find_Some in Ef as (Hi & Hp & _). simpl in Hp. subst k2.
    exfalso. apply Hk. apply list_elem_of_fmap. exists (n, l2). split; [done|].
    by eapply list_elem_of_lookup_2.
  - rewrite filter_none; [done|]. eapply Forall_impl; [exact Hl|]. simpl. congruence.
Qed.

(** C31: What the user coalescer flushes for a sequence of user events since
    the previous flush: for every name exactly the events of that name with
    the greatest Lamport time, in the order they arrived; older ones are
    superseded.  Afterwards it is empty. *)
Theorem user_flush_newest (es : list UserEventMessage) :
  let c := foldl coalesce new_user_coalescer ((EvUser <$> es) : list (CrateEvent I A)) in
  let '(out, c') := flush c in
  c' = new_user_coalescer ∧
  ∃ sentevs, out = EvUser <$> sentevs ∧
    ∀ n, filter (λ e, uem_name e = n) sentevs = newest n es.
Proof.
  intros c. cbn [flush user_coalescer]. unfold user_flush. split; [done|].
  eexists. split; [done|]. intros n.
  assert (c = foldl coalesce_user [] es) as ->.
  { unfold c, new_user_coalescer. generalize ([] : UserEventCoalescer). clear c.
    induction es as [|e es IH]; intros c; [done|]. apply IH. }
  destruct (latest_of_all es) as [Hk He]. rewrite flush_entry; [|done|].
  - specialize (He n). destruct (entry _ n); [by destruct He|].
    unfold newest. by rewrite He.
  - intros k l Hl. specialize (He k). rewrite Hl in He. destruct He as (-> & _).
    apply newest_name.
Qed.

End user.

(** ** The loop *)

Section coalesce_loop.
Context {C E : Type} `{!Coalescer C E} (coalesce_period quiescent_period : Z).

(** The loop's variables; timers are deadlines.  [out] is what it has sent,
    [running] is false once it has returned. *)
Record lstate : Type := mkLState {
  coalescer : C; quantum : option Z; quiescent : option Z; shutdown : bool;
  out : list E; running : bool }.
Implicit Types st : lstate.

Inductive branch : Type :=
| BEvent (e : E)
| BInClosed
| BQuantum
| BQuiescent
| BShutdown.

(** What the out channel takes of [evs], and whether every send succeeds:
    [None] when it is open throughout, [Some n] when it is closed after [n]
    more events.  Nothing is noticed when there is nothing to send. *)
Definition send_all (accepts : option nat) (evs : list E) : list E * bool :=
  match accepts with
  | None => (evs, true)
  | Some n => (take n evs, (length evs <=? n)%nat)
  end.

(** One iteration at time [now].  [tq] and [tz] tell whether the quantum and
    the quiescent block were polled before the winning branch.  A flush
    drains the coalescer whether or not its events can be sent.  [None] when
    the branch is not ready. *)
Definition loop_step (now : Z) (tq tz : bool) (accepts : option nat) (b : branch) st
  : option lstate :=
  let q := if tq then None else quantum st in
  let z := if tz then None else quiescent st in
  let fire (timer : option Z) :=
    match timer with
    | Some d =>
        if d <=? now then
          let '(evs, c) := flush (coalescer st) in
          let '(sent, ok) := send_all accepts evs in
          if ok then Some (mkLState c None None (shutdown st) (out st ++ sent) (negb (shutdown st)))
          else Some (mkLState c q z (shutdown st) (out st ++ sent) false)
        else None
    | None => None
    end in
  if running st then
    match b with
    | BInClosed => Some (mkLState (coalescer st) q z (shutdown st) (out st) false)
    | BEvent e =>
        if handle (coalescer st) e then
          Some (mkLState (coalesce (coalescer st) e)
                  (match q with None => Some (now + coalesce_period) | Some d => Some d end)
                  (Some (now + quiescent_period)) (shutdown st) (out st) true)
        else
          let '(sent, ok) := send_all accepts [e] in
          Some (mkLState (coalescer st) q z (shutdown st) (out st ++ sent) ok)
    | BQuantum => fire (quantum st)
    | BQuiescent => fire (quiescent st)
    | BShutdown => Some (mkLState (coalescer st) q z true (out st) true)
    end
  else None.

Definition start (c : C) : lstate := mkLState c None None false [] true.

(** An event with the time it arrives at and what had been polled then. *)
Record incoming : Type := mkIncoming { in_time : Z; in_tq : bool; in_tz : bool; in_event : E }.

(** Events arriving one after another, with no timer firing in between. *)
Fixpoint feed st (evs : list incoming) : option lstate :=
  match evs with
  | [] => Some st
  | x :: evs =>
      loop_step (in_time x) (in_tq x) (in_tz x) None (BEvent (in_event x)) st ≫= λ st, feed st evs
  end.

Lemma feed_app evs evs' st st' :
  feed st evs = Some st' → feed st (evs ++ evs') = feed st' evs'.
Proof.
  revert st. induction evs as [|x evs IH]; intros st Hf; simpl in *; [by simplify_eq|].
  destruct (loop_step _ _ _ _ _ _); [|done]. by apply IH.
Qed.

(** The events from the last one that found the block polled on. *)
Definition since (polled : incoming → bool) (evs : list incoming) : list incoming :=
  foldl (λ w x, if polled x then [x] else w ++ [x]) [] evs.

Lemma since_snoc polled evs x :
  since polled (evs ++ [x]) = if polled x then [x] else since polled evs ++ [x].
Proof. unfold since. by rewrite foldl_app. Qed.

Section arrivals.
Context (h : E → bool) (handle_h : ∀ c e, handle c e = h e).
Abbreviation takes := (λ x, h (in_event x) = true).

(** When the timers ring: the quantum runs from the first event taken since
    its block was last polled, the quiescent timer from the latest. *)
Definition quantum_due (evs : list incoming) : option Z :=
  (λ x, in_time x + coalesce_period) <$> head (filter takes (since in_tq evs)).
Definition quiescent_due (evs : list incoming) : option Z :=
  (λ x, in_time x + quiescent_period) <$> last (filter takes (since in_tz evs)).

Lemma quantum_due_snoc evs x :
  quantum_due (evs ++ [x]) =
  let q := if in_tq x then None else quantum_due evs in
  if h (in_event x) then Some (default (in_time x + coalesce_period) q) else q.
Proof.
  unfold quantum_due. rewrite since_snoc. destruct (in_tq x).
  - rewrite filter_cons, filter_nil. case_decide as Hx; [by rewrite Hx|].
    by apply not_true_is_false in Hx as ->.
  - rewrite filter_app, filter_cons, filter_nil. case_decide as Hx.
    + rewrite Hx. by destruct (filter _ (since _ _)).
    + apply not_true_is_false in Hx as ->. by rewrite app_nil_r.
Qed.

Lemma quiescent_due_snoc evs x :
  quiescent_due (evs ++ [x]) =
  if h (in_event x) then Some (in_time x + quiescent_period)
  else if in_tz x then None else quiescent_due evs.
Proof.
  unfold quiescent_due. rewrite since_snoc. destruct (in_tz x).
  - rewrite filter_cons, filter_nil. case_decide as Hx; [by rewrite Hx|].
    by apply not_true_is_false in Hx as ->.
  - rewrite filter_app, filter_cons, filter_nil. case_decide as Hx.
    + rewrite Hx. by rewrite last_snoc.
    + apply not_true_is_false in Hx as ->. by rewrite app_nil_r.
Qed.

(** The loop after a burst of arrivals. *)
Definition after_burst st (evs : list incoming) : lstate :=
  mkLState (foldl coalesce (coalescer st) (filter (λ e, h e = true) (in_event <$> evs)))
    (quantum_due evs) (quiescent_due evs) (shutdown st)
    (out st ++ filter (λ e, h e = false) (in_event <$> evs)) true.

Lemma feed_burst st evs :
  running st = true → quantum st = None → quiescent st = None →
  feed st evs = Some (after_burst st evs).
Proof.
  intros Hr Hq Hz. induction evs as [|x evs IH] using rev_ind.
  { destruct st; simpl in *; subst. unfold after_burst. cbn. by rewrite app_nil_r. }
  rewrite (feed_app _ _ _ _ IH). cbn [feed]. unfold loop_step, after_burst. cbn [running coalescer].
  rewrite handle_h, quantum_due_snoc, quiescent_due_snoc, fmap_app, !filter_app, foldl_app.
  rewrite (filter_cons _ (in_event x) []), (filter_cons _ (in_event x) []), !filter_nil.
  destruct (h (in_event x)) eqn:Hx; cbn [option_bind mbind send_all quantum quiescent shutdown out];
    rewrite ?decide_True, ?decide_False by congruence; f_equal; f_equal.
  - destruct (if in_tq x then None else quantum_due evs); done.
  - by rewrite app_nil_r.
  - by rewrite app_assoc.
Qed.

(** What a timer that rings does to the loop. *)
Lemma fire_flushes st now tq tz accepts b d :
  running st = true →
  (b = BQuantum ∧ quantum st = Some d) ∨ (b = BQuiescent ∧ quiescent st = Some d) → d <= now →
  ∃ st', loop_step now tq tz accepts b st = Some st' ∧
    coalescer st' = (flush (coalescer st)).2 ∧
    out st' = out st ++ (send_all accepts (flush (coalescer st)).1).1 ∧
    running st' = (send_all accepts (flush (coalescer st)).1).2 && negb (shutdown st) ∧
    (running st' = true → quantum st' = None ∧ quiescent st' = None).
Proof.
  intros Hr Hb Hd%Z.leb_le. unfold loop_step. rewrite Hr.
  destruct Hb as [[-> ->]|[-> ->]]; rewrite Hd; destruct (flush (coalescer st)) as [evs c]; simpl;
    destruct (send_all accepts evs) as [sent []]; by eexists.
Qed.

(** C39: A burst of events reaches a coalescing loop whose timers are off,
    in any order and however the loop polled its timers in between.  Events
    the coalescer does not take are passed on at once and in order; those it
    takes are held back.  The quantum rings the coalescing period after the
    first event taken since its block was last polled, the quiescent timer
    the quiescent period after the latest one, neither earlier and neither
    when every event since was passed on; after a burst that ends with an
    event taken both are running.  Whichever rings first sends what the
    coalescer makes of all the events held back, drains it and turns both
    timers off; the loop ends there when it was told to shut down, or when
    the channel closes before the last event of the flush. *)
Theorem coalesce_flushes st evs :
  running st = true → quantum st = None → quiescent st = None →
  let events := in_event <$> evs in
  let held := foldl coalesce (coalescer st) (filter (λ e, h e = true) events) in
  let passed := out st ++ filter (λ e, h e = false) events in
  ∃ st1, feed st evs = Some st1 ∧ coalescer st1 = held ∧ out st1 = passed ∧
    (∀ b due, (b = BQuantum ∧ due = quantum_due evs) ∨ (b = BQuiescent ∧ due = quiescent_due evs) →
      ∀ now tq tz accepts,
        ((∀ d, due = Some d → now < d) → loop_step now tq tz accepts b st1 = None) ∧
        (∀ d, due = Some d → d <= now →
          ∃ st2, loop_step now tq tz accepts b st1 = Some st2 ∧
            coalescer st2 = (flush held).2 ∧
            out st2 = passed ++ (send_all accepts (flush held).1).1 ∧
            running st2 = (send_all accepts (flush held).1).2 && negb (shutdown st) ∧
            (running st2 = true → quantum st2 = None ∧ quiescent st2 = None))) ∧
    (∀ evs0 x, evs = evs0 ++ [x] → h (in_event x) = true →
      is_Some (quantum_due evs) ∧ quiescent_due evs = Some (in_time x + quiescent_period)).
Proof.
  intros Hr Hq Hz events held passed. exists (after_burst st evs).
  split; [by apply feed_burst|]. split; [done|]. split; [done|]. split.
  - intros b due Hb now tq tz accepts. split.
    + intros Hlate. unfold loop_step. cbn [running after_burst].
      destruct Hb as [[-> Hdue]|[-> Hdue]]; cbn [after_burst quantum quiescent]; rewrite <- Hdue;
        (destruct due as [d|]; [|done]);
        by rewrite (proj2 (Z.leb_gt _ _)) by (by apply Hlate).
    + intros d Hdue Hd.
      apply (fire_flushes (after_burst st evs) now tq tz accepts b d); [done| |done].
      by destruct Hb as [[-> ->]|[-> ->]]; [left|right].
  - intros evs0 x -> Hx. rewrite quantum_due_snoc, quiescent_due_snoc, Hx. by split; [eexists|].
Qed.

End arrivals.

(** An event the coalescer does not handle, arriving while the loop waits
    with events pending, drops both timers: nothing is flushed any more, at
    whatever time, until the next handled event. *)
Theorem unhandled_event_stalls st t e :
  running st = true → handle (coalescer st) e = false →
  ∃ st', loop_step t true true None (BEvent e) st = Some st' ∧
    coalescer st' = coalescer st ∧ out st' = out st ++ [e] ∧
    ∀ now tq tz o, loop_step now tq tz o BQuantum st' = None ∧
                   loop_step now tq tz o BQuiescent st' = None.
Proof.
  intros Hr Hh. unfold loop_step. rewrite Hr, Hh. eexists. split_and!; [done..|].
  intros now tq tz o. by destruct tq, tz.
Qed.

End coalesce_loop.

(** ** The properties at work *)

Section witnesses.
Let join (i : nat) : CrateEvent nat nat :=
  EvMember (mkMemberEvent MemberEventType.Join
    [mkMember (mkNode i i) [] MemberStatus.Alive PV1 DV1 PV1 DV1]).
Let tick : CrateEvent nat nat := EvUser (mkUserEventMessage 1 "tick" [] false).
Let loop0 : lstate (E := CrateEvent nat nat) := start (new_member_coalescer (I := nat) (A := nat)).

(** Two joins while the loop does not get to its timers: the quantum rings
    20 after the first, the quiescent timer 10 after the second. *)
Lemma coalesce_flushes_witness :
  let evs := [mkIncoming 0 true true (join 1); mkIncoming 2 false false tick;
              mkIncoming 5 false true (join 2)] in
  ∃ st1, feed 20 10 loop0 evs = Some st1 ∧ out st1 = [tick] ∧
    (∃ st2, loop_step 20 10 15 true true None BQuiescent st1 = Some st2 ∧ running st2 = true) ∧
    (∃ st2, loop_step 20 10 20 true true None BQuantum st1 = Some st2 ∧ running st2 = true) ∧
    loop_step 20 10 14 true true None BQuiescent st1 = None.
Proof.
  intros evs.
  assert (∀ (c : MemberEventCoalescer) e, handle c e = member_handle (I := nat) (A := nat) new_member_coalescer e) as Hh
    by reflexivity.
  destruct (coalesce_flushes 20 10 _ Hh loop0 evs) as (st1 & H1 & _ & Ho & Hfire & _); [reflexivity..|].
  exists st1. split; [exact H1|]. split; [exact Ho|]. split; [|split].
  - destruct (Hfire BQuiescent _ (or_intror (conj eq_refl eq_refl)) 15 true true None) as [_ Hf].
    destruct (Hf 15) as (st2 & H2 & _ & _ & Hr & _); [reflexivity|lia|].
    exists st2. split; [exact H2|exact Hr].
  - destruct (Hfire BQuantum _ (or_introl (conj eq_refl eq_refl)) 20 true true None) as [_ Hf].
    destruct (Hf 20) as (st2 & H2 & _ & _ & Hr & _); [reflexivity|lia|].
    exists st2. split; [exact H2|exact Hr].
  - apply (Hfire BQuiescent _ (or_intror (conj eq_refl eq_refl)) 14 true true None).
    intros d Hd. vm_compute in Hd. injection Hd as <-. lia.
Defined.

Lemma unhandled_event_stalls_witness :
  ∃ st1 st2, loop_step 20 10 0 true true None (BEvent (join 1)) loop0 = Some st1 ∧
    loop_step 20 10 5 true true None (BEvent tick) st1 = Some st2 ∧
    loop_step 20 10 1000 false false None BQuiescent st2 = None.
Proof.
  destruct (loop_step 20 10 0 true true None (BEvent (join 1)) loop0) as [st1|] eqn:E1; [|discriminate].
  destruct (unhandled_event_stalls 20 10 st1 5 tick) as (st2 & H2 & _ & _ & H3).
  - vm_compute in E1. by injection E1 as <-.
  - reflexivity.
  - exists st1, st2. split; [reflexivity|]. split; [exact H2|]. apply H3.
Defined.

End witnesses.
