(* ===== verification/Snapshot.v ===== *)
(** * The snapshotter (serf-core/src/snapshot.rs)

    The log of joins, departures and clock values that lets an instance find
    its peers again after a restart: the record format, replaying a file,
    appending to it, compacting it, and the stream that feeds it.

    The file is [disk]; bytes accepted by the [BufWriter] and not flushed yet
    are the contents of [fh], which is [None] while no file is open.  Nodes
    are encoded by memberlist's [Data] implementation, the class [NodeData].
    [io k] is what the operating system answers to the [k]-th append or
    compaction. *)

From Stdlib Require Import ZArith Lia Strings.Byte.
From stdpp Require Import base list gmap strings.
From S2P Require Import Prelude Clock Coordinate Types.
Local Open Scope Z_scope.
Local Open Scope serf_scope.

(** ** Nodes on the wire *)

(** memberlist's [Data] for [Node]: [node_encode n len] writes into a buffer
    of [len] bytes and yields the bytes written. *)
Class NodeData (I A : Type) : Type := {
  node_encoded_len : Node I A → nat;
  node_encode : Node I A → nat → Result bytes EncodeError;
  node_decode : bytes → Result (nat * Node I A) DecodeError;
}.

(** What its documentation promises: [encode] fails exactly on a buffer
    shorter than [encoded_len], writes [encoded_len] bytes otherwise, and
    [decode] reads them back. *)
Class NodeDataLaws (I A : Type) `{!NodeData I A} : Prop := {
  node_encode_short n len :
    (len < node_encoded_len n)%nat → ∃ e, node_encode n len = Err e;
  node_encode_fits n len :
    (node_encoded_len n <= len)%nat →
    ∃ b, node_encode n len = Ok b ∧ length b = node_encoded_len n ∧
         node_decode b = Ok (node_encoded_len n, n);
}.

(** ** Records *)

Inductive SnapshotRecordType : Type :=
| TAlive | TNotAlive | TClock | TEventClock | TQueryClock | TCoordinate | TLeave | TComment.

Definition record_type_of (v : Z) : Result SnapshotRecordType SnapshotError :=
  if v =? 0 then Ok TAlive else if v =? 1 then Ok TNotAlive else if v =? 2 then Ok TClock
  else if v =? 3 then Ok TEventClock else if v =? 4 then Ok TQueryClock
  else if v =? 5 then Ok TCoordinate else if v =? 6 then Ok TLeave
  else if v =? 7 then Ok TComment else Err (UnknownRecordType v).

Inductive SnapshotRecord (I A : Type) : Type :=
| RecAlive (n : Node I A) | RecNotAlive (n : Node I A)
| RecClock (t : Z) | RecEventClock (t : Z) | RecQueryClock (t : Z)
| RecCoordinate | RecLeave | RecComment.
Arguments RecAlive {I A}.
Arguments RecNotAlive {I A}.
Arguments RecClock {I A}.
Arguments RecEventClock {I A}.
Arguments RecQueryClock {I A}.
Arguments RecCoordinate {I A}.
Arguments RecLeave {I A}.
Arguments RecComment {I A}.

Definition MAX_INLINED_BYTES : nat := 64.
Definition FLUSH_INTERVAL : Z := 500000000.
Definition SNAPSHOT_ERROR_RECOVERY_INTERVAL : Z := 30000000000.
Definition SNAPSHOT_BYTES_PER_NODE : Z := 128.
Definition SNAPSHOT_COMPACTION_THRESHOLD : Z := 2.

Section snapshot.
Context {I A : Type} `{Countable I} `{Countable A} `{!NodeData I A}.
Implicit Types (n : Node I A) (r : SnapshotRecord I A).

(** [encode!] for a node.  A short record is built in an array of 64 bytes.
    A long one is built in a [BytesMut] of which only the 5 bytes already
    put are a slice, so that is the buffer the node is encoded into. *)
Definition encode_node (status : Z) n : Result bytes IoError :=
  let len := node_encoded_len n in
  let header := byte_of_Z status :: to_le 4 (Z.of_nat len mod u32_modulus) in
  if (4 + 1 + len <=? MAX_INLINED_BYTES)%nat then
    match node_encode n (MAX_INLINED_BYTES - 5) with
    | Ok b => Ok (take (4 + 1 + len) (header ++ b ++ replicate MAX_INLINED_BYTES x00))
    | Err _ => Err InvalidData
    end
  else
    match node_encode n (length header) with
    | Ok b => Ok (b ++ drop (length b) header)
    | Err _ => Err InvalidData
    end.

Definition encode_time (status t : Z) : bytes := byte_of_Z status :: to_le 8 t.

Definition encode_record r : Result bytes IoError :=
  match r with
  | RecAlive n => encode_node 0 n
  | RecNotAlive n => encode_node 1 n
  | RecClock t => Ok (encode_time 2 t)
  | RecEventClock t => Ok (encode_time 3 t)
  | RecQueryClock t => Ok (encode_time 4 t)
  | RecCoordinate => Ok [byte_of_Z 5]
  | RecLeave => Ok [byte_of_Z 6]
  | RecComment => Ok [byte_of_Z 7]
  end.

(** ** Replay *)

(** [read_exact] of [k] bytes. *)
Definition read_exact (k : nat) (b : bytes) : Result (bytes * bytes) SnapshotError :=
  if (k <=? length b)%nat then Ok (take k b, drop k b) else Err (SReplay UnexpectedEof).

Definition read_node (b : bytes) : Result (Node I A * bytes) SnapshotError :=
  try! (lenb, b) := read_exact 4 b in
  try! (buf, b) := read_exact (Z.to_nat (of_le lenb)) b in
  match node_decode buf with
  | Ok (_, n) => Ok (n, b)
  | Err _ => Err (SReplay InvalidData)
  end.

Definition read_time (b : bytes) : Result (Z * bytes) SnapshotError :=
  try! (tb, b) := read_exact 8 b in Ok (of_le tb, b).

(** One record, after its type byte. *)
Definition read_record (kind : SnapshotRecordType) (b : bytes)
  : Result (SnapshotRecord I A * bytes) SnapshotError :=
  match kind with
  | TAlive => try! (n, b) := read_node b in Ok (RecAlive n, b)
  | TNotAlive => try! (n, b) := read_node b in Ok (RecNotAlive n, b)
  | TClock => try! (t, b) := read_time b in Ok (RecClock t, b)
  | TEventClock => try! (t, b) := read_time b in Ok (RecEventClock t, b)
  | TQueryClock => try! (t, b) := read_time b in Ok (RecQueryClock t, b)
  | TCoordinate => Ok (RecCoordinate, b)
  | TLeave => Ok (RecLeave, b)
  | TComment => Ok (RecComment, b)
  end.

Record Replayed : Type := mkReplayed {
  rp_alive : gset (Node I A); rp_clock : Z; rp_event_clock : Z; rp_query_clock : Z }.

Definition replay_start : Replayed := mkReplayed ∅ 0 0 0.

Definition apply_record (rejoin : bool) (p : Replayed) r : Replayed :=
  match r with
  | RecAlive n => mkReplayed ({[n]} ∪ rp_alive p) (rp_clock p) (rp_event_clock p) (rp_query_clock p)
  | RecNotAlive n => mkReplayed (rp_alive p ∖ {[n]}) (rp_clock p) (rp_event_clock p) (rp_query_clock p)
  | RecClock t => mkReplayed (rp_alive p) t (rp_event_clock p) (rp_query_clock p)
  | RecEventClock t => mkReplayed (rp_alive p) (rp_clock p) t (rp_query_clock p)
  | RecQueryClock t => mkReplayed (rp_alive p) (rp_clock p) (rp_event_clock p) t
  | RecCoordinate => p
  | RecLeave => if rejoin then p else replay_start
  | RecComment => p
  end.

(** The loop of [open_and_replay_snapshot]; every round reads a byte. *)
Fixpoint replay_loop (fuel : nat) (rejoin : bool) (p : Replayed) (b : bytes)
  : Result Replayed SnapshotError :=
  match b with
  | [] => Ok p
  | k :: b =>
      match fuel with
      | O => Err (SReplay OtherIo)
      | S fuel =>
          try! kind := record_type_of (Z_of_byte k) in
          try! (r, b) := read_record kind b in
          replay_loop fuel rejoin (apply_record rejoin p r) b
      end
  end.

Definition replay (rejoin : bool) (file : bytes) : Result Replayed SnapshotError :=
  replay_loop (length file) rejoin replay_start file.

(** ** The snapshotter's state *)

(** What the system answers to the calls of one append or compaction. *)
Record Faults : Type := mkFaults {
  f_write : option IoError; f_flush : option IoError;
  f_open_new : option IoError; f_write_new : option IoError; f_flush_new : option IoError;
  f_sync_new : option IoError; f_remove : option IoError; f_rename : option IoError;
  f_reopen : option IoError }.
Definition no_faults : Faults := mkFaults None None None None None None None None None.

Record Snapshot : Type := mkSnapshot {
  alive_nodes : gset (Node I A);
  disk : bytes;
  fh : option bytes;
  last_flush : Z;
  last_clock : Z;
  last_event_clock : Z;
  last_query_clock : Z;
  leaving : bool;
  min_compact_size : Z;
  offset : Z;
  rejoin_after_leave : bool;
  last_attempted_compaction : Z;
  io_count : nat;
}.

Definition from_replay_result (p : Replayed) (file : bytes) (min_compact_size : Z)
    (rejoin : bool) (now : Z) : Snapshot :=
  mkSnapshot (rp_alive p) file (Some []) now (rp_clock p) (rp_event_clock p) (rp_query_clock p)
    false min_compact_size (Z.of_nat (length file)) rejoin now 0.

Definition set_file (s : Snapshot) (d : bytes) (f : option bytes) (flush off : Z) : Snapshot :=
  mkSnapshot (alive_nodes s) d f flush (last_clock s) (last_event_clock s) (last_query_clock s)
    (leaving s) (min_compact_size s) off (rejoin_after_leave s) (last_attempted_compaction s)
    (io_count s).
Definition next_io (s : Snapshot) : Snapshot :=
  mkSnapshot (alive_nodes s) (disk s) (fh s) (last_flush s) (last_clock s) (last_event_clock s)
    (last_query_clock s) (leaving s) (min_compact_size s) (offset s) (rejoin_after_leave s)
    (last_attempted_compaction s) (S (io_count s)).
Definition set_attempt (s : Snapshot) (t : Z) : Snapshot :=
  mkSnapshot (alive_nodes s) (disk s) (fh s) (last_flush s) (last_clock s) (last_event_clock s)
    (last_query_clock s) (leaving s) (min_compact_size s) (offset s) (rejoin_after_leave s)
    t (io_count s).
Definition set_alive (s : Snapshot) (al : gset (Node I A)) : Snapshot :=
  mkSnapshot al (disk s) (fh s) (last_flush s) (last_clock s) (last_event_clock s)
    (last_query_clock s) (leaving s) (min_compact_size s) (offset s) (rejoin_after_leave s)
    (last_attempted_compaction s) (io_count s).
Definition set_clocks (s : Snapshot) (c e q : Z) : Snapshot :=
  mkSnapshot (alive_nodes s) (disk s) (fh s) (last_flush s) c e q
    (leaving s) (min_compact_size s) (offset s) (rejoin_after_leave s)
    (last_attempted_compaction s) (io_count s).
Definition set_leaving (s : Snapshot) : Snapshot :=
  mkSnapshot (alive_nodes s) (disk s) (fh s) (last_flush s) (last_clock s) (last_event_clock s)
    (last_query_clock s) true (min_compact_size s) (offset s) (rejoin_after_leave s)
    (last_attempted_compaction s) (io_count s).

(** What a reader of the file finds once pending bytes are written. *)
Definition log (s : Snapshot) : bytes := disk s ++ from_option id [] (fh s).

Context (io : nat → Faults).

Definition snapshot_max_size (s : Snapshot) : Z :=
  let nodes := Z.of_nat (size (alive_nodes s)) in
  let est_size := nodes * SNAPSHOT_BYTES_PER_NODE in
  let threshold := est_size * SNAPSHOT_COMPACTION_THRESHOLD in
  Z.max threshold (min_compact_size s).

(** ** Compaction *)

Fixpoint encode_all (rs : list (SnapshotRecord I A)) : Result bytes IoError :=
  match rs with
  | [] => Ok []
  | r :: rs => try! b := encode_record r in try! rest := encode_all rs in Ok (b ++ rest)
  end.

Definition compact_records (s : Snapshot) : list (SnapshotRecord I A) :=
  (RecAlive <$> elements (alive_nodes s)) ++
  [RecClock (last_clock s); RecEventClock (last_event_clock s); RecQueryClock (last_query_clock s)].

Definition compact (s : Snapshot) (now : Z) : outcome (Snapshot * Result unit SnapshotError) :=
  let f := io (io_count s) in
  let s := next_io s in
  match f_open_new f with
  | Some e => Done (s, Err (SOpenNew e))
  | None =>
  match encode_all (compact_records s), f_write_new f with
  | Err e, _ => Done (s, Err (SWriteNew e))
  | Ok _, Some e => Done (s, Err (SWriteNew e))
  | Ok new, None =>
  match f_flush_new f with
  | Some e => Done (s, Err (SFlush e))
  | None =>
  match f_sync_new f with
  | Some e => Done (s, Err (SSync e))
  | None =>
  match fh s with
  | None => Panic
  | Some pending =>
  let old := disk s ++ pending in
  let removed := match f_remove f with Some NotFound | None => None | Some e => Some e end in
  match removed with
  | Some e => Done (set_file s old None (last_flush s) (offset s), Err (SRemove e))
  | None =>
  match f_rename f with
  | Some e => Done (set_file s [] None (last_flush s) (offset s), Err (SInstall e))
  | None =>
  match f_reopen f with
  | Some e => Done (set_file s new None (last_flush s) (offset s), Err (SOpen e))
  | None => Done (set_file s new (Some []) now (Z.of_nat (length new)), Ok tt)
  end end end end end end end end.

(** ** Appending *)

(** [self.fh.as_mut().unwrap()] panics while no file is open. *)
Definition append_line (s : Snapshot) r (now : Z) : outcome (Snapshot * Result unit SnapshotError) :=
  match fh s with
  | None => Panic
  | Some pending =>
      let f := io (io_count s) in
      let s := next_io s in
      match encode_record r, f_write f with
      | Err e, _ => Done (s, Err (SWrite e))
      | Ok _, Some e => Done (s, Err (SWrite e))
      | Ok b, None =>
          let s := set_file s (disk s) (Some (pending ++ b)) (last_flush s) (offset s) in
          let '(s, r) :=
            if FLUSH_INTERVAL <? since now (last_flush s) then
              match f_flush f with
              | Some e => (set_file s (disk s) (fh s) now (offset s), Err (SFlush e))
              | None => (set_file s (log s) (Some []) now (offset s), Ok tt)
              end
            else (s, Ok tt) in
          match r with
          | Err e => Done (s, Err e)
          | Ok _ =>
              let s := set_file s (disk s) (fh s) (last_flush s)
                         (offset s + Z.of_nat (length b)) in
              if snapshot_max_size s <? offset s then compact s now else Done (s, Ok tt)
          end
      end
  end.

Definition try_append (s : Snapshot) r (now : Z) : outcome Snapshot :=
  run! (s, res) := append_line s r now in
  match res with
  | Ok _ => Done s
  | Err _ =>
      if SNAPSHOT_ERROR_RECOVERY_INTERVAL <? since now (last_attempted_compaction s) then
        run! (s, _) := compact (set_attempt s now) now in Done s
      else Done s
  end.

(** ** Events *)

Definition process_user_event (s : Snapshot) (ltime now : Z) : outcome Snapshot :=
  if ltime <=? last_event_clock s then Done s
  else try_append (set_clocks s (last_clock s) ltime (last_query_clock s)) (RecEventClock ltime) now.

Definition process_query_event (s : Snapshot) (ltime now : Z) : outcome Snapshot :=
  if ltime <=? last_query_clock s then Done s
  else try_append (set_clocks s (last_clock s) (last_event_clock s) ltime) (RecQueryClock ltime) now.

(** [clock] is the reading of the membership clock. *)
Definition update_clock (s : Snapshot) (clock now : Z) : outcome Snapshot :=
  let last_seen := Z.max 0 (clock - 1) in
  if last_clock s <? last_seen
  then try_append (set_clocks s last_seen (last_event_clock s) (last_query_clock s))
         (RecClock last_seen) now
  else Done s.

Fixpoint append_members (join : bool) (s : Snapshot) (ms : list (Member I A)) (now : Z) : outcome Snapshot :=
  match ms with
  | [] => Done s
  | m :: ms =>
      let n := node m in
      run! s :=
        (if join then try_append (set_alive s ({[n]} ∪ alive_nodes s)) (RecAlive n) now
         else try_append (set_alive s (alive_nodes s ∖ {[n]})) (RecNotAlive n) now) in
      append_members join s ms now
  end.

Definition process_member_event (s : Snapshot) (e : MemberEvent I A) (clock now : Z) : outcome Snapshot :=
  run! s :=
    match me_ty e with
    | MemberEventType.Join => append_members true s (me_members e) now
    | MemberEventType.Leave | MemberEventType.Failed => append_members false s (me_members e) now
    | _ => Done s
    end in
  update_clock s clock now.

Definition flush_file (s : Snapshot) : Snapshot :=
  match fh s with
  | Some _ => set_file s (log s) (Some []) (last_flush s) (offset s)
  | None => s
  end.

Definition handle_leave (s : Snapshot) (now : Z) : outcome Snapshot :=
  let s := set_leaving s in
  let s := if rejoin_after_leave s then s else set_alive s ∅ in
  run! s := try_append s RecLeave now in
  Done (flush_file s).

(** [stream_flush_event!] when the snapshotter is not leaving. *)
Definition flush_event (s : Snapshot) (ev : CrateEvent I A) (clock now : Z) : outcome Snapshot :=
  match ev with
  | EvMember e => process_member_event s e clock now
  | EvUser e => process_user_event s (uem_ltime e) now
  | EvQuery e => process_query_event s (qe_ltime e) now
  | EvInternalQuery _ e => process_query_event s (qe_ltime e) now
  end.

(** The branches of the [select!] of [stream]. *)
Inductive signal : Type :=
| SigLeave
| SigEvent (ev : CrateEvent I A)
| SigTick
| SigStop.

(** One iteration; the flag tells whether the loop goes on. *)
Definition stream_step (s : Snapshot) (g : signal) (clock now : Z) : outcome (Snapshot * bool) :=
  match g with
  | SigLeave => run! s := handle_leave s now in Done (s, true)
  | SigEvent ev =>
      if leaving s then Done (s, false)
      else run! s := flush_event s ev clock now in Done (s, true)
  | SigTick => run! s := update_clock s clock now in Done (s, true)
  | SigStop => Done (s, false)
  end.

Fixpoint stream_loop (s : Snapshot) (gs : list (signal * Z * Z)) : outcome Snapshot :=
  match gs with
  | [] => Done s
  | (g, clock, now) :: gs =>
      run! (s, more) := stream_step s g clock now in
      if (more : bool) then stream_loop s gs else Done s
  end.

(** The events still queued when the loop ends; the drain also stops at the
    first of them once the snapshotter is leaving. *)
Fixpoint drain (s : Snapshot) (evs : list (CrateEvent I A)) (clock now : Z) : outcome Snapshot :=
  match evs with
  | [] => Done s
  | ev :: evs =>
      if leaving s then Done s
      else run! s := flush_event s ev clock now in drain s evs clock now
  end.

(** The end of [stream]: a pending leave, the clock, the queue, the file. *)
Definition stream_exit (s : Snapshot) (leave_pending : bool) (evs : list (CrateEvent I A)) (clock now : Z)
  : outcome Snapshot :=
  run! s := (if leave_pending then handle_leave s now else Done s) in
  run! s := update_clock s clock now in
  run! s := drain s evs clock now in
  Done (flush_file s).

End snapshot.
