(* ===== verification/SnapshotFacts.v ===== *)
(** * What the snapshot guarantees

    Replaying what was encoded gives back the records; without I/O faults the
    file always replays to what the snapshotter holds in memory, through
    appends and compactions; what a leave, a torn write, a long node and a
    failed compaction do. *)

From Stdlib Require Import ZArith Lia Strings.Byte.
From stdpp Require Import base list gmap strings.
From S2P Require Import Prelude Clock Coordinate Types Snapshot.
Local Open Scope Z_scope.
Local Open Scope serf_scope.

Section facts.
Context {I A : Type} `{Countable I} `{Countable A} `{!NodeData I A} `{!NodeDataLaws I A}.
Implicit Types (n : Node I A) (r : SnapshotRecord I A) (p : Replayed (I := I) (A := A)) (b : bytes).

(** ** The record format *)

(** Nodes whose record fits the 64 bytes of the inline buffer. *)
Definition short n : Prop := (node_encoded_len n <= 59)%nat.

Definition good_record r : Prop :=
  match r with
  | RecAlive n | RecNotAlive n => short n
  | RecClock t | RecEventClock t | RecQueryClock t => is_u64 t
  | _ => True
  end.

Lemma encode_node_short status n :
  short n → ∃ b, encode_node status n =
    Ok (byte_of_Z status :: to_le 4 (Z.of_nat (node_encoded_len n)) ++ b) ∧
    length b = node_encoded_len n ∧ node_decode b = Ok (node_encoded_len n, n).
Proof.
  intros Hs. unfold encode_node, short in *.
  rewrite Z.mod_small by (unfold u32_modulus; lia).
  destruct (node_encode_fits n (MAX_INLINED_BYTES - 5)) as (b & -> & Hlen & Hdec);
    [unfold MAX_INLINED_BYTES; lia|].
  rewrite (proj2 (Nat.leb_le _ _)) by (unfold MAX_INLINED_BYTES; lia).
  exists b. split; [|done]. f_equal. rewrite app_assoc.
  rewrite take_app_le, take_ge; [done|..]; rewrite length_app, length_cons, to_le_length; lia.
Qed.

Lemma read_exact_app k b b' : length b = k → read_exact k (b ++ b') = Ok (b, b').
Proof.
  intros <-. unfold read_exact. rewrite length_app.
  rewrite (proj2 (Nat.leb_le _ _)) by lia. by rewrite take_app_length, drop_app_length.
Qed.

Lemma read_node_encoded n b tail :
  short n → length b = node_encoded_len n → node_decode b = Ok (node_encoded_len n, n) →
  read_node ((to_le 4 (Z.of_nat (node_encoded_len n)) ++ b) ++ tail) = Ok (n, tail).
Proof.
  intros Hs Hlen Hdec. unfold read_node. rewrite <- app_assoc.
  rewrite read_exact_app by apply to_le_length.
  rewrite le_roundtrip by (unfold short in Hs; lia).
  rewrite read_exact_app by (rewrite Hlen; lia). by rewrite Hdec.
Qed.

Lemma read_time_encoded t tail : is_u64 t → read_time (to_le 8 t ++ tail) = Ok (t, tail).
Proof.
  intros Ht. unfold read_time. rewrite read_exact_app by apply to_le_length.
  by rewrite le_roundtrip by exact Ht.
Qed.

(** A good record encodes to a type byte and a body that reads back. *)
Lemma record_roundtrip r :
  good_record r → ∃ k body kind, encode_record r = Ok (k :: body) ∧
    record_type_of (Z_of_byte k) = Ok kind ∧
    ∀ tail, read_record kind (body ++ tail) = Ok (r, tail).
Proof.
  destruct r as [n|n|t|t|t| | |]; intros Hg; cbn [encode_record].
  1-2: destruct (encode_node_short 0 n Hg) as (b & Hb & Hlen & Hdec);
       destruct (encode_node_short 1 n Hg) as (b' & Hb' & Hlen' & Hdec').
  - rewrite Hb. eexists _, _, TAlive. split_and!; [done..|]. intros tail.
    cbn [read_record]. by rewrite read_node_encoded.
  - rewrite Hb'. eexists _, _, TNotAlive. split_and!; [done..|]. intros tail.
    cbn [read_record]. by rewrite read_node_encoded.
  - eexists _, _, TClock. split_and!; [done..|]. intros tail.
    cbn [read_record]. by rewrite read_time_encoded.
  - eexists _, _, TEventClock. split_and!; [done..|]. intros tail.
    cbn [read_record]. by rewrite read_time_encoded.
  - eexists _, _, TQueryClock. split_and!; [done..|]. intros tail.
    cbn [read_record]. by rewrite read_time_encoded.
  - by eexists _, [], TCoordinate.
  - by eexists _, [], TLeave.
  - by eexists _, [], TComment.
Qed.

(** Reading a record never depends on what follows it. *)
Lemma read_exact_inv k b x b' tail :
  read_exact k b = Ok (x, b') →
  read_exact k (b ++ tail) = Ok (x, b' ++ tail) ∧ (length b' <= length b)%nat.
Proof.
  unfold read_exact. destruct (k <=? length b)%nat eqn:E; [|done]. apply Nat.leb_le in E.
  intros [= <- <-]. rewrite length_app, (proj2 (Nat.leb_le _ _)) by lia.
  rewrite take_app_le, drop_app_le by lia. split; [done|]. rewrite length_drop. lia.
Qed.

Lemma read_node_inv b n b' tail :
  read_node b = Ok (n, b') →
  read_node (b ++ tail) = Ok (n, b' ++ tail) ∧ (length b' <= length b)%nat.
Proof.
  unfold read_node. destruct (read_exact 4 b) as [[x b1]|] eqn:E1; [|done].
  apply (read_exact_inv _ _ _ _ tail) in E1 as [-> L1].
  destruct (read_exact _ b1) as [[y b2]|] eqn:E2; [|done].
  apply (read_exact_inv _ _ _ _ tail) in E2 as [-> L2].
  destruct (node_decode y) as [[]|]; [|done]. intros [= <- <-]. split; [done|lia].
Qed.

Lemma read_time_inv b t b' tail :
  read_time b = Ok (t, b') →
  read_time (b ++ tail) = Ok (t, b' ++ tail) ∧ (length b' <= length b)%nat.
Proof.
  unfold read_time. destruct (read_exact 8 b) as [[x b1]|] eqn:E1; [|done].
  apply (read_exact_inv _ _ _ _ tail) in E1 as [-> L1]. by intros [= <- <-].
Qed.

Lemma read_record_inv kind b r b' tail :
  read_record kind b = Ok (r, b') →
  read_record kind (b ++ tail) = Ok (r, b' ++ tail) ∧ (length b' <= length b)%nat.
Proof.
  destruct kind; cbn [read_record]; try (by intros [= <- <-]).
  1-2: destruct (read_node b) as [[n b1]|] eqn:E; [|done];
       apply (read_node_inv _ _ _ tail) in E as [-> ?]; by intros [= <- <-].
  all: destruct (read_time b) as [[t b1]|] eqn:E; [|done];
       apply (read_time_inv _ _ _ tail) in E as [-> ?]; by intros [= <- <-].
Qed.

(** ** Replay *)

Lemma replay_loop_app fuel : ∀ rejoin p b p1 tail fuel',
  replay_loop fuel rejoin p b = Ok p1 → (length (b ++ tail) <= fuel')%nat →
  ∃ fuel2, (length tail <= fuel2)%nat ∧
    replay_loop fuel' rejoin p (b ++ tail) = replay_loop fuel2 rejoin p1 tail.
Proof.
  induction fuel as [|fuel IH]; intros rejoin p b p1 tail fuel' Hr Hlen.
  { destruct b; [|done]. simpl in Hr. simplify_eq. by exists fuel'. }
  destruct b as [|k b]; [simpl in Hr; simplify_eq; by exists fuel'|].
  cbn [replay_loop] in Hr. destruct (record_type_of _) as [kind|] eqn:Ek; [|done].
  destruct (read_record kind b) as [[r b']|] eqn:Er; [|done].
  apply (read_record_inv _ _ _ _ tail) in Er as [Er Hle].
  destruct fuel' as [|fuel']; [simpl in Hlen; lia|]. simpl in Hlen. rewrite length_app in Hlen.
  destruct (IH _ _ _ _ tail fuel' Hr) as (fuel2 & H2 & E2); [rewrite length_app; lia|].
  exists fuel2. split; [done|]. cbn [app replay_loop]. by rewrite Ek, Er.
Qed.

Lemma replay_loop_fuel fuel : ∀ fuel' rejoin p b,
  (length b <= fuel)%nat → (length b <= fuel')%nat →
  replay_loop fuel rejoin p b = replay_loop fuel' rejoin p b.
Proof.
  induction fuel as [|fuel IH]; intros fuel' rejoin p b Hf Hf'.
  { destruct b; [by destruct fuel'|simpl in Hf; lia]. }
  destruct b as [|k b]; [by destruct fuel'|]. destruct fuel' as [|fuel']; [simpl in Hf'; lia|].
  cbn [replay_loop]. destruct (record_type_of _) as [kind|]; [|done].
  destruct (read_record kind b) as [[r b']|] eqn:Er; [|done].
  apply (read_record_inv _ _ _ _ []) in Er as [_ Hle]. simpl in *. apply IH; lia.
Qed.

Lemma replay_app rejoin b p tail :
  replay rejoin b = Ok p →
  replay rejoin (b ++ tail) = replay_loop (length tail) rejoin p tail.
Proof.
  unfold replay. intros Hr.
  destruct (replay_loop_app _ _ _ _ _ tail (length (b ++ tail)) Hr) as (f & Hf & ->); [done|].
  by apply replay_loop_fuel.
Qed.

(** Appending one good record. *)
Lemma replay_snoc rejoin b p r enc :
  replay rejoin b = Ok p → good_record r → encode_record r = Ok enc →
  replay rejoin (b ++ enc) = Ok (apply_record rejoin p r).
Proof.
  intros Hr Hg He. rewrite (replay_app _ _ _ _ Hr).
  destruct (record_roundtrip r Hg) as (k & body & kind & He' & Hk & Hread).
  rewrite He in He'. simplify_eq. cbn [length replay_loop]. rewrite Hk.
  specialize (Hread []). rewrite app_nil_r in Hread. rewrite Hread.
  by destruct (length body).
Qed.

Lemma encode_all_good rs : Forall good_record rs → ∃ b, encode_all rs = Ok b.
Proof.
  induction 1 as [|r rs Hr _ (b & Hb)]; [by exists []|]. cbn [encode_all].
  destruct (record_roundtrip r Hr) as (k & body & kind & -> & _ & _). rewrite Hb. by eexists.
Qed.

Lemma replay_encode_all rs : ∀ rejoin b p enc,
  replay rejoin b = Ok p → Forall good_record rs → encode_all rs = Ok enc →
  replay rejoin (b ++ enc) = Ok (foldl (apply_record rejoin) p rs).
Proof.
  induction rs as [|r rs IH]; intros rejoin b p enc Hr Hg He.
  { cbn [encode_all] in He. simplify_eq. by rewrite app_nil_r. }
  apply Forall_cons in Hg as [Hgr Hg]. cbn [encode_all] in He.
  destruct (encode_record r) as [b1|] eqn:E1; [|done].
  destruct (encode_all rs) as [b2|] eqn:E2; [|done]. simplify_eq.
  rewrite app_assoc. simpl. apply IH; [|done|done]. by apply replay_snoc.
Qed.

(** C18: Every sequence of records whose nodes fit the inline buffer encodes,
    and replaying the bytes yields the state the records describe: the nodes
    whose last record is a join, and the last value of each clock, all of it
    forgotten at a leave unless the instance is to rejoin. *)
Theorem snapshot_roundtrip rejoin rs :
  Forall good_record rs →
  ∃ file, encode_all rs = Ok file ∧
    replay rejoin file = Ok (foldl (apply_record rejoin) replay_start rs).
Proof.
  intros Hg. destruct (encode_all_good rs Hg) as [file Hf]. exists file. split; [done|].
  by apply (replay_encode_all rs rejoin [] replay_start).
Qed.

(** A torn record does not read. *)
Lemma read_exact_short k b : (length b < k)%nat → read_exact k b = Err (SReplay UnexpectedEof).
Proof. intros Hk. unfold read_exact. by rewrite (proj2 (Nat.leb_gt _ _)). Qed.

Lemma read_torn r k body kind j :
  good_record r → encode_record r = Ok (k :: body) → record_type_of (Z_of_byte k) = Ok kind →
  (∀ tail, read_record kind (body ++ tail) = Ok (r, tail)) → (j < length body)%nat →
  read_record kind (take j body) = Err (SReplay UnexpectedEof).
Proof.
  intros Hg He Hk Hread Hj.
  destruct kind; cbn [read_record] in *; try (specialize (Hread []); rewrite app_nil_r in Hread;
    injection Hread as _ ->; simpl in Hj; lia).
  1-2: unfold read_node in *;
    destruct (decide (j < 4)%nat) as [Hj4|Hj4];
    [by rewrite read_exact_short by (rewrite length_take; lia)|];
    specialize (Hread []); rewrite app_nil_r in Hread;
    destruct (read_exact 4 body) as [[x b1]|] eqn:E1; [|done];
    destruct (read_exact (Z.to_nat (of_le x)) b1) as [[y b2]|] eqn:E2; [|done];
    unfold read_exact in E1; destruct (4 <=? length body)%nat eqn:L1; [|done];
    injection E1 as <- <-;
    unfold read_exact in E2; destruct (_ <=? length (drop 4 body))%nat eqn:L2; [|done];
    injection E2 as <- <-; destruct (node_decode _) as [[]|]; [|done];
    injection Hread as _ Hnil; apply (f_equal length) in Hnil; rewrite !length_drop in Hnil;
    simpl in Hnil; apply Nat.leb_le in L1, L2; rewrite length_drop in L2;
    unfold read_exact at 1; rewrite length_take, (proj2 (Nat.leb_le _ _)) by lia;
    rewrite take_take, Nat.min_l by lia; rewrite read_exact_short; [done|];
    rewrite length_drop, length_take; lia.
  all: unfold read_time in *; specialize (Hread []); rewrite app_nil_r in Hread;
    unfold read_exact in Hread; destruct (8 <=? length body)%nat eqn:L1; [|done];
    injection Hread as _ Hnil; apply (f_equal length) in Hnil; rewrite length_drop in Hnil;
    simpl in Hnil; apply Nat.leb_le in L1;
    rewrite read_exact_short; [done|]; rewrite length_take; lia.
Qed.

(** C40: A file whose last record is cut short, as a crash in the middle of a
    write leaves it, does not replay: the end of file is reported as an error
    and everything before it is lost. *)
Theorem torn_snapshot_rejected rejoin rs r file enc j :
  Forall good_record (rs ++ [r]) → encode_all rs = Ok file → encode_record r = Ok enc →
  (0 < j < length enc)%nat →
  replay rejoin (file ++ take j enc) = Err (SReplay UnexpectedEof).
Proof.
  intros [Hg Hr]%Forall_app Hf He Hj. rewrite Forall_singleton in Hr.
  rewrite (replay_app _ _ (foldl (apply_record rejoin) replay_start rs)).
  2:{ by apply (replay_encode_all rs rejoin [] replay_start). }
  destruct (record_roundtrip r Hr) as (k & body & kind & He' & Hk & Hread).
  rewrite He in He'. simplify_eq. destruct j as [|j]; [lia|]. cbn [take length replay_loop].
  rewrite Hk. rewrite (read_torn r k body kind j); try done. simpl in Hj. lia.
Qed.

Lemma encode_all_long (rs : list (SnapshotRecord I A)) :
  (∀ r, r ∈ rs → ∀ e, encode_record r = Err e → e = InvalidData) →
  (∃ n, encode_record (RecAlive n) = Err InvalidData ∧ RecAlive n ∈ rs) →
  encode_all rs = Err InvalidData.
Proof.
  intros Herr (n & Hn & Hin). induction rs as [|r rs IH]; [by apply not_elem_of_nil in Hin|].
  cbn [encode_all]. destruct (encode_record r) as [b|e] eqn:E.
  - apply elem_of_cons in Hin as [<-|Hin]; [congruence|].
    rewrite IH; [done| |done]. intros r' Hr'. apply Herr. by apply elem_of_cons; right.
  - f_equal. eapply Herr; [|exact E]. by apply elem_of_cons; left.
Qed.

Lemma encode_record_error r e : encode_record r = Err e → e = InvalidData.
Proof.
  destruct r; try done; simpl; unfold encode_node; destruct (_ <=? _)%nat;
    destruct (node_encode _ _); congruence.
Qed.

(** ** The snapshotter and its file *)

Context (io : nat → Faults).
Implicit Types s : Snapshot (I := I) (A := A).

(** What the file must replay to: the nodes in memory and, until the instance
    leaves, the clocks in memory. *)
Definition matches s p : Prop :=
  rp_alive p = alive_nodes s ∧
  (leaving s = false → rp_clock p = last_clock s ∧ rp_event_clock p = last_event_clock s ∧
                       rp_query_clock p = last_query_clock s).

Definition recoverable s : Prop :=
  ∃ p, replay (rejoin_after_leave s) (log s) = Ok p ∧ matches s p.

Record snap_wf s : Prop := {
  sw_open : is_Some (fh s);
  sw_short : ∀ n, n ∈ alive_nodes s → short n;
  sw_clocks : is_u64 (last_clock s) ∧ is_u64 (last_event_clock s) ∧ is_u64 (last_query_clock s);
}.

(** The parts of the state that writing the file leaves alone. *)
Definition same_view s s' : Prop :=
  alive_nodes s' = alive_nodes s ∧ leaving s' = leaving s ∧
  rejoin_after_leave s' = rejoin_after_leave s ∧ last_clock s' = last_clock s ∧
  last_event_clock s' = last_event_clock s ∧ last_query_clock s' = last_query_clock s.

Lemma foldl_alive rejoin (l : list (Node I A)) : ∀ p,
  foldl (apply_record rejoin) p (RecAlive <$> l) =
  mkReplayed (list_to_set l ∪ rp_alive p) (rp_clock p) (rp_event_clock p) (rp_query_clock p).
Proof.
  induction l as [|n l IH]; intros p.
  { simpl. rewrite (left_id_L ∅ (∪)). by destruct p. }
  rewrite fmap_cons. cbn [foldl]. rewrite IH. simpl. f_equal.
  by rewrite (assoc_L (∪)), (comm_L (∪) (list_to_set l) {[n]}).
Qed.

Lemma compact_records_good s : snap_wf s → Forall good_record (compact_records s).
Proof.
  intros [_ Hs (Hc & He & Hq)]. unfold compact_records. apply Forall_app. split.
  - apply Forall_forall. intros r (n & -> & Hn)%list_elem_of_fmap. apply Hs.
    by apply elem_of_elements.
  - do 3 (apply Forall_cons; split; [done|]). by apply Forall_nil.
Qed.

Lemma compact_records_replay s rejoin file :
  snap_wf s → encode_all (compact_records s) = Ok file →
  replay rejoin file = Ok (mkReplayed (alive_nodes s) (last_clock s) (last_event_clock s)
                             (last_query_clock s)).
Proof.
  intros Hwf Hf. change file with ([] ++ file).
  rewrite (replay_encode_all (compact_records s) rejoin [] replay_start file);
    [|done|by apply compact_records_good|done].
  unfold compact_records. rewrite foldl_app, foldl_alive. simpl.
  by rewrite list_to_set_elements_L, (right_id_L ∅ (∪)).
Qed.

Section quiet.
Context (Hio : ∀ k, io k = no_faults).

Lemma compact_ok s now :
  snap_wf s → ∃ s', compact io s now = Done (s', Ok tt) ∧ same_view s s' ∧ snap_wf s' ∧
    recoverable s'.
Proof.
  intros Hwf. unfold compact. rewrite Hio. cbn [no_faults f_open_new f_write_new f_flush_new
    f_sync_new f_remove f_rename f_reopen].
  destruct (encode_all_good _ (compact_records_good s Hwf)) as [file Hf].
  change (compact_records (next_io s)) with (compact_records s). rewrite Hf.
  change (fh (next_io s)) with (fh s). destruct (sw_open _ Hwf) as [pending Hp]. rewrite Hp.
  eexists. split; [done|]. split; [done|]. split.
  { destruct Hwf. constructor; simpl; eauto. }
  eexists. split.
  { unfold log. simpl. rewrite app_nil_r. by apply (compact_records_replay s). }
  by split.
Qed.

Lemma append_line_ok s r now p :
  snap_wf s → good_record r → replay (rejoin_after_leave s) (log s) = Ok p →
  matches s (apply_record (rejoin_after_leave s) p r) →
  ∃ s', append_line io s r now = Done (s', Ok tt) ∧ same_view s s' ∧ snap_wf s' ∧ recoverable s'.
Proof.
  intros Hwf Hg Hp Hm. destruct (sw_open _ Hwf) as [pending Hfh]. unfold append_line.
  rewrite Hfh, Hio. cbn [no_faults f_write f_flush].
  destruct (record_roundtrip r Hg) as (k & body & kind & He & _ & _). rewrite He.
  set (s1 := if FLUSH_INTERVAL <? _ then _ else _).
  assert (∃ d f fl, s1 = (set_file (next_io s) d (Some f) fl (offset s), Ok tt) ∧
    d ++ f = log s ++ k :: body) as (d & f & fl & -> & Hlog).
  { unfold s1. destruct (FLUSH_INTERVAL <? _).
    - eexists _, _, _. split; [done|]. unfold log. simpl. rewrite Hfh, app_nil_r. simpl.
      by rewrite <- app_assoc.
    - eexists _, _, _. split; [done|]. unfold log. simpl. rewrite Hfh. simpl.
      by rewrite <- app_assoc. }
  cbv zeta. set (s2 := set_file _ _ _ _ _).
  assert (snap_wf s2) as Hwf2 by (destruct Hwf; constructor; simpl; eauto).
  assert (same_view s s2) as Hsame by done.
  destruct (snapshot_max_size s2 <? offset s2).
  - destruct (compact_ok s2 now Hwf2) as (s' & Hc & Hs' & Hwf' & Hrec).
    exists s'. split; [done|]. split; [|done]. unfold same_view in *. intuition congruence.
  - exists s2. split; [done|]. split; [done|]. split; [done|].
    exists (apply_record (rejoin_after_leave s) p r). split; [|exact Hm].
    change (rejoin_after_leave s2) with (rejoin_after_leave s).
    change (log s2) with (d ++ f). rewrite Hlog. by apply replay_snoc.
Qed.

Lemma try_append_ok s r now p :
  snap_wf s → good_record r → replay (rejoin_after_leave s) (log s) = Ok p →
  matches s (apply_record (rejoin_after_leave s) p r) →
  ∃ s', try_append io s r now = Done s' ∧ same_view s s' ∧ snap_wf s' ∧ recoverable s'.
Proof.
  intros Hwf Hg Hp Hm. unfold try_append.
  destruct (append_line_ok s r now p Hwf Hg Hp Hm) as (s' & -> & Hrest). by exists s'.
Qed.

(** The invariant of the stream: nothing is lost, and a leave for good has
    emptied the set of nodes. *)
Record snap_ok s : Prop := {
  so_wf : snap_wf s;
  so_rec : recoverable s;
  so_left : leaving s = true → rejoin_after_leave s = false → alive_nodes s = ∅;
}.

Lemma snap_ok_view s s' :
  snap_wf s' → recoverable s' → same_view s s' →
  (leaving s = true → rejoin_after_leave s = false → alive_nodes s = ∅) → snap_ok s'.
Proof.
  intros Hwf Hrec (E1 & E2 & E3 & _) Hl. constructor; [done..|]. by rewrite E1, E2, E3.
Qed.

Lemma update_clock_ok s clock now :
  snap_ok s → is_u64 clock →
  ∃ s', update_clock io s clock now = Done s' ∧ snap_ok s' ∧ alive_nodes s' = alive_nodes s ∧
    leaving s' = leaving s ∧ rejoin_after_leave s' = rejoin_after_leave s.
Proof.
  intros [Hwf (p & Hp & Ha & Hm) Hl] Hc. unfold update_clock.
  destruct (_ <? _); [|by eexists; split_and!; [done|split; [done|by exists p|done]|..]].
  set (s1 := set_clocks _ _ _ _). set (t := Z.max 0 (clock - 1)) in *.
  assert (is_u64 t) as Ht by (unfold t, is_u64, u64_modulus in *; lia).
  destruct (try_append_ok s1 (RecClock t) now p) as (s' & Hs' & Hv & Hwf' & Hrec).
  - destruct Hwf as [? ? (? & ? & ?)]. constructor; simpl; eauto.
  - done.
  - done.
  - split; [done|]. simpl. intros Hlv. destruct (Hm Hlv) as (_ & ? & ?). done.
  - exists s'. split; [done|]. split; [by eapply snap_ok_view|]. by destruct Hv as (? & ? & ? & _).
Qed.

Lemma process_user_event_ok s t now :
  snap_ok s → leaving s = false → is_u64 t →
  ∃ s', process_user_event io s t now = Done s' ∧ snap_ok s' ∧ alive_nodes s' = alive_nodes s ∧
    leaving s' = false ∧ rejoin_after_leave s' = rejoin_after_leave s.
Proof.
  intros [Hwf (p & Hp & Ha & Hm) Hl] Hlv Ht. unfold process_user_event.
  destruct (_ <=? _); [by eexists; split_and!; [done|split; [done|by exists p|done]|..]|].
  set (s1 := set_clocks _ _ _ _).
  destruct (try_append_ok s1 (RecEventClock t) now p) as (s' & Hs' & Hv & Hwf' & Hrec).
  - destruct Hwf as [? ? (? & ? & ?)]. constructor; simpl; eauto.
  - done.
  - done.
  - split; [done|]. simpl. intros _. destruct (Hm Hlv) as (? & _ & ?). done.
  - exists s'. split; [done|]. split; [by eapply snap_ok_view|].
    destruct Hv as (? & E & ? & _). simpl in E. by rewrite E.
Qed.

Lemma process_query_event_ok s t now :
  snap_ok s → leaving s = false → is_u64 t →
  ∃ s', process_query_event io s t now = Done s' ∧ snap_ok s' ∧ alive_nodes s' = alive_nodes s ∧
    leaving s' = false ∧ rejoin_after_leave s' = rejoin_after_leave s.
Proof.
  intros [Hwf (p & Hp & Ha & Hm) Hl] Hlv Ht. unfold process_query_event.
  destruct (_ <=? _); [by eexists; split_and!; [done|split; [done|by exists p|done]|..]|].
  set (s1 := set_clocks _ _ _ _).
  destruct (try_append_ok s1 (RecQueryClock t) now p) as (s' & Hs' & Hv & Hwf' & Hrec).
  - destruct Hwf as [? ? (? & ? & ?)]. constructor; simpl; eauto.
  - done.
  - done.
  - split; [done|]. simpl. intros _. destruct (Hm Hlv) as (? & ? & _). done.
  - exists s'. split; [done|]. split; [by eapply snap_ok_view|].
    destruct Hv as (? & E & ? & _). simpl in E. by rewrite E.
Qed.

(** What a list of members does to the set of live nodes. *)
Definition alive_after (join : bool) (al : gset (Node I A)) (ms : list (Member I A)) :=
  foldl (λ al m, if join then {[node m]} ∪ al else al ∖ {[node m]}) al ms.

Lemma append_members_ok join ms now : ∀ s,
  snap_ok s → leaving s = false → Forall (λ m, short (node m)) ms →
  ∃ s', append_members io join s ms now = Done s' ∧ snap_ok s' ∧
    alive_nodes s' = alive_after join (alive_nodes s) ms ∧ leaving s' = false ∧
    rejoin_after_leave s' = rejoin_after_leave s.
Proof.
  induction ms as [|m ms IH]; intros s [Hwf (p & Hp & Ha & Hm) Hl] Hlv Hms.
  { exists s. split; [done|]. split; [by split; [|exists p|]|done]. }
  apply Forall_cons in Hms as [Hms0 Hms]. cbn [append_members].
  set (s1 := set_alive s (if join then {[node m]} ∪ alive_nodes s else alive_nodes s ∖ {[node m]})).
  destruct (try_append_ok s1 (if join then RecAlive (node m) else RecNotAlive (node m)) now p)
    as (s' & Hs' & Hv & Hwf' & Hrec).
  - destruct Hwf as [? Hsh ?]. constructor; simpl; eauto. intros n.
    destruct join; [|intros [? _]%elem_of_difference; by apply Hsh]. rewrite elem_of_union, elem_of_singleton.
    intros [->|?]; [done|by apply Hsh].
  - by destruct join.
  - done.
  - unfold matches, s1. destruct join; simpl; (split; [by rewrite Ha|]); intros _; by apply Hm.
  - assert (snap_ok s') as Hok by (eapply snap_ok_view; [done..|]; simpl; by rewrite Hlv).
    pose proof Hv as (E1 & E2 & E3 & _). simpl in E2.
    destruct (IH s' Hok) as (s2 & Hs2 & Hok2 & E4 & E5 & E6); [by rewrite E2|done|].
    exists s2. unfold s1 in Hs'. rewrite E4, E1, E6, E3.
    destruct join; rewrite Hs'; done.
Qed.

Definition event_ok (ev : CrateEvent I A) : Prop :=
  match ev with
  | EvMember e => Forall (λ m, short (node m)) (me_members e)
  | EvUser e => is_u64 (uem_ltime e)
  | EvQuery e | EvInternalQuery _ e => is_u64 (qe_ltime e)
  end.

Lemma process_member_event_ok s e clock now :
  snap_ok s → leaving s = false → Forall (λ m, short (node m)) (me_members e) → is_u64 clock →
  ∃ s', process_member_event io s e clock now = Done s' ∧ snap_ok s' ∧ leaving s' = false ∧
    rejoin_after_leave s' = rejoin_after_leave s.
Proof.
  intros Hok Hlv Hms Hc. unfold process_member_event.
  assert (∀ o, (∃ s1, o = Done s1 ∧ snap_ok s1 ∧ leaving s1 = false ∧
      rejoin_after_leave s1 = rejoin_after_leave s) →
    ∃ s', (run! y := o in update_clock io y clock now) = Done s' ∧ snap_ok s' ∧
      leaving s' = false ∧ rejoin_after_leave s' = rejoin_after_leave s) as Hk.
  { intros o (s1 & -> & Hok1 & Hlv1 & Hr1).
    destruct (update_clock_ok s1 clock now Hok1 Hc) as (s2 & -> & Hok2 & _ & E1 & E2).
    exists s2. rewrite E1, E2. done. }
  destruct (append_members_ok true (me_members e) now s Hok Hlv Hms)
    as (s1 & H1 & Hok1 & _ & L1 & R1).
  destruct (append_members_ok false (me_members e) now s Hok Hlv Hms)
    as (s2 & H2 & Hok2 & _ & L2 & R2).
  apply Hk. destruct (me_ty e); eauto.
Qed.

Lemma flush_event_ok s ev clock now :
  snap_ok s → leaving s = false → event_ok ev → is_u64 clock →
  ∃ s', flush_event io s ev clock now = Done s' ∧ snap_ok s' ∧ leaving s' = false ∧
    rejoin_after_leave s' = rejoin_after_leave s.
Proof.
  intros Hok Hlv Hev Hc. destruct ev as [e|e|e|k e]; cbn [flush_event event_ok] in *.
  - by apply process_member_event_ok.
  - destruct (process_user_event_ok s (uem_ltime e) now Hok Hlv Hev) as (s' & ? & ? & _ & ? & ?).
    eauto.
  - destruct (process_query_event_ok s (qe_ltime e) now Hok Hlv Hev) as (s' & ? & ? & _ & ? & ?).
    eauto.
  - destruct (process_query_event_ok s (qe_ltime e) now Hok Hlv Hev) as (s' & ? & ? & _ & ? & ?).
    eauto.
Qed.

Lemma log_flushed s d fl off : log (set_file s d (Some []) fl off) = d.
Proof. apply app_nil_r. Qed.

Lemma flush_file_ok s : snap_ok s → snap_ok (flush_file s) ∧ disk (flush_file s) = log s.
Proof.
  intros [Hwf (p & Hp & Hm) Hl]. unfold flush_file. destruct (sw_open _ Hwf) as [pending Hfh].
  rewrite Hfh. split; [|done]. constructor; [|exists p|done].
  - destruct Hwf. constructor; simpl; eauto.
  - by rewrite log_flushed.
Qed.

Lemma handle_leave_ok s now :
  snap_ok s → ∃ s', handle_leave io s now = Done s' ∧ snap_ok s' ∧ leaving s' = true ∧
    rejoin_after_leave s' = rejoin_after_leave s.
Proof.
  intros [Hwf (p & Hp & Ha & Hm) Hl]. unfold handle_leave.
  set (s1 := if rejoin_after_leave (set_leaving s) then _ else _).
  assert (leaving s1 = true ∧ rejoin_after_leave s1 = rejoin_after_leave s ∧ log s1 = log s ∧
    snap_wf s1 ∧ matches s1 (apply_record (rejoin_after_leave s1) p RecLeave) ∧
    (rejoin_after_leave s1 = false → alive_nodes s1 = ∅)) as (L1 & R1 & G1 & W1 & M1 & E1).
  { unfold s1. simpl. destruct (rejoin_after_leave s) eqn:Er; simpl; rewrite ?Er;
      (split_and!; try done); try (destruct Hwf; constructor; simpl; eauto; set_solver). }
  destruct (try_append_ok s1 RecLeave now p W1) as (s' & -> & Hv & Hwf' & Hrec);
    [done|by rewrite R1, G1|done|].
  assert (snap_ok s') as Hok by (eapply snap_ok_view; eauto).
  destruct (flush_file_ok s' Hok) as [Hok' _]. exists (flush_file s'). split; [done|].
  split; [done|]. destruct Hv as (_ & E2 & E3 & _).
  assert (leaving (flush_file s') = leaving s' ∧
          rejoin_after_leave (flush_file s') = rejoin_after_leave s') as [-> ->]
    by (unfold flush_file; by destruct (fh s')).
  by rewrite E2, E3, L1, R1.
Qed.

Definition signal_ok (g : signal (I := I) (A := A)) : Prop :=
  match g with SigEvent ev => event_ok ev | _ => True end.

Lemma stream_step_ok s g clock now :
  snap_ok s → signal_ok g → is_u64 clock →
  ∃ s' more, stream_step io s g clock now = Done (s', more) ∧ snap_ok s' ∧
    rejoin_after_leave s' = rejoin_after_leave s ∧
    (g = SigLeave ∨ leaving s = true → leaving s' = true).
Proof.
  intros Hok Hg Hc. destruct g as [|ev| |]; cbn [stream_step].
  - destruct (handle_leave_ok s now Hok) as (s' & -> & ? & ? & ?). by exists s', true.
  - destruct (leaving s) eqn:Hlv; [by exists s, false|].
    destruct (flush_event_ok s ev clock now Hok Hlv Hg Hc) as (s' & -> & ? & ? & ?).
    exists s', true. split_and!; try done. by intros [|].
  - destruct (update_clock_ok s clock now Hok Hc) as (s' & -> & ? & _ & E1 & E2).
    exists s', true. split_and!; try done. rewrite E1. by intros [|].
  - exists s, false. split_and!; try done. by intros [|].
Qed.

Lemma stream_loop_ok gs : ∀ s,
  snap_ok s → Forall (λ x, signal_ok x.1.1 ∧ is_u64 x.1.2) gs →
  ∃ s', stream_loop io s gs = Done s' ∧ snap_ok s' ∧
    rejoin_after_leave s' = rejoin_after_leave s ∧ (leaving s = true → leaving s' = true).
Proof.
  induction gs as [|[[g clock] now] gs IH]; intros s Hok Hgs; [by exists s|].
  apply Forall_cons in Hgs as [[Hg Hc] Hgs]. simpl in Hg, Hc. cbn [stream_loop].
  destruct (stream_step_ok s g clock now Hok Hg Hc) as (s1 & more & -> & Hok1 & R1 & L1).
  destruct more.
  - destruct (IH s1 Hok1 Hgs) as (s' & -> & Hok' & R' & L'). exists s'. rewrite R', R1. split_and!; auto.
  - exists s1. rewrite R1. split_and!; auto.
Qed.

Lemma drain_ok evs clock now : ∀ s,
  snap_ok s → Forall event_ok evs → is_u64 clock →
  ∃ s', drain io s evs clock now = Done s' ∧ snap_ok s' ∧
    rejoin_after_leave s' = rejoin_after_leave s ∧ leaving s' = leaving s.
Proof.
  induction evs as [|ev evs IH]; intros s Hok Hevs Hc; [by exists s|].
  apply Forall_cons in Hevs as [Hev Hevs]. cbn [drain]. destruct (leaving s) eqn:Hlv; [by exists s|].
  destruct (flush_event_ok s ev clock now Hok Hlv Hev Hc) as (s1 & -> & Hok1 & L1 & R1).
  destruct (IH s1 Hok1 Hevs Hc) as (s' & -> & Hok' & R' & L'). exists s'. by rewrite R', L', L1, R1.
Qed.

Lemma stream_exit_ok s lp evs clock now :
  snap_ok s → Forall event_ok evs → is_u64 clock →
  ∃ s', stream_exit io s lp evs clock now = Done s' ∧ snap_ok s' ∧ disk s' = log s' ∧
    rejoin_after_leave s' = rejoin_after_leave s ∧ (lp = true ∨ leaving s = true → leaving s' = true).
Proof.
  intros Hok Hevs Hc. unfold stream_exit.
  assert (∃ s1, (if lp then handle_leave io s now else Done s) = Done s1 ∧ snap_ok s1 ∧
    rejoin_after_leave s1 = rejoin_after_leave s ∧ (lp = true ∨ leaving s = true → leaving s1 = true))
    as (s1 & -> & Hok1 & R1 & L1).
  { destruct lp; [|exists s; split_and!; try done; by intros [|]].
    destruct (handle_leave_ok s now Hok) as (s1 & ? & ? & ? & ?). by exists s1. }
  destruct (update_clock_ok s1 clock now Hok1 Hc) as (s2 & -> & Hok2 & _ & L2 & R2).
  destruct (drain_ok evs clock now s2 Hok2 Hevs Hc) as (s3 & -> & Hok3 & R3 & L3).
  destruct (flush_file_ok s3 Hok3) as [Hok4 Hd]. exists (flush_file s3).
  split; [done|]. split; [done|]. destruct (sw_open _ (so_wf _ Hok3)) as [pend Hfh].
  unfold flush_file in *. rewrite Hfh in *. rewrite log_flushed. simpl.
  rewrite R3, R2, R1, L3, L2. auto.
Qed.

Lemma from_replay_ok rejoin file p0 min now :
  replay rejoin file = Ok p0 → (∀ n, n ∈ rp_alive p0 → short n) →
  is_u64 (rp_clock p0) ∧ is_u64 (rp_event_clock p0) ∧ is_u64 (rp_query_clock p0) →
  snap_ok (from_replay_result p0 file min rejoin now).
Proof.
  intros Hr Hs Hc. constructor; [constructor; simpl; eauto| |done].
  exists p0. split; [|done]. unfold log. simpl. by rewrite app_nil_r.
Qed.

End quiet.

(** ** Properties *)

(** C17: Without I/O faults, and when the encoding of every node in the old file
    and in the events takes at most 59 bytes, what the inline buffer of a
    record has room for, the snapshotter never panics, and the file it leaves
    at shutdown replays to what it held in memory: the live nodes and, unless
    the instance left, the three clocks.  After a leave for good no node is
    left to rejoin, whatever came before or after it.  ([long_node_unrecorded]
    shows that a longer node is never recorded.) *)
Theorem snapshot_recovers rejoin file p0 min now0 gs lp evs clock now :
  (∀ k, io k = no_faults) →
  replay rejoin file = Ok p0 → (∀ n, n ∈ rp_alive p0 → short n) →
  is_u64 (rp_clock p0) ∧ is_u64 (rp_event_clock p0) ∧ is_u64 (rp_query_clock p0) →
  Forall (λ x, signal_ok x.1.1 ∧ is_u64 x.1.2) gs → Forall event_ok evs → is_u64 clock →
  ∃ s1 s2 p, stream_loop io (from_replay_result p0 file min rejoin now0) gs = Done s1 ∧
    stream_exit io s1 lp evs clock now = Done s2 ∧
    replay rejoin (disk s2) = Ok p ∧ matches s2 p ∧
    (rejoin = false → lp = true ∨ leaving s1 = true → rp_alive p = ∅).
Proof.
  intros Hio Hr Hs Hu Hgs Hevs Hc.
  pose proof (from_replay_ok rejoin file p0 min now0 Hr Hs Hu) as Hok0.
  destruct (stream_loop_ok Hio gs _ Hok0 Hgs) as (s1 & H1 & Hok1 & R1 & _).
  destruct (stream_exit_ok Hio s1 lp evs clock now Hok1 Hevs Hc) as (s2 & H2 & Hok2 & Hd & R2 & L2).
  simpl in R1. destruct (so_rec _ Hok2) as (p & Hp & Hm).
  exists s1, s2, p. split; [done|]. split; [done|]. rewrite Hd. split; [by rewrite <- R1, <- R2|].
  split; [done|]. intros -> Hl. destruct Hm as [-> _]. apply (so_left _ Hok2); [auto|congruence].
Qed.

(** A node whose encoding does not fit the inline buffer is never
    written: its record fails to encode, so a join of it leaves the log as it
    was, and as long as it is among the live nodes every compaction fails. *)
Theorem long_node_unrecorded n s now :
  (59 < node_encoded_len n)%nat →
  (∀ k, io k = no_faults) → is_Some (fh s) →
  since now (last_attempted_compaction s) <= SNAPSHOT_ERROR_RECOVERY_INTERVAL →
  encode_record (RecAlive n) = Err InvalidData ∧
  (∃ s', try_append io (set_alive s ({[n]} ∪ alive_nodes s)) (RecAlive n) now = Done s' ∧
     log s' = log s ∧ n ∈ alive_nodes s' ∧
     ∃ s2, compact io s' now = Done (s2, Err (SWriteNew InvalidData)) ∧ log s2 = log s).
Proof.
  intros Hlong Hio [pending Hfh] Hsince.
  assert (∀ st, encode_node st n = Err InvalidData) as Henc.
  { intros st. unfold encode_node. rewrite (proj2 (Nat.leb_gt _ _)) by (unfold MAX_INLINED_BYTES; lia).
    rewrite length_cons, to_le_length.
    by destruct (node_encode_short n 5 ltac:(lia)) as [e ->]. }
  split; [apply Henc|]. unfold try_append, append_line. simpl. rewrite Hfh, Henc.
  simpl. rewrite (proj2 (Z.ltb_ge _ _)) by done.
  eexists. split; [done|]. split; [done|]. split; [simpl; set_solver|].
  unfold compact. rewrite Hio. cbn [no_faults f_open_new].
  match goal with |- context [encode_all ?rs] => assert (encode_all rs = Err InvalidData) as -> end.
  { unfold compact_records. simpl.
    apply encode_all_long; [intros; by eapply encode_record_error|]. exists n. split; [apply Henc|]. apply elem_of_app. left.
    apply list_elem_of_fmap. exists n. split; [done|]. apply elem_of_elements. set_solver. }
  by eexists.
Qed.

(** A compaction that has closed the old file and then fails to install
    the new one leaves no open file, and the next record to append panics. *)
Theorem failed_compaction_panics s now e pending r now' :
  fh s = Some pending → Forall good_record (compact_records s) →
  io (io_count s) = mkFaults None None None None None None None (Some e) None →
  ∃ s', compact io s now = Done (s', Err (SInstall e)) ∧ fh s' = None ∧ disk s' = [] ∧
    append_line io s' r now' = Panic.
Proof.
  intros Hfh Hg Hio. unfold compact. rewrite Hio. cbn [f_open_new f_write_new f_flush_new f_sync_new
    f_remove f_rename].
  destruct (encode_all_good _ Hg) as [file Hf].
  change (compact_records (next_io s)) with (compact_records s). rewrite Hf.
  change (fh (next_io s)) with (fh s). rewrite Hfh. by eexists.
Qed.

End facts.

(** ** A concrete node encoding, and the properties at work *)

(** The id in unary, a zero byte, the address in unary. *)
Definition sample_node_bytes (n : Node nat nat) : bytes :=
  replicate (node_id n) x01 ++ x00 :: replicate (address n) x01.

Fixpoint sample_node_decode (i : nat) (b : bytes) : Result (nat * Node nat nat) DecodeError :=
  match b with
  | [] => Err BufferUnderflow
  | x00 :: b => Ok ((i + 1 + length b)%nat, mkNode i (length b))
  | _ :: b => sample_node_decode (S i) b
  end.

#[export] Instance sample_node_data : NodeData nat nat := {|
  node_encoded_len n := length (sample_node_bytes n);
  node_encode n len :=
    if (length (sample_node_bytes n) <=? len)%nat then Ok (sample_node_bytes n)
    else Err (InsufficientBuffer (Z.of_nat (length (sample_node_bytes n))) (Z.of_nat len));
  node_decode := sample_node_decode 0;
|}.

Lemma sample_node_decode_bytes k a : ∀ i,
  sample_node_decode i (replicate k x01 ++ x00 :: replicate a x01) =
  Ok ((i + k + 1 + a)%nat, mkNode (i + k)%nat a).
Proof.
  induction k as [|k IH]; intros i; simpl.
  - rewrite length_replicate, Nat.add_0_r. done.
  - rewrite IH. do 2 f_equal; [lia|]. f_equal. lia.
Qed.

#[export] Instance sample_node_laws : NodeDataLaws nat nat.
Proof.
  constructor; intros n len Hlen; cbn [node_encode node_encoded_len node_decode sample_node_data] in *.
  - rewrite (proj2 (Nat.leb_gt _ _)) by done. by eexists.
  - rewrite (proj2 (Nat.leb_le _ _)) by done. exists (sample_node_bytes n). split_and!; [done..|].
    unfold sample_node_bytes. rewrite sample_node_decode_bytes.
    rewrite length_app, length_cons, !length_replicate. destruct n as [i a]. simpl.
    do 2 f_equal. lia.
Qed.

Section witnesses.
Let quiet : nat → Faults := λ _, no_faults.
Let member_of (i : nat) : Member nat nat :=
  mkMember (mkNode i i) [] MemberStatus.Alive PV1 DV1 PV1 DV1.
Let joined (i : nat) : signal :=
  SigEvent (EvMember (mkMemberEvent MemberEventType.Join [member_of i])).

Lemma snapshot_roundtrip_witness :
  ∃ file, encode_all [RecAlive (mkNode 3%nat 4%nat); RecClock 77; RecNotAlive (mkNode 3%nat 4%nat)]
            = Ok file ∧
    rp_clock <$> (match replay false file with Ok p => Some p | Err _ => None end) = Some 77.
Proof.
  destruct (snapshot_roundtrip false
    [RecAlive (mkNode 3%nat 4%nat); RecClock 77; RecNotAlive (mkNode 3%nat 4%nat)])
    as (file & Hf & Hr).
  - repeat (apply Forall_cons; split); [vm_compute; lia|vm_compute; split; congruence|vm_compute; lia|].
    apply Forall_nil; exact Logic.I.
  - exists file. split; [exact Hf|]. rewrite Hr. reflexivity.
Defined.

Lemma torn_snapshot_rejected_witness :
  replay (I := nat) (A := nat) false (take 5 (encode_time 2 77)) = Err (SReplay UnexpectedEof).
Proof.
  apply (torn_snapshot_rejected (I := nat) (A := nat) false [] (RecClock 77) [] (encode_time 2 77) 5).
  - apply Forall_singleton. vm_compute. split; congruence.
  - reflexivity.
  - reflexivity.
  - vm_compute. lia.
Defined.

(** Two joins, a leave for good: nobody to rejoin. *)
Lemma snapshot_recovers_witness :
  ∃ s1 s2 p, stream_loop quiet (from_replay_result replay_start [] 1000 false 0)
      [(joined 1, 5, 1); (joined 2, 6, 2); (SigLeave, 7, 3)] = Done s1 ∧
    stream_exit quiet s1 false [] 8 4 = Done s2 ∧
    replay false (disk s2) = Ok p ∧ rp_alive p = ∅.
Proof.
  destruct (snapshot_recovers quiet false [] replay_start 1000 0
    [(joined 1, 5, 1); (joined 2, 6, 2); (SigLeave, 7, 3)] false [] 8 4)
    as (s1 & s2 & p & H1 & H2 & H3 & _ & H4).
  - reflexivity.
  - reflexivity.
  - intros n Hn. by apply elem_of_empty in Hn.
  - vm_compute. intuition congruence.
  - repeat (apply Forall_cons; split); try (apply Forall_nil; exact Logic.I);
      (split; [|vm_compute; split; congruence]); try exact Logic.I;
      apply Forall_singleton; vm_compute; lia.
  - apply Forall_nil; exact Logic.I.
  - vm_compute. split; congruence.
  - exists s1, s2, p. split; [exact H1|]. split; [exact H2|]. split; [exact H3|].
    apply H4; [reflexivity|]. right. vm_compute in H1. injection H1 as <-. reflexivity.
Defined.

Lemma long_node_unrecorded_witness :
  encode_record (RecAlive (mkNode 40%nat 40%nat)) = Err InvalidData.
Proof.
  apply (long_node_unrecorded quiet (mkNode 40%nat 40%nat)
    (from_replay_result replay_start [] 1000 false 0) 0).
  - vm_compute. lia.
  - reflexivity.
  - eexists. reflexivity.
  - vm_compute. congruence.
Defined.

Lemma failed_compaction_panics_witness :
  ∃ s', compact (λ _, mkFaults None None None None None None None (Some OtherIo) None)
      (from_replay_result (I := nat) (A := nat) replay_start [] 1000 false 0) 0 =
      Done (s', Err (SInstall OtherIo)) ∧ fh s' = None.
Proof.
  destruct (failed_compaction_panics
    (λ _, mkFaults None None None None None None None (Some OtherIo) None)
    (from_replay_result (I := nat) (A := nat) replay_start [] 1000 false 0) 0 OtherIo [] RecLeave 1)
    as (s' & H1 & H2 & _).
  - reflexivity.
  - apply compact_records_good, so_wf, from_replay_ok;
      [reflexivity|intros n Hn; by apply elem_of_empty in Hn|vm_compute; intuition congruence].
  - reflexivity.
  - exists s'. split; [exact H1|exact H2].
Defined.

End witnesses.
