(* ===== verification/Delegate.v ===== *)
(** * Serving memberlist (serf-core/src/serf/delegate.rs, event/crate_event.rs)

    [SerfDelegate] is what memberlist calls: gossip messages, the state
    exchange on join and at intervals, node events, conflicts and pings.
    The delegate holds a weak reference to the instance; the definitions are
    about an instance that is still there; Ownership.v has the callbacks with
    and without one.  [decode_coordinate] is the codec
    of a coordinate ([CodecCoordinate] supplies it). *)

From Stdlib Require Import ZArith Lia Strings.Byte Floats.SpecFloat.
From stdpp Require Import base list gmap strings.
From S2P Require Import Prelude Clock Coordinate Types Core Sample Membership MemberTraces Lifecycle.
From S2P Require Import UserEvents Responses Query QueryFacts.
Local Open Scope Z_scope.
Local Open Scope serf_scope.

Definition PING_VERSION : byte := x01.

Definition INTERNAL_PING : string := "_serf_ping".
Definition INTERNAL_CONFLICT : string := "_serf_conflict".
Definition INTERNAL_INSTALL_KEY : string := "_serf_install_key".
Definition INTERNAL_USE_KEY : string := "_serf_use_key".
Definition INTERNAL_REMOVE_KEY : string := "_serf_remove_key".
Definition INTERNAL_LIST_KEYS : string := "_serf_list_keys".

Section delegate.
Context {I A R : Type} `{Countable I} `{Countable A} `{!Codec I A R}.
Implicit Types (s : Serf I A) (rnd : nat → Z) (buf : bytes).

(** ** Meta data *)

(** The tags are written into a zeroed buffer of their length. *)
Definition node_meta (tg : Tags) (limit : Z) : outcome bytes :=
  match tg with
  | [] => Done []
  | _ =>
      let encoded_len := tags_encoded_len tg in
      let limit := Z.min limit META_MAX_SIZE in
      if limit <? encoded_len then Panic
      else
        match encode_tags tg with
        | Ok b =>
            if limit <? Z.of_nat (length b) then Panic
            else Done (b ++ replicate (Z.to_nat encoded_len - length b) x00)
        | Err _ => Done []
        end
  end.

(** ** Gossip *)

Definition decode_internal_query (q : QueryMessageRef I A)
  : option (Result (InternalQueryEvent I) DecodeError) :=
  if decide (qr_name q = INTERNAL_PING) then Some (Ok IQPing)
  else if decide (qr_name q = INTERNAL_CONFLICT) then
    Some (try! id := decode_id (qr_payload q) in Ok (IQConflict id))
  else if decide (qr_name q = INTERNAL_INSTALL_KEY) then Some (Ok IQInstallKey)
  else if decide (qr_name q = INTERNAL_USE_KEY) then Some (Ok IQUseKey)
  else if decide (qr_name q = INTERNAL_REMOVE_KEY) then Some (Ok IQRemoveKey)
  else if decide (qr_name q = INTERNAL_LIST_KEYS) then Some (Ok IQListKey)
  else None.

(** The queue a message is rebroadcast on. *)
Definition queue_intent s buf : Serf I A :=
  set_broadcasts s (broadcasts s ++ [mkBroadcast buf false]).
Definition queue_event s buf : Serf I A :=
  set_event_broadcasts s (event_broadcasts s ++ [mkBroadcast buf false]).
Definition queue_query s buf : Serf I A :=
  set_query_broadcasts s (query_broadcasts s ++ [mkBroadcast buf false]).

(** The message inside a relay envelope: the slice the decoder found, or, when
    the buffer is owned, the part of it at the offset it recorded
    ([Bytes::advance], [Bytes::split_to]). *)
Definition relayed (owned : bool) buf (payload_offset : nat) (payload : bytes) : outcome bytes :=
  if owned then
    if (length buf <? payload_offset + length payload)%nat then Panic
    else Done (take (length payload) (drop payload_offset buf))
  else Done payload.

(** [owned]: whether the [Cow] memberlist hands over is owned. *)
Definition notify_message s (owned : bool) buf (now : Z) rnd : outcome (Serf I A) :=
  match buf with
  | [] => Done s
  | _ =>
  run! decoded := decode_message (R := R) buf in
  match decoded with
  | Err _ => Done s
  | Ok msg =>
  match msg with
  | RLeave ltime id prune =>
      match id with
      | Err _ => Done s
      | Ok id =>
          let '(s, rebroadcast) := handle_node_leave_intent s (mkLeave ltime id prune) now in
          Done (if rebroadcast then queue_intent s buf else s)
      end
  | RJoin ltime id =>
      match id with
      | Err _ => Done s
      | Ok id =>
          let '(s, rebroadcast) := handle_node_join_intent s (mkJoin ltime id) now in
          Done (if rebroadcast then queue_intent s buf else s)
      end
  | RUserEvent m =>
      run! (s, rebroadcast) := handle_user_event s m in
      Done (if rebroadcast : bool then queue_event s buf else s)
  | RQuery q =>
      let continue ty :=
        run! (s, r) := handle_query (R := R) s (QLeft q) ty now rnd in
        match r with
        | Ok true => Done (queue_query s buf)
        | _ => Done s
        end in
      match decode_internal_query q with
      | Some (Err _) => Done s
      | Some (Ok ty) => continue (Some ty)
      | None => continue None
      end
  | RQueryResponse ltime id resp => Done (serf_handle_query_response s ltime id resp now).1
  | RRelay addr payload_offset payload =>
      match addr with
      | Ok addr =>
          run! msg := relayed owned buf payload_offset payload in
          Done (memberlist_send s addr msg)
      | Err _ => Done s
      end
  | RPushPull _ _ _ _ | RConflictResponse _ | RKeyRequest | RKeyResponse => Done s
  end end end.

(** ** State exchange *)

(** The ids collect into sets; the member table and the list of departed
    members hold no id twice ([wf_members]). *)
Definition local_state_message s : PushPullMessage I :=
  mkPushPull (Clock.time (clock s))
    ((λ p, (ms_id p.2, status_time p.2)) <$> map_to_list (states (members s)))
    (ms_id <$> left_members (members s))
    (Clock.time (event_clock s)) (omap id (event_buffer (event_core s)))
    (Clock.time (query_clock s)).

Definition local_state s : bytes :=
  match encode_message_to_bytes (R := R) (A := A) (MPushPull (local_state_message s)) with
  | Ok b => b
  | Err _ => []
  end.

(** "We subtract 1 since no message with that clock has been sent yet". *)
Definition witness_remote s (ltime event_ltime query_ltime : Z) : Serf I A :=
  let s := if 0 <? ltime then witness_clock s (Clock.sub ltime 1) else s in
  let s := if 0 <? event_ltime then witness_event_clock s (Clock.sub event_ltime 1) else s in
  if 0 <? query_ltime then witness_query_clock s (Clock.sub query_ltime 1) else s.

Definition get_ltime (l : list (I * Z)) (id : I) : option Z :=
  match list_find (λ p, p.1 = id) l with Some (_, (_, t)) => Some t | None => None end.

(** The left members go first, one past the time they are listed with. *)
Definition merge_left s (pp : PushPullMessage I) (now : Z) : Serf I A :=
  foldl (λ s id,
    match get_ltime (pp_status_ltimes pp) id with
    | Some t => (handle_node_leave_intent s (mkLeave (Clock.add t 1) id false) now).1
    | None => s
    end) s (pp_left_members pp).

Definition merge_status s (pp : PushPullMessage I) (now : Z) : Serf I A :=
  foldl (λ s p,
    if decide (p.1 ∈ pp_left_members pp) then s
    else (handle_node_join_intent s (mkJoin p.2 p.1) now).1) s (pp_status_ltimes pp).

Fixpoint merge_events s (evs : list UserEventMessage) : outcome (Serf I A) :=
  match evs with
  | [] => Done s
  | e :: evs => run! (s, _) := handle_user_event s e in merge_events s evs
  end.

Definition exchanged_events (pp : PushPullMessage I) : list UserEventMessage :=
  us ← pp_events pp; e ← ues_events us;
  [mkUserEventMessage (ues_ltime us) (ue_name e) (ue_payload e) false].

Definition ignore_events s (event_ltime : Z) : Serf I A :=
  let ec := event_core s in
  if event_min_time ec <? event_ltime
  then set_event_core s (mkEventCore event_ltime (event_buffer ec)) else s.

(** Everything past the clocks. *)
Definition merge_push_pull s (pp : PushPullMessage I) (event_ltime : Z) (is_join : bool) (now : Z)
  : outcome (Serf I A) :=
  let s := merge_left s pp now in
  let s := merge_status s pp now in
  let s := if is_join && event_join_ignore s then ignore_events s event_ltime else s in
  merge_events s (exchanged_events pp).

Definition merge_remote_state s buf (is_join : bool) (now : Z) : outcome (Serf I A) :=
  match buf with
  | [] => Done s
  | _ =>
  run! decoded := decode_message (R := R) buf in
  match decoded with
  | Ok (RPushPull ltime event_ltime query_ltime pp) =>
      let s := witness_remote s ltime event_ltime query_ltime in
      match pp with
      | Err _ => Done s
      | Ok pp => merge_push_pull s pp event_ltime is_join now
      end
  | _ => Done s
  end end.

(** ** Node events, merges, conflicts, pings *)

Definition notify_join s (n : NodeState I A) : Serf I A := handle_node_join s n.
Definition notify_leave s (n : NodeState I A) (now : Z) : Serf I A := handle_node_leave s n now.
Definition notify_update s (n : NodeState I A) : Serf I A := handle_node_update s n.

Definition node_to_member (n : NodeState I A) : Result (Member I A) Error :=
  let st := if decide (ns_state n = NSLeft) then MemberStatus.Left else MemberStatus.None in
  let len := Z.of_nat (length (meta n)) in
  if META_MAX_SIZE <? len then Err (TagsTooLarge len)
  else
    match (if decide (meta n = []) then Ok [] else decode_tags (meta n)) with
    | Ok tg => Ok (mkMember (ns_node n) tg st (ns_protocol_version n) (ns_delegate_version n) PV1 DV1)
    | Err e => Err (Decode e)
    end.

(** The user's [MergeDelegate], if any: the members it is asked about, and
    its veto. *)
Inductive MergeError (E : Type) : Type := MergeSerf (e : Error) | MergeUser (e : E).
Arguments MergeSerf {E}.
Arguments MergeUser {E}.

Fixpoint nodes_to_members (ns : list (NodeState I A)) : Result (list (Member I A)) Error :=
  match ns with
  | [] => Ok []
  | n :: ns => try! m := node_to_member n in try! ms := nodes_to_members ns in Ok (m :: ms)
  end.

Definition notify_merge {E} (delegate : option (list (Member I A) → Result unit E))
    (peers : list (NodeState I A)) : Result unit (MergeError E) :=
  match delegate with
  | None => Ok tt
  | Some d =>
      match nodes_to_members peers with
      | Err e => Err (MergeSerf e)
      | Ok ms => match d ms with Ok _ => Ok tt | Err e => Err (MergeUser e) end
      end
  end.

Definition notify_alive {E} (delegate : option (list (Member I A) → Result unit E))
    (n : NodeState I A) : Result unit (MergeError E) :=
  match delegate with
  | None => Ok tt
  | Some d =>
      match node_to_member n with
      | Err e => Err (MergeSerf e)
      | Ok m => match d [m] with Ok _ => Ok tt | Err e => Err (MergeUser e) end
      end
  end.

(** [handle_node_conflict]: the local id is contested. *)
Definition notify_conflict s (existing other : NodeState I A) : Serf I A :=
  if decide (node_id (ns_node existing) = local_id s) then
    if enable_id_conflict_resolution (opts s) then spawn s TaskResolveConflict else s
  else s.

(** The count at the end of [resolve_node_conflict]: responses that are
    conflict responses, and those of them that name our address.  Returns
    whether this node stays. *)
Definition tally s (payloads : list bytes) : outcome (nat * nat) :=
  foldl (λ acc p,
    run! (n, k) := acc in
    run! decoded := decode_message (R := R) (I := I) p in
    match decoded with
    | Ok (RConflictResponse (Ok addr)) =>
        Done (S n, if decide (addr = address (local_node s)) then S k else k)
    | Ok (RConflictResponse (Err _)) => Done (S n, k)
    | _ => Done (n, k)
    end) (Done (0%nat, 0%nat)) payloads.

Definition survives_conflict s (payloads : list bytes) : outcome bool :=
  run! (n, k) := tally s payloads in Done (n / 2 + 1 <=? k)%nat.

(** ** Gossip out *)

(** [SerfBroadcast::encoded_len]: what the queues count a message as. *)
Definition broadcast_encoded_len (msg : bytes) : Z := Z.of_nat (length msg).

(** memberlist's [TransmitLimitedQueue::get_broadcasts]: the messages it
    hands out within a limit and the queue that remains; [encoded_len] is
    memberlist's closure for what a message takes in the packet. *)
Section gossip.
Context (get_broadcasts : list SerfBroadcast → Z → list bytes * list SerfBroadcast)
  (encoded_len : bytes → Z).

Definition bytes_used (used : Z) (msgs : list bytes) : Z :=
  foldl (λ u m, add64 u (encoded_len m)) used msgs.

(** Intents first, then queries, then user events, each within what the
    ones before left. *)
Definition broadcast_messages s (limit : Z) : Serf I A * list bytes :=
  let '(msgs, rest) := get_broadcasts (broadcasts s) limit in
  let s := set_broadcasts s rest in
  let used := bytes_used 0 msgs in
  let '(query_msgs, rest) := get_broadcasts (query_broadcasts s) (sub64 limit used) in
  let s := set_query_broadcasts s rest in
  let used := bytes_used used query_msgs in
  let '(event_msgs, rest) := get_broadcasts (event_broadcasts s) (sub64 limit used) in
  let s := set_event_broadcasts s rest in
  (s, msgs ++ query_msgs ++ event_msgs).
End gossip.

(** [powf] is [f64::powf], as in Coordinate.v. *)
Context (coordinate_encoded_len : Coordinate → nat)
  (encode_coordinate : Coordinate → Result bytes EncodeError)
  (decode_coordinate : bytes → Result Coordinate DecodeError)
  (powf : spec_float → spec_float → spec_float).

(** The coordinate is written into a zeroed buffer of its length. *)
Definition ack_payload s : bytes :=
  match coord_core s with
  | None => []
  | Some cc =>
      let c := get_coordinate (client cc) in
      let len := coordinate_encoded_len c in
      let b := match encode_coordinate c with Ok b => b | Err _ => [] end in
      PING_VERSION :: b ++ replicate (len - length b) x00
  end.

Definition notify_ping_complete s (id : I) (rtt : Z) (payload : bytes)
    (rnd1 rnd2 : nat → spec_float) : outcome (Serf I A) :=
  match payload with
  | [] => Done s
  | v :: rest =>
  match coord_core s with
  | None => Done s
  | Some cc =>
      if decide (v = PING_VERSION) then
        match decode_coordinate rest with
        | Err _ => Done s
        | Ok c =>
            run! (cl, r) := update powf rnd1 rnd2 (client cc) id c rtt in
            match r with
            | Ok _ =>
                let cache := <[local_id s := get_coordinate cl]> (<[id := c]> (cache cc)) in
                Done (set_coord_core s (Some (mkCoordCore cl cache)))
            | Err _ => Done (set_coord_core s (Some (mkCoordCore cl (cache cc))))
            end
        end
      else Done s
  end end.

End delegate.

(** ** What the exchange of state achieves *)

Section facts.
Context {I A R : Type} `{Countable I} `{Countable A} `{!Codec I A R}.
Implicit Types (s t : Serf I A) (rnd : nat → Z).

(** A leave intent about another node leaves nothing older remembered. *)
Lemma leave_intent_reaches s msg now :
  wf_members (members s) → 0 <= leave_ltime msg → prune msg = false → leave_id msg ≠ local_id s →
  leave_ltime msg <= seen (handle_node_leave_intent s msg now).1 (leave_id msg).
Proof.
  intros Hwf Hpos Hprune Hne.
  pose proof (leave_intent_spec s msg now Hpos Hprune) as Hspec.
  destruct (handle_node_leave_intent s msg now) as [s' b] eqn:E. destruct Hspec as [Hacc Hmono].
  cbn [fst]. destruct b; [rewrite Hacc; done|]. etrans; [|apply Hmono]. clear Hacc Hmono.
  revert E. unfold handle_node_leave_intent, prune_if, seen. rewrite Hprune. simpl.
  destruct (states (members s) !! leave_id msg) as [ms|] eqn:Hms.
  - destruct (leave_ltime msg <=? status_time ms) eqn:Hle; bool_to_prop; [done|].
    rewrite decide_False by (by intros [? _]).
    pose proof (wfe_status _ _ (wfm_entries _ Hwf _ _ Hms)) as Hk.
    unfold known_status, ms_status in *. simpl.
    destruct (status (member ms)); simpl; try done; intuition discriminate.
  - destruct (upsert_intent _ _ _ _ _) as [i b] eqn:Eu. intros [= _ ->]. revert Eu.
    unfold upsert_intent. destruct (recent_intents (members s) !! leave_id msg) as [it|]; [|done].
    destruct (intent_ltime it <? leave_ltime msg) eqn:El; [done|]. bool_to_prop. done.
Qed.

Lemma leave_intent_local s msg now :
  prune msg = false → local_node (handle_node_leave_intent s msg now).1 = local_node s.
Proof.
  intros Hprune. unfold handle_node_leave_intent, prune_if. rewrite Hprune.
  repeat case_match; simplify_eq; done.
Qed.

Lemma join_intent_reaches s msg now :
  0 <= join_ltime msg →
  join_ltime msg <= seen (handle_node_join_intent s msg now).1 (join_id msg) ∧
  ∀ j, seen s j <= seen (handle_node_join_intent s msg now).1 j.
Proof.
  intros Hpos. pose proof (join_intent_spec s msg now Hpos) as Hspec.
  destruct (handle_node_join_intent s msg now) as [s' b]. destruct Hspec as (Hiff & Hacc & Hmono).
  simpl. split; [|done]. destruct b; [rewrite Hacc; done|].
  etrans; [|apply Hmono]. destruct (decide (seen s (join_id msg) < join_ltime msg)) as [Hlt|]; [|lia].
  by apply Hiff in Hlt.
Qed.

(** The states a fold of intents passes through. *)
Record exchanged s s' : Prop := {
  ex_wf : wf_members (members s');
  ex_local : local_node s' = local_node s;
  ex_mono : ∀ j, seen s j <= seen s' j;
}.

Lemma exchanged_trans s1 s2 s3 : exchanged s1 s2 → exchanged s2 s3 → exchanged s1 s3.
Proof.
  intros [W1 L1 M1] [W2 L2 M2]. constructor; [done|congruence|]. intros j. etrans; eauto.
Qed.

Lemma leave_intent_exchanged s msg now :
  wf_members (members s) → 0 <= leave_ltime msg → prune msg = false →
  exchanged s (handle_node_leave_intent s msg now).1.
Proof.
  intros Hwf Hpos Hprune. constructor.
  - eauto with serf.
  - by apply leave_intent_local.
  - pose proof (leave_intent_spec s msg now Hpos Hprune) as Hspec.
    destruct (handle_node_leave_intent s msg now). apply Hspec.
Qed.

Lemma join_intent_exchanged s msg now :
  wf_members (members s) → 0 <= join_ltime msg →
  exchanged s (handle_node_join_intent s msg now).1.
Proof.
  intros Hwf Hpos. constructor.
  - eauto with serf.
  - unfold handle_node_join_intent. repeat case_match; simplify_eq; done.
  - by apply join_intent_reaches.
Qed.

Lemma merge_left_spec (lts : list (I * Z)) now left : ∀ s,
  wf_members (members s) → (∀ id u, get_ltime lts id = Some u → regular u) →
  let s' := foldl (λ s id,
    match get_ltime lts id with
    | Some t => (handle_node_leave_intent s (mkLeave (Clock.add t 1) id false) now).1
    | None => s
    end) s left in
  exchanged s s' ∧
  ∀ id u, id ∈ left → get_ltime lts id = Some u → id ≠ local_id s → u < seen s' id.
Proof.
  induction left as [|x left IH]; intros s Hwf Hreg; simpl.
  { split; [by constructor|]. intros id u Hid. by apply not_elem_of_nil in Hid. }
  destruct (get_ltime lts x) as [u|] eqn:Hu.
  - assert (Clock.add u 1 = u + 1) as Hadd.
    { specialize (Hreg x u Hu). unfold regular, Clock.add in *. apply add64_exact;
        unfold is_u64, u64_modulus in *; lia. }
    assert (0 <= Clock.add u 1) as Hpos by (specialize (Hreg x u Hu); unfold regular in Hreg; lia).
    set (s1 := (handle_node_leave_intent s (mkLeave (Clock.add u 1) x false) now).1).
    assert (exchanged s s1) as Hex by by apply leave_intent_exchanged.
    destruct (IH s1 (ex_wf _ _ Hex) Hreg) as [Hex' Hin]. split; [by eapply exchanged_trans|].
    intros id v Hid Hv Hne. unfold local_id in Hin. rewrite (ex_local _ _ Hex) in Hin.
    apply elem_of_cons in Hid as [->|Hid]; [|by apply Hin].
    rewrite Hv in Hu. simplify_eq.
    assert (Clock.add u 1 <= seen s1 x) as H1
      by (by apply (leave_intent_reaches s (mkLeave (Clock.add u 1) x false) now)).
    pose proof (ex_mono _ _ Hex' x). lia.
  - destruct (IH s Hwf Hreg) as [Hex Hin]. split; [done|]. intros id v Hid Hv Hne.
    apply elem_of_cons in Hid as [->|Hid]; [congruence|by apply Hin].
Qed.

Lemma merge_status_spec (left : list I) now lts : ∀ s,
  wf_members (members s) → Forall (λ p, 0 <= p.2) lts →
  let s' := foldl (λ s p, if decide (p.1 ∈ left) then s
    else (handle_node_join_intent s (mkJoin p.2 p.1) now).1) s lts in
  exchanged s s' ∧ ∀ id u, (id, u) ∈ lts → id ∉ left → u <= seen s' id.
Proof.
  induction lts as [|[x u] lts IH]; intros s Hwf Hreg; simpl.
  { split; [by constructor|]. intros id u Hid. by apply not_elem_of_nil in Hid. }
  apply Forall_cons in Hreg as [Hu Hreg]. simpl in Hu. case_decide as Hd.
  - destruct (IH s Hwf Hreg) as [Hex Hin]. split; [done|]. intros id v Hid Hn.
    apply elem_of_cons in Hid as [Hid|Hid]; [by simplify_eq|by apply Hin].
  - set (s1 := (handle_node_join_intent s (mkJoin u x) now).1).
    assert (exchanged s s1) as Hex by by apply join_intent_exchanged.
    destruct (IH s1 (ex_wf _ _ Hex) Hreg) as [Hex' Hin]. split; [by eapply exchanged_trans|].
    intros id v Hid Hn. apply elem_of_cons in Hid as [Hid|Hid]; [|by apply Hin]. simplify_eq.
    etrans; [|apply (ex_mono _ _ Hex')].
    by apply (join_intent_reaches s (mkJoin u x) now).
Qed.

Lemma merge_events_spec evs : ∀ s,
  Forall (λ e, regular (uem_ltime e)) evs → is_u64 (event_clock s) →
  (0 < length (event_buffer (event_core s)))%nat →
  ∃ s', merge_events s evs = Done s' ∧ members s' = members s.
Proof.
  induction evs as [|e evs IH]; intros s Hreg Hc Hlen; [by exists s|].
  apply Forall_cons in Hreg as [He Hreg]. cbn [merge_events].
  destruct (handle_user_event_cases s e He Hlen) as ([s1 b] & -> & Hcase).
  destruct (event_case_frame s e _ He Hc Hcase) as (Hc1 & _ & Hl1 & _ & _). simpl in *.
  destruct (IH s1 Hreg Hc1) as (s' & -> & Hm); [lia|]. exists s'. split; [done|]. rewrite Hm.
  inversion Hcase; subst; done.
Qed.

Lemma get_ltime_elem (l : list (I * Z)) id u : get_ltime l id = Some u → (id, u) ∈ l.
Proof.
  unfold get_ltime. destruct (list_find _ l) as [[i [x v]]|] eqn:E; [|done].
  intros [= <-]. apply list_find_Some in E as (Hi & Hx & _). simpl in Hx. subst x.
  by eapply list_elem_of_lookup_2.
Qed.

Lemma get_ltime_total (l : list (I * Z)) id u :
  (id, u) ∈ l → ∃ v, get_ltime l id = Some v.
Proof.
  intros Hin. unfold get_ltime. destruct (list_find _ l) as [[i [x v]]|] eqn:E; [by eexists|].
  apply list_find_None in E. rewrite Forall_forall in E. by destruct (E (id, u) Hin).
Qed.

Lemma status_ltimes_spec t id u :
  wf_members (members t) →
  (id, u) ∈ pp_status_ltimes (local_state_message t) ↔
  ∃ ms, states (members t) !! id = Some ms ∧ status_time ms = u.
Proof.
  intros Hwf. simpl. rewrite list_elem_of_fmap. split.
  - intros ([k ms] & [= -> ->] & Hin). apply elem_of_map_to_list in Hin.
    exists ms. rewrite (wfe_id _ _ (wfm_entries _ Hwf _ _ Hin)). done.
  - intros (ms & Hms & <-). exists (id, ms). split; [|by apply elem_of_map_to_list].
    cbn [snd]. by rewrite (wfe_id _ _ (wfm_entries _ Hwf _ _ Hms)).
Qed.

Lemma intents_frame s :
  (∀ msg now, event_clock (handle_node_leave_intent s msg now).1 = event_clock s ∧
     event_core (handle_node_leave_intent s msg now).1 = event_core s) ∧
  (∀ msg now, event_clock (handle_node_join_intent s msg now).1 = event_clock s ∧
     event_core (handle_node_join_intent s msg now).1 = event_core s).
Proof.
  split; intros msg now.
  - unfold handle_node_leave_intent, prune_if, handle_prune, erase_node, forget_coordinate.
    repeat case_match; simplify_eq; done.
  - unfold handle_node_join_intent. repeat case_match; simplify_eq; done.
Qed.

Lemma merge_frame s (pp : PushPullMessage I) now :
  let s' := merge_status (merge_left s pp now) pp now in
  event_clock s' = event_clock s ∧ event_core s' = event_core s.
Proof.
  assert (∀ (l : list I) s, let s' := foldl (λ s id,
    match get_ltime (pp_status_ltimes pp) id with
    | Some t => (handle_node_leave_intent s (mkLeave (Clock.add t 1) id false) now).1
    | None => s end) s l in event_clock s' = event_clock s ∧ event_core s' = event_core s) as H1.
  { induction l as [|x l IH]; intros s0; [done|]. simpl. destruct (get_ltime _ x); [|apply IH].
    destruct (IH (handle_node_leave_intent s0 (mkLeave (Clock.add z 1) x false) now).1) as [-> ->].
    apply intents_frame. }
  assert (∀ (l : list (I * Z)) s, let s' := foldl (λ s p, if decide (p.1 ∈ pp_left_members pp) then s
    else (handle_node_join_intent s (mkJoin p.2 p.1) now).1) s l in
    event_clock s' = event_clock s ∧ event_core s' = event_core s) as H2.
  { induction l as [|x l IH]; intros s0; [done|]. simpl. case_decide; [apply IH|].
    destruct (IH (handle_node_join_intent s0 (mkJoin x.2 x.1) now).1) as [-> ->].
    apply intents_frame. }
  destruct (H2 (pp_status_ltimes pp) (merge_left s pp now)) as [E1 E2].
  destruct (H1 (pp_left_members pp) s) as [E3 E4]. split; [by etrans|by etrans].
Qed.

(** The intents an exchange replays: a leave one past the listed time for a
    member the other saw leave, a join at the listed time for the rest. *)
Definition replayed t id (ms : MemberState I A) (now : Z) : op I A :=
  if decide (id ∈ ms_id <$> left_members (members t))
  then OpLeaveIntent (mkLeave (Clock.add (status_time ms) 1) id false) now
  else OpJoinIntent (mkJoin (status_time ms) id) now.

Definition left_ops (pp : PushPullMessage I) (now : Z) : list (op I A) :=
  omap (λ id, (λ u, OpLeaveIntent (mkLeave (Clock.add u 1) id false) now)
              <$> get_ltime (pp_status_ltimes pp) id) (pp_left_members pp).

Definition status_ops (pp : PushPullMessage I) (now : Z) : list (op I A) :=
  omap (λ p, if decide (p.1 ∈ pp_left_members pp) then None
             else Some (OpJoinIntent (mkJoin p.2 p.1) now)) (pp_status_ltimes pp).

Lemma merge_runs s (pp : PushPullMessage I) now :
  merge_status (merge_left s pp now) pp now = run None s (left_ops pp now ++ status_ops pp now).
Proof.
  unfold run. rewrite foldl_app. unfold merge_left, merge_status, left_ops, status_ops.
  assert (∀ l s, foldl (λ s id, match get_ltime (pp_status_ltimes pp) id with
      | Some t => (handle_node_leave_intent s (mkLeave (Clock.add t 1) id false) now).1
      | None => s end) s l = foldl (run_op None) s (omap (λ id, (λ u, OpLeaveIntent
        (mkLeave (Clock.add u 1) id false) now) <$> get_ltime (pp_status_ltimes pp) id) l)) as ->.
  { induction l as [|x l IH]; intros s0; [done|]. csimpl.
    destruct (get_ltime _ x); csimpl; apply IH. }
  generalize (foldl (run_op None) s (omap (λ id, (λ u, OpLeaveIntent
        (mkLeave (Clock.add u 1) id false) now) <$> get_ltime (pp_status_ltimes pp) id)
        (pp_left_members pp))).
  induction (pp_status_ltimes pp) as [|x l IH]; intros s0; [done|]. csimpl.
  case_decide; csimpl; apply IH.
Qed.

Lemma get_ltime_unique (l : list (I * Z)) id u :
  NoDup l.*1 → (id, u) ∈ l → get_ltime l id = Some u.
Proof.
  intros Hnd Hin. destruct (get_ltime_total _ _ _ Hin) as [v Hv].
  pose proof (get_ltime_elem _ _ _ Hv) as Hin'. rewrite Hv. f_equal.
  clear Hv. induction l as [|[x w] l IH]; [by apply not_elem_of_nil in Hin|].
  simpl in Hnd. apply NoDup_cons in Hnd as [Hx Hnd].
  apply elem_of_cons in Hin as [E|Hin], Hin' as [E'|Hin'].
  - congruence.
  - exfalso. apply Hx. apply list_elem_of_fmap. exists (id, v). by simplify_eq.
  - exfalso. apply Hx. apply list_elem_of_fmap. exists (id, u). by simplify_eq.
  - by apply IH.
Qed.

Lemma status_ltimes_nodup t :
  wf_members (members t) → NoDup (pp_status_ltimes (local_state_message t)).*1.
Proof.
  intros Hwf. simpl. rewrite <- list_fmap_compose.
  rewrite (list_fmap_ext _ fst); [apply NoDup_fst_map_to_list|].
  intros i [x ms] Hin%list_elem_of_lookup_2%elem_of_map_to_list. cbn.
  apply (wfe_id _ _ (wfm_entries _ Hwf _ _ Hin)).
Qed.

Lemma exchange_ops_nodup t now :
  wf_members (members t) →
  let pp := local_state_message t in NoDup (op_target <$> left_ops pp now ++ status_ops pp now).
Proof.
  intros Hwf pp. pose proof (status_ltimes_nodup t Hwf) as Hnd. fold pp in Hnd.
  assert (NoDup (pp_left_members pp)) as Hl by apply (wfm_left _ Hwf).
  assert (∀ l, ∃ k, op_target <$> omap (λ id, (λ u, OpLeaveIntent (A := A)
      (mkLeave (Clock.add u 1) id false) now) <$> get_ltime (pp_status_ltimes pp) id) l =
      Some <$> k ∧ k `sublist_of` l) as H1.
  { induction l as [|x l (k & E & Hk)]; [by exists []|]. csimpl.
    destruct (get_ltime _ x); csimpl.
    - exists (x :: k). split; [by apply (f_equal (cons (Some x)))|by constructor].
    - exists k. by split; [|constructor]. }
  assert (∀ l, ∃ k, op_target <$> omap (λ p, if decide (p.1 ∈ pp_left_members pp) then None
      else Some (OpJoinIntent (A := A) (mkJoin p.2 p.1) now)) l =
      Some <$> k ∧ k `sublist_of` l.*1 ∧ Forall (.∉ pp_left_members pp) k) as H2.
  { induction l as [|x l (k & E & Hk & Hf)]; [by exists []|]. csimpl.
    case_decide; csimpl.
    - exists k. split_and!; [done|by constructor|done].
    - exists (x.1 :: k). split_and!; [by apply (f_equal (cons (Some x.1)))|by constructor..]. }
  destruct (H1 (pp_left_members pp)) as (k1 & E1 & S1).
  destruct (H2 (pp_status_ltimes pp)) as (k2 & E2 & S2 & F2).
  rewrite fmap_app. unfold left_ops, status_ops. rewrite E1, E2, <- fmap_app.
  apply (NoDup_fmap_2 Some). apply NoDup_app. split_and!.
  - by eapply sublist_NoDup.
  - intros x Hx1 Hx2. rewrite Forall_forall in F2. apply (F2 x Hx2).
    eapply elem_of_submseteq; [exact Hx1|by apply sublist_submseteq].
  - eapply sublist_NoDup; [exact Hnd|exact S2].
Qed.

Lemma exchange_ops_intents (pp : PushPullMessage I) now :
  Forall (λ o, is_Some (intent_key o)) (left_ops pp now ++ status_ops pp now).
Proof.
  apply Forall_forall. intros o [Ho|Ho]%elem_of_app;
    apply list_elem_of_omap in Ho as (x & _ & Hx).
  - destruct (get_ltime _ x); simplify_eq/=. by eexists.
  - case_decide; simplify_eq/=. by eexists.
Qed.

(** The intent that is replayed about [id] is among them, and no other is. *)
Lemma exchange_ops_about t now id :
  wf_members (members t) →
  let pp := local_state_message t in
  match states (members t) !! id with
  | Some ms => replayed t id ms now ∈ left_ops pp now ++ status_ops pp now ∧
               op_target (replayed t id ms now) = Some id
  | None => Some id ∉ op_target <$> left_ops pp now ++ status_ops pp now
  end.
Proof.
  intros Hwf pp. pose proof (status_ltimes_nodup t Hwf) as Hnd. fold pp in Hnd.
  destruct (states (members t) !! id) as [ms|] eqn:Hms.
  - assert ((id, status_time ms) ∈ pp_status_ltimes pp) as Hin by (apply status_ltimes_spec; eauto).
    unfold replayed. case_decide as Hl; (split; [|done]); apply elem_of_app.
    + left. apply list_elem_of_omap. exists id. split; [exact Hl|].
      by rewrite (get_ltime_unique _ _ _ Hnd Hin).
    + right. apply list_elem_of_omap. exists (id, status_time ms). split; [done|].
      simpl. by rewrite decide_False.
  - intros (o & Ho & [Hin|Hin]%elem_of_app)%list_elem_of_fmap;
      apply list_elem_of_omap in Hin as (x & Hx & E).
    + destruct (get_ltime _ x) as [u|] eqn:Hu; simplify_eq/=.
      apply get_ltime_elem, status_ltimes_spec in Hu as (? & ? & _); [congruence|done].
    + destruct x as [x u]. case_decide; simplify_eq/=.
      apply status_ltimes_spec in Hx as (? & ? & _); [congruence|done].
Qed.

(** Merging the state another instance sent: every member the other knows
    makes the step of its life cycle for the intent that is replayed about it,
    [id] of the receiver included; ids the other does not know are left alone;
    the table stays consistent, nothing remembered is forgotten, and what is
    remembered of the other's members is as new as what the other has. *)
Theorem merge_catches_up s t event_ltime is_join now :
  wf_members (members s) → wf_members (members t) →
  (∀ id ms, states (members t) !! id = Some ms → regular (status_time ms)) →
  Forall (λ e, regular (uem_ltime e)) (exchanged_events (local_state_message t)) →
  is_u64 (event_clock s) → (0 < length (event_buffer (event_core s)))%nat →
  ∃ s', merge_push_pull s (local_state_message t) event_ltime is_join now = Done s' ∧
    wf_members (members s') ∧ (∀ j, seen s j <= seen s' j) ∧
    (∀ id, match states (members t) !! id with
           | Some ms => ∃ n, life (around None s id (replayed t id ms now)) id
               (replayed t id ms now) (slot_of s id) (slot_of s' id) n
           | None => slot_of s' id = slot_of s id
           end) ∧
    ∀ id ms, states (members t) !! id = Some ms → id ≠ local_id s →
      status_time ms <= seen s' id ∧
      (id ∈ ms_id <$> left_members (members t) → status_time ms < seen s' id).
Proof.
  intros Hs Ht Hreg Hev Hc Hlen. unfold merge_push_pull.
  set (pp := local_state_message t).
  assert (∀ id u, (id, u) ∈ pp_status_ltimes pp → regular u) as Hlts.
  { intros id u Hin. apply status_ltimes_spec in Hin as (ms & Hms & <-); [|done]. by eapply Hreg. }
  destruct (merge_left_spec (pp_status_ltimes pp) now (pp_left_members pp) s Hs) as [Hex1 Hl].
  { intros id u Hu. by eapply Hlts, get_ltime_elem. }
  set (s1 := merge_left s pp now). change (foldl _ s (pp_left_members pp)) with s1 in Hex1, Hl.
  destruct (merge_status_spec (pp_left_members pp) now (pp_status_ltimes pp) s1 (ex_wf _ _ Hex1))
    as [Hex2 Hj].
  { apply Forall_forall. intros [id u] Hin. apply Hlts in Hin. unfold regular in Hin. simpl. lia. }
  set (s2 := merge_status s1 pp now). change (foldl _ s1 (pp_status_ltimes pp)) with s2 in Hex2, Hj.
  set (s3 := if is_join && event_join_ignore s2 then ignore_events s2 event_ltime else s2).
  assert (members s3 = members s2) as Hm3.
  { unfold s3, ignore_events. destruct (_ && _); [|done]. by destruct (_ <? _). }
  destruct (merge_frame s pp now) as (Hc2 & Hl2). fold s1 s2 in Hc2, Hl2.
  destruct (merge_events_spec (exchanged_events pp) s3 Hev) as (s4 & -> & Hm4).
  { unfold s3, ignore_events. destruct (_ && _); [destruct (_ <? _)|]; simpl; by rewrite Hc2. }
  { unfold s3, ignore_events. destruct (_ && _); [destruct (_ <? _)|]; simpl; by rewrite Hl2. }
  rewrite Hm3 in Hm4. pose proof (exchanged_trans _ _ _ Hex1 Hex2) as Hex.
  assert (∀ j, seen s4 j = seen s2 j) as Hseen by (intros j; unfold seen; by rewrite Hm4).
  exists s4. rewrite Hm4. split; [done|]. split; [apply Hex|].
  split; [intros j; rewrite Hseen; apply Hex|]. split.
  { intros id. assert (slot_of s4 id = slot_of s2 id) as -> by (unfold slot_of; by rewrite Hm4).
    pose proof (exchange_ops_about t now id Ht) as Hops. cbv zeta in Hops. fold pp in Hops.
    unfold s2, s1. rewrite merge_runs.
    destruct (states (members t) !! id) as [ms|].
    - destruct Hops as [Hin Htgt]. apply run_distinct; [done|apply exchange_ops_intents| |done|done].
      by apply exchange_ops_nodup.
    - by apply run_untouched; [|apply exchange_ops_intents|]. }
  intros id ms Hms Hne. rewrite Hseen.
  assert ((id, status_time ms) ∈ pp_status_ltimes pp) as Hin by (apply status_ltimes_spec; eauto).
  assert (id ∈ pp_left_members pp → status_time ms < seen s2 id) as Hleft.
  { intros Hid. destruct (get_ltime_total _ _ _ Hin) as [v Hv].
    pose proof (get_ltime_elem _ _ _ Hv) as Hv'.
    apply status_ltimes_spec in Hv' as (ms' & Hms' & Hvt); [|done]. simplify_eq.
    specialize (Hl id _ Hid Hv Hne). pose proof (ex_mono _ _ Hex2 id). lia. }
  split; [|exact Hleft].
  destruct (decide (id ∈ pp_left_members pp)) as [Hid|Hid]; [|by apply Hj].
  specialize (Hleft Hid). lia.
Qed.

(** *** Conflicts *)

Lemma tally_sum s t payloads :
  address (local_node s) ≠ address (local_node t) →
  match tally s payloads, tally t payloads with
  | Done (n, k), Done (n', k') => n = n' ∧ (k + k' <= n)%nat
  | Panic, Panic => True
  | _, _ => False
  end.
Proof.
  intros Hne. unfold tally. induction payloads as [|p ps IH] using rev_ind; [done|].
  rewrite !foldl_app. cbn [foldl].
  destruct (foldl _ _ ps) as [[n1 k1]|], (foldl _ _ ps) as [[n2 k2]|]; try done.
  destruct IH as [-> IH]. destruct (decode_message p) as [[m|]|]; [|done..].
  destruct m as [| | | | | |[addr|]| | |]; simpl; try (split; [done|lia]).
  repeat case_decide; split; try done; try lia. congruence.
Qed.

(** When two instances contest an id and count the same replies, at most
    one of them stays: the reply a peer gives names one address only. *)
Theorem conflict_single_winner s t payloads :
  address (local_node s) ≠ address (local_node t) →
  survives_conflict s payloads = Done true → survives_conflict t payloads = Done false.
Proof.
  intros Hne. pose proof (tally_sum s t payloads Hne) as Hsum. unfold survives_conflict.
  destruct (tally s payloads) as [[n k]|]; [|done].
  destruct (tally t payloads) as [[n' k']|]; [|done]. destruct Hsum as [<- Hle].
  destruct (Nat.leb_spec (n / 2 + 1) k); [intros _|done].
  rewrite (proj2 (Nat.leb_gt (n / 2 + 1) k')); [done|].
  pose proof (Nat.div_mod n 2 ltac:(lia)). pose proof (Nat.mod_upper_bound n 2 ltac:(lia)). lia.
Qed.

(** ** Gossip within its limit *)

Definition wire_size (encoded_len : bytes → Z) (msgs : list bytes) : Z :=
  foldr (λ m n, encoded_len m + n) 0 msgs.

Lemma wire_size_app f l1 l2 : wire_size f (l1 ++ l2) = wire_size f l1 + wire_size f l2.
Proof. induction l1 as [|m l1 IH]; simpl; [done|]. unfold wire_size in *. simpl. lia. Qed.

Lemma wire_size_nonneg f l : (∀ m, 0 <= f m) → 0 <= wire_size f l.
Proof. intros Hf. induction l as [|m l IH]; simpl; [done|]. specialize (Hf m). lia. Qed.

Lemma wire_size_le f g l : (∀ m, f m <= g m) → wire_size f l <= wire_size g l.
Proof. intros Hf. induction l as [|m l IH]; simpl; [done|]. specialize (Hf m). lia. Qed.

Lemma sub64_wraps a b : is_u64 a → is_u64 b → a < b → sub64 a b = a - b + u64_modulus.
Proof.
  unfold is_u64, sub64, wrap64. intros Ha Hb Hlt.
  rewrite <- (Z.mod_add _ 1) by (unfold u64_modulus; lia). apply Z.mod_small. lia.
Qed.

Lemma bytes_used_exact f l : ∀ used,
  (∀ m, 0 <= f m) → 0 <= used → used + wire_size f l < u64_modulus →
  bytes_used f used l = used + wire_size f l.
Proof.
  induction l as [|m l IH]; intros used Hf Hu Hlt; simpl in *; [lia|].
  pose proof (wire_size_nonneg f l Hf). pose proof (Hf m).
  change (bytes_used f (add64 used (f m)) l = used + (f m + wire_size f l)).
  rewrite add64_exact by (unfold is_u64; lia). rewrite IH by (done || lia). lia.
Qed.

(** C36: What the instance hands to memberlist for one gossip packet.  The
    queues hand out messages whose bytes, counted by [SerfBroadcast], stay
    within the limit they are given; the limit of the next queue is reduced by
    what memberlist counts for the messages taken so far, which may be more.
    While that count stays within the limit, queries and user events are asked
    for exactly the rest and the bytes of all messages together stay within the
    limit.  Once the intents alone count for more than the limit, the
    subtraction wraps, and the query queue is asked for the limit, less the
    count, plus [2^64]. *)
Theorem gossip_fits get_broadcasts encoded_len s limit :
  (∀ q l, is_u64 l → wire_size broadcast_encoded_len (get_broadcasts q l).1 <= l) →
  (∀ m, broadcast_encoded_len m <= encoded_len m) →
  is_u64 limit →
  let intents := (get_broadcasts (broadcasts s) limit).1 in
  let used1 := wire_size encoded_len intents in
  let handed := (broadcast_messages get_broadcasts encoded_len s limit).2 in
  used1 < u64_modulus →
  (used1 <= limit →
     let queries := (get_broadcasts (query_broadcasts s) (limit - used1)).1 in
     let used2 := used1 + wire_size encoded_len queries in
     used2 <= limit →
     handed = intents ++ queries ++ (get_broadcasts (event_broadcasts s) (limit - used2)).1 ∧
     wire_size broadcast_encoded_len handed <= limit) ∧
  (limit < used1 →
     ∃ events, handed =
       intents ++ (get_broadcasts (query_broadcasts s) (limit - used1 + u64_modulus)).1 ++ events).
Proof.
  intros Hget Hge [Hl0 Hl1] intents used1 handed Hlt.
  assert (∀ m, 0 <= encoded_len m) as Hf.
  { intros m. specialize (Hge m). unfold broadcast_encoded_len in Hge. lia. }
  pose proof (wire_size_nonneg encoded_len intents Hf) as P1. fold used1 in P1.
  pose proof (Hget (broadcasts s) limit ltac:(done)) as H1.
  subst intents used1 handed. unfold broadcast_messages.
  destruct (get_broadcasts (broadcasts s) limit) as [msgs r1] eqn:E1. cbn [fst] in *.
  rewrite bytes_used_exact by (done || lia). rewrite Z.add_0_l. split.
  - intros Hu1 Hu2. rewrite sub64_exact by (unfold is_u64; lia). cbn [query_broadcasts set_broadcasts].
    pose proof (Hget (query_broadcasts s) (limit - wire_size encoded_len msgs) ltac:(unfold is_u64; lia)) as H2.
    destruct (get_broadcasts (query_broadcasts s) _) as [qs r2]. cbn [fst] in *.
    pose proof (wire_size_nonneg encoded_len qs Hf) as P2.
    rewrite bytes_used_exact by (done || lia). rewrite sub64_exact by (unfold is_u64; lia).
    cbn [event_broadcasts set_query_broadcasts set_broadcasts].
    pose proof (Hget (event_broadcasts s) (limit - (wire_size encoded_len msgs + wire_size encoded_len qs))
      ltac:(unfold is_u64; lia)) as H3.
    destruct (get_broadcasts (event_broadcasts s) _) as [es r3]. cbn [fst snd] in *. split; [done|].
    pose proof (wire_size_le _ _ msgs Hge). pose proof (wire_size_le _ _ qs Hge).
    rewrite !wire_size_app. lia.
  - intros Hu1. rewrite sub64_wraps by (unfold is_u64; lia). cbn [query_broadcasts set_broadcasts].
    destruct (get_broadcasts (query_broadcasts s) _) as [qs r2]. cbn [fst].
    destruct (get_broadcasts (event_broadcasts _) _) as [es r3]. by exists es.
Qed.

(** ** Pings *)

(** A pinged peer takes the coordinate out of the payload again, if its
    codec reads back what it wrote. *)
Lemma ping_payload_read coordinate_encoded_len encode_coordinate s cc b :
  coord_core s = Some cc →
  encode_coordinate (get_coordinate (client cc)) = Ok b →
  length b = coordinate_encoded_len (get_coordinate (client cc)) →
  ack_payload coordinate_encoded_len encode_coordinate s = PING_VERSION :: b.
Proof.
  intros Hcc Hb Hlen. unfold ack_payload. rewrite Hcc, Hb, Hlen, Nat.sub_diag. simpl.
  by rewrite app_nil_r.
Qed.

End facts.

(** ** The properties at work *)

Section witnesses.
Local Open Scope nat_scope.

(** Node 1 has seen node 2 leave; node 0 learns it from node 1's state. *)
Let peer : Serf nat nat := run None (sample_serf 1)
  [OpJoin (sample_node 1); OpJoin (sample_node 2); OpLeaveIntent (mkLeave 3%Z 2 false) 5%Z;
   OpLeave (sample_node 2) 6%Z].

Lemma merge_catches_up_witness :
  ∃ s', merge_push_pull (sample_serf 0) (local_state_message peer) 1%Z false 9%Z = Done s' ∧
    (3 < seen s' 2%nat)%Z.
Proof.
  destruct (merge_catches_up (sample_serf 0) peer 1%Z false 9%Z)
    as (s' & H1 & _ & _ & _ & H2).
  - apply default_members_wf.
  - apply (run_wf None (sample_serf 1)), default_members_wf.
  - assert (forallb (λ p, (0 <=? status_time p.2)%Z && (status_time p.2 <? u64_modulus - 1)%Z)
      (map_to_list (states (members peer))) = true) as HF by (vm_compute; reflexivity).
    intros id ms Hms. apply elem_of_map_to_list in Hms.
    apply (proj1 (forallb_forall _ _)) with (x := (id, ms)) in HF; [|by apply list_elem_of_In].
    simpl in HF. bool_to_prop. done.
  - constructor.
  - unfold is_u64, u64_modulus. simpl. lia.
  - simpl. lia.
  - exists s'. split; [exact H1|].
    destruct (states (members peer) !! 2) as [ms|] eqn:Hms; [|discriminate].
    destruct (H2 2 ms Hms) as [_ H3]; [discriminate|].
    assert (status_time ms = 3%Z) as <- by (vm_compute in Hms; by injection Hms as <-).
    apply H3. apply elem_of_cons. left. reflexivity.
Defined.

(** Two peers out of three name the address of node 0. *)
Lemma conflict_single_winner_witness :
  let payloads := [[x07; x00]; [x07; x01]; [x07; x00]] in
  survives_conflict (R := string) (sample_serf 0) payloads = Done true ∧
  survives_conflict (R := string) (sample_serf 1) payloads = Done false.
Proof.
  cbv zeta. split; [vm_compute; reflexivity|].
  apply (conflict_single_winner (R := string) (sample_serf 0)).
  - vm_compute. discriminate.
  - vm_compute. reflexivity.
Defined.

(** A queue that hands out its messages as long as their bytes fit. *)
Fixpoint greedy (q : list SerfBroadcast) (limit : Z) : list bytes * list SerfBroadcast :=
  match q with
  | [] => ([], [])
  | b :: q =>
      let size := broadcast_encoded_len (bmsg b) in
      if (size <=? limit)%Z
      then let '(msgs, rest) := greedy q (limit - size) in (bmsg b :: msgs, rest)
      else ([], b :: q)
  end.

Lemma greedy_fits q : ∀ limit, (0 <= limit)%Z →
  (wire_size broadcast_encoded_len (greedy q limit).1 <= limit)%Z.
Proof.
  induction q as [|b q IH]; intros limit Hl; simpl; [done|].
  destruct (_ <=? limit)%Z eqn:E; [|done]. bool_to_prop.
  specialize (IH (limit - broadcast_encoded_len (bmsg b))%Z ltac:(lia)).
  destruct (greedy q _) as [msgs rest]. simpl in *. lia.
Qed.

(** memberlist counts two bytes more than a message has. *)
Let framed (m : bytes) : Z := (2 + Z.of_nat (length m))%Z.

Lemma gossip_fits_witness :
  (wire_size broadcast_encoded_len (broadcast_messages greedy framed
     (queue_event (queue_intent (sample_serf 0) [x01; x02; x03]) [x04; x05]) 9%Z).2 <= 9)%Z.
Proof.
  apply (gossip_fits greedy framed (queue_event (queue_intent (sample_serf 0) [x01; x02; x03]) [x04; x05]) 9%Z).
  - intros q l [Hl _]. apply greedy_fits. exact Hl.
  - intros m. unfold framed, broadcast_encoded_len. lia.
  - unfold is_u64, u64_modulus. lia.
  - vm_compute. reflexivity.
  - vm_compute. discriminate.
  - vm_compute. discriminate.
Defined.

(** An intent that fills the packet makes the limit wrap: a query that does not
    fit is handed out after it. *)
Example gossip_limit_wraps :
  let s := queue_query (queue_intent (sample_serf 0) [x01; x02; x03]) [x04; x05; x06; x07] in
  (broadcast_messages greedy framed s 4%Z).2 = [[x01; x02; x03]; [x04; x05; x06; x07]] ∧
  wire_size broadcast_encoded_len (broadcast_messages greedy framed s 4%Z).2 = 7%Z.
Proof. vm_compute. by split. Qed.

End witnesses.
