(* ===== verification/Api.v ===== *)
(** * The public operations (serf-core/src/serf/api.rs, base.rs)

    Starting an instance, joining, leaving, user events, tags, forced
    removal and shutdown.  What memberlist does during a call, including the
    delegate callbacks it makes meanwhile, is an argument: a function on the
    instance and the result memberlist reports. *)

From Stdlib Require Import ZArith Lia Strings.Byte.
From stdpp Require Import base list gmap strings.
From S2P Require Import Prelude Clock Coordinate Types Core Sample Membership MemberTraces.
From S2P Require Import UserEvents Responses Query QueryFacts Snapshot SnapshotFacts Delegate.
Local Open Scope Z_scope.
Local Open Scope serf_scope.

Definition USER_EVENT_SIZE_LIMIT : Z := 9 * 1024.
Definition SNAPSHOT_SIZE_LIMIT : Z := 128 * 1024.

Record Stats : Type := mkStats {
  st_members : nat; st_failed : nat; st_left : nat; st_health_score : Z;
  st_member_time : Z; st_event_time : Z; st_query_time : Z;
  st_intent_queue : nat; st_event_queue : nat; st_query_queue : nat;
  st_encrypted : bool; st_coordinate_resets : option nat }.

(** How the wait for a broadcast ends. *)
Inductive Waited : Type := Notified | TimedOut | ChannelClosed.

Section api.
Context {I A R : Type} `{Countable I} `{Countable A} `{!Codec I A R} `{!NodeData I A}.
Implicit Types s : Serf I A.

(** ** Starting *)

Definition check_options (o : Options) : Result unit Error :=
  if USER_EVENT_SIZE_LIMIT <? max_user_event_size o
  then Err (UserEventLimitTooLarge USER_EVENT_SIZE_LIMIT)
  else
    match opt_tags o with
    | [] => Ok tt
    | _ =>
        let len := tags_encoded_len_with_length_delimited (opt_tags o) in
        if META_MAX_SIZE <? 1 + u32_encoded_len (len mod u32_modulus) + len then Err (TagsTooLarge len)
        else Ok tt
    end.

(** The clocks start at one, then take the snapshot's values. *)
Definition start_clock (old : Z) : Z := Clock.witness (Clock.increment Clock.new).1 old.

(** The core of a new instance; [old] is what the snapshot replays to. *)
Definition start_core (o : Options) (local : Node I A) (old : option (@Replayed I A _ _ _ _))
  : Serf I A :=
  let p := from_option id replay_start old in
  let min t := match old with Some _ => Clock.add t 1 | None => 0 end in
  {| clock := start_clock (rp_clock p);
     event_clock := start_clock (rp_event_clock p);
     query_clock := start_clock (rp_query_clock p);
     broadcasts := []; event_broadcasts := []; query_broadcasts := [];
     members := default_members; event_tx := []; event_join_ignore := false;
     event_core := mkEventCore (min (rp_event_clock p)) (replicate (event_buffer_size o) None);
     query_core := mkQueryCore ∅ (min (rp_query_clock p)) (replicate (query_buffer_size o) None);
     query_heap := []; opts := o; serf_state := SerfState.Alive;
     coord_core := if disable_coordinates o then None
                   else Some (mkCoordCore (client_with_options default_coordinate_options) ∅);
     sent := []; spawned := []; local_node := local |}.

(** A started instance: the core, the snapshotter, the peers to rejoin. *)
Record Started : Type := mkStarted {
  started : Serf I A; snapshotter : option (@Snapshot I A _ _ _ _); rejoin_nodes : list (Node I A) }.

(** [file] holds the bytes at [snapshot_path], if one is set and the file
    opens; [memberlist] is the start of memberlist and its view of the local
    node, which the instance joins first.  The peers are shuffled before use. *)
Definition new_in (o : Options) (local : Node I A) (rejoin : bool) (file : option bytes)
    (memberlist : Result (option (NodeState I A)) Error) (now : Z) : Result Started Error :=
  try! _ := check_options o in
  try! snap :=
    match file with
    | None => Ok None
    | Some f =>
        match replay rejoin f with
        | Err e => Err (Types.Snapshot e)
        | Ok p => Ok (Some (p, from_replay_result p f SNAPSHOT_SIZE_LIMIT rejoin now))
        end
    end in
  let s := start_core o local (fst <$> snap) in
  try! local_state := memberlist in
  let s := match local_state with Some n => notify_join s n | None => s end in
  Ok (mkStarted s (snd <$> snap)
        match snap with Some (_, sn) => elements (alive_nodes sn) | None => [] end).

(** [handle_rejoin]: the first known node that answers, other than us. *)
Fixpoint handle_rejoin (local : I) (try_join : A → bool) (nodes : list (Node I A)) : option (Node I A) :=
  match nodes with
  | [] => None
  | n :: nodes =>
      if decide (node_id n = local) then handle_rejoin local try_join nodes
      else if try_join (address n) then Some n else handle_rejoin local try_join nodes
  end.

(** ** Joining *)

Definition broadcast s (msg : bytes) (notify : bool) : Serf I A :=
  set_broadcasts s (broadcasts s ++ [mkBroadcast msg notify]).

Definition broadcast_join s (ltime now : Z) : Serf I A * Result unit Error :=
  let msg := mkJoin ltime (local_id s) in
  let s := witness_clock s ltime in
  let s := (handle_node_join_intent s msg now).1 in
  match encode_message_to_bytes (R := R) (A := A) (MJoin msg) with
  | Err e => (s, Err (Encode e))
  | Ok b => (broadcast s b false, Ok tt)
  end.

Definition join s (ignore_old : bool) (memberlist_join : Serf I A → Serf I A * option A) (now : Z)
  : Serf I A * Result A Error :=
  match serf_state s with
  | SerfState.Alive =>
      let s := if ignore_old then set_event_join_ignore s true else s in
      let reset s := if ignore_old then set_event_join_ignore s false else s in
      match memberlist_join s with
      | (s, Some addr) =>
          match broadcast_join s (Clock.time (clock s)) now with
          | (s, Err e) => (reset s, Err e)
          | (s, Ok _) => (reset s, Ok addr)
          end
      | (s, None) => (reset s, Err Memberlist)
      end
  | st => (s, Err (BadJoinStatus st))
  end.

(** [memberlist_join_many] returns the addresses joined and whether all were. *)
Definition join_many s (ignore_old : bool)
    (memberlist_join_many : Serf I A → Serf I A * list A * bool) (now : Z)
  : Serf I A * list A * list Error :=
  match serf_state s with
  | SerfState.Alive =>
      let s := if ignore_old then set_event_join_ignore s true else s in
      let '(s, joined, ok) := memberlist_join_many s in
      if ok then
        match broadcast_join s (Clock.time (clock s)) now with
        | (s, Err e) => (set_event_join_ignore s false, joined, [e])
        | (s, Ok _) => (set_event_join_ignore s false, joined, [])
        end
      else
        match joined with
        | [] => (set_event_join_ignore s false, joined, [Memberlist])
        | _ =>
            match broadcast_join s (Clock.time (clock s)) now with
            | (s, Err e) => (set_event_join_ignore s false, joined, [Memberlist; e])
            | (s, Ok _) => (set_event_join_ignore s false, joined, [Memberlist])
            end
        end
  | st => (s, [], [BadJoinStatus st])
  end.

(** ** Leaving *)

(** From the state check to the waiting: marks the instance as leaving,
    tells the snapshotter if there is one, processes its own leave intent and
    gossips it if anybody listens. *)
Definition leave_begin s (snapshot : bool) (now : Z) : Serf I A * Result unit Error :=
  match serf_state s with
  | SerfState.Left => (s, Ok tt)
  | SerfState.Leaving | SerfState.Shutdown => (s, Err (BadLeaveStatus (serf_state s)))
  | SerfState.Alive =>
      let s := set_serf_state s SerfState.Leaving in
      let s := if snapshot then spawn s TaskSnapshotLeave else s in
      let msg := mkLeave (Clock.time (clock s)) (local_id s) false in
      let s := set_clock s (Clock.increment (clock s)).1 in
      let s := (handle_node_leave_intent s msg now).1 in
      if has_alive_members s then
        match encode_message_to_bytes (R := R) (A := A) (MLeave msg) with
        | Err e => (s, Err (Encode e))
        | Ok b => (broadcast s b true, Ok tt)
        end
      else (s, Ok tt)
  end.

(** After the waits: left, unless a shutdown came in between. *)
Definition leave_end s : Serf I A :=
  match serf_state s with
  | SerfState.Shutdown => s
  | _ => set_serf_state s SerfState.Left
  end.

(** [meanwhile] is what happens during the waits. *)
Definition leave s (snapshot : bool) (meanwhile : Serf I A → Serf I A) (now : Z)
  : Serf I A * Result unit Error :=
  match serf_state s with
  | SerfState.Alive =>
      match leave_begin s snapshot now with
      | (s, Err e) => (s, Err e)
      | (s, Ok _) => (leave_end (meanwhile s), Ok tt)
      end
  | _ => leave_begin s snapshot now
  end.

Definition force_leave s (id : I) (prune : bool) (now : Z) (w : Waited) : Serf I A * Result unit Error :=
  let msg := mkLeave (Clock.time (clock s)) id prune in
  let s := (handle_node_leave_intent s msg now).1 in
  if has_alive_members s then
    match encode_message_to_bytes (R := R) (A := A) (MLeave msg) with
    | Err e => (s, Err (Encode e))
    | Ok b =>
        (broadcast s b true,
         match w with
         | Notified => Ok tt
         | TimedOut => Err RemovalBroadcastTimeout
         | ChannelClosed => Err BroadcastChannelClosed
         end)
    end
  else (s, Ok tt).

Definition shutdown s (memberlist_ok : bool) : Serf I A * Result unit Error :=
  match serf_state s with
  | SerfState.Shutdown => (s, Ok tt)
  | _ =>
      let s := set_serf_state s SerfState.Shutdown in
      if memberlist_ok then (spawn s TaskShutdown, Ok tt) else (s, Err Memberlist)
  end.

(** [resolve_node_conflict]: asks the cluster who holds the id, and leaves
    the stage when the replies do not make a majority for this node. *)
Definition resolve_node_conflict_start s (id : Z) (n1 n2 : nat) (now : Z) (rnd : nat → Z)
  : outcome (Serf I A * option nat) :=
  match encode_id (R := R) (A := A) (local_id s) with
  | Err _ => Done (s, None)
  | Ok payload =>
      run! (s, r) := query_in (R := R) s INTERNAL_CONFLICT payload None
        (Some (IQConflict (local_id s))) id n1 n2 now rnd in
      Done (s, match r with Ok h => Some h | Err _ => None end)
  end.

Definition resolve_node_conflict_end s (payloads : list bytes) (memberlist_ok : bool)
  : outcome (Serf I A) :=
  run! stays := survives_conflict (R := R) s payloads in
  Done (if stays : bool then s else (shutdown s memberlist_ok).1).

(** ** User events, tags, statistics *)

Definition user_event s (name : string) (payload : bytes) (coalesce : bool)
  : outcome (Serf I A * Result unit Error) :=
  let before := Z.of_nat (String.length name + length payload) in
  if max_user_event_size (opts s) <? before
  then Done (s, Err (UserEventLimitTooLarge (max_user_event_size (opts s))))
  else if USER_EVENT_SIZE_LIMIT <? before
  then Done (s, Err (UserEventTooLarge USER_EVENT_SIZE_LIMIT))
  else
    let msg := mkUserEventMessage (Clock.time (event_clock s)) name payload coalesce in
    let len := encoded_message_len (I := I) (A := A) (R := R) (MUserEvent msg) in
    if max_user_event_size (opts s) <? len then Done (s, Err (RawUserEventTooLarge len))
    else if USER_EVENT_SIZE_LIMIT <? len then Done (s, Err (RawUserEventTooLarge len))
    else
      match encode_message_to_bytes (I := I) (A := A) (R := R) (MUserEvent msg) with
      | Err e => Done (s, Err (Encode e))
      | Ok raw =>
          let s := set_event_clock s (Clock.increment (event_clock s)).1 in
          run! (s, _) := handle_user_event s msg in
          Done (queue_event s raw, Ok tt)
      end.

Definition set_opt_tags (o : Options) (tg : Tags) : Options := {|
  opt_tags := tg; opt_protocol_version := opt_protocol_version o;
  opt_delegate_version := opt_delegate_version o;
  opt_memberlist_protocol_version := opt_memberlist_protocol_version o;
  opt_memberlist_delegate_version := opt_memberlist_delegate_version o;
  gossip_interval := gossip_interval o; broadcast_timeout := broadcast_timeout o;
  leave_propagate_delay := leave_propagate_delay o;
  opt_coalesce_period := opt_coalesce_period o; opt_quiescent_period := opt_quiescent_period o;
  opt_user_coalesce_period := opt_user_coalesce_period o;
  opt_user_quiescent_period := opt_user_quiescent_period o;
  reap_interval := reap_interval o; reconnect_interval := reconnect_interval o;
  flap_timeout := flap_timeout o; queue_check_interval := queue_check_interval o;
  queue_depth_warning := queue_depth_warning o; opt_snapshot_path := opt_snapshot_path o;
  opt_rejoin_after_leave := opt_rejoin_after_leave o; opt_keyring_file := opt_keyring_file o;
  reconnect_timeout := reconnect_timeout o;
  tombstone_timeout := tombstone_timeout o; recent_intent_timeout := recent_intent_timeout o;
  max_queue_depth := max_queue_depth o; min_queue_depth := min_queue_depth o;
  event_buffer_size := event_buffer_size o; query_buffer_size := query_buffer_size o;
  query_timeout_mult := query_timeout_mult o;
  query_response_size_limit := query_response_size_limit o;
  query_size_limit := query_size_limit o;
  enable_id_conflict_resolution := enable_id_conflict_resolution o;
  disable_coordinates := disable_coordinates o; max_user_event_size := max_user_event_size o |}.

(** [update_ok] is memberlist's answer to the update of the node. *)
Definition set_tags s (tg : Tags) (update_ok : bool) : Serf I A * Result unit Error :=
  let len := tags_encoded_len_with_length_delimited tg in
  if META_MAX_SIZE <? len then (s, Err (TagsTooLarge len))
  else (set_opts s (set_opt_tags (opts s) tg), if update_ok then Ok tt else Err Memberlist).

(** [iq], [eq] and [qq] are memberlist's counts of what is still queued. *)
Definition stats s (health_score : Z) (encrypted : bool) (iq eq qq : nat) : Stats :=
  mkStats (size (states (members s))) (length (failed_members (members s)))
    (length (left_members (members s))) health_score
    (Clock.time (clock s)) (Clock.time (event_clock s)) (Clock.time (query_clock s))
    iq eq qq encrypted ((λ cc, resets (client cc)) <$> coord_core s).

(** [local_member] unwraps the local entry of the table. *)
Definition local_member s : outcome (Member I A) :=
  match states (members s) !! local_id s with Some ms => Done (member ms) | None => Panic end.

Definition cooridate s : Result Coordinate Error :=
  match coord_core s with
  | Some cc => Ok (get_coordinate (client cc))
  | None => Err CoordinatesDisabled
  end.

Definition cached_coordinate s (id : I) : Result (option Coordinate) Error :=
  match coord_core s with
  | Some cc => Ok (cache cc !! id)
  | None => Err CoordinatesDisabled
  end.

(** ** Facts *)

Lemma node_join_frame s (n : NodeState I A) :
  let s' := handle_node_join s n in
  clock s' = clock s ∧ event_clock s' = event_clock s ∧ query_clock s' = query_clock s ∧
  event_core s' = event_core s ∧ query_core s' = query_core s ∧ serf_state s' = serf_state s.
Proof. unfold handle_node_join. repeat case_match; done. Qed.

Lemma start_clock_spec old :
  regular old → is_u64 (start_clock old) ∧ old < start_clock old ∧ 1 <= start_clock old.
Proof.
  intros Hold. unfold start_clock. change (Clock.increment Clock.new).1 with 1.
  rewrite Clock.witness_spec; unfold regular, is_u64, u64_modulus in *; lia.
Qed.

Lemma empty_ring_ok s :
  is_u64 (query_clock s) → ∀ k, (0 < k)%nat →
  query_buffer (query_core s) = replicate k None → ring_ok s.
Proof.
  intros Hc k Hk Hb. unfold ring_ok. rewrite Hb, length_replicate. split; [done|]. split; [done|].
  intros i qs Hi. apply lookup_replicate in Hi as [? _]. done.
Qed.

(** C19: An instance restarted from a snapshot file that replays starts with a
    consistent, empty state and clocks past the recorded ones, has exactly the
    recorded live nodes to rejoin, and refuses every user event and every query
    that is not newer than the last one recorded, so nothing is delivered a
    second time because of the restart. *)
Theorem restart_skips_old o local rejoin file p n now :
  check_options o = Ok tt → replay rejoin file = Ok p →
  regular (rp_clock p) → regular (rp_event_clock p) → regular (rp_query_clock p) →
  (0 < query_buffer_size o)%nat →
  ∃ s sn nodes, new_in o local rejoin (Some file) (Ok n) now = Ok (mkStarted s (Some sn) nodes) ∧
  (∀ x, x ∈ nodes ↔ x ∈ rp_alive p) ∧
  wf_members (members s) ∧ ring_ok s ∧
  rp_clock p < clock s ∧ rp_event_clock p < event_clock s ∧ rp_query_clock p < query_clock s ∧
  (∀ msg, uem_ltime msg <= rp_event_clock p →
     handle_user_event s msg = Done (witness_event_clock s (uem_ltime msg), false)) ∧
  (∀ t id, t <= rp_query_clock p →
     admit_query s t id = Done (witness_query_clock s t, false)).
Proof.
  intros Hopt Hp Hc He Hq Hlen. unfold new_in. rewrite Hopt, Hp. simpl.
  set (s0 := start_core o local (Some p)).
  set (s := match n with Some n => notify_join s0 n | None => s0 end).
  assert (clock s = clock s0 ∧ event_clock s = event_clock s0 ∧ query_clock s = query_clock s0 ∧
    event_core s = event_core s0 ∧ query_core s = query_core s0 ∧ wf_members (members s))
    as (E1 & E2 & E3 & E4 & E5 & Hwf).
  { unfold s. destruct n as [n|]; [|by split_and!; [..|apply default_members_wf]].
    pose proof (node_join_frame s0 n) as (? & ? & ? & ? & ? & _).
    split_and!; try done. apply handle_node_join_wf, default_members_wf. }
  eexists s, _, _. split; [done|]. split; [intros x; apply elem_of_elements|].
  destruct (start_clock_spec _ Hc) as (U1 & L1 & _).
  destruct (start_clock_spec _ He) as (U2 & L2 & _).
  destruct (start_clock_spec _ Hq) as (U3 & L3 & _).
  split; [done|]. split.
  { eapply empty_ring_ok; [by rewrite E3|exact Hlen|]. by rewrite E5. }
  rewrite E1, E2, E3. split_and!; try done.
  - intros msg Hle. unfold handle_user_event. cbn [event_core witness_event_clock set_event_clock].
    rewrite E4. cbn [event_core s0 start_core event_min_time from_option].
    rewrite (proj2 (Z.ltb_lt _ _)); [done|]. cbv [Datatypes.id]. unfold Clock.add.
    rewrite add64_exact; unfold regular, is_u64, u64_modulus in *; lia.
  - intros t id Hle. unfold admit_query. cbn [query_core witness_query_clock set_query_clock].
    rewrite E5. cbn [query_core s0 start_core query_min_time from_option].
    rewrite (proj2 (Z.ltb_lt _ _)); [done|]. unfold Clock.add. cbv [Datatypes.id].
    rewrite add64_exact; unfold regular, is_u64, u64_modulus in *; lia.
Qed.

(** C20: Leaving gracefully: the instance becomes Leaving and its own entry
    with it, which it does not refute, and the snapshotter is told; whatever
    happens during the waits it ends Left, or Shutdown if it was shut down
    meanwhile; a second leave then returns at once and changes nothing. *)
Theorem leave_completes s snap meanwhile now now' ms :
  serf_state s = SerfState.Alive →
  states (members s) !! local_id s = Some ms → ms_status ms = MemberStatus.Alive →
  status_time ms < clock s →
  (∃ b, encode_message_to_bytes (R := R) (A := A)
     (MLeave (mkLeave (clock s) (local_id s) false)) = Ok b) →
  ∃ s1, leave_begin s snap now = (s1, Ok tt) ∧ serf_state s1 = SerfState.Leaving ∧
    spawned s1 = spawned s ++ (if snap then [TaskSnapshotLeave] else []) ∧
    status_of (states (members s1)) (local_id s) = Some MemberStatus.Leaving ∧
    leave s snap meanwhile now = (leave_end (meanwhile s1), Ok tt) ∧
    (serf_state (leave_end (meanwhile s1)) = SerfState.Left →
     leave (leave_end (meanwhile s1)) snap meanwhile now' = (leave_end (meanwhile s1), Ok tt)) ∧
    (serf_state (meanwhile s1) ≠ SerfState.Shutdown →
     serf_state (leave_end (meanwhile s1)) = SerfState.Left).
Proof.
  intros Hst Hms Hal Hlt [b Hb].
  assert (∃ s1, leave_begin s snap now = (s1, Ok tt) ∧ serf_state s1 = SerfState.Leaving ∧
    spawned s1 = spawned s ++ (if snap then [TaskSnapshotLeave] else []) ∧
    status_of (states (members s1)) (local_id s) = Some MemberStatus.Leaving)
    as (s1 & H1 & H2 & H3 & H4).
  { unfold leave_begin. rewrite Hst. cbv zeta.
    set (si := if snap then spawn (set_serf_state s SerfState.Leaving) TaskSnapshotLeave
               else set_serf_state s SerfState.Leaving).
    assert (clock si = clock s ∧ local_node si = local_node s ∧ members si = members s ∧
      serf_state si = SerfState.Leaving ∧
      spawned si = spawned s ++ (if snap then [TaskSnapshotLeave] else []))
      as (F1 & F2 & F3 & F4 & F5) by (unfold si; destruct snap; simpl; rewrite ?app_nil_r; done).
    clearbody si. unfold Clock.time, local_id. rewrite F1, F2. fold (local_id s).
    set (s0 := set_clock si _). set (msg := mkLeave _ _ false).
    assert (∃ s2, (handle_node_leave_intent s0 msg now).1 = s2 ∧
      serf_state s2 = SerfState.Leaving ∧
      spawned s2 = spawned s ++ (if snap then [TaskSnapshotLeave] else []) ∧
      status_of (states (members s2)) (local_id s) = Some MemberStatus.Leaving)
      as (s2 & -> & S1 & S2 & S3).
    { eexists. split; [done|]. unfold handle_node_leave_intent, prune_if. simpl.
      rewrite F3, Hms. rewrite (proj2 (Z.leb_gt _ _)) by done.
      rewrite decide_False by (by rewrite F4; intros [_ ?]).
      unfold ms_status in *. simpl. rewrite Hal. simpl.
      split_and!; try done. unfold status_of. by rewrite lookup_insert_eq. }
    destruct (has_alive_members s2); [|by exists s2].
    assert (encode_message_to_bytes (R := R) (A := A) (MLeave msg) = Ok b) as -> by exact Hb.
    by exists (broadcast s2 b true). }
  exists s1. split; [done|]. split; [done|]. split; [done|]. split; [done|].
  unfold leave at 1. rewrite Hst, H1. split; [done|]. split.
  - intros Hl. unfold leave, leave_begin. by rewrite Hl.
  - intros Hn. unfold leave_end. by destruct (serf_state (meanwhile s1)) eqn:E.
Qed.

(** Forcing out a failed node takes effect at once: it becomes left, or
    with [prune] disappears, the application is told, and the reconnector has
    nothing of it to pick any more. *)
Theorem force_leave_effective s id prune now w ms :
  wf_members (members s) → states (members s) !! id = Some ms →
  ms_status ms = MemberStatus.Failed → status_time ms < clock s →
  id ≠ local_id s →
  let s' := (force_leave s id prune now w).1 in
  status_of (states (members s')) id = (if prune then None else Some MemberStatus.Left) ∧
  (id ∉ (ms_id <$> failed_members (members s'))) ∧
  event_types (event_tx s') = event_types (event_tx s) ++
    (if prune then [MemberEventType.Leave; MemberEventType.Reap] else [MemberEventType.Leave]).
Proof.
  intros Hwf Hms Hf Hlt Hne. unfold force_leave.
  set (msg := mkLeave _ id prune). set (s1 := (handle_node_leave_intent s msg now).1).
  assert (∀ s', members s' = members s1 → event_tx s' = event_tx s1 →
    status_of (states (members s')) id = (if prune then None else Some MemberStatus.Left) ∧
    (id ∉ (ms_id <$> failed_members (members s'))) ∧
    event_types (event_tx s') = event_types (event_tx s) ++
      (if prune then [MemberEventType.Leave; MemberEventType.Reap] else [MemberEventType.Leave])) as Hk.
  2:{ cbv zeta. destruct (has_alive_members s1); [destruct (encode_message_to_bytes _)|];
        by apply Hk. }
  intros s' -> ->.
  assert (wf_members (members s1)) as Hwf1 by (unfold s1; eauto with serf).
  assert (status_of (states (members s1)) id = (if prune then None else Some MemberStatus.Left) ∧
    event_types (event_tx s1) = event_types (event_tx s) ++
      (if prune then [MemberEventType.Leave; MemberEventType.Reap] else [MemberEventType.Leave]))
    as [Hst Hev].
  { unfold s1, handle_node_leave_intent. simpl. rewrite Hms.
    rewrite (proj2 (Z.leb_gt _ _)) by done. rewrite decide_False by (by intros [? _]).
    unfold ms_status in Hf |- *. simpl. rewrite Hf. simpl. unfold prune_if. simpl.
    pose proof (wfe_id _ _ (wfm_entries _ Hwf _ _ Hms)) as Hid. destruct prune.
    - rewrite states_prune, events_prune. simpl. unfold ms_id in *. simpl. rewrite Hid. split.
      + unfold status_of. by rewrite lookup_delete_eq.
      + unfold event_types. by rewrite !omap_app, <- app_assoc.
    - simpl. split; [unfold status_of; by rewrite lookup_insert_eq|].
      unfold event_types. by rewrite omap_app. }
  split; [done|]. split; [|done].
  intros Hin%(tracks_ids _ _ _ (wfm_failed _ Hwf1))%has_status_of.
  rewrite Hst in Hin. by destruct prune.
Qed.

(** The intent handler does not touch the flag. *)
Lemma broadcast_join_ignore s ltime now :
  event_join_ignore (broadcast_join s ltime now).1 = event_join_ignore s.
Proof.
  unfold broadcast_join.
  assert (∀ msg, event_join_ignore (handle_node_join_intent (witness_clock s ltime) msg now).1 =
                 event_join_ignore s) as Hj
    by (intros msg; unfold handle_node_join_intent; repeat case_match; simplify_eq; done).
  destruct (encode_message_to_bytes _); simpl; apply Hj.
Qed.

(** Whatever memberlist answers, a join of one node or of many leaves the
    instance accepting the events of later state exchanges: the flag that
    makes a joining instance ignore old events is down again on every path. *)
Theorem join_resets_ignore s ignore_old mj mjm now :
  event_join_ignore s = false →
  (∀ s0, event_join_ignore (mj s0).1 = event_join_ignore s0) →
  event_join_ignore (join s ignore_old mj now).1 = false ∧
  event_join_ignore (join_many s ignore_old mjm now).1.1 = false.
Proof.
  intros Hs Hmj. unfold join, join_many. destruct (serf_state s); try done.
  set (s0 := if ignore_old then _ else _).
  assert (event_join_ignore s0 = ignore_old) as Hs0 by (unfold s0; by destruct ignore_old).
  specialize (Hmj s0). split.
  - destruct (mj s0) as [s1 [addr|]]; simpl in Hmj.
    + pose proof (broadcast_join_ignore s1 (Clock.time (clock s1)) now) as Hb.
      destruct (broadcast_join _ _ _) as [s2 [|]]; simpl in *; destruct ignore_old; simpl; congruence.
    + destruct ignore_old; simpl; congruence.
  - destruct (mjm s0) as [[s1 joined] [|]].
    + by destruct (broadcast_join _ _ _) as [? [|]].
    + destruct joined; [done|]. by destruct (broadcast_join _ _ _) as [? [|]].
Qed.

(** A user event is sent only within the size limits, before and after
    encoding, and a refused one changes nothing; a sent one carries a time the
    clock then moves past, is queued for gossip exactly once, and is not
    delivered again when gossip brings it back. *)
Theorem user_event_sound s name payload coalesce :
  regular (event_clock s) → event_clock s < u64_modulus - 2 →
  (0 < length (event_buffer (event_core s)))%nat →
  ∃ s' r, user_event s name payload coalesce = Done (s', r) ∧
    match r with
    | Err _ => s' = s
    | Ok _ =>
        let msg := mkUserEventMessage (event_clock s) name payload coalesce in
        Z.of_nat (String.length name + length payload) <=
          Z.min (max_user_event_size (opts s)) USER_EVENT_SIZE_LIMIT ∧
        encoded_message_len (I := I) (A := A) (R := R) (MUserEvent msg) <=
          Z.min (max_user_event_size (opts s)) USER_EVENT_SIZE_LIMIT ∧
        (∃ raw, encode_message_to_bytes (I := I) (A := A) (R := R) (MUserEvent msg) = Ok raw ∧
           event_broadcasts s' = event_broadcasts s ++ [mkBroadcast raw false]) ∧
        event_clock s < event_clock s' ∧
        handle_user_event s' msg = Done (s', false)
    end.
Proof.
  intros Hreg Hmax Hlen. unfold user_event. cbv zeta.
  destruct (max_user_event_size (opts s) <? _) eqn:E1; [by eexists _, _|].
  destruct (USER_EVENT_SIZE_LIMIT <? _) eqn:E2; [by eexists _, _|].
  set (msg := mkUserEventMessage _ name payload coalesce).
  destruct (max_user_event_size (opts s) <? encoded_message_len _) eqn:E3; [by eexists _, _|].
  destruct (USER_EVENT_SIZE_LIMIT <? encoded_message_len _) eqn:E4; [by eexists _, _|].
  destruct (encode_message_to_bytes (MUserEvent msg)) as [raw|] eqn:Eraw; [|by eexists _, _].
  bool_to_prop. set (s0 := set_event_clock s _).
  destruct (handle_user_event_cases s0 msg Hreg Hlen) as ([s1 b] & -> & Hcase).
  pose proof (event_case_settled s0 msg _ Hreg Hcase) as Hset. simpl in Hset.
  destruct (event_case_frame s0 msg (s1, b) Hreg) as (_ & Hle & Hl1 & _ & _); [|done|].
  { unfold s0, regular, is_u64 in *. simpl. apply wrap64_u64. }
  eexists _, _. split; [done|]. split; [lia|]. split; [lia|]. split.
  { exists raw. split; [done|]. simpl. inversion Hcase; subst; done. }
  split; [by destruct Hset|].
  apply settled_refused; [apply Hreg|simpl; simpl in Hl1; lia|done].
Qed.

End api.

(** ** The properties at work *)

Section witnesses.
Local Open Scope nat_scope.

(** A file that records node 1 alive and the three clocks. *)
Definition recorded : @Replayed nat nat _ _ _ _ := mkReplayed {[mkNode 1 1]} 10%Z 20%Z 30%Z.

Definition recorded_file : bytes :=
  [x00; x03; x00; x00; x00; x01; x00; x01] ++ (x02 :: to_le 8 10%Z) ++ (x03 :: to_le 8 20%Z) ++
  (x04 :: to_le 8 30%Z).

Lemma restart_skips_old_witness :
  ∃ s sn nodes, new_in (R := string) sample_options (mkNode 0 0) false (Some recorded_file)
      (Ok (Some (sample_node 0))) 50%Z = Ok (mkStarted s (Some sn) nodes) ∧
    mkNode 1 1 ∈ nodes ∧ (20 < event_clock s)%Z.
Proof.
  destruct (restart_skips_old (R := string) sample_options (mkNode 0 0) false recorded_file recorded
    (Some (sample_node 0)) 50%Z) as (s & sn & nodes & H1 & H2 & _ & _ & _ & H3 & _).
  - reflexivity.
  - vm_compute. reflexivity.
  - unfold regular, u64_modulus. simpl. lia.
  - unfold regular, u64_modulus. simpl. lia.
  - unfold regular, u64_modulus. simpl. lia.
  - simpl. lia.
  - exists s, sn, nodes. split; [exact H1|]. split; [|exact H3].
    apply H2. apply elem_of_singleton. reflexivity.
Defined.

(** Node 0 with itself, a live peer 1 and a failed peer 2. *)
Definition cluster : Serf nat nat := run None (set_clock (sample_serf 0) 4%Z)
  [OpJoin (sample_node 0); OpJoin (sample_node 1); OpJoin (sample_node 2);
   OpLeave (sample_node 2) 5%Z].

Lemma cluster_wf : wf_members (members cluster).
Proof. unfold cluster. apply run_wf. exact default_members_wf. Qed.

Definition failed_peer : MemberState nat nat :=
  mkMemberState (mkMember (mkNode 2 2) [] MemberStatus.Failed PV1 DV1 PV1 DV1) 0%Z (Some 5%Z).

Definition local_peer : MemberState nat nat :=
  mkMemberState (mkMember (mkNode 0 0) [] MemberStatus.Alive PV1 DV1 PV1 DV1) 0%Z None.

Lemma leave_completes_witness :
  ∃ s1, leave_begin (R := string) cluster true 7%Z = (s1, Ok tt) ∧ serf_state s1 = SerfState.Leaving.
Proof.
  destruct (leave_completes (R := string) cluster true (λ s, s) 7%Z 8%Z local_peer)
    as (s1 & H1 & H2 & _).
  - vm_compute. reflexivity.
  - vm_compute. reflexivity.
  - reflexivity.
  - vm_compute. reflexivity.
  - eexists. vm_compute. reflexivity.
  - exists s1. split; [exact H1|exact H2].
Defined.

Lemma force_leave_effective_witness :
  status_of (states (members (force_leave (R := string) cluster 2 false 9%Z Notified).1)) 2 =
    Some MemberStatus.Left.
Proof.
  apply (force_leave_effective (R := string) cluster 2 false 9%Z Notified failed_peer).
  - exact cluster_wf.
  - vm_compute. reflexivity.
  - reflexivity.
  - vm_compute. reflexivity.
  - discriminate.
Defined.

Lemma join_resets_ignore_witness :
  event_join_ignore (join (R := string) cluster true (λ s, (s, Some 1)) 9%Z).1 = false ∧
  event_join_ignore (join_many (R := string) cluster true (λ s, (s, [1], false)) 9%Z).1.1 = false.
Proof. apply (join_resets_ignore (R := string)); reflexivity. Defined.

Lemma user_event_sound_witness :
  ∃ s' r, user_event (R := string) cluster "deploy" [] false = Done (s', r) ∧ r = Ok tt.
Proof.
  assert (event_clock cluster = 1%Z) as He by (vm_compute; reflexivity).
  destruct (user_event_sound (R := string) cluster "deploy" [] false) as (s' & r & H1 & _).
  - rewrite He. unfold regular, u64_modulus. lia.
  - rewrite He. reflexivity.
  - assert (length (event_buffer (event_core cluster)) = 4) as -> by (vm_compute; reflexivity). lia.
  - exists s', r. split; [exact H1|].
    assert (match user_event (R := string) cluster "deploy" [] false with
            | Done (_, Ok _) => True | _ => False end) as Hok by (vm_compute; exact I).
    rewrite H1 in Hok. destruct r as [[]|]; [reflexivity|destruct Hok].
Defined.

End witnesses.
