(* ===== verification/Background.v ===== *)
(** * Options, broadcasts, queue checks and the user's delegates
    (options.rs, broadcast.rs, serf/base.rs [QueueChecker], delegate/*.rs)

    The parts around the core: what the options share between copies, how deep
    the broadcast queues may grow, and the delegates a user plugs in.
    memberlist's transmit queue is the parameter [TransmitQueue]. *)

From Stdlib Require Import ZArith Lia Strings.Byte.
From stdpp Require Import base list gmap strings.
From S2P Require Import Prelude Clock Coordinate Types Core Sample Membership MemberTraces Delegate Api.
Local Open Scope Z_scope.

(** ** Options

    The tags of [Options] are an [Arc<ArcSwap<Tags>>]: copies of the options
    share the cell.  [Cells] is the store; [OptionsRef] holds the address of
    its cell, and the value in [opt_tags] is read from there. *)

Abbreviation Cells := (gmap nat Tags).

Record OptionsRef : Type := mkOptionsRef { tags_cell : nat; or_options : Options }.

Definition tags_of (m : Cells) (o : OptionsRef) : Tags := default [] (m !! tags_cell o).

(** The options as the instance sees them. *)
Definition load (m : Cells) (o : OptionsRef) : Options := set_opt_tags (or_options o) (tags_of m o).

Definition options_new (m : Cells) (mpv : ProtocolVersion) (mdv : DelegateVersion) (gossip : Z)
  : Cells * OptionsRef :=
  let a := fresh (dom m) in
  (<[a := []]> m, mkOptionsRef a (default_options mpv mdv gossip)).

Definition options_clone (o : OptionsRef) : OptionsRef := mkOptionsRef (tags_cell o) (or_options o).

Definition with_tags (m : Cells) (o : OptionsRef) (tags : list (string * string)) : Cells * OptionsRef :=
  (<[tags_cell o := index_map_of tags]> m, o).

Record QueueOptions : Type := mkQueueOptions {
  qo_max_queue_depth : Z;
  qo_min_queue_depth : Z;
  qo_check_interval : Z;
  qo_depth_warning : Z;
}.

Definition queue_opts (o : Options) : QueueOptions :=
  mkQueueOptions (max_queue_depth o) (min_queue_depth o) (queue_check_interval o) (queue_depth_warning o).

(** Setting tags on a copy sets them on the original. *)
Lemma clone_shares_tags m o tags m' o' :
  with_tags m (options_clone o) tags = (m', o') → opt_tags (load m' o) = index_map_of tags.
Proof.
  intros [= <- <-]. unfold load, tags_of. cbn [opt_tags set_opt_tags options_clone tags_cell].
  by rewrite lookup_insert_eq.
Qed.

(** Options that were made separately do not share. *)
Lemma new_options_apart m mpv mdv g o tags m' o' m'' o'' :
  tags_cell o ∈ dom m → options_new m mpv mdv g = (m', o') →
  with_tags m' o' tags = (m'', o'') → load m'' o = load m o.
Proof.
  intros Ho [= <- <-] [= <- <-]. unfold load, tags_of. cbn.
  assert (fresh (dom m) ≠ tags_cell o) as Hne by (intros E; by apply (is_fresh (dom m)); rewrite E).
  by rewrite !lookup_insert_ne.
Qed.

(** ** Broadcasts *)

Definition broadcast_id (b : SerfBroadcast) : option unit := None.
Definition invalidates (b other : SerfBroadcast) : bool := false.
Definition broadcast_message (b : SerfBroadcast) : bytes := bmsg b.
(** Whether a waiting caller is told. *)
Definition finished (b : SerfBroadcast) : bool := notify b.

(** memberlist's queue, as serf uses it: pruning leaves no more than [max]. *)
Class TransmitQueue (Q : Type) : Type := {
  num_queued : Q → Z;
  prune_queue : Z → Q → Q;
}.
Class TransmitQueueLaws (Q : Type) `{TransmitQueue Q} : Prop := {
  prune_bound max q : 0 <= max → num_queued (prune_queue max q) <= max;
}.

(** ** Queue checks *)

Section checker.
Context {I A Q : Type} `{Countable I} `{TransmitQueue Q}.

Definition checker_queue_max (o : QueueOptions) (m : Members I A) : Z :=
  if 0 <? qo_min_queue_depth o then
    let max := Z.of_nat (size (states m)) * 2 in
    if max <? qo_min_queue_depth o then qo_min_queue_depth o else max
  else qo_max_queue_depth o.

(** One tick: whether it warns about the depth, and the queue. *)
Definition queue_checker_tick (o : QueueOptions) (m : Members I A) (q : Q) : bool * Q :=
  let numq := num_queued q in
  let max := checker_queue_max o m in
  (qo_depth_warning o <=? numq, if max <=? numq then prune_queue max q else q).

Lemma checker_max_agrees (o : Options) (m : Members I A) :
  checker_queue_max (queue_opts o) m = get_queue_max o m.
Proof. unfold checker_queue_max, get_queue_max. cbn. repeat case_match; bool_to_prop; lia. Qed.

(** After a tick the queue is no deeper than its limit: twice the members,
    but at least the minimum, or a fixed limit without one. *)
Lemma queue_checker_bound `{!TransmitQueueLaws Q} (o : QueueOptions) (m : Members I A) (q : Q) :
  0 <= qo_max_queue_depth o →
  num_queued (queue_checker_tick o m q).2 <= checker_queue_max o m.
Proof.
  intros Ho. assert (0 <= checker_queue_max o m) as Hmax.
  { unfold checker_queue_max. repeat case_match; bool_to_prop; lia. }
  unfold queue_checker_tick. cbn. destruct (_ <=? num_queued q) eqn:E; bool_to_prop; [|lia].
  by apply prune_bound.
Qed.

End checker.

(** ** Delegates *)

Class MergeDelegate (D I A E : Type) : Type := user_merge : D → list (Member I A) → Result unit E.
Class ReconnectDelegate (D I A : Type) : Type := user_reconnect_timeout : D → Member I A → Z → Z.

Record DefaultMergeDelegate : Type := mkDefaultMerge {}.
Record NoopReconnectDelegate : Type := mkNoopReconnect {}.
Record CompositeDelegate (M R : Type) : Type := mkComposite { cd_merge : M; cd_reconnect : R }.
Arguments mkComposite {M R}.
Arguments cd_merge {M R}.
Arguments cd_reconnect {M R}.

Section delegates.
Context {I A : Type} `{Countable I} `{Countable A}.

#[export] Instance default_merge : MergeDelegate DefaultMergeDelegate I A Empty_set := λ _ _, Ok tt.
#[export] Instance noop_reconnect : ReconnectDelegate NoopReconnectDelegate I A := λ _ _ timeout, timeout.

Definition composite_new : CompositeDelegate DefaultMergeDelegate NoopReconnectDelegate :=
  mkComposite mkDefaultMerge mkNoopReconnect.
Definition with_merge_delegate {M R NM} (d : CompositeDelegate M R) (merge : NM) : CompositeDelegate NM R :=
  mkComposite merge (cd_reconnect d).
Definition with_reconnect_delegate {M R NR} (d : CompositeDelegate M R) (reconnect : NR)
  : CompositeDelegate M NR := mkComposite (cd_merge d) reconnect.

#[export] Instance composite_merge {M R E} `{MergeDelegate M I A E}
  : MergeDelegate (CompositeDelegate M R) I A E := λ d, user_merge (cd_merge d).
#[export] Instance composite_reconnect {M R} `{ReconnectDelegate R I A}
  : ReconnectDelegate (CompositeDelegate M R) I A := λ d, user_reconnect_timeout (cd_reconnect d).

Context {R : Type} `{!Codec I A R}.
Implicit Types (s : Serf I A) (os : list (op I A)).

(** A composite delegate whose reconnect part was not replaced leaves the
    reaper as it is without a delegate. *)
Lemma composite_reaps_alike {M E} `{MergeDelegate M I A E} (merge : M) s os :
  run (Some (user_reconnect_timeout (with_merge_delegate composite_new merge))) s os = run None s os.
Proof. reflexivity. Qed.

(** One whose merge part was not replaced lets every merge pass whose peers
    have tags that can be read; without a delegate they are not even read. *)
Lemma composite_merges_readable {Rc} `{ReconnectDelegate Rc I A} (reconnect : Rc) (peers : list (NodeState I A)) :
  notify_merge (Some (user_merge (with_reconnect_delegate composite_new reconnect))) peers =
  match nodes_to_members peers with Ok _ => Ok tt | Err e => Err (MergeSerf _ e) end.
Proof. cbn. by destruct (nodes_to_members peers). Qed.

End delegates.
