(* ===== verification/Tasks.v ===== *)
(** * The tasks of an instance and its shutdown (serf/base.rs, serf/api.rs)

    [new_in] starts six tasks whose handles it keeps: the one that passes
    events on ([SerfQueries]), the reaper, the reconnector and a checker per
    broadcast queue; a snapshotter runs beside them.  They watch one channel,
    which [shutdown] closes.  The handlers set further tasks going without a
    handle ([Detached]), and the operations and memberlist's callbacks go on in
    between ([other]).  [bstep] is one step of any of them; calls of [shutdown]
    are numbered and pass through the waits of the function.  The coalescers,
    which hold no part of the core, are in Coalesce.v.

    That [shutdown] returns is a statement about fair schedules ([fair_run]). *)

From Stdlib Require Import ZArith Lia Strings.Byte.
From stdpp Require Import base list gmap strings.
From S2P Require Import Prelude Clock Coordinate Types Core Sample Membership MemberTraces UserEvents Responses Query QueryFacts Delegate Api Background.
Local Open Scope Z_scope.

Inductive Bg : Type := BgQueries | BgReaper | BgReconnector | BgIntent | BgEvent | BgQuery.

#[export] Instance Bg_eq_dec : EqDecision Bg.
Proof. solve_decision. Defined.

Definition all_tasks : list Bg := [BgQueries; BgReaper; BgReconnector; BgIntent; BgEvent; BgQuery].

(** Where a call of [shutdown] is; [waited] tells a call that ran through
    from one that found the instance shut down already. *)
Inductive Call : Type :=
| WaitMemberlist
| WaitSnapshot
| WaitHandles
| Returned (waited : bool) (r : Result unit Error).

(** Tasks that are set going without a handle: the timer that closes a query,
    the refutation of a leave, the vote on an id conflict before and after its
    query is out, the answer to an internal query, the rejoin of known peers. *)
Inductive Detached : Type :=
| DClose (ltime : Z)
| DRefute (ltime : Z)
| DResolve
| DVote
| DAnswer
| DRejoin.

Definition detached_of (t : Task) : option Detached :=
  match t with
  | TaskBroadcastJoin ltime => Some (DRefute ltime)
  | TaskResolveConflict => Some DResolve
  | TaskCloseQuery _ ltime => Some (DClose ltime)
  | TaskSnapshotLeave | TaskShutdown => None
  end.

(** What a step is the turn of. *)
Inductive act : Type :=
| AShutdown (c : nat)
| AMemberlist (c : nat)
| ASnapshotWaited (c : nat)
| AJoined (c : nat)
| ASnapshotExit
| AExit (t : Bg)
| ASent
| AReceive
| ATask (t : Bg)
| ADetached
| AOther
| AIdle.

Section tasks.
Context {I A R : Type} `{Countable I} `{Countable A} `{!Codec I A R}.
Context `{!TransmitQueue (list SerfBroadcast)} (reconnector : option (Member I A → Z → Z)).
Context (other : Serf I A → Serf I A → Prop).

Record Tasks : Type := mkInstance {
  core : Serf I A;
  running : list Bg;          (** tasks whose handle is not done *)
  pool : list Detached;       (** tasks without a handle that are not done *)
  sending : bool;             (** [SerfQueries] waits inside [tx.send(ev).await] *)
  room : nat;                 (** free places of the subscriber's channel *)
  down : bool;                (** [shutdown_tx] is closed *)
  snapshotting : bool;        (** the snapshotter's stream runs *)
  calls : gmap nat Call;
}.
Implicit Types st : Tasks.

(** The end of [new_in]; [rejoin] tells whether there are peers to rejoin. *)
Definition start_tasks (s : Serf I A) (snapshot rejoin : bool) (capacity : nat) : Tasks :=
  mkInstance s all_tasks (if rejoin then [DRejoin] else []) false capacity false snapshot ∅.

Definition set_pool st (l : list Detached) : Tasks :=
  mkInstance (core st) (running st) l (sending st) (room st) (down st) (snapshotting st) (calls st).
Definition finish st (t : Bg) : Tasks :=
  mkInstance (core st) (filter (λ x, x ≠ t) (running st)) (pool st) (sending st) (room st) (down st)
    (snapshotting st) (calls st).
Definition set_call st (c : nat) (k : Call) : Tasks :=
  mkInstance (core st) (running st) (pool st) (sending st) (room st) (down st) (snapshotting st)
    (<[c := k]> (calls st)).
Definition set_sending st (b : bool) (n : nat) : Tasks :=
  mkInstance (core st) (running st) (pool st) b n (down st) (snapshotting st) (calls st).

(** The core moves on to [s]; the tasks it has set going join the pool. *)
Definition set_core st s : Tasks :=
  mkInstance s (running st)
    (pool st ++ omap detached_of (drop (length (spawned (core st))) (spawned s)))
    (sending st) (room st) (down st) (snapshotting st) (calls st).

(** [shutdown], up to its first wait. *)
Definition begin_shutdown st (c : nat) : Tasks :=
  match serf_state (core st) with
  | SerfState.Shutdown => set_call st c (Returned false (Ok tt))
  | _ => set_call (set_core st (set_serf_state (core st) SerfState.Shutdown)) c WaitMemberlist
  end.

(** memberlist is down, or would not go. *)
Definition memberlist_down st (c : nat) (ok : bool) : Tasks :=
  if ok then
    mkInstance (core st) (running st) (pool st) (sending st) (room st) true (snapshotting st)
      (<[c := WaitSnapshot]> (calls st))
  else set_call st c (Returned true (Err Memberlist)).

Definition check_queue (t : Bg) (s : Serf I A) : Serf I A :=
  let tick (q : list SerfBroadcast) := (queue_checker_tick (queue_opts (opts s)) (members s) q).2 in
  match t with
  | BgIntent => set_broadcasts s (tick (broadcasts s))
  | BgEvent => set_event_broadcasts s (tick (event_broadcasts s))
  | BgQuery => set_query_broadcasts s (tick (query_broadcasts s))
  | _ => s
  end.

(** What a detached task does to the core, and what it goes on with: the vote
    waits for the answers once its query is out.  Joining a peer is
    memberlist's work and comes back through its callbacks; an answer to an
    internal query sends packets, the response and its relays. *)
Inductive detached_act (s : Serf I A) : Detached → Serf I A → list Detached → Prop :=
| da_close ltime : detached_act s (DClose ltime) (close_query s ltime) []
| da_refute ltime now : detached_act s (DRefute ltime) (broadcast_join s ltime now).1 []
| da_resolve id n1 n2 now rnd s' h :
    resolve_node_conflict_start s id n1 n2 now rnd = Done (s', h) →
    detached_act s DResolve s' (match h with Some _ => [DVote] | None => [] end)
| da_answer packets :
    detached_act s DAnswer (foldl (λ s p, memberlist_send s p.1 p.2) s packets) []
| da_rejoin : detached_act s DRejoin s [].

Inductive bstep st : act → Tasks → Prop :=
| bs_shutdown c : calls st !! c = None → bstep st (AShutdown c) (begin_shutdown st c)
| bs_memberlist c ok :
    calls st !! c = Some WaitMemberlist → bstep st (AMemberlist c) (memberlist_down st c ok)
| bs_snapshot_waited c :
    calls st !! c = Some WaitSnapshot → snapshotting st = false →
    bstep st (ASnapshotWaited c) (set_call st c WaitHandles)
| bs_joined c :
    calls st !! c = Some WaitHandles → running st = [] →
    bstep st (AJoined c) (set_call st c (Returned true (Ok tt)))
| bs_snapshot_exit :
    down st = true → snapshotting st = true →
    bstep st ASnapshotExit
      (mkInstance (core st) (running st) (pool st) (sending st) (room st) (down st) false (calls st))
(** the branch of [shutdown_rx]; the task that passes events on does not get
    there while it sends *)
| bs_exit t :
    t ∈ running st → down st = true → (t = BgQueries → sending st = false) →
    bstep st (AExit t) (finish st t)
(** the reaper looks at the channel after a tick, too *)
| bs_reap now :
    BgReaper ∈ running st →
    let st' := set_core st (reap_tick reconnector (core st) now) in
    bstep st (ATask BgReaper) (if down st then finish st' BgReaper else st')
| bs_reconnect throttled draw r :
    BgReconnector ∈ running st → reconnect_tick (members (core st)) throttled draw = Done r →
    bstep st (ATask BgReconnector) st
| bs_check t :
    t ∈ [BgIntent; BgEvent; BgQuery] → t ∈ running st →
    bstep st (ATask t) (set_core st (check_queue t (core st)))
(** [SerfQueries] takes an event: one for the application or an internal query *)
| bs_forward :
    BgQueries ∈ running st → sending st = false →
    bstep st (ATask BgQueries) (set_sending st true (room st))
| bs_internal :
    BgQueries ∈ running st → sending st = false →
    bstep st (ATask BgQueries) (set_pool st (pool st ++ [DAnswer]))
| bs_sent n : sending st = true → room st = S n → bstep st ASent (set_sending st false n)
| bs_receive : bstep st AReceive (set_sending st (sending st) (S (room st)))
| bs_detached l1 d l2 s' next :
    pool st = l1 ++ d :: l2 → detached_act (core st) d s' next →
    bstep st ADetached (set_core (set_pool st (l1 ++ l2 ++ next)) s')
(** the end of the vote: the minority shuts down *)
| bs_vote l1 l2 c payloads stays :
    pool st = l1 ++ DVote :: l2 → calls st !! c = None →
    survives_conflict (R := R) (core st) payloads = Done stays →
    bstep st ADetached
      (if stays : bool then set_pool st (l1 ++ l2) else begin_shutdown (set_pool st (l1 ++ l2)) c)
| bs_other s' : other (core st) s' → bstep st AOther (set_core st s')
| bs_idle : bstep st AIdle st.

(** Runs, in which the application need not read: [reads] tells whether it
    may. *)
Definition bsteps (reads : bool) : Tasks → Tasks → Prop :=
  rtc (λ st st', ∃ a, bstep st a st' ∧ (reads = false → a ≠ AReceive)).

(** ** Fair schedules *)

Definition enabled (a : act) st : Prop := ∃ st', bstep st a st'.

(** The turns the runtime owes to tasks that wait for nothing any more. *)
Definition owed (a : act) : Prop :=
  match a with
  | ASnapshotWaited _ | AJoined _ | ASnapshotExit | AExit _ | ASent => True
  | _ => False
  end.

(** An infinite run [σ] whose steps are the turns [α].  A turn that is owed is
    taken or not due any more at some later time; [select!] of the task that
    passes events on is fair, so it does not overlook the closed channel for
    ever; and the application makes room for an event that waits. *)
Record fair_run (σ : nat → Tasks) (α : nat → act) : Prop := {
  fr_step n : bstep (σ n) (α n) (σ (S n));
  fr_weak a n : owed a → ∃ m, (n <= m)%nat ∧ (α m = a ∨ ¬ enabled a (σ m));
  fr_select n : ∃ m, (n <= m)%nat ∧
    (α m = AExit BgQueries ∨ ∀ k, (m <= k)%nat → ¬ enabled (AExit BgQueries) (σ k));
  fr_room n : ∃ m, (n <= m)%nat ∧ (sending (σ m) = false ∨ (0 < room (σ m))%nat);
}.

End tasks.

Arguments Tasks I A {_ _ _ _}.

(** ** Facts *)

Section facts.
Context {I A R : Type} `{Countable I} `{Countable A} `{!Codec I A R}.
Context `{!TransmitQueue (list SerfBroadcast)} (reconnector : option (Member I A → Z → Z)).
Context (other : Serf I A → Serf I A → Prop).
(** No operation brings an instance back that was shut down. *)
Context (Hother : ∀ s s', other s s' → serf_state s = SerfState.Shutdown → serf_state s' = SerfState.Shutdown).
Implicit Types st : Tasks I A.

Abbreviation step := (bstep reconnector other).
Abbreviation steps reads := (bsteps reconnector other reads).

(** A call that got past the state. *)
Definition active (k : Call) : Prop := match k with Returned false _ => False | _ => True end.

Record tasks_ok st : Prop := {
  to_shut c k : calls st !! c = Some k → serf_state (core st) = SerfState.Shutdown;
  to_one c d k l : calls st !! c = Some k → calls st !! d = Some l → active k → active l → c = d;
  to_down c k : calls st !! c = Some k →
    match k with
    | WaitMemberlist | Returned true (Err _) => down st = false
    | WaitSnapshot => down st = true
    | WaitHandles => down st = true ∧ snapshotting st = false
    | Returned true (Ok _) => down st = true ∧ snapshotting st = false ∧ running st = []
    | Returned false _ => True
    end;
  to_closed : down st = true → ∃ c k, calls st !! c = Some k ∧ active k;
  to_all : down st = false → running st = all_tasks;
}.

Lemma start_ok s snapshot rejoin capacity : tasks_ok (start_tasks s snapshot rejoin capacity).
Proof. by split. Qed.

Lemma erase_state (s : Serf I A) id b : serf_state (erase_node s id b) = serf_state s.
Proof. unfold erase_node, forget_coordinate. cbn. by destruct (coord_core s). Qed.

Lemma reap_loop_state now timeout k : ∀ i l (s : Serf I A),
  serf_state (reap_loop reconnector k i now timeout l s).2 = serf_state s.
Proof.
  induction k as [|k IH]; intros i l s; [done|]. cbn [reap_loop].
  destruct (l !! i) as [ms|]; [|done]. case_match; [|apply IH]. by rewrite IH, erase_state.
Qed.

Lemma reap_state (s : Serf I A) now : serf_state (reap_tick reconnector s now) = serf_state s.
Proof.
  unfold reap_tick, reap_failed, reap_left. cbn.
  pose proof (reap_loop_state now (reconnect_timeout (opts s)) (length (failed_members (members s))) 0
    (failed_members (members s)) s) as H1.
  destruct (reap_loop _ _ _ _ _ _ s) as [l1 s1]. cbn in H1. set (s2 := set_members s1 _).
  pose proof (reap_loop_state now (tombstone_timeout (opts s2)) (length (left_members (members s2))) 0
    (left_members (members s2)) s2) as H2.
  destruct (reap_loop _ _ _ _ _ _ s2) as [l2 s3]. cbn in H2 |- *. by rewrite H2.
Qed.

Lemma check_state t (s : Serf I A) : serf_state (check_queue t s) = serf_state s.
Proof. by destruct t. Qed.

(** Steps that keep the calls and the channel. *)
Lemma ok_frame st st' :
  calls st' = calls st → down st' = down st →
  (serf_state (core st) = SerfState.Shutdown → serf_state (core st') = SerfState.Shutdown) →
  running st' ⊆ running st → (down st = false → running st' = running st) →
  (snapshotting st = false → snapshotting st' = false) →
  tasks_ok st → tasks_ok st'.
Proof.
  intros Hc Hd Hs Hr Hall Hsn [S O D C L]. split; rewrite ?Hc, ?Hd.
  - eauto.
  - exact O.
  - intros c k Hk. pose proof (D c k Hk) as Hd'. destruct k as [| | |[] [?|?]]; try exact Hd'.
    + destruct Hd' as [? ?]. auto.
    + destruct Hd' as (? & ? & Hnil). split_and!; auto. rewrite Hnil in Hr.
      destruct (running st') as [|x l]; [done|]. specialize (Hr x (list_elem_of_here x l)).
      by apply not_elem_of_nil in Hr.
  - exact C.
  - intros Hf. rewrite Hall by done. by apply L.
Qed.

(** Steps of one call. *)
Lemma ok_call st st' c k :
  calls st' = <[c := k]> (calls st) → core st' = core st → running st' = running st →
  snapshotting st' = snapshotting st →
  (∀ l, calls st !! c = Some l → active l) → is_Some (calls st !! c) → active k →
  (down st = true → down st' = true) →
  match k with
  | WaitMemberlist | Returned true (Err _) => down st' = false
  | WaitSnapshot => down st' = true
  | WaitHandles => down st' = true ∧ snapshotting st' = false
  | Returned true (Ok _) => down st' = true ∧ snapshotting st' = false ∧ running st' = []
  | Returned false _ => True
  end →
  tasks_ok st → tasks_ok st'.
Proof.
  intros Hc Hs Hr Hsn Hl [l0 Hl0] Hk Hdm Hd [S O D C L].
  assert (∀ d l, calls st !! d = Some l → active l → d = c) as Honly by eauto.
  split; rewrite ?Hc, ?Hs.
  - intros d l _. eauto.
  - intros d e l l' Hdl Hel Ha Ha'.
    assert (∀ x y, <[c := k]> (calls st) !! x = Some y → active y → x = c) as Hx.
    { intros x y Hxy Hy. destruct (decide (c = x)) as [->|Hne]; [done|].
      rewrite lookup_insert_ne in Hxy by done. eauto. }
    by rewrite (Hx d l), (Hx e l').
  - intros d l Hdl. destruct (decide (c = d)) as [->|Hne].
    + rewrite lookup_insert_eq in Hdl. by simplify_eq.
    + rewrite lookup_insert_ne in Hdl by done. pose proof (D d l Hdl) as Hx.
      destruct l as [| | |[] r]; try (destruct Hne; symmetry; by eapply Honly). done.
  - intros _. exists c, k. by rewrite lookup_insert_eq.
  - intros Hf. rewrite Hr. apply L. destruct (down st); [|done]. by rewrite Hdm in Hf.
Qed.

(** The first wait of [shutdown] is where [Api.shutdown] leaves the instance
    when memberlist does not go down. *)
Lemma begin_shutdown_core st c : core (begin_shutdown st c) = (shutdown (core st) false).1.
Proof. unfold begin_shutdown, shutdown. by destruct (serf_state (core st)). Qed.

(** No detached task brings the instance back either. *)
Lemma sends_state (l : list (Member I A)) raw : ∀ s : Serf I A,
  serf_state (foldl (λ s m, memberlist_send s (address (node m)) raw) s l) = serf_state s.
Proof. induction l as [|m l IH]; intros s; [done|]. simpl. by rewrite IH. Qed.

Lemma handle_query_state s (q : AnyQuery) ty now rnd s' r :
  handle_query (R := R) s q ty now rnd = Done (s', r) → serf_state s' = serf_state s.
Proof.
  unfold handle_query, admit_query. intros Hq.
  destruct (aq_ltime q <? _); [by simplify_eq|]. destruct (too_old _ _ _); [by simplify_eq|].
  destruct (Clock.rem _ _) as [r0|]; [|done]. cbn in Hq.
  destruct (query_buffer (query_core s) !! Z.to_nat r0) as [seen|]; [|done].
  destruct (record_query seen _ _) as [slot|]; [|by simplify_eq]. cbn in Hq.
  unfold process_query in Hq. revert Hq. set (s1 := set_query_core _ _).
  destruct (aq_should_process s1 q) as [[]|]; [|by intros [= <-]..].
  destruct (aq_from q) as [from|]; [|by intros [= <-]]. intros [= <- _]. cbn.
  destruct (flags_contains (aq_flags q) FLAG_ACK); [|done]. unfold ack_query, relay_response.
  repeat case_match; simplify_eq/=; try done; by rewrite sends_state.
Qed.

Lemma resolve_start_state s id n1 n2 now rnd s' h :
  resolve_node_conflict_start (R := R) s id n1 n2 now rnd = Done (s', h) →
  serf_state s' = serf_state s.
Proof.
  unfold resolve_node_conflict_start, query_in, issue_query.
  destruct (encode_id _) as [payload|]; [|by intros [= <- _]]. cbn.
  destruct (default_query_param _ _) as [params|]; [|done]. cbn.
  destruct (query_size_limit _ <? _); [by intros [= <- _]|].
  destruct (encode_message_to_bytes _) as [raw|]; [|by intros [= <- _]].
  destruct (new_query_response _ _ _ _ _) as [resp|]; [|done]. cbn.
  destruct (handle_query _ _ _ _ _) as [[s1 r]|] eqn:Hq; [|done]. cbn.
  apply handle_query_state in Hq. cbn in Hq. destruct r; intros [= <- _]; done.
Qed.

Lemma broadcast_join_state s ltime now : serf_state (broadcast_join (R := R) s ltime now).1 = serf_state s.
Proof.
  unfold broadcast_join, handle_node_join_intent. cbn.
  repeat (case_match; simplify_eq/=); done.
Qed.

Lemma detached_state s d s' next : detached_act (R := R) s d s' next → serf_state s' = serf_state s.
Proof.
  destruct 1 as [ltime|ltime now|id n1 n2 now rnd s' h Hr|packets|].
  - unfold close_query. by destruct (responses _ !! ltime).
  - apply broadcast_join_state.
  - by eapply resolve_start_state.
  - revert s. induction packets as [|p l IH]; intros s; [done|]. simpl. by rewrite IH.
  - done.
Qed.

(** A call that finds the instance shut down, and the one that shuts it down. *)
Lemma begin_shutdown_ok st c : calls st !! c = None → tasks_ok st → tasks_ok (begin_shutdown st c).
Proof.
  intros Hc Hok. unfold begin_shutdown. destruct (decide (serf_state (core st) = SerfState.Shutdown)) as [Hsh|Hsh].
  + rewrite Hsh. destruct Hok as [S O D C L]. split; cbn.
    * eauto.
    * intros d e k l Hdk Hel Hk Hl. rewrite lookup_insert_Some in Hdk, Hel. naive_solver.
    * intros d k Hdk. rewrite lookup_insert_Some in Hdk.
      destruct Hdk as [[<- <-]|[_ Hdk]]; [done|exact (D d k Hdk)].
    * intros Hd. destruct (C Hd) as (d & k & Hk & Ha). exists d, k. split; [|done].
      rewrite lookup_insert_ne; [done|]. intros ->. congruence.
    * exact L.
  + destruct Hok as [S O D C L].
    assert (calls st = ∅) as Hemp.
    { apply map_eq. intros d. rewrite lookup_empty. apply eq_None_not_Some. intros [k Hk]. eauto. }
    assert (down st = false) as Hd.
    { destruct (down st) eqn:E; [|done]. destruct (C eq_refl) as (d & k & Hk & _).
      rewrite Hemp in Hk. by rewrite lookup_empty in Hk. }
    assert (∀ st0, st0 = set_call (set_core st (set_serf_state (core st) SerfState.Shutdown)) c WaitMemberlist →
      tasks_ok st0) as Hgo.
    { intros ? ->. split; cbn; rewrite ?Hemp.
      - done.
      - intros d e k l Hdk Hel _ _. rewrite lookup_insert_Some in Hdk, Hel. set_unfold. naive_solver.
      - intros d k Hdk. apply lookup_insert_Some in Hdk as [[<- <-]|[_ Hdk]]; [done|].
        by rewrite lookup_empty in Hdk.
      - by rewrite Hd.
      - exact L. }
    destruct (serf_state (core st)); (done || by apply Hgo).
Qed.

Lemma step_ok st a st' : step st a st' → tasks_ok st → tasks_ok st'.
Proof.
  intros Hstep Hok. destruct Hstep as [c Hc|c ok Hc|c Hc Hsn|c Hc Hr|Hd Hsn|t Ht Hd Hq|now Hin
    |throttled draw r Hin Hr|t Ht Hin|Hin Hs|Hin Hs|n Hs Hn| |l1 d l2 s' next Hp Hact
    |l1 l2 c payloads stays Hp Hc Hv|s' Ho|].
  - by apply begin_shutdown_ok.
  - assert (∀ l, calls st !! c = Some l → active l) as Ha by (rewrite Hc; by intros l [= <-]).
    destruct ok; [by eapply (ok_call st _ c WaitSnapshot)|].
    eapply (ok_call st _ c (Returned true (Err Memberlist))); try done. apply (to_down _ Hok c _ Hc).
  - assert (∀ l, calls st !! c = Some l → active l) as Ha by (rewrite Hc; by intros l [= <-]).
    eapply (ok_call st _ c WaitHandles); try done. split; [apply (to_down _ Hok c _ Hc)|done].
  - assert (∀ l, calls st !! c = Some l → active l) as Ha by (rewrite Hc; by intros l [= <-]).
    eapply (ok_call st _ c (Returned true (Ok tt))); try done. destruct (to_down _ Hok c _ Hc). done.
  - by eapply ok_frame; [..|exact Hok].
  - eapply ok_frame; [..|exact Hok]; try done; cbn; [|congruence]. by intros x [_ Hx]%list_elem_of_filter.
  - assert (serf_state (core st) = SerfState.Shutdown → serf_state (core st') = SerfState.Shutdown) as Hs
      by (intros Hs; unfold st'; cbn [core set_core]; by rewrite reap_state).
    destruct (down st) eqn:E; eapply ok_frame; try exact Hok; try done; cbn [down running finish set_core st'];
      [by intros x [_ Hx]%list_elem_of_filter|congruence].
  - exact Hok.
  - eapply ok_frame; [..|exact Hok]; try done; cbn; by rewrite ?check_state.
  - by eapply ok_frame; [..|exact Hok].
  - by eapply ok_frame; [..|exact Hok].
  - by eapply ok_frame; [..|exact Hok].
  - by eapply ok_frame; [..|exact Hok].
  - eapply ok_frame; [..|exact Hok]; try done; cbn. by rewrite (detached_state _ _ _ _ Hact).
  - assert (tasks_ok (set_pool st (l1 ++ l2))) as Hok' by (by eapply ok_frame; [..|exact Hok]).
    destruct stays; [done|]. by apply begin_shutdown_ok.
  - eapply ok_frame; [..|exact Hok]; try done; cbn; by eauto.
  - exact Hok.
Qed.

Lemma steps_ok reads st st' : steps reads st st' → tasks_ok st → tasks_ok st'.
Proof. induction 1 as [|st st1 st2 (a & Hs & _) _ IH]; [done|]. intros Hok. by eapply IH, step_ok. Qed.

(** What every step keeps holds from then on. *)
Lemma steps_inv reads (P : Tasks I A → Prop) st st' :
  (∀ st1 a st2, step st1 a st2 → (reads = false → a ≠ AReceive) → tasks_ok st1 → P st1 → P st2) →
  steps reads st st' → tasks_ok st → P st → tasks_ok st' ∧ P st'.
Proof.
  intros HP. induction 1 as [|st st1 st2 (a & Hs & Ha) _ IH]; [done|]. intros Hok Hp.
  apply IH; [by eapply step_ok|by eapply HP].
Qed.

(** *** What only moves one way *)

Lemma begin_shutdown_frame st c :
  running (begin_shutdown st c) = running st ∧ down (begin_shutdown st c) = down st ∧
  snapshotting (begin_shutdown st c) = snapshotting st ∧ sending (begin_shutdown st c) = sending st ∧
  room (begin_shutdown st c) = room st ∧
  ∀ d, d ≠ c → calls (begin_shutdown st c) !! d = calls st !! d.
Proof.
  unfold begin_shutdown. destruct (serf_state (core st)); cbn; split_and!; try done;
    intros d Hd; by rewrite lookup_insert_ne.
Qed.

(** Tasks only end, the channel only closes, the snapshotter only stops. *)
Lemma step_mono st a st' :
  step st a st' →
  running st' ⊆ running st ∧ (down st = true → down st' = true) ∧
  (snapshotting st = false → snapshotting st' = false).
Proof.
  assert (∀ t, filter (λ x, x ≠ t) (running st) ⊆ running st) as Hf
    by (intros t x [_ Hx]%list_elem_of_filter; done).
  destruct 1 as [c Hc|c ok Hc| | | | |now Hin| | | | | | | |l1 l2 c payloads stays Hp Hc Hv| |];
    cbn; split_and!; try done; try apply Hf.
  all: try (destruct (begin_shutdown_frame st c) as (Er & Ed & Es & _); by rewrite ?Er, ?Ed, ?Es).
  all: try (by destruct ok).
  all: try (by destruct (down st); cbn; try apply Hf).
  all: try (intros Hd; rewrite Hd; exact Hd).
  all: destruct stays; try done;
    destruct (begin_shutdown_frame (set_pool st (l1 ++ l2)) c) as (Er & Ed & Es & _);
    by rewrite ?Er, ?Ed, ?Es.
Qed.

(** What a call has come back with stays. *)
Lemma returned_stays st a st' c w r :
  step st a st' → calls st !! c = Some (Returned w r) → calls st' !! c = Some (Returned w r).
Proof.
  intros Hstep Hc.
  destruct Hstep as [d Hd|d ok Hd|d Hd|d Hd| | | | | | | | | | |l1 l2 d payloads stays Hp Hd Hv| |];
    cbn; try done.
  - destruct (begin_shutdown_frame st d) as (_ & _ & _ & _ & _ & ->); [done|]. congruence.
  - assert (d ≠ c) by (intros ->; congruence). destruct ok; cbn; by rewrite lookup_insert_ne.
  - assert (d ≠ c) by (intros ->; congruence). by rewrite lookup_insert_ne.
  - assert (d ≠ c) by (intros ->; congruence). by rewrite lookup_insert_ne.
  - by destruct (down st).
  - destruct stays; [done|].
    destruct (begin_shutdown_frame (set_pool st (l1 ++ l2)) d) as (_ & _ & _ & _ & _ & ->); [done|].
    congruence.
Qed.

(** A call that has brought memberlist down only goes forward. *)
Definition past (k : Call) : Prop := k = WaitSnapshot ∨ k = WaitHandles ∨ k = Returned true (Ok tt).

Lemma past_stays st a st' c k :
  step st a st' → calls st !! c = Some k → past k →
  ∃ k', calls st' !! c = Some k' ∧ past k' ∧ (k = WaitHandles → k' ≠ WaitSnapshot) ∧
    (a = ASnapshotWaited c → k' = WaitHandles) ∧ (a = AJoined c → k' = Returned true (Ok tt)) ∧
    (k = Returned true (Ok tt) → k' = k).
Proof.
  intros Hstep Hc Hk. assert (k ≠ WaitMemberlist) as Hm by (by destruct Hk as [->|[->| ->]]).
  assert (calls st' !! c = Some k ∧ (a = ASnapshotWaited c → False) ∧ (a = AJoined c → False) ∨
    a = ASnapshotWaited c ∧ k = WaitSnapshot ∧ calls st' !! c = Some WaitHandles ∨
    a = AJoined c ∧ k = WaitHandles ∧ calls st' !! c = Some (Returned true (Ok tt))) as Hcase.
  { destruct Hstep as [d Hd|d ok Hd|d Hd|d Hd| | | | | | | | | | |l1 l2 d payloads stays Hp Hd Hv| |];
      cbn; try (by left).
    - left. destruct (begin_shutdown_frame st d) as (_ & _ & _ & _ & _ & ->); [by split_and!|congruence].
    - assert (d ≠ c) by (intros ->; congruence). left. destruct ok; cbn; by rewrite lookup_insert_ne.
    - destruct (decide (d = c)) as [->|Hne].
      + right. left. rewrite lookup_insert_eq. split_and!; congruence.
      + left. rewrite lookup_insert_ne by done. split_and!; congruence.
    - destruct (decide (d = c)) as [->|Hne].
      + right. right. rewrite lookup_insert_eq. split_and!; congruence.
      + left. rewrite lookup_insert_ne by done. split_and!; congruence.
    - left. by destruct (down st).
    - left. destruct stays; [done|].
      destruct (begin_shutdown_frame (set_pool st (l1 ++ l2)) d) as (_ & _ & _ & _ & _ & ->);
        [by split_and!|congruence]. }
  unfold past in *.
  destruct Hcase as [(Hc' & H1 & H2)|[(-> & -> & Hc')|(-> & -> & Hc')]].
  - exists k. split_and!; [done|done|by intros ->|by intros ?%H1|by intros ?%H2|done].
  - exists WaitHandles. split_and!; [done|by auto|done|done|done|done].
  - exists (Returned true (Ok tt)). split_and!; [done|by auto|done|done|done|done].
Qed.

(** *** After a shutdown that ran through *)

(** What may still change the core: an operation of the application, a
    detached task. *)
Definition late s s' : Prop := other s s' ∨ ∃ d next, detached_act (R := R) s d s' next.

Lemma late_step st a st' c :
  tasks_ok st → calls st !! c = Some (Returned true (Ok tt)) → step st a st' →
  rtc late (core st) (core st').
Proof.
  intros Hok Hc Hstep.
  destruct (to_down _ Hok c _ Hc) as (_ & _ & Hnil). pose proof (to_shut _ Hok c _ Hc) as Hsh.
  assert (∀ t, t ∉ running st) as Hnone by (rewrite Hnil; intros t; apply not_elem_of_nil).
  destruct Hstep as [d Hd|d ok Hd|d Hd|d Hd| | |now Hin| |t Ht Hin| | | | |l1 d l2 s' next Hp Hact
    |l1 l2 d payloads stays Hp Hd Hv|s' Hs'|]; cbn; try apply rtc_refl.
  - unfold begin_shutdown. rewrite Hsh. apply rtc_refl.
  - destruct ok; apply rtc_refl.
  - by destruct (Hnone BgReaper).
  - by destruct (Hnone t).
  - apply rtc_once. right. eauto.
  - destruct stays; [apply rtc_refl|]. unfold begin_shutdown. cbn. rewrite Hsh. apply rtc_refl.
  - apply rtc_once. by left.
Qed.

(** *** Fair runs *)

Section run.
Context (σ : nat → Tasks I A) (α : nat → act) (Hrun : fair_run reconnector other σ α).

Lemma run_inv (P : Tasks I A → Prop) n m :
  (∀ st a st', step st a st' → P st → P st') → (n <= m)%nat → P (σ n) → P (σ m).
Proof.
  intros HP Hle Hn. induction Hle as [|m _ IH]; [done|].
  eapply HP; [apply (fr_step _ _ _ _ Hrun)|done].
Qed.

Lemma run_ok n m : (n <= m)%nat → tasks_ok (σ n) → tasks_ok (σ m).
Proof. apply run_inv. intros ???. apply step_ok. Qed.

Lemma run_down n m : (n <= m)%nat → down (σ n) = true → down (σ m) = true.
Proof. apply (run_inv (λ st, down st = true)). intros st a st' Hs. by apply (step_mono st a st' Hs). Qed.

Lemma run_gone n m t : (n <= m)%nat → t ∉ running (σ n) → t ∉ running (σ m).
Proof.
  apply (run_inv (λ st, t ∉ running st)). intros st a st' Hs Hn Hin.
  apply Hn. by apply (step_mono st a st' Hs).
Qed.

Lemma run_snapshot n m : (n <= m)%nat → snapshotting (σ n) = false → snapshotting (σ m) = false.
Proof.
  apply (run_inv (λ st, snapshotting st = false)). intros st a st' Hs. by apply (step_mono st a st' Hs).
Qed.

(** The snapshotter's stream ends. *)
Lemma snapshot_ends n : down (σ n) = true → ∃ m, (n <= m)%nat ∧ snapshotting (σ m) = false.
Proof.
  intros Hd. destruct (fr_weak _ _ _ _ Hrun ASnapshotExit n) as (m & Hle & [Ha|Hen]); [done| |].
  - exists (S m). split; [lia|]. pose proof (fr_step _ _ _ _ Hrun m) as Hs. rewrite Ha in Hs.
    by inversion Hs.
  - exists m. split; [done|]. destruct (snapshotting (σ m)) eqn:E; [|done]. destruct Hen.
    eexists. apply bs_snapshot_exit; [by eapply run_down|done].
Qed.

Lemma exit_removes st t st' : step st (AExit t) st' → t ∉ running st'.
Proof. inversion 1; subst. cbn. by intros [? _]%list_elem_of_filter. Qed.

(** Every task but the one that passes events on. *)
Lemma task_ends n t : t ≠ BgQueries → down (σ n) = true → ∃ m, (n <= m)%nat ∧ t ∉ running (σ m).
Proof.
  intros Ht Hd. destruct (fr_weak _ _ _ _ Hrun (AExit t) n) as (m & Hle & [Ha|Hen]); [done| |].
  - exists (S m). split; [lia|]. pose proof (fr_step _ _ _ _ Hrun m) as Hs. rewrite Ha in Hs.
    by eapply exit_removes.
  - exists m. split; [done|]. intros Hin. apply Hen. eexists. apply bs_exit; [done|by eapply run_down|done].
Qed.

(** While an event waits and there is room, there stays room until it is sent. *)
Lemma room_stays st a st' :
  step st a st' → sending st = true → (0 < room st)%nat →
  sending st' = false ∨ (sending st' = true ∧ (0 < room st')%nat ∧ a ≠ ASent).
Proof.
  intros Hstep Hs Hr. destruct Hstep as [c Hc|c ok Hc| | | | |now Hin| | | | | | | |
    l1 l2 c payloads stays Hp Hc Hv| |]; cbn; try (by right); try (by left).
  - destruct (begin_shutdown_frame st c) as (_ & _ & _ & -> & -> & _). by right.
  - destruct ok; by right.
  - destruct (down st); by right.
  - right. split_and!; [done|lia|done].
  - destruct stays; [by right|].
    destruct (begin_shutdown_frame (set_pool st (l1 ++ l2)) c) as (_ & _ & _ & -> & -> & _). by right.
Qed.

Lemma sending_between n m :
  (n <= m)%nat → sending (σ n) = true → (0 < room (σ n))%nat →
  (∃ k, (n <= k <= m)%nat ∧ sending (σ k) = false) ∨ (sending (σ m) = true ∧ (0 < room (σ m))%nat).
Proof.
  intros Hle Hs Hr. induction Hle as [|m Hle IH]; [by right|].
  destruct IH as [(k & Hk & Hf)|[Hs' Hr']]; [left; exists k; split; [lia|done]|].
  destruct (room_stays _ _ _ (fr_step _ _ _ _ Hrun m) Hs' Hr') as [Hf|(? & ? & _)]; [|by right].
  left. exists (S m). split; [lia|done].
Qed.

(** The task that passes events on is free again and again. *)
Lemma send_ends n : ∃ m, (n <= m)%nat ∧ sending (σ m) = false.
Proof.
  destruct (fr_room _ _ _ _ Hrun n) as (m & Hle & [Hf|Hr]); [by exists m|].
  destruct (sending (σ m)) eqn:Hs; [|by exists m].
  destruct (fr_weak _ _ _ _ Hrun ASent m) as (k & Hk & Hcase); [done|].
  destruct (sending_between m k Hk Hs Hr) as [(j & Hj & Hf)|[Hs' Hr']]; [exists j; split; [lia|done]|].
  destruct Hcase as [Ha|Hen].
  - exists (S k). split; [lia|]. pose proof (fr_step _ _ _ _ Hrun k) as Hst. rewrite Ha in Hst.
    by inversion Hst.
  - destruct Hen. destruct (room (σ k)) as [|r] eqn:Er; [lia|]. eexists. by eapply bs_sent.
Qed.

Lemma queries_end n : down (σ n) = true → ∃ m, (n <= m)%nat ∧ BgQueries ∉ running (σ m).
Proof.
  intros Hd. destruct (fr_select _ _ _ _ Hrun n) as (m & Hle & [Ha|Hen]).
  - exists (S m). split; [lia|]. pose proof (fr_step _ _ _ _ Hrun m) as Hs. rewrite Ha in Hs.
    by eapply exit_removes.
  - destruct (send_ends m) as (k & Hk & Hs). exists k. split; [lia|]. intros Hin.
    apply (Hen k Hk). eexists. apply bs_exit; [done|eapply run_down; [|exact Hd]; lia|done].
Qed.

Lemma tasks_end n : down (σ n) = true → ∃ m, (n <= m)%nat ∧ running (σ m) = [].
Proof.
  intros Hd.
  assert (∀ l : list Bg, ∃ m, (n <= m)%nat ∧ ∀ t, t ∈ l → t ∉ running (σ m)) as Hall.
  { induction l as [|t l (m & Hle & IH)]; [exists n; split; [done|]; by intros t ?%not_elem_of_nil|].
    assert (∃ k, (m <= k)%nat ∧ t ∉ running (σ k)) as (k & Hk & Ht).
    { pose proof (run_down n m Hle Hd). destruct (decide (t = BgQueries)) as [->|];
        [by apply queries_end|by apply task_ends]. }
    exists k. split; [lia|]. intros x [->|Hx]%elem_of_cons; [done|]. eapply run_gone; [exact Hk|by apply IH]. }
  destruct (Hall all_tasks) as (m & Hle & Hm). exists m. split; [done|].
  destruct (running (σ m)) as [|t l] eqn:E; [done|].
  destruct (Hm t); [|by left]. unfold all_tasks. destruct t; set_solver.
Qed.

Lemma past_later n m c k :
  (n <= m)%nat → calls (σ n) !! c = Some k → past k → ∃ k', calls (σ m) !! c = Some k' ∧ past k'.
Proof.
  intros Hle Hc Hk. apply (run_inv (λ st, ∃ k', calls st !! c = Some k' ∧ past k') n m); [|done|eauto].
  intros st a st' Hs (k' & Hc' & Hk'). destruct (past_stays _ _ _ _ _ Hs Hc' Hk') as (k2 & ? & ? & _). eauto.
Qed.

(** The call has left the wait for the snapshotter. *)
Definition beyond st (c : nat) : Prop :=
  ∃ k, calls st !! c = Some k ∧ (k = WaitHandles ∨ k = Returned true (Ok tt)).

Lemma snapshot_waited n c :
  calls (σ n) !! c = Some WaitSnapshot → down (σ n) = true → ∃ m, (n <= m)%nat ∧ beyond (σ m) c.
Proof.
  intros Hc Hd. destruct (snapshot_ends n Hd) as (m & Hle & Hsn).
  destruct (fr_weak _ _ _ _ Hrun (ASnapshotWaited c) m) as (k & Hk & Hcase); [done|].
  destruct (past_later n k c _ ltac:(lia) Hc ltac:(by left)) as (k1 & Hc1 & Hp1).
  destruct Hcase as [Ha|Hen].
  - pose proof (fr_step _ _ _ _ Hrun k) as Hs.
    destruct (past_stays _ _ _ _ _ Hs Hc1 Hp1) as (k2 & Hc2 & _ & _ & Hw & _).
    exists (S k). split; [lia|]. exists k2. split; [done|]. left. by apply Hw.
  - exists k. split; [lia|]. exists k1. split; [done|]. destruct Hp1 as [-> |Hp1]; [|done]. destruct Hen.
    eexists. apply bs_snapshot_waited; [done|]. by eapply run_snapshot.
Qed.

Lemma beyond_later n m c : (n <= m)%nat → beyond (σ n) c → beyond (σ m) c.
Proof.
  apply (run_inv (λ st, beyond st c)). intros st a st' Hs (k & Hc & Hk).
  destruct (past_stays _ _ _ _ _ Hs Hc ltac:(by right)) as (k2 & Hc2 & Hp & Hh & _ & _ & Hr).
  exists k2. split; [done|]. destruct Hk as [->| ->]; [|right; by apply Hr].
  destruct Hp as [->|?]; [by destruct (Hh eq_refl)|done].
Qed.

Lemma call_returns n c :
  calls (σ n) !! c = Some WaitSnapshot → down (σ n) = true →
  ∃ m, (n <= m)%nat ∧ calls (σ m) !! c = Some (Returned true (Ok tt)).
Proof.
  intros Hc Hd. destruct (snapshot_waited n c Hc Hd) as (m & Hle & Hb).
  destruct (tasks_end m (run_down n m Hle Hd)) as (j & Hj & Hnil).
  destruct (fr_weak _ _ _ _ Hrun (AJoined c) j) as (k & Hk & Hcase); [done|].
  destruct (beyond_later m k c ltac:(lia) Hb) as (k1 & Hc1 & Hp1).
  destruct Hcase as [Ha|Hen].
  - pose proof (fr_step _ _ _ _ Hrun k) as Hs.
    destruct (past_stays _ _ _ _ _ Hs Hc1 ltac:(by right)) as (k2 & Hc2 & _ & _ & _ & Hjn & _).
    exists (S k). split; [lia|]. by rewrite Hc2, Hjn.
  - exists k. split; [lia|]. destruct Hp1 as [->| ->]; [|done]. destruct Hen.
    eexists. apply bs_joined; [done|]. apply (run_inv (λ st, running st = []) j k); [|lia|done].
    intros st a st' Hs E. destruct (step_mono _ _ _ Hs) as [Hsub _]. rewrite E in Hsub.
    destruct (running st') as [|x l]; [done|]. specialize (Hsub x (list_elem_of_here x l)).
    by apply not_elem_of_nil in Hsub.
Qed.

(** C21: [shutdown] returns and stops what the instance runs.  In every fair
    run of an instance, in which the application makes room for an event that
    waits to be passed on, a call of [shutdown] that has brought memberlist
    down comes back with success at some time; and from that time on the six
    tasks the instance keeps handles of and its snapshotter have ended for
    good, so that all that may still change the instance are operations the
    application calls and the detached tasks (the timers of queries, a pending
    refutation, vote, answer or rejoin). *)
Theorem shutdown_stops_tasks s snapshot rejoin capacity n c :
  σ 0%nat = start_tasks s snapshot rejoin capacity → calls (σ n) !! c = Some WaitSnapshot →
  ∃ m, (n <= m)%nat ∧ calls (σ m) !! c = Some (Returned true (Ok tt)) ∧
    ∀ j, (m <= j)%nat →
      running (σ j) = [] ∧ snapshotting (σ j) = false ∧ rtc late (core (σ m)) (core (σ j)).
Proof.
  intros Hstart Hc. assert (∀ k, tasks_ok (σ k)) as Hok.
  { intros k. apply (run_ok 0); [lia|]. rewrite Hstart. apply start_ok. }
  destruct (call_returns n c Hc) as (m & Hle & Hm); [by apply (to_down _ (Hok n) c _ Hc)|].
  exists m. split_and!; [done..|]. intros j Hj.
  assert (calls (σ j) !! c = Some (Returned true (Ok tt)) ∧ rtc late (core (σ m)) (core (σ j))) as [Hcj Hl].
  { induction Hj as [|j Hj [Hcj Hl]]; [by split; [|apply rtc_refl]|].
    pose proof (fr_step _ _ _ _ Hrun j) as Hs. split; [by eapply returned_stays|].
    etrans; [exact Hl|]. by eapply late_step. }
  destruct (to_down _ (Hok j) c _ Hcj) as (_ & ? & ?). done.
Qed.

End run.

(** *** A shutdown that did not *)

(** When memberlist would not go down, the channel is never closed: the tasks
    run on, and every further call returns success at once. *)
Theorem failed_shutdown_sticks reads st st' c e d :
  tasks_ok st → calls st !! c = Some (Returned true (Err e)) → steps reads st st' →
  down st' = false ∧ running st' = all_tasks ∧ begin_shutdown st' d = set_call st' d (Returned false (Ok tt)).
Proof.
  intros Hok Hc Hsteps.
  destruct (steps_inv reads (λ st, calls st !! c = Some (Returned true (Err e))) st st') as [Hok' Hc']; try done.
  { intros st1 a st2 Hs _ _. by eapply returned_stays. }
  pose proof (to_down _ Hok' c _ Hc') as Hd. cbn in Hd. split_and!; [done|by apply (to_all _ Hok')|].
  unfold begin_shutdown. by rewrite (to_shut _ Hok' c _ Hc').
Qed.

(** While the application reads nothing and its channel is full, the task
    that passes events on stays in its send and [shutdown] does not return. *)
Theorem full_channel_blocks_shutdown st st' c :
  tasks_ok st → BgQueries ∈ running st → sending st = true → room st = 0%nat →
  steps false st st' → calls st' !! c ≠ Some (Returned true (Ok tt)).
Proof.
  intros Hok Hin Hs Hr Hsteps Hc.
  destruct (steps_inv false (λ st, BgQueries ∈ running st ∧ sending st = true ∧ room st = 0%nat) st st')
    as (Hok' & Hin' & _); try done.
  { clear. intros st1 a st2 Hstep Ha _ (Hi & Hs1 & Hr1).
    destruct Hstep as [d Hd|d ok Hd|d Hd|d Hd| |t Ht Hd Hq|now| | | | |n Hs2 Hn| | |
      l1 l2 d payloads stays Hp Hd Hv| |]; cbn; try done; try congruence.
    - destruct (begin_shutdown_frame st1 d) as (-> & _ & _ & -> & -> & _). done.
    - by destruct ok.
    - split; [|done]. apply list_elem_of_filter. split; [|done]. intros <-. rewrite Hq in Hs1; done.
    - destruct (down st1); cbn; [|done]. split; [|done]. by apply list_elem_of_filter.
    - by destruct (Ha eq_refl).
    - destruct stays; [done|].
      destruct (begin_shutdown_frame (set_pool st1 (l1 ++ l2)) d) as (-> & _ & _ & -> & -> & _). done. }
  destruct (to_down _ Hok' c _ Hc) as (_ & _ & Hnil). rewrite Hnil in Hin'. by apply not_elem_of_nil in Hin'.
Qed.

End facts.

(** ** At work *)

#[local] Instance list_queue : TransmitQueue (list SerfBroadcast) :=
  {| num_queued q := Z.of_nat (length q); prune_queue max q := take (Z.to_nat max) q |}.

Definition leaving (s s' : Serf nat nat) : Prop := s' = leave_end s.

Lemma leaving_stays s s' :
  leaving s s' → serf_state s = SerfState.Shutdown → serf_state s' = SerfState.Shutdown.
Proof. intros -> Hs. unfold leave_end. by rewrite Hs. Qed.

(** Call 7 brings memberlist down while an event waits to be passed on; the
    application has room for it, the snapshotter and the six tasks end, and the
    call comes back. *)
Definition sample_start : Tasks nat nat := start_tasks (sample_serf 0) true false 1.

Definition sample_turns : list (act * (Tasks nat nat → Tasks nat nat)) :=
  [(ATask BgQueries, λ st, set_sending st true (room st));
   (AShutdown 7, λ st, begin_shutdown st 7);
   (AMemberlist 7, λ st, memberlist_down st 7 true);
   (ASent, λ st, set_sending st false 0);
   (ASnapshotExit, λ st, mkInstance (core st) (running st) (pool st) (sending st) (room st) (down st)
                           false (calls st));
   (ASnapshotWaited 7, λ st, set_call st 7 WaitHandles)] ++
  ((λ t, (AExit t, λ st, finish st t)) <$> all_tasks) ++
  [(AJoined 7, λ st, set_call st 7 (Returned true (Ok tt)))].

Definition sample_run (n : nat) : Tasks nat nat :=
  foldl (λ st f, f st) sample_start (take n sample_turns).*2.

Definition sample_acts (n : nat) : act := default AIdle (sample_turns.*1 !! n).

(** Where the run comes to rest. *)
Lemma sample_run_rests n : (13 <= n)%nat → sample_run n = sample_run 13.
Proof. intros Hn. unfold sample_run. by rewrite !take_ge by (simpl; lia). Qed.

Lemma sample_run_idle n a : (13 <= n)%nat → owed a → ¬ enabled (R := string) None leaving a (sample_run n).
Proof.
  intros Hn Ha [st' Hs]. rewrite sample_run_rests in Hs by done.
  assert (calls (sample_run 13) = {[7%nat := Returned true (Ok tt)]}) as Ec
    by (vm_compute; reflexivity).
  assert (running (sample_run 13) = [] ∧ snapshotting (sample_run 13) = false ∧
    sending (sample_run 13) = false) as (Er & Esn & Ese) by (vm_compute; done).
  destruct Hs as [c Hc|c ok Hc|c Hc|c Hc|Hd Hs|t Ht| | | | | |n' Hs| | | | |]; try done; try congruence.
  - rewrite Ec in Hc. by apply lookup_singleton_Some in Hc as [_ ?].
  - rewrite Ec in Hc. by apply lookup_singleton_Some in Hc as [_ ?].
  - rewrite Er in Ht. by apply not_elem_of_nil in Ht.
Qed.

Lemma sample_run_next n a f :
  sample_turns !! n = Some (a, f) →
  sample_acts n = a ∧ sample_run (S n) = f (sample_run n).
Proof.
  intros Hn. unfold sample_acts, sample_run. rewrite list_lookup_fmap, Hn.
  rewrite (take_S_r _ _ _ Hn), fmap_app, foldl_app. done.
Qed.

(** The turn [f] of the list, taken in the state the run has reached. *)
Ltac take_turn n :=
  let Ha := fresh in let Hr := fresh in
  destruct (sample_run_next n _ _ eq_refl) as [Ha Hr]; rewrite Ha, Hr; clear Ha Hr;
  econstructor; vm_compute; done.

Ltac sample_exit n :=
  let Ha := fresh in let Hr := fresh in
  destruct (sample_run_next n _ _ eq_refl) as [Ha Hr]; rewrite Ha, Hr; clear Ha Hr;
  apply bs_exit; [apply (bool_decide_eq_true_1 (_ ∈ _))| |intros _]; vm_compute; done.

Lemma sample_run_steps n : bstep (R := string) None leaving (sample_run n) (sample_acts n) (sample_run (S n)).
Proof.
  destruct (decide (13 <= n)%nat) as [Hn|Hn].
  { rewrite (sample_run_rests n), (sample_run_rests (S n)) by lia. unfold sample_acts.
    rewrite lookup_ge_None_2 by (simpl; lia). apply bs_idle. }
  destruct n as [|[|[|[|[|[|[|[|[|[|[|[|[|n]]]]]]]]]]]]]; [..|lia].
  - destruct (sample_run_next 0 _ _ eq_refl) as [-> ->].
    apply bs_forward; [apply (bool_decide_eq_true_1 (_ ∈ _))|]; vm_compute; done.
  - take_turn 1%nat.
  - destruct (sample_run_next 2 _ _ eq_refl) as [-> ->].
    apply (bs_memberlist _ _ _ 7 true). vm_compute. done.
  - take_turn 3%nat.
  - take_turn 4%nat.
  - take_turn 5%nat.
  - sample_exit 6%nat.
  - sample_exit 7%nat.
  - sample_exit 8%nat.
  - sample_exit 9%nat.
  - sample_exit 10%nat.
  - sample_exit 11%nat.
  - take_turn 12%nat.
Qed.

Lemma sample_run_fair : fair_run (R := string) None leaving sample_run sample_acts.
Proof.
  constructor.
  - apply sample_run_steps.
  - intros a n Ha. exists (max n 13). split; [lia|]. right. apply sample_run_idle; [lia|done].
  - intros n. exists (max n 13). split; [lia|]. right. intros k Hk. apply sample_run_idle; [lia|done].
  - intros n. exists (max n 13). split; [lia|]. left. rewrite (sample_run_rests (max n 13)) by lia.
    vm_compute. done.
Qed.

Lemma shutdown_stops_tasks_witness :
  ∃ m, (3 <= m)%nat ∧ calls (sample_run m) !! 7%nat = Some (Returned true (Ok tt)) ∧
    running (sample_run m) = [].
Proof.
  destruct (shutdown_stops_tasks (R := string) None leaving leaving_stays sample_run sample_acts
    sample_run_fair (sample_serf 0) true false 1 3 7) as (m & Hle & Hc & Hj);
    [reflexivity|vm_compute; reflexivity|].
  exists m. split_and!; [done..|]. apply (Hj m). lia.
Defined.
