(* ===== verification/Surface.v ===== *)
(** * The surface of the crate: moments, names, errors and plain accessors
    (types.rs, error.rs, serf.rs, event.rs, event/crate_event.rs, serf/api.rs)

    What the core leans on and what its user sees: the two clocks behind
    [Epoch], the names of states and events, the errors with their texts, and
    the operations of serf/api.rs that only pass on. *)

From Stdlib Require Import ZArith Lia Strings.Byte.
From stdpp Require Import base list gmap strings pretty.
From S2P Require Import Prelude Clock Coordinate Types Core Sample Membership MemberTraces UserEvents.
From S2P Require Import Responses Query QueryFacts Snapshot Delegate Api.
Local Open Scope Z_scope.

(** ** Moments

    A moment is a number of nanoseconds between [first] and [last], what the
    platform can represent.  [Instant] never runs back and its differences
    saturate; [SystemTime], used on Windows, is set by hand and its
    differences are [unwrap]ped. *)

Section epochs.
Context (first last : Z).

Definition representable (t : Z) : outcome Z := if (t <? first) || (last <? t) then Panic else Done t.

Definition instant_sub (t rhs : Z) : Z := since t rhs.
Definition instant_sub_duration (t d : Z) : outcome Z := representable (t - d).
Definition instant_add_duration (t d : Z) : outcome Z := representable (t + d).
Definition instant_elapsed (now t : Z) : Z := since now t.

Definition system_sub (t rhs : Z) : outcome Z := if t <? rhs then Panic else Done (t - rhs).
Definition system_sub_duration (t d : Z) : outcome Z := representable (t - d).
Definition system_add_duration (t d : Z) : outcome Z := representable (t + d).
Definition system_elapsed (now t : Z) : outcome Z := if now <? t then Panic else Done (now - t).

(** The two agree as long as the clock is not set back behind a moment that
    was kept; when it is, asking how long ago it was panics. *)
Lemma system_elapsed_spec now t :
  (t <= now → system_elapsed now t = Done (instant_elapsed now t)) ∧
  (now < t → system_elapsed now t = Panic ∧ instant_elapsed now t = 0).
Proof.
  unfold system_elapsed, instant_elapsed, since. split; intros Ht.
  - rewrite (proj2 (Z.ltb_ge _ _)) by done. f_equal. lia.
  - rewrite (proj2 (Z.ltb_lt _ _)) by done. split; [done|lia].
Qed.

(** A moment that was reached by adding a duration is that duration away. *)
Lemma instant_add_elapsed t d t' :
  0 <= d → instant_add_duration t d = Done t' → instant_elapsed t' t = d ∧ instant_sub_duration t' d = representable t.
Proof.
  unfold instant_add_duration, instant_sub_duration, representable. intros Hd.
  case_match; intros ?; simplify_eq. unfold instant_elapsed, since. split; [lia|].
  by replace (t + d - d) with t by lia.
Qed.
End epochs.

(** ** Names *)

Definition serf_state_str (s : SerfState.t) : string :=
  match s with
  | SerfState.Alive => "alive"
  | SerfState.Leaving => "leaving"
  | SerfState.Left => "left"
  | SerfState.Shutdown => "shutdown"
  end.

Definition unknown_str (v : Z) : string := ("unknown(" +:+ pretty v +:+ ")")%string.

Definition member_status_str (s : MemberStatus.t) : string :=
  match s with
  | MemberStatus.None => "none"
  | MemberStatus.Alive => "alive"
  | MemberStatus.Leaving => "leaving"
  | MemberStatus.Left => "left"
  | MemberStatus.Failed => "failed"
  | MemberStatus.Unknown v => unknown_str v
  end.

Definition member_event_str (t : MemberEventType.t) : string :=
  match t with
  | MemberEventType.Join => "member-join"
  | MemberEventType.Leave => "member-leave"
  | MemberEventType.Failed => "member-failed"
  | MemberEventType.Update => "member-update"
  | MemberEventType.Reap => "member-reap"
  end.

Definition internal_query_str {I} (k : InternalQueryEvent I) : string :=
  match k with
  | IQPing => INTERNAL_PING
  | IQConflict _ => INTERNAL_CONFLICT
  | IQInstallKey => INTERNAL_INSTALL_KEY
  | IQUseKey => INTERNAL_USE_KEY
  | IQRemoveKey => INTERNAL_REMOVE_KEY
  | IQListKey => INTERNAL_LIST_KEYS
  end.

Lemma unknown_inj v w : unknown_str v = unknown_str w → v = w.
Proof.
  unfold unknown_str. intros E.
  apply (inj (String.append "unknown(")) in E.
  assert (∀ a b : string, (a +:+ ")" = b +:+ ")")%string → a = b) as Hr.
  { induction a as [|x a IH]; intros [|y b] Hab; cbn in Hab; try done.
    - exfalso. destruct b; by simplify_eq.
    - exfalso. destruct a; by simplify_eq.
    - injection Hab as -> Hab. f_equal. by apply IH. }
  apply Hr in E. by apply (inj pretty) in E.
Qed.

(** The names tell the statuses apart, unknown ones included. *)
Lemma member_status_str_inj s t : member_status_str s = member_status_str t → s = t.
Proof.
  destruct s, t; cbn; intros E; try done; try (by simplify_eq); f_equal; by apply unknown_inj.
Qed.

(** A query under the name of an internal one is taken for it by whoever
    reads it. *)
Lemma internal_name_decodes {I A R} `{Codec I A R} (k : InternalQueryEvent I) (q : QueryMessageRef I A) :
  qr_name q = internal_query_str k →
  (∀ id, k = IQConflict id → decode_id (qr_payload q) = Ok id) →
  decode_internal_query q = Some (Ok k).
Proof.
  intros Hn Hid. unfold decode_internal_query. rewrite Hn.
  destruct k as [|id| | | |]; cbn [internal_query_str]; repeat (case_decide; try done).
  by rewrite (Hid id).
Qed.

(** ** Errors

    [Types.Error] is [SerfError] with the one error of memberlist that the
    operations pass on; [AnyError] is the type the application gets. *)

Section errors.
Context {I A E : Type}.

Inductive AnyError : Type :=
| EMemberlist (e : E)
| ESerf (e : Error)
| ERelay (failures : list (Member I A * E))
| EMultiple (errs : list AnyError).

Definition query_response_too_large (limit got : Z) : AnyError := ESerf (QueryResponseTooLarge limit got).
Definition query_timeout_error : AnyError := ESerf QueryTimeout.
Definition query_already_responsed : AnyError := ESerf QueryAlreadyResponsed.
Definition query_response_delivery_failed : AnyError := ESerf QueryResponseDeliveryFailed.
Definition relayed_response_too_large (size : Z) : AnyError := ESerf (RelayedResponseTooLarge size).
Definition relay_error (failures : list (Member I A * E)) : AnyError := ERelay failures.
Definition fail_truncate_response : AnyError := ESerf FailTruncateResponse.
Definition tags_too_large (size : Z) : AnyError := ESerf (TagsTooLarge size).
Definition query_too_large (size : Z) : AnyError := ESerf (QueryTooLarge size).
Definition user_event_limit_too_large (size : Z) : AnyError := ESerf (UserEventLimitTooLarge size).
Definition user_event_too_large (size : Z) : AnyError := ESerf (UserEventTooLarge size).
Definition raw_user_event_too_large (size : Z) : AnyError := ESerf (RawUserEventTooLarge size).
Definition broadcast_channel_closed : AnyError := ESerf BroadcastChannelClosed.
Definition removal_broadcast_timeout : AnyError := ESerf RemovalBroadcastTimeout.
Definition snapshot_error (e : SnapshotError) : AnyError := ESerf (Types.Snapshot e).
Definition bad_leave_status (s : SerfState.t) : AnyError := ESerf (BadLeaveStatus s).
Definition bad_join_status (s : SerfState.t) : AnyError := ESerf (BadJoinStatus s).
Definition coordinates_disabled : AnyError := ESerf CoordinatesDisabled.
Definition from_encode_error (e : EncodeError) : AnyError := ESerf (Encode e).
Definition from_decode_error (e : DecodeError) : AnyError := ESerf (Decode e).

(** The texts; those of ids and of other crates' errors are parameters. *)
Context (show_id : I → string) (show_memberlist : E → string) (memberlist_text : string)
  (show_snapshot : SnapshotError → string) (show_decode : DecodeError → string)
  (show_encode : EncodeError → string).

Local Open Scope string_scope.

Definition serf_error_str (e : Error) : string :=
  match e with
  | Memberlist => memberlist_text
  | UserEventLimitTooLarge n => "user event exceeds configured limit of " +:+ pretty n +:+ " bytes before encoding"
  | UserEventTooLarge n => "user event exceeds sane limit of " +:+ pretty n +:+ " bytes before encoding"
  | BadJoinStatus s => "join called on " +:+ serf_state_str s +:+ " statues"
  | BadLeaveStatus s => "leave called on " +:+ serf_state_str s +:+ " statues"
  | RawUserEventTooLarge n => "user event exceeds sane limit of " +:+ pretty n +:+ " bytes after encoding"
  | QueryTooLarge n => "query exceeds limit of " +:+ pretty n +:+ " bytes"
  | QueryTimeout => "query response is past the deadline"
  | QueryResponseTooLarge limit got =>
      "query response (" +:+ pretty got +:+ " bytes) exceeds limit of " +:+ pretty limit +:+ " bytes"
  | QueryAlreadyResponsed => "query response already sent"
  | FailTruncateResponse => "failed to truncate response so that it fits into message"
  | TagsTooLarge n => "encoded length of tags exceeds limit of " +:+ pretty n +:+ " bytes"
  | RelayedResponseTooLarge n => "relayed response exceeds limit of " +:+ pretty n +:+ " bytes"
  | QueryResponseDeliveryFailed => "failed to deliver query response, dropping"
  | CoordinatesDisabled => "coordinates are disabled"
  | Types.Snapshot e => show_snapshot e
  | Decode e => show_decode e
  | Encode e => show_encode e
  | RemovalBroadcastTimeout => "timed out broadcasting node removal"
  | BroadcastChannelClosed => "timed out broadcasting channel closed"
  end.

Definition newline : string := String (Ascii.ascii_of_nat 10) EmptyString.
Definition tab : string := String (Ascii.ascii_of_nat 9) EmptyString.

Definition relay_line (f : Member I A * E) : string :=
  tab +:+ "failed to send relay response to " +:+ show_id (node_id (node f.1)) +:+ ": "
  +:+ show_memberlist f.2 +:+ newline.
Definition relay_error_str (failures : list (Member I A * E)) : string :=
  "relay errors:" +:+ newline +:+ String.concat EmptyString (relay_line <$> failures).

Definition numbered (i : nat) (text : string) : string := "  " +:+ pretty (S i) +:+ ". " +:+ text.
Definition format_multiple_errors (texts : list string) : string :=
  String.concat newline (imap numbered texts).

Fixpoint error_str (e : AnyError) : string :=
  match e with
  | EMemberlist e => show_memberlist e
  | ESerf e => serf_error_str e
  | ERelay fs => relay_error_str fs
  | EMultiple errs => "errors:" +:+ newline +:+ format_multiple_errors (error_str <$> errs)
  end.

End errors.

Arguments AnyError : clear implicits.

(** Every one of several errors is in the text, under its number. *)
Lemma concat_contains sep l i x :
  l !! i = Some x → ∃ pre post, String.concat sep l = (pre +:+ x +:+ post)%string.
Proof.
  revert i. induction l as [|y l IH]; intros [|i] Hx; simplify_eq/=.
  - destruct l as [|z l]; [exists EmptyString, EmptyString; cbn; by rewrite string_app_nil_r|].
    by exists EmptyString, (sep +:+ String.concat sep (z :: l))%string.
  - destruct (IH i Hx) as (pre & post & E). destruct l as [|z l]; [done|]. rewrite E.
    exists (y +:+ sep +:+ pre)%string, post. by rewrite !string_app_assoc.
Qed.

Lemma multiple_errors_listed {I A E} si sm mt ss sd se (errs : list (AnyError I A E)) i e :
  errs !! i = Some e →
  ∃ pre post, error_str si sm mt ss sd se (EMultiple errs) =
    (pre +:+ numbered i (error_str si sm mt ss sd se e) +:+ post)%string.
Proof.
  intros Hi. cbn [error_str]. unfold format_multiple_errors.
  destruct (concat_contains newline (imap numbered (error_str si sm mt ss sd se <$> errs)) i
    (numbered i (error_str si sm mt ss sd se e))) as (pre & post & E0).
  { by rewrite list_lookup_imap, list_lookup_fmap, Hi. }
  exists ("errors:" +:+ newline +:+ pre)%string, post. by rewrite E0, !string_app_assoc.
Qed.

(** ** Accessors and operations that pass on *)

Section accessors.
Context {I A R : Type} `{Countable I} `{Countable A} `{!Codec I A R}.
Implicit Types s : Serf I A.

Definition api_state s : SerfState.t := serf_state s.
Definition api_members s : list (Member I A) := member <$> (map_to_list (states (members s))).*2.
Definition api_num_members s : nat := size (states (members s)).

Definition query s (name : string) (payload : bytes) (params : option (QueryParam I R))
    (id : Z) (n1 n2 : nat) (now : Z) rnd : outcome (Serf I A * Result nat Error) :=
  query_in s name payload params None id n1 n2 now rnd.

Definition remove_failed_node s (id : I) (now : Z) (w : Waited) : Serf I A * Result unit Error :=
  force_leave (R := R) s id false now w.
Definition remove_failed_node_prune s (id : I) (now : Z) (w : Waited) : Serf I A * Result unit Error :=
  force_leave (R := R) s id true now w.

(** The listing shows every entry of the table once. *)
Lemma api_members_spec s :
  length (api_members s) = api_num_members s ∧
  ∀ m, m ∈ api_members s ↔ ∃ id ms, states (members s) !! id = Some ms ∧ member ms = m.
Proof.
  unfold api_members, api_num_members. split.
  - by rewrite !length_fmap, length_map_to_list.
  - intros m. rewrite list_elem_of_fmap. split.
    + intros (ms & -> & ([id ms'] & -> & Hin)%list_elem_of_fmap). apply elem_of_map_to_list in Hin. eauto.
    + intros (id & ms & Hl & <-). exists ms. split; [done|]. apply list_elem_of_fmap.
      exists (id, ms). split; [done|]. by apply elem_of_map_to_list.
Qed.

End accessors.

(** ** Constructors *)

Definition tags_new : Tags := [].
Definition tags_from_iter (pairs : list (string * string)) : Tags := index_map_of pairs.

(** The last value given for a key is the one that counts, and a key is
    listed once. *)
Lemma tags_from_iter_spec pairs k v :
  NoDup (tags_from_iter pairs).*1 ∧ (k, v) ∈ tags_from_iter (pairs ++ [(k, v)]).
Proof.
  split; [apply index_map_of_keys|]. unfold tags_from_iter, index_map_of. rewrite foldl_app. cbn [foldl].
  set (m := foldl index_insert [] pairs). unfold index_insert.
  destruct (list_find _ m) as [[i q]|] eqn:Hf; [|set_solver].
  apply list_find_Some in Hf as (Hi & _ & _). eapply list_elem_of_lookup_2.
  apply list_lookup_insert_eq. by eapply lookup_lt_Some.
Qed.

Definition member_new {I A} (nd : Node I A) (tg : Tags) (st : MemberStatus.t) : Member I A :=
  mkMember nd tg st PV1 DV1 PV1 DV1.

Section coordinates.
Context {I : Type} `{Countable I}.

Definition coordinate_new : Coordinate := with_options default_coordinate_options.

Definition client_new : CoordinateClient I := {|
  coord := coordinate_new;
  origin := coordinate_new;
  copts := default_coordinate_options;
  adjustment_index := 0;
  adjustment_samples := replicate 20 F64.zero;
  latency_filter_samples := ∅;
  resets := 0;
|}.

Definition client_stats (cl : CoordinateClient I) : nat := resets cl.
Definition client_distance_to (cl : CoordinateClient I) (c : Coordinate) : outcome Z := distance_to (coord cl) c.

(** A new client is one with the default options; it can tell its distance to
    any coordinate of as many dimensions. *)
Lemma client_new_default :
  client_new = client_with_options default_coordinate_options ∧
  ∀ c, length (portion c) = 8%nat → ∃ d, client_distance_to client_new c = Done d.
Proof.
  split; [done|]. intros c Hc. unfold client_distance_to, distance_to.
  assert (is_compatible_with (coord client_new) c = true) as ->; [|eauto].
  apply compatible_iff. by rewrite Hc.
Qed.

End coordinates.
