(* ===== verification/Wire.v ===== *)
(** * The encoding layer messages are written with

    Every type of types/*.rs that travels implements memberlist's [Data]:
    [encoded_len], [encode] into a buffer, [decode] to a borrowed [Ref], and
    [from_ref] to the owned value.  The traits, the scalars, the prefix of
    length-delimited values, [skip], [merge] and [RepeatedDecoder] come from
    the memberlist-proto crate: they are the class [Wire], with what serf
    relies on as [WireLaws].

    The second half is what all of serf's implementations share: the writer
    of an [encode] body (bounds check, tag byte, value), and the
    [while offset < buf_len { match buf[offset] { .. } }] loop of a [decode]
    body, with its termination. *)

From Stdlib Require Import ZArith Lia Strings.Byte.
From stdpp Require Import base list gmap strings.
From S2P Require Import Prelude Types.
Local Open Scope serf_scope.

(** ** The traits *)

Module WireType.
Inductive t : Type := Byte | Varint | LengthDelimited | Fixed32 | Fixed64.

#[global] Instance eq_dec : EqDecision t.
Proof. solve_decision. Defined.
End WireType.

(** [Data] with its [DataRef].  [encode v n] writes into a buffer of [n]
    bytes and yields the bytes written, [decode] the number of bytes read and
    the reference. *)
Record Data (T : Type) : Type := mkData {
  Ref : Type;
  WIRE_TYPE : WireType.t;
  from_ref : Ref → Result T DecodeError;
  encoded_len : T → nat;
  encode : T → nat → Result bytes EncodeError;
  decode : bytes → Result (nat * Ref) DecodeError;
}.
Arguments mkData {T} Ref.
Arguments Ref {T} d : rename.
Arguments WIRE_TYPE {T} d : rename.
Arguments from_ref {T} d r : rename.
Arguments encoded_len {T} d v : rename.
Arguments encode {T} d v n : rename.
Arguments decode {T} d b : rename.

(** A failure of code that can also panic. *)
Inductive Fault (E : Type) : Type :=
| Failed (e : E)
| Panicked.
Arguments Failed {E} e.
Arguments Panicked {E}.

Definition lift {A E} (r : Result A E) : Result A (Fault E) :=
  match r with Ok a => Ok a | Err e => Err (Failed e) end.

Definition settle {A E} (r : Result A (Fault E)) : outcome (Result A E) :=
  match r with
  | Ok a => Done (Ok a)
  | Err (Failed e) => Done (Err e)
  | Err Panicked => Panic
  end.

(** A type that is its own reference: numbers, and strings and byte strings
    whose borrowed form holds the same text. *)
Record Scalar (T : Type) : Type := mkScalar {
  sc_wire : WireType.t;
  sc_len : T → nat;
  sc_encode : T → nat → Result bytes EncodeError;
  sc_decode : bytes → Result (nat * T) DecodeError;
}.
Arguments mkScalar {T}.
Arguments sc_wire {T} s : rename.
Arguments sc_len {T} s v : rename.
Arguments sc_encode {T} s v n : rename.
Arguments sc_decode {T} s b : rename.

Definition scalar {T} (S : Scalar T) : Data T :=
  mkData T (sc_wire S) Ok (sc_len S) (sc_encode S) (sc_decode S).

(** A repeated field that is decoded when it is iterated: where in the
    buffer its first occurrence starts and its last one ends. *)
Record RepeatedDecoder : Type := mkRepeated {
  rd_tag : Z; rd_wire : WireType.t; rd_src : bytes;
  rd_nums : option nat; rd_offsets : option (nat * nat);
}.

Definition rd_new (tag : Z) (w : WireType.t) (src : bytes) : RepeatedDecoder :=
  mkRepeated tag w src None None.
Definition with_nums (n : nat) (r : RepeatedDecoder) : RepeatedDecoder :=
  mkRepeated (rd_tag r) (rd_wire r) (rd_src r) (Some n) (rd_offsets r).
Definition with_offsets (s e : nat) (r : RepeatedDecoder) : RepeatedDecoder :=
  mkRepeated (rd_tag r) (rd_wire r) (rd_src r) (rd_nums r) (Some (s, e)).

(** ** memberlist-proto

    The functions with [_panicking] are the same functions as those without,
    for an implementation of [Data] whose [encode] or [decode] can panic.
    [update] is [EncodeError::update]. *)
Class Wire : Type := {
  merge : WireType.t → Z → byte;
  skip : bytes → Result nat DecodeError;
  update : EncodeError → Z → Z → EncodeError;
  u64_data : Scalar Z;
  u32_data : Scalar Z;
  u8_data : Scalar Z;
  duration_data : Scalar Z;
  bool_data : Scalar bool;
  str_data : Scalar string;
  bytes_data : Scalar bytes;
  encoded_len_with_length_delimited {T} : Data T → T → nat;
  encode_length_delimited {T} : Data T → T → nat → Result bytes EncodeError;
  decode_length_delimited {T} (D : Data T) : bytes → Result (nat * Ref D) DecodeError;
  encoded_len_with_length_delimited_panicking {T} : (T → nat) → T → nat;
  encode_length_delimited_panicking {T} :
    (T → nat) → (T → nat → Result bytes (Fault EncodeError)) →
    T → nat → Result bytes (Fault EncodeError);
  decode_length_delimited_panicking {R} :
    (bytes → Result (nat * R) (Fault DecodeError)) →
    bytes → Result (nat * R) (Fault DecodeError);
  node_len {I A} : Data I → Data A → Node I A → nat;
  node_encode {I A} : Data I → Data A → Node I A → nat → Result bytes EncodeError;
  node_decode {I A} (DI : Data I) (DA : Data A) :
    bytes → Result (nat * Node (Ref DI) (Ref DA)) DecodeError;
  node_from_ref {I A} (DI : Data I) (DA : Data A) :
    Node (Ref DI) (Ref DA) → Result (Node I A) DecodeError;
  pair_data {T U} : Data T → Data U → Data (T * U);
  tuple_encoded_len_with_length_delimited {T U} : Data T → Data U → T * U → nat;
  tuple_encode_with_length_delimited {T U} :
    Data T → Data U → T * U → nat → Result bytes EncodeError;
  iter {T} (D : Data T) : RepeatedDecoder → list (Result (Ref D) DecodeError);
}.

Definition node_data `{Wire} {I A} (DI : Data I) (DA : Data A) : Data (Node I A) :=
  mkData (Node (Ref DI) (Ref DA)) WireType.LengthDelimited (node_from_ref DI DA)
    (node_len DI DA) (node_encode DI DA) (node_decode DI DA).

(** ** What an implementation of [Data] owes its callers *)

(** [v] is written as [bs] into any buffer that holds it, a smaller buffer is
    an error, and [bs] reads back as a reference to [v].  A length-delimited value is given exactly its
    bytes; any other stops by itself. *)
Record codes {T} (D : Data T) (v : T) (bs : bytes) (r : Ref D) : Prop := {
  codes_len : length bs = encoded_len D v;
  codes_encode n : length bs ≤ n → encode D v n = Ok bs;
  codes_refuses n : n < length bs → ∃ e, encode D v n = Err e;
  codes_from_ref : from_ref D r = Ok v;
  codes_decode rest :
    (WIRE_TYPE D = WireType.LengthDelimited → rest = []) →
    decode D (bs ++ rest) = Ok (length bs, r);
}.

(** Sizes a length prefix can hold. *)
Definition fits_u32 (n : nat) : Prop := (Z.of_nat n < u32_modulus)%Z.

#[export] Instance fits_u32_dec n : Decision (fits_u32 n).
Proof. unfold fits_u32. apply _. Defined.

(** [bs] is the body of a field: behind the field's tag byte it reads back
    whatever follows, and [skip] steps over the field. *)
Record body `{Wire} {T} (D : Data T) (bs : bytes) (r : Ref D) : Prop := {
  body_decode rest : decode_length_delimited D (bs ++ rest) = Ok (length bs, r);
  body_skip tag rest :
    (1 <= tag <= 7)%Z → skip (merge (WIRE_TYPE D) tag :: bs ++ rest) = Ok (S (length bs));
}.

(** The body of a field with value [v], written by [enc] in [len] bytes. *)
Record entry `{Wire} {T} (D : Data T) (len : nat) (enc : nat → Result bytes EncodeError)
    (v : T) (bs : bytes) (r : Ref D) : Prop := {
  entry_len : length bs = len;
  entry_encode n : length bs ≤ n → enc n = Ok bs;
  entry_refuses n : n < length bs → ∃ e, enc n = Err e;
  entry_from_ref : from_ref D r = Ok v;
  entry_body : body D bs r;
}.
Arguments entry_len {_ _ _ _ _ _ _ _}.
Arguments entry_encode {_ _ _ _ _ _ _ _}.
Arguments entry_refuses {_ _ _ _ _ _ _ _}.
Arguments entry_from_ref {_ _ _ _ _ _ _ _}.
Arguments entry_body {_ _ _ _ _ _ _ _}.

Definition codes_ld `{Wire} {T} (D : Data T) (v : T) : bytes → Ref D → Prop :=
  entry D (encoded_len_with_length_delimited D v) (encode_length_delimited D v) v.

(** Tags up to 7 go with any wire type; the larger ones serf uses are those
    of length-delimited fields, next to varints with small tags. *)
Definition small_tag (w : WireType.t) (t : Z) : Prop :=
  w = WireType.Varint ∧ (1 <= t <= 7)%Z ∨ w = WireType.LengthDelimited ∧ (1 <= t <= 10)%Z.

Class WireLaws `{Wire} : Prop := {
  merge_tag w t w' t' :
    (1 <= t <= 7)%Z → (1 <= t' <= 7)%Z → merge w t = merge w' t' → t = t';
  merge_large w t w' t' :
    small_tag w t → small_tag w' t' → merge w t = merge w' t' → t = t';
  skip_progress b k : skip b = Ok k → 1 ≤ k;
  u64_codes v : is_u64 v → ∃ bs, codes (scalar u64_data) v bs v;
  u32_codes v : (0 <= v < u32_modulus)%Z → ∃ bs, codes (scalar u32_data) v bs v;
  u8_codes v : (0 <= v < 256)%Z → codes (scalar u8_data) v [byte_of_Z v] v;
  bool_codes b : codes (scalar bool_data) b [byte_of_Z (if b then 1 else 0)] b;
  duration_codes v : is_u64 v → ∃ bs, codes (scalar duration_data) v bs v;
  str_codes s : codes (scalar str_data) s (String.list_byte_of_string s) s;
  bytes_codes b : codes (scalar bytes_data) b b b;
  scalar_wire :
    sc_wire u64_data = WireType.Varint ∧ sc_wire u32_data = WireType.Varint ∧
    sc_wire u8_data = WireType.Byte ∧ sc_wire bool_data = WireType.Byte ∧
    sc_wire duration_data = WireType.Varint ∧
    sc_wire str_data = WireType.LengthDelimited ∧
    sc_wire bytes_data = WireType.LengthDelimited;
  (** A length-delimited value is its length as a [u32], then its bytes. *)
  ld_delimited {T} (D : Data T) v bs r :
    WIRE_TYPE D = WireType.LengthDelimited → codes D v bs r → fits_u32 (length bs) →
    ∃ pre, codes (scalar u32_data) (Z.of_nat (length bs)) pre (Z.of_nat (length bs)) ∧
           codes_ld D v (pre ++ bs) r;
  (** Any other value is written as it is. *)
  ld_plain {T} (D : Data T) v bs r :
    WIRE_TYPE D ≠ WireType.LengthDelimited → codes D v bs r →
    (∀ tag rest, (1 <= tag <= 7)%Z → skip (merge (WIRE_TYPE D) tag :: bs ++ rest) = Ok (S (length bs))) →
    codes_ld D v bs r;
  (** The prefix is checked, and the value then decodes from its own bytes. *)
  decode_ld_panicking {R} (dec : bytes → Result (nat * R) (Fault DecodeError)) pre bs rest :
    codes (scalar u32_data) (Z.of_nat (length bs)) pre (Z.of_nat (length bs)) →
    decode_length_delimited_panicking dec (pre ++ bs ++ rest) =
      try! (k, r) := dec bs in Ok (length pre + k, r);
  len_ld_panicking {T} (len : T → nat) v pre :
    codes (scalar u32_data) (Z.of_nat (len v)) pre (Z.of_nat (len v)) →
    encoded_len_with_length_delimited_panicking len v = length pre + len v;
  encode_ld_panicking {T} (len : T → nat) enc v pre bs n :
    codes (scalar u32_data) (Z.of_nat (length bs)) pre (Z.of_nat (length bs)) →
    len v = length bs → (∀ m, length bs ≤ m → enc v m = Ok bs) →
    length (pre ++ bs) ≤ n →
    encode_length_delimited_panicking len enc v n = Ok (pre ++ bs);
  node_codes {I A} (DI : Data I) (DA : Data A) n bi ri ba ra :
    codes DI (node_id n) bi ri → codes DA (address n) ba ra →
    fits_u32 (length bi) → fits_u32 (length ba) →
    ∃ bs, codes (node_data DI DA) n bs (mkNode ri ra);
  (** The id and the address are converted one at a time. *)
  node_parts {I A} (DI : Data I) (DA : Data A) r n :
    node_from_ref DI DA r = Ok n →
    from_ref DI (node_id r) = Ok (node_id n) ∧ from_ref DA (address r) = Ok (address n);
  tuple_codes {T U} (D : Data T) (E : Data U) v b r w c s :
    codes D v b r → codes E w c s →
    fits_u32 (tuple_encoded_len_with_length_delimited D E (v, w)) →
    ∃ bs x, entry (pair_data D E) (tuple_encoded_len_with_length_delimited D E (v, w))
              (tuple_encode_with_length_delimited D E (v, w)) (v, w) bs x;
  pair_wire {T U} (D : Data T) (E : Data U) :
    WIRE_TYPE (pair_data D E) = WireType.LengthDelimited;
  (** A run of fields of one tag, and nothing else, between the offsets. *)
  iter_run {T} (D : Data T) tag src s e bodies refs :
    take (e - s) (drop s src) = concat ((λ f, merge (WIRE_TYPE D) tag :: f) <$> bodies) →
    Forall2 (body D) bodies refs →
    iter D (with_offsets s e (with_nums (length bodies) (rd_new tag (WIRE_TYPE D) src)))
    = Ok <$> refs;
  iter_none {T} (D : Data T) r : rd_offsets r = None → iter D r = [];
}.

(** ** Writing a message

    The body of an [encode]: [n] is the length of the buffer, [w] what has
    been written; the offset of the source is the length of [w]. *)
Definition writer : Type := nat → bytes → Result bytes EncodeError.

Definition insufficient (required remaining : nat) : EncodeError :=
  InsufficientBuffer (Z.of_nat required) (Z.of_nat remaining).

(** [bail!], then a byte. *)
Definition put (required : nat) (b : byte) : writer := λ n w,
  if (n <=? length w)%nat then Err (insufficient required n) else Ok (w ++ [b]).

(** [offset += value.encode(&mut buf[offset..])], with [?] or [.map_err(upd)?]. *)
Definition emit (upd : EncodeError → nat → EncodeError)
    (enc : nat → Result bytes EncodeError) : writer := λ n w,
  match enc (n - length w)%nat with Ok bs => Ok (w ++ bs) | Err e => Err (upd e n) end.

Definition keep : EncodeError → nat → EncodeError := λ e _, e.
Definition updated `{Wire} (required : nat) : EncodeError → nat → EncodeError :=
  λ e n, update e (Z.of_nat required) (Z.of_nat n).

Definition nothing : writer := λ _ w, Ok w.
Definition andthen (f g : writer) : writer := λ n w, try! w := f n w in g n w.
Definition when (b : bool) (f : writer) : writer := if b then f else nothing.

(** A [for] loop or a [try_fold] over the elements. *)
Fixpoint each {A} (f : A → writer) (l : list A) : writer :=
  match l with [] => nothing | x :: l => andthen (f x) (each f l) end.

(** [.map_err] around a whole [try_fold]. *)
Definition mapping_err (upd : EncodeError → nat → EncodeError) (f : writer) : writer := λ n w,
  match f n w with Ok w => Ok w | Err e => Err (upd e n) end.

Definition run_writer (f : writer) (n : nat) : Result bytes EncodeError := f n [].

Notation "f ;; g" := (andthen f g) (at level 100, g at level 200, right associativity) : serf_scope.

(** [f] writes exactly [bs] where they fit, and fails where they do not. *)
Definition writes (f : writer) (bs : bytes) : Prop :=
  ∀ n w, length w + length bs ≤ n → f n w = Ok (w ++ bs).
Definition bounded (f : writer) (bs : bytes) : Prop :=
  ∀ n w, length w ≤ n → n < length w + length bs → ∃ e, f n w = Err e.

Lemma put_writes len b : writes (put len b) [b].
Proof.
  intros n w Hn. simpl in Hn. unfold put.
  rewrite (proj2 (Nat.leb_gt n (length w))) by lia. done.
Qed.

Lemma put_bounded len b : bounded (put len b) [b].
Proof.
  intros n w Hw Hn. simpl in Hn. unfold put.
  rewrite (proj2 (Nat.leb_le n (length w))) by lia. eauto.
Qed.

Lemma emit_writes upd enc bs :
  (∀ n, length bs ≤ n → enc n = Ok bs) → writes (emit upd enc) bs.
Proof. intros Henc n w Hn. unfold emit. by rewrite Henc by lia. Qed.

Lemma emit_bounded upd enc bs :
  (∀ n, n < length bs → ∃ e, enc n = Err e) → bounded (emit upd enc) bs.
Proof.
  intros Henc n w Hw Hn. unfold emit.
  destruct (Henc (n - length w)%nat ltac:(lia)) as [e ->]. eauto.
Qed.

Lemma nothing_writes : writes nothing [].
Proof. intros n w _. unfold nothing. by rewrite app_nil_r. Qed.

Lemma nothing_bounded : bounded nothing [].
Proof. intros n w Hw Hn. simpl in Hn. lia. Qed.

Lemma andthen_writes f g bs cs : writes f bs → writes g cs → writes (f ;; g) (bs ++ cs).
Proof.
  intros Hf Hg n w Hn. rewrite length_app in Hn. unfold andthen.
  rewrite Hf by lia. rewrite Hg by (rewrite length_app; lia). by rewrite app_assoc.
Qed.

Lemma andthen_bounded f g bs cs :
  writes f bs → bounded f bs → bounded g cs → bounded (f ;; g) (bs ++ cs).
Proof.
  intros Hf Hf' Hg n w Hw Hn. rewrite length_app in Hn. unfold andthen.
  destruct (decide (n < length w + length bs)) as [Hlt|Hge].
  - destruct (Hf' n w Hw Hlt) as [e ->]. eauto.
  - rewrite Hf by lia. apply Hg; rewrite length_app; lia.
Qed.

Lemma when_writes (b : bool) f bs : (b = true → writes f bs) → writes (when b f) (if b then bs else []).
Proof. destruct b; simpl; [auto|]. intros _. apply nothing_writes. Qed.

Lemma when_bounded (b : bool) f bs :
  (b = true → bounded f bs) → bounded (when b f) (if b then bs else []).
Proof. destruct b; simpl; [auto|]. intros _. apply nothing_bounded. Qed.

Lemma each_writes {A} (f : A → writer) l bss :
  Forall2 (λ x bs, writes (f x) bs) l bss → writes (each f l) (concat bss).
Proof.
  induction 1 as [|x bs l bss Hx _ IH]; simpl; [apply nothing_writes|by apply andthen_writes].
Qed.

Lemma each_bounded {A} (f : A → writer) l bss :
  Forall2 (λ x bs, writes (f x) bs ∧ bounded (f x) bs) l bss → bounded (each f l) (concat bss).
Proof.
  induction 1 as [|x bs l bss [Hx Hx'] _ IH]; simpl; [apply nothing_bounded|].
  by apply andthen_bounded.
Qed.

Lemma mapping_err_writes upd f bs : writes f bs → writes (mapping_err upd f) bs.
Proof. intros Hf n w Hn. unfold mapping_err. by rewrite Hf. Qed.

Lemma mapping_err_bounded upd f bs : bounded f bs → bounded (mapping_err upd f) bs.
Proof. intros Hf n w Hw Hn. unfold mapping_err. destruct (Hf n w Hw Hn) as [e ->]. eauto. Qed.

Lemma run_writes f bs n : writes f bs → length bs ≤ n → run_writer f n = Ok bs.
Proof. intros Hf Hn. apply (Hf n []). simpl. lia. Qed.

Lemma run_bounded f bs n : bounded f bs → n < length bs → ∃ e, run_writer f n = Err e.
Proof. intros Hf Hn. apply (Hf n []); simpl; lia. Qed.

#[export] Hint Resolve put_writes put_bounded emit_writes emit_bounded nothing_writes
  nothing_bounded andthen_writes andthen_bounded mapping_err_writes mapping_err_bounded
  run_writes run_bounded : serf.

(** ** Reading a message

    [step st off b tl] is the body of the [match]: [off] is the offset, [b]
    is [buf[offset]], [tl] the buffer past it, [st] the variables of the loop.
    It yields how far the offset moves.  The fuel is the length of the buffer;
    [loop_runs] is the loop itself. *)
Section decode_loop.
Context {S E : Type} (stuck : E) (step : S → nat → byte → bytes → Result (nat * S) E).

Fixpoint decode_loop (fuel off : nat) (st : S) (rest : bytes) : Result (nat * S) E :=
  match rest with
  | [] => Ok (off, st)
  | b :: tl =>
      match fuel with
      | O => Err stuck
      | Datatypes.S fuel =>
          try! (k, st) := step st off b tl in
          decode_loop fuel (off + k) st (drop k rest)
      end
  end.

Inductive loop_runs : nat → S → bytes → Result (nat * S) E → Prop :=
| loop_end off st : loop_runs off st [] (Ok (off, st))
| loop_fail off st b rest e :
    step st off b rest = Err e → loop_runs off st (b :: rest) (Err e)
| loop_next off st b rest k st' r :
    step st off b rest = Ok (k, st') →
    loop_runs (off + k) st' (drop k (b :: rest)) r →
    loop_runs off st (b :: rest) r.

(** Every round of the loop consumes something. *)
Definition progresses : Prop :=
  ∀ st off b tl k st', step st off b tl = Ok (k, st') → 1 ≤ k.

Lemma loop_runs_det off st rest r r' :
  loop_runs off st rest r → loop_runs off st rest r' → r = r'.
Proof.
  intros H. revert r'. induction H; intros r' H'; inversion H'; subst; try done;
    match goal with H1 : step _ _ _ _ = _, H2 : step _ _ _ _ = _ |- _ => rewrite H1 in H2 end;
    simplify_eq; auto.
Qed.

Context (Hprog : progresses).

(** The loop ends on every buffer, and what it ends with is [decode_loop]. *)
Lemma decode_loop_runs fuel : ∀ off st rest,
  length rest ≤ fuel → loop_runs off st rest (decode_loop fuel off st rest).
Proof.
  induction fuel as [|fuel IH]; intros off st [|b rest] Hlen; simpl in *;
    [constructor|lia|constructor|].
  destruct (step st off b rest) as [[k st']|e] eqn:Es; [|by constructor].
  eapply loop_next; [exact Es|]. apply IH.
  pose proof (Hprog _ _ _ _ _ _ Es). rewrite length_drop. simpl. lia.
Qed.

Lemma decode_loop_eq st buf r : loop_runs 0 st buf r → decode_loop (length buf) 0 st buf = r.
Proof. intros H. eapply loop_runs_det; [by apply decode_loop_runs|exact H]. Qed.

End decode_loop.

Definition out_of_fuel : DecodeError := Custom "out of fuel".

(** The loop of a decoder, and of one that can panic. *)
Definition decode_fields {S} (step : S → nat → byte → bytes → Result (nat * S) DecodeError)
    (st : S) (buf : bytes) : Result (nat * S) DecodeError :=
  decode_loop out_of_fuel step (length buf) 0 st buf.

Definition decode_fields_panicking {S}
    (step : S → nat → byte → bytes → Result (nat * S) (Fault DecodeError))
    (st : S) (buf : bytes) : Result (nat * S) (Fault DecodeError) :=
  decode_loop (Failed out_of_fuel) step (length buf) 0 st buf.

Lemma decode_fields_eq {S} (step : S → nat → byte → bytes → Result (nat * S) DecodeError)
    (Hp : progresses step) st buf r : loop_runs step 0 st buf r → decode_fields step st buf = r.
Proof. by apply decode_loop_eq. Qed.

Lemma decode_fields_panicking_eq {S}
    (step : S → nat → byte → bytes → Result (nat * S) (Fault DecodeError))
    (Hp : progresses step) st buf r :
  loop_runs step 0 st buf r → decode_fields_panicking step st buf = r.
Proof. by apply decode_loop_eq. Qed.

(** The loop over every buffer reaches its end, with the result the model
    computes, from any state of its variables. *)
Definition terminates {S E} (step : S → nat → byte → bytes → Result (nat * S) E) : Prop :=
  ∀ (stuck : E) (st : S) (buf : bytes),
    loop_runs step 0 st buf (decode_loop stuck step (length buf) 0 st buf).

Lemma progress_terminates {S E} (step : S → nat → byte → bytes → Result (nat * S) E) :
  progresses step → terminates step.
Proof. intros Hp stuck st buf. by apply decode_loop_runs. Qed.

(** An error of the loop is the error of one of its rounds. *)
Lemma loop_runs_err {S E} (step : S → nat → byte → bytes → Result (nat * S) E) off st rest e :
  loop_runs step off st rest (Err e) →
  ∃ st' off' b tl, step st' off' b tl = Err e ∧ b ∈ rest.
Proof.
  remember (Err e) as r eqn:Hr. intros Hl.
  induction Hl as [|off st b rest e' Hs|off st b rest k st' r Hs Hl IH]; [done| |].
  - simplify_eq. eexists _, _, b, rest. split; [exact Hs|set_solver].
  - destruct (IH Hr) as (st2 & off2 & b2 & tl2 & Hs2 & Hin). eexists _, _, b2, tl2.
    split; [exact Hs2|]. eapply subseteq_drop, Hin.
Qed.

(** One whole field. *)
Lemma loop_field {S E} (step : S → nat → byte → bytes → Result (nat * S) E)
    off st b bs rest st' r :
  step st off b (bs ++ rest) = Ok (Datatypes.S (length bs), st') →
  loop_runs step (off + length (b :: bs)) st' rest r →
  loop_runs step off st (b :: bs ++ rest) r.
Proof.
  intros Hstep Hr. eapply loop_next; [exact Hstep|].
  cbn [drop]. rewrite drop_app_length. exact Hr.
Qed.

(** A field that may occur once: [if slot.is_some() { return duplicate_field }],
    then its value. *)
Definition once {A B : Type} (slot : option A) (tag : Z)
    (dec : bytes → Result (nat * B) DecodeError) (tl : bytes) : Result (nat * B) DecodeError :=
  match slot with
  | Some _ => Err (DuplicateField tag)
  | None => try! (read, v) := dec tl in Ok (S read, v)
  end.

Lemma once_ok {A B} (dec : bytes → Result (nat * B) DecodeError) tag bs v rest :
  dec (bs ++ rest) = Ok (length bs, v) →
  once (A := A) None tag dec (bs ++ rest) = Ok (S (length bs), v).
Proof. intros H. unfold once. by rewrite H. Qed.

Lemma once_progress {A B} (slot : option A) tag (dec : bytes → Result (nat * B) DecodeError) tl k v :
  once slot tag dec tl = Ok (k, v) → 1 ≤ k.
Proof.
  unfold once. destruct slot; [done|].
  destruct (dec tl) as [[m x]|]; intros; simplify_eq; lia.
Qed.

(** The bookkeeping of a repeated field: the least start and the greatest
    end of its occurrences, and their number. *)
Definition track (offsets : option (nat * nat)) (off readed : nat) : option (nat * nat) :=
  match offsets with
  | Some (fnso, lnso) =>
      Some (if (off <? fnso)%nat then off else fnso,
            if (lnso <? off + readed)%nat then off + readed else lnso)%nat
  | None => Some (off, off + readed)%nat
  end.

Definition repeated_of (tag : Z) (w : WireType.t) (buf : bytes)
    (offsets : option (nat * nat)) (nums : nat) : RepeatedDecoder :=
  match offsets with
  | Some (s, e) => with_offsets s e (with_nums nums (rd_new tag w buf))
  | None => rd_new tag w buf
  end.

(** Some decoders record the count even of a field that does not occur. *)
Definition repeated_counted (tag : Z) (w : WireType.t) (buf : bytes)
    (offsets : option (nat * nat)) (nums : nat) : RepeatedDecoder :=
  match offsets with
  | Some (s, e) => with_offsets s e (with_nums nums (rd_new tag w buf))
  | None => with_nums nums (rd_new tag w buf)
  end.

(** The arm of a repeated field, and the arm of an unknown one. *)
Definition tracked `{Wire} (offsets : option (nat * nat)) (off : nat) (b : byte) (tl : bytes)
  : Result (nat * option (nat * nat)) DecodeError :=
  try! readed := skip (b :: tl) in Ok (readed, track offsets off readed).

Definition skipped `{Wire} {S} (st : S) (b : byte) (tl : bytes) : Result (nat * S) DecodeError :=
  try! k := skip (b :: tl) in Ok (k, st).

(** The fields of a repeated tag, one after the other. *)
Definition fields (b : byte) (bodies : list bytes) : bytes := concat ((λ f, b :: f) <$> bodies).

(** Where a run of fields that starts at [off] leaves the bookkeeping. *)
Definition run_offsets (off : nat) (b : byte) (bodies : list bytes) : option (nat * nat) :=
  match bodies with [] => None | _ => Some (off, off + length (fields b bodies)) end.

(** [collect::<Result<_, _>>()] of an iterator: the first error wins. *)
Fixpoint collect {A E} (l : list (Result A E)) : Result (list A) E :=
  match l with
  | [] => Ok []
  | x :: l => try! a := x in try! r := collect l in Ok (a :: r)
  end.

Definition and_then {A B E} (x : Result A E) (f : A → Result B E) : Result B E :=
  try! a := x in f a.

Lemma track_run off b bodies bs :
  track (run_offsets off b bodies) (off + length (fields b bodies)) (S (length bs))
  = run_offsets off b (bodies ++ [bs]).
Proof.
  assert (length (fields b (bodies ++ [bs])) = length (fields b bodies) + S (length bs))%nat as Hl.
  { unfold fields. rewrite fmap_app, concat_app, length_app. cbn. by rewrite app_nil_r. }
  destruct bodies as [|x bodies]; cbn [run_offsets app].
  - cbn. by rewrite app_nil_r, Nat.add_0_r.
  - change (x :: bodies ++ [bs]) with ((x :: bodies) ++ [bs]). unfold track.
    rewrite Hl. destruct (Nat.ltb_spec (off + length (fields b (x :: bodies))) off); [lia|].
    destruct (Nat.ltb_spec (off + length (fields b (x :: bodies)))
                (off + length (fields b (x :: bodies)) + S (length bs))); [|lia].
    do 2 f_equal. lia.
Qed.

(** The loop over a run of one repeated field; [st o k] is the state with the
    bookkeeping [o] and the count [k]. *)
Lemma loop_repeated {S E} (step : S → nat → byte → bytes → Result (nat * S) E)
    (st : option (nat * nat) → nat → S) b bodies off rest r :
  (∀ o k off bs rest, bs ∈ bodies →
     step (st o k) off b (bs ++ rest) =
       Ok (Datatypes.S (length bs), st (track o off (Datatypes.S (length bs))) (Datatypes.S k))) →
  loop_runs step (off + length (fields b bodies)) (st (run_offsets off b bodies) (length bodies)) rest r →
  loop_runs step off (st None 0) (fields b bodies ++ rest) r.
Proof.
  intros Hstep Hr. change (st None 0) with (st (run_offsets off b []) (length (@nil (list byte)))).
  cut (∀ todo seen, bodies = seen ++ todo →
    loop_runs step (off + length (fields b seen)) (st (run_offsets off b seen) (length seen))
      (fields b todo ++ rest) r).
  { intros Hgo. specialize (Hgo bodies [] eq_refl). cbn in Hgo. by rewrite Nat.add_0_r in Hgo. }
  induction todo as [|bs todo IH]; intros seen Hs.
  - rewrite app_nil_r in Hs. by subst.
  - change (fields b (bs :: todo)) with ((b :: bs) ++ fields b todo).
    rewrite <- app_assoc. eapply loop_field; [apply Hstep; set_solver|].
    rewrite track_run. specialize (IH (seen ++ [bs])).
    rewrite length_app, Nat.add_1_r in IH.
    replace (off + length (fields b (seen ++ [bs]))) with
      (off + length (fields b seen) + length (b :: bs)) in IH.
    + apply IH. by rewrite <- app_assoc.
    + unfold fields. rewrite fmap_app, concat_app, length_app. cbn. rewrite app_nil_r. lia.
Qed.

(** A run of one repeated field in the middle of a buffer reads back. *)
Lemma repeated_iter `{WireLaws} {T} (D : Data T) tag w b pre bodies post refs :
  w = WIRE_TYPE D → b = merge w tag → Forall2 (body D) bodies refs →
  iter D (repeated_of tag w (pre ++ fields b bodies ++ post)
           (run_offsets (length pre) b bodies) (length bodies)) = Ok <$> refs.
Proof.
  intros -> -> Hb. unfold run_offsets. destruct bodies as [|f bodies].
  - apply Forall2_nil_inv_l in Hb as ->. by apply iter_none.
  - unfold repeated_of. apply iter_run; [|done].
    rewrite drop_app_length. rewrite Nat.add_comm, Nat.add_sub. by rewrite take_app_length.
Qed.

Lemma counted_iter `{WireLaws} {T} (D : Data T) tag w b pre bodies post refs :
  w = WIRE_TYPE D → b = merge w tag → Forall2 (body D) bodies refs →
  iter D (repeated_counted tag w (pre ++ fields b bodies ++ post)
           (run_offsets (length pre) b bodies) (length bodies)) = Ok <$> refs.
Proof.
  intros -> -> Hb. destruct bodies as [|f bodies].
  - apply Forall2_nil_inv_l in Hb as ->. by apply iter_none.
  - by apply (repeated_iter D tag _ _ pre (f :: bodies) post).
Qed.

Lemma tracked_progress `{WireLaws} o off b tl k o' : tracked o off b tl = Ok (k, o') → 1 ≤ k.
Proof.
  unfold tracked. destruct (skip (b :: tl)) as [m|] eqn:E; intros; simplify_eq.
  by eapply skip_progress.
Qed.

Lemma skipped_progress `{WireLaws} {S} (st : S) b tl k st' : skipped st b tl = Ok (k, st') → 1 ≤ k.
Proof.
  unfold skipped. destruct (skip (b :: tl)) as [m|] eqn:E; intros; simplify_eq.
  by eapply skip_progress.
Qed.

Lemma tracked_ok `{WireLaws} {T} (D : Data T) tag o off b bs r rest :
  (1 <= tag <= 7)%Z → b = merge (WIRE_TYPE D) tag → body D bs r →
  tracked o off b (bs ++ rest) = Ok (S (length bs), track o off (S (length bs))).
Proof. intros Ht -> Hb. unfold tracked. by rewrite (body_skip _ _ _ Hb tag rest Ht). Qed.

Lemma collect_ok {A E} (l : list A) : collect (Ok (E := E) <$> l) = Ok l.
Proof. induction l as [|a l IH]; [done|]. cbn. by rewrite IH. Qed.

(** A missing field. *)
Definition required {A} (x : option A) : Result A DecodeError :=
  match x with Some a => Ok a | None => Err MissingField end.

(** ** Fields as values

    [bs] is how a field's value is written by [enc], in [len] bytes, and what
    [dec] reads [r] from, whatever follows it. *)
Record value {R} (len : nat) (enc : nat → Result bytes EncodeError)
    (dec : bytes → Result (nat * R) DecodeError) (bs : bytes) (r : R) : Prop := {
  value_len : length bs = len;
  value_enc n : length bs ≤ n → enc n = Ok bs;
  value_refuses n : n < length bs → ∃ e, enc n = Err e;
  value_dec rest : dec (bs ++ rest) = Ok (length bs, r);
}.

Lemma entry_value `{Wire} {T} (D : Data T) len enc v bs r :
  entry D len enc v bs r → value len enc (decode_length_delimited D) bs r.
Proof. intros [Hl He Hr _ Hb]. split; [done..|]. apply Hb. Qed.

Lemma codes_value {T} (D : Data T) v bs r :
  WIRE_TYPE D ≠ WireType.LengthDelimited → codes D v bs r →
  value (encoded_len D v) (encode D v) (decode D) bs r.
Proof. intros Hw [Hl He Hr _ Hd]. split; [done..|]. intros rest. by apply Hd. Qed.

(** The values of a repeated field. *)
Section entries.
Context `{Wire} {T : Type} (D : Data T) (len : T → nat) (enc : T → nat → Result bytes EncodeError).

Abbreviation entries := (Forall3 (λ v bs r, entry D (len v) (enc v) v bs r)).

Lemma entries_exist l :
  Forall (λ v, ∃ bs r, entry D (len v) (enc v) v bs r) l → ∃ bodies refs, entries l bodies refs.
Proof.
  induction 1 as [|v l (bs & r & Hv) _ (bodies & refs & IH)]; [by exists [], []; constructor|].
  exists (bs :: bodies), (r :: refs). by constructor.
Qed.

Lemma entries_writes l bodies refs p b upd :
  writes p [b] → entries l bodies refs →
  writes (each (λ v, p ;; emit upd (enc v)) l) (fields b bodies).
Proof.
  intros Hp. induction 1 as [|v bs r l bodies refs Hv _ IH]; [apply nothing_writes|].
  cbn [each]. change (fields b (bs :: bodies)) with (([b] ++ bs) ++ fields b bodies).
  apply andthen_writes; [|done]. apply andthen_writes; [done|].
  apply emit_writes. apply Hv.
Qed.

Lemma entries_bounded l bodies refs p b upd :
  writes p [b] → bounded p [b] → entries l bodies refs →
  bounded (each (λ v, p ;; emit upd (enc v)) l) (fields b bodies).
Proof.
  intros Hp Hp'. induction 1 as [|v bs r l bodies refs Hv _ IH]; [apply nothing_bounded|].
  cbn [each]. change (fields b (bs :: bodies)) with (([b] ++ bs) ++ fields b bodies).
  apply andthen_bounded; [apply andthen_writes|apply andthen_bounded|done].
  all: first [done|apply emit_writes; apply Hv|apply emit_bounded; apply Hv].
Qed.

Lemma entries_length l bodies refs b :
  entries l bodies refs → length (fields b bodies) = sum_list ((λ v, 1 + len v) <$> l).
Proof.
  induction 1 as [|v bs r l bodies refs Hv _ IH]; [done|].
  change (fields b (bs :: bodies)) with ((b :: bs) ++ fields b bodies).
  rewrite length_app, IH. simpl. by rewrite (entry_len Hv).
Qed.

Lemma entries_bodies l bodies refs : entries l bodies refs → Forall2 (body D) bodies refs.
Proof.
  induction 1 as [|v bs r l bodies refs Hv _ IH]; [constructor|].
  constructor; [apply (entry_body Hv)|done].
Qed.

Lemma entries_collect l bodies refs :
  entries l bodies refs →
  collect ((λ x, and_then x (from_ref D)) <$> (Ok <$> refs)) = Ok l.
Proof.
  induction 1 as [|v bs r l bodies refs Hv _ IH]; [done|].
  cbn. rewrite (entry_from_ref Hv). cbn in IH. by rewrite IH.
Qed.

Lemma entries_body l bodies refs bs :
  entries l bodies refs → bs ∈ bodies → ∃ r, body D bs r.
Proof.
  intros He Hin. apply entries_bodies in He.
  apply list_elem_of_lookup in Hin as [i Hi].
  destruct (Forall2_lookup_l _ _ _ _ _ He Hi) as (r & _ & Hr). eauto.
Qed.

End entries.

Section scalar_values.
Context `{WireLaws}.

Lemma u64_value t : is_u64 t →
  ∃ bs, value (sc_len u64_data t) (sc_encode u64_data t) (sc_decode u64_data) bs t.
Proof.
  intros Ht. destruct (u64_codes t Ht) as [bs Hc]. exists bs.
  apply (codes_value _ _ _ _) in Hc; [done|]. simpl. by rewrite (proj1 scalar_wire).
Qed.

Lemma u32_value t : (0 <= t < u32_modulus)%Z →
  ∃ bs, value (sc_len u32_data t) (sc_encode u32_data t) (sc_decode u32_data) bs t.
Proof.
  intros Ht. destruct (u32_codes t Ht) as [bs Hc]. exists bs.
  apply (codes_value _ _ _ _) in Hc; [done|]. simpl. by rewrite (proj1 (proj2 scalar_wire)).
Qed.

Lemma duration_value t : is_u64 t →
  ∃ bs, value (sc_len duration_data t) (sc_encode duration_data t) (sc_decode duration_data) bs t.
Proof.
  intros Ht. destruct (duration_codes t Ht) as [bs Hc]. exists bs.
  apply (codes_value _ _ _ _) in Hc; [done|]. simpl.
  destruct scalar_wire as (_ & _ & _ & _ & -> & _). done.
Qed.

Lemma u8_value v : (0 <= v < 256)%Z →
  value (sc_len u8_data v) (sc_encode u8_data v) (sc_decode u8_data) [byte_of_Z v] v.
Proof.
  intros Hv. apply (codes_value (scalar u8_data)); [|by apply u8_codes]. simpl.
  destruct scalar_wire as (_ & _ & -> & _). done.
Qed.

Lemma bool_value b :
  value (sc_len bool_data b) (sc_encode bool_data b) (sc_decode bool_data)
    [byte_of_Z (if b then 1 else 0)] b.
Proof.
  apply (codes_value (scalar bool_data)); [|by apply bool_codes]. simpl.
  destruct scalar_wire as (_ & _ & _ & -> & _). done.
Qed.

Lemma byte_body b :
  ∃ bs, length bs = 1%nat ∧
    value (sc_len bool_data b) (sc_encode bool_data b) (sc_decode bool_data) bs b.
Proof. eexists. split; [|apply bool_value]. done. Qed.

Lemma length_list_byte s : length (String.list_byte_of_string s) = String.length s.
Proof.
  unfold String.list_byte_of_string. rewrite List.length_map.
  induction s as [|c s IH]; simpl; [done|]. by rewrite IH.
Qed.

Lemma str_ld_prefix s : fits_u32 (String.length s) →
  ∃ pre, codes (scalar u32_data) (Z.of_nat (String.length s)) pre (Z.of_nat (String.length s)) ∧
    codes_ld (scalar str_data) s (pre ++ String.list_byte_of_string s) s.
Proof.
  intros Hs. rewrite <- length_list_byte in *. apply ld_delimited; [|apply str_codes|done].
  simpl. by destruct scalar_wire as (_ & _ & _ & _ & _ & -> & _).
Qed.

Lemma str_ld s : fits_u32 (String.length s) → ∃ bs, codes_ld (scalar str_data) s bs s.
Proof. intros Hs. destruct (str_ld_prefix s Hs) as (pre & _ & Hld). eauto. Qed.

Lemma bytes_ld b : fits_u32 (length b) → ∃ bs, codes_ld (scalar bytes_data) b bs b.
Proof.
  intros Hb. destruct (ld_delimited (scalar bytes_data) b b b) as (pre & _ & Hld);
    [|apply bytes_codes|done|eauto].
  simpl. by destruct scalar_wire as (_ & _ & _ & _ & _ & _ & ->).
Qed.

Lemma delimited_ld {T} (D : Data T) v :
  WIRE_TYPE D = WireType.LengthDelimited →
  (∃ bs r, codes D v bs r) → fits_u32 (encoded_len D v) → ∃ bs r, codes_ld D v bs r.
Proof.
  intros Hw (bs & r & Hc) Hf. rewrite <- (codes_len _ _ _ _ Hc) in Hf.
  destruct (ld_delimited D v bs r Hw Hc Hf) as (pre & _ & Hld). eauto.
Qed.

End scalar_values.

Lemma loop_finish {S E} (step : S → nat → byte → bytes → Result (nat * S) E) off st n st' :
  off = n → st = st' → loop_runs step off st [] (Ok (n, st')).
Proof. intros -> ->. constructor. Qed.

(** The loop over the fields of a repeated tag. *)
Lemma loop_entries `{WireLaws} {S T} (step : S → nat → byte → bytes → Result (nat * S) DecodeError)
    (st : option (nat * nat) → nat → S) (D : Data T) len enc l bodies refs tag b off rest r :
  Forall3 (λ v bs r, entry D (len v) (enc v) v bs r) l bodies refs →
  (1 <= tag <= 7)%Z → b = merge (WIRE_TYPE D) tag →
  (∀ o k off tl, step (st o k) off b tl =
     try! (j, o) := tracked o off b tl in Ok (j, st o (Datatypes.S k))) →
  loop_runs step (off + length (fields b bodies)) (st (run_offsets off b bodies) (length bodies)) rest r →
  loop_runs step off (st None 0) (fields b bodies ++ rest) r.
Proof.
  intros Hes Ht Hb Hstep. apply loop_repeated. intros o k off' x rest' Hx. rewrite Hstep.
  destruct (entries_body _ _ _ _ _ _ _ Hes Hx) as [ref Hr].
  by erewrite (tracked_ok D tag) by done.
Qed.

(** ** Automation for decoders

    [arms] evaluates the [match] on a tag byte, [step_progress] shows that
    every arm of one moves the offset. *)
Create HintDb tags.
Create HintDb steps.

Ltac tag_neq :=
  let H := fresh in
  intro H; repeat (progress (autounfold with tags in H));
  first [apply merge_tag in H; [lia|lia|lia]
        |apply merge_large in H; [lia|unfold small_tag; intuition lia..]].

Ltac arms :=
  repeat first [rewrite decide_True by reflexivity | rewrite decide_False by tag_neq].

Ltac step_progress :=
  repeat match goal with
  | H : (if decide ?P then _ else _) = Ok _ |- _ => destruct (decide P)
  | H : match ?x with Ok _ => _ | Err _ => _ end = Ok _ |- _ => destruct x as [[??]|] eqn:?
  | H : match ?x with Some _ => _ | None => _ end = Ok _ |- _ => destruct x eqn:?
  | H : match ?x with [] => _ | _ :: _ => _ end = Ok _ |- _ => destruct x eqn:?
  | H : Err _ = Ok _ |- _ => discriminate H
  | H : Ok _ = Ok _ |- _ => injection H as <- <-
  end;
  eauto using once_progress, tracked_progress, skipped_progress.

(** Reads the next field of a buffer with the arm for its tag. *)
Ltac read_field :=
  eapply loop_field; [autounfold with steps; arms; simpl;
    first [erewrite once_ok by (eapply value_dec; eassumption)
          |erewrite value_dec by eassumption]; reflexivity|];
  simpl.

(** The end of the buffer, all fields read. *)
Ltac end_fields :=
  apply loop_finish; [simpl; repeat (rewrite length_app; simpl); lia|reflexivity].

Ltac read_fields :=
  repeat (progress (cbn [app]; rewrite <- ?app_assoc)); repeat read_field; end_fields.

(** Composes what the parts of a writer write, and where they fail. *)
Ltac solve_writes_put := first [apply put_writes | apply put_bounded].

Ltac solve_writes :=
  repeat first
    [apply andthen_writes | apply when_writes; intros _ | apply put_writes | apply nothing_writes
    |apply mapping_err_writes | eapply entries_writes; [solve [solve_writes_put]|eassumption]
    |apply emit_writes; intros; eapply value_enc; eassumption];
  eauto.

Ltac solve_bounded :=
  repeat first
    [apply andthen_bounded; [solve [solve_writes]| |] | apply when_bounded; intros _
    |apply put_bounded | apply nothing_bounded | apply mapping_err_bounded
    |eapply entries_bounded; [solve [solve_writes_put]..|eassumption]
    |apply emit_bounded; intros; eapply value_refuses; eassumption];
  eauto.

(** The obligations of a message whose [encode] is one writer. *)
Lemma message_codes {T} (D : Data T) v w bs r :
  WIRE_TYPE D = WireType.LengthDelimited → encode D v = run_writer w →
  length bs = encoded_len D v → writes w bs → bounded w bs →
  from_ref D r = Ok v → decode D (bs ++ []) = Ok (length bs, r) → codes D v bs r.
Proof.
  intros Hw He Hl Hwr Hb Hf Hd. split; [done| |  |done|].
  - intros n Hn. rewrite He. by apply run_writes.
  - intros n Hn. rewrite He. by eapply run_bounded.
  - intros rest Hrest. by rewrite Hrest.
Qed.

Ltac lengths := repeat (rewrite length_app; simpl); lia.

(** Reads a run of the repeated field whose values are [Hes]. *)
Ltac read_entries st Hes :=
  eapply (loop_entries _ st _ _ _ _ _ _ _ _ _ _ _ Hes);
  [|reflexivity|intros; autounfold with steps; arms; reflexivity|simpl];
  [autounfold with tags; lia|].

(** States the offset the loop has reached. *)
Ltac at_offset n :=
  match goal with
  | |- loop_runs _ ?off _ _ _ => replace off with n by (simpl; lengths)
  end.
