(* ===== verification/CodecIntents.v ===== *)
(** * Join and leave intents on the wire

    types/clock.rs, version.rs, leave.rs and join.rs: the [Data]
    implementations of [LamportTime], [ProtocolVersion] and
    [DelegateVersion], [LeaveMessage] and [JoinMessage]. *)

From Stdlib Require Import ZArith Lia Strings.Byte.
From stdpp Require Import base list gmap strings.
From S2P Require Import Prelude Types Wire.
Local Open Scope serf_scope.

Section intents.
Context `{Wire}.

(** ** [LamportTime] delegates to [u64] *)

Definition lamport_encoded_len (t : Z) : nat := sc_len u64_data t.
Definition lamport_encode (t : Z) (n : nat) : Result bytes EncodeError := sc_encode u64_data t n.
Definition lamport_decode (src : bytes) : Result (nat * Z) DecodeError := sc_decode u64_data src.

Definition lamport_data : Data Z :=
  mkData Z WireType.LengthDelimited Ok lamport_encoded_len lamport_encode lamport_decode.

(** ** Versions are one byte *)

Definition delegate_version_of_u8 (v : Z) : DelegateVersion :=
  if (v =? 1)%Z then DV1 else DUnknown v.
Definition u8_of_delegate_version (v : DelegateVersion) : Z :=
  match v with DV1 => 1 | DUnknown v => v end.
Definition protocol_version_of_u8 (v : Z) : ProtocolVersion :=
  if (v =? 1)%Z then PV1 else PUnknown v.
Definition u8_of_protocol_version (v : ProtocolVersion) : Z :=
  match v with PV1 => 1 | PUnknown v => v end.

Definition version_decode {V} (of_u8 : Z → V) (src : bytes) : Result (nat * V) DecodeError :=
  match src with
  | [] => Err BufferUnderflow
  | b :: _ => Ok (1%nat, of_u8 (Z_of_byte b))
  end.

Definition version_encode {V} (to_u8 : V → Z) (v : V) (n : nat) : Result bytes EncodeError :=
  if (n =? 0)%nat then Err (InsufficientBuffer 1 0) else Ok [byte_of_Z (to_u8 v)].

Definition delegate_version_data : Data DelegateVersion :=
  mkData DelegateVersion WireType.Byte Ok (λ _, 1%nat)
    (version_encode u8_of_delegate_version) (version_decode delegate_version_of_u8).
Definition protocol_version_data : Data ProtocolVersion :=
  mkData ProtocolVersion WireType.Byte Ok (λ _, 1%nat)
    (version_encode u8_of_protocol_version) (version_decode protocol_version_of_u8).

(** ** [LeaveMessage] *)

Context {I : Type} (DI : Data I).

Definition leave_LTIME_TAG : Z := 1.
Definition leave_PRUNE_TAG : Z := 2.
Definition leave_ID_TAG : Z := 3.
Definition leave_LTIME_BYTE : byte := merge WireType.Varint leave_LTIME_TAG.
Definition leave_PRUNE_BYTE : byte := merge WireType.Byte leave_PRUNE_TAG.
Definition leave_id_byte : byte := merge (WIRE_TYPE DI) leave_ID_TAG.

(** The variables of the loop. *)
Record leave_vars : Type := mkLeaveVars {
  lv_ltime : option Z; lv_id : option (Ref DI); lv_prune : option bool }.

Definition leave_step (st : leave_vars) (off : nat) (b : byte) (tl : bytes)
  : Result (nat * leave_vars) DecodeError :=
  if decide (b = leave_LTIME_BYTE) then
    try! (k, v) := once (lv_ltime st) leave_LTIME_TAG lamport_decode tl in
    Ok (k, mkLeaveVars (Some v) (lv_id st) (lv_prune st))
  else if decide (b = leave_PRUNE_BYTE) then
    try! (k, v) := once (lv_prune st) leave_PRUNE_TAG (sc_decode bool_data) tl in
    Ok (k, mkLeaveVars (lv_ltime st) (lv_id st) (Some v))
  else if decide (b = leave_id_byte) then
    try! (read, v) := decode_length_delimited DI tl in
    Ok (S read, mkLeaveVars (lv_ltime st) (Some v) (lv_prune st))
  else skipped st b tl.

Definition leave_decode (buf : bytes) : Result (nat * LeaveMessage (Ref DI)) DecodeError :=
  try! (offset, st) := decode_fields leave_step (mkLeaveVars None None None) buf in
  try! ltime := required (lv_ltime st) in
  try! id := required (lv_id st) in
  Ok (offset, mkLeave ltime id (default false (lv_prune st))).

Definition leave_from_ref (m : LeaveMessage (Ref DI)) : Result (LeaveMessage I) DecodeError :=
  try! id := from_ref DI (leave_id m) in Ok (mkLeave (leave_ltime m) id (prune m)).

Definition leave_encoded_len (m : LeaveMessage I) : nat :=
  1 + lamport_encoded_len (leave_ltime m) + (if prune m then 1 + 1 else 0)
  + 1 + encoded_len_with_length_delimited DI (leave_id m).

Definition leave_encode (m : LeaveMessage I) : nat → Result bytes EncodeError :=
  let len := leave_encoded_len m in
  run_writer
    (put len leave_LTIME_BYTE ;;
     emit (updated len) (lamport_encode (leave_ltime m)) ;;
     when (prune m)
       (put len leave_PRUNE_BYTE ;; emit (updated len) (sc_encode bool_data true)) ;;
     put len leave_id_byte ;;
     emit (updated len) (encode_length_delimited DI (leave_id m))).

Definition leave_data : Data (LeaveMessage I) :=
  mkData (LeaveMessage (Ref DI)) WireType.LengthDelimited leave_from_ref
    leave_encoded_len leave_encode leave_decode.

(** ** [JoinMessage] *)

Definition join_LTIME_TAG : Z := 1.
Definition join_ID_TAG : Z := 2.
Definition join_LTIME_BYTE : byte := merge WireType.Varint join_LTIME_TAG.
Definition join_id_byte : byte := merge (WIRE_TYPE DI) join_ID_TAG.

Record join_vars : Type := mkJoinVars { jv_ltime : option Z; jv_id : option (Ref DI) }.

Definition join_step (st : join_vars) (off : nat) (b : byte) (tl : bytes)
  : Result (nat * join_vars) DecodeError :=
  if decide (b = join_LTIME_BYTE) then
    try! (k, v) := once (jv_ltime st) join_LTIME_TAG lamport_decode tl in
    Ok (k, mkJoinVars (Some v) (jv_id st))
  else if decide (b = join_id_byte) then
    try! (k, v) := once (jv_id st) join_ID_TAG (decode_length_delimited DI) tl in
    Ok (k, mkJoinVars (jv_ltime st) (Some v))
  else skipped st b tl.

Definition join_decode (buf : bytes) : Result (nat * JoinMessage (Ref DI)) DecodeError :=
  try! (offset, st) := decode_fields join_step (mkJoinVars None None) buf in
  try! ltime := required (jv_ltime st) in
  try! id := required (jv_id st) in
  Ok (offset, mkJoin ltime id).

Definition join_from_ref (m : JoinMessage (Ref DI)) : Result (JoinMessage I) DecodeError :=
  try! id := from_ref DI (join_id m) in Ok (mkJoin (join_ltime m) id).

Definition join_encoded_len (m : JoinMessage I) : nat :=
  1 + lamport_encoded_len (join_ltime m) + 1 + encoded_len_with_length_delimited DI (join_id m).

Definition join_encode (m : JoinMessage I) : nat → Result bytes EncodeError :=
  let len := join_encoded_len m in
  run_writer
    (put len join_LTIME_BYTE ;;
     emit keep (lamport_encode (join_ltime m)) ;;
     put len join_id_byte ;;
     emit keep (encode_length_delimited DI (join_id m))).

Definition join_data : Data (JoinMessage I) :=
  mkData (JoinMessage (Ref DI)) WireType.LengthDelimited join_from_ref
    join_encoded_len join_encode join_decode.

End intents.

#[export] Hint Unfold leave_LTIME_BYTE leave_PRUNE_BYTE leave_id_byte leave_LTIME_TAG
  leave_PRUNE_TAG leave_ID_TAG join_LTIME_BYTE join_id_byte join_LTIME_TAG join_ID_TAG : tags.

#[export] Hint Unfold leave_step join_step : steps.

(** ** What the codecs do *)

#[local] Arguments once : simpl never.

Section facts.
Context `{WireLaws} {I : Type} (DI : Data I).

Lemma lamport_value t : is_u64 t →
  ∃ bs, value (lamport_encoded_len t) (lamport_encode t) lamport_decode bs t.
Proof. apply u64_value. Qed.

Lemma lamport_codes t : is_u64 t → ∃ bs, codes lamport_data t bs t.
Proof.
  intros Ht. destruct (lamport_value t Ht) as [bs [Hl He Hr Hd]]. exists bs.
  split; [done..|]. intros rest _. apply Hd.
Qed.

Lemma leave_progresses : progresses (leave_step DI).
Proof. intros st off b tl k st' Hs. unfold leave_step in Hs. step_progress. lia. Qed.

Lemma join_progresses : progresses (join_step DI).
Proof. intros st off b tl k st' Hs. unfold join_step in Hs. step_progress. Qed.

Lemma leave_codes m bi ri :
  is_u64 (leave_ltime m) → codes_ld DI (leave_id m) bi ri →
  ∃ bs, codes (leave_data DI) m bs (mkLeave (leave_ltime m) ri (prune m)).
Proof.
  intros Ht Hid. destruct (lamport_value _ Ht) as [bl Hl].
  destruct (byte_body true) as (bp & Hbp & Hp). pose proof (entry_value _ _ _ _ _ _ Hid) as Hv.
  set (bs := [leave_LTIME_BYTE] ++ bl ++ (if prune m then [leave_PRUNE_BYTE] ++ bp else [])
     ++ [leave_id_byte DI] ++ bi).
  exists bs. eapply message_codes; [done|reflexivity| |solve_writes|solve_bounded| |]; simpl.
  - unfold leave_encoded_len. rewrite <- (value_len _ _ _ _ _ Hl), <- (value_len _ _ _ _ _ Hv).
    destruct (prune m); lengths.
  - unfold leave_from_ref. simpl. rewrite (entry_from_ref Hid). by destruct m.
  - unfold leave_decode. rewrite (decode_fields_eq _ leave_progresses _ _
      (Ok (length bs, mkLeaveVars DI (Some (leave_ltime m)) (Some ri)
                        (if prune m then Some true else None)))).
    + simpl. by destruct (prune m).
    + unfold bs. destruct (prune m); read_fields.
Qed.

Lemma join_codes m bi ri :
  is_u64 (join_ltime m) → codes_ld DI (join_id m) bi ri →
  ∃ bs, codes (join_data DI) m bs (mkJoin (join_ltime m) ri).
Proof.
  intros Ht Hid. destruct (lamport_value _ Ht) as [bl Hl].
  pose proof (entry_value _ _ _ _ _ _ Hid) as Hv.
  set (bs := [join_LTIME_BYTE] ++ bl ++ [join_id_byte DI] ++ bi).
  exists bs. eapply message_codes; [done|reflexivity| |solve_writes|solve_bounded| |]; simpl.
  - unfold join_encoded_len. rewrite <- (value_len _ _ _ _ _ Hl), <- (value_len _ _ _ _ _ Hv).
    lengths.
  - unfold join_from_ref. simpl. rewrite (entry_from_ref Hid). by destruct m.
  - unfold join_decode. rewrite (decode_fields_eq _ join_progresses _ _
      (Ok (length bs, mkJoinVars DI (Some (join_ltime m)) (Some ri)))); [done|].
    unfold bs. read_fields.
Qed.

(** One byte each way; [Unknown(1)] is the only value that reads back as
    another. *)
Lemma delegate_version_codes v :
  v ≠ DUnknown 1 → (0 <= u8_of_delegate_version v < 256)%Z →
  codes delegate_version_data v [byte_of_Z (u8_of_delegate_version v)] v.
Proof.
  intros Hv Hr. split; simpl; [done| | |done|].
  - intros [|n] Hn; [lia|done].
  - intros [|n] Hn; [eauto|lia].
  - intros rest _. rewrite byte_roundtrip by done. do 2 f_equal.
    destruct v as [|v]; simpl in *; [done|]. unfold delegate_version_of_u8.
    destruct (Z.eqb_spec v 1); congruence.
Qed.

Lemma protocol_version_codes v :
  v ≠ PUnknown 1 → (0 <= u8_of_protocol_version v < 256)%Z →
  codes protocol_version_data v [byte_of_Z (u8_of_protocol_version v)] v.
Proof.
  intros Hv Hr. split; simpl; [done| | |done|].
  - intros [|n] Hn; [lia|done].
  - intros [|n] Hn; [eauto|lia].
  - intros rest _. rewrite byte_roundtrip by done. do 2 f_equal.
    destruct v as [|v]; simpl in *; [done|]. unfold protocol_version_of_u8.
    destruct (Z.eqb_spec v 1); congruence.
Qed.

End facts.
