(* ===== verification/CodecEvents.v ===== *)
(** * User events on the wire

    types/user_event.rs, user_event/message.rs and user_event/user_events.rs:
    [UserEvent], [UserEventMessage] and [UserEvents]. *)

From Stdlib Require Import ZArith Lia Strings.Byte.
From stdpp Require Import base list gmap strings.
From S2P Require Import Prelude Types Wire CodecIntents.
Local Open Scope serf_scope.

Section events.
Context `{Wire}.

(** ** [UserEvent] *)

Definition ue_NAME_TAG : Z := 1.
Definition ue_PAYLOAD_TAG : Z := 2.
Definition ue_NAME_BYTE : byte := merge WireType.LengthDelimited ue_NAME_TAG.
Definition ue_PAYLOAD_BYTE : byte := merge WireType.LengthDelimited ue_PAYLOAD_TAG.

(** A string or byte string is left out when it is empty. *)
Definition str_nonempty (s : string) : bool := negb (String.length s =? 0)%nat.
Definition bytes_nonempty (b : bytes) : bool := negb (length b =? 0)%nat.

Definition str_len_ld (s : string) : nat := encoded_len_with_length_delimited (scalar str_data) s.
Definition bytes_len_ld (b : bytes) : nat := encoded_len_with_length_delimited (scalar bytes_data) b.
Definition str_encode_ld (s : string) : nat → Result bytes EncodeError :=
  encode_length_delimited (scalar str_data) s.
Definition bytes_encode_ld (b : bytes) : nat → Result bytes EncodeError :=
  encode_length_delimited (scalar bytes_data) b.
Definition str_decode_ld (b : bytes) : Result (nat * string) DecodeError :=
  decode_length_delimited (scalar str_data) b.
Definition bytes_decode_ld (b : bytes) : Result (nat * bytes) DecodeError :=
  decode_length_delimited (scalar bytes_data) b.

Record user_event_vars : Type := mkUserEventVars { uev_name : option string; uev_payload : option bytes }.

Definition user_event_step (st : user_event_vars) (off : nat) (b : byte) (tl : bytes)
  : Result (nat * user_event_vars) DecodeError :=
  if decide (b = ue_NAME_BYTE) then
    try! (k, v) := once (uev_name st) ue_NAME_TAG str_decode_ld tl in
    Ok (k, mkUserEventVars (Some v) (uev_payload st))
  else if decide (b = ue_PAYLOAD_BYTE) then
    try! (k, v) := once (uev_payload st) ue_PAYLOAD_TAG bytes_decode_ld tl in
    Ok (k, mkUserEventVars (uev_name st) (Some v))
  else skipped st b tl.

Definition user_event_decode (buf : bytes) : Result (nat * UserEvent) DecodeError :=
  try! (offset, st) := decode_fields user_event_step (mkUserEventVars None None) buf in
  Ok (offset, mkUserEvent (default EmptyString (uev_name st)) (default [] (uev_payload st))).

Definition user_event_encoded_len (e : UserEvent) : nat :=
  (if str_nonempty (ue_name e) then 1 + str_len_ld (ue_name e) else 0)
  + (if bytes_nonempty (ue_payload e) then 1 + bytes_len_ld (ue_payload e) else 0).

Definition user_event_encode (e : UserEvent) : nat → Result bytes EncodeError :=
  let len := user_event_encoded_len e in
  run_writer
    (when (str_nonempty (ue_name e))
       (put len ue_NAME_BYTE ;; emit keep (str_encode_ld (ue_name e))) ;;
     when (bytes_nonempty (ue_payload e))
       (put len ue_PAYLOAD_BYTE ;; emit keep (bytes_encode_ld (ue_payload e)))).

(** The reference borrows the name and the payload. *)
Definition user_event_from_ref (e : UserEvent) : Result UserEvent DecodeError :=
  Ok (mkUserEvent (ue_name e) (ue_payload e)).

Definition user_event_data : Data UserEvent :=
  mkData UserEvent WireType.LengthDelimited user_event_from_ref
    user_event_encoded_len user_event_encode user_event_decode.

(** ** [UserEvents]: the events of one Lamport time *)

Definition ues_LTIME_TAG : Z := 1.
Definition ues_EVENTS_TAG : Z := 2.
Definition ues_LTIME_BYTE : byte := merge WireType.Varint ues_LTIME_TAG.
Definition ues_EVENTS_BYTE : byte := merge WireType.LengthDelimited ues_EVENTS_TAG.

Record UserEventsRef : Type := mkUserEventsRef { uesr_ltime : Z; uesr_events : RepeatedDecoder }.

Record user_events_vars : Type := mkUserEventsVars {
  uesv_ltime : option Z; uesv_offsets : option (nat * nat); uesv_num : nat }.

Definition user_events_step (st : user_events_vars) (off : nat) (b : byte) (tl : bytes)
  : Result (nat * user_events_vars) DecodeError :=
  if decide (b = ues_LTIME_BYTE) then
    try! (k, v) := once (uesv_ltime st) ues_LTIME_TAG lamport_decode tl in
    Ok (k, mkUserEventsVars (Some v) (uesv_offsets st) (uesv_num st))
  else if decide (b = ues_EVENTS_BYTE) then
    try! (k, o) := tracked (uesv_offsets st) off b tl in
    Ok (k, mkUserEventsVars (uesv_ltime st) o (S (uesv_num st)))
  else skipped st b tl.

Definition user_events_decode (buf : bytes) : Result (nat * UserEventsRef) DecodeError :=
  try! (offset, st) := decode_fields user_events_step (mkUserEventsVars None None 0) buf in
  try! ltime := required (uesv_ltime st) in
  Ok (offset, mkUserEventsRef ltime
    (repeated_of ues_EVENTS_TAG WireType.LengthDelimited buf (uesv_offsets st) (uesv_num st))).

Definition user_events_from_ref (r : UserEventsRef) : Result UserEvents DecodeError :=
  try! events := collect ((λ ev, and_then ev (from_ref user_event_data)) <$>
                          iter user_event_data (uesr_events r)) in
  Ok (mkUserEvents (uesr_ltime r) events).

Definition user_events_encoded_len (u : UserEvents) : nat :=
  1 + lamport_encoded_len (ues_ltime u)
  + sum_list ((λ e, 1 + encoded_len_with_length_delimited user_event_data e) <$> ues_events u).

Definition user_events_encode (u : UserEvents) : nat → Result bytes EncodeError :=
  let len := user_events_encoded_len u in
  run_writer
    (put len ues_LTIME_BYTE ;;
     emit (updated len) (lamport_encode (ues_ltime u)) ;;
     mapping_err (updated len)
       (each (λ ev, put len ues_EVENTS_BYTE ;;
                    emit keep (encode_length_delimited user_event_data ev)) (ues_events u))).

Definition user_events_data : Data UserEvents :=
  mkData UserEventsRef WireType.LengthDelimited user_events_from_ref
    user_events_encoded_len user_events_encode user_events_decode.

(** ** [UserEventMessage]: an event as it is gossiped *)

Definition uem_LTIME_TAG : Z := 1.
Definition uem_CC_TAG : Z := 2.
Definition uem_NAME_TAG : Z := 3.
Definition uem_PAYLOAD_TAG : Z := 4.
Definition uem_LTIME_BYTE : byte := merge WireType.Varint uem_LTIME_TAG.
Definition uem_CC_BYTE : byte := merge WireType.Byte uem_CC_TAG.
Definition uem_NAME_BYTE : byte := merge WireType.LengthDelimited uem_NAME_TAG.
Definition uem_PAYLOAD_BYTE : byte := merge WireType.LengthDelimited uem_PAYLOAD_TAG.

Record uem_vars : Type := mkUemVars {
  uemv_ltime : option Z; uemv_name : option string;
  uemv_payload : option bytes; uemv_cc : option bool }.

Definition uem_step (st : uem_vars) (off : nat) (b : byte) (tl : bytes)
  : Result (nat * uem_vars) DecodeError :=
  if decide (b = uem_LTIME_BYTE) then
    try! (k, v) := once (uemv_ltime st) uem_LTIME_TAG lamport_decode tl in
    Ok (k, mkUemVars (Some v) (uemv_name st) (uemv_payload st) (uemv_cc st))
  else if decide (b = uem_CC_BYTE) then
    try! (k, v) := once (uemv_cc st) uem_CC_TAG (sc_decode bool_data) tl in
    Ok (k, mkUemVars (uemv_ltime st) (uemv_name st) (uemv_payload st) (Some v))
  else if decide (b = uem_NAME_BYTE) then
    try! (k, v) := once (uemv_name st) uem_NAME_TAG str_decode_ld tl in
    Ok (k, mkUemVars (uemv_ltime st) (Some v) (uemv_payload st) (uemv_cc st))
  else if decide (b = uem_PAYLOAD_BYTE) then
    try! (k, v) := once (uemv_payload st) uem_PAYLOAD_TAG bytes_decode_ld tl in
    Ok (k, mkUemVars (uemv_ltime st) (uemv_name st) (Some v) (uemv_cc st))
  else skipped st b tl.

Definition uem_decode (buf : bytes) : Result (nat * UserEventMessage) DecodeError :=
  try! (offset, st) := decode_fields uem_step (mkUemVars None None None None) buf in
  try! ltime := required (uemv_ltime st) in
  Ok (offset, mkUserEventMessage ltime (default EmptyString (uemv_name st))
                (default [] (uemv_payload st)) (default false (uemv_cc st))).

Definition uem_from_ref (m : UserEventMessage) : Result UserEventMessage DecodeError :=
  Ok (mkUserEventMessage (uem_ltime m) (uem_name m) (uem_payload m) (cc m)).

Definition uem_encoded_len (m : UserEventMessage) : nat :=
  1 + lamport_encoded_len (uem_ltime m)
  + (if str_nonempty (uem_name m) then 1 + str_len_ld (uem_name m) else 0)
  + (if bytes_nonempty (uem_payload m) then 1 + bytes_len_ld (uem_payload m) else 0)
  + (if cc m then 1 + 1 else 0).

Definition uem_encode (m : UserEventMessage) : nat → Result bytes EncodeError :=
  let len := uem_encoded_len m in
  run_writer
    (put len uem_LTIME_BYTE ;;
     emit (updated len) (lamport_encode (uem_ltime m)) ;;
     when (cc m) (put len uem_CC_BYTE ;; put len (byte_of_Z 1)) ;;
     when (str_nonempty (uem_name m))
       (put len uem_NAME_BYTE ;; emit keep (str_encode_ld (uem_name m))) ;;
     when (bytes_nonempty (uem_payload m))
       (put len uem_PAYLOAD_BYTE ;; emit keep (bytes_encode_ld (uem_payload m)))).

Definition uem_data : Data UserEventMessage :=
  mkData UserEventMessage WireType.LengthDelimited uem_from_ref
    uem_encoded_len uem_encode uem_decode.

End events.

#[export] Hint Unfold ue_NAME_TAG ue_PAYLOAD_TAG ue_NAME_BYTE ue_PAYLOAD_BYTE
  ues_LTIME_TAG ues_EVENTS_TAG ues_LTIME_BYTE ues_EVENTS_BYTE
  uem_LTIME_TAG uem_CC_TAG uem_NAME_TAG uem_PAYLOAD_TAG
  uem_LTIME_BYTE uem_CC_BYTE uem_NAME_BYTE uem_PAYLOAD_BYTE : tags.
#[export] Hint Unfold user_event_step user_events_step uem_step : steps.

#[local] Arguments once : simpl never.

Section facts.
Context `{WireLaws}.

Lemma user_event_progresses : progresses user_event_step.
Proof. intros st off b tl k st' Hs. unfold user_event_step in Hs. step_progress. Qed.

Lemma user_events_progresses : progresses user_events_step.
Proof. intros st off b tl k st' Hs. unfold user_events_step in Hs. step_progress. Qed.

Lemma uem_progresses : progresses uem_step.
Proof. intros st off b tl k st' Hs. unfold uem_step in Hs. step_progress. Qed.

Lemma str_value s : fits_u32 (String.length s) →
  ∃ bs, value (str_len_ld s) (str_encode_ld s) str_decode_ld bs s.
Proof. intros Hs. destruct (str_ld s Hs) as [bs Hc]. eexists. by apply entry_value in Hc. Qed.

Lemma bytes_value b : fits_u32 (length b) →
  ∃ bs, value (bytes_len_ld b) (bytes_encode_ld b) bytes_decode_ld bs b.
Proof. intros Hb. destruct (bytes_ld b Hb) as [bs Hc]. eexists. by apply entry_value in Hc. Qed.

Lemma str_empty s : str_nonempty s = false → s = EmptyString.
Proof. destruct s; [done|]. unfold str_nonempty. simpl. done. Qed.

Lemma bytes_empty b : bytes_nonempty b = false → b = [].
Proof. destruct b; [done|]. unfold bytes_nonempty. simpl. done. Qed.

Lemma user_event_codes e :
  fits_u32 (String.length (ue_name e)) → fits_u32 (length (ue_payload e)) →
  ∃ bs, codes user_event_data e bs e.
Proof.
  intros Hn Hp. destruct e as [name payload]; simpl in *.
  destruct (str_value _ Hn) as [bn Hbn], (bytes_value _ Hp) as [bp Hbp].
  set (bs := (if str_nonempty name then [ue_NAME_BYTE] ++ bn else [])
          ++ (if bytes_nonempty payload then [ue_PAYLOAD_BYTE] ++ bp else [])).
  exists bs. eapply message_codes; [done|reflexivity| |solve_writes|solve_bounded|done|]; simpl.
  - unfold user_event_encoded_len. simpl.
    rewrite <- (value_len _ _ _ _ _ Hbn), <- (value_len _ _ _ _ _ Hbp). unfold bs.
    destruct (str_nonempty name), (bytes_nonempty payload); lengths.
  - unfold user_event_decode. rewrite (decode_fields_eq _ user_event_progresses _ _
      (Ok (length bs, mkUserEventVars (if str_nonempty name then Some name else None)
                        (if bytes_nonempty payload then Some payload else None)))).
    + simpl. destruct (str_nonempty name) eqn:E, (bytes_nonempty payload) eqn:E'; simpl;
        by rewrite ?(str_empty _ E), ?(bytes_empty _ E').
    + unfold bs. destruct (str_nonempty name), (bytes_nonempty payload); read_fields.
Qed.

(** An event travels as itself; its length must fit a prefix. *)
Definition event_fits (e : UserEvent) : Prop :=
  fits_u32 (String.length (ue_name e)) ∧ fits_u32 (length (ue_payload e)) ∧
  fits_u32 (user_event_encoded_len e).

Lemma user_event_ld e : event_fits e → ∃ bs r, codes_ld user_event_data e bs r.
Proof.
  intros (Hn & Hp & He). apply delimited_ld; [done| |done].
  destruct (user_event_codes e Hn Hp) as [bs Hc]. eauto.
Qed.

Lemma user_events_codes u :
  is_u64 (ues_ltime u) → Forall event_fits (ues_events u) →
  ∃ bs r, codes user_events_data u bs r.
Proof.
  intros Ht Hev. destruct u as [lt evs]; simpl in *.
  destruct (lamport_value _ Ht) as [bl Hl].
  destruct (entries_exist user_event_data _ _ evs (Forall_impl _ _ _ Hev user_event_ld))
    as (bodies & refs & Hes).
  set (bs := [ues_LTIME_BYTE] ++ bl ++ fields ues_EVENTS_BYTE bodies).
  exists bs, (mkUserEventsRef lt (repeated_of ues_EVENTS_TAG WireType.LengthDelimited (bs ++ [])
     (run_offsets (S (length bl)) ues_EVENTS_BYTE bodies) (length bodies))).
  assert (bs ++ [] = (ues_LTIME_BYTE :: bl) ++ fields ues_EVENTS_BYTE bodies ++ []) as Hbs
    by (unfold bs; by rewrite <- !app_assoc).
  eapply message_codes; [done|reflexivity| |solve_writes|solve_bounded| |];
    cbn [from_ref encoded_len decode user_events_data].
  - unfold user_events_encoded_len. simpl. rewrite <- (value_len _ _ _ _ _ Hl).
    pose proof (entries_length _ _ _ _ _ _ ues_EVENTS_BYTE Hes). simpl in *. lengths.
  - unfold user_events_from_ref. cbn [uesr_ltime uesr_events]. rewrite Hbs.
    rewrite (repeated_iter user_event_data _ _ _ (_ :: bl) bodies [] refs)
      by (done || by eapply entries_bodies).
    by rewrite (entries_collect _ _ _ _ _ _ Hes).
  - unfold user_events_decode. rewrite (decode_fields_eq _ user_events_progresses _ _
      (Ok (length bs, mkUserEventsVars (Some lt) (run_offsets (S (length bl)) ues_EVENTS_BYTE bodies)
                        (length bodies)))); [done|].
    rewrite Hbs. cbn [app]. read_field.
    read_entries (mkUserEventsVars (Some lt)) Hes. end_fields.
Qed.

Lemma uem_codes m :
  is_u64 (uem_ltime m) → fits_u32 (String.length (uem_name m)) → fits_u32 (length (uem_payload m)) →
  ∃ bs, codes uem_data m bs m.
Proof.
  intros Ht Hn Hp. destruct m as [lt name payload c]; simpl in *.
  destruct (lamport_value _ Ht) as [bl Hl].
  destruct (str_value _ Hn) as [bn Hbn], (bytes_value _ Hp) as [bp Hbp].
  pose proof (bool_value true) as Hc. simpl in Hc.
  set (bs := [uem_LTIME_BYTE] ++ bl ++ (if c then [uem_CC_BYTE] ++ [byte_of_Z 1] else [])
     ++ (if str_nonempty name then [uem_NAME_BYTE] ++ bn else [])
     ++ (if bytes_nonempty payload then [uem_PAYLOAD_BYTE] ++ bp else [])).
  exists bs. eapply message_codes; [done|reflexivity| |solve_writes|solve_bounded|done|]; simpl.
  - unfold uem_encoded_len. simpl. rewrite <- (value_len _ _ _ _ _ Hl),
      <- (value_len _ _ _ _ _ Hbn), <- (value_len _ _ _ _ _ Hbp). unfold bs.
    destruct c, (str_nonempty name), (bytes_nonempty payload); lengths.
  - unfold uem_decode. rewrite (decode_fields_eq _ uem_progresses _ _
      (Ok (length bs, mkUemVars (Some lt) (if str_nonempty name then Some name else None)
            (if bytes_nonempty payload then Some payload else None) (if c then Some true else None)))).
    + simpl. destruct c, (str_nonempty name) eqn:E, (bytes_nonempty payload) eqn:E'; simpl;
        by rewrite ?(str_empty _ E), ?(bytes_empty _ E').
    + unfold bs. generalize dependent [byte_of_Z 1]. intros b1 Hb1 bs.
      destruct c, (str_nonempty name), (bytes_nonempty payload); read_fields.
Qed.

End facts.
