(* ===== verification/CodecQuery.v ===== *)
(** * Queries on the wire

    types/filter.rs, filter/tag_filter.rs, query.rs and query/response.rs:
    [TagFilter], [Filter], [QueryMessage] and [QueryResponseMessage]. *)

From Stdlib Require Import ZArith Lia Strings.Byte.
From stdpp Require Import base list gmap strings.
From S2P Require Import Prelude Types Wire CodecIntents CodecEvents.
Local Open Scope serf_scope.

(** The [regex] crate: [Regex::new], whose error is a text, and
    [Regex::as_str], the text it was compiled from. *)
Class Regex (R : Type) : Type := {
  re_new : string → Result R string;
  re_as_str : R → string;
}.

Class RegexLaws (R : Type) `{Regex R} : Prop := {
  re_new_as_str r : re_new (re_as_str r) = Ok r;
}.

(** ** [FilterType] *)

Module FilterType.
Inductive t : Type := Id | Tag | Unknown (v : Z).

Definition of_u8 (v : Z) : t :=
  if (v =? 0)%Z then Id else if (v =? 1)%Z then Tag else Unknown v.
Definition to_u8 (f : t) : Z := match f with Id => 0 | Tag => 1 | Unknown v => v end.
End FilterType.

Definition filter_ty {I R} (f : Filter I R) : FilterType.t :=
  match f with FilterId _ => FilterType.Id | FilterTag _ _ => FilterType.Tag end.

Section filters.
Context `{Wire} {R : Type} `{Regex R}.

(** ** [TagFilter] *)

Record TagFilter : Type := mkTagFilter { tf_tag : string; tf_expr : option R }.
Record TagFilterRef : Type := mkTagFilterRef { tfr_tag : string; tfr_expr : option string }.

Definition tf_TAG_TAG : Z := 1.
Definition tf_EXPR_TAG : Z := 2.
Definition tf_TAG_BYTE : byte := merge WireType.LengthDelimited tf_TAG_TAG.
Definition tf_EXPR_BYTE : byte := merge WireType.LengthDelimited tf_EXPR_TAG.

Record tag_filter_vars : Type := mkTagFilterVars { tfv_tag : option string; tfv_expr : option string }.

Definition tag_filter_step (st : tag_filter_vars) (off : nat) (b : byte) (tl : bytes)
  : Result (nat * tag_filter_vars) DecodeError :=
  if decide (b = tf_TAG_BYTE) then
    try! (k, v) := once (tfv_tag st) tf_TAG_TAG str_decode_ld tl in
    Ok (k, mkTagFilterVars (Some v) (tfv_expr st))
  else if decide (b = tf_EXPR_BYTE) then
    try! (k, v) := once (tfv_expr st) tf_EXPR_TAG str_decode_ld tl in
    Ok (k, mkTagFilterVars (tfv_tag st) (Some v))
  else skipped st b tl.

Definition tag_filter_decode (src : bytes) : Result (nat * TagFilterRef) DecodeError :=
  try! (offset, st) := decode_fields tag_filter_step (mkTagFilterVars None None) src in
  Ok (offset, mkTagFilterRef (default EmptyString (tfv_tag st))
                (e ← tfv_expr st; if str_nonempty e then Some e else None)).

Definition tag_filter_from_ref (r : TagFilterRef) : Result TagFilter DecodeError :=
  try! expr :=
    match tfr_expr r with
    | None => Ok None
    | Some e => match re_new e with Ok x => Ok (Some x) | Err msg => Err (Custom msg) end
    end in
  Ok (mkTagFilter (tfr_tag r) expr).

(** [len as u32] of a length. *)
Definition as_u32 (n : nat) : Z := Z.of_nat n mod u32_modulus.

Definition tag_filter_encoded_len (f : TagFilter) : nat :=
  1 + str_len_ld (tf_tag f)
  + match tf_expr f with
    | Some re =>
        let len := String.length (re_as_str re) in
        1 + sc_len u32_data (as_u32 len) + len
    | None => 0
    end.

(** Writes without a check of its own. *)
Definition poke (bs : bytes) : writer := λ _ w, Ok (w ++ bs).

Definition tag_filter_put_expr (required : nat) (re : R) : writer := λ n w,
  let s := re_as_str re in
  let len := String.length s in
  if (n <? length w + 1 + sc_len u32_data (as_u32 len) + len)%nat
  then Err (insufficient required n)
  else (poke [tf_EXPR_BYTE] ;;
        emit keep (sc_encode u32_data (as_u32 len)) ;;
        poke (String.list_byte_of_string s)) n w.

Definition tag_filter_encode (f : TagFilter) : nat → Result bytes EncodeError :=
  let len := tag_filter_encoded_len f in
  run_writer
    (put len tf_TAG_BYTE ;;
     emit (updated len) (str_encode_ld (tf_tag f)) ;;
     match tf_expr f with Some re => tag_filter_put_expr len re | None => nothing end).

Definition tag_filter_data : Data TagFilter :=
  mkData TagFilterRef WireType.LengthDelimited tag_filter_from_ref
    tag_filter_encoded_len tag_filter_encode tag_filter_decode.

(** ** [Filter] *)

Context {I : Type} (DI : Data I).

Definition FILTER_ID_TAG : Z := 1.
Definition FILTER_TAG_TAG : Z := 2.
Definition filter_id_byte : byte := merge (WIRE_TYPE DI) FILTER_ID_TAG.
Definition filter_tag_byte : byte := merge WireType.LengthDelimited FILTER_TAG_TAG.

Inductive FilterWire : Type :=
| FWId (ids : RepeatedDecoder)
| FWTag (tag : TagFilterRef).

(** [f] only ever holds a tag. *)
Record filter_vars : Type := mkFilterVars {
  fv_offsets : option (nat * nat); fv_num : nat; fv_tag : option TagFilterRef }.

Definition filter_step (st : filter_vars) (off : nat) (b : byte) (tl : bytes)
  : Result (nat * filter_vars) DecodeError :=
  if decide (b = filter_id_byte) then
    try! (k, o) := tracked (fv_offsets st) off b tl in
    Ok (k, mkFilterVars o (S (fv_num st)) (fv_tag st))
  else if decide (b = filter_tag_byte) then
    match fv_tag st with
    | Some _ => Err (DuplicateField FILTER_TAG_TAG)
    | None =>
        match fv_offsets st with
        | Some _ => Err (DuplicateField FILTER_ID_TAG)
        | None =>
            try! (read, tag) := decode_length_delimited tag_filter_data tl in
            Ok (S read, mkFilterVars (fv_offsets st) (fv_num st) (Some tag))
        end
    end
  else skipped st b tl.

Definition filter_decode (buf : bytes) : Result (nat * FilterWire) DecodeError :=
  try! (offset, st) := decode_fields filter_step (mkFilterVars None 0 None) buf in
  Ok (offset,
    match fv_tag st with
    | Some tag => FWTag tag
    | None =>
        match fv_offsets st with
        | Some _ => FWId (repeated_counted FILTER_ID_TAG (WIRE_TYPE DI) buf (fv_offsets st) (fv_num st))
        | None => FWId (with_nums 0 (rd_new FILTER_ID_TAG (WIRE_TYPE DI) buf))
        end
    end).

Definition filter_from_ref (r : FilterWire) : Result (Filter I R) DecodeError :=
  match r with
  | FWId ids =>
      try! l := collect ((λ x, and_then x (from_ref DI)) <$> iter DI ids) in Ok (FilterId l)
  | FWTag t => try! t := tag_filter_from_ref t in Ok (FilterTag (tf_tag t) (tf_expr t))
  end.

Definition filter_encoded_len (f : Filter I R) : nat :=
  match f with
  | FilterId ids => sum_list ((λ id, 1 + encoded_len_with_length_delimited DI id) <$> ids)
  | FilterTag tag expr =>
      1 + encoded_len_with_length_delimited tag_filter_data (mkTagFilter tag expr)
  end.

(** The buffer holds a byte by the time the tag of [Filter::Tag] is written. *)
Definition filter_encode (f : Filter I R) (n : nat) : Result bytes EncodeError :=
  let len := filter_encoded_len f in
  if (n <? 1)%nat then Err (insufficient len n)
  else
    match f with
    | FilterId ids =>
        run_writer (mapping_err (updated len)
          (each (λ id, put len filter_id_byte ;; emit keep (encode_length_delimited DI id)) ids)) n
    | FilterTag tag expr =>
        run_writer
          (poke [filter_tag_byte] ;;
           emit (updated len) (encode_length_delimited tag_filter_data (mkTagFilter tag expr))) n
    end.

Definition filter_data : Data (Filter I R) :=
  mkData FilterWire WireType.LengthDelimited filter_from_ref
    filter_encoded_len filter_encode filter_decode.

(** ** [QueryMessage] *)

Context {A : Type} (DA : Data A).

Definition q_LTIME_TAG : Z := 1.
Definition q_ID_TAG : Z := 2.
Definition q_FROM_TAG : Z := 3.
Definition q_FILTERS_TAG : Z := 4.
Definition q_FLAGS_TAG : Z := 5.
Definition q_RELAY_FACTOR_TAG : Z := 6.
Definition q_TIMEOUT_TAG : Z := 7.
Definition q_NAME_TAG : Z := 8.
Definition q_PAYLOAD_TAG : Z := 9.
Definition q_LTIME_BYTE : byte := merge WireType.Varint q_LTIME_TAG.
Definition q_ID_BYTE : byte := merge WireType.Varint q_ID_TAG.
Definition q_FROM_BYTE : byte := merge WireType.LengthDelimited q_FROM_TAG.
Definition q_FILTERS_BYTE : byte := merge WireType.LengthDelimited q_FILTERS_TAG.
Definition q_FLAGS_BYTE : byte := merge WireType.Varint q_FLAGS_TAG.
Definition q_RELAY_FACTOR_BYTE : byte := merge WireType.Varint q_RELAY_FACTOR_TAG.
Definition q_TIMEOUT_BYTE : byte := merge WireType.Varint q_TIMEOUT_TAG.
Definition q_NAME_BYTE : byte := merge WireType.LengthDelimited q_NAME_TAG.
Definition q_PAYLOAD_BYTE : byte := merge WireType.LengthDelimited q_PAYLOAD_TAG.

(** [QueryFlag::from_bits_truncate] keeps the defined flags,
    [from_bits_retain] all bits. *)
Definition QueryFlag_all : Z := Z.lor FLAG_ACK FLAG_NO_BROADCAST.
Definition from_bits_truncate (v : Z) : Z := Z.land v QueryFlag_all.
Definition from_bits_retain (v : Z) : Z := v.

Record QueryWire : Type := mkQueryWire {
  qw_ltime : Z; qw_id : Z; qw_from : Node (Ref DI) (Ref DA); qw_filters : RepeatedDecoder;
  qw_flags : Z; qw_relay_factor : Z; qw_timeout : Z; qw_name : string; qw_payload : bytes }.

Record query_vars : Type := mkQueryVars {
  qv_ltime : option Z; qv_id : option Z; qv_from : option (Node (Ref DI) (Ref DA));
  qv_offsets : option (nat * nat); qv_num : nat; qv_flags : option Z;
  qv_relay_factor : option Z; qv_timeout : option Z;
  qv_name : option string; qv_payload : option bytes }.

Definition query_step (st : query_vars) (off : nat) (b : byte) (tl : bytes)
  : Result (nat * query_vars) DecodeError :=
  let 'mkQueryVars ltime id from offs num flags relay timeout name payload := st in
  if decide (b = q_LTIME_BYTE) then
    try! (k, v) := once ltime q_LTIME_TAG lamport_decode tl in
    Ok (k, mkQueryVars (Some v) id from offs num flags relay timeout name payload)
  else if decide (b = q_ID_BYTE) then
    try! (k, v) := once id q_ID_TAG (sc_decode u32_data) tl in
    Ok (k, mkQueryVars ltime (Some v) from offs num flags relay timeout name payload)
  else if decide (b = q_FROM_BYTE) then
    try! (k, v) := once from q_FROM_TAG (decode_length_delimited (node_data DI DA)) tl in
    Ok (k, mkQueryVars ltime id (Some v) offs num flags relay timeout name payload)
  else if decide (b = q_FILTERS_BYTE) then
    try! (k, o) := tracked offs off b tl in
    Ok (k, mkQueryVars ltime id from o (S num) flags relay timeout name payload)
  else if decide (b = q_FLAGS_BYTE) then
    try! (k, v) := once flags q_FLAGS_TAG (sc_decode u32_data) tl in
    Ok (k, mkQueryVars ltime id from offs num (Some (from_bits_truncate v)) relay timeout name payload)
  else if decide (b = q_RELAY_FACTOR_BYTE) then
    try! (k, v) := once relay q_RELAY_FACTOR_TAG (sc_decode u8_data) tl in
    Ok (k, mkQueryVars ltime id from offs num flags (Some v) timeout name payload)
  else if decide (b = q_TIMEOUT_BYTE) then
    try! (k, v) := once timeout q_TIMEOUT_TAG (sc_decode duration_data) tl in
    Ok (k, mkQueryVars ltime id from offs num flags relay (Some v) name payload)
  else if decide (b = q_NAME_BYTE) then
    try! (k, v) := once name q_NAME_TAG str_decode_ld tl in
    Ok (k, mkQueryVars ltime id from offs num flags relay timeout (Some v) payload)
  else if decide (b = q_PAYLOAD_BYTE) then
    try! (k, v) := once payload q_PAYLOAD_TAG bytes_decode_ld tl in
    Ok (k, mkQueryVars ltime id from offs num flags relay timeout name (Some v))
  else skipped st b tl.

Definition query_decode (buf : bytes) : Result (nat * QueryWire) DecodeError :=
  try! (offset, st) := decode_fields query_step
    (mkQueryVars None None None None 0 None None None None None) buf in
  try! ltime := required (qv_ltime st) in
  try! id := required (qv_id st) in
  try! from := required (qv_from st) in
  try! flags := required (qv_flags st) in
  try! relay := required (qv_relay_factor st) in
  try! timeout := required (qv_timeout st) in
  Ok (offset, mkQueryWire ltime id from
    (repeated_counted q_FILTERS_TAG WireType.LengthDelimited buf (qv_offsets st) (qv_num st))
    flags relay timeout (default EmptyString (qv_name st)) (default [] (qv_payload st))).

Definition query_from_ref (q : QueryWire) : Result (QueryMessage I A R) DecodeError :=
  try! filters := collect ((λ x, and_then x (from_ref filter_data)) <$> iter filter_data (qw_filters q)) in
  try! from := from_ref (node_data DI DA) (qw_from q) in
  Ok (mkQuery (qw_ltime q) (qw_id q) from filters (qw_flags q) (qw_relay_factor q)
        (qw_timeout q) (qw_name q) (qw_payload q)).

Definition query_encoded_len (q : QueryMessage I A R) : nat :=
  (1 + lamport_encoded_len (q_ltime q)) + (1 + sc_len u32_data (q_id q))
  + (1 + encoded_len_with_length_delimited (node_data DI DA) (q_from q))
  + sum_list ((λ f, 1 + encoded_len_with_length_delimited filter_data f) <$> q_filters q)
  + (1 + sc_len u32_data (q_flags q)) + (1 + sc_len u8_data (q_relay_factor q))
  + (1 + sc_len duration_data (q_timeout q))
  + (if str_nonempty (q_name q) then 1 + str_len_ld (q_name q) else 0)
  + (if bytes_nonempty (q_payload q) then 1 + bytes_len_ld (q_payload q) else 0).

Definition query_encode (q : QueryMessage I A R) : nat → Result bytes EncodeError :=
  let len := query_encoded_len q in
  run_writer
    (put len q_LTIME_BYTE ;; emit (updated len) (lamport_encode (q_ltime q)) ;;
     put len q_ID_BYTE ;; emit (updated len) (sc_encode u32_data (q_id q)) ;;
     put len q_FROM_BYTE ;;
     emit (updated len) (encode_length_delimited (node_data DI DA) (q_from q)) ;;
     each (λ f, put len q_FILTERS_BYTE ;;
                emit (updated len) (encode_length_delimited filter_data f)) (q_filters q) ;;
     put len q_FLAGS_BYTE ;; emit (updated len) (sc_encode u32_data (q_flags q)) ;;
     put len q_RELAY_FACTOR_BYTE ;; put len (byte_of_Z (q_relay_factor q)) ;;
     put len q_TIMEOUT_BYTE ;; emit (updated len) (sc_encode duration_data (q_timeout q)) ;;
     when (str_nonempty (q_name q))
       (put len q_NAME_BYTE ;; emit (updated len) (str_encode_ld (q_name q))) ;;
     when (bytes_nonempty (q_payload q))
       (put len q_PAYLOAD_BYTE ;; emit (updated len) (bytes_encode_ld (q_payload q)))).

Definition query_data : Data (QueryMessage I A R) :=
  mkData QueryWire WireType.LengthDelimited query_from_ref query_encoded_len query_encode query_decode.

(** ** [QueryResponseMessage] *)

Definition qr_LTIME_TAG : Z := 1.
Definition qr_ID_TAG : Z := 2.
Definition qr_FROM_TAG : Z := 3.
Definition qr_FLAGS_TAG : Z := 4.
Definition qr_PAYLOAD_TAG : Z := 5.
Definition qr_LTIME_BYTE : byte := merge WireType.Varint qr_LTIME_TAG.
Definition qr_ID_BYTE : byte := merge WireType.Varint qr_ID_TAG.
Definition qr_FROM_BYTE : byte := merge WireType.LengthDelimited qr_FROM_TAG.
Definition qr_FLAGS_BYTE : byte := merge WireType.Varint qr_FLAGS_TAG.
Definition qr_PAYLOAD_BYTE : byte := merge WireType.LengthDelimited qr_PAYLOAD_TAG.

Record QueryResponseWire : Type := mkResponseWire {
  rw_ltime : Z; rw_id : Z; rw_from : Node (Ref DI) (Ref DA); rw_flags : Z; rw_payload : bytes }.

Record response_vars : Type := mkResponseVars {
  rv_ltime : option Z; rv_id : option Z; rv_from : option (Node (Ref DI) (Ref DA));
  rv_flags : option Z; rv_payload : option bytes }.

Definition response_step (st : response_vars) (off : nat) (b : byte) (tl : bytes)
  : Result (nat * response_vars) DecodeError :=
  let 'mkResponseVars ltime id from flags payload := st in
  if decide (b = qr_LTIME_BYTE) then
    try! (k, v) := once ltime qr_LTIME_TAG lamport_decode tl in
    Ok (k, mkResponseVars (Some v) id from flags payload)
  else if decide (b = qr_ID_BYTE) then
    try! (k, v) := once id qr_ID_TAG (sc_decode u32_data) tl in
    Ok (k, mkResponseVars ltime (Some v) from flags payload)
  else if decide (b = qr_FROM_BYTE) then
    try! (k, v) := once from qr_FROM_TAG (decode_length_delimited (node_data DI DA)) tl in
    Ok (k, mkResponseVars ltime id (Some v) flags payload)
  else if decide (b = qr_FLAGS_BYTE) then
    try! (k, v) := once flags qr_FLAGS_TAG (sc_decode u32_data) tl in
    Ok (k, mkResponseVars ltime id from (Some (from_bits_retain v)) payload)
  else if decide (b = qr_PAYLOAD_BYTE) then
    try! (k, v) := once payload qr_PAYLOAD_TAG bytes_decode_ld tl in
    Ok (k, mkResponseVars ltime id from flags (Some v))
  else skipped st b tl.

Definition response_decode (buf : bytes) : Result (nat * QueryResponseWire) DecodeError :=
  try! (offset, st) := decode_fields response_step (mkResponseVars None None None None None) buf in
  try! ltime := required (rv_ltime st) in
  try! id := required (rv_id st) in
  try! from := required (rv_from st) in
  try! flags := required (rv_flags st) in
  Ok (offset, mkResponseWire ltime id from flags (default [] (rv_payload st))).

Definition response_from_ref (r : QueryResponseWire) : Result (QueryResponseMessage I A) DecodeError :=
  try! from := from_ref (node_data DI DA) (rw_from r) in
  Ok (mkQueryResponse (rw_ltime r) (rw_id r) from (rw_flags r) (rw_payload r)).

Definition response_encoded_len (r : QueryResponseMessage I A) : nat :=
  (1 + lamport_encoded_len (r_ltime r)) + (1 + sc_len u32_data (r_id r))
  + (1 + encoded_len_with_length_delimited (node_data DI DA) (r_from r))
  + (1 + sc_len u32_data (r_flags r))
  + (if bytes_nonempty (r_payload r) then 1 + bytes_len_ld (r_payload r) else 0).

Definition response_encode (r : QueryResponseMessage I A) : nat → Result bytes EncodeError :=
  let len := response_encoded_len r in
  run_writer
    (put len qr_LTIME_BYTE ;; emit (updated len) (lamport_encode (r_ltime r)) ;;
     put len qr_ID_BYTE ;; emit (updated len) (sc_encode u32_data (r_id r)) ;;
     put len qr_FROM_BYTE ;;
     emit (updated len) (encode_length_delimited (node_data DI DA) (r_from r)) ;;
     put len qr_FLAGS_BYTE ;; emit (updated len) (sc_encode u32_data (r_flags r)) ;;
     when (bytes_nonempty (r_payload r))
       (put len qr_PAYLOAD_BYTE ;; emit (updated len) (bytes_encode_ld (r_payload r)))).

Definition response_data : Data (QueryResponseMessage I A) :=
  mkData QueryResponseWire WireType.LengthDelimited response_from_ref
    response_encoded_len response_encode response_decode.

End filters.

#[export] Hint Unfold tf_TAG_TAG tf_EXPR_TAG tf_TAG_BYTE tf_EXPR_BYTE
  FILTER_ID_TAG FILTER_TAG_TAG filter_id_byte filter_tag_byte
  q_LTIME_TAG q_ID_TAG q_FROM_TAG q_FILTERS_TAG q_FLAGS_TAG q_RELAY_FACTOR_TAG q_TIMEOUT_TAG
  q_NAME_TAG q_PAYLOAD_TAG q_LTIME_BYTE q_ID_BYTE q_FROM_BYTE q_FILTERS_BYTE q_FLAGS_BYTE
  q_RELAY_FACTOR_BYTE q_TIMEOUT_BYTE q_NAME_BYTE q_PAYLOAD_BYTE
  qr_LTIME_TAG qr_ID_TAG qr_FROM_TAG qr_FLAGS_TAG qr_PAYLOAD_TAG
  qr_LTIME_BYTE qr_ID_BYTE qr_FROM_BYTE qr_FLAGS_BYTE qr_PAYLOAD_BYTE : tags.
#[export] Hint Unfold tag_filter_step filter_step query_step response_step : steps.
Arguments TagFilter R : clear implicits.

#[local] Arguments once : simpl never.

Section facts.
Context `{WireLaws} {R : Type} `{RegexLaws R}.

Lemma tag_filter_progresses : progresses tag_filter_step.
Proof. intros st off b tl k st' Hs. unfold tag_filter_step in Hs. step_progress. Qed.

(** The text of a regular expression is written by hand; it is what a
    string's own encoding would be. *)
Lemma put_expr_writes required (re : R) :
  let s := re_as_str re in
  fits_u32 (String.length s) →
  ∃ bs, value (sc_len u32_data (as_u32 (String.length s)) + String.length s)
          (str_encode_ld s) str_decode_ld bs s ∧
    writes (tag_filter_put_expr required re) ([tf_EXPR_BYTE] ++ bs) ∧
    bounded (tag_filter_put_expr required re) ([tf_EXPR_BYTE] ++ bs).
Proof.
  intros s Hs. destruct (str_ld_prefix s Hs) as (pre & Hpre & Hld).
  assert (as_u32 (String.length s) = Z.of_nat (String.length s)) as Hz.
  { apply Z.mod_small. unfold fits_u32 in Hs. lia. }
  pose proof (codes_len _ _ _ _ Hpre) as Hlen. simpl in Hlen. rewrite <- Hz in Hlen.
  assert (Hv := entry_value _ _ _ _ _ _ Hld).
  exists (pre ++ String.list_byte_of_string s). split; [|split].
  - destruct Hv as [_ He Hr Hd]. split; [|done..].
    rewrite length_app, length_list_byte. lia.
  - intros n w Hn. unfold tag_filter_put_expr. fold s. cbn [app] in *. simpl in Hn.
    rewrite length_app, length_list_byte in Hn.
    rewrite (proj2 (Nat.ltb_ge _ _)) by lia. unfold andthen, poke, emit.
    rewrite Hz. rewrite (codes_encode _ _ _ _ Hpre : ∀ n, _ → sc_encode u32_data _ n = _).
    + by rewrite <- !app_assoc.
    + rewrite length_app. simpl. lia.
  - intros n w Hw Hn. unfold tag_filter_put_expr. fold s. simpl in Hn.
    rewrite length_app, length_list_byte in Hn.
    rewrite (proj2 (Nat.ltb_lt _ _)) by lia. eauto.
Qed.

(** A tag filter with the empty expression comes back without it. *)
Definition tag_filter_fits (f : TagFilter R) : Prop :=
  fits_u32 (String.length (tf_tag f)) ∧
  match tf_expr f with
  | Some re => re_as_str re ≠ EmptyString ∧ fits_u32 (String.length (re_as_str re))
  | None => True
  end.

Lemma tag_filter_codes f : tag_filter_fits f → ∃ bs r, codes tag_filter_data f bs r.
Proof.
  destruct f as [tag [re|]]; intros [Ht He]; simpl in *; destruct (str_value _ Ht) as [bt Hbt].
  - destruct He as [Hne He].
    destruct (put_expr_writes (tag_filter_encoded_len (mkTagFilter tag (Some re))) re He)
      as (be & Hbe & Hwe & Hbd).
    set (bs := [tf_TAG_BYTE] ++ bt ++ [tf_EXPR_BYTE] ++ be).
    exists bs, (mkTagFilterRef tag (Some (re_as_str re))).
    eapply message_codes; [done|reflexivity| |solve_writes|solve_bounded| |]; simpl.
    + unfold tag_filter_encoded_len. simpl.
      rewrite <- (value_len _ _ _ _ _ Hbt), <- (value_len _ _ _ _ _ Hbe). lengths.
    + unfold tag_filter_from_ref. simpl. by rewrite re_new_as_str.
    + unfold tag_filter_decode. rewrite (decode_fields_eq _ tag_filter_progresses _ _
        (Ok (length bs, mkTagFilterVars (Some tag) (Some (re_as_str re))))).
      * simpl. by destruct (re_as_str re).
      * unfold bs. read_fields.
  - set (bs := [tf_TAG_BYTE] ++ bt ++ []). exists bs, (mkTagFilterRef tag None).
    eapply message_codes; [done|reflexivity| |solve_writes|solve_bounded|done|]; simpl.
    + unfold tag_filter_encoded_len. simpl. rewrite <- (value_len _ _ _ _ _ Hbt). lengths.
    + unfold tag_filter_decode. rewrite (decode_fields_eq _ tag_filter_progresses _ _
        (Ok (length bs, mkTagFilterVars (Some tag) None))); [done|].
      unfold bs. rewrite app_nil_r. read_fields.
Qed.

Context {I A : Type} (DI : Data I) (DA : Data A).

Lemma filter_progresses : progresses (filter_step (R := R) DI).
Proof. intros st off b tl k st' Hs. unfold filter_step in Hs. step_progress. lia. Qed.

Lemma query_progresses : progresses (query_step DI DA).
Proof. intros st off b tl k st' Hs. unfold query_step in Hs. destruct st. step_progress. Qed.

Lemma response_progresses : progresses (response_step DI DA).
Proof. intros st off b tl k st' Hs. unfold response_step in Hs. destruct st. step_progress. Qed.

(** [Filter::Id] must name a node: the empty list has length 0, which
    [filter_encode] refuses. *)
Definition filter_fits (f : Filter I R) : Prop :=
  match f with
  | FilterId ids => ids ≠ [] ∧ Forall (λ id, ∃ bs r, codes_ld DI id bs r) ids
  | FilterTag tag expr =>
      tag_filter_fits (mkTagFilter tag expr) ∧
      fits_u32 (tag_filter_encoded_len (mkTagFilter tag expr))
  end.

Lemma filter_id_codes ids :
  filter_fits (FilterId ids) → ∃ bs r, codes (filter_data DI) (FilterId ids) bs r.
Proof.
  intros [Hne Hids]. destruct (entries_exist DI _ _ ids Hids) as (bodies & refs & Hes).
  set (b := filter_id_byte DI). set (bs := fields b bodies).
  assert (1 ≤ length bs) as Hpos.
  { destruct Hes; [done|]. unfold bs. change (fields b (?x :: ?l)) with ((b :: x) ++ fields b l).
    simpl. lia. }
  assert (bodies ≠ []) as Hbne by (by intros ->; inversion Hes; subst).
  exists bs, (FWId (repeated_counted FILTER_ID_TAG (WIRE_TYPE DI)
    ([] ++ fields b bodies ++ []) (run_offsets (length (@nil byte)) b bodies) (length bodies))).
  split; cbn [encoded_len encode from_ref decode filter_data].
  - apply (entries_length _ _ _ _ _ _ b Hes).
  - intros n Hn. unfold filter_encode. rewrite (proj2 (Nat.ltb_ge _ _)) by lia.
    apply run_writes; [|done]. solve_writes.
  - intros n Hn. unfold filter_encode. destruct (n <? 1)%nat; [eauto|].
    eapply run_bounded; [|exact Hn]. solve_bounded.
  - cbn [filter_from_ref]. rewrite (counted_iter DI _ _ _ [] bodies [] refs)
      by (done || by eapply entries_bodies). by rewrite (entries_collect _ _ _ _ _ _ Hes).
  - intros rest Hrest. rewrite (Hrest eq_refl). unfold filter_decode.
    rewrite (decode_fields_eq _ filter_progresses _ _
      (Ok (length bs, mkFilterVars (run_offsets 0 b bodies) (length bodies) None))).
    + simpl. by destruct bodies.
    + unfold bs. read_entries (λ o k, mkFilterVars o k None) Hes. end_fields.
Qed.

Lemma filter_tag_codes tag expr :
  filter_fits (FilterTag tag expr) → ∃ bs r, codes (filter_data DI) (FilterTag tag expr) bs r.
Proof.
  intros [Hf Hlen].
  destruct (delimited_ld tag_filter_data (mkTagFilter tag expr) eq_refl (tag_filter_codes _ Hf) Hlen)
    as (bt & rt & Ht). pose proof (entry_value _ _ _ _ _ _ Ht) as Hv.
  set (bs := [filter_tag_byte] ++ bt). exists bs, (FWTag rt).
  split; cbn [encoded_len encode from_ref decode filter_data].
  - simpl. by rewrite (entry_len Ht).
  - intros n Hn. simpl in Hn. unfold filter_encode. rewrite (proj2 (Nat.ltb_ge _ _)) by lia.
    unfold run_writer, andthen, poke, emit. rewrite (entry_encode Ht) by (simpl; lia). done.
  - intros n Hn. simpl in Hn. unfold filter_encode. destruct (Nat.ltb_spec n 1); [eauto|].
    unfold run_writer, andthen, poke, emit.
    destruct (entry_refuses Ht (n - length ([] ++ [filter_tag_byte]))) as [e ->]; [simpl; lia|eauto].
  - cbn [filter_from_ref]. pose proof (entry_from_ref Ht) as Hr. cbn in Hr. by rewrite Hr.
  - intros rest Hrest. rewrite (Hrest eq_refl). unfold filter_decode.
    rewrite (decode_fields_eq _ filter_progresses _ _
      (Ok (length bs, mkFilterVars None 0 (Some rt)))); [done|]. unfold bs. read_fields.
Qed.

Lemma filter_codes f : filter_fits f → ∃ bs r, codes (filter_data DI) f bs r.
Proof. destruct f; [apply filter_id_codes|apply filter_tag_codes]. Qed.

Lemma filter_ld f :
  filter_fits f → fits_u32 (filter_encoded_len DI f) → ∃ bs r, codes_ld (filter_data DI) f bs r.
Proof. intros Hf Hl. apply delimited_ld; [done|by apply filter_codes|done]. Qed.

(** What a query must satisfy to survive its encoding: machine ranges,
    flags the protocol defines, and parts that encode themselves. *)
Record query_fits (q : QueryMessage I A R) : Prop := {
  qf_ltime : is_u64 (q_ltime q);
  qf_id : (0 <= q_id q < u32_modulus)%Z;
  qf_from : ∃ bs r, codes_ld (node_data DI DA) (q_from q) bs r;
  qf_filters : Forall (λ f, filter_fits f ∧ fits_u32 (filter_encoded_len DI f)) (q_filters q);
  qf_flags : from_bits_truncate (q_flags q) = q_flags q;
  qf_relay : (0 <= q_relay_factor q < 256)%Z;
  qf_timeout : is_u64 (q_timeout q);
  qf_name : fits_u32 (String.length (q_name q));
  qf_payload : fits_u32 (length (q_payload q));
}.

Lemma truncated_u32 v : from_bits_truncate v = v → (0 <= v < u32_modulus)%Z.
Proof.
  intros Hv. unfold from_bits_truncate in Hv.
  assert (Z.land v QueryFlag_all = v mod 4)%Z as Hm by (apply (Z.land_ones v 2); lia).
  rewrite Hm in Hv. pose proof (Z.mod_pos_bound v 4 ltac:(lia)). unfold u32_modulus. lia.
Qed.

(** A query, and the bytes of its parts. *)
Section query_parts.
Context (lt id : Z) (from : Node I A) (fs : list (Filter I R)) (fl rf tmo : Z)
  (name : string) (payload : bytes).
Context (bl bi bf bg br bt bn bp : bytes) (rfrom : Node (Ref DI) (Ref DA))
  (bodies : list bytes) (refs : list (Ref (filter_data DI))).
Context (Hbl : value (lamport_encoded_len lt) (lamport_encode lt) lamport_decode bl lt)
  (Hbi : value (sc_len u32_data id) (sc_encode u32_data id) (sc_decode u32_data) bi id)
  (Hf : codes_ld (node_data DI DA) from bf rfrom)
  (Hes : Forall3 (codes_ld (filter_data DI)) fs bodies refs)
  (Hbg : value (sc_len u32_data fl) (sc_encode u32_data fl) (sc_decode u32_data) bg fl)
  (Hfl : from_bits_truncate fl = fl)
  (Hbr1 : br = [byte_of_Z rf])
  (Hbr : value (sc_len u8_data rf) (sc_encode u8_data rf) (sc_decode u8_data) br rf)
  (Hbt : value (sc_len duration_data tmo) (sc_encode duration_data tmo) (sc_decode duration_data) bt tmo)
  (Hbn : value (str_len_ld name) (str_encode_ld name) str_decode_ld bn name)
  (Hbp : value (bytes_len_ld payload) (bytes_encode_ld payload) bytes_decode_ld bp payload).

Let q := mkQuery lt id from fs fl rf tmo name payload.
Let pre := [q_LTIME_BYTE] ++ bl ++ [q_ID_BYTE] ++ bi ++ [q_FROM_BYTE] ++ bf.
Let post := [q_FLAGS_BYTE] ++ bg ++ [q_RELAY_FACTOR_BYTE] ++ br
  ++ [q_TIMEOUT_BYTE] ++ bt ++ (if str_nonempty name then [q_NAME_BYTE] ++ bn else [])
  ++ (if bytes_nonempty payload then [q_PAYLOAD_BYTE] ++ bp else []).
Let bs := [q_LTIME_BYTE] ++ bl ++ [q_ID_BYTE] ++ bi ++ [q_FROM_BYTE] ++ bf
  ++ fields q_FILTERS_BYTE bodies ++ post.

Let split_bs : bs ++ [] = pre ++ fields q_FILTERS_BYTE bodies ++ post ++ [].
Proof. unfold bs, pre. by rewrite <- !app_assoc. Qed.

Let len_bs : length bs = query_encoded_len DI DA q.
Proof.
  unfold query_encoded_len, q.
  cbn [q_ltime q_id q_from q_filters q_flags q_relay_factor q_timeout q_name q_payload].
  rewrite <- (entries_length _ _ _ _ _ _ q_FILTERS_BYTE Hes), <- (entry_len Hf).
  rewrite <- (value_len _ _ _ _ _ Hbl), <- (value_len _ _ _ _ _ Hbi), <- (value_len _ _ _ _ _ Hbg),
    <- (value_len _ _ _ _ _ Hbt), <- (value_len _ _ _ _ _ Hbn), <- (value_len _ _ _ _ _ Hbp),
    <- (value_len _ _ _ _ _ Hbr).
  unfold bs, post. destruct (str_nonempty name), (bytes_nonempty payload); lengths.
Qed.

Let loop_bs :
  loop_runs (query_step DI DA) 0 (mkQueryVars DI DA None None None None 0 None None None None None)
    (bs ++ [])
    (Ok (length bs, mkQueryVars DI DA (Some lt) (Some id) (Some rfrom)
      (run_offsets (length pre) q_FILTERS_BYTE bodies) (length bodies) (Some fl) (Some rf) (Some tmo)
      (if str_nonempty name then Some name else None)
      (if bytes_nonempty payload then Some payload else None))).
Proof.
  pose proof (entry_value _ _ _ _ _ _ Hf) as Hbf.
  rewrite split_bs. unfold pre. rewrite <- !app_assoc. cbn [app]. do 3 read_field.
  at_offset (length pre).
  read_entries (λ o k, mkQueryVars DI DA (Some lt) (Some id) (Some rfrom) o k None None None None None) Hes.
  unfold bs, post. destruct (str_nonempty name), (bytes_nonempty payload);
    repeat (progress (cbn [app]; rewrite <- ?app_assoc)); repeat read_field;
    (apply loop_finish; [simpl; lengths|by rewrite Hfl]).
Qed.

Lemma query_parts_codes : ∃ r, codes (query_data DI DA) q bs r.
Proof.
  exists (mkQueryWire DI DA lt id rfrom (repeated_counted q_FILTERS_TAG WireType.LengthDelimited
     (pre ++ fields q_FILTERS_BYTE bodies ++ post ++ []) (run_offsets (length pre) q_FILTERS_BYTE bodies)
     (length bodies)) fl rf tmo name payload).
  pose proof (entry_value _ _ _ _ _ _ Hf) as Hbf.
  eapply message_codes; [done|reflexivity|exact len_bs|unfold bs, post; rewrite Hbr1; solve_writes
    |unfold bs, post; rewrite Hbr1; solve_bounded| |]; cbn [from_ref decode query_data].
  - unfold query_from_ref. cbn [qw_filters qw_from].
    rewrite (counted_iter (filter_data DI) _ _ _ pre bodies (post ++ []) refs)
      by (done || by eapply entries_bodies).
    by rewrite (entries_collect _ _ _ _ _ _ Hes), (entry_from_ref Hf).
  - unfold query_decode. rewrite (decode_fields_eq _ query_progresses _ _ _ loop_bs), split_bs. simpl.
    destruct (str_nonempty name) eqn:E, (bytes_nonempty payload) eqn:E'; simpl;
      by rewrite ?(str_empty _ E), ?(bytes_empty _ E').
Qed.

End query_parts.

Lemma query_codes q : query_fits q → ∃ bs r, codes (query_data DI DA) q bs r.
Proof.
  destruct q as [lt id from fs fl rf tmo name payload].
  intros [Hlt Hid (bf & rfrom & Hf) Hfs Hfl Hrf Hto Hn Hp]; simpl in *.
  destruct (lamport_value _ Hlt) as [bl Hbl], (u32_value _ Hid) as [bi Hbi],
    (u32_value _ (truncated_u32 _ Hfl)) as [bg Hbg], (duration_value _ Hto) as [bt Hbt],
    (str_value _ Hn) as [bn Hbn], (bytes_value _ Hp) as [bp Hbp].
  destruct (entries_exist (filter_data DI) _ _ fs
    (Forall_impl _ _ _ Hfs (λ f Hf, filter_ld f (proj1 Hf) (proj2 Hf)))) as (bodies & refs & Hes).
  eexists. by eapply query_parts_codes; [..|apply u8_value|exact Hbt|exact Hbn|exact Hbp].
Qed.

Lemma response_codes r bf rf :
  is_u64 (r_ltime r) → (0 <= r_id r < u32_modulus)%Z → (0 <= r_flags r < u32_modulus)%Z →
  fits_u32 (length (r_payload r)) → codes_ld (node_data DI DA) (r_from r) bf rf →
  ∃ bs, codes (response_data DI DA) r bs
    (mkResponseWire DI DA (r_ltime r) (r_id r) rf (r_flags r) (r_payload r)).
Proof.
  destruct r as [lt id from fl payload]. simpl. intros Hlt Hid Hfl Hp Hf.
  destruct (lamport_value _ Hlt) as [bl Hbl], (u32_value _ Hid) as [bi Hbi],
    (u32_value _ Hfl) as [bg Hbg], (bytes_value _ Hp) as [bp Hbp].
  pose proof (entry_value _ _ _ _ _ _ Hf) as Hbf.
  set (bs := [qr_LTIME_BYTE] ++ bl ++ [qr_ID_BYTE] ++ bi ++ [qr_FROM_BYTE] ++ bf
     ++ [qr_FLAGS_BYTE] ++ bg ++ (if bytes_nonempty payload then [qr_PAYLOAD_BYTE] ++ bp else [])).
  exists bs. eapply message_codes; [done|reflexivity| |solve_writes|solve_bounded| |];
    cbn [from_ref encoded_len decode response_data].
  - unfold response_encoded_len. cbn [r_ltime r_id r_from r_flags r_payload].
    rewrite <- (value_len _ _ _ _ _ Hbl), <- (value_len _ _ _ _ _ Hbi),
      <- (value_len _ _ _ _ _ Hbg), <- (value_len _ _ _ _ _ Hbp), <- (entry_len Hf).
    unfold bs. destruct (bytes_nonempty payload); lengths.
  - unfold response_from_ref. cbn [rw_from]. by rewrite (entry_from_ref Hf).
  - unfold response_decode. rewrite (decode_fields_eq _ response_progresses _ _
      (Ok (length bs, mkResponseVars DI DA (Some lt) (Some id) (Some rf) (Some fl)
            (if bytes_nonempty payload then Some payload else None)))).
    + simpl. destruct (bytes_nonempty payload) eqn:E'; [done|]. by rewrite (bytes_empty _ E').
    + unfold bs. destruct (bytes_nonempty payload); read_fields.
Qed.

End facts.
