(* ===== verification/CodecMember.v ===== *)
(** * Members on the wire

    types/tags.rs, the codec of types/member.rs, and types/conflict.rs:
    [Tags], [Member] and [ConflictResponseMessage]. *)

From Stdlib Require Import ZArith Lia Strings.Byte.
From stdpp Require Import base list gmap strings.
From S2P Require Import Prelude Types Wire CodecIntents CodecEvents.
Local Open Scope serf_scope.

Section members.
Context `{Wire}.

(** ** [Tags] *)

Definition TAGS_TAG : Z := 1.
Definition TAGS_BYTE : byte := merge WireType.LengthDelimited TAGS_TAG.

Definition tag_pair_data : Data (string * string) := pair_data (scalar str_data) (scalar str_data).
Definition tag_pair_len_ld (p : string * string) : nat :=
  tuple_encoded_len_with_length_delimited (scalar str_data) (scalar str_data) p.
Definition tag_pair_encode_ld (p : string * string) : nat → Result bytes EncodeError :=
  tuple_encode_with_length_delimited (scalar str_data) (scalar str_data) p.

Record tags_vars : Type := mkTagsVars { tv_offsets : option (nat * nat); tv_num : nat }.

Definition tags_step (st : tags_vars) (off : nat) (b : byte) (tl : bytes)
  : Result (nat * tags_vars) DecodeError :=
  if decide (b = TAGS_BYTE) then
    try! (k, o) := tracked (tv_offsets st) off b tl in
    Ok (k, mkTagsVars o (S (tv_num st)))
  else skipped st b tl.

Definition tags_decode (src : bytes) : Result (nat * RepeatedDecoder) DecodeError :=
  try! (offset, st) := decode_fields tags_step (mkTagsVars None 0) src in
  Ok (offset, repeated_counted TAGS_TAG WireType.LengthDelimited src (tv_offsets st) (tv_num st)).

Definition tags_from_ref (r : RepeatedDecoder) : Result Tags DecodeError :=
  try! l := collect ((λ x, and_then x (from_ref tag_pair_data)) <$> iter tag_pair_data r) in
  Ok (index_map_of l).

Definition tags_encoded_len_ (t : Tags) : nat := sum_list ((λ p, 1 + tag_pair_len_ld p) <$> t).

(** The bounds check inside the fold reports its own numbers; they are
    replaced outside. *)
Definition tags_put (b : byte) : writer := λ n w,
  if (n <=? length w)%nat then Err (InsufficientBuffer 1 0) else Ok (w ++ [b]).

Definition tags_encode (t : Tags) : nat → Result bytes EncodeError :=
  run_writer (mapping_err (updated (tags_encoded_len_ t))
    (each (λ p, tags_put TAGS_BYTE ;; emit keep (tag_pair_encode_ld p)) t)).

Definition tags_data : Data Tags :=
  mkData RepeatedDecoder WireType.LengthDelimited tags_from_ref
    tags_encoded_len_ tags_encode tags_decode.

(** ** [Member] *)

Context {I A : Type} (DI : Data I) (DA : Data A).

Definition m_NODE_TAG : Z := 1.
Definition m_TAGS_TAG : Z := 2.
Definition m_STATUS_TAG : Z := 3.
Definition m_MEMBERLIST_PROTOCOL_VERSION_TAG : Z := 4.
Definition m_MEMBERLIST_DELEGATE_VERSION_TAG : Z := 5.
Definition m_PROTOCOL_VERSION_TAG : Z := 6.
Definition m_DELEGATE_VERSION_TAG : Z := 7.
Definition m_NODE_BYTE : byte := merge WireType.LengthDelimited m_NODE_TAG.
Definition m_TAGS_BYTE : byte := merge WireType.LengthDelimited m_TAGS_TAG.
Definition m_STATUS_BYTE : byte := merge WireType.Byte m_STATUS_TAG.
Definition m_MEMBERLIST_PROTOCOL_VERSION_BYTE : byte :=
  merge WireType.Byte m_MEMBERLIST_PROTOCOL_VERSION_TAG.
Definition m_MEMBERLIST_DELEGATE_VERSION_BYTE : byte :=
  merge WireType.Byte m_MEMBERLIST_DELEGATE_VERSION_TAG.
Definition m_PROTOCOL_VERSION_BYTE : byte := merge WireType.Byte m_PROTOCOL_VERSION_TAG.
Definition m_DELEGATE_VERSION_BYTE : byte := merge WireType.Byte m_DELEGATE_VERSION_TAG.

Record MemberRef : Type := mkMemberRef {
  mr_node : Node (Ref DI) (Ref DA); mr_tags : RepeatedDecoder; mr_status : MemberStatus.t;
  mr_mpv : ProtocolVersion; mr_mdv : DelegateVersion;
  mr_pv : ProtocolVersion; mr_dv : DelegateVersion }.

Record member_vars : Type := mkMemberVars {
  mv_node : option (Node (Ref DI) (Ref DA)); mv_tags : option RepeatedDecoder;
  mv_status : option MemberStatus.t;
  mv_mpv : option ProtocolVersion; mv_mdv : option DelegateVersion;
  mv_pv : option ProtocolVersion; mv_dv : option DelegateVersion }.

(** [offset += 1; slot = Some(buf[offset].into()); offset += 1]: the index is
    not checked. *)
Definition once_raw {V} (slot : option V) (tag : Z) (of_u8 : Z → V) (tl : bytes)
  : Result (nat * V) (Fault DecodeError) :=
  match slot with
  | Some _ => Err (Failed (DuplicateField tag))
  | None => match tl with [] => Err Panicked | x :: _ => Ok (2, of_u8 (Z_of_byte x)) end
  end.

Definition member_step (st : member_vars) (off : nat) (b : byte) (tl : bytes)
  : Result (nat * member_vars) (Fault DecodeError) :=
  let 'mkMemberVars nd tg stt mpv mdv pv dv := st in
  if decide (b = m_NODE_BYTE) then
    try! (k, v) := lift (once nd m_NODE_TAG (decode_length_delimited (node_data DI DA)) tl) in
    Ok (k, mkMemberVars (Some v) tg stt mpv mdv pv dv)
  else if decide (b = m_TAGS_BYTE) then
    try! (k, v) := lift (once tg m_TAGS_TAG (decode_length_delimited tags_data) tl) in
    Ok (k, mkMemberVars nd (Some v) stt mpv mdv pv dv)
  else if decide (b = m_STATUS_BYTE) then
    try! (k, v) := once_raw stt m_STATUS_TAG MemberStatus.of_u8 tl in
    Ok (k, mkMemberVars nd tg (Some v) mpv mdv pv dv)
  else if decide (b = m_MEMBERLIST_PROTOCOL_VERSION_BYTE) then
    try! (k, v) := once_raw mpv m_MEMBERLIST_PROTOCOL_VERSION_TAG protocol_version_of_u8 tl in
    Ok (k, mkMemberVars nd tg stt (Some v) mdv pv dv)
  else if decide (b = m_MEMBERLIST_DELEGATE_VERSION_BYTE) then
    try! (k, v) := once_raw mdv m_MEMBERLIST_DELEGATE_VERSION_TAG delegate_version_of_u8 tl in
    Ok (k, mkMemberVars nd tg stt mpv (Some v) pv dv)
  else if decide (b = m_PROTOCOL_VERSION_BYTE) then
    try! (k, v) := once_raw pv m_PROTOCOL_VERSION_TAG protocol_version_of_u8 tl in
    Ok (k, mkMemberVars nd tg stt mpv mdv (Some v) dv)
  else if decide (b = m_DELEGATE_VERSION_BYTE) then
    try! (k, v) := once_raw dv m_DELEGATE_VERSION_TAG delegate_version_of_u8 tl in
    Ok (k, mkMemberVars nd tg stt mpv mdv pv (Some v))
  else lift (skipped st b tl).

Definition member_decode (buf : bytes) : Result (nat * MemberRef) (Fault DecodeError) :=
  try! (offset, st) := decode_fields_panicking member_step
    (mkMemberVars None None None None None None None) buf in
  try! nd := lift (required (mv_node st)) in
  try! tg := lift (required (mv_tags st)) in
  try! stt := lift (required (mv_status st)) in
  try! mpv := lift (required (mv_mpv st)) in
  try! mdv := lift (required (mv_mdv st)) in
  try! pv := lift (required (mv_pv st)) in
  try! dv := lift (required (mv_dv st)) in
  Ok (offset, mkMemberRef nd tg stt mpv mdv pv dv).

Definition member_from_ref (r : MemberRef) : Result (Member I A) DecodeError :=
  try! nd := from_ref (node_data DI DA) (mr_node r) in
  try! tg := tags_from_ref (mr_tags r) in
  Ok (mkMember nd tg (mr_status r) (mr_mpv r) (mr_mdv r) (mr_pv r) (mr_dv r)).

Definition member_encoded_len (m : Member I A) : nat :=
  (1 + encoded_len_with_length_delimited (node_data DI DA) (node m))
  + (1 + encoded_len_with_length_delimited tags_data (tags m))
  + (1 + 1) + (1 + 1) + (1 + 1) + (1 + 1) + (1 + 1).

(** All but the last byte, which is written without [bail!]. *)
Definition member_writer (m : Member I A) : writer :=
  let len := member_encoded_len m in
  put len m_NODE_BYTE ;; emit keep (encode_length_delimited (node_data DI DA) (node m)) ;;
  put len m_TAGS_BYTE ;; emit keep (encode_length_delimited tags_data (tags m)) ;;
  put len m_STATUS_BYTE ;; put len (byte_of_Z (MemberStatus.to_u8 (status m))) ;;
  put len m_MEMBERLIST_PROTOCOL_VERSION_BYTE ;;
  put len (byte_of_Z (u8_of_protocol_version (memberlist_protocol_version m))) ;;
  put len m_MEMBERLIST_DELEGATE_VERSION_BYTE ;;
  put len (byte_of_Z (u8_of_delegate_version (memberlist_delegate_version m))) ;;
  put len m_PROTOCOL_VERSION_BYTE ;;
  put len (byte_of_Z (u8_of_protocol_version (protocol_version m))) ;;
  put len m_DELEGATE_VERSION_BYTE.

Definition member_encode (m : Member I A) (n : nat) : Result bytes (Fault EncodeError) :=
  try! w := lift (run_writer (member_writer m) n) in
  if (n <=? length w)%nat then Err Panicked
  else Ok (w ++ [byte_of_Z (u8_of_delegate_version (delegate_version m))]).

(** ** [ConflictResponseMessage] is a member *)

Definition cr_MEMBER_TAG : Z := 1.
Definition cr_MEMBER_BYTE : byte := merge WireType.LengthDelimited cr_MEMBER_TAG.

Definition conflict_encoded_len (m : Member I A) : nat :=
  1 + encoded_len_with_length_delimited_panicking member_encoded_len m.

Definition conflict_encode (m : Member I A) (n : nat) : Result bytes (Fault EncodeError) :=
  let len := conflict_encoded_len m in
  try! w := lift (put len cr_MEMBER_BYTE n []) in
  match encode_length_delimited_panicking member_encoded_len member_encode m (n - length w) with
  | Ok bs => Ok (w ++ bs)
  | Err (Failed e) => Err (Failed (updated len e n))
  | Err Panicked => Err Panicked
  end.

Definition conflict_step (st : option MemberRef) (off : nat) (b : byte) (tl : bytes)
  : Result (nat * option MemberRef) (Fault DecodeError) :=
  if decide (b = cr_MEMBER_BYTE) then
    match st with
    | Some _ => Err (Failed (DuplicateField cr_MEMBER_TAG))
    | None =>
        try! (len, v) := decode_length_delimited_panicking member_decode tl in
        Ok (S len, Some v)
    end
  else lift (skipped st b tl).

Definition conflict_decode (buf : bytes) : Result (nat * MemberRef) (Fault DecodeError) :=
  try! (offset, st) := decode_fields_panicking conflict_step None buf in
  try! m := lift (required st) in
  Ok (offset, m).

Definition conflict_from_ref (r : MemberRef) : Result (Member I A) DecodeError := member_from_ref r.

End members.

#[export] Hint Unfold TAGS_TAG TAGS_BYTE m_NODE_TAG m_TAGS_TAG m_STATUS_TAG
  m_MEMBERLIST_PROTOCOL_VERSION_TAG m_MEMBERLIST_DELEGATE_VERSION_TAG m_PROTOCOL_VERSION_TAG
  m_DELEGATE_VERSION_TAG m_NODE_BYTE m_TAGS_BYTE m_STATUS_BYTE
  m_MEMBERLIST_PROTOCOL_VERSION_BYTE m_MEMBERLIST_DELEGATE_VERSION_BYTE m_PROTOCOL_VERSION_BYTE
  m_DELEGATE_VERSION_BYTE cr_MEMBER_TAG cr_MEMBER_BYTE : tags.
#[export] Hint Unfold tags_step member_step conflict_step : steps.

#[local] Arguments once : simpl never.
#[local] Arguments once_raw : simpl never.

Section facts.
Context `{WireLaws}.

Lemma tags_progresses : progresses tags_step.
Proof. intros st off b tl k st' Hs. unfold tags_step in Hs. step_progress. Qed.

Lemma tags_put_writes b : writes (tags_put b) [b].
Proof. intros n w Hn. simpl in Hn. unfold tags_put. by rewrite (proj2 (Nat.leb_gt _ _)) by lia. Qed.

Lemma tags_put_bounded b : bounded (tags_put b) [b].
Proof.
  intros n w Hw Hn. simpl in Hn. unfold tags_put. rewrite (proj2 (Nat.leb_le _ _)) by lia. eauto.
Qed.

(** Every pair of a table fits a length prefix, and no key is listed twice
    (the table is a map). *)
Definition tags_fit (t : Tags) : Prop :=
  NoDup t.*1 ∧ Forall (λ p, fits_u32 (tag_pair_len_ld p)) t.

Lemma tags_codes t : tags_fit t → ∃ bs r, codes tags_data t bs r.
Proof.
  intros [Hnd Hfit].
  assert (Forall (λ p, ∃ bs r, entry tag_pair_data (tag_pair_len_ld p) (tag_pair_encode_ld p) p bs r) t)
    as Hex.
  { eapply Forall_impl; [exact Hfit|]. intros [k v] Hkv. by eapply tuple_codes; try apply str_codes. }
  destruct (entries_exist tag_pair_data _ _ t Hex) as (bodies & refs & Hes).
  set (bs := fields TAGS_BYTE bodies).
  exists bs, (repeated_counted TAGS_TAG WireType.LengthDelimited ([] ++ fields TAGS_BYTE bodies ++ [])
     (run_offsets (length (@nil byte)) TAGS_BYTE bodies) (length bodies)).
  eapply message_codes; [done|reflexivity| | | | |]; cbn [from_ref encoded_len decode tags_data].
  - apply (entries_length _ _ _ _ _ _ TAGS_BYTE Hes).
  - apply mapping_err_writes. eapply entries_writes; [apply tags_put_writes|exact Hes].
  - apply mapping_err_bounded.
    eapply entries_bounded; [apply tags_put_writes|apply tags_put_bounded|exact Hes].
  - unfold tags_from_ref. rewrite (counted_iter tag_pair_data _ _ _ [] bodies [] refs).
    + rewrite (entries_collect _ _ _ _ _ _ Hes). by rewrite index_map_of_nodup.
    + symmetry. apply pair_wire.
    + done.
    + by eapply entries_bodies.
  - unfold tags_decode. rewrite (decode_fields_eq _ tags_progresses _ _
      (Ok (length bs, mkTagsVars (run_offsets 0 TAGS_BYTE bodies) (length bodies)))); [done|].
    unfold bs. eapply (loop_entries _ mkTagsVars tag_pair_data _ _ _ _ _ TAGS_TAG _ _ _ _ Hes);
      [by vm_compute| | |].
    + unfold tag_pair_data. by rewrite pair_wire.
    + intros. autounfold with steps. by arms.
    + end_fields.
Qed.

Lemma tags_ld t : tags_fit t → fits_u32 (tags_encoded_len_ t) → ∃ bs r, codes_ld tags_data t bs r.
Proof. intros Ht Hl. apply delimited_ld; [done|by apply tags_codes|done]. Qed.

Context {I A : Type} (DI : Data I) (DA : Data A).

Lemma lift_ok {B E} (r : Result B E) x : lift r = Ok x → r = Ok x.
Proof. destruct r; simpl; congruence. Qed.

Lemma once_raw_progress {V} (slot : option V) tag of_u8 tl k v :
  once_raw slot tag of_u8 tl = Ok (k, v) → 1 ≤ k.
Proof. unfold once_raw. destruct slot, tl; intros; simplify_eq; lia. Qed.

Lemma member_progresses : progresses (member_step DI DA).
Proof.
  intros st off b tl k st' Hs. unfold member_step in Hs. destruct st. step_progress.
  all: eauto using once_raw_progress, once_progress, lift_ok.
  apply lift_ok in Hs. by eapply skipped_progress.
Qed.

Lemma conflict_progresses : progresses (conflict_step DI DA).
Proof.
  intros st off b tl k st' Hs. unfold conflict_step in Hs. step_progress; [lia|].
  apply lift_ok in Hs. by eapply skipped_progress.
Qed.

(** One byte that reads back as the value it was made from. *)
Definition byte_fits {V} (to_u8 : V → Z) (of_u8 : Z → V) (v : V) : Prop :=
  of_u8 (Z_of_byte (byte_of_Z (to_u8 v))) = v.

Record member_fits (m : Member I A) : Prop := {
  mf_node : ∃ bs r, codes_ld (node_data DI DA) (node m) bs r;
  mf_tags : tags_fit (tags m) ∧ fits_u32 (tags_encoded_len_ (tags m));
  mf_status : byte_fits MemberStatus.to_u8 MemberStatus.of_u8 (status m);
  mf_mpv : byte_fits u8_of_protocol_version protocol_version_of_u8 (memberlist_protocol_version m);
  mf_mdv : byte_fits u8_of_delegate_version delegate_version_of_u8 (memberlist_delegate_version m);
  mf_pv : byte_fits u8_of_protocol_version protocol_version_of_u8 (protocol_version m);
  mf_dv : byte_fits u8_of_delegate_version delegate_version_of_u8 (delegate_version m);
}.

(** Where the body of [member_encode] ends, one byte before the member does. *)
Definition member_bytes (m : Member I A) (bn bt : bytes) : bytes :=
  [m_NODE_BYTE] ++ bn ++ [m_TAGS_BYTE] ++ bt
  ++ [m_STATUS_BYTE] ++ [byte_of_Z (MemberStatus.to_u8 (status m))]
  ++ [m_MEMBERLIST_PROTOCOL_VERSION_BYTE]
  ++ [byte_of_Z (u8_of_protocol_version (memberlist_protocol_version m))]
  ++ [m_MEMBERLIST_DELEGATE_VERSION_BYTE]
  ++ [byte_of_Z (u8_of_delegate_version (memberlist_delegate_version m))]
  ++ [m_PROTOCOL_VERSION_BYTE] ++ [byte_of_Z (u8_of_protocol_version (protocol_version m))]
  ++ [m_DELEGATE_VERSION_BYTE].

Lemma member_decode_bytes m bn rn bt rt :
  member_fits m → codes_ld (node_data DI DA) (node m) bn rn → codes_ld tags_data (tags m) bt rt →
  let bs := member_bytes m bn bt ++ [byte_of_Z (u8_of_delegate_version (delegate_version m))] in
  member_decode DI DA bs = Ok (length bs, mkMemberRef DI DA rn rt (status m)
    (memberlist_protocol_version m) (memberlist_delegate_version m)
    (protocol_version m) (delegate_version m)).
Proof.
  intros [_ _ Hs Hmp Hmd Hp Hd] Hn Ht bs.
  pose proof (entry_value _ _ _ _ _ _ Hn) as Hbn. pose proof (entry_value _ _ _ _ _ _ Ht) as Hbt.
  unfold member_decode. rewrite (decode_fields_panicking_eq _ member_progresses _ _
    (Ok (length bs, mkMemberVars DI DA (Some rn) (Some rt) (Some (status m))
      (Some (memberlist_protocol_version m)) (Some (memberlist_delegate_version m))
      (Some (protocol_version m)) (Some (delegate_version m))))); [done|].
  unfold bs, member_bytes. repeat (progress (cbn [app]; rewrite <- ?app_assoc)).
  do 2 read_field.
  do 5 (eapply (loop_field _ _ _ _ [_]); [autounfold with steps; arms; reflexivity|simpl]).
  apply loop_finish; [simpl; lengths|]. unfold byte_fits in *. by rewrite Hs, Hmp, Hmd, Hp, Hd.
Qed.

(** A member is written in full where it fits; one byte short, writing it
    panics; in any smaller buffer it is an error. *)
Lemma member_codes m :
  member_fits m →
  ∃ bs r, length bs = member_encoded_len DI DA m ∧
    (∀ n, length bs ≤ n → member_encode DI DA m n = Ok bs) ∧
    (∀ n, n < length bs - 1 → ∃ e, member_encode DI DA m n = Err (Failed e)) ∧
    member_encode DI DA m (length bs - 1) = Err Panicked ∧
    member_from_ref DI DA r = Ok m ∧ member_decode DI DA bs = Ok (length bs, r).
Proof.
  intros Hm. destruct (mf_node _ Hm) as (bn & rn & Hn), (mf_tags _ Hm) as [Htf Htl].
  destruct (tags_ld _ Htf Htl) as (bt & rt & Ht).
  pose proof (entry_value _ _ _ _ _ _ Hn) as Hbn. pose proof (entry_value _ _ _ _ _ _ Ht) as Hbt.
  assert (writes (member_writer DI DA m) (member_bytes m bn bt)) as Hw
    by (unfold member_writer, member_bytes; solve_writes).
  assert (bounded (member_writer DI DA m) (member_bytes m bn bt)) as Hb
    by (unfold member_writer, member_bytes; solve_bounded).
  set (d := byte_of_Z (u8_of_delegate_version (delegate_version m))).
  assert (length (member_bytes m bn bt ++ [d]) = S (length (member_bytes m bn bt))) as Hlen
    by (rewrite length_app; simpl; lia).
  exists (member_bytes m bn bt ++ [d]), (mkMemberRef DI DA rn rt (status m)
    (memberlist_protocol_version m) (memberlist_delegate_version m)
    (protocol_version m) (delegate_version m)).
  rewrite Hlen. split_and!.
  - unfold member_bytes, member_encoded_len. rewrite <- (entry_len Hn), <- (entry_len Ht). lengths.
  - intros n Hle. unfold member_encode. rewrite (run_writes _ _ n Hw) by lia. cbn [lift].
    by rewrite (proj2 (Nat.leb_gt _ _)) by lia.
  - intros n Hlt. unfold member_encode.
    destruct (run_bounded _ _ n Hb) as [e ->]; [lia|]. simpl. eauto.
  - unfold member_encode. rewrite Nat.sub_succ, Nat.sub_0_r.
    rewrite (run_writes _ _ _ Hw) by lia. cbn [lift]. by rewrite Nat.leb_refl.
  - unfold member_from_ref. cbn [mr_node mr_tags]. rewrite (entry_from_ref Hn).
    pose proof (entry_from_ref Ht) as Hft. cbn [from_ref tags_data] in Hft. rewrite Hft. by destruct m.
  - rewrite <- Hlen. by apply member_decode_bytes.
Qed.

Lemma conflict_codes m :
  member_fits m → fits_u32 (member_encoded_len DI DA m) →
  ∃ bs r, length bs = conflict_encoded_len DI DA m ∧
    (∀ n, length bs ≤ n → conflict_encode DI DA m n = Ok bs) ∧
    conflict_from_ref DI DA r = Ok m ∧ conflict_decode DI DA bs = Ok (length bs, r).
Proof.
  intros Hm Hfit. destruct (member_codes m Hm) as (bm & r & Hlen & Henc & _ & _ & Hfr & Hdec).
  rewrite <- Hlen in Hfit. unfold fits_u32 in Hfit.
  destruct (u32_codes (Z.of_nat (length bm))) as [pre Hpre]; [lia|].
  exists ([cr_MEMBER_BYTE] ++ pre ++ bm), r. split_and!; [| |done|].
  - unfold conflict_encoded_len. rewrite (len_ld_panicking _ _ pre) by (by rewrite <- Hlen).
    rewrite <- Hlen. lengths.
  - intros n Hn. unfold conflict_encode. rewrite put_writes by (simpl in *; lia). cbn [lift app].
    rewrite (encode_ld_panicking _ _ m pre bm) by (done || (simpl in *; lia)). done.
  - unfold conflict_decode. rewrite (decode_fields_panicking_eq _ conflict_progresses _ _
      (Ok (length ([cr_MEMBER_BYTE] ++ pre ++ bm), Some r))); [done|].
    rewrite <- (app_nil_r bm) at 1. rewrite (app_assoc pre). cbn [app].
    eapply loop_field; [|end_fields]. autounfold with steps. arms. rewrite <- app_assoc.
    rewrite decode_ld_panicking by done. rewrite Hdec. by rewrite length_app.
Qed.

(** The byte behind a one-byte field is not checked for: a member that ends
    there panics. *)
Lemma member_decode_truncated b :
  b ∈ [m_STATUS_BYTE; m_MEMBERLIST_PROTOCOL_VERSION_BYTE; m_MEMBERLIST_DELEGATE_VERSION_BYTE;
       m_PROTOCOL_VERSION_BYTE; m_DELEGATE_VERSION_BYTE] →
  member_decode DI DA [b] = Err Panicked.
Proof.
  intros Hb. unfold member_decode. rewrite (decode_fields_panicking_eq _ member_progresses _ _
    (Err Panicked)); [done|].
  apply loop_fail. autounfold with steps.
  repeat (apply elem_of_cons in Hb as [->|Hb]; [by arms|]). by apply not_elem_of_nil in Hb.
Qed.

End facts.
