(* ===== verification/CodecPushPull.v ===== *)
(** * State exchange on the wire (types/push_pull.rs)

    [PushPullMessage] and [PushPullMessageBorrow], the form in which a local
    state is sent without copying the event buffer. *)

From Stdlib Require Import ZArith Lia Strings.Byte.
From stdpp Require Import base list gmap strings.
From S2P Require Import Prelude Types Wire CodecIntents CodecEvents.
Local Open Scope serf_scope.

Section push_pull.
Context `{Wire} {I : Type} `{EqDecision I} (DI : Data I).

Definition pp_LTIME_TAG : Z := 1.
Definition pp_STATUS_LTIMES_TAG : Z := 2.
Definition pp_LEFT_MEMBERS_TAG : Z := 3.
Definition pp_EVENT_LTIME_TAG : Z := 4.
Definition pp_EVENTS_TAG : Z := 5.
Definition pp_QUERY_LTIME_TAG : Z := 6.
Definition pp_LTIME_BYTE : byte := merge WireType.Varint pp_LTIME_TAG.
Definition pp_STATUS_LTIMES_BYTE : byte := merge WireType.LengthDelimited pp_STATUS_LTIMES_TAG.
Definition pp_EVENT_LTIME_BYTE : byte := merge WireType.Varint pp_EVENT_LTIME_TAG.
Definition pp_EVENTS_BYTE : byte := merge WireType.LengthDelimited pp_EVENTS_TAG.
Definition pp_QUERY_LTIME_BYTE : byte := merge WireType.Varint pp_QUERY_LTIME_TAG.
Definition left_members_byte : byte := merge (WIRE_TYPE DI) pp_LEFT_MEMBERS_TAG.

(** A pair of [status_ltimes]. *)
Definition status_data : Data (I * Z) := pair_data DI lamport_data.
Definition status_len_ld (p : I * Z) : nat :=
  tuple_encoded_len_with_length_delimited DI lamport_data p.
Definition status_encode_ld (p : I * Z) : nat → Result bytes EncodeError :=
  tuple_encode_with_length_delimited DI lamport_data p.

Record PushPullRef : Type := mkPushPullRef {
  ppr_ltime : Z; ppr_status_ltimes : RepeatedDecoder; ppr_left_members : RepeatedDecoder;
  ppr_event_ltime : Z; ppr_events : RepeatedDecoder; ppr_query_ltime : Z }.

(** The bookkeeping of the three repeated fields is [(offsets, number)]. *)
Record push_pull_vars : Type := mkPushPullVars {
  ppv_ltime : option Z; ppv_status : option (nat * nat) * nat; ppv_left : option (nat * nat) * nat;
  ppv_event_ltime : option Z; ppv_events : option (nat * nat) * nat; ppv_query_ltime : option Z }.

Definition push_pull_step (st : push_pull_vars) (off : nat) (b : byte) (tl : bytes)
  : Result (nat * push_pull_vars) DecodeError :=
  let 'mkPushPullVars ltime sts lm eltime evs qltime := st in
  if decide (b = pp_LTIME_BYTE) then
    try! (k, v) := once ltime pp_LTIME_TAG lamport_decode tl in
    Ok (k, mkPushPullVars (Some v) sts lm eltime evs qltime)
  else if decide (b = pp_STATUS_LTIMES_BYTE) then
    try! (k, o) := tracked sts.1 off b tl in
    Ok (k, mkPushPullVars ltime (o, S sts.2) lm eltime evs qltime)
  else if decide (b = left_members_byte) then
    try! (k, o) := tracked lm.1 off b tl in
    Ok (k, mkPushPullVars ltime sts (o, S lm.2) eltime evs qltime)
  else if decide (b = pp_EVENT_LTIME_BYTE) then
    try! (k, v) := once eltime pp_EVENT_LTIME_TAG lamport_decode tl in
    Ok (k, mkPushPullVars ltime sts lm (Some v) evs qltime)
  else if decide (b = pp_EVENTS_BYTE) then
    try! (k, o) := tracked evs.1 off b tl in
    Ok (k, mkPushPullVars ltime sts lm eltime (o, S evs.2) qltime)
  else if decide (b = pp_QUERY_LTIME_BYTE) then
    try! (k, v) := once qltime pp_QUERY_LTIME_TAG lamport_decode tl in
    Ok (k, mkPushPullVars ltime sts lm eltime evs (Some v))
  else skipped st b tl.

Definition push_pull_decode (buf : bytes) : Result (nat * PushPullRef) DecodeError :=
  try! (offset, st) := decode_fields push_pull_step
    (mkPushPullVars None (None, 0%nat) (None, 0%nat) None (None, 0%nat) None) buf in
  try! ltime := required (ppv_ltime st) in
  try! event_ltime := required (ppv_event_ltime st) in
  try! query_ltime := required (ppv_query_ltime st) in
  Ok (offset, mkPushPullRef ltime
    (repeated_of pp_STATUS_LTIMES_TAG WireType.LengthDelimited buf (ppv_status st).1 (ppv_status st).2)
    (repeated_of pp_LEFT_MEMBERS_TAG (WIRE_TYPE DI) buf (ppv_left st).1 (ppv_left st).2)
    event_ltime
    (repeated_of pp_EVENTS_TAG WireType.LengthDelimited buf (ppv_events st).1 (ppv_events st).2)
    query_ltime).

Definition push_pull_from_ref (r : PushPullRef) : Result (PushPullMessage I) DecodeError :=
  try! sts := collect ((λ x, and_then x (from_ref status_data)) <$> iter status_data (ppr_status_ltimes r)) in
  try! lm := collect ((λ x, and_then x (from_ref DI)) <$> iter DI (ppr_left_members r)) in
  try! evs := collect ((λ x, and_then x (from_ref user_events_data)) <$> iter user_events_data (ppr_events r)) in
  Ok (mkPushPull (ppr_ltime r) (index_map_of sts) (index_set_of lm) (ppr_event_ltime r)
        evs (ppr_query_ltime r)).

Definition push_pull_encoded_len (p : PushPullMessage I) : nat :=
  (1 + lamport_encoded_len (pp_ltime p))
  + sum_list ((λ x, 1 + status_len_ld x) <$> pp_status_ltimes p)
  + sum_list ((λ id, 1 + encoded_len_with_length_delimited DI id) <$> pp_left_members p)
  + (1 + lamport_encoded_len (pp_event_ltime p))
  + sum_list ((λ e, 1 + encoded_len_with_length_delimited user_events_data e) <$> pp_events p)
  + (1 + lamport_encoded_len (pp_query_ltime p)).

Definition push_pull_encode (p : PushPullMessage I) : nat → Result bytes EncodeError :=
  let len := push_pull_encoded_len p in
  run_writer
    (put len pp_LTIME_BYTE ;; emit keep (lamport_encode (pp_ltime p)) ;;
     mapping_err (updated len)
       (each (λ x, put len pp_STATUS_LTIMES_BYTE ;; emit keep (status_encode_ld x)) (pp_status_ltimes p)) ;;
     mapping_err (updated len)
       (each (λ id, put len left_members_byte ;;
                    emit keep (encode_length_delimited DI id)) (pp_left_members p)) ;;
     put len pp_EVENT_LTIME_BYTE ;; emit keep (lamport_encode (pp_event_ltime p)) ;;
     mapping_err (updated len)
       (each (λ e, put len pp_EVENTS_BYTE ;;
                   emit keep (encode_length_delimited user_events_data e)) (pp_events p)) ;;
     put len pp_QUERY_LTIME_BYTE ;; emit keep (lamport_encode (pp_query_ltime p))).

Definition push_pull_data : Data (PushPullMessage I) :=
  mkData PushPullRef WireType.LengthDelimited push_pull_from_ref
    push_pull_encoded_len push_pull_encode push_pull_decode.

(** ** The borrowed form

    The events are the slots of the buffer; empty slots are left out. *)
Record PushPullBorrow : Type := mkPushPullBorrow {
  ppb_ltime : Z; ppb_status_ltimes : list (I * Z); ppb_left_members : list I;
  ppb_event_ltime : Z; ppb_events : list (option UserEvents); ppb_query_ltime : Z }.

Definition push_pull_borrow_encoded_len (p : PushPullBorrow) : nat :=
  (1 + lamport_encoded_len (ppb_ltime p))
  + sum_list ((λ x, 1 + status_len_ld x) <$> ppb_status_ltimes p)
  + sum_list ((λ id, 1 + encoded_len_with_length_delimited DI id) <$> ppb_left_members p)
  + (1 + lamport_encoded_len (ppb_event_ltime p))
  + sum_list (omap (λ e, (λ e, 1 + encoded_len_with_length_delimited user_events_data e) <$> e)
                (ppb_events p))
  + (1 + lamport_encoded_len (ppb_query_ltime p)).

Definition push_pull_borrow_encode (p : PushPullBorrow) : nat → Result bytes EncodeError :=
  let len := push_pull_borrow_encoded_len p in
  run_writer
    (put len pp_LTIME_BYTE ;; emit keep (lamport_encode (ppb_ltime p)) ;;
     mapping_err (updated len)
       (each (λ x, put len pp_STATUS_LTIMES_BYTE ;; emit keep (status_encode_ld x)) (ppb_status_ltimes p)) ;;
     mapping_err (updated len)
       (each (λ id, put len left_members_byte ;;
                    emit keep (encode_length_delimited DI id)) (ppb_left_members p)) ;;
     put len pp_EVENT_LTIME_BYTE ;; emit keep (lamport_encode (ppb_event_ltime p)) ;;
     mapping_err (updated len)
       (each (λ e, put len pp_EVENTS_BYTE ;;
                   emit keep (encode_length_delimited user_events_data e)) (omap id (ppb_events p))) ;;
     put len pp_QUERY_LTIME_BYTE ;; emit keep (lamport_encode (ppb_query_ltime p))).

(** The message a borrowed form stands for. *)
Definition borrow_message (p : PushPullBorrow) : PushPullMessage I :=
  mkPushPull (ppb_ltime p) (ppb_status_ltimes p) (ppb_left_members p) (ppb_event_ltime p)
    (omap id (ppb_events p)) (ppb_query_ltime p).

End push_pull.

#[export] Hint Unfold pp_LTIME_TAG pp_STATUS_LTIMES_TAG pp_LEFT_MEMBERS_TAG pp_EVENT_LTIME_TAG
  pp_EVENTS_TAG pp_QUERY_LTIME_TAG pp_LTIME_BYTE pp_STATUS_LTIMES_BYTE pp_EVENT_LTIME_BYTE
  pp_EVENTS_BYTE pp_QUERY_LTIME_BYTE left_members_byte : tags.
#[export] Hint Unfold push_pull_step : steps.

#[local] Arguments once : simpl never.

Section facts.
Context `{WireLaws} {I : Type} `{EqDecision I} (DI : Data I).

Lemma push_pull_progresses : progresses (push_pull_step DI).
Proof. intros st off b tl k st' Hs. unfold push_pull_step in Hs. destruct st. step_progress. Qed.

(** The two encoders agree: a slot that is empty costs and writes nothing. *)
Lemma push_pull_borrow_len (p : PushPullBorrow (I := I)) :
  push_pull_borrow_encoded_len DI p = push_pull_encoded_len DI (borrow_message p).
Proof.
  unfold push_pull_borrow_encoded_len, push_pull_encoded_len, borrow_message.
  cbn [pp_ltime pp_status_ltimes pp_left_members pp_event_ltime pp_events pp_query_ltime].
  do 3 f_equal. induction (ppb_events p) as [|[e|] l IH]; [done| |done]. cbn. f_equal. exact IH.
Qed.

Lemma push_pull_borrow_same (p : PushPullBorrow (I := I)) n :
  push_pull_borrow_encode DI p n = push_pull_encode DI (borrow_message p) n.
Proof.
  unfold push_pull_borrow_encode, push_pull_encode. by rewrite push_pull_borrow_len.
Qed.

(** A state that survives its encoding: machine ranges, keys listed once, and
    parts that encode themselves. *)
Record push_pull_fits (p : PushPullMessage I) : Prop := {
  ppf_ltime : is_u64 (pp_ltime p);
  ppf_event_ltime : is_u64 (pp_event_ltime p);
  ppf_query_ltime : is_u64 (pp_query_ltime p);
  ppf_keys : NoDup (pp_status_ltimes p).*1;
  ppf_status : Forall (λ x, (∃ bs r, codes DI x.1 bs r) ∧ is_u64 x.2 ∧ fits_u32 (status_len_ld DI x))
                 (pp_status_ltimes p);
  ppf_nodup : NoDup (pp_left_members p);
  ppf_left : Forall (λ id, ∃ bs r, codes_ld DI id bs r) (pp_left_members p);
  ppf_events : Forall (λ u, is_u64 (ues_ltime u) ∧ Forall event_fits (ues_events u) ∧
                            fits_u32 (user_events_encoded_len u)) (pp_events p);
}.

Section parts.
Context (lt elt qlt : Z) (sts : list (I * Z)) (lms : list I) (evs : list UserEvents).
Context (bl be bq : bytes) (bs1 bs2 bs3 : list bytes)
  (rs1 : list (Ref (status_data DI))) (rs2 : list (Ref DI)) (rs3 : list (Ref user_events_data)).
Context (Hbl : value (lamport_encoded_len lt) (lamport_encode lt) lamport_decode bl lt)
  (Hbe : value (lamport_encoded_len elt) (lamport_encode elt) lamport_decode be elt)
  (Hbq : value (lamport_encoded_len qlt) (lamport_encode qlt) lamport_decode bq qlt)
  (H1 : Forall3 (λ v bs r, entry (status_data DI) (status_len_ld DI v) (status_encode_ld DI v) v bs r) sts bs1 rs1)
  (H2 : Forall3 (codes_ld DI) lms bs2 rs2)
  (H3 : Forall3 (codes_ld user_events_data) evs bs3 rs3)
  (Hk : NoDup sts.*1) (Hn : NoDup lms).

Let p := mkPushPull lt sts lms elt evs qlt.
Let f1 := fields pp_STATUS_LTIMES_BYTE bs1.
Let f2 := fields (left_members_byte DI) bs2.
Let f3 := fields pp_EVENTS_BYTE bs3.
Let pre1 := [pp_LTIME_BYTE] ++ bl.
Let pre2 := pre1 ++ f1.
Let pre3 := pre2 ++ f2 ++ [pp_EVENT_LTIME_BYTE] ++ be.
Let bs := [pp_LTIME_BYTE] ++ bl ++ f1 ++ f2 ++ [pp_EVENT_LTIME_BYTE] ++ be ++ f3
  ++ [pp_QUERY_LTIME_BYTE] ++ bq.

Let split1 : bs ++ [] = pre1 ++ f1 ++ (f2 ++ [pp_EVENT_LTIME_BYTE] ++ be ++ f3 ++ [pp_QUERY_LTIME_BYTE] ++ bq ++ []).
Proof. unfold bs, pre1. by rewrite <- !app_assoc. Qed.
Let split2 : bs ++ [] = pre2 ++ f2 ++ ([pp_EVENT_LTIME_BYTE] ++ be ++ f3 ++ [pp_QUERY_LTIME_BYTE] ++ bq ++ []).
Proof. unfold bs, pre2, pre1. by rewrite <- !app_assoc. Qed.
Let split3 : bs ++ [] = pre3 ++ f3 ++ ([pp_QUERY_LTIME_BYTE] ++ bq ++ []).
Proof. unfold bs, pre3, pre2, pre1. by rewrite <- !app_assoc. Qed.

Let r1 := run_offsets (length pre1) pp_STATUS_LTIMES_BYTE bs1.
Let r2 := run_offsets (length pre2) (left_members_byte DI) bs2.
Let r3 := run_offsets (length pre3) pp_EVENTS_BYTE bs3.

Let loop_bs :
  loop_runs (push_pull_step DI) 0
    (mkPushPullVars None (None, 0%nat) (None, 0%nat) None (None, 0%nat) None) (bs ++ [])
    (Ok (length bs, mkPushPullVars (Some lt) (r1, length bs1) (r2, length bs2) (Some elt)
                      (r3, length bs3) (Some qlt))).
Proof.
  rewrite split1. unfold pre1. rewrite <- !app_assoc. cbn [app].
  read_field. at_offset (length pre1).
  eapply (loop_entries _ (λ o k, mkPushPullVars (Some lt) (o, k) (None, 0%nat) None (None, 0%nat) None)
    (status_data DI) _ _ _ _ _ pp_STATUS_LTIMES_TAG _ _ _ _ H1); [by vm_compute| | |].
  { unfold status_data. by rewrite pair_wire. }
  { intros. autounfold with steps. by arms. }
  fold f1 r1. replace (length pre1 + length f1) with (length pre2) by (unfold pre2; by rewrite length_app).
  read_entries (λ o k, mkPushPullVars (Some lt) (r1, length bs1) (o, k) None (None, 0%nat) None) H2.
  fold f2 r2. cbn [app]. read_field. at_offset (length pre3).
  read_entries (λ o k, mkPushPullVars (Some lt) (r1, length bs1) (r2, length bs2) (Some elt) (o, k) None) H3.
  fold f3 r3. read_field. apply loop_finish; [|done].
  unfold bs, pre3, pre2, pre1. simpl. lengths.
Qed.

Lemma parts_codes : ∃ r, codes (push_pull_data DI) p bs r.
Proof.
  exists (mkPushPullRef lt
    (repeated_of pp_STATUS_LTIMES_TAG WireType.LengthDelimited (bs ++ []) r1 (length bs1))
    (repeated_of pp_LEFT_MEMBERS_TAG (WIRE_TYPE DI) (bs ++ []) r2 (length bs2)) elt
    (repeated_of pp_EVENTS_TAG WireType.LengthDelimited (bs ++ []) r3 (length bs3)) qlt).
  eapply message_codes; [done|reflexivity| |unfold bs, f1, f2, f3; solve_writes
    |unfold bs, f1, f2, f3; solve_bounded| |]; cbn [from_ref encoded_len decode push_pull_data].
  - unfold push_pull_encoded_len, p.
    cbn [pp_ltime pp_status_ltimes pp_left_members pp_event_ltime pp_events pp_query_ltime].
    rewrite <- (entries_length _ _ _ _ _ _ pp_STATUS_LTIMES_BYTE H1),
      <- (entries_length _ _ _ _ _ _ (left_members_byte DI) H2),
      <- (entries_length _ _ _ _ _ _ pp_EVENTS_BYTE H3), <- (value_len _ _ _ _ _ Hbl),
      <- (value_len _ _ _ _ _ Hbe), <- (value_len _ _ _ _ _ Hbq).
    unfold bs, f1, f2, f3. lengths.
  - unfold push_pull_from_ref.
    cbn [ppr_ltime ppr_status_ltimes ppr_left_members ppr_event_ltime ppr_events ppr_query_ltime].
    rewrite split1 at 1. unfold f1, r1.
    rewrite (repeated_iter (status_data DI) _ _ _ pre1 bs1 _ rs1)
      by (done || (by eapply entries_bodies) || (symmetry; apply pair_wire)).
    rewrite (entries_collect _ _ _ _ _ _ H1). rewrite split2 at 1. unfold f2, r2.
    rewrite (repeated_iter DI _ _ _ pre2 bs2 _ rs2) by (done || by eapply entries_bodies).
    rewrite (entries_collect _ _ _ _ _ _ H2). rewrite split3. unfold f3, r3.
    rewrite (repeated_iter user_events_data _ _ _ pre3 bs3 _ rs3) by (done || by eapply entries_bodies).
    rewrite (entries_collect _ _ _ _ _ _ H3). by rewrite index_map_of_nodup, index_set_of_nodup.
  - unfold push_pull_decode. by rewrite (decode_fields_eq _ push_pull_progresses _ _ _ loop_bs).
Qed.

End parts.

Lemma user_events_ld u :
  is_u64 (ues_ltime u) ∧ Forall event_fits (ues_events u) ∧ fits_u32 (user_events_encoded_len u) →
  ∃ bs r, codes_ld user_events_data u bs r.
Proof. intros (Ht & He & Hl). apply delimited_ld; [done|by apply user_events_codes|done]. Qed.

Lemma push_pull_codes p : push_pull_fits p → ∃ bs r, codes (push_pull_data DI) p bs r.
Proof.
  destruct p as [lt sts lms elt evs qlt]. intros [Hlt Helt Hqlt Hk Hst Hn Hlm Hev]; simpl in *.
  destruct (lamport_value _ Hlt) as [bl Hbl], (lamport_value _ Helt) as [be Hbe],
    (lamport_value _ Hqlt) as [bq Hbq].
  assert (Forall (λ x, ∃ bs r, entry (status_data DI) (status_len_ld DI x) (status_encode_ld DI x) x bs r) sts)
    as Hex.
  { eapply Forall_impl; [exact Hst|]. intros [k t] ((b & r & Hb) & Ht & Hl).
    destruct (lamport_codes t Ht) as [c Hc]. by eapply tuple_codes. }
  destruct (entries_exist (status_data DI) _ _ sts Hex) as (bs1 & rs1 & H1),
    (entries_exist DI _ _ lms Hlm) as (bs2 & rs2 & H2),
    (entries_exist user_events_data _ _ evs (Forall_impl _ _ _ Hev user_events_ld))
      as (bs3 & rs3 & H3).
  eexists. by eapply parts_codes.
Qed.

End facts.
