(* ===== verification/CodecKeys.v ===== *)
(** * Key messages on the wire (types/key.rs)

    [KeyRequestMessage] and [KeyResponseMessage], the payloads of the key
    manager's queries.  [K] is memberlist's [SecretKey]. *)

From Stdlib Require Import ZArith Lia Strings.Byte.
From stdpp Require Import base list gmap strings.
From S2P Require Import Prelude Types Wire CodecIntents CodecEvents.
Local Open Scope serf_scope.

Record KeyRequestMessage (K : Type) : Type := mkKeyRequest { kreq_key : option K }.
Arguments mkKeyRequest {K}.
Arguments kreq_key {K} k : rename.

Record KeyResponseMessage (K : Type) : Type := mkKeyResponse {
  kres_result : bool; kres_message : string; kres_keys : list K; kres_primary_key : option K }.
Arguments mkKeyResponse {K}.
Arguments kres_result {K} k : rename.
Arguments kres_message {K} k : rename.
Arguments kres_keys {K} k : rename.
Arguments kres_primary_key {K} k : rename.

(** [KeyResponseMessage::add_key] *)
Definition add_key {K} (r : KeyResponseMessage K) (key : K) : KeyResponseMessage K :=
  mkKeyResponse (kres_result r) (kres_message r) (kres_keys r ++ [key]) (kres_primary_key r).

Section keys.
Context `{Wire} {K : Type} (SK : Scalar K).

Let DK : Data K := scalar SK.

(** ** The request *)

Definition KEY_REQ_KEY_TAG : Z := 1.
Definition KEY_REQ_KEY_BYTE : byte := merge WireType.LengthDelimited KEY_REQ_KEY_TAG.

Definition key_request_step (st : option K) (off : nat) (b : byte) (tl : bytes)
  : Result (nat * option K) DecodeError :=
  if decide (b = KEY_REQ_KEY_BYTE) then
    try! (k, v) := decode_length_delimited DK tl in Ok (S k, Some v)
  else skipped st b tl.

Definition key_request_decode (buf : bytes) : Result (nat * KeyRequestMessage K) DecodeError :=
  try! (offset, key) := decode_fields key_request_step None buf in Ok (offset, mkKeyRequest key).

Definition key_request_encoded_len (m : KeyRequestMessage K) : nat :=
  match kreq_key m with
  | Some key => 1 + encoded_len_with_length_delimited DK key
  | None => 0
  end.

Definition key_request_encode (m : KeyRequestMessage K) : nat → Result bytes EncodeError :=
  run_writer
    match kreq_key m with
    | Some key =>
        put (key_request_encoded_len m) KEY_REQ_KEY_BYTE ;; emit keep (encode_length_delimited DK key)
    | None => nothing
    end.

Definition key_request_data : Data (KeyRequestMessage K) :=
  mkData (KeyRequestMessage K) WireType.LengthDelimited Ok
    key_request_encoded_len key_request_encode key_request_decode.

(** ** The response *)

Definition KEY_RESPONSE_RESULT_TAG : Z := 1.
Definition KEY_RESPONSE_MESSAGE_TAG : Z := 2.
Definition KEY_RESPONSE_KEYS_TAG : Z := 3.
Definition KEY_RESPONSE_PRIMARY_KEY_TAG : Z := 4.
Definition KEY_RESPONSE_RESULT_BYTE : byte := merge WireType.Byte KEY_RESPONSE_RESULT_TAG.
Definition KEY_RESPONSE_MESSAGE_BYTE : byte := merge WireType.LengthDelimited KEY_RESPONSE_MESSAGE_TAG.
Definition KEY_RESPONSE_KEYS_BYTE : byte := merge WireType.LengthDelimited KEY_RESPONSE_KEYS_TAG.
Definition KEY_RESPONSE_PRIMARY_KEY_BYTE : byte :=
  merge WireType.LengthDelimited KEY_RESPONSE_PRIMARY_KEY_TAG.

Record KeyResponseRef : Type := mkKeyResponseRef {
  krr_result : bool; krr_message : string; krr_keys : RepeatedDecoder; krr_primary_key : option K }.

Record key_response_vars : Type := mkKeyResponseVars {
  krv_result : option bool; krv_message : option string;
  krv_offsets : option (nat * nat); krv_num : nat; krv_primary_key : option K }.

Definition key_response_step (st : key_response_vars) (off : nat) (b : byte) (tl : bytes)
  : Result (nat * key_response_vars) DecodeError :=
  let 'mkKeyResponseVars res msg offs num pk := st in
  if decide (b = KEY_RESPONSE_RESULT_BYTE) then
    match res with
    | Some _ => Err (DuplicateField KEY_RESPONSE_RESULT_TAG)
    | None =>
        match tl with
        | [] => Err BufferUnderflow
        | x :: _ => Ok (2%nat, mkKeyResponseVars (Some (negb (Z_of_byte x =? 0)%Z)) msg offs num pk)
        end
    end
  else if decide (b = KEY_RESPONSE_MESSAGE_BYTE) then
    try! (k, v) := once msg KEY_RESPONSE_MESSAGE_TAG str_decode_ld tl in
    Ok (k, mkKeyResponseVars res (Some v) offs num pk)
  else if decide (b = KEY_RESPONSE_KEYS_BYTE) then
    try! (k, o) := tracked offs off b tl in
    Ok (k, mkKeyResponseVars res msg o (S num) pk)
  else if decide (b = KEY_RESPONSE_PRIMARY_KEY_BYTE) then
    try! (k, v) := once pk KEY_RESPONSE_PRIMARY_KEY_TAG (decode_length_delimited DK) tl in
    Ok (k, mkKeyResponseVars res msg offs num (Some v))
  else skipped st b tl.

Definition key_response_decode (buf : bytes) : Result (nat * KeyResponseRef) DecodeError :=
  try! (offset, st) := decode_fields key_response_step (mkKeyResponseVars None None None 0 None) buf in
  Ok (offset, mkKeyResponseRef (default false (krv_result st)) (default EmptyString (krv_message st))
    (repeated_of KEY_RESPONSE_KEYS_TAG WireType.LengthDelimited buf (krv_offsets st) (krv_num st))
    (krv_primary_key st)).

Definition key_response_from_ref (r : KeyResponseRef) : Result (KeyResponseMessage K) DecodeError :=
  try! keys := collect ((λ x, and_then x (from_ref DK)) <$> iter DK (krr_keys r)) in
  Ok (mkKeyResponse (krr_result r) (krr_message r) keys (krr_primary_key r)).

Definition key_response_encoded_len (m : KeyResponseMessage K) : nat :=
  (if kres_result m then 1 + 1 else 0)
  + (if str_nonempty (kres_message m) then 1 + str_len_ld (kres_message m) else 0)
  + sum_list ((λ k, 1 + encoded_len_with_length_delimited DK k) <$> kres_keys m)
  + match kres_primary_key m with
    | Some key => 1 + encoded_len_with_length_delimited DK key
    | None => 0
    end.

Definition key_response_encode (m : KeyResponseMessage K) : nat → Result bytes EncodeError :=
  let len := key_response_encoded_len m in
  run_writer
    (when (kres_result m) (put len KEY_RESPONSE_RESULT_BYTE ;; put len (byte_of_Z 1)) ;;
     when (str_nonempty (kres_message m))
       (put len KEY_RESPONSE_MESSAGE_BYTE ;; emit keep (str_encode_ld (kres_message m))) ;;
     each (λ k, put len KEY_RESPONSE_KEYS_BYTE ;; emit keep (encode_length_delimited DK k)) (kres_keys m) ;;
     match kres_primary_key m with
     | Some key => put len KEY_RESPONSE_PRIMARY_KEY_BYTE ;; emit keep (encode_length_delimited DK key)
     | None => nothing
     end).

Definition key_response_data : Data (KeyResponseMessage K) :=
  mkData KeyResponseRef WireType.LengthDelimited key_response_from_ref
    key_response_encoded_len key_response_encode key_response_decode.

End keys.

#[export] Hint Unfold KEY_REQ_KEY_TAG KEY_REQ_KEY_BYTE KEY_RESPONSE_RESULT_TAG
  KEY_RESPONSE_MESSAGE_TAG KEY_RESPONSE_KEYS_TAG KEY_RESPONSE_PRIMARY_KEY_TAG
  KEY_RESPONSE_RESULT_BYTE KEY_RESPONSE_MESSAGE_BYTE KEY_RESPONSE_KEYS_BYTE
  KEY_RESPONSE_PRIMARY_KEY_BYTE : tags.
#[export] Hint Unfold key_request_step key_response_step : steps.

#[local] Arguments once : simpl never.

Section facts.
Context `{WireLaws} {K : Type} (SK : Scalar K).
Context (Hwire : sc_wire SK = WireType.LengthDelimited)
  (Hkey : ∀ k, ∃ bs, codes_ld (scalar SK) k bs k).

Lemma key_request_progresses : progresses (key_request_step SK).
Proof. intros st off b tl k st' Hs. unfold key_request_step in Hs. step_progress. lia. Qed.

Lemma key_response_progresses : progresses (key_response_step SK).
Proof. intros st off b tl k st' Hs. unfold key_response_step in Hs. destruct st. step_progress; lia. Qed.

Lemma key_request_codes m : ∃ bs, codes (key_request_data SK) m bs m.
Proof.
  destruct m as [[k|]].
  - destruct (Hkey k) as [bk Hk]. pose proof (entry_value _ _ _ _ _ _ Hk) as Hv.
    exists ([KEY_REQ_KEY_BYTE] ++ bk).
    eapply message_codes; [done|reflexivity| |solve_writes|solve_bounded|done|]; simpl.
    + unfold key_request_encoded_len. simpl. by rewrite (entry_len Hk).
    + unfold key_request_decode. rewrite (decode_fields_eq _ key_request_progresses _ _
        (Ok (length ([KEY_REQ_KEY_BYTE] ++ bk), Some k))); [done|]. read_fields.
  - exists []. eapply message_codes; [done|reflexivity|done|solve_writes|solve_bounded|done|]; simpl.
    done.
Qed.

Section response_parts.
Context (res : bool) (msg : string) (keys : list K) (pk : option K).
Context (bm bp b1 : bytes) (bodies : list bytes) (refs : list K).
Context (Hb1 : b1 = [byte_of_Z 1])
  (Hbm : value (str_len_ld msg) (str_encode_ld msg) str_decode_ld bm msg)
  (Hes : Forall3 (codes_ld (scalar SK)) keys bodies refs)
  (Hbp : ∀ k, pk = Some k → codes_ld (scalar SK) k bp k).

Let m := mkKeyResponse res msg keys pk.
Let pre := (if res then [KEY_RESPONSE_RESULT_BYTE] ++ b1 else [])
  ++ (if str_nonempty msg then [KEY_RESPONSE_MESSAGE_BYTE] ++ bm else []).
Let post := match pk with Some _ => [KEY_RESPONSE_PRIMARY_KEY_BYTE] ++ bp | None => [] end.
Let fs := fields KEY_RESPONSE_KEYS_BYTE bodies.
Let bs := (if res then [KEY_RESPONSE_RESULT_BYTE] ++ b1 else [])
  ++ (if str_nonempty msg then [KEY_RESPONSE_MESSAGE_BYTE] ++ bm else []) ++ fs ++ post.

Let split_bs : bs ++ [] = pre ++ fs ++ post ++ [].
Proof. unfold bs, pre. by rewrite <- !app_assoc. Qed.

Let loop_bs :
  loop_runs (key_response_step SK) 0 (mkKeyResponseVars None None None 0 None) (bs ++ [])
    (Ok (length bs, mkKeyResponseVars (if res then Some true else None)
      (if str_nonempty msg then Some msg else None)
      (run_offsets (length pre) KEY_RESPONSE_KEYS_BYTE bodies) (length bodies) pk)).
Proof.
  set (st := mkKeyResponseVars (if res then Some true else None)
    (if str_nonempty msg then Some msg else None)).
  set (r := Ok _).
  assert (∀ off, off = length pre → loop_runs (key_response_step SK) off (st None 0%nat None)
    (fs ++ post ++ []) r) as Hrest.
  { intros off ->. eapply (loop_entries _ (λ o k, st o k None) (scalar SK) _ _ _ _ _
      KEY_RESPONSE_KEYS_TAG _ _ _ _ Hes); [by vm_compute| | |].
    - simpl. by rewrite Hwire.
    - intros. autounfold with steps. unfold st. by arms.
    - fold fs. unfold post, st, r. destruct pk as [k|].
      + pose proof (entry_value _ _ _ _ _ _ (Hbp k eq_refl)) as Hv. cbn [app]. read_field.
        apply loop_finish; [unfold bs, pre; simpl; lengths|done].
      + apply loop_finish; [unfold bs, pre, post; simpl; lengths|done]. }
  rewrite split_bs. unfold pre, st in *. rewrite <- app_assoc, Hb1. clearbody r.
  destruct res, (str_nonempty msg); cbn [app] in *;
    repeat first [read_field | eapply (loop_field _ _ _ _ [_]); [autounfold with steps; by arms|simpl]];
    apply Hrest; rewrite ?Hb1; simpl; lengths.
Qed.

Lemma response_parts_codes : ∃ r, codes (key_response_data SK) m bs r.
Proof.
  exists (mkKeyResponseRef res msg (repeated_of KEY_RESPONSE_KEYS_TAG WireType.LengthDelimited
     (pre ++ fs ++ post ++ []) (run_offsets (length pre) KEY_RESPONSE_KEYS_BYTE bodies) (length bodies)) pk).
  assert (writes (match pk with
     | Some key => put (key_response_encoded_len SK m) KEY_RESPONSE_PRIMARY_KEY_BYTE ;;
                   emit keep (encode_length_delimited (scalar SK) key)
     | None => nothing end) post ∧
    bounded (match pk with
     | Some key => put (key_response_encoded_len SK m) KEY_RESPONSE_PRIMARY_KEY_BYTE ;;
                   emit keep (encode_length_delimited (scalar SK) key)
     | None => nothing end) post) as [Hpw Hpb].
  { unfold post. destruct pk as [k|]; [|split; [apply nothing_writes|apply nothing_bounded]].
    pose proof (entry_value _ _ _ _ _ _ (Hbp k eq_refl)) as Hv. split; [solve_writes|solve_bounded]. }
  eapply message_codes; [done|reflexivity| |unfold bs, fs; rewrite Hb1; solve_writes
    |unfold bs, fs; rewrite Hb1; solve_bounded| |]; cbn [from_ref encoded_len decode key_response_data].
  - unfold key_response_encoded_len, m. cbn [kres_result kres_message kres_keys kres_primary_key].
    rewrite <- (entries_length _ _ _ _ _ _ KEY_RESPONSE_KEYS_BYTE Hes), <- (value_len _ _ _ _ _ Hbm).
    unfold bs, fs, post. rewrite Hb1.
    destruct res, (str_nonempty msg), pk as [k|]; rewrite <- ?(entry_len (Hbp _ eq_refl)); lengths.
  - unfold key_response_from_ref. cbn [krr_keys]. unfold fs.
    rewrite (repeated_iter (scalar SK) _ _ _ pre bodies _ refs)
      by (done || (by eapply entries_bodies)). by rewrite (entries_collect _ _ _ _ _ _ Hes).
  - unfold key_response_decode. rewrite (decode_fields_eq _ key_response_progresses _ _ _ loop_bs), split_bs.
    simpl. destruct res, (str_nonempty msg) eqn:E; simpl; by rewrite ?(str_empty _ E).
Qed.
End response_parts.

Lemma key_response_codes m :
  fits_u32 (String.length (kres_message m)) → ∃ bs r, codes (key_response_data SK) m bs r.
Proof.
  destruct m as [res msg keys pk]. simpl. intros Hm. destruct (str_value _ Hm) as [bm Hbm].
  destruct (entries_exist (scalar SK) _ _ keys
    (Forall_true _ keys (λ k, match Hkey k with ex_intro _ bs Hk => ex_intro _ bs (ex_intro _ k Hk) end)))
    as (bodies & refs & Hes).
  assert (∃ bp, ∀ k, pk = Some k → codes_ld (scalar SK) k bp k) as [bp Hbp].
  { destruct pk as [k|]; [|by exists []]. destruct (Hkey k) as [bp Hk]. exists bp. by intros ? [= <-]. }
  eexists. by eapply response_parts_codes.
Qed.

End facts.
