(* ===== verification/CodecCoordinate.v ===== *)
(** * The codec of coordinates (types/coordinate.rs)

    A coordinate travels in the payload of memberlist's pings: its portion as
    a repeated field of [f64], then its error, adjustment and height.
    memberlist-proto's [f64] is the parameter [SF]. *)

From Stdlib Require Import ZArith Lia Strings.Byte SpecFloat.
From stdpp Require Import base list gmap strings.
From S2P Require Import Prelude Coordinate Types Core Delegate Wire.
Local Open Scope serf_scope.

(** What serf relies on of [f64]: eight bytes of their own wire type, which
    read back as the float they stand for. *)
Class F64Laws `{Wire} (SF : Scalar spec_float) : Prop := {
  f64_wire : sc_wire SF = WireType.Fixed64;
  f64_codes x : valid_binary F64.prec F64.emax x = true → ∃ bs, codes (scalar SF) x bs x;
  f64_skip x bs tag rest : codes (scalar SF) x bs x → (1 <= tag <= 7)%Z →
    skip (merge WireType.Fixed64 tag :: bs ++ rest) = Ok (S (length bs));
}.

Section coordinate.
Context `{Wire} (SF : Scalar spec_float).

Definition PORTION_TAG : Z := 1.
Definition ERROR_TAG : Z := 2.
Definition ADJUSTMENT_TAG : Z := 3.
Definition HEIGHT_TAG : Z := 4.
Definition PORTION_BYTE : byte := merge WireType.Fixed64 PORTION_TAG.
Definition ERROR_BYTE : byte := merge WireType.Fixed64 ERROR_TAG.
Definition ADJUSTMENT_BYTE : byte := merge WireType.Fixed64 ADJUSTMENT_TAG.
Definition HEIGHT_BYTE : byte := merge WireType.Fixed64 HEIGHT_TAG.

Record CoordinateRef : Type := mkCoordinateRef {
  cor_portion : RepeatedDecoder; cor_error : spec_float;
  cor_adjustment : spec_float; cor_height : spec_float }.

Record coordinate_vars : Type := mkCoordinateVars {
  cov_offsets : option (nat * nat); cov_num : nat; cov_error : option spec_float;
  cov_adjustment : option spec_float; cov_height : option spec_float }.

Definition coordinate_step (st : coordinate_vars) (off : nat) (b : byte) (tl : bytes)
  : Result (nat * coordinate_vars) DecodeError :=
  let 'mkCoordinateVars offs num err adj h := st in
  if decide (b = PORTION_BYTE) then
    try! (k, o) := tracked offs off b tl in
    Ok (k, mkCoordinateVars o (S num) err adj h)
  else if decide (b = ERROR_BYTE) then
    try! (k, v) := once err ERROR_TAG (sc_decode SF) tl in
    Ok (k, mkCoordinateVars offs num (Some v) adj h)
  else if decide (b = ADJUSTMENT_BYTE) then
    try! (k, v) := once adj ADJUSTMENT_TAG (sc_decode SF) tl in
    Ok (k, mkCoordinateVars offs num err (Some v) h)
  else if decide (b = HEIGHT_BYTE) then
    try! (k, v) := once h HEIGHT_TAG (sc_decode SF) tl in
    Ok (k, mkCoordinateVars offs num err adj (Some v))
  else skipped st b tl.

Definition coordinate_decode (buf : bytes) : Result (nat * CoordinateRef) DecodeError :=
  try! (offset, st) := decode_fields coordinate_step (mkCoordinateVars None 0 None None None) buf in
  try! err := required (cov_error st) in
  try! adj := required (cov_adjustment st) in
  try! h := required (cov_height st) in
  Ok (offset, mkCoordinateRef
    (repeated_of PORTION_TAG WireType.Fixed64 buf (cov_offsets st) (cov_num st)) err adj h).

Definition coordinate_from_ref (r : CoordinateRef) : Result Coordinate DecodeError :=
  try! portion := collect ((λ x, and_then x (from_ref (scalar SF))) <$> iter (scalar SF) (cor_portion r)) in
  Ok (mkCoordinate portion (cor_error r) (cor_adjustment r) (cor_height r)).

Definition coordinate_encoded_len (c : Coordinate) : nat :=
  sum_list ((λ x, 1 + encoded_len_with_length_delimited (scalar SF) x) <$> portion c)
  + 1 + sc_len SF (error c) + 1 + sc_len SF (adjustment c) + 1 + sc_len SF (height c).

Definition coordinate_encode (c : Coordinate) : nat → Result bytes EncodeError :=
  let len := coordinate_encoded_len c in
  run_writer
    (each (λ x, put len PORTION_BYTE ;; emit (updated len) (sc_encode SF x)) (portion c) ;;
     put len ERROR_BYTE ;; emit keep (sc_encode SF (error c)) ;;
     put len ADJUSTMENT_BYTE ;; emit keep (sc_encode SF (adjustment c)) ;;
     put len HEIGHT_BYTE ;; emit keep (sc_encode SF (height c))).

Definition coordinate_data : Data Coordinate :=
  mkData CoordinateRef WireType.LengthDelimited coordinate_from_ref
    coordinate_encoded_len coordinate_encode coordinate_decode.

(** What the delegate calls: a buffer of the announced length to write into,
    and [Data::decode] to an owned value. *)
Definition write_coordinate (c : Coordinate) : Result bytes EncodeError :=
  coordinate_encode c (coordinate_encoded_len c).
Definition read_coordinate (b : bytes) : Result Coordinate DecodeError :=
  try! (_, r) := coordinate_decode b in coordinate_from_ref r.

End coordinate.

#[export] Hint Unfold PORTION_TAG ERROR_TAG ADJUSTMENT_TAG HEIGHT_TAG
  PORTION_BYTE ERROR_BYTE ADJUSTMENT_BYTE HEIGHT_BYTE : tags.
#[export] Hint Unfold coordinate_step : steps.

Section facts.
Context `{WireLaws} (SF : Scalar spec_float) `{!F64Laws SF}.

Lemma coordinate_progresses : progresses (coordinate_step SF).
Proof. intros st off b tl k st' Hs. unfold coordinate_step in Hs. destruct st. step_progress. Qed.

Definition f64_fits (x : spec_float) : Prop := valid_binary F64.prec F64.emax x = true.

Definition coordinate_fits (c : Coordinate) : Prop :=
  Forall f64_fits (portion c) ∧ f64_fits (error c) ∧ f64_fits (adjustment c) ∧ f64_fits (height c).

Lemma f64_value x : f64_fits x → ∃ bs, value (sc_len SF x) (sc_encode SF x) (sc_decode SF) bs x.
Proof.
  intros Hx. destruct (f64_codes x Hx) as [bs Hc]. exists bs.
  apply (codes_value _ _ _ _) in Hc; [done|]. simpl. by rewrite f64_wire.
Qed.

(** A float of the portion: announced as a length-delimited value, written as
    it is. *)
Lemma f64_entry x : f64_fits x →
  ∃ bs r, entry (scalar SF) (encoded_len_with_length_delimited (scalar SF) x) (sc_encode SF x) x bs r.
Proof.
  intros Hx. destruct (f64_codes x Hx) as [bs Hc]. exists bs, x.
  pose proof Hc as [_ He Hr Hf _].
  assert (codes_ld (scalar SF) x bs x) as [Hl _ _ _ Hb].
  { apply ld_plain; simpl; [by rewrite f64_wire|done|].
    intros tag rest Ht. rewrite f64_wire. by eapply f64_skip. }
  by split.
Qed.

Lemma coordinate_codes c : coordinate_fits c → ∃ bs r, codes (coordinate_data SF) c bs r.
Proof.
  destruct c as [p er ad h]. intros (Hp & He & Ha & Hh); simpl in *.
  destruct (f64_value er He) as [be Hbe], (f64_value ad Ha) as [ba Hba], (f64_value h Hh) as [bh Hbh].
  destruct (entries_exist (scalar SF) _ _ p (Forall_impl _ _ _ Hp f64_entry)) as (bodies & refs & Hes).
  set (post := [ERROR_BYTE] ++ be ++ [ADJUSTMENT_BYTE] ++ ba ++ [HEIGHT_BYTE] ++ bh).
  set (bs := fields PORTION_BYTE bodies ++ post).
  exists bs, (mkCoordinateRef (repeated_of PORTION_TAG WireType.Fixed64 (bs ++ [])
     (run_offsets 0 PORTION_BYTE bodies) (length bodies)) er ad h).
  assert (bs ++ [] = [] ++ fields PORTION_BYTE bodies ++ post ++ []) as Hbs
    by (unfold bs; cbn [app]; by rewrite <- !app_assoc).
  eapply message_codes; [done|reflexivity| |unfold bs, post; solve_writes|unfold bs, post; solve_bounded| |];
    cbn [from_ref encoded_len decode coordinate_data].
  - unfold coordinate_encoded_len. cbn [portion error adjustment height].
    rewrite <- (value_len _ _ _ _ _ Hbe), <- (value_len _ _ _ _ _ Hba), <- (value_len _ _ _ _ _ Hbh).
    pose proof (entries_length _ _ _ _ _ _ PORTION_BYTE Hes). unfold bs, post. simpl in *. lengths.
  - unfold coordinate_from_ref. cbn [cor_portion cor_error cor_adjustment cor_height]. rewrite Hbs.
    rewrite (repeated_iter (scalar SF) _ _ _ [] bodies (post ++ []) refs)
      by (done || (by eapply entries_bodies) || (simpl; by rewrite f64_wire)).
    by rewrite (entries_collect _ _ _ _ _ _ Hes).
  - unfold coordinate_decode. rewrite (decode_fields_eq _ coordinate_progresses _ _
      (Ok (length bs, mkCoordinateVars (run_offsets 0 PORTION_BYTE bodies) (length bodies)
                        (Some er) (Some ad) (Some h)))); [done|].
    rewrite Hbs. cbn [app].
    eapply (loop_entries _ (λ o k, mkCoordinateVars o k None None None) _ _ _ _ _ _ PORTION_TAG _ _ _ _ Hes);
      [done|simpl; by rewrite f64_wire|intros; autounfold with steps; by arms|simpl].
    unfold bs, post. cbn [app]. rewrite <- !app_assoc. cbn [app].
    read_fields.
Qed.

(** C33: A ping carries the coordinate of the node that acks it, float for
    float: completing a ping with the payload another node answered updates
    the client with exactly that node's coordinate, and, when the update is
    accepted, caches it together with the new local one. *)
Theorem ping_carries_coordinate {I A} `{Countable I} `{Countable A} (powf : spec_float → spec_float → spec_float)
    (s t : Serf I A) (ps pt : CoordCore I) id rtt rnd1 rnd2 :
  coord_core s = Some ps → coord_core t = Some pt → coordinate_fits (get_coordinate (client pt)) →
  notify_ping_complete (read_coordinate SF) powf s id rtt
    (ack_payload (coordinate_encoded_len SF) (write_coordinate SF) t) rnd1 rnd2 =
  run! (cl, r) := Coordinate.update powf rnd1 rnd2 (client ps) id (get_coordinate (client pt)) rtt in
  Done (set_coord_core s (Some (mkCoordCore cl
    match r with
    | Ok _ => <[local_id s := get_coordinate cl]> (<[id := get_coordinate (client pt)]> (cache ps))
    | Err _ => cache ps
    end))).
Proof.
  intros Hs Ht Hc. set (c := get_coordinate (client pt)) in *.
  destruct (coordinate_codes c Hc) as (bs & r & Hcode).
  pose proof (codes_len _ _ _ _ Hcode) as Hl. simpl in Hl.
  assert (ack_payload (coordinate_encoded_len SF) (write_coordinate SF) t = PING_VERSION :: bs) as ->.
  { unfold ack_payload, write_coordinate. rewrite Ht. fold c. rewrite <- Hl.
    rewrite (codes_encode _ _ _ _ Hcode : ∀ n, _ → coordinate_encode SF c n = _) by done.
    by rewrite Nat.sub_diag, app_nil_r. }
  unfold notify_ping_complete. rewrite Hs, decide_True by done.
  assert (read_coordinate SF bs = Ok c) as ->.
  { unfold read_coordinate. pose proof (codes_decode _ _ _ _ Hcode [] (λ _, eq_refl)) as Hd.
    rewrite app_nil_r in Hd. simpl in Hd. rewrite Hd. apply (codes_from_ref _ _ _ _ Hcode). }
  by destruct (Coordinate.update _ _ _ _ _ _ _) as [[cl [v|e]]|].
Qed.

End facts.
