(* ===== verification/CodecMessage.v ===== *)
(** * Messages on the wire (types/message.rs)

    The envelope every message travels in, the relay envelope around it, and
    reading them.  [Encodable] is the trait of the same name: the tag byte,
    the length and the encoder of one message.  Its encoder fails with an
    [EncodeError], or, for a conflict response, with a [Fault]; the class
    [EncodeErr] lets the envelope be written once for both. *)

From Stdlib Require Import ZArith Lia Strings.Byte.
From stdpp Require Import base list gmap strings.
From S2P Require Import Prelude Types Wire CodecIntents CodecEvents CodecQuery.
From S2P Require Import CodecMember CodecPushPull CodecKeys CodecCoordinate.
Local Open Scope serf_scope.

Class EncodeErr (E : Type) : Type := {
  of_encode : EncodeError → E;
  map_encode : (EncodeError → EncodeError) → E → E;
}.

#[export] Instance plain_error : EncodeErr EncodeError := {|
  of_encode e := e; map_encode f e := f e |}.
#[export] Instance faulty_error : EncodeErr (Fault EncodeError) := {|
  of_encode := Failed;
  map_encode f e := match e with Failed e => Failed (f e) | Panicked => Panicked end |}.

Record Encodable (E : Type) : Type := mkEncodable {
  ID : byte; enc_len : nat; enc_encode : nat → Result bytes E }.
Arguments mkEncodable {E}.
Arguments ID {E} e : rename.
Arguments enc_len {E} e : rename.
Arguments enc_encode {E} e n : rename.

Section message.
Context `{Wire}.

Definition LEAVE_MESSAGE_TAG : Z := 1.
Definition JOIN_MESSAGE_TAG : Z := 2.
Definition PUSH_PULL_MESSAGE_TAG : Z := 3.
Definition USER_EVENT_MESSAGE_TAG : Z := 4.
Definition QUERY_MESSAGE_TAG : Z := 5.
Definition QUERY_RESPONSE_MESSAGE_TAG : Z := 6.
Definition CONFLICT_RESPONSE_MESSAGE_TAG : Z := 7.
Definition RELAY_MESSAGE_TAG : Z := 8.
Definition KEY_REQUEST_MESSAGE_TAG : Z := 9.
Definition KEY_RESPONSE_TAG : Z := 10.
Definition LEAVE_MESSAGE_BYTE : byte := merge WireType.LengthDelimited LEAVE_MESSAGE_TAG.
Definition JOIN_MESSAGE_BYTE : byte := merge WireType.LengthDelimited JOIN_MESSAGE_TAG.
Definition PUSH_PULL_MESSAGE_BYTE : byte := merge WireType.LengthDelimited PUSH_PULL_MESSAGE_TAG.
Definition USER_EVENT_MESSAGE_BYTE : byte := merge WireType.LengthDelimited USER_EVENT_MESSAGE_TAG.
Definition QUERY_MESSAGE_BYTE : byte := merge WireType.LengthDelimited QUERY_MESSAGE_TAG.
Definition QUERY_RESPONSE_MESSAGE_BYTE : byte :=
  merge WireType.LengthDelimited QUERY_RESPONSE_MESSAGE_TAG.
Definition CONFLICT_RESPONSE_MESSAGE_BYTE : byte :=
  merge WireType.LengthDelimited CONFLICT_RESPONSE_MESSAGE_TAG.
Definition RELAY_MESSAGE_BYTE : byte := merge WireType.LengthDelimited RELAY_MESSAGE_TAG.
Definition KEY_REQUEST_MESSAGE_BYTE : byte := merge WireType.LengthDelimited KEY_REQUEST_MESSAGE_TAG.
Definition KEY_RESPONSE_BYTE : byte := merge WireType.LengthDelimited KEY_RESPONSE_TAG.

Definition RELAY_NODE_TAG : Z := 1.
Definition RELAY_MSG_TAG : Z := 2.
Definition RELAY_NODE_BYTE : byte := merge WireType.LengthDelimited RELAY_NODE_TAG.
Definition RELAY_MSG_BYTE : byte := merge WireType.LengthDelimited RELAY_MSG_TAG.

(** ** Writing *)

Section encode.
Context {E : Type} `{EncodeErr E}.

(** The steps of a writer, over either kind of error. *)
Definition put_e (required : nat) (b : byte) (n : nat) (w : bytes) : Result bytes E :=
  if (n <=? length w)%nat then Err (of_encode (insufficient required n)) else Ok (w ++ [b]).

Definition emit_e (required : nat) (enc : nat → Result bytes E) (n : nat) (w : bytes) : Result bytes E :=
  match enc (n - length w)%nat with
  | Ok bs => Ok (w ++ bs)
  | Err e => Err (map_encode (λ e, updated required e n) e)
  end.

Definition plain_e (r : Result bytes EncodeError) : Result bytes E :=
  match r with Ok bs => Ok bs | Err e => Err (of_encode e) end.

Definition encoded_message_len (m : Encodable E) : nat :=
  1 + sc_len u32_data (as_u32 (enc_len m)) + enc_len m.

Definition encode_message (m : Encodable E) (n : nat) : Result bytes E :=
  let len := encoded_message_len m in
  try! w := put_e len (ID m) n [] in
  if (u32_modulus - 1 <? Z.of_nat (enc_len m))%Z then Err (of_encode TooLarge)
  else
    try! w := emit_e len (λ n, plain_e (sc_encode u32_data (as_u32 (enc_len m)) n)) n w in
    emit_e len (enc_encode m) n w.

(** [vec![0; len]] is handed out whole. *)
Definition encode_message_to_bytes (m : Encodable E) : Result bytes E :=
  let len := encoded_message_len m in
  try! w := encode_message m len in
  Ok (w ++ replicate (len - length w) x00).

Context {I A : Type} (DI : Data I) (DA : Data A).

Definition encoded_relay_message_len (m : Encodable E) (nd : Node I A) : nat :=
  1 + 1 + encoded_len_with_length_delimited (node_data DI DA) nd + 1
  + (1 + sc_len u32_data (as_u32 (enc_len m)) + enc_len m).

Definition encode_relay_message (m : Encodable E) (nd : Node I A) (n : nat) : Result bytes E :=
  let len := encoded_relay_message_len m nd in
  try! w := put_e len RELAY_MESSAGE_BYTE n [] in
  try! w := put_e len RELAY_NODE_BYTE n w in
  try! w := emit_e len (λ n, plain_e (encode_length_delimited (node_data DI DA) nd n)) n w in
  try! w := put_e len RELAY_MSG_BYTE n w in
  try! w := put_e len (ID m) n w in
  if (u32_modulus - 1 <? Z.of_nat (enc_len m))%Z then Err (of_encode TooLarge)
  else
    try! w := emit_e len (λ n, plain_e (sc_encode u32_data (as_u32 (enc_len m)) n)) n w in
    emit_e len (enc_encode m) n w.

Definition encode_relay_message_to_bytes (m : Encodable E) (nd : Node I A) : Result bytes E :=
  let len := encoded_relay_message_len m nd in
  try! w := encode_relay_message m nd len in
  Ok (w ++ replicate (len - length w) x00).

End encode.

(** ** What can be written *)

Context {I A R K : Type} `{EqDecision I} `{Regex R} (DI : Data I) (DA : Data A) (SK : Scalar K).

Definition leave_encodable (m : LeaveMessage I) : Encodable EncodeError :=
  mkEncodable LEAVE_MESSAGE_BYTE (leave_encoded_len DI m) (leave_encode DI m).
Definition join_encodable (m : JoinMessage I) : Encodable EncodeError :=
  mkEncodable JOIN_MESSAGE_BYTE (join_encoded_len DI m) (join_encode DI m).
Definition user_event_encodable (m : UserEventMessage) : Encodable EncodeError :=
  mkEncodable USER_EVENT_MESSAGE_BYTE (uem_encoded_len m) (uem_encode m).
Definition query_encodable (m : QueryMessage I A R) : Encodable EncodeError :=
  mkEncodable QUERY_MESSAGE_BYTE (query_encoded_len DI DA m) (query_encode DI DA m).
Definition response_encodable (m : QueryResponseMessage I A) : Encodable EncodeError :=
  mkEncodable QUERY_RESPONSE_MESSAGE_BYTE (response_encoded_len DI DA m) (response_encode DI DA m).
Definition push_pull_encodable (m : PushPullMessage I) : Encodable EncodeError :=
  mkEncodable PUSH_PULL_MESSAGE_BYTE (push_pull_encoded_len DI m) (push_pull_encode DI m).
Definition push_pull_borrow_encodable (m : PushPullBorrow (I := I)) : Encodable EncodeError :=
  mkEncodable PUSH_PULL_MESSAGE_BYTE (push_pull_borrow_encoded_len DI m) (push_pull_borrow_encode DI m).
Definition conflict_encodable (m : Member I A) : Encodable (Fault EncodeError) :=
  mkEncodable CONFLICT_RESPONSE_MESSAGE_BYTE (conflict_encoded_len DI DA m) (conflict_encode DI DA m).
Definition key_request_encodable (m : KeyRequestMessage K) : Encodable EncodeError :=
  mkEncodable KEY_REQUEST_MESSAGE_BYTE (key_request_encoded_len SK m) (key_request_encode SK m).
Definition key_response_encodable (m : KeyResponseMessage K) : Encodable EncodeError :=
  mkEncodable KEY_RESPONSE_BYTE (key_response_encoded_len SK m) (key_response_encode SK m).

(** ** Reading *)

Inductive MessageWire : Type :=
| WLeave (m : LeaveMessage (Ref DI))
| WJoin (m : JoinMessage (Ref DI))
| WPushPull (m : PushPullRef)
| WUserEvent (m : UserEventMessage)
| WQuery (m : QueryWire DI DA)
| WQueryResponse (m : QueryResponseWire DI DA)
| WConflictResponse (m : MemberRef DI DA)
| WRelay (nd : Node (Ref DI) (Ref DA)) (payload_offset : nat) (payload : bytes)
| WKeyRequest (m : KeyRequestMessage K)
| WKeyResponse (m : KeyResponseRef (K := K)).

Definition message_ty (m : MessageWire) : MessageType.t :=
  match m with
  | WLeave _ => MessageType.Leave
  | WJoin _ => MessageType.Join
  | WPushPull _ => MessageType.PushPull
  | WUserEvent _ => MessageType.UserEvent
  | WQuery _ => MessageType.Query
  | WQueryResponse _ => MessageType.QueryResponse
  | WConflictResponse _ => MessageType.ConflictResponse
  | WRelay _ _ _ => MessageType.Relay
  | WKeyRequest _ => MessageType.KeyRequest
  | WKeyResponse _ => MessageType.KeyResponse
  end.

Record relay_vars : Type := mkRelayVars {
  rlv_node : option (Node (Ref DI) (Ref DA)); rlv_msg : option bytes }.

(** The payload is the message with its own tag and length; the slice
    [&buf[start_offset..offset]] is taken without a check. *)
Definition relay_step (st : relay_vars) (off : nat) (b : byte) (tl : bytes)
  : Result (nat * relay_vars) (Fault DecodeError) :=
  if decide (b = RELAY_NODE_BYTE) then
    try! (k, v) := lift (once (rlv_node st) RELAY_NODE_TAG
                           (decode_length_delimited (node_data DI DA)) tl) in
    Ok (k, mkRelayVars (Some v) (rlv_msg st))
  else if decide (b = RELAY_MSG_BYTE) then
    match rlv_msg st with
    | Some _ => Err (Failed (DuplicateField RELAY_MSG_TAG))
    | None =>
        if (length tl <? 2)%nat then Err (Failed BufferUnderflow)
        else
          try! (read, len) := lift (sc_decode u32_data (tail tl)) in
          if (Z.of_nat (length tl) <? Z.of_nat (1 + read) + len)%Z then Err Panicked
          else
            let size := (1 + read + Z.to_nat len)%nat in
            Ok (S size, mkRelayVars (rlv_node st) (Some (take size tl)))
    end
  else lift (skipped st b tl).

Definition decode_relay (buf : bytes)
  : Result (nat * (Node (Ref DI) (Ref DA) * bytes)) (Fault DecodeError) :=
  try! (offset, st) := decode_fields_panicking relay_step (mkRelayVars None None) buf in
  try! nd := lift (required (rlv_node st)) in
  Ok (offset, (nd, default [] (rlv_msg st))).

Definition message_step (st : option MessageWire) (off : nat) (b : byte) (tl : bytes)
  : Result (nat * option MessageWire) (Fault DecodeError) :=
  if decide (b = LEAVE_MESSAGE_BYTE) then
    try! (k, v) := lift (once st LEAVE_MESSAGE_TAG (decode_length_delimited (leave_data DI)) tl) in
    Ok (k, Some (WLeave v))
  else if decide (b = JOIN_MESSAGE_BYTE) then
    try! (k, v) := lift (once st JOIN_MESSAGE_TAG (decode_length_delimited (join_data DI)) tl) in
    Ok (k, Some (WJoin v))
  else if decide (b = PUSH_PULL_MESSAGE_BYTE) then
    try! (k, v) := lift (once st PUSH_PULL_MESSAGE_TAG (decode_length_delimited (push_pull_data DI)) tl) in
    Ok (k, Some (WPushPull v))
  else if decide (b = USER_EVENT_MESSAGE_BYTE) then
    try! (k, v) := lift (once st USER_EVENT_MESSAGE_TAG (decode_length_delimited uem_data) tl) in
    Ok (k, Some (WUserEvent v))
  else if decide (b = QUERY_MESSAGE_BYTE) then
    try! (k, v) := lift (once st QUERY_MESSAGE_TAG
                           (decode_length_delimited (query_data (R := R) DI DA)) tl) in
    Ok (k, Some (WQuery v))
  else if decide (b = QUERY_RESPONSE_MESSAGE_BYTE) then
    try! (k, v) := lift (once st QUERY_RESPONSE_MESSAGE_TAG
                           (decode_length_delimited (response_data DI DA)) tl) in
    Ok (k, Some (WQueryResponse v))
  else if decide (b = CONFLICT_RESPONSE_MESSAGE_BYTE) then
    match st with
    | Some _ => Err (Failed (DuplicateField CONFLICT_RESPONSE_MESSAGE_TAG))
    | None =>
        try! (k, v) := decode_length_delimited_panicking (conflict_decode DI DA) tl in
        Ok (S k, Some (WConflictResponse v))
    end
  else if decide (b = RELAY_MESSAGE_BYTE) then
    match st with
    | Some _ => Err (Failed (DuplicateField RELAY_MESSAGE_TAG))
    | None =>
        try! (readed, (nd, payload)) := decode_relay tl in
        Ok (S readed, Some (WRelay nd (off + S readed - length payload) payload))
    end
  else if decide (b = KEY_REQUEST_MESSAGE_BYTE) then
    try! (k, v) := lift (once st KEY_REQUEST_MESSAGE_TAG (decode_length_delimited (key_request_data SK)) tl) in
    Ok (k, Some (WKeyRequest v))
  else if decide (b = KEY_RESPONSE_BYTE) then
    try! (k, v) := lift (once st KEY_RESPONSE_TAG (decode_length_delimited (key_response_data SK)) tl) in
    Ok (k, Some (WKeyResponse v))
  else lift (skipped st b tl).

Definition decode_message (buf : bytes) : Result MessageWire (Fault DecodeError) :=
  try! (_, st) := decode_fields_panicking message_step None buf in
  lift (required st).

End message.

#[export] Hint Unfold LEAVE_MESSAGE_TAG JOIN_MESSAGE_TAG PUSH_PULL_MESSAGE_TAG
  USER_EVENT_MESSAGE_TAG QUERY_MESSAGE_TAG QUERY_RESPONSE_MESSAGE_TAG
  CONFLICT_RESPONSE_MESSAGE_TAG RELAY_MESSAGE_TAG KEY_REQUEST_MESSAGE_TAG KEY_RESPONSE_TAG
  LEAVE_MESSAGE_BYTE JOIN_MESSAGE_BYTE PUSH_PULL_MESSAGE_BYTE USER_EVENT_MESSAGE_BYTE
  QUERY_MESSAGE_BYTE QUERY_RESPONSE_MESSAGE_BYTE CONFLICT_RESPONSE_MESSAGE_BYTE
  RELAY_MESSAGE_BYTE KEY_REQUEST_MESSAGE_BYTE KEY_RESPONSE_BYTE
  RELAY_NODE_TAG RELAY_MSG_TAG RELAY_NODE_BYTE RELAY_MSG_BYTE : tags.
#[export] Hint Unfold relay_step message_step : steps.

#[local] Arguments once : simpl never.

Section facts.
Context `{WireLaws}.

Lemma as_u32_small n : fits_u32 n → as_u32 n = Z.of_nat n.
Proof. intros Hn. apply Z.mod_small. unfold fits_u32 in Hn. lia. Qed.

Lemma put_e_ok {E} `{EncodeErr E} len b n w :
  length w < n → put_e (E := E) len b n w = Ok (w ++ [b]).
Proof. intros Hn. unfold put_e. by rewrite (proj2 (Nat.leb_gt _ _)) by lia. Qed.

Lemma emit_e_ok {E} `{EncodeErr E} len (enc : nat → Result bytes E) bs n w :
  (∀ n, length bs ≤ n → enc n = Ok bs) → length w + length bs ≤ n →
  emit_e len enc n w = Ok (w ++ bs).
Proof. intros Henc Hn. unfold emit_e. by rewrite Henc by lia. Qed.

(** A message that encodes itself as [bs] travels as its tag, its length and
    [bs], and fills its buffer. *)
Lemma envelope {E} `{EncodeErr E} (m : Encodable E) bs :
  (∀ n, length bs ≤ n → enc_encode m n = Ok bs) → enc_len m = length bs → fits_u32 (length bs) →
  ∃ pre, codes (scalar u32_data) (Z.of_nat (length bs)) pre (Z.of_nat (length bs)) ∧
    encoded_message_len m = length ([ID m] ++ pre ++ bs) ∧
    (∀ n, length ([ID m] ++ pre ++ bs) ≤ n → encode_message m n = Ok ([ID m] ++ pre ++ bs)) ∧
    encode_message_to_bytes m = Ok ([ID m] ++ pre ++ bs).
Proof.
  intros Henc Hlen Hfit. destruct (u32_codes (Z.of_nat (length bs))) as [pre Hpre].
  { unfold fits_u32 in Hfit. lia. }
  assert (encoded_message_len m = length ([ID m] ++ pre ++ bs)) as Hl.
  { unfold encoded_message_len. rewrite Hlen, as_u32_small by done.
    pose proof (codes_len _ _ _ _ Hpre) as Hp. simpl in *. rewrite length_app. lia. }
  assert (∀ n, length ([ID m] ++ pre ++ bs) ≤ n → encode_message m n = Ok ([ID m] ++ pre ++ bs)) as He.
  { intros n Hn. rewrite length_app in Hn. simpl in Hn. rewrite length_app in Hn.
    unfold encode_message. rewrite put_e_ok by (simpl; lia).
    unfold fits_u32 in Hfit. rewrite (proj2 (Z.ltb_ge _ _)) by lia.
    rewrite (emit_e_ok _ _ pre); [| |simpl; lia].
    - rewrite (emit_e_ok _ _ bs); [|done|rewrite length_app; simpl; lia]. by rewrite <- app_assoc.
    - intros k Hk. rewrite Hlen, as_u32_small by done. unfold plain_e.
      by rewrite (codes_encode _ _ _ _ Hpre : ∀ n, _ → sc_encode u32_data _ n = _). }
  exists pre. split_and!; [done..|].
  unfold encode_message_to_bytes. rewrite Hl, He by done.
  by rewrite Nat.sub_diag, app_nil_r.
Qed.

Context {I A R K : Type} `{EqDecision I} `{RegexLaws R} (DI : Data I) (DA : Data A) (SK : Scalar K).

Abbreviation step := (message_step (R := R) DI DA SK).
Abbreviation read := (decode_message (R := R) DI DA SK).

Lemma relay_progresses : progresses (relay_step DI DA).
Proof.
  intros st off b tl k st' Hs. unfold relay_step in Hs.
  repeat (case_decide || case_match); simplify_eq; try lia.
  - eapply once_progress, lift_ok. eassumption.
  - apply lift_ok in Hs. by eapply skipped_progress.
Qed.

Lemma message_progresses : progresses step.
Proof.
  intros st off b tl k st' Hs. unfold message_step in Hs.
  repeat (case_decide || case_match); simplify_eq; try lia;
    try (by eapply once_progress, lift_ok).
  apply lift_ok in Hs. by eapply skipped_progress.
Qed.

(** One message, read by the arm of its tag. *)
Lemma read_one b body w :
  step None 0 b (body ++ []) = Ok (S (length body), Some w) → read (b :: body) = Ok w.
Proof.
  intros Hs. unfold decode_message.
  rewrite (decode_fields_panicking_eq _ message_progresses _ _ (Ok (S (length body), Some w)));
    [done|].
  rewrite <- (app_nil_r body) at 1. eapply loop_field; [exact Hs|by apply loop_finish].
Qed.

(** A message of a type that does not panic, there and back. *)
Lemma envelope_roundtrip {T} (D : Data T) (v : T) bs r b tag (W : Ref D → MessageWire (K := K) DI DA) :
  WIRE_TYPE D = WireType.LengthDelimited → codes D v bs r → fits_u32 (encoded_len D v) →
  (∀ tl, step None 0 b tl =
     try! (k, v) := lift (once (A := MessageWire (K := K) DI DA) None tag (decode_length_delimited D) tl) in
     Ok (k, Some (W v))) →
  let m := mkEncodable b (encoded_len D v) (encode D v) in
  ∃ out, encode_message_to_bytes m = Ok out ∧ length out = encoded_message_len m ∧
    read out = Ok (W r).
Proof.
  intros Hw Hc Hfit Hstep m. rewrite <- (codes_len _ _ _ _ Hc) in Hfit.
  destruct (envelope m bs (codes_encode _ _ _ _ Hc)) as (pre & Hpre & Hl & _ & Hout);
    [symmetry; apply (codes_len _ _ _ _ Hc)|done|].
  destruct (ld_delimited D v bs r Hw Hc Hfit) as (pre' & Hpre' & Hld).
  assert (pre' = pre) as ->.
  { pose proof (codes_encode _ _ _ _ Hpre' (length pre + length pre') ltac:(lia)) as E1.
    pose proof (codes_encode _ _ _ _ Hpre (length pre + length pre') ltac:(lia)) as E2. congruence. }
  eexists. split_and!; [exact Hout|done|]. cbn [app]. apply read_one. rewrite Hstep.
  rewrite (once_ok _ _ (pre ++ bs) r) by apply (body_decode _ _ _ (entry_body Hld)). done.
Qed.

Lemma envelope_stands {T} (D : Data T) (v : T) b tag (W : Ref D → MessageWire (K := K) DI DA)
    (P : MessageWire (K := K) DI DA → Prop) :
  WIRE_TYPE D = WireType.LengthDelimited → (∃ bs r, codes D v bs r) → fits_u32 (encoded_len D v) →
  (∀ tl, step None 0 b tl =
     try! (k, v) := lift (once (A := MessageWire (K := K) DI DA) None tag (decode_length_delimited D) tl) in
     Ok (k, Some (W v))) →
  (∀ r, from_ref D r = Ok v → P (W r)) →
  ∃ out w, encode_message_to_bytes (mkEncodable b (encoded_len D v) (encode D v)) = Ok out ∧
    length out = encoded_message_len (mkEncodable b (encoded_len D v) (encode D v)) ∧
    read out = Ok w ∧ P w.
Proof.
  intros Hw (bs & r & Hc) Hfit Hstep HP.
  destruct (envelope_roundtrip D v bs r b tag W Hw Hc Hfit Hstep) as (out & Ho & Hl & Hr).
  exists out, (W r). split_and!; [done..|]. apply HP, (codes_from_ref _ _ _ _ Hc).
Qed.

(** ** Round trips *)

Definition message_encodable (m : Message I A R) : Encodable EncodeError :=
  match m with
  | MLeave m => leave_encodable DI m
  | MJoin m => join_encodable DI m
  | MPushPull m => push_pull_encodable DI m
  | MUserEvent m => user_event_encodable m
  | MQuery m => query_encodable DI DA m
  | MQueryResponse m => response_encodable DI DA m
  end.

(** A node whose id and address encode themselves. *)
Definition node_fits (nd : Node I A) : Prop :=
  ∃ bs r, codes_ld (node_data DI DA) nd bs r.

Definition message_fits (m : Message I A R) : Prop :=
  fits_u32 (enc_len (message_encodable m)) ∧
  match m with
  | MLeave m => is_u64 (leave_ltime m) ∧ ∃ bs r, codes_ld DI (leave_id m) bs r
  | MJoin m => is_u64 (join_ltime m) ∧ ∃ bs r, codes_ld DI (join_id m) bs r
  | MPushPull m => push_pull_fits DI m
  | MUserEvent m =>
      is_u64 (uem_ltime m) ∧ fits_u32 (String.length (uem_name m)) ∧ fits_u32 (length (uem_payload m))
  | MQuery m => query_fits DI DA m
  | MQueryResponse m =>
      is_u64 (r_ltime m) ∧ (0 <= r_id m < u32_modulus)%Z ∧ (0 <= r_flags m < u32_modulus)%Z ∧
      fits_u32 (length (r_payload m)) ∧ node_fits (r_from m)
  end.

(** What a decoded message is, once it is converted to owned values. *)
Definition stands_for (w : MessageWire (K := K) DI DA) (m : Message I A R) : Prop :=
  match w, m with
  | WLeave _ _ r, MLeave m => leave_from_ref DI r = Ok m
  | WJoin _ _ r, MJoin m => join_from_ref DI r = Ok m
  | WPushPull _ _ r, MPushPull m => push_pull_from_ref DI r = Ok m
  | WUserEvent _ _ r, MUserEvent m => uem_from_ref r = Ok m
  | WQuery _ _ r, MQuery m => query_from_ref DI DA r = Ok m
  | WQueryResponse _ _ r, MQueryResponse m => response_from_ref DI DA r = Ok m
  | _, _ => False
  end.

(** A message written into the buffer announced for it reads back as one that
    stands for it. *)
Lemma message_reads_back m :
  message_fits m →
  ∃ out w, encode_message_to_bytes (message_encodable m) = Ok out ∧
    length out = encoded_message_len (message_encodable m) ∧
    read out = Ok w ∧ stands_for w m.
Proof.
  intros [Hfit Hm]. destruct m as [m|m|m|m|m|m]; cbn [message_encodable] in *.
  - destruct Hm as (Ht & bi & ri & Hid). destruct (leave_codes DI m bi ri Ht Hid) as [bs Hc].
    by apply (envelope_stands (leave_data DI) m _ LEAVE_MESSAGE_TAG (WLeave DI DA)); eauto;
      intros; autounfold with steps; arms.
  - destruct Hm as (Ht & bi & ri & Hid). destruct (join_codes DI m bi ri Ht Hid) as [bs Hc].
    by apply (envelope_stands (join_data DI) m _ JOIN_MESSAGE_TAG (WJoin DI DA)); eauto;
      intros; autounfold with steps; arms.
  - by apply (envelope_stands (push_pull_data DI) m _ PUSH_PULL_MESSAGE_TAG (WPushPull DI DA));
      [| apply push_pull_codes | | intros; autounfold with steps; arms | ].
  - destruct Hm as (Ht & Hn & Hp). destruct (uem_codes m Ht Hn Hp) as [bs Hc].
    by apply (envelope_stands uem_data m _ USER_EVENT_MESSAGE_TAG (WUserEvent DI DA)); eauto;
      intros; autounfold with steps; arms.
  - by apply (envelope_stands (query_data DI DA) m _ QUERY_MESSAGE_TAG (WQuery DI DA));
      [| apply query_codes | | intros; autounfold with steps; arms | ].
  - destruct Hm as (Ht & Hi & Hf & Hp & bf & rf & Hn).
    destruct (response_codes DI DA m bf rf Ht Hi Hf Hp Hn) as [bs Hc].
    by apply (envelope_stands (response_data DI DA) m _ QUERY_RESPONSE_MESSAGE_TAG (WQueryResponse DI DA));
      eauto; intros; autounfold with steps; arms.
Qed.

(** Every message a node broadcasts or sends reads back as itself: an
    encodable message is written into a buffer of exactly the length announced
    for it, and [decode_message] of those bytes yields a message that stands
    for it, whatever its kind. *)
Theorem message_roundtrip m :
  message_fits m →
  ∃ out w, encode_message_to_bytes (message_encodable m) = Ok out ∧
    length out = encoded_message_len (message_encodable m) ∧
    read out = Ok w ∧ stands_for w m.
Proof. apply message_reads_back. Qed.

(** A conflict response, the one message whose codec can panic, is
    written without a panic into the buffer allocated for it, and reads back
    as the member it carries. *)
Lemma conflict_reads_back m :
  member_fits DI DA m → fits_u32 (member_encoded_len DI DA m) →
  fits_u32 (conflict_encoded_len DI DA m) →
  ∃ out r, encode_message_to_bytes (conflict_encodable DI DA m) = Ok out ∧
    length out = encoded_message_len (conflict_encodable DI DA m) ∧
    read out = Ok (WConflictResponse DI DA r) ∧ conflict_from_ref DI DA r = Ok m.
Proof.
  intros Hm Hf1 Hf2. destruct (conflict_codes DI DA m Hm Hf1) as (bs & r & Hl & He & Hr & Hd).
  rewrite <- Hl in Hf2.
  destruct (envelope (conflict_encodable DI DA m) bs He (eq_sym Hl) Hf2) as (pre & Hpre & Hlen & _ & Ho).
  eexists _, r. split_and!; [exact Ho|by rewrite Hlen| |exact Hr].
  cbn [app ID conflict_encodable]. apply read_one. autounfold with steps. arms.
  rewrite app_nil_r. rewrite <- (app_nil_r bs) at 1. rewrite decode_ld_panicking by done.
  rewrite Hd. by rewrite length_app.
Qed.

(** The relay envelope around a message that encodes itself as [bs]. *)
Lemma relay_envelope {E} `{EncodeErr E} (m : Encodable E) nd bs bn rn pre n :
  (∀ n, length bs ≤ n → enc_encode m n = Ok bs) → enc_len m = length bs → fits_u32 (length bs) →
  codes_ld (node_data DI DA) nd bn rn →
  codes (scalar u32_data) (Z.of_nat (length bs)) pre (Z.of_nat (length bs)) →
  let out := [RELAY_MESSAGE_BYTE] ++ [RELAY_NODE_BYTE] ++ bn ++ [RELAY_MSG_BYTE] ++ [ID m] ++ pre ++ bs in
  encoded_relay_message_len DI DA m nd = length out ∧
  (length out ≤ n → encode_relay_message DI DA m nd n = Ok out).
Proof.
  intros Henc Hlen Hfit Hn Hpre out. split.
  - unfold encoded_relay_message_len. rewrite Hlen, as_u32_small by done.
    rewrite <- (entry_len Hn). pose proof (codes_len _ _ _ _ Hpre) as Hp. simpl in Hp. rewrite <- Hp.
    unfold out. lengths.
  - intros Hle. assert (length bn + length pre + length bs + 4 ≤ n) as Hsum
      by (revert Hle; unfold out; repeat (rewrite length_app; simpl); lia).
    unfold fits_u32 in Hfit. unfold encode_relay_message.
    rewrite !put_e_ok by (simpl; lia).
    rewrite (emit_e_ok _ _ bn); [|intros k Hk; unfold plain_e; by rewrite (entry_encode Hn)|simpl; lia].
    rewrite !put_e_ok by (repeat (rewrite length_app; simpl); lia).
    rewrite (proj2 (Z.ltb_ge _ _)) by lia.
    rewrite (emit_e_ok _ _ pre); [| |repeat (rewrite length_app; simpl); lia].
    + rewrite (emit_e_ok _ _ bs); [|done|repeat (rewrite length_app; simpl); lia].
      unfold out. by rewrite <- !app_assoc.
    + intros k Hk. rewrite Hlen, as_u32_small by done. unfold plain_e.
      by rewrite (codes_encode _ _ _ _ Hpre : ∀ n, _ → sc_encode u32_data _ n = _).
Qed.

Lemma u32_prefix v pre rest :
  codes (scalar u32_data) v pre v → sc_decode u32_data (pre ++ rest) = Ok (length pre, v).
Proof.
  intros Hc. apply (codes_decode _ _ _ _ Hc). simpl.
  by rewrite (proj1 (proj2 scalar_wire)).
Qed.

(** A length is never written as nothing. *)
Lemma u32_nonempty v pre : codes (scalar u32_data) v pre v → 1 ≤ length pre.
Proof.
  intros Hc. destruct pre as [|x pre]; [|simpl; lia]. exfalso.
  destruct (u32_codes (if decide (v = 0) then 1 else 0)%Z) as [bs Hbs]; [case_decide; unfold u32_modulus; lia|].
  pose proof (u32_prefix _ _ bs Hc) as H1'. pose proof (u32_prefix _ _ [] Hbs) as H2'.
  rewrite app_nil_r in H2'. simpl in H1'. rewrite H1' in H2'. simplify_eq. case_decide; lia.
Qed.

(** Reading the inside of a relay envelope. *)
Lemma decode_relay_ok bn rn nd id pre bs :
  codes_ld (node_data DI DA) nd bn rn →
  codes (scalar u32_data) (Z.of_nat (length bs)) pre (Z.of_nat (length bs)) →
  let payload := id :: pre ++ bs in
  let buf := RELAY_NODE_BYTE :: bn ++ RELAY_MSG_BYTE :: payload in
  decode_relay DI DA buf = Ok (length buf, (rn, payload)).
Proof.
  intros Hn Hpre payload buf. pose proof (entry_value _ _ _ _ _ _ Hn) as Hv.
  pose proof (u32_nonempty _ _ Hpre) as Hpos.
  unfold decode_relay. rewrite (decode_fields_panicking_eq _ relay_progresses _ _
    (Ok (length buf, mkRelayVars DI DA (Some rn) (Some payload)))); [done|].
  unfold buf. rewrite <- (app_nil_r payload) at 1. read_field.
  change (id :: (pre ++ bs) ++ []) with (payload ++ []).
  eapply (loop_field _ _ _ _ payload); [|apply loop_finish; [unfold payload; simpl; lengths|done]].
  autounfold with steps. arms. cbn [rlv_msg rlv_node]. rewrite app_nil_r.
  assert (length payload = 1 + length pre + length bs)%nat as Hlp by (unfold payload; simpl; lengths).
  rewrite (proj2 (Nat.ltb_ge _ _)) by lia. unfold payload at 1. cbn [tail].
  rewrite (u32_prefix _ _ _ Hpre). cbn [lift].
  rewrite (proj2 (Z.ltb_ge _ _)) by lia. rewrite Nat2Z.id.
  replace (1 + length pre + length bs) with (length payload) by lia. by rewrite firstn_all.
Qed.

(** The relay envelope of anything that encodes itself reads back as the node
    to relay to and, as its payload, the bytes it is sent with directly, at
    the offset recorded for them. *)
Lemma relay_carries {E} `{EncodeErr E} (m : Encodable E) nd bs :
  (∀ n, length bs ≤ n → enc_encode m n = Ok bs) → enc_len m = length bs → fits_u32 (length bs) →
  node_fits nd →
  ∃ out rn payload off,
    encode_relay_message_to_bytes DI DA m nd = Ok out ∧
    length out = encoded_relay_message_len DI DA m nd ∧
    read out = Ok (WRelay DI DA rn off payload) ∧ node_from_ref DI DA rn = Ok nd ∧
    encode_message_to_bytes m = Ok payload ∧
    drop off out = payload.
Proof.
  intros Henc Hl Hfit (bn & rn & Hn).
  destruct (envelope m bs Henc Hl Hfit) as (pre & Hpre & Hml & _ & Ho).
  set (payload := [ID m] ++ pre ++ bs) in *.
  set (out := [RELAY_MESSAGE_BYTE] ++ [RELAY_NODE_BYTE] ++ bn ++ [RELAY_MSG_BYTE] ++ payload).
  destruct (relay_envelope m nd bs bn rn pre (length out) Henc Hl Hfit Hn Hpre) as [Hrl Hre].
  change (encoded_relay_message_len DI DA m nd = length out) in Hrl.
  change (length out ≤ length out → encode_relay_message DI DA m nd (length out) = Ok out) in Hre.
  exists out, rn, payload, (length out - length payload). split_and!.
  - unfold encode_relay_message_to_bytes. rewrite Hrl, Hre by done.
    by rewrite Nat.sub_diag, app_nil_r.
  - by rewrite Hrl.
  - apply read_one. autounfold with steps. arms.
    rewrite app_nil_r. cbn [app]. unfold payload at 1. cbn [app].
    rewrite (decode_relay_ok bn rn nd _ pre bs Hn Hpre).
    unfold out, payload. cbn [app]. do 3 f_equal.
  - apply (entry_from_ref Hn).
  - exact Ho.
  - unfold out. rewrite !app_assoc, length_app, Nat.add_sub. by rewrite drop_app_length.
Qed.

Lemma relay_reads_back m nd :
  message_fits (MQueryResponse m) → node_fits nd →
  ∃ out rn payload off,
    encode_relay_message_to_bytes DI DA (response_encodable DI DA m) nd = Ok out ∧
    length out = encoded_relay_message_len DI DA (response_encodable DI DA m) nd ∧
    read out = Ok (WRelay DI DA rn off payload) ∧ node_from_ref DI DA rn = Ok nd ∧
    encode_message_to_bytes (response_encodable DI DA m) = Ok payload ∧
    drop off out = payload.
Proof.
  intros [Hfit (Ht & Hi & Hf & Hp & bf & rf & Hnd)].
  destruct (response_codes DI DA m bf rf Ht Hi Hf Hp Hnd) as [bs Hc].
  pose proof (codes_len _ _ _ _ Hc) as Hl. simpl in Hl, Hfit. rewrite <- Hl in Hfit.
  by apply (relay_carries (response_encodable DI DA m) nd bs (codes_encode _ _ _ _ Hc)).
Qed.

(** A relay envelope whose inner length runs past the packet makes
    [decode_message] panic, whoever sent it: the slice that takes the payload
    out is not checked. *)
Theorem relay_overrun_panics (len : Z) id pre rest :
  (0 <= len < u32_modulus)%Z → codes (scalar u32_data) len pre len →
  (Z.of_nat (length rest) < len)%Z → 1 ≤ length (pre ++ rest) →
  read (RELAY_MESSAGE_BYTE :: RELAY_MSG_BYTE :: id :: pre ++ rest) = Err Panicked.
Proof.
  intros Hlen Hpre Hshort Hsome. unfold decode_message.
  rewrite (decode_fields_panicking_eq _ message_progresses _ _ (Err Panicked)); [done|].
  apply loop_fail. autounfold with steps. arms. unfold decode_relay.
  rewrite (decode_fields_panicking_eq _ relay_progresses _ _ (Err Panicked)); [done|].
  apply loop_fail. autounfold with steps. arms. cbn [rlv_msg].
  rewrite (proj2 (Nat.ltb_ge _ _)) by (simpl; lia). cbn [tail]. rewrite (u32_prefix _ _ _ Hpre).
  cbn [lift]. rewrite (proj2 (Z.ltb_lt _ _)); [done|].
  change (length (id :: pre ++ rest)) with (S (length (pre ++ rest))). rewrite length_app. lia.
Qed.

(** C32: Every decoder terminates on every buffer, hostile ones included: each
    of the loops of types/*.rs that walk a buffer reaches an end, and the
    result it ends with is the one the model computes. *)
Theorem decoders_terminate (SF : Scalar SpecFloat.spec_float) :
  terminates (leave_step DI) ∧ terminates (join_step DI) ∧ terminates user_event_step ∧
  terminates user_events_step ∧ terminates uem_step ∧ terminates tag_filter_step ∧
  terminates (filter_step (R := R) DI) ∧ terminates (query_step DI DA) ∧
  terminates (response_step DI DA) ∧ terminates tags_step ∧ terminates (member_step DI DA) ∧
  terminates (conflict_step DI DA) ∧ terminates (push_pull_step DI) ∧
  terminates (key_request_step SK) ∧ terminates (key_response_step SK) ∧
  terminates (coordinate_step SF) ∧ terminates (relay_step DI DA) ∧ terminates step.
Proof.
  split_and!; apply progress_terminates; auto using leave_progresses, join_progresses,
    user_event_progresses, user_events_progresses, uem_progresses, tag_filter_progresses,
    filter_progresses, query_progresses, response_progresses, tags_progresses, member_progresses,
    conflict_progresses, push_pull_progresses, key_request_progresses, key_response_progresses,
    coordinate_progresses, relay_progresses, message_progresses.
Qed.

(** The tag of a message kind. *)
Definition message_tag (m : Message I A R) : Z :=
  match m with
  | MLeave _ => LEAVE_MESSAGE_TAG | MJoin _ => JOIN_MESSAGE_TAG
  | MPushPull _ => PUSH_PULL_MESSAGE_TAG | MUserEvent _ => USER_EVENT_MESSAGE_TAG
  | MQuery _ => QUERY_MESSAGE_TAG | MQueryResponse _ => QUERY_RESPONSE_MESSAGE_TAG
  end.

(** A second message behind the first is refused, before it is looked at. *)
Lemma step_duplicate w off m tl :
  step (Some w) off (ID (message_encodable m)) tl = Err (Failed (DuplicateField (message_tag m))).
Proof.
  unfold message_step. destruct m; cbn [message_encodable ID leave_encodable join_encodable
    push_pull_encodable user_event_encodable query_encodable response_encodable]; by arms.
Qed.

End facts.
