(* ===== verification/WireSample.v ===== *)
(** * A concrete encoding layer

    An implementation of [Wire] that satisfies [WireLaws]: tag bytes as in
    protocol buffers, integers as LEB128, lengths in front of length-delimited
    values.  It shows that the laws can be met, and lets statements about the
    codecs be evaluated. *)

From Stdlib Require Import ZArith Lia Strings.Byte.
From stdpp Require Import base list gmap strings.
From S2P Require Import Prelude Types Wire.
Local Open Scope serf_scope.

Definition wire_code (w : WireType.t) : Z :=
  match w with
  | WireType.Byte => 0 | WireType.Varint => 1 | WireType.LengthDelimited => 2
  | WireType.Fixed32 => 3 | WireType.Fixed64 => 4
  end.

Definition sample_merge (w : WireType.t) (tag : Z) : byte := byte_of_Z (tag * 8 + wire_code w).

(** ** LEB128 *)

Fixpoint leb_encode (fuel : nat) (z : Z) : bytes :=
  match fuel with
  | O => []
  | S fuel =>
      if (z <? 128)%Z then [byte_of_Z z]
      else byte_of_Z (128 + z mod 128) :: leb_encode fuel (z / 128)
  end.

Fixpoint leb_decode (fuel : nat) (b : bytes) : Result (nat * Z) DecodeError :=
  match fuel, b with
  | O, _ | _, [] => Err BufferUnderflow
  | S fuel, x :: b =>
      let v := Z_of_byte x in
      if (v <? 128)%Z then Ok (1%nat, v)
      else try! (k, r) := leb_decode fuel b in Ok (S k, v - 128 + 128 * r)%Z
  end.

Lemma leb_roundtrip fuel : ∀ z rest,
  (0 <= z < 128 ^ Z.of_nat (S fuel))%Z →
  leb_decode (S fuel) (leb_encode (S fuel) z ++ rest) = Ok (length (leb_encode (S fuel) z), z).
Proof.
  induction fuel as [|fuel IH]; intros z rest Hz;
    rewrite Nat2Z.inj_succ, Z.pow_succ_r in Hz by lia; cbn [leb_encode];
    (destruct (Z.ltb_spec z 128);
      [cbn [app leb_decode]; rewrite byte_roundtrip by lia; by rewrite (proj2 (Z.ltb_lt z 128)) by lia|]).
  - simpl in Hz. lia.
  - pose proof (Z.mod_pos_bound z 128 ltac:(lia)).
    change (if (z / 128 <? 128)%Z then [byte_of_Z (z / 128)]
      else byte_of_Z (128 + z / 128 mod 128) :: leb_encode fuel (z / 128 / 128))
      with (leb_encode (S fuel) (z / 128)).
    cbn [app]. change (leb_decode (S (S fuel)) (?x :: ?b)) with
      (let v := Z_of_byte x in if (v <? 128)%Z then Ok (1%nat, v)
       else try! (k, r) := leb_decode (S fuel) b in Ok (S k, v - 128 + 128 * r)%Z).
    cbv zeta. rewrite byte_roundtrip by lia.
    rewrite (proj2 (Z.ltb_ge (128 + z mod 128) 128)) by lia.
    rewrite IH by (split; [apply Z.div_pos; lia|apply Z.div_lt_upper_bound; lia]).
    simpl length. do 2 f_equal. pose proof (Z.div_mod z 128 ltac:(lia)). lia.
Qed.

Lemma leb_encode_nonempty fuel z : 1 ≤ length (leb_encode (S fuel) z).
Proof. cbn [leb_encode]. destruct (z <? 128)%Z; simpl; lia. Qed.

Definition leb (z : Z) : bytes := leb_encode 10 z.

(** ** Scalars *)

Definition fill (bs : bytes) (n : nat) : Result bytes EncodeError :=
  if (n <? length bs)%nat then Err (insufficient (length bs) n) else Ok bs.

Lemma fill_ok bs n : length bs ≤ n → fill bs n = Ok bs.
Proof. intros Hn. unfold fill. by rewrite (proj2 (Nat.ltb_ge _ _)). Qed.

Lemma fill_err bs n : n < length bs → ∃ e, fill bs n = Err e.
Proof. intros Hn. unfold fill. rewrite (proj2 (Nat.ltb_lt _ _)) by done. eauto. Qed.

Definition leb_scalar : Scalar Z :=
  mkScalar WireType.Varint (λ v, length (leb v)) (λ v, fill (leb v)) (leb_decode 10).
Definition sample_u8 : Scalar Z :=
  mkScalar WireType.Byte (λ _, 1%nat) (λ v, fill [byte_of_Z v])
    (λ b, match b with [] => Err BufferUnderflow | x :: _ => Ok (1%nat, Z_of_byte x) end).
Definition sample_bool : Scalar bool :=
  mkScalar WireType.Byte (λ _, 1%nat) (λ v : bool, fill [byte_of_Z (if v then 1 else 0)])
    (λ b, match b with
          | [] => Err BufferUnderflow
          | x :: _ => Ok (1%nat, negb (Z_of_byte x =? 0)%Z)
          end).
Definition sample_str : Scalar string :=
  mkScalar WireType.LengthDelimited (λ s, String.length s) (λ s, fill (String.list_byte_of_string s))
    (λ b : bytes, Ok (length b, String.string_of_list_byte b)).
Definition sample_bytes : Scalar bytes :=
  mkScalar WireType.LengthDelimited (λ b : bytes, length b) fill (λ b : bytes, Ok (length b, b)).

(** ** Length-delimited values *)

Definition is_delimited {T} (D : Data T) : bool :=
  bool_decide (WIRE_TYPE D = WireType.LengthDelimited).

Definition sample_len_ld {T} (D : Data T) (v : T) : nat :=
  let len := encoded_len D v in
  if is_delimited D then length (leb (Z.of_nat len)) + len else len.

Definition sample_encode_ld {T} (D : Data T) (v : T) (n : nat) : Result bytes EncodeError :=
  if is_delimited D then
    let pre := leb (Z.of_nat (encoded_len D v)) in
    try! _ := fill pre n in
    try! bs := encode D v (n - length pre) in
    Ok (pre ++ bs)
  else encode D v n.

(** The bytes behind a length, and the rest of the buffer untouched. *)
Definition delimited (b : bytes) : Result (nat * bytes) DecodeError :=
  try! (k, len) := leb_decode 10 b in
  if (Z.of_nat (length b) <? Z.of_nat k + len)%Z then Err BufferUnderflow
  else Ok (k, take (Z.to_nat len) (drop k b)).

Definition sample_decode_ld {T} (D : Data T) (b : bytes) : Result (nat * Ref D) DecodeError :=
  if is_delimited D then
    try! (k, src) := delimited b in
    try! (j, r) := decode D src in
    Ok (k + j, r)
  else decode D b.

Definition sample_len_panicking {T} (len : T → nat) (v : T) : nat :=
  length (leb (Z.of_nat (len v))) + len v.
Definition sample_encode_panicking {T} (len : T → nat)
    (enc : T → nat → Result bytes (Fault EncodeError)) (v : T) (n : nat)
  : Result bytes (Fault EncodeError) :=
  let pre := leb (Z.of_nat (len v)) in
  try! _ := lift (fill pre n) in
  try! bs := enc v (n - length pre) in
  Ok (pre ++ bs).
Definition sample_decode_panicking {R} (dec : bytes → Result (nat * R) (Fault DecodeError)) (b : bytes)
  : Result (nat * R) (Fault DecodeError) :=
  try! (k, src) := lift (delimited b) in
  try! (j, r) := dec src in
  Ok (k + j, r).

(** ** Fields *)

Definition sample_skip (b : bytes) : Result nat DecodeError :=
  match b with
  | [] => Err BufferUnderflow
  | x :: tl =>
      let w := (Z_of_byte x mod 8)%Z in
      try! size :=
        (if (w =? 0)%Z then Ok 1%nat
         else if (w =? 1)%Z then try! (k, _) := leb_decode 10 tl in Ok k
         else if (w =? 2)%Z then try! (k, src) := delimited tl in Ok (k + length src)
         else if (w =? 3)%Z then Ok 4%nat
         else if (w =? 4)%Z then Ok 8%nat
         else Err BufferUnderflow) in
      if (length tl <? size)%nat then Err BufferUnderflow else Ok (S size)
  end.

Fixpoint sample_iter_loop {T} (D : Data T) (fuel : nat) (b0 : byte) (b : bytes)
  : list (Result (Ref D) DecodeError) :=
  match fuel, b with
  | O, _ | _, [] => []
  | S fuel, x :: tl =>
      if decide (x = b0) then
        match sample_decode_ld D tl with
        | Ok (k, r) => Ok r :: sample_iter_loop D fuel b0 (drop k tl)
        | Err e => [Err e]
        end
      else
        match sample_skip b with
        | Ok k => sample_iter_loop D fuel b0 (drop k b)
        | Err e => [Err e]
        end
  end.

Definition sample_iter {T} (D : Data T) (r : RepeatedDecoder) : list (Result (Ref D) DecodeError) :=
  match rd_offsets r with
  | None => []
  | Some (s, e) =>
      let b := take (e - s) (drop s (rd_src r)) in
      sample_iter_loop D (length b) (sample_merge (rd_wire r) (rd_tag r)) b
  end.

(** ** Pairs and nodes *)

Definition sample_pair {T U} (D : Data T) (E : Data U) : Data (T * U) :=
  mkData (Ref D * Ref E)%type WireType.LengthDelimited
    (λ r, try! a := from_ref D r.1 in try! b := from_ref E r.2 in Ok (a, b))
    (λ p, sample_len_ld D p.1 + sample_len_ld E p.2)
    (λ p n, try! b := sample_encode_ld D p.1 n in
            try! c := sample_encode_ld E p.2 (n - length b) in Ok (b ++ c))
    (λ b, try! (k, r) := sample_decode_ld D b in
          try! (j, s) := sample_decode_ld E (drop k b) in Ok (k + j, (r, s))).

Definition sample_node_from_ref {I A} (DI : Data I) (DA : Data A) (r : Node (Ref DI) (Ref DA))
  : Result (Node I A) DecodeError :=
  try! i := from_ref DI (node_id r) in try! a := from_ref DA (address r) in Ok (mkNode i a).

#[export] Instance sample_wire : Wire := {|
  merge := sample_merge;
  skip := sample_skip;
  update e required remaining :=
    match e with InsufficientBuffer _ _ => InsufficientBuffer required remaining | e => e end;
  u64_data := leb_scalar;
  u32_data := leb_scalar;
  u8_data := sample_u8;
  duration_data := leb_scalar;
  bool_data := sample_bool;
  str_data := sample_str;
  bytes_data := sample_bytes;
  encoded_len_with_length_delimited T := sample_len_ld;
  encode_length_delimited T := sample_encode_ld;
  decode_length_delimited T := sample_decode_ld;
  encoded_len_with_length_delimited_panicking T := sample_len_panicking;
  encode_length_delimited_panicking T := sample_encode_panicking;
  decode_length_delimited_panicking R := sample_decode_panicking;
  node_len I A DI DA n := encoded_len (sample_pair DI DA) (node_id n, address n);
  node_encode I A DI DA n := encode (sample_pair DI DA) (node_id n, address n);
  node_decode I A DI DA b :=
    try! (k, (i, a)) := decode (sample_pair DI DA) b in Ok (k, mkNode i a);
  node_from_ref I A := sample_node_from_ref;
  pair_data T U := sample_pair;
  tuple_encoded_len_with_length_delimited T U D E p := sample_len_ld (sample_pair D E) p;
  tuple_encode_with_length_delimited T U D E p := sample_encode_ld (sample_pair D E) p;
  iter T := sample_iter;
|}.

(** ** The laws *)

#[global] Arguments leb_decode : simpl never.
#[global] Arguments leb_encode : simpl never.

Lemma merge_value w t : (1 <= t <= 10)%Z → Z_of_byte (sample_merge w t) = (t * 8 + wire_code w)%Z.
Proof. intros Ht. apply byte_roundtrip. destruct w; simpl; lia. Qed.

Lemma sample_merge_tag w t w' t' :
  (1 <= t <= 10)%Z → (1 <= t' <= 10)%Z → sample_merge w t = sample_merge w' t' → t = t'.
Proof.
  intros Ht Ht' Heq. apply (f_equal Z_of_byte) in Heq. rewrite !merge_value in Heq by done.
  destruct w, w'; simpl in Heq; lia.
Qed.

Lemma leb_u64 z rest : is_u64 z → leb_decode 10 (leb z ++ rest) = Ok (length (leb z), z).
Proof. intros []. apply leb_roundtrip. unfold u64_modulus in *. lia. Qed.

Lemma leb_codes z : is_u64 z → codes (scalar leb_scalar) z (leb z) z.
Proof.
  intros Hz. split; simpl; [done|intros; by apply fill_ok|intros; by apply fill_err|done|].
  intros rest _. by apply leb_u64.
Qed.

Lemma leb_codes_u32 z : (0 <= z < u32_modulus)%Z → codes (scalar leb_scalar) z (leb z) z.
Proof. intros Hz. apply leb_codes. unfold is_u64, u64_modulus, u32_modulus in *. lia. Qed.

Lemma leb_codes_unique z pre r : codes (scalar leb_scalar) z pre r → pre = leb z.
Proof.
  intros Hc. pose proof (codes_encode _ _ _ _ Hc (length pre + length (leb z)) ltac:(lia)) as He.
  simpl in He. rewrite fill_ok in He by lia. congruence.
Qed.

Lemma byte_codes {T} (wire : WireType.t) (enc : T → byte) (dec : Z → T) v :
  dec (Z_of_byte (enc v)) = v →
  codes (scalar (mkScalar wire (λ _, 1%nat) (λ v, fill [enc v])
    (λ b, match b with [] => Err BufferUnderflow | x :: _ => Ok (1%nat, dec (Z_of_byte x)) end))) v [enc v] v.
Proof.
  intros Hv. split; simpl; [done|intros; by apply fill_ok|intros; by apply fill_err|done|].
  intros rest _. by rewrite Hv.
Qed.

Lemma delimited_ok bs rest :
  fits_u32 (length bs) →
  delimited (leb (Z.of_nat (length bs)) ++ bs ++ rest) = Ok (length (leb (Z.of_nat (length bs))), bs).
Proof.
  intros Hf. unfold fits_u32, u32_modulus in Hf. unfold delimited.
  rewrite leb_u64 by (unfold is_u64, u64_modulus; lia). cbv beta iota.
  rewrite (proj2 (Z.ltb_ge _ _)) by (rewrite !length_app; lia).
  by rewrite Nat2Z.id, drop_app_length, take_app_length.
Qed.

Lemma sample_skip_delimited bs tag rest :
  (1 <= tag <= 7)%Z → fits_u32 (length bs) →
  sample_skip (sample_merge WireType.LengthDelimited tag :: leb (Z.of_nat (length bs)) ++ bs ++ rest)
  = Ok (S (length (leb (Z.of_nat (length bs)) ++ bs))).
Proof.
  intros Ht Hf. unfold sample_skip. rewrite merge_value by lia.
  replace ((tag * 8 + wire_code WireType.LengthDelimited) mod 8)%Z with 2%Z
    by (simpl; rewrite Z.add_comm, Z.mod_add; [done|lia]).
  cbn [Z.eqb]. cbv zeta. cbn [Z.eqb Pos.eqb]. rewrite delimited_ok by done. cbv beta iota.
  rewrite (proj2 (Nat.ltb_ge _ _)) by (rewrite !length_app; lia). by rewrite length_app.
Qed.

Section ld.
Context {T : Type} (D : Data T) (v : T) (bs : bytes) (r : Ref D) (Hc : codes D v bs r).

(** What the delimited form of [v] is, and how it behaves. *)
Definition ld_bytes : bytes :=
  if is_delimited D then leb (Z.of_nat (length bs)) ++ bs else bs.

Lemma ld_bytes_len : length ld_bytes = sample_len_ld D v.
Proof.
  unfold ld_bytes, sample_len_ld. rewrite <- (codes_len _ _ _ _ Hc).
  destruct (is_delimited D); [by rewrite length_app|done].
Qed.

Lemma ld_bytes_encode n : length ld_bytes ≤ n → sample_encode_ld D v n = Ok ld_bytes.
Proof.
  unfold ld_bytes, sample_encode_ld. rewrite <- (codes_len _ _ _ _ Hc).
  destruct (is_delimited D); [|apply (codes_encode _ _ _ _ Hc)].
  rewrite length_app. intros Hn. rewrite fill_ok by lia.
  by rewrite (codes_encode _ _ _ _ Hc) by lia.
Qed.

Lemma ld_bytes_refuses n : n < length ld_bytes → ∃ e, sample_encode_ld D v n = Err e.
Proof.
  unfold ld_bytes, sample_encode_ld. rewrite <- (codes_len _ _ _ _ Hc).
  destruct (is_delimited D); [|apply (codes_refuses _ _ _ _ Hc)].
  rewrite length_app. intros Hn. set (pre := leb _) in *.
  destruct (decide (n < length pre)) as [Hlt|Hge].
  - destruct (fill_err pre n Hlt) as [e ->]. eauto.
  - rewrite fill_ok by lia.
    destruct (codes_refuses _ _ _ _ Hc (n - length pre) ltac:(lia)) as [e ->]. eauto.
Qed.

Lemma ld_bytes_decode rest :
  fits_u32 (length bs) → sample_decode_ld D (ld_bytes ++ rest) = Ok (length ld_bytes, r).
Proof.
  unfold ld_bytes, sample_decode_ld, is_delimited. case_bool_decide as Hd; intros Hf.
  - rewrite <- app_assoc, delimited_ok by done.
    pose proof (codes_decode _ _ _ _ Hc []) as Hdec. rewrite app_nil_r in Hdec.
    rewrite Hdec by done. by rewrite length_app.
  - by apply (codes_decode _ _ _ _ Hc).
Qed.
End ld.

Lemma sample_pair_codes {T U} (D : Data T) (E : Data U) v b r w c s :
  codes D v b r → codes E w c s → fits_u32 (length b) → fits_u32 (length c) →
  codes (sample_pair D E) (v, w) (ld_bytes D b ++ ld_bytes E c) (r, s).
Proof.
  intros Hb Hc Fb Fc. split; simpl.
  - by rewrite length_app, (ld_bytes_len D v b r), (ld_bytes_len E w c s).
  - intros n Hn. rewrite length_app in Hn. rewrite (ld_bytes_encode D v b r) by (done || lia).
    by rewrite (ld_bytes_encode E w c s) by (done || lia).
  - intros n Hn. rewrite length_app in Hn. destruct (decide (n < length (ld_bytes D b))) as [Hlt|Hge].
    + destruct (ld_bytes_refuses D v b r Hb n Hlt) as [e ->]. eauto.
    + rewrite (ld_bytes_encode D v b r) by (done || lia).
      destruct (ld_bytes_refuses E w c s Hc (n - length (ld_bytes D b)) ltac:(lia)) as [e ->]. eauto.
  - by rewrite (codes_from_ref _ _ _ _ Hb), (codes_from_ref _ _ _ _ Hc).
  - intros rest Hrest. rewrite (Hrest eq_refl), <- app_assoc.
    rewrite (ld_bytes_decode D v b r) by done. rewrite drop_app_length.
    rewrite (ld_bytes_decode E w c s) by done. by rewrite length_app.
Qed.

Lemma sample_entry {T} (D : Data T) v bs r :
  WIRE_TYPE D = WireType.LengthDelimited → codes D v bs r → fits_u32 (length bs) →
  codes_ld D v (leb (Z.of_nat (length bs)) ++ bs) r.
Proof.
  intros Hw Hc Hf.
  assert (ld_bytes D bs = leb (Z.of_nat (length bs)) ++ bs) as <-.
  { unfold ld_bytes, is_delimited. by rewrite bool_decide_eq_true_2. }
  split; [by apply (ld_bytes_len D v bs r)|by apply (ld_bytes_encode D v bs r)
         |by apply (ld_bytes_refuses D v bs r)|apply (codes_from_ref _ _ _ _ Hc)|].
  split.
  - intros rest. by apply (ld_bytes_decode D v bs r).
  - intros tag rest Ht. rewrite Hw. unfold ld_bytes, is_delimited. rewrite bool_decide_eq_true_2 by done.
    rewrite <- app_assoc. by apply sample_skip_delimited.
Qed.

Lemma sample_skip_progress b k : sample_skip b = Ok k → 1 ≤ k.
Proof.
  unfold sample_skip. destruct b as [|x tl]; [done|]. intros Hk.
  repeat (case_match; simplify_eq); lia.
Qed.

Lemma sample_iter_run {T} (D : Data T) b0 bodies refs : ∀ fuel,
  length (concat ((λ f, b0 :: f) <$> bodies)) ≤ fuel →
  Forall2 (λ f r, ∀ rest, sample_decode_ld D (f ++ rest) = Ok (length f, r)) bodies refs →
  sample_iter_loop D fuel b0 (concat ((λ f, b0 :: f) <$> bodies)) = Ok <$> refs.
Proof.
  intros fuel Hf Hb. revert fuel Hf. induction Hb as [|f r bodies refs Hr _ IH]; intros fuel Hf;
    [by destruct fuel|].
  cbn in *. rewrite length_app in Hf. destruct fuel as [|fuel]; [lia|]. cbn.
  rewrite decide_True by done. rewrite Hr. rewrite drop_app_length. f_equal. apply IH. lia.
Qed.

Lemma sample_decode_ld_panicking {R} (dec : bytes → Result (nat * R) (Fault DecodeError)) pre bs rest :
  codes (scalar leb_scalar) (Z.of_nat (length bs)) pre (Z.of_nat (length bs)) →
  sample_decode_panicking dec (pre ++ bs ++ rest) =
    try! (k, r) := dec bs in Ok (length pre + k, r).
Proof.
  intros Hpre. unfold sample_decode_panicking, delimited.
  assert (leb_decode 10 (pre ++ bs ++ rest) = Ok (length pre, Z.of_nat (length bs))) as ->
    by (by apply (codes_decode _ _ _ _ Hpre)). cbn [lift].
  rewrite (proj2 (Z.ltb_ge _ _)) by (rewrite !length_app; lia).
  by rewrite Nat2Z.id, drop_app_length, take_app_length.
Qed.

#[export] Instance sample_wire_laws : WireLaws.
Proof.
  split; simpl.
  - intros. eapply sample_merge_tag; [..|eassumption]; lia.
  - intros w t w' t' Ht Ht'. apply sample_merge_tag; unfold small_tag in *; lia.
  - apply sample_skip_progress.
  - intros v Hv. exists (leb v). by apply leb_codes.
  - intros v Hv. exists (leb v). by apply leb_codes_u32.
  - intros v Hv. apply (byte_codes _ byte_of_Z (λ z, z)). by apply byte_roundtrip.
  - intros b. apply (byte_codes _ (λ b : bool, byte_of_Z (if b then 1 else 0)) (λ z, negb (z =? 0)%Z)).
    by destruct b.
  - intros v Hv. exists (leb v). by apply leb_codes.
  - intros s. split; simpl; [apply length_list_byte|intros; by apply fill_ok|intros; by apply fill_err|done|].
    intros rest Hr. rewrite Hr, app_nil_r by done. by rewrite String.string_of_list_byte_of_string.
  - intros b. split; simpl; [done|intros; by apply fill_ok|intros; by apply fill_err|done|].
    intros rest Hr. by rewrite Hr, app_nil_r by done.
  - done.
  - intros T D v bs r Hw Hc Hf. exists (leb (Z.of_nat (length bs))). split.
    + apply leb_codes_u32. unfold fits_u32 in Hf. lia.
    + by apply sample_entry.
  - intros T D v bs r Hw Hc Hs.
    assert (ld_bytes D bs = bs) as Hld by (unfold ld_bytes, is_delimited; by rewrite bool_decide_eq_false_2).
    split; [simpl; by rewrite <- (ld_bytes_len D v bs r Hc), Hld| | |apply (codes_from_ref _ _ _ _ Hc)|].
    + intros n Hn. pose proof (ld_bytes_encode D v bs r Hc n) as He. rewrite Hld in He. by apply He.
    + intros n Hn. rewrite <- Hld in Hn. by apply (ld_bytes_refuses D v bs r).
    + split; [|done]. intros rest. simpl. unfold sample_decode_ld, is_delimited.
      rewrite bool_decide_eq_false_2 by done. by apply (codes_decode _ _ _ _ Hc).
  - intros R dec pre bs rest Hpre. by apply sample_decode_ld_panicking.
  - intros T len v pre Hpre. unfold sample_len_panicking. by rewrite (leb_codes_unique _ _ _ Hpre).
  - intros T len enc v pre bs n Hpre Hlen Henc Hn. unfold sample_encode_panicking. rewrite Hlen.
    rewrite length_app in Hn. rewrite <- (leb_codes_unique _ _ _ Hpre), fill_ok by lia. simpl.
    by rewrite Henc by lia.
  - intros I A DI DA [i a] bi ri ba ra Hi Ha Fi Fa. simpl in *.
    pose proof (sample_pair_codes DI DA i bi ri a ba ra Hi Ha Fi Fa) as Hp.
    exists (ld_bytes DI bi ++ ld_bytes DA ba). split; simpl.
    + apply (codes_len _ _ _ _ Hp).
    + apply (codes_encode _ _ _ _ Hp).
    + apply (codes_refuses _ _ _ _ Hp).
    + unfold sample_node_from_ref. simpl.
      by rewrite (codes_from_ref _ _ _ _ Hi), (codes_from_ref _ _ _ _ Ha).
    + intros rest Hr. pose proof (codes_decode _ _ _ _ Hp rest Hr) as Hd. simpl in Hd. by rewrite Hd.
  - intros I A DI DA [i a] n Hn. unfold sample_node_from_ref in Hn. simpl in *.
    by repeat (case_match; simplify_eq/=).
  - intros T U D E v b r w c s Hb Hc Hf. simpl.
    assert (Z.of_nat (length b) < u32_modulus ∧ Z.of_nat (length c) < u32_modulus ∧
      Z.of_nat (length (ld_bytes D b ++ ld_bytes E c)) < u32_modulus)%Z as (F1 & F2 & F3).
    { rewrite length_app, (ld_bytes_len D v b r Hb), (ld_bytes_len E w c s Hc).
      unfold fits_u32 in Hf. unfold sample_len_ld in *. simpl in Hf. unfold sample_len_ld in Hf.
      rewrite <- (codes_len _ _ _ _ Hb), <- (codes_len _ _ _ _ Hc) in *.
      destruct (is_delimited D), (is_delimited E); lia. }
    exists (leb (Z.of_nat (length (ld_bytes D b ++ ld_bytes E c))) ++ (ld_bytes D b ++ ld_bytes E c)), (r, s).
    apply (sample_entry (sample_pair D E)); [done|by apply sample_pair_codes|done].
  - done.
  - intros T D tag src s e bodies refs Hsrc Hb. unfold sample_iter. simpl. rewrite Hsrc.
    apply sample_iter_run; [done|]. eapply Forall2_impl; [exact Hb|].
    intros f r Hbody rest. apply (body_decode _ _ _ Hbody).
  - intros T D r Hr. unfold sample_iter. by rewrite Hr.
Qed.
