(* ===== verification/Exchange.v ===== *)
(** * Nodes that talk to each other

    The codecs of types/*.rs are what the handlers' [Codec] interface asks
    for: [wire_codec] builds the interface from them, so that a statement
    about the handlers becomes one about the bytes that cross the network.
    The facts below follow a message from the node that encodes it to the
    handler of the node that receives it. *)

From Stdlib Require Import ZArith Lia Strings.Byte.
From stdpp Require Import base list gmap strings.
From S2P Require Import Prelude Clock Coordinate Types Core Membership MemberTraces Lifecycle UserEvents.
From S2P Require Import Responses Query QueryFacts Snapshot Delegate Api.
From S2P Require Import Wire CodecIntents CodecEvents CodecQuery CodecMember CodecPushPull CodecKeys CodecMessage.
Local Open Scope serf_scope.

Section codec.
Context `{Wire} {I A R K : Type} `{Countable I} `{Countable A} `{Regex R}
  (DI : Data I) (DA : Data A) (SK : Scalar K)
  (meta_max_size : Z) (is_match : R → string → bool).

(** ** What the handlers see of a decoded message *)

Definition filter_ref_of (f : FilterWire) : FilterRef I :=
  match f with
  | FWId ids => FilterRefId ((λ x, and_then x (from_ref DI)) <$> iter DI ids)
  | FWTag t => FilterRefTag (tfr_tag t) (tfr_expr t)
  end.

Definition query_ref_of (q : QueryWire DI DA) : QueryMessageRef I A :=
  mkQueryRef (qw_ltime _ _ q) (qw_id _ _ q) (from_ref (node_data DI DA) (qw_from _ _ q))
    ((λ x, and_then x (λ f, Ok (filter_ref_of f))) <$> iter (filter_data (R := R) DI) (qw_filters _ _ q))
    (qw_flags _ _ q) (qw_relay_factor _ _ q) (qw_timeout _ _ q) (qw_name _ _ q) (qw_payload _ _ q).

Definition message_ref_of (w : MessageWire (K := K) DI DA) : MessageRef I A :=
  match w with
  | WLeave _ _ m => RLeave (leave_ltime m) (from_ref DI (leave_id m)) (prune m)
  | WJoin _ _ m => RJoin (join_ltime m) (from_ref DI (join_id m))
  | WPushPull _ _ m =>
      RPushPull (ppr_ltime m) (ppr_event_ltime m) (ppr_query_ltime m) (push_pull_from_ref DI m)
  | WUserEvent _ _ m => RUserEvent m
  | WQuery _ _ m => RQuery (query_ref_of m)
  | WQueryResponse _ _ m => RQueryResponse (rw_ltime _ _ m) (rw_id _ _ m) (response_from_ref DI DA m)
  | WConflictResponse _ _ m => RConflictResponse (from_ref DA (address (mr_node _ _ m)))
  | WRelay _ _ nd off payload => RRelay (from_ref DA (address nd)) off payload
  | WKeyRequest _ _ _ => RKeyRequest
  | WKeyResponse _ _ _ => RKeyResponse
  end.

Definition wire_codec : Codec I A R := {|
  META_MAX_SIZE := meta_max_size;
  u32_encoded_len n := Z.of_nat (sc_len u32_data n);
  Types.encoded_message_len m := Z.of_nat (CodecMessage.encoded_message_len (message_encodable DI DA m));
  Types.encode_message_to_bytes m := CodecMessage.encode_message_to_bytes (message_encodable DI DA m);
  Types.encoded_relay_message_len r n :=
    Z.of_nat (CodecMessage.encoded_relay_message_len DI DA (response_encodable DI DA r) n);
  Types.encode_relay_message_to_bytes r n :=
    CodecMessage.encode_relay_message_to_bytes DI DA (response_encodable DI DA r) n;
  Types.decode_message b :=
    settle (try! w := CodecMessage.decode_message (R := R) DI DA SK b in Ok (message_ref_of w));
  decode_tags b := try! (_, r) := tags_decode b in tags_from_ref r;
  tags_encoded_len t := Z.of_nat (tags_encoded_len_ t);
  tags_encoded_len_with_length_delimited t := Z.of_nat (encoded_len_with_length_delimited tags_data t);
  encode_tags t := tags_encode t (tags_encoded_len_ t);
  encode_id i := encode DI i (encoded_len DI i);
  decode_id b := try! (_, r) := decode DI b in from_ref DI r;
  regex_new s := match re_new s with Ok r => Some r | Err _ => None end;
  regex_is_match := is_match;
|}.

End codec.

Section facts.
Context `{WireLaws} {I A R K : Type} `{Countable I} `{Countable A} `{RegexLaws R}
  (DI : Data I) (DA : Data A) (SK : Scalar K)
  (meta_max_size : Z) (is_match : R → string → bool).

#[local] Instance codec : Codec I A R := wire_codec DI DA SK meta_max_size is_match.

Implicit Types (s t : Serf I A) (rnd : nat → Z).

(** ** Queries *)

Lemma collect_inv {B E} (l : list (Result B E)) xs : collect l = Ok xs → l = Ok <$> xs.
Proof.
  revert xs. induction l as [|[x|e] l IH]; intros xs Hc; simpl in Hc; simplify_eq; [done|].
  destruct (collect l) as [ys|]; simplify_eq. rewrite fmap_cons. f_equal. by apply IH.
Qed.

(** A filter that decodes to [f] is one that stands for [f]. *)
Lemma filter_ref_denotes w f :
  filter_from_ref DI w = Ok f → filter_denotes (Ok (filter_ref_of DI w)) f.
Proof.
  destruct w as [ids|[tag [e|]]]; cbn [filter_from_ref filter_ref_of]; intros Hf.
  - destruct (collect _) as [l|] eqn:Hc; simplify_eq. rewrite (collect_inv _ _ Hc). constructor.
  - unfold tag_filter_from_ref in Hf. cbn in Hf. destruct (re_new e) as [x|] eqn:He; simplify_eq.
    constructor. cbn. by rewrite He.
  - unfold tag_filter_from_ref in Hf. cbn in Hf. simplify_eq. constructor.
Qed.

Lemma filters_denote (l : list (Result FilterWire DecodeError)) fs :
  collect ((λ x, and_then x (from_ref (filter_data DI))) <$> l) = Ok fs →
  Forall2 filter_denotes ((λ x, and_then x (λ f, Ok (filter_ref_of DI f))) <$> l) fs.
Proof.
  intros Hc. apply collect_inv in Hc. revert fs Hc.
  induction l as [|x l IH]; intros [|f fs] Hc; simplify_eq/=; constructor; [|by apply IH].
  destruct x as [w|]; simpl in *; [|done]. by apply filter_ref_denotes.
Qed.

(** A node treats a query that arrives encoded as it treats the query its
    sender built. *)
Lemma handle_query_agrees s w (q : QueryMessage I A R) ty now rnd :
  query_from_ref DI DA w = Ok q →
  handle_query s (QLeft (query_ref_of (R := R) DI DA w)) ty now rnd = handle_query s (QRight q) ty now rnd.
Proof.
  unfold query_from_ref. destruct w as [lt id from fl flags rf tmo name payload]. cbn.
  destruct (collect _) as [fs|] eqn:Hfs; [|done].
  destruct (node_from_ref DI DA from) as [nd|] eqn:Hnd; [|done]. intros [= <-].
  pose proof (λ s, filters_agree s _ _ (filters_denote _ _ Hfs)) as Hp.
  unfold handle_query. cbn. destruct (admit_query s lt id) as [[s' [|]]|]; [|done..].
  unfold process_query. cbn in *. rewrite Hp, Hnd. done.
Qed.

(** [decode_internal_query] of the query its sender built. *)
Definition decode_internal_query_owned (q : QueryMessage I A R)
  : option (Result (InternalQueryEvent I) DecodeError) :=
  if decide (q_name q = INTERNAL_PING) then Some (Ok IQPing)
  else if decide (q_name q = INTERNAL_CONFLICT) then
    Some (try! id := decode_id (q_payload q) in Ok (IQConflict id))
  else if decide (q_name q = INTERNAL_INSTALL_KEY) then Some (Ok IQInstallKey)
  else if decide (q_name q = INTERNAL_USE_KEY) then Some (Ok IQUseKey)
  else if decide (q_name q = INTERNAL_REMOVE_KEY) then Some (Ok IQRemoveKey)
  else if decide (q_name q = INTERNAL_LIST_KEYS) then Some (Ok IQListKey)
  else None.

Lemma internal_query_agrees w (q : QueryMessage I A R) :
  query_from_ref DI DA w = Ok q →
  decode_internal_query (query_ref_of (R := R) DI DA w) = decode_internal_query_owned q.
Proof.
  unfold query_from_ref. destruct w as [lt id from fl flags rf tmo name payload]. cbn.
  destruct (collect _) as [fs|]; [|done].
  destruct (node_from_ref DI DA from) as [nd|]; [|done]. by intros [= <-].
Qed.

(** ** What a message does to the node that hears it

    The specification of [notify_message]: the handler of the message itself,
    and the very bytes queued again when the handler says so. *)
Definition hear s (m : Message I A R) (raw : bytes) (now : Z) rnd : outcome (Serf I A) :=
  match m with
  | MLeave m =>
      let '(s, again) := handle_node_leave_intent s m now in
      Done (if again then queue_intent s raw else s)
  | MJoin m =>
      let '(s, again) := handle_node_join_intent s m now in
      Done (if again then queue_intent s raw else s)
  | MUserEvent m =>
      run! (s, again) := handle_user_event s m in
      Done (if again : bool then queue_event s raw else s)
  | MQuery q =>
      let continue ty :=
        run! (s, r) := handle_query s (QRight q) ty now rnd in
        match r with Ok true => Done (queue_query s raw) | _ => Done s end in
      match decode_internal_query_owned q with
      | Some (Err _) => Done s
      | Some (Ok ty) => continue (Some ty)
      | None => continue None
      end
  | MQueryResponse r => Done (serf_handle_query_response s (r_ltime r) (r_id r) (Ok r) now).1
  | MPushPull _ => Done s
  end.

Lemma envelope_nonempty (m : Message I A R) (raw : bytes) :
  length raw = CodecMessage.encoded_message_len (message_encodable DI DA m) → raw ≠ [].
Proof. intros Hl ->. unfold CodecMessage.encoded_message_len in Hl. simpl in Hl. lia. Qed.

(** The handler of a decoded message is the handler of what it stands for. *)
Lemma notify_message_hears s owned m w (raw : bytes) now rnd :
  raw ≠ [] → CodecMessage.decode_message (R := R) DI DA SK raw = Ok w → stands_for DI DA w m →
  notify_message (R := R) s owned raw now rnd = hear s m raw now rnd.
Proof.
  intros Hne Hw Hm. unfold notify_message. destruct raw as [|b raw]; [done|].
  cbn [Types.decode_message codec wire_codec]. rewrite Hw. cbn [settle].
  destruct w, m; cbn [stands_for] in Hm; try done; cbn [message_ref_of hear].
  - unfold leave_from_ref in Hm. destruct (from_ref DI _); [|done]. by simplify_eq.
  - unfold join_from_ref in Hm. destruct (from_ref DI _); [|done]. by simplify_eq.
  - unfold uem_from_ref in Hm. simplify_eq. by destruct m0.
  - rewrite (internal_query_agrees _ _ Hm).
    by destruct (decode_internal_query_owned _) as [[ty|]|]; rewrite ?(handle_query_agrees _ _ _ _ _ _ Hm).
  - rewrite Hm. unfold response_from_ref in Hm. destruct (from_ref (node_data DI DA) _); [|done].
    by simplify_eq.
Qed.

(** C2: A message does to the node that receives it what its handler does to
    the message its sender built: an encoded message, delivered to
    [notify_message], runs the handler of its kind on the original message,
    and rebroadcasts the bytes it arrived in. *)
Theorem message_heard s owned (m : Message I A R) now rnd :
  message_fits DI DA m →
  ∃ raw, Types.encode_message_to_bytes m = Ok raw ∧
    notify_message (R := R) s owned raw now rnd = hear s m raw now rnd.
Proof.
  intros Hm. destruct (message_reads_back (K := K) DI DA SK m Hm) as (raw & w & He & Hl & Hr & Hs).
  exists raw. split; [exact He|]. by eapply notify_message_hears; [eapply envelope_nonempty|..].
Qed.

(** C12: A relayed response reaches the node it is meant for unchanged: the
    node that receives the relay envelope sends exactly the bytes of the
    response to the address inside, whether it owns or borrows the buffer,
    and those bytes act at their destination as the response itself. *)
Theorem relay_delivers s t owned owned' (r : QueryResponseMessage I A) nd now now' rnd rnd' :
  message_fits DI DA (MQueryResponse r) → node_fits DI DA nd →
  ∃ raw payload,
    Types.encode_relay_message_to_bytes r nd = Ok raw ∧
    notify_message (R := R) s owned raw now rnd = Done (memberlist_send s (address nd) payload) ∧
    notify_message (R := R) t owned' payload now' rnd'
    = Done (serf_handle_query_response t (r_ltime r) (r_id r) (Ok r) now').1.
Proof.
  intros Hr Hn. destruct (relay_reads_back (R := R) (K := K) DI DA SK r nd Hr Hn)
    as (raw & rn & payload & off & He & Hl & Hd & Hnd & Hp & Hoff).
  destruct (message_reads_back (K := K) DI DA SK (MQueryResponse r) Hr)
    as (payload' & w & He' & Hl' & Hr' & Hs'). cbn [message_encodable] in He'.
  assert (payload' = payload) as -> by congruence.
  exists raw, payload. split_and!; [exact He| |].
  - unfold notify_message. destruct raw as [|b raw].
    { unfold CodecMessage.encoded_relay_message_len in Hl. simpl in Hl. lia. }
    cbn [Types.decode_message codec wire_codec]. rewrite Hd. cbn [settle message_ref_of].
    destruct (node_parts _ _ _ _ Hnd) as [_ ->]. unfold relayed.
    assert (length (b :: raw) = off + length payload ∨ payload = []) as Hlen.
    { rewrite <- Hoff, length_drop. destruct (decide (off <= length (b :: raw))); [left; lia|right].
      apply drop_ge. lia. }
    destruct owned; [|done]. destruct Hlen as [Hlen|Hnil].
    + rewrite (proj2 (Nat.ltb_ge _ _)) by lia. by rewrite Hoff, firstn_all.
    + by pose proof (envelope_nonempty _ _ Hl').
  - by rewrite (notify_message_hears t owned' (MQueryResponse r) w payload now' rnd'
      (envelope_nonempty _ _ Hl') Hr' Hs').
Qed.

(** ** State exchange *)

Lemma push_pull_ref_clocks r (p : PushPullMessage I) :
  push_pull_from_ref DI r = Ok p →
  ppr_ltime r = pp_ltime p ∧ ppr_event_ltime r = pp_event_ltime p ∧ ppr_query_ltime r = pp_query_ltime p.
Proof.
  unfold push_pull_from_ref. intros Hp. repeat (case_match; simplify_eq); done.
Qed.

(** The state a node sends is merged as the message it was built from. *)
Lemma local_state_merged s t is_join now :
  push_pull_fits DI (local_state_message t) →
  fits_u32 (push_pull_encoded_len DI (local_state_message t)) →
  merge_remote_state (R := R) s (local_state (R := R) t) is_join now =
  merge_push_pull (witness_remote s (Clock.time (clock t)) (Clock.time (event_clock t))
      (Clock.time (query_clock t)))
    (local_state_message t) (Clock.time (event_clock t)) is_join now.
Proof.
  intros Hp Hf. set (m := MPushPull (local_state_message t) : Message I A R).
  destruct (message_reads_back (K := K) DI DA SK m) as (raw & w & He & Hl & Hr & Hs); [by split|].
  assert (local_state (R := R) t = raw) as ->.
  { unfold local_state. cbn [Types.encode_message_to_bytes codec wire_codec]. fold m. by rewrite He. }
  pose proof (envelope_nonempty m raw Hl) as Hne. unfold merge_remote_state.
  destruct raw as [|b raw]; [done|]. cbn [Types.decode_message codec wire_codec]. rewrite Hr.
  cbn [settle]. destruct w; cbn [stands_for m] in Hs; try done. cbn [message_ref_of].
  destruct (push_pull_ref_clocks _ _ Hs) as (-> & -> & ->). by rewrite Hs.
Qed.

Lemma witness_remote_frame s lt elt qlt :
  let s' := witness_remote s lt elt qlt in
  members s' = members s ∧ local_node s' = local_node s ∧ event_core s' = event_core s ∧
  serf_state s' = serf_state s ∧ opts s' = opts s ∧
  (is_u64 (event_clock s) → is_u64 elt → is_u64 (event_clock s')).
Proof.
  unfold witness_remote. repeat case_match; cbn; split_and!; try done; intros Hc He;
    apply Clock.witness_u64; try done; unfold Clock.sub, sub64, is_u64; apply Z.mod_pos_bound; done.
Qed.

(** C9: A full state exchange brings an instance up to date over the wire: once
    the bytes [local_state] produced at one node are merged at another, every
    member the sender knows, the receiver itself included, has made at the
    receiver the step of its life cycle for one intent, a leave one past the
    sender's time when the sender saw it leave and a join at the sender's time
    otherwise, so that one that left shows as leaving or left and a leave about
    the receiver itself is refuted; ids the sender does not know are left
    alone.  The receiver's table stays consistent, nothing it remembered is
    forgotten, and about every other node it now remembers an intent at least as
    new as the sender's, strictly newer for those the sender saw leave. *)
Theorem exchange_catches_up s t is_join now :
  push_pull_fits DI (local_state_message t) →
  fits_u32 (push_pull_encoded_len DI (local_state_message t)) →
  wf_members (members s) → wf_members (members t) →
  (∀ id ms, states (members t) !! id = Some ms → regular (status_time ms)) →
  Forall (λ e, regular (uem_ltime e)) (exchanged_events (local_state_message t)) →
  is_u64 (event_clock s) → (0 < length (event_buffer (event_core s)))%nat →
  ∃ s', merge_remote_state (R := R) s (local_state (R := R) t) is_join now = Done s' ∧
    wf_members (members s') ∧ (∀ j, seen s j <= seen s' j)%Z ∧
    (∀ id, match states (members t) !! id with
           | Some ms => ∃ n, life (around None s id (replayed t id ms now)) id
               (replayed t id ms now) (slot_of s id) (slot_of s' id) n
           | None => slot_of s' id = slot_of s id
           end) ∧
    ∀ id ms, states (members t) !! id = Some ms → id ≠ local_id s →
      (status_time ms <= seen s' id)%Z ∧
      (id ∈ ms_id <$> left_members (members t) → (status_time ms < seen s' id)%Z).
Proof.
  intros Hp Hf Hs Ht Hreg Hev Hc Hlen. rewrite local_state_merged by done.
  destruct (witness_remote_frame s (Clock.time (clock t)) (Clock.time (event_clock t))
    (Clock.time (query_clock t))) as (Hm & Hloc & Hec & Hst & Hop & Hck).
  set (s0 := witness_remote s _ _ _) in *.
  assert (∀ j, seen s0 j = seen s j) as Hseen by (intros j; unfold seen; by rewrite Hm).
  assert (∀ j, slot_of s0 j = slot_of s j) as Hslot by (intros j; unfold slot_of; by rewrite Hm).
  assert (∀ j o, around None s0 j o = around None s j o) as Haround.
  { intros j o. unfold around, local_id, reaped. by rewrite Hm, Hloc, Hst, Hop. }
  destruct (merge_catches_up s0 t (Clock.time (event_clock t)) is_join now)
    as (s' & Hs' & Hw' & Hmono & Hlife & Hcatch); rewrite ?Hm, ?Hec; try done.
  { apply Hck; [done|apply (ppf_event_ltime _ _ Hp)]. }
  exists s'. split_and!; [done..| | |].
  - intros j. rewrite <- Hseen. apply Hmono.
  - intros id. specialize (Hlife id). destruct (states (members t) !! id) as [ms|];
      by rewrite ?Haround, Hslot in Hlife.
  - intros id ms Hms Hne. apply Hcatch; [done|]. unfold local_id in *. by rewrite Hloc.
Qed.

(** ** Tags *)

(** C34: The tags a node sets are the tags its peers see: once [set_tags] has
    accepted a table, [node_meta] announces it without a panic, and a peer
    that receives the announcement shows a member with exactly those tags. *)
Theorem tags_announced s s' tg limit nd st pv dv :
  tags_fit tg → fits_u32 (tags_encoded_len_ tg) → (meta_max_size <= limit)%Z →
  set_tags s tg true = (s', Ok tt) →
  ∃ meta, node_meta (opt_tags (opts s')) limit = Done meta ∧
    node_to_member (mkNodeState nd meta st pv dv) =
      Ok (mkMember nd tg (if decide (st = NSLeft) then MemberStatus.Left else MemberStatus.None)
            pv dv PV1 DV1).
Proof.
  intros Htg Hf Hlim. unfold set_tags. cbn [META_MAX_SIZE codec wire_codec].
  case_match eqn:Hmax; [done|]. intros [= <-]. cbn [opts set_opts opt_tags set_opt_tags].
  apply Z.ltb_ge in Hmax. cbn [tags_encoded_len_with_length_delimited codec wire_codec] in Hmax.
  destruct (tags_codes tg Htg) as (bs & r & Hc). pose proof (codes_len _ _ _ _ Hc) as Hl.
  simpl in Hl. rewrite <- Hl in Hf.
  destruct (ld_delimited tags_data tg bs r eq_refl Hc Hf) as (pre & _ & Hld).
  rewrite <- (entry_len Hld), length_app in Hmax. exists bs.
  assert (tg ≠ [] → node_meta tg limit = Done bs) as Hmeta.
  { intros Hne. unfold node_meta. destruct tg as [|p tg]; [done|].
    cbn [tags_encoded_len encode_tags META_MAX_SIZE codec wire_codec].
    rewrite <- Hl. rewrite (proj2 (Z.ltb_ge _ _)) by lia.
    rewrite (codes_encode _ _ _ _ Hc : ∀ n, _ → tags_encode _ n = _) by lia.
    rewrite (proj2 (Z.ltb_ge _ _)) by lia.
    by rewrite Nat2Z.id, Nat.sub_diag, app_nil_r. }
  split; [destruct tg as [|p tg]; [|by apply Hmeta]|].
  { cbn in Hl. by destruct bs. }
  unfold node_to_member. cbn [META_MAX_SIZE codec wire_codec meta ns_node ns_state ns_protocol_version ns_delegate_version].
  rewrite (proj2 (Z.ltb_ge _ _)) by lia. case_decide as Hnil.
  - subst bs. destruct tg as [|p tg]; [done|]. unfold tags_encoded_len_ in Hl. simpl in Hl. lia.
  - cbn [decode_tags codec wire_codec].
    pose proof (codes_decode _ _ _ _ Hc []) as Hd. rewrite app_nil_r in Hd. simpl in Hd.
    rewrite Hd by done. pose proof (codes_from_ref _ _ _ _ Hc) as Hr. simpl in Hr. by rewrite Hr.
Qed.

End facts.
