(* ===== verification/Fuzzy.v ===== *)
(** * The round-trip check of the fuzzer (types/fuzzy.rs, fuzz_targets/messages.rs)

    [encodable_round_trip] is the property the fuzzer and the random tests
    check on every message, alone or inside a relay envelope: it is encoded
    into the announced length, decodes to its own kind and converts back to
    an equal value.  A failed [assert_eq!] or [unwrap] is a panic. *)

From Stdlib Require Import ZArith Lia Strings.Byte.
From stdpp Require Import base list gmap strings.
From S2P Require Import Prelude Types Wire CodecIntents CodecEvents CodecQuery.
From S2P Require Import CodecMember CodecPushPull CodecKeys CodecMessage.
Local Open Scope serf_scope.

Definition unwrap {T E} (r : Result T E) : outcome T :=
  match r with Ok v => Done v | Err _ => Panic end.

Definition asserted (b : bool) : outcome unit := if b then Done tt else Panic.

(** ** [PartialEq], as the types derive or implement it *)

(** indexmap compares contents and not order. *)
Definition index_map_eq {K V} `{EqDecision K} `{EqDecision V} (a b : list (K * V)) : bool :=
  (length a =? length b)%nat && forallb (λ x, bool_decide (x ∈ b)) a.

Definition index_set_eq {K} `{EqDecision K} (a b : list K) : bool :=
  (length a =? length b)%nat && forallb (λ x, bool_decide (x ∈ b)) a.

Fixpoint list_eq {T} (eq : T → T → bool) (a b : list T) : bool :=
  match a, b with
  | [], [] => true
  | x :: a, y :: b => eq x y && list_eq eq a b
  | _, _ => false
  end.

Lemma members_eq_refl {T} `{EqDecision T} (l : list T) :
  (length l =? length l)%nat && forallb (λ x, bool_decide (x ∈ l)) l = true.
Proof.
  rewrite Nat.eqb_refl. apply forallb_forall. intros x Hx%list_elem_of_In. by apply bool_decide_eq_true.
Qed.

Lemma list_eq_refl {T} (eq : T → T → bool) l : (∀ x, eq x x = true) → list_eq eq l l = true.
Proof. intros Heq. induction l as [|x l IH]; [done|]. simpl. by rewrite Heq, IH. Qed.

Section equality.
Context {I A R K : Type} `{EqDecision I} `{EqDecision A} `{EqDecision K} `{Regex R}.

Definition leave_eq (a b : LeaveMessage I) : bool :=
  bool_decide (leave_ltime a = leave_ltime b) && bool_decide (leave_id a = leave_id b)
  && Bool.eqb (prune a) (prune b).

Definition join_eq (a b : JoinMessage I) : bool :=
  bool_decide (join_ltime a = join_ltime b) && bool_decide (join_id a = join_id b).

Definition user_events_eq (a b : UserEvents) : bool :=
  bool_decide (ues_ltime a = ues_ltime b) && bool_decide (ues_events a = ues_events b).

Definition push_pull_eq (a b : PushPullMessage I) : bool :=
  bool_decide (pp_ltime a = pp_ltime b)
  && index_map_eq (pp_status_ltimes a) (pp_status_ltimes b)
  && index_set_eq (pp_left_members a) (pp_left_members b)
  && bool_decide (pp_event_ltime a = pp_event_ltime b)
  && list_eq user_events_eq (pp_events a) (pp_events b)
  && bool_decide (pp_query_ltime a = pp_query_ltime b).

Definition uem_eq (a b : UserEventMessage) : bool := bool_decide (a = b).

(** Expressions are compared by their text. *)
Definition tag_filter_eq (a b : TagFilter R) : bool :=
  bool_decide (tf_tag a = tf_tag b)
  && bool_decide (re_as_str <$> tf_expr a = re_as_str <$> tf_expr b).

Definition filter_eq (a b : Filter I R) : bool :=
  match a, b with
  | FilterId x, FilterId y => bool_decide (x = y)
  | FilterTag t e, FilterTag t' e' => tag_filter_eq (mkTagFilter t e) (mkTagFilter t' e')
  | _, _ => false
  end.

Definition query_eq (a b : QueryMessage I A R) : bool :=
  bool_decide (q_ltime a = q_ltime b) && bool_decide (q_id a = q_id b)
  && bool_decide (q_from a = q_from b) && list_eq filter_eq (q_filters a) (q_filters b)
  && bool_decide (q_flags a = q_flags b) && bool_decide (q_relay_factor a = q_relay_factor b)
  && bool_decide (q_timeout a = q_timeout b) && bool_decide (q_name a = q_name b)
  && bool_decide (q_payload a = q_payload b).

Definition response_eq (a b : QueryResponseMessage I A) : bool :=
  bool_decide (r_ltime a = r_ltime b) && bool_decide (r_id a = r_id b)
  && bool_decide (r_from a = r_from b) && bool_decide (r_flags a = r_flags b)
  && bool_decide (r_payload a = r_payload b).

Definition member_eq (a b : Member I A) : bool :=
  bool_decide (node a = node b) && index_map_eq (tags a) (tags b)
  && bool_decide (status a = status b)
  && bool_decide (memberlist_protocol_version a = memberlist_protocol_version b)
  && bool_decide (memberlist_delegate_version a = memberlist_delegate_version b)
  && bool_decide (protocol_version a = protocol_version b)
  && bool_decide (delegate_version a = delegate_version b).

Definition key_request_eq (a b : KeyRequestMessage K) : bool := bool_decide (kreq_key a = kreq_key b).

Definition key_response_eq (a b : KeyResponseMessage K) : bool :=
  Bool.eqb (kres_result a) (kres_result b) && bool_decide (kres_message a = kres_message b)
  && bool_decide (kres_keys a = kres_keys b)
  && bool_decide (kres_primary_key a = kres_primary_key b).

Ltac refl_bools :=
  rewrite ?andb_true_iff; split_and?;
  first [done | by apply bool_decide_eq_true | apply members_eq_refl | apply Bool.eqb_reflx | idtac].

Lemma filter_eq_refl f : filter_eq f f = true.
Proof. destruct f; [by apply bool_decide_eq_true|]. unfold filter_eq, tag_filter_eq. refl_bools. Qed.

Lemma message_eqs_refl :
  (∀ a, leave_eq a a = true) ∧ (∀ a, join_eq a a = true) ∧ (∀ a, push_pull_eq a a = true) ∧
  (∀ a, uem_eq a a = true) ∧ (∀ a, query_eq a a = true) ∧ (∀ a, response_eq a a = true) ∧
  (∀ a, member_eq a a = true) ∧ (∀ a, key_request_eq a a = true) ∧ (∀ a, key_response_eq a a = true).
Proof.
  split_and!; intros a.
  - unfold leave_eq. refl_bools.
  - unfold join_eq. refl_bools.
  - unfold push_pull_eq. refl_bools. apply list_eq_refl. intros x. unfold user_events_eq. refl_bools.
  - unfold uem_eq. refl_bools.
  - unfold query_eq. refl_bools. apply list_eq_refl, filter_eq_refl.
  - unfold response_eq. refl_bools.
  - unfold member_eq. refl_bools.
  - unfold key_request_eq. refl_bools.
  - unfold key_response_eq. refl_bools.
Qed.

End equality.

(** ** The check *)

Inductive FuzzMessage (I A R K : Type) : Type :=
| FLeave (m : LeaveMessage I)
| FJoin (m : JoinMessage I)
| FPushPull (m : PushPullMessage I)
| FUserEvent (m : UserEventMessage)
| FQuery (m : QueryMessage I A R)
| FQueryResponse (m : QueryResponseMessage I A)
| FConflictResponse (m : Member I A)
| FKeyRequest (m : KeyRequestMessage K)
| FKeyResponse (m : KeyResponseMessage K).
Arguments FLeave {I A R K}.
Arguments FJoin {I A R K}.
Arguments FPushPull {I A R K}.
Arguments FUserEvent {I A R K}.
Arguments FQuery {I A R K}.
Arguments FQueryResponse {I A R K}.
Arguments FConflictResponse {I A R K}.
Arguments FKeyRequest {I A R K}.
Arguments FKeyResponse {I A R K}.

Section check.
Context `{Wire} {I A R K : Type} `{EqDecision I} `{EqDecision A} `{EqDecision K} `{Regex R}
  (DI : Data I) (DA : Data A) (SK : Scalar K).

Abbreviation WireMessage := (MessageWire (K := K) DI DA).
Abbreviation read := (decode_message (R := R) DI DA SK).

Definition fuzz_encode {E} `{EncodeErr E} (data : Encodable E) : outcome bytes :=
  unwrap (encode_message_to_bytes data).
Definition fuzz_encode_relay {E} `{EncodeErr E} (data : Encodable E) (nd : Node I A) : outcome bytes :=
  unwrap (encode_relay_message_to_bytes DI DA data nd).

(** What both arms of [encode_variant!] do with a decoded message: [pick]
    selects the variant and converts it to an owned value. *)
Definition same_variant {T} (eq : T → T → bool) (pick : WireMessage → option (Result T DecodeError))
    (input : T) (decoded : WireMessage) : outcome bool :=
  match pick decoded with
  | None => Done false
  | Some r => run! owned := unwrap r in run! _ := asserted (eq input owned) in Done true
  end.

Definition encode_variant {E T} `{EncodeErr E} (enc : T → Encodable E) (eq : T → T → bool)
    (pick : WireMessage → option (Result T DecodeError)) (input : T) : outcome bool :=
  run! data := fuzz_encode (enc input) in
  run! _ := asserted (length data =? encoded_message_len (enc input))%nat in
  run! decoded := unwrap (read data) in
  same_variant eq pick input decoded.

Definition encode_variant_relay {E T} `{EncodeErr E} (enc : T → Encodable E) (eq : T → T → bool)
    (pick : WireMessage → option (Result T DecodeError)) (input : T) (nd : Node I A) : outcome bool :=
  run! data := fuzz_encode_relay (enc input) nd in
  run! _ := asserted (length data =? encoded_relay_message_len DI DA (enc input) nd)%nat in
  run! decoded := unwrap (read data) in
  match decoded with
  | WRelay _ _ nd' _ payload =>
      run! owned := unwrap (node_from_ref DI DA nd') in
      run! _ := asserted (bool_decide (owned = nd)) in
      run! decoded := unwrap (read payload) in
      same_variant eq pick input decoded
  | _ => Done false
  end.

Definition pick_leave (w : WireMessage) := match w with WLeave _ _ m => Some (leave_from_ref DI m) | _ => None end.
Definition pick_join (w : WireMessage) := match w with WJoin _ _ m => Some (join_from_ref DI m) | _ => None end.
Definition pick_push_pull (w : WireMessage) :=
  match w with WPushPull _ _ m => Some (push_pull_from_ref DI m) | _ => None end.
Definition pick_user_event (w : WireMessage) :=
  match w with WUserEvent _ _ m => Some (uem_from_ref m) | _ => None end.
Definition pick_query (w : WireMessage) :=
  match w with WQuery _ _ m => Some (query_from_ref (R := R) DI DA m) | _ => None end.
Definition pick_response (w : WireMessage) :=
  match w with WQueryResponse _ _ m => Some (response_from_ref DI DA m) | _ => None end.
Definition pick_conflict (w : WireMessage) :=
  match w with WConflictResponse _ _ m => Some (conflict_from_ref DI DA m) | _ => None end.
Definition pick_key_request (w : WireMessage) : option (Result (KeyRequestMessage K) DecodeError) :=
  match w with WKeyRequest _ _ m => Some (Ok m) | _ => None end.
Definition pick_key_response (w : WireMessage) :=
  match w with WKeyResponse _ _ m => Some (key_response_from_ref SK m) | _ => None end.

Definition variant {E T} `{EncodeErr E} (enc : T → Encodable E) (eq : T → T → bool)
    (pick : WireMessage → option (Result T DecodeError)) (input : T) (nd : option (Node I A)) : outcome bool :=
  match nd with
  | Some nd => encode_variant_relay enc eq pick input nd
  | None => encode_variant enc eq pick input
  end.

Definition encodable_round_trip (msg : FuzzMessage I A R K) (nd : option (Node I A)) : outcome bool :=
  match msg with
  | FLeave m => variant (leave_encodable DI) leave_eq pick_leave m nd
  | FJoin m => variant (join_encodable DI) join_eq pick_join m nd
  | FPushPull m => variant (push_pull_encodable DI) push_pull_eq pick_push_pull m nd
  | FUserEvent m => variant user_event_encodable uem_eq pick_user_event m nd
  | FQuery m => variant (query_encodable DI DA) query_eq pick_query m nd
  | FQueryResponse m => variant (response_encodable DI DA) response_eq pick_response m nd
  | FConflictResponse m => variant (conflict_encodable DI DA) member_eq pick_conflict m nd
  | FKeyRequest m => variant (key_request_encodable SK) key_request_eq pick_key_request m nd
  | FKeyResponse m => variant (key_response_encodable SK) key_response_eq pick_key_response m nd
  end.

(** The body of the fuzz target: [assert!] of the check. *)
Definition fuzz_target (data : FuzzMessage I A R K * option (Node I A)) : outcome unit :=
  run! ok := encodable_round_trip data.1 data.2 in asserted ok.

End check.

(** ** It passes *)

#[local] Arguments once : simpl never.

Section facts.
Context `{WireLaws} {I A R K : Type} `{EqDecision I} `{EqDecision A} `{EqDecision K} `{RegexLaws R}
  (DI : Data I) (DA : Data A) (SK : Scalar K).
Context (Hwire : sc_wire SK = WireType.LengthDelimited)
  (Hkey : ∀ k, ∃ bs, codes_ld (scalar SK) k bs k).

Abbreviation WireMessage := (MessageWire (K := K) DI DA).
Abbreviation read := (decode_message (R := R) DI DA SK).

(** [v] encodes itself, and its envelope is read back as [v]. *)
Record travels {E T} `{EncodeErr E} (enc : T → Encodable E)
    (pick : WireMessage → option (Result T DecodeError)) (v : T) : Prop := {
  tr_plain : ∃ bs, (∀ n, length bs ≤ n → enc_encode (enc v) n = Ok bs) ∧
    enc_len (enc v) = length bs ∧ fits_u32 (length bs);
  tr_read : ∃ out w, encode_message_to_bytes (enc v) = Ok out ∧
    length out = encoded_message_len (enc v) ∧ read out = Ok w ∧ pick w = Some (Ok v);
}.

Lemma data_travels {T} (D : Data T) b tag (W : Ref D → WireMessage) pick (v : T) :
  WIRE_TYPE D = WireType.LengthDelimited → (∃ bs r, codes D v bs r) → fits_u32 (encoded_len D v) →
  (∀ tl, message_step (R := R) DI DA SK None 0 b tl =
     try! (k, v) := lift (once (A := WireMessage) None tag (decode_length_delimited D) tl) in
     Ok (k, Some (W v))) →
  (∀ r, pick (W r) = Some (from_ref D r)) →
  travels (λ v, mkEncodable b (encoded_len D v) (encode D v)) pick v.
Proof.
  intros Hw Hc Hfit Hstep Hpick. split.
  - destruct Hc as (bs & r & Hc). exists bs. pose proof (codes_len _ _ _ _ Hc) as Hl.
    split_and!; [apply (codes_encode _ _ _ _ Hc)|done|by rewrite Hl].
  - apply (envelope_stands DI DA SK D v b tag W (λ w, pick w = Some (Ok v)) Hw Hc Hfit Hstep).
    intros r Hr. by rewrite Hpick, Hr.
Qed.

Lemma conflict_travels m :
  member_fits DI DA m → fits_u32 (member_encoded_len DI DA m) → fits_u32 (conflict_encoded_len DI DA m) →
  travels (conflict_encodable DI DA) (pick_conflict DI DA) m.
Proof.
  intros Hm Hf1 Hf2. split.
  - destruct (conflict_codes DI DA m Hm Hf1) as (bs & r & Hl & He & _). exists bs.
    rewrite <- Hl in Hf2. done.
  - destruct (conflict_reads_back (R := R) DI DA SK m Hm Hf1 Hf2) as (out & r & Ho & Hl & Hr & Hm').
    exists out, (WConflictResponse DI DA r). split_and!; [done..|]. cbn. by rewrite Hm'.
Qed.

Lemma travels_passes {E T} `{EncodeErr E} (enc : T → Encodable E) eq pick (v : T) nd :
  travels enc pick v → (∀ x, eq x x = true) → (∀ n, nd = Some n → node_fits DI DA n) →
  variant (R := R) DI DA SK enc eq pick v nd = Done true.
Proof.
  intros [(bs & He & Hl & Hf) (out & w & Ho & Hlen & Hr & Hp)] Heq Hnd.
  destruct nd as [n|]; cbn [variant].
  - destruct (relay_carries (R := R) DI DA SK (enc v) n bs He Hl Hf (Hnd n eq_refl))
      as (rout & rn & payload & off & Hro & Hrl & Hrr & Hn & Hpl & _).
    assert (payload = out) as -> by congruence.
    unfold encode_variant_relay, fuzz_encode_relay. rewrite Hro. cbn [unwrap].
    rewrite Hrl, Nat.eqb_refl. cbn [asserted]. rewrite Hrr. cbn [unwrap]. rewrite Hn. cbn [unwrap].
    rewrite bool_decide_eq_true_2 by done. cbn [asserted]. rewrite Hr. cbn [unwrap].
    unfold same_variant. rewrite Hp. cbn [unwrap]. by rewrite Heq.
  - unfold encode_variant, fuzz_encode. rewrite Ho. cbn [unwrap]. rewrite Hlen, Nat.eqb_refl.
    cbn [asserted]. rewrite Hr. cbn [unwrap]. unfold same_variant. rewrite Hp. cbn [unwrap]. by rewrite Heq.
Qed.

(** What a message must satisfy: [message_fits] of the six that are gossiped,
    and the sizes of the others. *)
Definition fuzz_fits (m : FuzzMessage I A R K) : Prop :=
  match m with
  | FLeave m => message_fits DI DA (MLeave m : Message I A R)
  | FJoin m => message_fits DI DA (MJoin m : Message I A R)
  | FPushPull m => message_fits DI DA (MPushPull m : Message I A R)
  | FUserEvent m => message_fits DI DA (MUserEvent m : Message I A R)
  | FQuery m => message_fits DI DA (MQuery m)
  | FQueryResponse m => message_fits DI DA (MQueryResponse m : Message I A R)
  | FConflictResponse m =>
      member_fits DI DA m ∧ fits_u32 (member_encoded_len DI DA m) ∧ fits_u32 (conflict_encoded_len DI DA m)
  | FKeyRequest m => fits_u32 (key_request_encoded_len SK m)
  | FKeyResponse m => fits_u32 (String.length (kres_message m)) ∧ fits_u32 (key_response_encoded_len SK m)
  end.

(** The check of every kind of message, alone or in a relay envelope. *)
Lemma round_trip_passes m nd :
  fuzz_fits m → (∀ n, nd = Some n → node_fits DI DA n) →
  encodable_round_trip (R := R) DI DA SK m nd = Done true.
Proof.
  intros Hm Hnd.
  destruct (message_eqs_refl (I := I) (A := A) (R := R) (K := K)) as (E1 & E2 & E3 & E4 & E5 & E6 & E7 & E8 & E9).
  destruct m as [m|m|m|m|m|m|m|m|m]; cbn [fuzz_fits] in Hm; unfold encodable_round_trip;
    (apply travels_passes; [|done|done]).
  - destruct Hm as [Hf (Ht & bi & ri & Hid)].
    by apply (data_travels (leave_data DI) _ LEAVE_MESSAGE_TAG (WLeave DI DA));
      [done|destruct (leave_codes DI m bi ri Ht Hid); eauto|..|intros; autounfold with steps; arms|].
  - destruct Hm as [Hf (Ht & bi & ri & Hid)].
    by apply (data_travels (join_data DI) _ JOIN_MESSAGE_TAG (WJoin DI DA));
      [done|destruct (join_codes DI m bi ri Ht Hid); eauto|..|intros; autounfold with steps; arms|].
  - destruct Hm as [Hf Hm].
    by apply (data_travels (push_pull_data DI) _ PUSH_PULL_MESSAGE_TAG (WPushPull DI DA));
      [done|apply push_pull_codes|..|intros; autounfold with steps; arms|].
  - destruct Hm as [Hf (Ht & Hn & Hp)].
    by apply (data_travels uem_data _ USER_EVENT_MESSAGE_TAG (WUserEvent DI DA));
      [done|destruct (uem_codes m Ht Hn Hp); eauto|..|intros; autounfold with steps; arms|].
  - destruct Hm as [Hf Hm].
    by apply (data_travels (query_data DI DA) _ QUERY_MESSAGE_TAG (WQuery DI DA));
      [done|apply query_codes|..|intros; autounfold with steps; arms|].
  - destruct Hm as [Hf (Ht & Hi & Hg & Hp & bf & rf & Hn)].
    by apply (data_travels (response_data DI DA) _ QUERY_RESPONSE_MESSAGE_TAG (WQueryResponse DI DA));
      [done|destruct (response_codes DI DA m bf rf Ht Hi Hg Hp Hn); eauto|..|intros; autounfold with steps; arms|].
  - destruct Hm as (Hm & Hf1 & Hf2). by apply conflict_travels.
  - by apply (data_travels (key_request_data SK) _ KEY_REQUEST_MESSAGE_TAG (WKeyRequest DI DA));
      [done|destruct (key_request_codes SK Hkey m); eauto|..|intros; autounfold with steps; arms|].
  - destruct Hm as [Hl Hf].
    by apply (data_travels (key_response_data SK) _ KEY_RESPONSE_TAG (WKeyResponse DI DA));
      [done|by apply key_response_codes|..|intros; autounfold with steps; arms|].
Qed.

(** C10: The fuzz target does not fail: every message of each of the nine
    kinds, alone or in a relay envelope to any node, is encoded into the
    length announced for it, decodes to its own kind and converts back to a
    value that is equal to it, whatever the messages, ids and addresses, as
    long as their parts encode themselves: lengths fit their prefixes, no
    filter is an empty list of ids or has an empty expression, and a status
    or version is the one its byte stands for. *)
Theorem fuzz_target_passes m nd :
  fuzz_fits m → (∀ n, nd = Some n → node_fits DI DA n) →
  fuzz_target (R := R) DI DA SK (m, nd) = Done tt.
Proof. intros Hm Hnd. unfold fuzz_target. cbn [fst snd]. by rewrite round_trip_passes. Qed.

End facts.
