(* ===== verification/Generators.v ===== *)
(** * Random values of the messages (types/quickcheck_impl.rs, types/arbitrary_impl.rs)

    The random tests draw messages from quickcheck's [Gen], the fuzzer from
    arbitrary's [Unstructured].  Both are a [Source]: what they draw of
    the standard types, as a class with its laws; [rand]'s dice go with it.
    A generator is a function of the source that yields a value, refuses for
    want of data, panics, or has not finished within the rounds it was given
    ([Again], for the loops that repeat until a value is acceptable). *)

From Stdlib Require Import ZArith Lia Strings.Byte.
From stdpp Require Import base list gmap strings.
From S2P Require Import Prelude Clock Coordinate Types Wire CodecIntents CodecEvents CodecQuery.
From S2P Require Import CodecMember CodecPushPull CodecKeys CodecMessage Fuzzy.
Local Open Scope Z_scope.

Inductive Draw (G T : Type) : Type :=
| Got (v : T) (g : G)
| NotEnough
| Panics
| Again.
Arguments Got {G T}.
Arguments NotEnough {G T}.
Arguments Panics {G T}.
Arguments Again {G T}.

Abbreviation gen G T := (G → Draw G T).

Definition gbind {G T U} (x : gen G T) (k : T → gen G U) : gen G U := λ g,
  match x g with
  | Got v g => k v g
  | NotEnough => NotEnough
  | Panics => Panics
  | Again => Again
  end.
Definition gret {G T} (v : T) : gen G T := λ g, Got v g.
Definition gmap_ {G T U} (f : T → U) (x : gen G T) : gen G U := gbind x (λ v, gret (f v)).

Declare Scope gen_scope.
Notation "'draw!' x := c 'in' k" := (gbind c (λ x, k))
  (at level 10, x name, c at level 100, k at level 200) : gen_scope.
Local Open Scope gen_scope.

(** ** The sources *)

Class Source (G : Type) : Type := {
  draw_bool : gen G bool;
  draw_u8 : gen G Z;
  draw_u32 : gen G Z;
  draw_u64 : gen G Z;
  draw_usize : gen G Z;
  draw_duration : gen G Z;
  draw_f64 : gen G F64.f64;
  draw_string : gen G string;
  draw_bytes : gen G bytes;
  draw_vec {T} : gen G T → gen G (list T);
  draw_option {T} : gen G T → gen G (option T);
  draw_choose : nat → gen G nat;  (** an index below a positive number *)
  draw_range : Z → Z → gen G Z;
  draw_ratio : Z → Z → gen G bool;
  draw_map {K V} `{EqDecision K} : gen G K → gen G V → gen G (list (K * V));  (** a [HashMap], in its order *)
  draw_set {K} `{EqDecision K} : gen G K → gen G (list K);
}.

(** [x] returns, and what it yields satisfies [P]; where it panics, [bad]
    holds. *)
Definition yields_or {G T} (bad : Prop) (x : gen G T) (P : T → Prop) : Prop :=
  ∀ g, match x g with Got v _ => P v | NotEnough => True | Panics => bad | Again => False end.

(** It does not panic. *)
Abbreviation yields := (yields_or False).

Class SourceLaws (G : Type) `{Source G} : Prop := {
  bool_yields : yields draw_bool (λ _, True);
  u8_yields : yields draw_u8 (λ v, 0 <= v < 256);
  u32_yields : yields draw_u32 (λ v, 0 <= v < u32_modulus);
  u64_yields : yields draw_u64 is_u64;
  usize_yields : yields draw_usize is_u64;
  duration_yields : yields draw_duration (λ v, 0 <= v);
  f64_yields : yields draw_f64 (λ _, True);
  string_yields : yields draw_string (λ _, True);
  bytes_yields : yields draw_bytes (λ _, True);
  vec_yields {T} bad (x : gen G T) P : yields_or bad x P → yields_or bad (draw_vec x) (Forall P);
  option_yields {T} bad (x : gen G T) P :
    yields_or bad x P → yields_or bad (draw_option x) (λ o, ∀ v, o = Some v → P v);
  choose_yields n : (0 < n)%nat → yields (draw_choose n) (λ i, (i < n)%nat);
  range_yields lo hi : lo <= hi → yields (draw_range lo hi) (λ v, lo <= v <= hi);
  ratio_yields a b : yields (draw_ratio a b) (λ _, True);
  map_yields {K V} `{EqDecision K} (k : gen G K) (v : gen G V) P Q :
    yields k P → yields v Q →
    yields (draw_map k v) (λ m, NoDup m.*1 ∧ Forall (λ p, P p.1 ∧ Q p.2) m);
  set_yields {K} `{EqDecision K} (k : gen G K) P : yields k P → yields (draw_set k) (λ m, NoDup m ∧ Forall P m);
}.

Section rules.
Context {G : Type}.

Lemma yields_lift {T} bad (x : gen G T) P : yields x P → yields_or bad x P.
Proof. intros Hx g. specialize (Hx g). by destruct (x g). Qed.

Lemma yields_ret {T} bad (v : T) (P : T → Prop) : P v → yields_or (G := G) bad (gret v) P.
Proof. by intros Hv g. Qed.

Lemma yields_bind {T U} bad (x : gen G T) (k : T → gen G U) P Q :
  yields_or bad x P → (∀ v, P v → yields_or bad (k v) Q) → yields_or bad (gbind x k) Q.
Proof.
  intros Hx Hk g. specialize (Hx g). unfold gbind. destruct (x g) as [v g'| | |]; try done. by apply Hk.
Qed.

Lemma yields_map {T U} bad (f : T → U) (x : gen G T) P Q :
  yields_or bad x P → (∀ v, P v → Q (f v)) → yields_or bad (gmap_ f x) Q.
Proof. intros Hx Hf. eapply yields_bind; [exact Hx|]. intros v Hv. by apply yields_ret, Hf. Qed.

End rules.

Create HintDb yields discriminated.
#[export] Hint Resolve bool_yields u8_yields u32_yields u64_yields usize_yields duration_yields f64_yields
  string_yields bytes_yields ratio_yields vec_yields option_yields : yields.
#[export] Hint Extern 5 (yields_or ?bad _ _) =>
  (tryif constr_eq bad False then fail else apply yields_lift) : yields.

(** ** Expressions of tag filters *)

Section patterns.
Context {G : Type} `{Source G}.

Definition CHARACTER_CLASSES : list string :=
  ["\d"; "\w"; "\s"; "[a-z]"; "[A-Z]"; "[0-9]"; "[a-zA-Z]"; "[a-zA-Z0-9]"; "."]%string.
Definition NEGATED_CLASSES : list string := ["[^a-z]"; "[^0-9]"; "\D"; "\W"; "\S"]%string.
Definition QUANTIFIERS : list string := [EmptyString; "*"; "+"; "?"; "{1,3}"; "{2,5}"]%string.

Definition choose (l : list string) : gen G string :=
  draw! i := draw_choose (length l) in gret (default EmptyString (l !! i)).

(** A character class and a quantifier, one after the other. *)
Definition part (classes : list string) : gen G string :=
  draw! char_class := choose classes in
  draw! quantifier := choose QUANTIFIERS in
  gret (char_class +:+ quantifier).

Fixpoint parts (n : nat) (classes : list string) : gen G (list string) :=
  match n with
  | O => gret []
  | S n => draw! p := part classes in draw! ps := parts n classes in gret (p :: ps)
  end.

Definition patterns (complexity : Z) : gen G (list string) :=
  let classes := if 1 <? complexity then CHARACTER_CLASSES ++ NEGATED_CLASSES else CHARACTER_CLASSES in
  draw! group :=
    (if 2 <? complexity then draw! p := part classes in gret [("(" +:+ p +:+ ")")%string] else gret []) in
  draw! rest := parts (Z.to_nat complexity) classes in
  draw! anchored := (if 2 <? complexity then draw_ratio 7 10 else gret false) in
  draw! anchors :=
    (if anchored then
       draw! start := draw_bool in
       draw! fin := draw_bool in
       gret (if start : bool then ["^"%string] else [], if fin : bool then ["$"%string] else [])
     else gret ([], [])) in
  let ps := anchors.1 ++ (group ++ rest) ++ anchors.2 in
  draw! alternation := (if 3 <? complexity then draw_ratio 6 10 else gret false) in
  if alternation : bool then draw! p := part classes in gret (ps ++ [("|" +:+ p)%string])
  else gret ps.

(** [try_into().unwrap()] of the parts joined *)
Definition compile {R} `{Regex R} (ps : list string) : gen G R :=
  match re_new (String.concat EmptyString ps) with
  | Ok r => gret r
  | Err _ => λ _, Panics
  end.

End patterns.

(** *** The expressions compile *)

(** Expressions of the regex crate's syntax that the generators stay within:
    classes with a quantifier, groups, anchors, alternatives, sequences. *)
Inductive pattern : string → Prop :=
| pat_empty : pattern EmptyString
| pat_class c q : c ∈ CHARACTER_CLASSES ++ NEGATED_CLASSES → q ∈ QUANTIFIERS → pattern (c +:+ q)
| pat_group p : pattern p → pattern ("(" +:+ p +:+ ")")%string
| pat_start : pattern "^"%string
| pat_end : pattern "$"%string
| pat_or p q : pattern p → pattern q → pattern (p +:+ "|" +:+ q)%string
| pat_seq p q : pattern p → pattern q → pattern (p +:+ q).

(** Of these, the short ones: neither nested nor repeated deeply. *)
Definition short_pattern (p : string) : Prop :=
  pattern p ∧ p ≠ EmptyString ∧ (String.length p ≤ 117)%nat.

(** A regular expression keeps the text it was made of. *)
Class RegexText (R : Type) `{Regex R} : Prop :=
  re_as_str_new p r : re_new p = Ok r → re_as_str r = p.

(** The regex crate refuses one of the short expressions. *)
Definition refuses_pattern (R : Type) `{Regex R} : Prop :=
  ∃ p e, short_pattern p ∧ re_new (R := R) p = Err e.

Lemma concat_cons p ps : String.concat EmptyString (p :: ps) = p +:+ String.concat EmptyString ps.
Proof.
  destruct ps; [|done]. simpl. by rewrite string_app_nil_r.
Qed.

Lemma concat_pattern ps : Forall pattern ps → pattern (String.concat EmptyString ps).
Proof.
  induction 1 as [|p ps Hp _ IH]; [apply pat_empty|]. rewrite concat_cons. by apply pat_seq.
Qed.

Section pattern_facts.
Context {G : Type} `{SourceLaws G}.

Lemma choose_elem l : l ≠ [] → yields_or (G := G) False (choose l) (λ x, x ∈ l).
Proof.
  intros Hl. eapply yields_bind; [apply choose_yields; destruct l; [done|simpl; lia]|].
  intros i Hi. apply yields_ret. destruct (lookup_lt_is_Some_2 l i Hi) as [x Hx]. rewrite Hx.
  by eapply list_elem_of_lookup_2.
Qed.

Lemma string_app_length (s t : string) : String.length (s +:+ t) = (String.length s + String.length t)%nat.
Proof. induction s as [|c s IH]; [done|]. cbn. by rewrite <- IH. Qed.

(** The text of a list of parts, and its length. *)
Definition text_len (ps : list string) : nat := String.length (String.concat EmptyString ps).

Lemma text_len_app ps qs : text_len (ps ++ qs) = (text_len ps + text_len qs)%nat.
Proof.
  unfold text_len. induction ps as [|p ps IH]; [done|]. cbn [app].
  rewrite !concat_cons, !string_app_length, IH. lia.
Qed.

Lemma text_len_one p : text_len [p] = String.length p.
Proof. done. Qed.

(** A class with its quantifier. *)
Definition atom (p : string) : Prop := pattern p ∧ p ≠ EmptyString ∧ (String.length p ≤ 16)%nat.

Lemma part_pattern classes :
  classes ⊆ CHARACTER_CLASSES ++ NEGATED_CLASSES → classes ≠ [] → yields_or (G := G) False (part classes) atom.
Proof.
  intros Hc Hne. eapply yields_bind; [by apply choose_elem|]. intros c Hcl.
  eapply yields_bind; [by apply choose_elem|]. intros q Hq. apply yields_ret.
  apply Hc in Hcl. split; [by apply pat_class|]. rewrite string_app_length. split.
  - clear -Hcl. set_unfold. naive_solver.
  - assert (String.length c ≤ 11)%nat by (clear -Hcl; set_unfold; naive_solver lia).
    assert (String.length q ≤ 5)%nat by (clear -Hq; set_unfold; naive_solver lia). lia.
Qed.

Lemma parts_pattern classes n :
  classes ⊆ CHARACTER_CLASSES ++ NEGATED_CLASSES → classes ≠ [] →
  yields_or (G := G) False (parts n classes) (λ ps, length ps = n ∧ Forall atom ps ∧ (text_len ps ≤ 16 * n)%nat).
Proof.
  intros Hc Hne. induction n as [|n IH]; [by apply yields_ret|]. cbn [parts].
  eapply yields_bind; [by apply part_pattern|]. intros p Hp.
  eapply yields_bind; [exact IH|]. intros ps (Hl & Hps & Ht). apply yields_ret.
  split; [simpl; lia|]. split; [by constructor|]. change (p :: ps) with ([p] ++ ps).
  rewrite text_len_app, text_len_one.
  destruct Hp as (_ & _ & Hp). lia.
Qed.

(** A condition that decides whether to draw at all. *)
Lemma yields_if {T} bad (b : bool) (x y : gen G T) P :
  yields_or bad x P → yields_or bad y P → yields_or bad (if b then x else y) P.
Proof. by destruct b. Qed.

Lemma concat_nonempty p ps : p ≠ EmptyString → p ∈ ps → String.concat EmptyString ps ≠ EmptyString.
Proof.
  intros Hp. induction ps as [|q ps IH]; [set_solver|]. rewrite concat_cons.
  intros [<-|Hin]%elem_of_cons; [by destruct p|]. destruct q; [|done]. by apply IH.
Qed.

(** The parts drawn so far: patterns, no longer than [n]. *)
Definition pieces (n : nat) (ps : list string) : Prop := Forall pattern ps ∧ (text_len ps ≤ n)%nat.

Lemma group_pieces classes (b : bool) :
  yields_or (G := G) False (part classes) atom →
  yields_or (G := G) False (if b then draw! p := part classes in gret [("(" +:+ p +:+ ")")%string] else gret []) (pieces 18).
Proof.
  intros Hpart. apply yields_if; [|apply yields_ret; split; [done|cbn; lia]].
  eapply yields_bind; [exact Hpart|]. intros p (Hp & _ & Hl). apply yields_ret. split.
  - by apply Forall_singleton, pat_group.
  - rewrite text_len_one, !string_app_length. cbn. lia.
Qed.

Lemma anchor_pieces (b : bool) :
  yields_or (G := G) False
    (if b then
       draw! start := draw_bool in
       draw! fin := draw_bool in
       gret (if start : bool then ["^"%string] else [], if fin : bool then ["$"%string] else [])
     else gret ([], [])) (λ a, pieces 1 a.1 ∧ pieces 1 a.2).
Proof.
  apply yields_if; [|apply yields_ret; by repeat split; cbn; try lia].
  eapply yields_bind; [apply bool_yields|]. intros st _.
  eapply yields_bind; [apply bool_yields|]. intros fi _. apply yields_ret.
  destruct st, fi; unfold pieces; simpl; rewrite ?Forall_singleton, ?Forall_nil; cbn;
    auto using pat_start, pat_end.
Qed.

(** Whatever is drawn, the parts put together are an expression of the
    syntax, short and not empty. *)
Lemma patterns_pattern complexity :
  1 <= complexity <= 5 →
  yields_or (G := G) False (patterns complexity) (λ ps, short_pattern (String.concat EmptyString ps)).
Proof.
  intros Hc. unfold patterns.
  set (classes := if 1 <? complexity then _ else _).
  assert (classes ⊆ CHARACTER_CLASSES ++ NEGATED_CLASSES ∧ classes ≠ []) as [Hcl Hne].
  { unfold classes. destruct (1 <? complexity); split; try done. set_solver. }
  pose proof (part_pattern classes Hcl Hne) as Hpart.
  eapply yields_bind; [by apply group_pieces|]. intros group [Hg Hgl].
  eapply yields_bind; [by apply parts_pattern|]. intros rest (Hlen & Hrest & Hrl).
  eapply (yields_bind _ _ _ (λ _, True)); [apply yields_if; [apply ratio_yields|by apply yields_ret]|].
  intros anchored _. eapply yields_bind; [apply anchor_pieces|]. intros anchors [[Ha1 Hl1] [Ha2 Hl2]].
  set (ps := anchors.1 ++ (group ++ rest) ++ anchors.2).
  assert (text_len ps ≤ 100)%nat as Hl by (unfold ps; rewrite !text_len_app; lia).
  assert (Forall pattern ps ∧ ∃ p, p ≠ EmptyString ∧ p ∈ ps) as [Hps (p & Hp & Hin)].
  { split.
    - unfold ps. rewrite !Forall_app. split_and!; try done. by eapply Forall_impl; [exact Hrest|]; intros ? [].
    - destruct rest as [|p rest]; [simpl in Hlen; lia|]. apply Forall_cons in Hrest as [(_ & Hp & _) _].
      exists p. split; [done|]. unfold ps. set_solver. }
  eapply (yields_bind _ _ _ (λ _, True)); [apply yields_if; [apply ratio_yields|by apply yields_ret]|].
  intros alt _. apply yields_if.
  - eapply yields_bind; [exact Hpart|]. intros q (Hq & _ & Hql). apply yields_ret. split_and!.
    + apply concat_pattern. rewrite Forall_app, Forall_singleton. split; [done|].
      apply (pat_or EmptyString); [apply pat_empty|done].
    + eapply concat_nonempty; [exact Hp|set_solver].
    + fold (text_len (ps ++ ["|" +:+ q])). rewrite text_len_app, text_len_one, string_app_length. cbn. lia.
  - apply yields_ret. split_and!; [by apply concat_pattern|by eapply concat_nonempty|]. fold (text_len ps). lia.
Qed.

(** So compiling them panics only where the regex crate refuses one. *)
Lemma compile_yields {R} `{RegexText R} ps :
  short_pattern (String.concat EmptyString ps) →
  yields_or (G := G) (refuses_pattern R) (compile (R := R) ps) (λ r, re_as_str r ≠ EmptyString).
Proof.
  intros Hp. unfold compile. destruct (re_new _) as [r|e] eqn:Hr.
  - apply yields_ret. rewrite (re_as_str_new _ _ Hr). apply Hp.
  - intros g. by exists (String.concat EmptyString ps), e.
Qed.

End pattern_facts.

(** ** quickcheck

    [I], [A], nodes, memberlist's versions and keys have generators of their
    own crates. *)

Section quickcheck.
Context {G I A R K : Type} `{Source G} `{EqDecision I} `{Regex R}
  (gI : gen G I) (gA : gen G A) (gNode : gen G (Node I A)) (gKey : gen G K)
  (gMpv : gen G ProtocolVersion) (gMdv : gen G DelegateVersion).

Definition qc_ProtocolVersion : gen G ProtocolVersion := gmap_ protocol_version_of_u8 draw_u8.
Definition qc_DelegateVersion : gen G DelegateVersion := gmap_ delegate_version_of_u8 draw_u8.
Definition qc_MemberStatus : gen G MemberStatus.t := gmap_ MemberStatus.of_u8 draw_u8.
Definition qc_LamportTime : gen G Z := draw_u64.

Definition qc_UserEvent : gen G UserEvent :=
  draw! name := draw_string in
  draw! payload := draw_bytes in
  gret (mkUserEvent name payload).

Definition qc_UserEvents : gen G UserEvents :=
  draw! ltime := draw_u64 in
  draw! events := draw_vec qc_UserEvent in
  gret (mkUserEvents ltime events).

Definition qc_UserEventMessage : gen G UserEventMessage :=
  draw! ltime := draw_u64 in
  draw! name := draw_string in
  draw! payload := draw_bytes in
  draw! cc := draw_bool in
  gret (mkUserEventMessage ltime name payload cc).

Definition qc_TagFilter : gen G (TagFilter R) :=
  draw! tag := draw_string in
  draw! some := draw_bool in
  if some : bool then
    draw! i := draw_choose 5 in
    draw! ps := patterns (default 1 ([1; 2; 3; 4; 5] !! i)) in
    draw! r := compile ps in
    gret (mkTagFilter tag (Some r))
  else gret (mkTagFilter tag None).

Definition qc_Tags : gen G Tags :=
  draw! l := draw_vec (draw! k := draw_string in draw! v := draw_string in gret (k, v)) in
  gret (index_map_of l).

Definition qc_QueryFlag : gen G Z :=
  draw! b := draw_bool in gret (if b : bool then FLAG_NO_BROADCAST else FLAG_ACK).

Definition qc_Filter : gen G (Filter I R) :=
  draw! id := draw_bool in
  if id : bool then draw! ids := draw_vec gI in gret (FilterId ids)
  else draw! f := qc_TagFilter in gret (FilterTag (tf_tag f) (tf_expr f)).

Definition qc_QueryMessage : gen G (QueryMessage I A R) :=
  draw! ltime := qc_LamportTime in
  draw! flags := qc_QueryFlag in
  draw! id := draw_u32 in
  draw! from := gNode in
  draw! filters := draw_vec qc_Filter in
  draw! relay_factor := draw_u8 in
  draw! timeout := draw_duration in
  draw! name := draw_string in
  draw! payload := draw_bytes in
  gret (mkQuery ltime id from filters flags relay_factor timeout name payload).

Definition qc_QueryResponseMessage : gen G (QueryResponseMessage I A) :=
  draw! ltime := qc_LamportTime in
  draw! id := draw_u32 in
  draw! from := gNode in
  draw! flags := qc_QueryFlag in
  draw! payload := draw_bytes in
  gret (mkQueryResponse ltime id from flags payload).

Definition qc_PushPullMessage : gen G (PushPullMessage I) :=
  draw! ltime := qc_LamportTime in
  draw! sts := draw_vec (draw! i := gI in draw! t := qc_LamportTime in gret (i, t)) in
  draw! left := draw_vec gI in
  draw! event_ltime := qc_LamportTime in
  draw! events := draw_vec qc_UserEvents in
  draw! query_ltime := qc_LamportTime in
  gret (mkPushPull ltime (index_map_of sts) (index_set_of left) event_ltime events query_ltime).

Definition qc_Member : gen G (Member I A) :=
  draw! nd := gNode in
  draw! tg := qc_Tags in
  draw! st := qc_MemberStatus in
  draw! mpv := gMpv in
  draw! mdv := gMdv in
  draw! pv := qc_ProtocolVersion in
  draw! dv := qc_DelegateVersion in
  gret (mkMember nd tg st mpv mdv pv dv).

Definition qc_LeaveMessage : gen G (LeaveMessage I) :=
  draw! ltime := qc_LamportTime in
  draw! prune := draw_bool in
  draw! id := gI in
  gret (mkLeave ltime id prune).

Definition qc_JoinMessage : gen G (JoinMessage I) :=
  draw! ltime := qc_LamportTime in
  draw! id := gI in
  gret (mkJoin ltime id).

Definition qc_KeyRequestMessage : gen G (KeyRequestMessage K) :=
  draw! key := draw_option gKey in gret (mkKeyRequest key).

Definition qc_KeyResponseMessage : gen G (KeyResponseMessage K) :=
  draw! result := draw_bool in
  draw! message := draw_string in
  draw! keys := draw_vec gKey in
  draw! primary := draw_option gKey in
  gret (mkKeyResponse result message keys primary).

Definition qc_ConflictResponseMessage : gen G (Member I A) := qc_Member.

(** [MessageType::ALL.len()], with the keys' messages. *)
Definition NUM_MESSAGE_TYPES : Z := 10.

Definition qc_MessageType : gen G MessageType.t :=
  draw! v := draw_u8 in gret (MessageType.of_u8 (v mod NUM_MESSAGE_TYPES)).

(** The loop of [rand_f64_not_nan]; [fuel] rounds. *)
Fixpoint qc_rand_f64_not_nan (fuel : nat) : gen G F64.f64 :=
  match fuel with
  | O => λ _, Again
  | S fuel => draw! f := draw_f64 in if F64.is_nan f then qc_rand_f64_not_nan fuel else gret f
  end.

Definition not_nan (f : F64.f64) : F64.f64 := if F64.is_nan f then F64.zero else f.

Definition qc_Coordinate (fuel : nat) : gen G Coordinate :=
  draw! p := draw_vec draw_f64 in
  draw! error := qc_rand_f64_not_nan fuel in
  draw! adjustment := qc_rand_f64_not_nan fuel in
  draw! height := qc_rand_f64_not_nan fuel in
  gret (mkCoordinate (not_nan <$> p) error adjustment height).

(** A kind that is not one of the fuzzer's messages is drawn again. *)
Fixpoint qc_Message (fuel : nat) : gen G (FuzzMessage I A R K) :=
  match fuel with
  | O => λ _, Again
  | S fuel =>
      draw! kind := qc_MessageType in
      match kind with
      | MessageType.ConflictResponse => gmap_ FConflictResponse qc_ConflictResponseMessage
      | MessageType.Join => gmap_ FJoin qc_JoinMessage
      | MessageType.Leave => gmap_ FLeave qc_LeaveMessage
      | MessageType.PushPull => gmap_ FPushPull qc_PushPullMessage
      | MessageType.Query => gmap_ FQuery qc_QueryMessage
      | MessageType.QueryResponse => gmap_ FQueryResponse qc_QueryResponseMessage
      | MessageType.UserEvent => gmap_ FUserEvent qc_UserEventMessage
      | MessageType.KeyRequest => gmap_ FKeyRequest qc_KeyRequestMessage
      | MessageType.KeyResponse => gmap_ FKeyResponse qc_KeyResponseMessage
      | _ => qc_Message fuel
      end
  end.

End quickcheck.

(** ** arbitrary

    [Unstructured] hands out the bytes of the fuzzer's input.  Types whose
    [Arbitrary] is derived draw their fields by the derive macro: their
    generators are parameters. *)

Section arbitrary.
Context {G I A R K : Type} `{Source G} `{EqDecision I} `{EqDecision K} `{Regex R}.

(** [into], and the two collections by way of a [HashMap] or [HashSet]. *)
Definition arb_into {F T} (into : F → T) (x : gen G F) : gen G T := gmap_ into x.

Definition arbitrary_indexmap {T U} `{EqDecision T} (k : gen G T) (v : gen G U) : gen G (list (T * U)) :=
  draw! m := draw_map k v in gret (index_map_of m).
Definition arbitrary_indexset {T} `{EqDecision T} (k : gen G T) : gen G (list T) :=
  draw! m := draw_set k in gret (index_set_of m).

Definition arb_Filter (gI : gen G I) : gen G (Filter I R) :=
  draw! kind := draw_bool in
  if kind : bool then arb_into FilterId (draw_vec gI)
  else
    draw! tag := draw_string in
    draw! some := draw_bool in
    if some : bool then
      draw! complexity := draw_range 1 5 in
      draw! ps := patterns complexity in
      draw! r := compile ps in
      gret (FilterTag tag (Some r))
    else gret (FilterTag tag None).

Definition arb_QueryFlag : gen G Z :=
  draw! b := draw_bool in gret (if b : bool then FLAG_NO_BROADCAST else FLAG_ACK).
Definition arb_ProtocolVersion : gen G ProtocolVersion := gmap_ protocol_version_of_u8 draw_u8.
Definition arb_DelegateVersion : gen G DelegateVersion := gmap_ delegate_version_of_u8 draw_u8.
Definition arb_MemberStatus : gen G MemberStatus.t := gmap_ MemberStatus.of_u8 draw_u8.

Record ArbKeyResponse : Type := mkArbKeyResponse {
  ak_messages : list (I * string); ak_num_nodes : Z; ak_num_resp : Z; ak_num_err : Z;
  ak_keys : list (K * Z); ak_primary_keys : list (K * Z) }.

Definition arb_KeyResponse (gI : gen G I) (gKey : gen G K) : gen G ArbKeyResponse :=
  draw! messages := arbitrary_indexmap gI draw_string in
  draw! num_nodes := draw_usize in
  draw! num_resp := draw_usize in
  draw! num_err := draw_usize in
  draw! keys := arbitrary_indexmap gKey draw_u32 in
  draw! primary_keys := arbitrary_indexmap gKey draw_u32 in
  gret (mkArbKeyResponse messages num_nodes num_resp num_err keys primary_keys).

Definition arb_MessageType : gen G MessageType.t :=
  draw! v := draw_u8 in gret (MessageType.of_u8 (v mod NUM_MESSAGE_TYPES)).

Fixpoint arb_rand_f64_not_nan (fuel : nat) : gen G F64.f64 :=
  match fuel with
  | O => λ _, Again
  | S fuel => draw! f := draw_f64 in if F64.is_nan f then arb_rand_f64_not_nan fuel else gret f
  end.

Definition arb_Coordinate (fuel : nat) : gen G Coordinate :=
  draw! p := draw_vec draw_f64 in
  draw! error := arb_rand_f64_not_nan fuel in
  draw! adjustment := arb_rand_f64_not_nan fuel in
  draw! height := arb_rand_f64_not_nan fuel in
  gret (mkCoordinate (not_nan <$> p) error adjustment height).

(** Any other kind becomes a query. *)
Definition arb_Message (leave : gen G (LeaveMessage I)) (join : gen G (JoinMessage I))
    (push_pull : gen G (PushPullMessage I)) (user_event : gen G UserEventMessage)
    (query : gen G (QueryMessage I A R)) (response : gen G (QueryResponseMessage I A))
    (conflict : gen G (Member I A)) (key_request : gen G (KeyRequestMessage K))
    (key_response : gen G (KeyResponseMessage K)) : gen G (FuzzMessage I A R K) :=
  draw! kind := arb_MessageType in
  match kind with
  | MessageType.ConflictResponse => gmap_ FConflictResponse conflict
  | MessageType.Join => gmap_ FJoin join
  | MessageType.Leave => gmap_ FLeave leave
  | MessageType.PushPull => gmap_ FPushPull push_pull
  | MessageType.Query => gmap_ FQuery query
  | MessageType.QueryResponse => gmap_ FQueryResponse response
  | MessageType.UserEvent => gmap_ FUserEvent user_event
  | MessageType.KeyRequest => gmap_ FKeyRequest key_request
  | MessageType.KeyResponse => gmap_ FKeyResponse key_response
  | _ => gmap_ FQuery query
  end.

End arbitrary.

(** ** What is drawn *)

Lemma status_of_u8 v : MemberStatus.to_u8 (MemberStatus.of_u8 v) = v.
Proof. unfold MemberStatus.of_u8. repeat case_match; bool_to_prop; cbn; lia. Qed.
Lemma protocol_of_u8 v : u8_of_protocol_version (protocol_version_of_u8 v) = v.
Proof. unfold protocol_version_of_u8. repeat case_match; bool_to_prop; cbn; lia. Qed.
Lemma delegate_of_u8 v : u8_of_delegate_version (delegate_version_of_u8 v) = v.
Proof. unfold delegate_version_of_u8. repeat case_match; bool_to_prop; cbn; lia. Qed.

(** Versions and statuses made from a byte go back into it. *)
Lemma byte_drawn {V} (to_u8 : V → Z) (of_u8 : Z → V) v :
  to_u8 (of_u8 v) = v → 0 <= v < 256 → byte_fits to_u8 of_u8 (of_u8 v).
Proof. intros Ht Hv. unfold byte_fits. rewrite Ht. by rewrite byte_roundtrip. Qed.

(** One step into a generator: the next draw, and what is known of it. *)
Ltac draw_step :=
  lazymatch goal with
  | |- yields_or _ (gret _) _ => apply yields_ret
  | |- yields_or _ (gmap_ _ _) _ => eapply yields_map; [solve [eauto with yields]|intros]
  | |- yields_or _ (gbind _ _) _ => eapply yields_bind; [solve [eauto with yields]|intros]
  | |- yields_or _ (if ?b then _ else _) _ => destruct b
  end.
Ltac draws := repeat draw_step.

Section drawn.
Context {G I A R K : Type} `{SourceLaws G} `{EqDecision I} `{Regex R} `{!RegexText R}
  (gI : gen G I) (gA : gen G A) (gNode : gen G (Node I A)) (gKey : gen G K)
  (gMpv : gen G ProtocolVersion) (gMdv : gen G DelegateVersion).
Context (HgI : yields gI (λ _, True)) (HgNode : yields gNode (λ _, True)) (HgKey : yields gKey (λ _, True))
  (HgMpv : yields gMpv (byte_fits u8_of_protocol_version protocol_version_of_u8))
  (HgMdv : yields gMdv (byte_fits u8_of_delegate_version delegate_version_of_u8)).

#[local] Hint Resolve HgI HgNode HgKey HgMpv HgMdv : yields.

Lemma qc_time : yields_or (G := G) False qc_LamportTime is_u64.
Proof. apply u64_yields. Qed.

Lemma qc_flags : yields_or (G := G) False qc_QueryFlag (λ f, from_bits_truncate f = f ∧ 0 <= f < u32_modulus).
Proof.
  eapply yields_bind; [apply bool_yields|]. intros b _. apply yields_ret. by destruct b.
Qed.

Lemma qc_versions :
  yields_or (G := G) False qc_MemberStatus (byte_fits MemberStatus.to_u8 MemberStatus.of_u8) ∧
  yields_or (G := G) False qc_ProtocolVersion (byte_fits u8_of_protocol_version protocol_version_of_u8) ∧
  yields_or (G := G) False qc_DelegateVersion (byte_fits u8_of_delegate_version delegate_version_of_u8).
Proof.
  unfold qc_MemberStatus, qc_ProtocolVersion, qc_DelegateVersion.
  split_and!; draws; apply byte_drawn; auto using status_of_u8, protocol_of_u8, delegate_of_u8.
Qed.

Lemma qc_events : yields_or (G := G) False qc_UserEvents (λ u, is_u64 (ues_ltime u)).
Proof.
  assert (yields_or (G := G) False qc_UserEvent (λ _, True)) by (unfold qc_UserEvent; by draws).
  unfold qc_UserEvents. by draws.
Qed.

(** A filter with an expression has one that is not empty. *)
Definition filter_drawn (f : Filter I R) : Prop :=
  match f with FilterTag _ (Some r) => re_as_str r ≠ EmptyString | _ => True end.

Lemma qc_filters : yields_or (G := G) (refuses_pattern R) (qc_Filter (R := R) gI) filter_drawn.
Proof.
  assert (yields_or (G := G) (refuses_pattern R) (qc_TagFilter (R := R))
    (λ f, ∀ r, tf_expr f = Some r → re_as_str r ≠ EmptyString)) as Htag.
  { unfold qc_TagFilter. eapply yields_bind; [apply yields_lift, string_yields|]. intros tag _.
    eapply yields_bind; [apply yields_lift, bool_yields|]. intros [] _; [|by apply yields_ret].
    eapply yields_bind; [apply yields_lift, choose_yields; lia|]. intros i Hi.
    eapply yields_bind; [apply yields_lift, patterns_pattern|].
    { do 5 (destruct i as [|i]; [cbn; lia|]). lia. }
    intros ps Hps. eapply yields_bind; [by apply compile_yields|]. intros r Hr. apply yields_ret.
    by intros ? [= <-]. }
  unfold qc_Filter. eapply yields_bind; [apply yields_lift, bool_yields|]. intros [] _; [by draws|].
  eapply yields_bind; [exact Htag|]. intros f Hf. apply yields_ret. cbn.
  destruct (tf_expr f) as [r|] eqn:E; [exact (Hf r E)|done].
Qed.

(** What every drawn message satisfies: machine ranges, keys listed once,
    defined flags, statuses and versions that fit their byte. *)
Definition in_range (m : FuzzMessage I A R K) : Prop :=
  match m with
  | FLeave m => is_u64 (leave_ltime m)
  | FJoin m => is_u64 (join_ltime m)
  | FPushPull m =>
      is_u64 (pp_ltime m) ∧ is_u64 (pp_event_ltime m) ∧ is_u64 (pp_query_ltime m) ∧
      NoDup (pp_status_ltimes m).*1 ∧ Forall (λ x, is_u64 x.2) (pp_status_ltimes m) ∧
      NoDup (pp_left_members m) ∧ Forall (λ u, is_u64 (ues_ltime u)) (pp_events m)
  | FUserEvent m => is_u64 (uem_ltime m)
  | FQuery m =>
      is_u64 (q_ltime m) ∧ 0 <= q_id m < u32_modulus ∧ Forall filter_drawn (q_filters m) ∧
      from_bits_truncate (q_flags m) = q_flags m ∧ 0 <= q_relay_factor m < 256
  | FQueryResponse m =>
      is_u64 (r_ltime m) ∧ 0 <= r_id m < u32_modulus ∧ 0 <= r_flags m < u32_modulus
  | FConflictResponse m =>
      NoDup (tags m).*1 ∧ byte_fits MemberStatus.to_u8 MemberStatus.of_u8 (status m) ∧
      byte_fits u8_of_protocol_version protocol_version_of_u8 (memberlist_protocol_version m) ∧
      byte_fits u8_of_delegate_version delegate_version_of_u8 (memberlist_delegate_version m) ∧
      byte_fits u8_of_protocol_version protocol_version_of_u8 (protocol_version m) ∧
      byte_fits u8_of_delegate_version delegate_version_of_u8 (delegate_version m)
  | FKeyRequest _ | FKeyResponse _ => True
  end.

#[local] Hint Resolve qc_time qc_flags qc_events qc_filters : yields.

Abbreviation drawn := (λ f, λ m, in_range (f m)).

Lemma qc_small :
  yields (qc_LeaveMessage gI) (drawn FLeave) ∧ yields (qc_JoinMessage gI) (drawn FJoin) ∧
  yields qc_UserEventMessage (drawn FUserEvent) ∧ yields (qc_KeyRequestMessage gKey) (drawn FKeyRequest) ∧
  yields (qc_KeyResponseMessage gKey) (drawn FKeyResponse).
Proof.
  unfold qc_LeaveMessage, qc_JoinMessage, qc_UserEventMessage, qc_KeyRequestMessage, qc_KeyResponseMessage.
  split_and!; by draws.
Qed.

Lemma qc_queries :
  yields_or (refuses_pattern R) (qc_QueryMessage gI gNode) (drawn FQuery) ∧
  yields (qc_QueryResponseMessage gNode) (drawn FQueryResponse).
Proof.
  unfold qc_QueryMessage, qc_QueryResponseMessage. split; draws; cbn; naive_solver.
Qed.

Lemma qc_push_pulls : yields (qc_PushPullMessage gI) (drawn FPushPull).
Proof.
  unfold qc_PushPullMessage. eapply yields_bind; [apply qc_time|]. intros lt Hlt.
  assert (yields (draw! i := gI in draw! t := qc_LamportTime in gret (i, t)) (λ x, is_u64 x.2)) as Hst
    by by draws.
  eapply yields_bind; [by apply vec_yields|]. intros sts Hsts. draws. cbn.
  destruct (index_map_of_keys sts) as [Hk Hs], (index_set_of_keys v) as [Hl _].
  split_and!; try done. rewrite Forall_forall in *. intros x Hx. by apply Hsts, Hs.
Qed.

Lemma qc_members : yields (qc_ConflictResponseMessage gNode gMpv gMdv) (drawn FConflictResponse).
Proof.
  destruct qc_versions as (Hst & Hpv & Hdv).
  assert (yields_or (G := G) False qc_Tags (λ t, NoDup t.*1)) as Htags.
  { unfold qc_Tags. eapply yields_bind.
    - apply vec_yields. eapply yields_bind; [apply string_yields|]. intros k _.
      eapply yields_bind; [apply string_yields|]. intros v _. by apply (yields_ret _ _ (λ _, True)).
    - intros l _. apply yields_ret. apply index_map_of_keys. }
  unfold qc_ConflictResponseMessage, qc_Member. draws. cbn. done.
Qed.

(** The rounds of the loop of [Message::arbitrary] that drew no kind of
    message. *)
Fixpoint unlucky (fuel : nat) (g : G) : Prop :=
  match fuel with
  | O => True
  | S fuel => ∃ v g', draw_u8 g = Got v g' ∧ (v mod NUM_MESSAGE_TYPES = 0 ∨ v mod NUM_MESSAGE_TYPES = 8) ∧
      unlucky fuel g'
  end.

Lemma gmap_got {T U} bad (f : T → U) (x : gen G T) P g (Q : U → Prop) C :
  yields_or bad x P → (∀ v, P v → Q (f v)) →
  match gmap_ f x g with Got v _ => Q v | NotEnough => True | Panics => bad | Again => C end.
Proof.
  intros Hx Hf. specialize (yields_map bad f x P Q Hx Hf g). by destruct (gmap_ f x g).
Qed.

Lemma message_type_cases v :
  MessageType.of_u8 (v mod NUM_MESSAGE_TYPES) ≠ MessageType.KeyResponse ∧
  (MessageType.of_u8 (v mod NUM_MESSAGE_TYPES) = MessageType.Relay → v mod NUM_MESSAGE_TYPES = 8) ∧
  (∀ u, MessageType.of_u8 (v mod NUM_MESSAGE_TYPES) = MessageType.Unknown u → v mod NUM_MESSAGE_TYPES = 0).
Proof.
  pose proof (Z.mod_pos_bound v NUM_MESSAGE_TYPES eq_refl) as Hv. unfold NUM_MESSAGE_TYPES in *.
  unfold MessageType.of_u8. repeat case_match; bool_to_prop; split_and!; intros; try done; lia.
Qed.

(** Drawing a message panics only where an expression is refused, what is
    drawn is in range and never a key response, and the loop goes on only as
    long as no kind comes up. *)
Lemma qc_message_spec fuel : ∀ g,
  match qc_Message gI gNode gKey gMpv gMdv fuel g with
  | Got m _ => in_range m ∧ ∀ k, m ≠ FKeyResponse k
  | NotEnough => True
  | Panics => refuses_pattern R
  | Again => unlucky fuel g
  end.
Proof.
  induction fuel as [|fuel IH]; intros g; [done|]. cbn [qc_Message unlucky].
  unfold gbind at 1, qc_MessageType, gbind at 1. pose proof (u8_yields g) as Hu.
  destruct (draw_u8 g) as [v g'| | |]; [|done..]. cbn [gret].
  destruct qc_small as (S1 & S2 & S3 & S4 & S5), qc_queries as [Q1 Q2].
  destruct (message_type_cases v) as (N1 & N2 & N3).
  destruct (MessageType.of_u8 _) eqn:Hty; try done;
    try (eapply gmap_got; [eauto using yields_lift, qc_push_pulls, qc_members|]; by intros; split).
  - specialize (IH g'). destruct (qc_Message _ _ _ _ _ _ _); [done..|]. exists v, g'. auto.
  - specialize (IH g'). destruct (qc_Message _ _ _ _ _ _ _); [done..|]. exists v, g'. eauto.
Qed.

End drawn.

(** ** What is drawn passes the check *)

Section passes.
Context `{WireLaws} {G I A R K : Type} `{SourceLaws G} `{EqDecision I} `{EqDecision A} `{EqDecision K}
  `{RegexLaws R} `{!RegexText R} (DI : Data I) (DA : Data A) (SK : Scalar K).
Context (gI : gen G I) (gNode : gen G (Node I A)) (gKey : gen G K)
  (gMpv : gen G ProtocolVersion) (gMdv : gen G DelegateVersion).
Context (HgI : yields gI (λ _, True)) (HgNode : yields gNode (λ _, True)) (HgKey : yields gKey (λ _, True))
  (HgMpv : yields gMpv (byte_fits u8_of_protocol_version protocol_version_of_u8))
  (HgMdv : yields gMdv (byte_fits u8_of_delegate_version delegate_version_of_u8)).
(** Ids, addresses and keys encode themselves. *)
Context (HI : ∀ i, ∃ bs r, codes DI i bs r) (HIl : ∀ i, ∃ bs r, codes_ld DI i bs r)
  (HN : ∀ n, node_fits DI DA n)
  (Hwire : sc_wire SK = WireType.LengthDelimited) (Hkey : ∀ k, ∃ bs, codes_ld (scalar SK) k bs k).

(** What is left to ask of a drawn message: lengths below the width of a
    length prefix, a timeout that fits, and filters that name a node. *)
Definition filter_sized (f : Filter I R) : Prop :=
  fits_u32 (filter_encoded_len DI f) ∧
  match f with
  | FilterId ids => ids ≠ []
  | FilterTag tag expr =>
      fits_u32 (String.length tag) ∧ (∀ r, expr = Some r → fits_u32 (String.length (re_as_str r))) ∧
      fits_u32 (tag_filter_encoded_len (mkTagFilter tag expr))
  end.

Definition sized (m : FuzzMessage I A R K) : Prop :=
  match m with
  | FLeave m => fits_u32 (leave_encoded_len DI m)
  | FJoin m => fits_u32 (join_encoded_len DI m)
  | FPushPull m =>
      fits_u32 (push_pull_encoded_len DI m) ∧
      Forall (λ x, fits_u32 (status_len_ld DI x)) (pp_status_ltimes m) ∧
      Forall (λ u, Forall event_fits (ues_events u) ∧ fits_u32 (user_events_encoded_len u)) (pp_events m)
  | FUserEvent m =>
      fits_u32 (uem_encoded_len m) ∧ fits_u32 (String.length (uem_name m)) ∧ fits_u32 (length (uem_payload m))
  | FQuery m =>
      fits_u32 (query_encoded_len DI DA m) ∧ Forall filter_sized (q_filters m) ∧ is_u64 (q_timeout m) ∧
      fits_u32 (String.length (q_name m)) ∧ fits_u32 (length (q_payload m))
  | FQueryResponse m => fits_u32 (response_encoded_len DI DA m) ∧ fits_u32 (length (r_payload m))
  | FConflictResponse m =>
      Forall (λ p, fits_u32 (tag_pair_len_ld p)) (tags m) ∧ fits_u32 (tags_encoded_len_ (tags m)) ∧
      fits_u32 (member_encoded_len DI DA m) ∧ fits_u32 (conflict_encoded_len DI DA m)
  | FKeyRequest m => fits_u32 (key_request_encoded_len SK m)
  | FKeyResponse m => fits_u32 (String.length (kres_message m)) ∧ fits_u32 (key_response_encoded_len SK m)
  end.

Lemma filter_drawn_fits f : filter_drawn f → filter_sized f → filter_fits DI f.
Proof.
  destruct f as [ids|tag [r|]]; intros Hd [Hl Hs]; cbn in *.
  - split; [done|]. by apply Forall_true.
  - destruct Hs as (Ht & Hr & Hf). split; [|done]. split; [done|]. split; [done|]. by apply Hr.
  - destruct Hs as (Ht & _ & Hf). by split.
Qed.

Lemma drawn_fits m : in_range m → sized m → fuzz_fits DI DA SK m.
Proof.
  destruct m as [m|m|m|m|m|m|m|m|m]; cbn [in_range sized fuzz_fits].
  - intros Ht Hl. split; [exact Hl|]. split; [done|apply HIl].
  - intros Ht Hl. split; [exact Hl|]. split; [done|apply HIl].
  - intros (H1' & H2' & H3' & Hk & Hst & Hnd & Hev) (Hl & Hss & Hes). split; [exact Hl|].
    split; try done.
    + rewrite Forall_forall in *. intros x Hx. split_and!; [apply HI|by apply Hst|by apply Hss].
    + by apply Forall_true.
    + rewrite Forall_forall in *. intros u Hu. split; [by apply Hev|by apply Hes].
  - intros Ht (Hl & Hn & Hp). split; [exact Hl|done].
  - intros (Ht & Hid & Hfl & Hfg & Hrf) (Hl & Hfs & Hto & Hn & Hp). split; [exact Hl|]. split; try done; [apply HN|].
    rewrite Forall_forall in *. intros f Hf. split; [apply filter_drawn_fits; auto|by apply Hfs].
  - intros (Ht & Hid & Hfg) (Hl & Hp). split; [exact Hl|]. split_and!; try done; lia.
  - intros (Hk & Hst & Hmp & Hmd & Hpv & Hdv) (Hts & Htl & Hml & Hcl). split; [|done]. by split; [apply HN|..].
  - done.
  - done.
Qed.

(** C29: The messages of the random tests, of whatever kind.  Drawing one
    panics only where the regex crate refuses an expression of at most 117
    characters made of the listed classes, quantifiers, one group, anchors and
    alternatives; it goes on only while no kind of message comes up; and
    a message that was drawn has keys listed once, flags, statuses and
    versions in range and no empty expression, and so passes the round-trip
    check alone and in a relay envelope whenever its lengths fit their
    prefixes, its timeout fits, and no filter is an empty list of ids (which
    [Filter::encode] may refuse). *)
Theorem random_messages_pass fuel g nd :
  match qc_Message gI gNode gKey gMpv gMdv fuel g with
  | Got m _ => in_range m ∧ (sized m → encodable_round_trip (R := R) DI DA SK m nd = Done true)
  | NotEnough => True
  | Panics => refuses_pattern R
  | Again => unlucky fuel g
  end.
Proof.
  pose proof (qc_message_spec (R := R) gI gNode gKey gMpv gMdv HgI HgNode HgKey HgMpv HgMdv fuel g) as Hs.
  destruct (qc_Message _ _ _ _ _ _ _) as [m g'| | |]; [|done..]. destruct Hs as [Hr _]. split; [done|].
  intros Hz. apply round_trip_passes; auto using drawn_fits.
Qed.

End passes.

(** ** The fuzzer's draws *)

(** The bytes that are left; [fill_buffer] pads with zeros once they are
    used up, so drawing a NaN uses bytes. *)
Class Unstructured (G : Type) `{Source G} : Type := {
  u_len : G → nat;
  nan_uses_bytes g f g' : draw_f64 g = Got f g' → F64.is_nan f = true → (u_len g' < u_len g)%nat;
}.

Section fuzzer.
Context {G I A R K : Type} `{SourceLaws G} `{EqDecision I} `{EqDecision K} `{Regex R} `{!RegexText R}.

(** The filters of the fuzzer are as those of the random tests. *)
Lemma arb_filters (gI : gen G I) :
  yields gI (λ _, True) → yields_or (refuses_pattern R) (arb_Filter (R := R) gI) filter_drawn.
Proof.
  intros HgI. unfold arb_Filter. eapply yields_bind; [apply yields_lift, bool_yields|]. intros [] _.
  { eapply yields_map; [by apply vec_yields, yields_lift|done]. }
  eapply yields_bind; [apply yields_lift, string_yields|]. intros tag _.
  eapply yields_bind; [apply yields_lift, bool_yields|]. intros [] _; [|by apply yields_ret].
  eapply yields_bind; [apply yields_lift, (range_yields 1 5); lia|]. intros c Hc. cbn in Hc.
  eapply yields_bind; [apply yields_lift, patterns_pattern; lia|]. intros ps Hps.
  eapply yields_bind; [by apply compile_yields|]. intros r Hr. by apply yields_ret.
Qed.

(** The collections of a drawn summary list every key once. *)
Lemma arb_indexmap_keys {T U} `{EqDecision T} (k : gen G T) (v : gen G U) P Q :
  yields k P → yields v Q →
  yields (arbitrary_indexmap k v) (λ m, NoDup m.*1 ∧ Forall (λ p, P p.1 ∧ Q p.2) m).
Proof.
  intros Hk Hv. eapply yields_bind; [by apply map_yields|]. intros m [Hm Hf]. apply yields_ret.
  by rewrite index_map_of_nodup.
Qed.

Lemma rand_more fuel fuel' g :
  (fuel ≤ fuel')%nat → arb_rand_f64_not_nan fuel g ≠ Again →
  arb_rand_f64_not_nan fuel' g = arb_rand_f64_not_nan fuel g.
Proof.
  revert fuel' g. induction fuel as [|fuel IH]; intros fuel' g Hle Hg; [done|].
  destruct fuel' as [|fuel']; [lia|]. revert Hg. cbn [arb_rand_f64_not_nan]. unfold gbind.
  destruct (draw_f64 g) as [f g'| | |]; [|done..]. destruct (F64.is_nan f); [|done].
  intros Hg. apply IH; [lia|done].
Qed.

(** The loop that waits for a number ends: every NaN costs bytes. *)
Lemma rand_returns `{!Unstructured G} : ∀ fuel g,
  (u_len g < fuel)%nat →
  match arb_rand_f64_not_nan fuel g with
  | Got f _ => F64.is_nan f = false
  | NotEnough => True
  | Panics | Again => False
  end.
Proof.
  induction fuel as [|fuel IH]; intros g Hg; [lia|]. cbn [arb_rand_f64_not_nan]. unfold gbind.
  pose proof (f64_yields g) as Hf. destruct (draw_f64 g) as [f g'| | |] eqn:Hd; [|done..].
  destruct (F64.is_nan f) eqn:Hn; [|done]. apply IH. pose proof (nan_uses_bytes _ _ _ Hd Hn). lia.
Qed.

(** So a coordinate is drawn with a bounded number of rounds, and has no NaN
    in it. *)
Lemma arb_coordinate_returns `{!Unstructured G} g :
  ∃ fuel, match arb_Coordinate fuel g with
  | Got c _ => Forall (λ f, F64.is_nan f = false) (error c :: adjustment c :: height c :: portion c)
  | NotEnough => True
  | Panics | Again => False
  end.
Proof.
  pose proof (vec_yields False draw_f64 _ f64_yields g) as Hv.
  assert (∀ p : list F64.f64, Forall (λ f, F64.is_nan f = false) (not_nan <$> p)) as Hnn.
  { intros p. apply Forall_fmap, Forall_true. intros f. unfold compose, not_nan. by destruct (F64.is_nan f) eqn:E. }
  assert (∀ fuel g, (u_len g < fuel)%nat → arb_rand_f64_not_nan fuel g ≠ Again) as Hne.
  { intros fuel g0 Hg E. pose proof (rand_returns fuel g0 Hg) as Hr. by rewrite E in Hr. }
  destruct (draw_vec draw_f64 g) as [p g0| | |] eqn:Hp; unfold arb_Coordinate, gbind;
    [|exists 0%nat; by rewrite Hp|done..].
  pose (F g := S (u_len g)).
  pose proof (λ g, rand_returns (F g) g (Nat.lt_succ_diag_r _)) as Hr.
  assert (∀ fuel g, (F g ≤ fuel)%nat → arb_rand_f64_not_nan fuel g = arb_rand_f64_not_nan (F g) g) as Hm.
  { intros fuel g' Hf. apply rand_more; [done|]. apply Hne. unfold F. lia. }
  destruct (arb_rand_f64_not_nan (F g0) g0) as [e g1| | |] eqn:He; pose proof (Hr g0) as R0; rewrite He in R0;
    [|exists (F g0); by rewrite Hp, He|done..].
  destruct (arb_rand_f64_not_nan (F g1) g1) as [a g2| | |] eqn:Ha; pose proof (Hr g1) as R1; rewrite Ha in R1;
    [|exists (F g0 `max` F g1)%nat; by rewrite Hp, Hm, He, Hm, Ha by lia|done..].
  pose proof (Hr g2) as R2. exists (F g0 `max` (F g1 `max` F g2))%nat.
  rewrite Hp, Hm, He, Hm, Ha, Hm by lia. cbv beta iota.
  destruct (arb_rand_f64_not_nan (F g2) g2) as [h g3| | |]; [|done..]. cbn.
  repeat (constructor; [done|]). apply Hnn.
Qed.

End fuzzer.
