(* ===== verification/Cluster.v ===== *)
(** * A cluster that talks

    A cluster is a set of instances; what one of them has queued may reach
    any other, in any order, any number of times or never, a packet sent to an
    address may reach the instance there, whole states are exchanged between
    any two, and the operations of every instance run in between.  [cstep] is
    one such step; a cluster also remembers the user events that were
    announced, the queries that were asked and the answers that were given.

    The instances talk through the [Codec] interface; [Gossip] states what the
    interface has to promise, and the wire codecs keep that promise.  Below
    the steps are the frames: what an operation leaves alone of user events
    ([quiet]), of queries ([aside]), or of both ([idle]).  ClusterEvents.v and
    ClusterQuery.v follow user events and queries through the steps. *)

From Stdlib Require Import ZArith Lia Strings.Byte.
From stdpp Require Import base list gmap strings.
From S2P Require Import Prelude Clock Coordinate Types Core Membership MemberTraces UserEvents.
From S2P Require Import Responses Query QueryFacts Snapshot Delegate Api.
From S2P Require Import Wire CodecIntents CodecEvents CodecQuery CodecMember CodecPushPull CodecKeys CodecMessage Exchange.
Local Open Scope serf_scope.
Local Open Scope Z_scope.

(** ** What gossip relies on *)

(** The view of an encoded query that stands for [m]. *)
Record query_denotes {I A R} `{Countable I} `{Codec I A R} (q : QueryMessageRef I A) (m : QueryMessage I A R) : Prop := {
  qd_ltime : qr_ltime q = q_ltime m;
  qd_id : qr_id q = q_id m;
  qd_from : qr_from q = Ok (q_from m);
  qd_filters : Forall2 filter_denotes (qr_filters q) (q_filters m);
  qd_flags : qr_flags q = q_flags m;
  qd_relay : qr_relay_factor q = q_relay_factor m;
  qd_timeout : qr_timeout q = q_timeout m;
  qd_name : qr_name q = q_name m;
  qd_payload : qr_payload q = q_payload m;
}.

(** The view of an encoded message that the handlers get. *)
Definition denotes {I A R} `{Countable I} `{Codec I A R} (r : MessageRef I A) (m : Message I A R) : Prop :=
  match m, r with
  | MLeave m, RLeave t id p => t = leave_ltime m ∧ id = Ok (leave_id m) ∧ p = prune m
  | MJoin m, RJoin t id => t = join_ltime m ∧ id = Ok (join_id m)
  | MUserEvent m, RUserEvent m' => m' = m
  | MPushPull m, RPushPull t et qt pp =>
      t = pp_ltime m ∧ et = pp_event_ltime m ∧ qt = pp_query_ltime m ∧ pp = Ok m
  | MQuery m, RQuery q => query_denotes q m
  | MQueryResponse m, RQueryResponse t id resp => t = r_ltime m ∧ id = r_id m ∧ resp = Ok m
  | _, _ => False
  end.

Class Gossip (I A R : Type) `{Countable I} `{Codec I A R} : Type := {
  fits : Message I A R → Prop;  (** the messages the encoding has room for *)
  fits_node : Node I A → Prop;  (** the nodes a relay can be addressed to *)
  reads_back m : fits m →
    ∃ raw r, raw ≠ [] ∧ Types.encode_message_to_bytes m = Ok raw ∧
      Types.decode_message (R := R) raw = Done (Ok r) ∧
      denotes r m;
  relays_back m nd : fits (MQueryResponse m) → fits_node nd →
    ∃ raw off payload, raw ≠ [] ∧ Types.encode_relay_message_to_bytes (R := R) m nd = Ok raw ∧
      Types.decode_message (R := R) raw = Done (Ok (RRelay (Ok (address nd)) off payload)) ∧
      Types.encode_message_to_bytes (MQueryResponse m : Message I A R) = Ok payload ∧
      ∀ owned, relayed owned raw off payload = Done payload;
  fits_query_from q : fits (MQuery q) → fits_node (q_from q);
  fits_response_from m : fits (MQueryResponse m) → fits_node (r_from m);
  fits_user_event m :
    is_u64 (uem_ltime m) →
    Z.of_nat (String.length (uem_name m) + length (uem_payload m)) <= USER_EVENT_SIZE_LIMIT →
    Types.encoded_message_len (MUserEvent m : Message I A R) <= USER_EVENT_SIZE_LIMIT →
    fits (MUserEvent m);
}.

Section cluster.
Context {I A R : Type} `{Countable I} `{Countable A} `{!Codec I A R} `{!Gossip I A R}.
Context (reconnector : option (Member I A → Z → Z)).
Implicit Types (s t : Serf I A) (raw : bytes) (rnd : nat → Z).

(** What memberlist may send of an instance, and the user events and queries
    its application has been given. *)
Definition queued s : list bytes :=
  bmsg <$> (broadcasts s ++ query_broadcasts s ++ event_broadcasts s).

Definition user_message (e : CrateEvent I A) : option UserEventMessage :=
  match e with EvUser m => Some m | _ => None end.

Definition query_message (e : CrateEvent I A) : option (QueryEvent I A) :=
  match e with EvQuery q | EvInternalQuery _ q => Some q | _ => None end.

Definition delivered s : list UserEventMessage := omap user_message (event_tx s).
Definition query_events s : list (QueryEvent I A) := omap query_message (event_tx s).

(** ** Steps *)

(** An answer: the time and id of the query, who answered and with what. *)
Abbreviation Answer := (Z * Z * NodeResponse I A)%type.

Record Cluster : Type := mkCluster {
  nodes : gmap I (Serf I A);
  announced : list UserEvent;  (** by calls of [user_event] that succeeded *)
  asked : list (QueryMessage I A R);  (** by calls of [query] *)
  answered : list Answer;  (** by calls of [respond] *)
}.

Definition set_node (c : Cluster) (i : I) s : Cluster :=
  mkCluster (<[i := s]> (nodes c)) (announced c) (asked c) (answered c).

(** The caller of a query takes a response or an ack from its channel. *)
Definition take_reply s (h : nat) (ack : bool) : Serf I A :=
  set_query_heap s (alter (λ q, rs_q (rstep (mkRState q [] []) (if ack then OpRecvAck else OpRecv))) h (query_heap s)).

(** The other operations of an instance: memberlist's reports and the reaper,
    joining, leaving, forcing a node out, the timers and callers of queries,
    tags, shutdown, and memberlist being done with a broadcast.  What they
    encode is to fit the encoding. *)
Inductive local_step s : Serf I A → Prop :=
| ls_member o : local_step s (run_op reconnector s o)
| ls_join ltime now :
    fits (MJoin (mkJoin ltime (local_id s))) → local_step s (broadcast_join (R := R) s ltime now).1
| ls_leave snapshot now :
    fits (MLeave (mkLeave (Clock.time (clock s)) (local_id s) false)) →
    local_step s (leave_begin (R := R) s snapshot now).1
| ls_leave_end : local_step s (leave_end s)
| ls_force_leave id prune now w :
    fits (MLeave (mkLeave (Clock.time (clock s)) id prune)) →
    local_step s (force_leave (R := R) s id prune now w).1
| ls_close_query ltime : local_step s (close_query s ltime)
| ls_take h ack : local_step s (take_reply s h ack)
| ls_tags tg ok : local_step s (set_tags (R := R) s tg ok).1
| ls_ignore b : local_step s (set_event_join_ignore s b)
| ls_shutdown ok : local_step s (shutdown s ok).1
| ls_transmitted q1 q2 q3 :
    q1 ⊆ broadcasts s → q2 ⊆ query_broadcasts s → q3 ⊆ event_broadcasts s →
    local_step s (set_event_broadcasts (set_query_broadcasts (set_broadcasts s q1) q2) q3).

(** The ack of an instance, and its answer to an event. *)
Definition ack_of t (ltime id : Z) : QueryResponseMessage I A := mkQueryResponse ltime id (local_node t) FLAG_ACK [].
Definition answer_of t (e : QueryEvent I A) (msg : bytes) : QueryResponseMessage I A :=
  mkQueryResponse (qe_ltime e) (qe_id e) (local_node t) 0 msg.

Definition ack_fits t (flags ltime id : Z) : Prop :=
  flags_contains flags FLAG_ACK = true → fits (MQueryResponse (ack_of t ltime id)).

(** What reaches [t] of [s]: its gossip, and the packets sent to [t]'s address. *)
Definition reaches s t raw : Prop := raw ∈ queued s ∨ (address (local_node t), raw) ∈ sent s.

(** A query is asked by [issue_query] from the message on, so that other
    operations may run between reading the clock and registering it; the
    event that an application answers is one it was given, its span as it
    may be by then. *)
Inductive cstep (c : Cluster) : Cluster → Prop :=
| cs_announce i s name payload coalesce s' r :
    nodes c !! i = Some s → fits (MUserEvent (mkUserEventMessage (event_clock s) name payload coalesce)) →
    user_event (R := R) s name payload coalesce = Done (s', r) →
    cstep c (mkCluster (<[i := s']> (nodes c))
      (announced c ++ match r with Ok _ => [mkUserEvent name payload] | Err _ => [] end) (asked c) (answered c))
| cs_ask i s q ty online now rnd s' r :
    nodes c !! i = Some s → fits (MQuery q) → ack_fits s (q_flags q) (q_ltime q) (q_id q) →
    issue_query (R := R) s q ty online now rnd = Done (s', r) →
    cstep c (mkCluster (<[i := s']> (nodes c)) (announced c) (asked c ++ [q]) (answered c))
| cs_answer i s e span msg send_ok now rnd s' e' r :
    nodes c !! i = Some s → e ∈ query_events s → fits (MQueryResponse (answer_of s e msg)) →
    respond (R := R) s (mkQueryEvent (qe_ltime e) (qe_name e) (qe_payload e) (qe_timeout e) span (qe_id e)
      (qe_from e) (qe_relay_factor e)) msg send_ok now rnd = (s', e', r) →
    cstep c (mkCluster (<[i := s']> (nodes c)) (announced c) (asked c)
      (answered c ++ [(qe_ltime e, qe_id e, mkNodeResponse (local_node s) msg)]))
| cs_receive i j s t raw owned now rnd t' :
    nodes c !! i = Some s → nodes c !! j = Some t → reaches s t raw →
    (∀ q, Types.decode_message (R := R) raw = Done (Ok (RQuery q)) → ack_fits t (qr_flags q) (qr_ltime q) (qr_id q)) →
    notify_message (R := R) t owned raw now rnd = Done t' → cstep c (set_node c j t')
| cs_exchange i j s t is_join now t' :
    nodes c !! i = Some s → nodes c !! j = Some t → fits (MPushPull (local_state_message s)) →
    merge_remote_state (R := R) t (local_state (R := R) s) is_join now = Done t' →
    cstep c (set_node c j t')
| cs_local i s s' : nodes c !! i = Some s → local_step s s' → cstep c (set_node c i s').

Definition csteps : Cluster → Cluster → Prop := rtc cstep.

(** ** What an operation leaves alone *)

(** [s'] differs from [s] in nothing that concerns user events, and has
    nothing new to gossip except [raws]. *)
Record quiet (raws : list bytes) s s' : Prop := {
  qt_core : event_core s' = event_core s;
  qt_clock : event_clock s' = event_clock s;
  qt_delivered : delivered s' = delivered s;
  qt_queued : ∀ r, r ∈ queued s' → r ∈ queued s ∨ r ∈ raws;
}.

(** Nor in anything that concerns queries. *)
Record aside (raws : list bytes) s s' : Prop := {
  as_core : query_core s' = query_core s;
  as_heap : query_heap s' = query_heap s;
  as_events : query_events s' = query_events s;
  as_sent : sent s' = sent s;
  as_node : local_node s' = local_node s;
  as_queued : ∀ r, r ∈ queued s' → r ∈ queued s ∨ r ∈ raws;
}.

Record idle (raws : list bytes) s s' : Prop := {
  id_quiet : quiet raws s s';
  id_aside : aside raws s s';
}.

Lemma quiet_refl raws s : quiet raws s s.
Proof. split; auto. Qed.

Lemma aside_refl raws s : aside raws s s.
Proof. split; auto. Qed.

Lemma idle_refl raws s : idle raws s s.
Proof. split; [apply quiet_refl|apply aside_refl]. Qed.

Lemma queued_trans l1 l2 s1 s2 s3 :
  (∀ r, r ∈ queued s2 → r ∈ queued s1 ∨ r ∈ l1) → (∀ r, r ∈ queued s3 → r ∈ queued s2 ∨ r ∈ l2) →
  ∀ r, r ∈ queued s3 → r ∈ queued s1 ∨ r ∈ l1 ++ l2.
Proof. intros Q1 Q2 r [Hr|Hr]%Q2; [|set_solver]. apply Q1 in Hr. set_solver. Qed.

(** Operations in sequence that queue nothing, and one that queues last. *)
Lemma quiet_then s1 s2 s3 l : quiet [] s1 s2 → quiet l s2 s3 → quiet l s1 s3.
Proof.
  intros [C1 K1 D1 Q1] [C2 K2 D2 Q2]. split; [congruence..|]. exact (queued_trans [] l s1 s2 s3 Q1 Q2).
Qed.

Lemma aside_then s1 s2 s3 l : aside [] s1 s2 → aside l s2 s3 → aside l s1 s3.
Proof.
  intros [C1 K1 D1 S1 N1 Q1] [C2 K2 D2 S2 N2 Q2]. split; [congruence..|].
  exact (queued_trans [] l s1 s2 s3 Q1 Q2).
Qed.

Lemma idle_then s1 s2 s3 l : idle [] s1 s2 → idle l s2 s3 → idle l s1 s3.
Proof. intros [] []. split; [by eapply quiet_then|by eapply aside_then]. Qed.

Lemma quiet_weaken l l' s s' : l ⊆ l' → quiet l s s' → quiet l' s s'.
Proof. intros Hl [C K D Q]. split; try done. intros r [Hr|Hr]%Q; auto. Qed.

Lemma aside_weaken l l' s s' : l ⊆ l' → aside l s s' → aside l' s s'.
Proof. intros Hl [C K D S N Q]. split; try done. intros r [Hr|Hr]%Q; auto. Qed.

Lemma idle_weaken l l' s s' : l ⊆ l' → idle l s s' → idle l' s s'.
Proof. intros Hl []. split; [by eapply quiet_weaken|by eapply aside_weaken]. Qed.

(** Only the fields that matter. *)
Lemma queued_same s s' :
  broadcasts s' = broadcasts s → query_broadcasts s' = query_broadcasts s →
  event_broadcasts s' = event_broadcasts s → ∀ r, r ∈ queued s' → r ∈ queued s ∨ r ∈ [].
Proof. unfold queued. intros -> -> ->. auto. Qed.

Lemma quiet_same s s' :
  event_core s' = event_core s → event_clock s' = event_clock s → event_tx s' = event_tx s →
  broadcasts s' = broadcasts s → query_broadcasts s' = query_broadcasts s →
  event_broadcasts s' = event_broadcasts s → quiet [] s s'.
Proof. intros ? ? Et ? ? ?. split; try done; [unfold delivered; by rewrite Et|by apply queued_same]. Qed.

Lemma aside_same s s' :
  query_core s' = query_core s → query_heap s' = query_heap s → event_tx s' = event_tx s →
  sent s' = sent s → local_node s' = local_node s →
  broadcasts s' = broadcasts s → query_broadcasts s' = query_broadcasts s →
  event_broadcasts s' = event_broadcasts s → aside [] s s'.
Proof. intros ? ? Et ? ? ? ? ?. split; try done; [unfold query_events; by rewrite Et|by apply queued_same]. Qed.

Lemma idle_same s s' :
  event_core s' = event_core s → event_clock s' = event_clock s → event_tx s' = event_tx s →
  query_core s' = query_core s → query_heap s' = query_heap s → sent s' = sent s → local_node s' = local_node s →
  broadcasts s' = broadcasts s → query_broadcasts s' = query_broadcasts s →
  event_broadcasts s' = event_broadcasts s → idle [] s s'.
Proof. split; [by apply quiet_same|by apply aside_same]. Qed.

Lemma quiet_send s e : user_message e = None → quiet [] s (send_event s e).
Proof.
  intros He. split; try done; [|auto]. unfold delivered. simpl. rewrite omap_app. simpl. rewrite He.
  apply app_nil_r.
Qed.

Lemma aside_send s e : query_message e = None → aside [] s (send_event s e).
Proof.
  intros He. split; try done; [|auto]. unfold query_events. simpl. rewrite omap_app. simpl. rewrite He.
  apply app_nil_r.
Qed.

Lemma idle_send s e : user_message e = None → query_message e = None → idle [] s (send_event s e).
Proof. split; [by apply quiet_send|by apply aside_send]. Qed.

Lemma idle_queue s raw b :
  idle [raw] s (set_broadcasts s (broadcasts s ++ [mkBroadcast raw b])) ∧
  idle [raw] s (set_query_broadcasts s (query_broadcasts s ++ [mkBroadcast raw b])) ∧
  aside [raw] s (set_event_broadcasts s (event_broadcasts s ++ [mkBroadcast raw b])).
Proof.
  split_and!; repeat (split; try done); unfold queued; intros r; rewrite !list_elem_of_fmap; simpl;
    intros (x & -> & Hx); set_unfold; naive_solver.
Qed.

Lemma idle_erase s id b : idle [] s (erase_node s id b).
Proof.
  unfold erase_node. eapply idle_then; [|by apply idle_send].
  unfold forget_coordinate. cbn. destruct (coord_core s); by apply idle_same.
Qed.

Lemma idle_prune s msg ms : idle [] s (prune_if s msg ms).
Proof.
  unfold prune_if, handle_prune. destruct (prune msg); [|apply idle_refl].
  eapply idle_then; [|apply idle_erase]. case_decide; [by apply idle_same|apply idle_refl].
Qed.

Lemma idle_event s m e : user_message e = None → query_message e = None → idle [] s (send_event (set_members s m) e).
Proof. intros He He'. eapply idle_then; [|by apply idle_send]. by apply idle_same. Qed.

Lemma idle_join_intent s msg now : idle [] s (handle_node_join_intent s msg now).1.
Proof. unfold handle_node_join_intent. repeat case_match; simplify_eq; by apply idle_same. Qed.

Lemma idle_leave_intent s msg now : idle [] s (handle_node_leave_intent s msg now).1.
Proof.
  unfold handle_node_leave_intent. cbn.
  destruct (states (members s) !! leave_id msg) as [ms|];
    [|destruct (upsert_intent _ _ _ _ _); by apply idle_same].
  case_match; [by apply idle_same|]. case_decide; [by apply idle_same|].
  destruct (ms_status _); cbn [fst]; try (by apply idle_same);
    (eapply idle_then; [|apply idle_prune]); try (by apply idle_same).
  eapply idle_then; [by apply (idle_same s (witness_clock s (leave_ltime msg)))|by apply idle_event].
Qed.

Lemma idle_reap_loop now timeout k : ∀ i l s,
  idle [] s (reap_loop reconnector k i now timeout l s).2.
Proof.
  induction k as [|k IH]; intros i l s; [apply idle_refl|]. cbn [reap_loop].
  destruct (l !! i) as [ms|]; [|apply idle_refl]. case_match; [|apply IH].
  eapply idle_then; [apply idle_erase|apply IH].
Qed.

Lemma idle_member s o : idle [] s (run_op reconnector s o).
Proof.
  destruct o as [n|n now|n|msg now|msg now|now]; cbn [run_op];
    [| | |apply idle_join_intent|apply idle_leave_intent|].
  - unfold handle_node_join. destruct (if decide _ then _ else _); [|apply idle_refl].
    repeat case_match; simplify_eq; by apply idle_event.
  - unfold handle_node_leave. repeat case_match; try apply idle_refl; by apply idle_event.
  - unfold handle_node_update. repeat case_match; try apply idle_refl; by apply idle_event.
  - unfold reap_tick, reap_failed, reap_left.
    pose proof (idle_reap_loop now (reconnect_timeout (opts s)) (length (failed_members (members s))) 0
      (failed_members (members s)) s) as H1.
    destruct (reap_loop _ _ _ _ _ _ s) as [l1 s1]. set (s2 := set_members s1 _).
    pose proof (idle_reap_loop now (tombstone_timeout (opts s2)) (length (left_members (members s2))) 0
      (left_members (members s2)) s2) as H2.
    destruct (reap_loop _ _ _ _ _ _ s2) as [l2 s3].
    eapply idle_then; [exact H1|]. eapply idle_then; [by apply (idle_same s1 s2)|].
    eapply idle_then; [exact H2|]. by apply idle_same.
Qed.

(** ** A message that arrives *)

(** By what it decodes to: user events, queries, responses and relays are
    followed further; everything else is idle. *)
Inductive received t owned raw now rnd : Serf I A → Prop :=
| rc_idle t' : idle [raw] t t' → received t owned raw now rnd t'
| rc_user m t1 b :
    Types.decode_message (R := R) (A := A) raw = Done (Ok (RUserEvent m)) → handle_user_event t m = Done (t1, b) →
    received t owned raw now rnd (if b : bool then queue_event t1 raw else t1)
| rc_query q ty t1 r :
    Types.decode_message (R := R) (A := A) raw = Done (Ok (RQuery q)) →
    handle_query (R := R) t (QLeft q) ty now rnd = Done (t1, r) →
    received t owned raw now rnd (match r with Ok true => queue_query t1 raw | _ => t1 end)
| rc_response lt id resp :
    Types.decode_message (R := R) (A := A) raw = Done (Ok (RQueryResponse lt id resp)) →
    received t owned raw now rnd (serf_handle_query_response t lt id resp now).1
| rc_relay addr off payload b :
    Types.decode_message (R := R) (A := A) raw = Done (Ok (RRelay (Ok addr) off payload)) →
    relayed owned raw off payload = Done b → received t owned raw now rnd (memberlist_send t addr b).

Lemma notify_received t owned raw now rnd t' :
  notify_message (R := R) t owned raw now rnd = Done t' → received t owned raw now rnd t'.
Proof.
  unfold notify_message. destruct raw as [|x raw]; [intros [= ->]; apply rc_idle, idle_refl|].
  set (buf := x :: raw). clearbody buf.
  destruct (Types.decode_message buf) as [[msg|]|] eqn:Hd; [|intros [= ->]; apply rc_idle, idle_refl|done].
  destruct msg as [lt id p|lt id| |m|q|lt id resp| |addr off payload| |]; cbn;
    try (intros [= ->]; apply rc_idle, idle_refl).
  - destruct id as [id|]; [|intros [= ->]; apply rc_idle, idle_refl].
    pose proof (idle_leave_intent t (mkLeave lt id p) now) as Hq.
    destruct (handle_node_leave_intent _ _ _) as [t1 b]. intros [= <-]. apply rc_idle.
    eapply idle_then; [exact Hq|]. destruct b; [apply idle_queue|apply idle_refl].
  - destruct id as [id|]; [|intros [= ->]; apply rc_idle, idle_refl].
    pose proof (idle_join_intent t (mkJoin lt id) now) as Hq.
    destruct (handle_node_join_intent _ _ _) as [t1 b]. intros [= <-]. apply rc_idle.
    eapply idle_then; [exact Hq|]. destruct b; [apply idle_queue|apply idle_refl].
  - destruct (handle_user_event t m) as [[t1 b]|] eqn:Hu; [|done]. intros [= <-]. by eapply rc_user.
  - assert (∀ ty, (run! (s, r) := handle_query (R := R) t (QLeft q) ty now rnd in
        match r with Ok true => Done (queue_query s buf) | _ => Done s end) = Done t' →
      received t owned buf now rnd t') as Hk.
    { intros ty. destruct (handle_query _ _ _ _ _) as [[t1 r]|] eqn:Hq; [|done].
      pose proof (rc_query t owned buf now rnd q ty t1 r Hd Hq) as Hr. by destruct r as [[]|]; intros [= <-]. }
    destruct (decode_internal_query q) as [[ty|]|]; [by eauto| |by eauto].
    intros [= <-]. apply rc_idle, idle_refl.
  - intros [= <-]. by apply rc_response.
  - destruct addr as [addr|]; [|intros [= ->]; apply rc_idle, idle_refl].
    destruct (relayed _ _ _ _) as [b|] eqn:Hb; [|done]. intros [= <-]. by eapply rc_relay.
Qed.

(** ** Operations of an instance *)

(** The bytes of a fitting message of membership. *)
Definition intent_bytes raw : Prop :=
  ∃ m : Message I A R, fits m ∧ Types.encode_message_to_bytes m = Ok raw ∧
    match m with MLeave _ | MJoin _ => True | _ => False end.

Lemma idle_broadcast s s' raw b :
  idle [] s s' → intent_bytes raw →
  ∃ raws, idle raws s (broadcast s' raw b) ∧ Forall intent_bytes raws.
Proof.
  intros Hq Hn. exists [raw]. split; [|by repeat constructor]. eapply idle_then; [exact Hq|].
  apply idle_queue.
Qed.

(** Everything but the timers and callers of queries is idle. *)
Lemma local_idle s s' :
  local_step s s' →
  (∃ raws, idle raws s s' ∧ Forall intent_bytes raws) ∨
  (∃ lt, s' = close_query s lt) ∨ (∃ h ack, s' = take_reply s h ack).
Proof.
  assert (∀ s', idle [] s s' → (∃ raws, idle raws s s' ∧ Forall intent_bytes raws) ∨
    (∃ lt, s' = close_query s lt) ∨ (∃ h ack, s' = take_reply s h ack)) as Hnil by eauto.
  intros Hstep.
  destruct Hstep as [o|lt now Hf|snap now Hf| |id p now w Hf|lt|h ack|tg ok|b|ok|q1 q2 q3 H1 H2 H3].
  - apply Hnil, idle_member.
  - unfold broadcast_join. set (s1 := (handle_node_join_intent _ _ now).1).
    assert (idle [] s s1) as Hq by (eapply idle_then; [|apply idle_join_intent]; by apply idle_same).
    destruct (Types.encode_message_to_bytes _) as [raw|] eqn:He; [|by apply Hnil].
    left. apply idle_broadcast; [done|]. by eexists.
  - unfold leave_begin. destruct (serf_state s); try apply Hnil, idle_refl.
    set (s0 := if snap then _ else _). assert (idle [] s s0) as Q0 by (destruct snap; by apply idle_same).
    set (s1 := (handle_node_leave_intent _ _ now).1).
    assert (idle [] s s1) as Hq.
    { eapply idle_then; [exact Q0|]. eapply idle_then; [|apply idle_leave_intent]. by apply idle_same. }
    destruct (has_alive_members s1); [|by apply Hnil].
    destruct (Types.encode_message_to_bytes _) as [raw|] eqn:He; [|by apply Hnil].
    left. apply idle_broadcast; [done|]. eexists. split; [|split; [exact He|done]]. by destruct snap.
  - apply Hnil. unfold leave_end. case_match; by apply idle_same.
  - unfold force_leave. pose proof (idle_leave_intent s (mkLeave (Clock.time (clock s)) id p) now) as Hq.
    set (s1 := (handle_node_leave_intent _ _ now).1) in *.
    destruct (has_alive_members s1); [|by apply Hnil].
    destruct (Types.encode_message_to_bytes _) as [raw|] eqn:He; [|by apply Hnil].
    left. apply idle_broadcast; [done|]. by eexists.
  - right. left. by eexists.
  - right. right. by eexists _, _.
  - apply Hnil. unfold set_tags. repeat case_match; by apply idle_same.
  - apply Hnil. by apply idle_same.
  - apply Hnil. unfold shutdown. repeat case_match; by apply idle_same.
  - apply Hnil. repeat (split; try done); unfold queued; intros r; rewrite !list_elem_of_fmap; cbn;
      intros (x & -> & Hx); left; exists x; (split; [done|]); set_solver.
Qed.

(** *** State exchange *)

Lemma idle_foldl {X} (f : Serf I A → X → Serf I A) (l : list X) :
  (∀ s x, idle [] s (f s x)) → ∀ s, idle [] s (foldl f s l).
Proof.
  intros Hf. induction l as [|x l IH]; intros s; [apply idle_refl|]. cbn.
  eapply idle_then; [apply Hf|apply IH].
Qed.

Lemma idle_merge s (pp : PushPullMessage I) now : idle [] s (merge_status (merge_left s pp now) pp now).
Proof.
  apply (idle_then _ (merge_left s pp now)); unfold merge_left, merge_status; apply idle_foldl;
    intros s0 x; case_match; first [apply idle_refl|apply idle_leave_intent|apply idle_join_intent].
Qed.

End cluster.

(** ** The wire keeps the promise *)

Section wire.
Context `{WireLaws} {I A R K : Type} `{Countable I} `{Countable A} `{RegexLaws R}
  (DI : Data I) (DA : Data A) (SK : Scalar K)
  (meta_max_size : Z) (is_match : R → string → bool).

#[local] Instance cluster_codec : Codec I A R := wire_codec DI DA SK meta_max_size is_match.

Lemma stands_denotes (w : MessageWire (K := K) DI DA) (m : Message I A R) :
  stands_for DI DA w m → denotes (message_ref_of (R := R) DI DA w) m.
Proof.
  destruct w, m; cbn [stands_for]; intros Hs; try done; cbn [message_ref_of denotes].
  - unfold leave_from_ref in Hs. destruct (from_ref DI _); by simplify_eq.
  - unfold join_from_ref in Hs. destruct (from_ref DI _); by simplify_eq.
  - destruct (push_pull_ref_clocks _ _ _ Hs) as (-> & -> & ->). done.
  - unfold uem_from_ref in Hs. simplify_eq. by destruct m0.
  - revert Hs. unfold query_from_ref. destruct (collect _) as [fs|] eqn:Hfs; [|done].
    destruct (from_ref (node_data DI DA) _) as [nd|] eqn:Hnd; [|done]. intros [= <-]. split; try done.
    by apply filters_denote.
  - rewrite Hs. unfold response_from_ref in Hs. destruct (from_ref (node_data DI DA) _); by simplify_eq.
Qed.

Lemma wire_reads_back (m : Message I A R) :
  message_fits DI DA m →
  ∃ raw r, raw ≠ [] ∧ Types.encode_message_to_bytes m = Ok raw ∧
    Types.decode_message (R := R) raw = Done (Ok r) ∧ denotes r m.
Proof.
  intros Hm. destruct (message_reads_back (K := K) DI DA SK m Hm) as (raw & w & He & Hl & Hr & Hs).
  exists raw, (message_ref_of (R := R) DI DA w).
  split_and!; [by eapply envelope_nonempty|exact He| |by apply stands_denotes].
  cbn [Types.decode_message cluster_codec wire_codec]. by rewrite Hr.
Qed.

Lemma wire_user_event_fits m :
  is_u64 (uem_ltime m) →
  Z.of_nat (String.length (uem_name m) + length (uem_payload m)) <= USER_EVENT_SIZE_LIMIT →
  Types.encoded_message_len (MUserEvent m : Message I A R) <= USER_EVENT_SIZE_LIMIT →
  message_fits DI DA (MUserEvent m).
Proof.
  intros Hu Hlen Henc. cbn [Types.encoded_message_len cluster_codec wire_codec] in Henc.
  unfold CodecMessage.encoded_message_len in Henc. unfold USER_EVENT_SIZE_LIMIT in *.
  split; [|split_and!]; try done; unfold fits_u32, u32_modulus; lia.
Qed.

Lemma wire_relays_back m nd :
  message_fits (R := R) DI DA (MQueryResponse m) → node_fits DI DA nd →
  ∃ raw off payload, raw ≠ [] ∧ Types.encode_relay_message_to_bytes (R := R) m nd = Ok raw ∧
    Types.decode_message (R := R) raw = Done (Ok (RRelay (Ok (address nd)) off payload)) ∧
    Types.encode_message_to_bytes (MQueryResponse m : Message I A R) = Ok payload ∧
    ∀ owned, relayed owned raw off payload = Done payload.
Proof.
  intros Hr Hn. destruct (relay_reads_back (R := R) (K := K) DI DA SK m nd Hr Hn)
    as (raw & rn & payload & off & He & Hl & Hd & Hnd & Hp & Hoff).
  exists raw, off, payload. split_and!; [|exact He| |exact Hp|].
  - intros ->. unfold CodecMessage.encoded_relay_message_len in Hl. simpl in Hl. lia.
  - cbn [Types.decode_message cluster_codec wire_codec]. rewrite Hd. cbn [settle message_ref_of].
    by destruct (node_parts _ _ _ _ Hnd) as [_ ->].
  - intros owned. unfold relayed. destruct owned; [|done].
    rewrite (proj2 (Nat.ltb_ge _ _)); [by rewrite Hoff, firstn_all|]. rewrite <- Hoff, length_drop.
    assert (payload ≠ []) as Hne.
    { destruct (message_reads_back (K := K) DI DA SK (MQueryResponse m) Hr) as (p & w & He' & Hl' & _).
      cbn [message_encodable] in He'. assert (p = payload) as -> by congruence. by eapply envelope_nonempty. }
    destruct (decide (off <= length raw)%nat); [lia|]. destruct Hne. rewrite <- Hoff. apply drop_ge. lia.
Qed.

Lemma wire_query_from q : message_fits DI DA (MQuery q : Message I A R) → node_fits DI DA (q_from q).
Proof. intros [_ Hq]. apply Hq. Qed.

Lemma wire_response_from m : message_fits DI DA (MQueryResponse m : Message I A R) → node_fits DI DA (r_from m).
Proof. intros [_ Hq]. apply Hq. Qed.

#[export] Instance wire_gossip : Gossip I A R :=
  {| fits := message_fits DI DA; fits_node := node_fits DI DA; reads_back := wire_reads_back;
     relays_back := wire_relays_back; fits_query_from := wire_query_from;
     fits_response_from := wire_response_from; fits_user_event := wire_user_event_fits |}.

End wire.
