(* ===== verification/ClusterQuery.v ===== *)
(** * Queries across a cluster

    A query that one instance asks travels by gossip, is handed to the
    applications of the instances that pass its filters, and their answers
    and acks travel back in packets, directly or wrapped for a relay, to the
    channels of the caller.  The invariant ties each stage to the one before:
    the queries in transit were asked, the events of applications stand for
    such queries, the packets carry acks of instances that process the query
    and answers that were given, and so do the channels. *)

From Stdlib Require Import ZArith Lia Strings.Byte.
From stdpp Require Import base list gmap strings.
From S2P Require Import Prelude Clock Coordinate Types Core Membership MemberTraces UserEvents.
From S2P Require Import Responses Query QueryFacts Snapshot Delegate Api Cluster.
Local Open Scope serf_scope.
Local Open Scope Z_scope.

Section queries.
Context {I A R : Type} `{Countable I} `{Countable A} `{!Codec I A R} `{!Gossip I A R}.
Context (reconnector : option (Member I A → Z → Z)).
Implicit Types (s t : Serf I A) (raw : bytes) (rnd : nat → Z) (c : Cluster (I := I) (A := A) (R := R)).

(** ** The invariant *)

(** An event stands for the query it was made from. *)
Definition event_stands (e : QueryEvent I A) (q : QueryMessage I A R) : Prop :=
  qe_ltime e = q_ltime q ∧ qe_id e = q_id q ∧ qe_name e = q_name q ∧ qe_payload e = q_payload q ∧
  qe_timeout e = q_timeout q ∧ qe_from e = q_from q ∧ qe_relay_factor e = q_relay_factor q.

(** The application of the instance called [n] was given the query. *)
Definition processed c (n : Node I A) (ltime id : Z) : Prop :=
  ∃ j t e, nodes c !! j = Some t ∧ local_node t = n ∧ e ∈ query_events t ∧ qe_ltime e = ltime ∧ qe_id e = id.

(** A reply is genuine: an ack comes from an instance that processes the
    query, a response is an answer that was given. *)
Definition genuine c (m : QueryResponseMessage I A) : Prop :=
  if r_ack m then processed c (r_from m) (r_ltime m) (r_id m)
  else (r_ltime m, r_id m, mkNodeResponse (r_from m) (r_payload m)) ∈ answered c.

(** Bytes that gossip carries. *)
Definition gossiped c raw : Prop :=
  ∃ m : Message I A R, fits m ∧ Types.encode_message_to_bytes m = Ok raw ∧
    match m with MQuery q => q ∈ asked c | MQueryResponse _ => False | _ => True end.

(** Bytes that packets carry. *)
Definition packet c raw : Prop :=
  ∃ m, fits (MQueryResponse m) ∧ genuine c m ∧
    (Types.encode_message_to_bytes (MQueryResponse m : Message I A R) = Ok raw ∨
     ∃ nd, fits_node nd ∧ Types.encode_relay_message_to_bytes (R := R) m nd = Ok raw).

(** What a caller's response holds. *)
Definition holds_genuine c (q : QueryResponse I A) : Prop :=
  (∀ nr, nr ∈ queue (resp_ch q) → (qresp_ltime q, qresp_id q, nr) ∈ answered c) ∧
  (∀ n, n ∈ ack_queue q → processed c n (qresp_ltime q) (qresp_id q)).

Record query_ok c s : Prop := {
  qo_queued : ∀ raw, raw ∈ queued s → gossiped c raw;
  qo_events : ∀ e, e ∈ query_events s → ∃ q, q ∈ asked c ∧ event_stands e q;
  qo_sent : ∀ a raw, (a, raw) ∈ sent s → packet c raw;
  qo_index : ∀ lt h, responses (query_core s) !! lt = Some h →
    ∃ q, query_heap s !! h = Some q ∧ qresp_ltime q = lt;
  qo_heap : ∀ q, q ∈ query_heap s → holds_genuine c q;
}.

(** Answers are given by applications that were given the query. *)
Definition answers_ok c : Prop :=
  ∀ lt id nr, (lt, id, nr) ∈ answered c → processed c (nr_from nr) lt id.

(** ** The cluster only learns *)

Record learns c c' : Prop := {
  ln_asked : asked c ⊆ asked c';
  ln_answered : answered c ⊆ answered c';
  ln_processed : ∀ n lt id, processed c n lt id → processed c' n lt id;
}.

Lemma learns_genuine c c' m : learns c c' → genuine c m → genuine c' m.
Proof. intros [Ha Hr Hp]. unfold genuine. case_match; auto. Qed.

Lemma learns_gossiped c c' raw : learns c c' → gossiped c raw → gossiped c' raw.
Proof. intros [Ha _ _] (m & Hf & He & Hm). exists m. split_and!; try done. destruct m; auto. Qed.

Lemma learns_packet c c' raw : learns c c' → packet c raw → packet c' raw.
Proof. intros Hl (m & Hf & Hg & He). exists m. split_and!; try done. by eapply learns_genuine. Qed.

Lemma learns_heap c c' q : learns c c' → holds_genuine c q → holds_genuine c' q.
Proof. intros [_ Hr Hp] [H1 H2]. split; auto. Qed.

Lemma learns_ok c c' s : learns c c' → query_ok c s → query_ok c' s.
Proof.
  intros Hl [Q E S X P]. split; try done.
  - intros raw Hr. by eapply learns_gossiped, Q.
  - intros e He. destruct (E e He) as (q & Hq & Hs). exists q. split; [by apply Hl|done].
  - intros a raw Hr. by eapply learns_packet, S.
  - intros q Hq. by eapply learns_heap, P.
Qed.

(** A step of one instance that keeps its name and its events. *)
Lemma learns_node c c' i s s' :
  nodes c !! i = Some s → nodes c' = <[i := s']> (nodes c) →
  asked c ⊆ asked c' → answered c ⊆ answered c' →
  local_node s' = local_node s → query_events s ⊆ query_events s' → learns c c'.
Proof.
  intros Hi Hn Ha Hr Hname Hev. split; try done. intros n lt id (j & t & e & Hj & Ht & He & Hlt & Hid).
  destruct (decide (j = i)) as [->|Hne].
  - exists i, s', e. rewrite Hn, lookup_insert_eq. simplify_eq. split_and!; auto.
  - exists j, t, e. rewrite Hn, lookup_insert_ne by done. done.
Qed.

(** Nothing about queries changed. *)
Lemma aside_ok c raws s s' : aside raws s s' → Forall (gossiped c) raws → query_ok c s → query_ok c s'.
Proof.
  intros [Ec Eh Ee Es En Eq] Hr [Q E S X P]. split; rewrite ?Ec, ?Eh, ?Ee, ?Es; try done.
  intros raw [Hq|Hq]%Eq; [by apply Q|]. rewrite Forall_forall in Hr. by apply Hr.
Qed.

(** ** Handling a query *)

(** A query in either form stands for the one that was asked. *)
Definition query_stands (q : AnyQuery (I := I) (A := A) (R := R)) (m : QueryMessage I A R) : Prop :=
  match q with QLeft q => query_denotes q m | QRight q => q = m end.

Lemma stands_fields q m :
  query_stands q m →
  aq_ltime q = q_ltime m ∧ aq_id q = q_id m ∧ aq_from q = Ok (q_from m) ∧ aq_flags q = q_flags m ∧
  aq_relay_factor q = q_relay_factor m ∧ aq_timeout q = q_timeout m ∧ aq_name q = q_name m ∧
  aq_payload q = q_payload m ∧ ∀ s, aq_should_process s q = Ok (should_process_query s (q_filters m)).
Proof.
  destruct q as [q|q]; cbn; [intros []|intros ->; done]. split_and!; try done.
  intros s. by apply filters_agree.
Qed.

(** What relaying a reply sends. *)
Lemma relay_packets c s rf nd resp rnd a raw :
  fits (MQueryResponse resp) → fits_node nd → genuine c resp →
  (a, raw) ∈ sent (relay_response (R := R) s rf nd resp rnd).1 → (a, raw) ∈ sent s ∨ packet c raw.
Proof.
  intros Hf Hn Hg. destruct (relay_sent s rf nd resp rnd) as (rw & relays & -> & Hr).
  rewrite elem_of_app, list_elem_of_fmap. intros [?|(m & ? & Hm)]; [by left|]. simplify_eq.
  destruct Hr as [->|[He _]]; [by apply not_elem_of_nil in Hm|]. right. exists resp. eauto 10.
Qed.

(** An instance after it processed a query: one more event at most, and the
    acks that were asked for. *)
Record handled (raws : list bytes) s (m : QueryMessage I A R) s' : Prop := {
  hd_responses : responses (query_core s') = responses (query_core s);
  hd_heap : query_heap s' = query_heap s;
  hd_queued : ∀ r, r ∈ queued s' → r ∈ queued s ∨ r ∈ raws;
  hd_node : local_node s' = local_node s;
  hd_events : query_events s' = query_events s ∨
    ∃ e, query_events s' = query_events s ++ [e] ∧ event_stands e m;
  hd_sent : ∀ c a raw, (a, raw) ∈ sent s' → (a, raw) ∈ sent s ∨
    ((∃ e, e ∈ query_events s' ∧ event_stands e m) ∧
     (processed c (local_node s) (q_ltime m) (q_id m) → packet c raw));
}.

Lemma ack_packets c s q m rnd a raw :
  query_stands q m → fits_node (q_from m) → fits (MQueryResponse (ack_of s (q_ltime m) (q_id m))) →
  processed c (local_node s) (q_ltime m) (q_id m) →
  (a, raw) ∈ sent (ack_query (R := R) s q (q_from m) rnd) → (a, raw) ∈ sent s ∨ packet c raw.
Proof.
  intros Hq Hn Hf Hp. destruct (stands_fields q m Hq) as (E1 & E2 & _).
  unfold ack_query. rewrite E1, E2. change (mkQueryResponse _ _ _ _ _) with (ack_of s (q_ltime m) (q_id m)).
  assert (genuine c (ack_of s (q_ltime m) (q_id m))) as Hg by exact Hp.
  destruct (Types.encode_message_to_bytes _) as [rw|] eqn:He; [|by left].
  intros [Hs|?]%(relay_packets c); try done; [|by right]. cbn in Hs. apply elem_of_app in Hs as [?|Hs]; [by left|].
  apply list_elem_of_singleton in Hs as [= -> ->]. right. exists (ack_of s (q_ltime m) (q_id m)). eauto.
Qed.

(** Sending changes nothing but the packets. *)
Lemma set_sent_same s : s = set_sent s (sent s).
Proof. by destruct s. Qed.

Lemma sends_set_sent (ms : list (Member I A)) raw s :
  ∃ l, foldl (λ s m, memberlist_send s (address (node m)) raw) s ms = set_sent s l.
Proof.
  revert s. induction ms as [|m ms IH]; intros s; cbn; [exists (sent s); apply set_sent_same|].
  destruct (IH (memberlist_send s (address (node m)) raw)) as [l ->]. by exists l.
Qed.

Lemma relay_set_sent s rf nd resp rnd : ∃ l, (relay_response (R := R) s rf nd resp rnd).1 = set_sent s l.
Proof.
  unfold relay_response. repeat case_match; try (exists (sent s); apply set_sent_same). apply sends_set_sent.
Qed.

Lemma ack_set_sent s q from rnd : ∃ l, ack_query (R := R) s q from rnd = set_sent s l.
Proof.
  unfold ack_query. destruct (Types.encode_message_to_bytes _) as [raw|]; [|exists (sent s); apply set_sent_same].
  destruct (relay_set_sent (memberlist_send s (address from) raw) (aq_relay_factor q) from
    (mkQueryResponse (aq_ltime q) (aq_id q) (local_node s) FLAG_ACK []) rnd) as [l ->]. by exists l.
Qed.

Lemma handled_refl s m : handled [] s m s.
Proof. split; auto. Qed.

Lemma process_handled s q m ty now rnd :
  query_stands q m → fits (MQuery m) → ack_fits s (q_flags m) (q_ltime m) (q_id m) →
  handled [] s m (process_query (R := R) s q ty now rnd).1.
Proof.
  intros Hq Hf Ha. destruct (stands_fields q m Hq) as (E1 & E2 & E3 & E4 & E5 & E6 & E7 & E8 & E9).
  unfold process_query. rewrite E9, E3. destruct (should_process_query _ _); [|apply handled_refl].
  cbn [fst]. set (s1 := if flags_contains _ _ then _ else s).
  assert (∃ l, s1 = set_sent s l) as [l Hs1].
  { unfold s1. case_match; [apply ack_set_sent|exists (sent s); apply set_sent_same]. }
  set (e := query_event _ _ _ _ _ _ _ now).
  assert (event_stands e m) as He by (unfold e, event_stands; cbn; by rewrite E1, E2, E5, E6, E7, E8).
  assert (query_events (send_event s1 (match ty with Some ty => EvInternalQuery ty e | None => EvQuery e end))
    = query_events s ++ [e]) as Hev.
  { unfold query_events. cbn. rewrite Hs1, omap_app. cbn. by destruct ty. }
  split; try (by rewrite Hs1); [rewrite Hs1; auto|by right; exists e|]. intros c' a raw Hr. rewrite Hev. cbn in Hr.
  assert ((a, raw) ∈ sent s ∨ (processed c' (local_node s) (q_ltime m) (q_id m) → packet c' raw)) as [?|?];
    [|by left|right; split; [exists e; set_solver|done]].
  unfold s1 in Hr. rewrite E4 in Hr. destruct (flags_contains (q_flags m) FLAG_ACK) eqn:Hflag; [|by left].
  destruct (decide ((a, raw) ∈ sent s)); [by left|]. right. intros Hp.
  destruct (ack_packets c' s q m rnd a raw Hq (fits_query_from m Hf) (Ha Hflag) Hp Hr); done.
Qed.

Lemma admit_frame s lt id s1 b :
  admit_query s lt id = Done (s1, b) →
  responses (query_core s1) = responses (query_core s) ∧ query_heap s1 = query_heap s ∧ queued s1 = queued s ∧
  local_node s1 = local_node s ∧ query_events s1 = query_events s ∧ sent s1 = sent s.
Proof. unfold admit_query. repeat case_match; intros ?; by simplify_eq. Qed.

Lemma handle_handled s q m ty now rnd s' r :
  query_stands q m → fits (MQuery m) → ack_fits s (q_flags m) (q_ltime m) (q_id m) →
  handle_query (R := R) s q ty now rnd = Done (s', r) → handled [] s m s'.
Proof.
  intros Hq Hf Ha. unfold handle_query.
  destruct (admit_query s _ _) as [[s1 fresh]|] eqn:Had; [|done].
  destruct (admit_frame _ _ _ _ _ Had) as (F1 & F2 & F3 & F4 & F5 & F6).
  destruct fresh; [|intros [= <- _]; split; rewrite ?F3, ?F6; auto].
  assert (ack_fits s1 (q_flags m) (q_ltime m) (q_id m)) as Ha1 by (unfold ack_fits, ack_of; by rewrite F4).
  pose proof (process_handled s1 q m ty now rnd Hq Hf Ha1) as [G1 G2 G3 G4 G5 G6].
  destruct (process_query s1 q ty now rnd) as [s2 r2]. intros [= <- _]. cbn in *.
  split; try congruence; [intros rw Hrw; rewrite <- F3; by apply G3|by rewrite <- F5|]. intros c a raw. rewrite <- F6, <- F4. apply G6.
Qed.

Lemma handled_queue s m s' raw : handled [] s m s' → handled [raw] s m (queue_query s' raw).
Proof.
  intros [G1 G2 G3 G4 G5 G6]. split; try done. intros r Hr.
  destruct (as_queued _ _ _ (id_aside _ _ _ (proj1 (proj2 (idle_queue s' raw false)))) r Hr) as [Hq|?]; [|by right].
  destruct (G3 r Hq) as [?|Hn]; [by left|by apply not_elem_of_nil in Hn].
Qed.

(** An instance [s] that handled the query, in the state [s0] it is in by then. *)
Lemma handled_ok c c' i s s0 m s' raws :
  query_ok c s0 → local_node s0 = local_node s → query_events s0 = query_events s → handled raws s0 m s' →
  nodes c !! i = Some s → nodes c' = <[i := s']> (nodes c) →
  asked c ⊆ asked c' → answered c ⊆ answered c' → m ∈ asked c' → Forall (gossiped c') raws →
  learns c c' ∧ query_ok c' s'.
Proof.
  intros Hs En Ee [G1 G2 G3 G4 G5 G6] Hi Hn Ha Hr Hm Hraws.
  assert (query_events s ⊆ query_events s') as Hsub
    by (rewrite <- Ee; destruct G5 as [->|(e & -> & _)]; set_solver).
  assert (learns c c') as Hl by (eapply learns_node; try done; congruence). split; [done|].
  pose proof (learns_ok c c' s0 Hl Hs) as [Q E S X P]. split; rewrite ?G1, ?G2; try done.
  - intros r [?|?]%G3; [by apply Q|]. rewrite Forall_forall in Hraws. by apply Hraws.
  - intros e He. destruct G5 as [G5|(e' & G5 & Hst)]; rewrite G5 in He; [by apply E|].
    apply elem_of_app in He as [He|He]; [by apply E|]. apply list_elem_of_singleton in He as ->. by exists m.
  - intros a raw Hraw. destruct (G6 c' a raw Hraw) as [?|((e & He & Hst) & Hp)]; [by eapply S|].
    apply Hp. exists i, s', e. rewrite Hn, lookup_insert_eq. destruct Hst as (? & ? & _). by split_and!.
Qed.

(** ** Replies that arrive *)

Lemma queue_poll_send {T} (ch ch' : Channel T) x : poll_send ch x = Some ch' → queue ch' ⊆ queue ch ++ [x].
Proof. unfold poll_send. repeat case_match; intros ?; simplify_eq; set_solver. Qed.

Lemma deliver_genuine c q resp now :
  genuine c resp → qresp_ltime q = r_ltime resp → qresp_id q = r_id resp → holds_genuine c q →
  holds_genuine c (handle_query_response q resp now).
Proof.
  intros Hg Ht Hi [H1 H2]. unfold handle_query_response. case_match; [|done]. unfold genuine in Hg.
  unfold deliver. destruct (r_ack resp).
  - unfold send_ack. case_decide; [done|]. destruct (closed q); [done|].
    destruct (ack_ch q) as [ch|] eqn:Ech; [|done]. destruct (poll_send ch _) as [ch'|] eqn:Hp; [|done].
    split; [done|]. unfold ack_queue in *. cbn. rewrite Ech in H2. intros n Hn. apply (queue_poll_send _ _ _ Hp) in Hn.
    apply elem_of_app in Hn as [?|Hn]; [by apply H2|]. apply list_elem_of_singleton in Hn as ->. by rewrite Ht, Hi.
  - unfold send_response. case_decide; [done|]. destruct (closed q); [done|].
    destruct (poll_send _ _) as [ch'|] eqn:Hp; [|done]. split; [|done]. cbn. intros nr Hn.
    apply (queue_poll_send _ _ _ Hp) in Hn. apply elem_of_app in Hn as [?|Hn]; [by apply H1|].
    apply list_elem_of_singleton in Hn as ->. by rewrite Ht, Hi.
Qed.

(** A response that is replaced by one of the same query. *)
Lemma heap_update_ok c s h q q' :
  query_ok c s → query_heap s !! h = Some q → qresp_ltime q' = qresp_ltime q → holds_genuine c q' →
  query_ok c (set_query_heap s (<[h := q']> (query_heap s))).
Proof.
  intros [Q E S X P] Hh Ht Hq'. split; try done; cbn.
  - intros lt k Hk. destruct (X lt k Hk) as (x & Hx & Hlt). destruct (decide (k = h)) as [->|Hne].
    + exists q'. rewrite list_lookup_insert_eq by (by eapply lookup_lt_Some). split; [done|congruence].
    + exists x. by rewrite list_lookup_insert_ne.
  - intros x Hx. apply list_elem_of_lookup in Hx as [k Hk]. rewrite list_lookup_insert in Hk.
    case_decide as Hkh; [by simplify_eq|]. apply P. by eapply list_elem_of_lookup_2.
Qed.

Lemma heap_alter_ok c s h f :
  (∀ q, qresp_ltime (f q) = qresp_ltime q) → (∀ q, holds_genuine c q → holds_genuine c (f q)) →
  query_ok c s → query_ok c (set_query_heap s (alter f h (query_heap s))).
Proof.
  intros Hf Hg Hs. destruct (query_heap s !! h) as [q|] eqn:Hh.
  - replace (alter f h (query_heap s)) with (<[h := f q]> (query_heap s)).
    + eapply heap_update_ok; eauto. apply Hg. apply (qo_heap _ _ Hs). by eapply list_elem_of_lookup_2.
    + apply list_eq. intros k. destruct (decide (k = h)) as [->|Hne].
      * by rewrite list_lookup_insert_eq, list_lookup_alter_eq, Hh by (by eapply lookup_lt_Some).
      * by rewrite list_lookup_insert_ne, list_lookup_alter_ne.
  - replace (alter f h (query_heap s)) with (query_heap s); [by destruct s, Hs|].
    apply list_eq. intros k. destruct (decide (k = h)) as [->|Hne].
    + by rewrite list_lookup_alter_eq, Hh.
    + by rewrite list_lookup_alter_ne.
Qed.

Lemma response_ok c s resp now :
  query_ok c s → genuine c resp →
  query_ok c (serf_handle_query_response s (r_ltime resp) (r_id resp) (Ok resp) now).1.
Proof.
  intros Hs Hg. unfold serf_handle_query_response.
  destruct (responses (query_core s) !! r_ltime resp) as [h|] eqn:Hr; [|done].
  destruct (qo_index _ _ Hs _ _ Hr) as (q & Hq & Ht). rewrite Hq.
  destruct (qresp_id q =? r_id resp) eqn:Hi; [|done]. apply Z.eqb_eq in Hi.
  pose proof (qo_heap _ _ Hs q (list_elem_of_lookup_2 _ _ _ Hq)) as Hgq.
  eapply heap_update_ok; [done|done| |by apply deliver_genuine].
  unfold handle_query_response, deliver, send_ack, send_response. by repeat case_match.
Qed.

(** Closing a response and taking from it keep what it holds genuine. *)
Lemma close_genuine c q : holds_genuine c q → holds_genuine c (close q).
Proof.
  intros [H1 H2]. unfold close. case_match; [done|]. split; [done|]. unfold ack_queue in *. cbn.
  by destruct (ack_ch q).
Qed.

Lemma recv_within {T} (ch : Channel T) : queue (recv ch).2 ⊆ queue ch.
Proof. unfold recv. destruct (queue ch) as [|x l] eqn:E; cbn; rewrite ?E; set_solver. Qed.

Lemma take_genuine c q (ack : bool) :
  holds_genuine c q → holds_genuine c (rs_q (rstep (mkRState q [] []) (if ack then OpRecvAck else OpRecv))).
Proof.
  intros [H1 H2]. destruct ack; cbn.
  - unfold ack_queue in H2. destruct (ack_ch q) as [ch|] eqn:Ech; cbn; [|by split; unfold ack_queue; rewrite ?Ech].
    pose proof (recv_within ch). destruct (recv ch) as [x ch']. split; [done|]. unfold ack_queue. cbn in *. set_solver.
  - pose proof (recv_within (resp_ch q)). destruct (recv (resp_ch q)) as [x ch']. split; [|done]. cbn in *. set_solver.
Qed.

Lemma take_ok c s h ack : query_ok c s → query_ok c (take_reply s h ack).
Proof.
  apply heap_alter_ok; [|intros q; apply take_genuine]. intros q. destruct ack; cbn.
  - destruct (ack_ch q) as [ch|]; [|done]. by destruct (recv ch).
  - by destruct (recv (resp_ch q)).
Qed.

Lemma close_ok c s lt : query_ok c s → query_ok c (close_query s lt).
Proof.
  intros Hs. unfold close_query. destruct (responses (query_core s) !! lt) as [h|]; [|done].
  apply (heap_alter_ok c (set_query_core s _)); [|intros q; apply close_genuine|].
  { intros q. unfold close. by case_match. }
  destruct Hs as [Q E S X P]. split; try done. cbn. intros t k [_ Hk]%lookup_delete_Some. by apply X.
Qed.

(** ** Asking *)

(** A call that gets as far as registering the query. *)
Lemma issue_shape s q ty online now rnd s' r :
  issue_query (R := R) s q ty online now rnd = Done (s', r) →
  s' = s ∨ ∃ raw resp s2 b,
    Types.encode_message_to_bytes (MQuery q) = Ok raw ∧
    new_query_response (q_id q) (q_ltime q) online (now + q_timeout q) (flags_contains (q_flags q) FLAG_ACK) = Done resp ∧
    handle_query (R := R) (register_query_response s (q_timeout q) resp now).1 (QRight q) ty now rnd = Done (s2, Ok b) ∧
    s' = queue_query s2 raw ∧ r = Ok (length (query_heap s)).
Proof.
  unfold issue_query. case_match; [intros [= <- _]; by left|].
  destruct (Types.encode_message_to_bytes _) as [raw|] eqn:He; [|intros [= <- _]; by left].
  destruct (new_query_response _ _ _ _ _) as [resp|] eqn:Hn; [|done]. cbn.
  destruct (handle_query _ _ _ _ _) as [[s2 r2]|] eqn:Hh; [|done]. intros Hr. right. exists raw, resp, s2.
  assert (∃ b, r2 = Ok b) as [b ->].
  { revert Hh. unfold handle_query. destruct (admit_query _ _ _) as [[s3 [|]]|]; [|intros [= _ <-]; by eexists|done].
    destruct (process_right_ok s3 q ty now rnd) as [b Hb]. destruct (process_query _ _ _ _ _) as [s4 r4].
    cbn in Hb. intros [= _ <-]. by exists b. }
  injection Hr as <- <-. by exists b.
Qed.

Lemma register_ok c s (q : QueryMessage I A R) online now resp :
  new_query_response (q_id q) (q_ltime q) online (now + q_timeout q) (flags_contains (q_flags q) FLAG_ACK) = Done resp →
  query_ok c s → query_ok c (register_query_response s (q_timeout q) resp now).1.
Proof.
  intros Hn [Q E S X P].
  assert (holds_genuine c resp ∧ qresp_ltime resp = q_ltime q) as [Hg Ht].
  { revert Hn. unfold new_query_response, bounded. destruct online; [by destruct (flags_contains _ _)|].
    destruct (flags_contains _ _); intros [= <-]; (split; [split; cbn; set_solver|done]). }
  split; try done; cbn.
  - intros lt h. rewrite lookup_insert_Some. intros [[<- <-]|[Hne Hl]].
    + exists resp. by rewrite list_lookup_middle.
    + destruct (X lt h Hl) as (x & Hx & Hlt). exists x. by rewrite (lookup_app_l_Some _ _ _ _ Hx).
  - intros x [Hx|Hx]%elem_of_app; [by apply P|]. by apply list_elem_of_singleton in Hx as ->.
Qed.

(** ** Answering *)

Lemma respond_set_sent s e msg send_ok now rnd s' e' r :
  respond (R := R) s e msg send_ok now rnd = (s', e', r) → ∃ l, s' = set_sent s l.
Proof.
  assert (∃ l, s = set_sent s l) as Hsame by (exists (sent s); apply set_sent_same).
  unfold respond, respond_with_message_and_response. intros Hr.
  destruct (Types.encode_message_to_bytes _) as [raw|]; [|by simplify_eq].
  destruct (check_response_size _ _); [|by simplify_eq]. destruct (qe_span e); [|by simplify_eq].
  case_match; [by simplify_eq|]. case_match; [|by simplify_eq]. revert Hr.
  match goal with |- context [relay_response ?t ?rf ?nd ?m rnd] => destruct (relay_set_sent t rf nd m rnd) as [l Hl] end.
  destruct (relay_response _ _ _ _ rnd) as [s2 [u|er]]; intros [= <- _ _]; by exists l.
Qed.

(** The packets of an answer. *)
Lemma answer_packets c s e msg send_ok now rnd s' e' r :
  fits (MQueryResponse (answer_of s e msg)) → genuine c (answer_of s e msg) →
  respond (R := R) s e msg send_ok now rnd = (s', e', r) →
  ∀ a raw, (a, raw) ∈ sent s' → (a, raw) ∈ sent s ∨ packet c raw.
Proof.
  intros Hf Hg. unfold respond. fold (answer_of s e msg).
  destruct (Types.encode_message_to_bytes _) as [raw|] eqn:He; [|intros [= <- _ _]; by auto].
  unfold respond_with_message_and_response. destruct (check_response_size _ _) as [u|er]; [|intros [= <- _ _]; by auto].
  destruct (qe_span e); [|intros [= <- _ _]; by auto]. case_match; [intros [= <- _ _]; by auto|].
  destruct (send_ok _); [|intros [= <- _ _]; by auto].
  set (s1 := memberlist_send s _ raw). set (nd := r_from (answer_of s e msg)).
  pose proof (λ a rw, relay_packets c s1 (qe_relay_factor e) nd (answer_of s e msg) rnd a rw Hf
    (fits_response_from _ Hf) Hg) as Hp.
  destruct (relay_response s1 _ _ _ rnd) as [s2 r2]. cbn in Hp. intros Hs'.
  assert (s' = s2) as -> by (by destruct r2; simplify_eq). intros a rw [Hs|?]%Hp; [|by right].
  cbn in Hs. apply elem_of_app in Hs as [?|Hs]; [by left|]. apply list_elem_of_singleton in Hs as [= -> ->].
  right. exists (answer_of s e msg). eauto.
Qed.

Lemma sent_ok c s s' l :
  s' = set_sent s l → (∀ a raw, (a, raw) ∈ sent s' → (a, raw) ∈ sent s ∨ packet c raw) →
  query_ok c s → query_ok c s'.
Proof.
  intros Hs Hp [Q E S X P]. split; try (by rewrite Hs). intros a raw [?|?]%Hp; [by eapply S|done].
Qed.

(** ** Steps that have nothing to do with queries *)

Lemma aside_user s m s' b : handle_user_event s m = Done (s', b) → aside [] s s'.
Proof.
  unfold handle_user_event. repeat case_match; intros ?; simplify_eq; try (by apply aside_same).
  eapply aside_then; [|by apply aside_send]. by apply aside_same.
Qed.

Lemma aside_merge_events evs : ∀ s s', merge_events s evs = Done s' → aside [] s s'.
Proof.
  induction evs as [|m evs IH]; intros s s'; cbn; [intros [= <-]; apply aside_refl|].
  destruct (handle_user_event s m) as [[s1 b]|] eqn:Hh; [|done]. intros Hm.
  eapply aside_then; [by eapply aside_user|by apply IH].
Qed.

Lemma aside_exchange t buf is_join now t' :
  merge_remote_state (R := R) t buf is_join now = Done t' → aside [] t t'.
Proof.
  unfold merge_remote_state. destruct buf; [intros [= <-]; apply aside_refl|].
  destruct (Types.decode_message _) as [[msg|]|]; cbn; [|intros [= <-]; apply aside_refl|done].
  destruct msg as [ | |lt elt qlt pp| | | | | | | ]; try (intros [= <-]; apply aside_refl).
  assert (aside [] t (witness_remote t lt elt qlt)) as Hw
    by (unfold witness_remote; repeat case_match; by apply aside_same).
  destruct pp as [pp|]; [|by intros [= <-]]. unfold merge_push_pull. intros Hm%aside_merge_events.
  eapply aside_then; [exact Hw|]. eapply aside_then; [apply idle_merge|]. eapply aside_then; [|exact Hm].
  unfold ignore_events. repeat case_match; first [apply aside_refl|by apply aside_same].
Qed.

Lemma aside_announce s name payload coalesce s' r :
  fits (MUserEvent (mkUserEventMessage (event_clock s) name payload coalesce)) →
  user_event (R := R) s name payload coalesce = Done (s', r) →
  ∃ raws, aside raws s s' ∧ ∀ c, Forall (gossiped c) raws.
Proof.
  intros Hf. unfold user_event, Clock.time. cbv zeta.
  do 4 (case_match; [intros [= <- _]; exists []; split; [apply aside_refl|by constructor]|]).
  destruct (Types.encode_message_to_bytes _) as [raw|] eqn:He;
    [|intros [= <- _]; exists []; split; [apply aside_refl|by constructor]].
  destruct (handle_user_event _ _) as [[s1 b]|] eqn:Hh; [|done]. intros [= <- _]. exists [raw]. split.
  - eapply aside_then; [|apply idle_queue]. eapply aside_then; [|by eapply aside_user]. by apply aside_same.
  - intros c. repeat constructor. by eexists.
Qed.

(** ** The invariant of all steps *)

Definition replies_ok c : Prop := map_Forall (λ _, query_ok c) (nodes c) ∧ answers_ok c.

(** One instance changed, the cluster learned. *)
Lemma node_step_ok c c' i s s' :
  replies_ok c → nodes c !! i = Some s → nodes c' = <[i := s']> (nodes c) → learns c c' →
  query_ok c' s' → answered c' = answered c → replies_ok c'.
Proof.
  intros [Hc Ha] Hi Hn Hl Hs' Hans. split.
  - rewrite Hn. apply map_Forall_insert_2; [done|]. eapply map_Forall_impl; [exact Hc|]. cbn. intros k x.
    by apply learns_ok.
  - intros lt id nr. rewrite Hans. intros Hin. apply Hl. by apply Ha.
Qed.

Lemma aside_step c c' i s s' raws :
  replies_ok c → nodes c !! i = Some s → nodes c' = <[i := s']> (nodes c) → asked c' = asked c →
  answered c' = answered c → aside raws s s' → Forall (gossiped c') raws → replies_ok c'.
Proof.
  intros Hc Hi Hn Ha Hans Has Hr. pose proof Has as [Ec Eh Ee Es En Eq].
  assert (learns c c') as Hl by (apply (learns_node c c' i s s'); rewrite ?Ha, ?Hans, ?Ee; done).
  eapply node_step_ok; try done. eapply aside_ok; [done..|]. eapply learns_ok; [done|]. by apply (proj1 Hc i).
Qed.

(** A packet decodes to the response it carries or to its relay. *)
Lemma packet_decodes c raw :
  packet c raw →
  ∃ m, fits (MQueryResponse m) ∧ genuine c m ∧
    (Types.decode_message (R := R) raw = Done (Ok (RQueryResponse (r_ltime m) (r_id m) (Ok m))) ∨
     ∃ a off payload, Types.decode_message (R := R) raw = Done (Ok (RRelay (Ok a) off payload)) ∧
       Types.encode_message_to_bytes (MQueryResponse m : Message I A R) = Ok payload ∧
       ∀ owned, relayed owned raw off payload = Done payload).
Proof.
  intros (m & Hf & Hg & [He|(nd & Hn & He)]); exists m; (split; [done|split; [done|]]).
  - destruct (reads_back _ Hf) as (raw' & r & _ & He' & Hd & Hr). assert (raw' = raw) as -> by congruence.
    left. rewrite Hd. destruct r; cbn in Hr; try done. by destruct Hr as (-> & -> & ->).
  - destruct (relays_back _ _ Hf Hn) as (raw' & off & payload & _ & He' & Hd & Hp & Ho).
    assert (raw' = raw) as -> by congruence. right. eauto 10.
Qed.

(** Gossip decodes to what was queued. *)
Lemma gossiped_decodes c raw :
  gossiped c raw →
  ∃ m r, fits m ∧ Types.decode_message (R := R) raw = Done (Ok r) ∧ denotes r m ∧
    match m with MQuery q => q ∈ asked c | MQueryResponse _ => False | _ => True end.
Proof.
  intros (m & Hf & He & Hm). destruct (reads_back _ Hf) as (raw' & r & _ & He' & Hd & Hr).
  assert (raw' = raw) as -> by congruence. eauto 10.
Qed.

Lemma gossip_received c j t raw owned now rnd t' :
  replies_ok c → nodes c !! j = Some t → gossiped c raw →
  (∀ q, Types.decode_message (R := R) raw = Done (Ok (RQuery q)) → ack_fits t (qr_flags q) (qr_ltime q) (qr_id q)) →
  received t owned raw now rnd t' → replies_ok (set_node c j t').
Proof.
  intros Hc Hj Hg Hack Hrec. pose proof (proj1 Hc j t Hj) as Ht. cbn in Ht.
  destruct (gossiped_decodes _ _ Hg) as (m & r & Hf & Hd & Hr & Hm).
  destruct Hrec as [t' Hi|um t1 b Hdu Hu|q ty t1 r' Hdq Hq|lt id resp Hdr|addr off payload b Hdr Hb].
  - eapply aside_step; [done..|apply Hi|by repeat constructor].
  - apply aside_user in Hu. destruct b; [|by apply (aside_step c _ j t t1 [])].
    eapply (aside_step _ _ _ _ _ [raw]); [done..| |by repeat constructor]. eapply aside_then; [exact Hu|apply idle_queue].
  - assert (r = RQuery q) as -> by congruence. destruct m as [ | | | |m| ]; cbn in Hr; try done.
    pose proof Hr as [Q1 Q2 _ _ Q5 _ _ _ _].
    assert (handled [] t m t1) as Hh.
    { apply (handle_handled t (QLeft q) m ty now rnd t1 r'); [exact Hr|done| |exact Hq]. rewrite <- Q1, <- Q2, <- Q5. by apply Hack. }
    set (t2 := match r' with Ok true => queue_query t1 raw | _ => t1 end).
    assert (∃ raws, handled raws t m t2 ∧ Forall (gossiped (set_node c j t2)) raws) as (raws & Hh2 & Hraws).
    { assert (gossiped (set_node c j t2) raw) as Hg2 by exact Hg.
      destruct r' as [[]|]; [|by exists []..]. exists [raw]. split; [by apply handled_queue|by repeat constructor]. }
    destruct (handled_ok c (set_node c j t2) j t t m t2 raws) as [Hl Hok]; try done. by eapply node_step_ok.
  - rewrite Hd in Hdr. simplify_eq. by destruct m; cbn in Hr.
  - rewrite Hd in Hdr. simplify_eq. by destruct m; cbn in Hr.
Qed.

Lemma packet_received c j t raw owned now rnd t' :
  replies_ok c → nodes c !! j = Some t → packet c raw →
  notify_message (R := R) t owned raw now rnd = Done t' → replies_ok (set_node c j t').
Proof.
  intros Hc Hj Hp Hn. pose proof (proj1 Hc j t Hj) as Ht. cbn in Ht.
  destruct (packet_decodes _ _ Hp) as (m & Hf & Hg & Hd).
  assert (learns c (set_node c j t') ∧ query_ok c t') as [Hl Hok].
  { revert Hn. unfold notify_message. destruct raw as [|x raw].
    { intros [= <-]. split; [|done]. by eapply learns_node. }
    destruct Hd as [->|(a & off & payload & -> & He & Ho)]; cbn.
    - intros [= <-]. split; [|by apply response_ok].
      eapply learns_node; try done; unfold serf_handle_query_response; by repeat case_match.
    - rewrite Ho. intros [= <-]. split; [by eapply learns_node|]. eapply sent_ok; [done| |done].
      intros a' raw' [?|Hin]%elem_of_app; [by left|]. apply list_elem_of_singleton in Hin as [= -> ->].
      right. exists m. auto. }
  eapply node_step_ok; try done. by eapply learns_ok.
Qed.

Lemma ask_ok c i s q ty online now rnd s' r :
  replies_ok c → nodes c !! i = Some s → fits (MQuery q) → ack_fits s (q_flags q) (q_ltime q) (q_id q) →
  issue_query (R := R) s q ty online now rnd = Done (s', r) →
  replies_ok (mkCluster (<[i := s']> (nodes c)) (announced c) (asked c ++ [q]) (answered c)).
Proof.
  intros Hc Hi Hf Hack Hq. pose proof (proj1 Hc i s Hi) as Hs. cbn in Hs.
  set (c' := mkCluster _ _ _ _). assert (asked c ⊆ asked c') as Hasked by (cbn; set_solver).
  destruct (issue_shape _ _ _ _ _ _ _ _ Hq) as [->|(raw & resp & s2 & b & He & Hn & Hh & -> & _)].
  - assert (learns c c') as Hl by (by eapply learns_node). eapply node_step_ok; try done. by eapply learns_ok.
  - pose proof (register_ok c s q online now resp Hn Hs) as Hs0.
    set (s0 := (register_query_response _ _ _ _).1) in *.
    assert (handled [] s0 q s2) as Hd by (by apply (handle_handled s0 (QRight q) q ty now rnd s2 (Ok b))).
    destruct (handled_ok c c' i s s0 q (queue_query s2 raw) [raw]) as [Hl Hok]; try done.
    + by apply handled_queue.
    + cbn. set_solver.
    + repeat constructor. exists (MQuery q). split_and!; try done. cbn. set_solver.
    + by eapply node_step_ok.
Qed.

Lemma answer_ok c i s e span msg send_ok now rnd s' e' r :
  replies_ok c → nodes c !! i = Some s → e ∈ query_events s → fits (MQueryResponse (answer_of s e msg)) →
  respond (R := R) s (mkQueryEvent (qe_ltime e) (qe_name e) (qe_payload e) (qe_timeout e) span (qe_id e)
    (qe_from e) (qe_relay_factor e)) msg send_ok now rnd = (s', e', r) →
  replies_ok (mkCluster (<[i := s']> (nodes c)) (announced c) (asked c)
    (answered c ++ [(qe_ltime e, qe_id e, mkNodeResponse (local_node s) msg)])).
Proof.
  intros Hc Hi He Hf Hr. pose proof (proj1 Hc i s Hi) as Hs. cbn in Hs. set (c' := mkCluster _ _ _ _).
  set (e0 := mkQueryEvent _ _ _ _ _ _ _ _) in Hr.
  assert (genuine c' (answer_of s e0 msg)) as Hg by (unfold genuine; cbn; set_solver).
  pose proof (answer_packets c' s e0 msg send_ok now rnd s' e' r Hf Hg Hr) as Hp.
  destruct (respond_set_sent _ _ _ _ _ _ _ _ _ Hr) as [l Hl].
  assert (learns c c') as Hln by (eapply learns_node; try done; [cbn; set_solver|by rewrite Hl..]).
  destruct Hc as [Hc Ha]. split.
  - cbn. apply map_Forall_insert_2; [|eapply map_Forall_impl; [exact Hc|]; cbn; intros k x; by apply learns_ok].
    eapply sent_ok; [exact Hl|done|]. by eapply learns_ok.
  - intros lt id nr Hin. cbn in Hin. apply elem_of_app in Hin as [Hin|Hin]; [by apply Hln, Ha|].
    apply list_elem_of_singleton in Hin as [= -> -> ->]. apply Hln. by exists i, s, e.
Qed.

Lemma cstep_replies c c' : cstep reconnector c c' → replies_ok c → replies_ok c'.
Proof.
  intros Hstep Hc. destruct Hstep as [i s name payload cc s' r Hi Hf Hu|i s q ty online now rnd s' r Hi Hf Ha Hq
    |i s e span msg ok now rnd s' e' r Hi He Hf Hr|i j s t raw owned now rnd t' Hi Hj Hreach Hack Hn
    |i j s t is_join now t' Hi Hj Hf Hm|i s s' Hi Hl].
  - destruct (aside_announce _ _ _ _ _ _ Hf Hu) as (raws & Has & Hraws).
    by eapply aside_step.
  - by eapply ask_ok.
  - by eapply answer_ok.
  - pose proof (proj1 Hc i s Hi) as Hs. cbn in Hs. destruct Hreach as [Hr|Hr].
    + eapply gossip_received; [done|done|by apply (qo_queued _ _ Hs)|done|by apply notify_received].
    + eapply packet_received; [done|done|by eapply (qo_sent _ _ Hs)|done].
  - apply (aside_step c _ j t t' []); try done. exact (aside_exchange _ _ _ _ _ Hm).
  - pose proof (proj1 Hc i s Hi) as Hs. cbn in Hs.
    destruct (local_idle _ _ _ Hl) as [(raws & Hid & Hraws)|[[lt ->]|(h & ack & ->)]].
    + apply (aside_step c _ i s s' raws); try done; [apply Hid|]. eapply Forall_impl; [exact Hraws|]. cbn.
      intros raw (m & Hf & He & Hm). exists m. split_and!; try done. by destruct m.
    + assert (learns c (set_node c i (close_query s lt))) as Hln.
      { eapply learns_node; try done; unfold close_query; by case_match. }
      eapply node_step_ok; try done. eapply learns_ok; [done|]. by apply close_ok.
    + assert (learns c (set_node c i (take_reply s h ack))) as Hln by (by eapply learns_node).
      eapply node_step_ok; try done. eapply learns_ok; [done|]. by apply take_ok.
Qed.

(** ** What the cluster guarantees *)

(** An instance that has not seen a query yet. *)
Record query_free s : Prop := {
  qf_queued : queued s = [];
  qf_events : query_events s = [];
  qf_sent : sent s = [];
  qf_responses : responses (query_core s) = ∅;
  qf_heap : query_heap s = [];
}.

Lemma query_free_ok c s : query_free s → query_ok c s.
Proof.
  intros [Q E S X P]. split; rewrite ?Q, ?E, ?S, ?X, ?P; intros; set_solver.
Qed.

Lemma csteps_replies c c' :
  answered c = [] → map_Forall (λ _, query_free) (nodes c) → csteps reconnector c c' → replies_ok c'.
Proof.
  intros Ha Hfree. apply (rtc_ind_r (λ c', replies_ok c')); [|intros c1 c2 _ Hstep; by apply cstep_replies].
  split; [|intros lt id nr; rewrite Ha; set_solver].
  eapply map_Forall_impl; [exact Hfree|]. cbn. intros _ s. apply query_free_ok.
Qed.

(** C7: Whatever a caller finds in the channels of its query came from the
    cluster: in every state a cluster can reach from one without queries,
    whatever is lost, repeated, reordered, relayed or exchanged in bulk, each
    response waiting for the caller was given, with that payload, by a call of
    [respond] on the node it names to the very query of the response, each ack
    names a node whose application was given that query, and every query event
    any application was given stands for a query that was asked, with its
    time, id, name, payload and source. *)
Theorem replies_genuine c c' :
  answered c = [] → map_Forall (λ _, query_free) (nodes c) → csteps reconnector c c' →
  ∀ i s, nodes c' !! i = Some s →
    (∀ q nr, q ∈ query_heap s → nr ∈ queue (resp_ch q) →
      (qresp_ltime q, qresp_id q, nr) ∈ answered c' ∧ processed c' (nr_from nr) (qresp_ltime q) (qresp_id q)) ∧
    (∀ q n, q ∈ query_heap s → n ∈ ack_queue q → processed c' n (qresp_ltime q) (qresp_id q)) ∧
    (∀ e, e ∈ query_events s → ∃ q, q ∈ asked c' ∧ event_stands e q).
Proof.
  intros Ha Hfree Hsteps. destruct (csteps_replies c c' Ha Hfree Hsteps) as [Hok Hans].
  intros i s Hi. pose proof (Hok i s Hi) as Hs. cbn in Hs. split_and!.
  - intros q nr Hq Hnr. pose proof (proj1 (qo_heap _ _ Hs q Hq) nr Hnr) as Hin. split; [done|by apply Hans].
  - intros q n Hq. apply (proj2 (qo_heap _ _ Hs q Hq)).
  - apply (qo_events _ _ Hs).
Qed.

(** ** Answers come back *)

(** An instance that would process the query. *)
Record listens t (q : QueryMessage I A R) : Prop := {
  li_ring : (0 < length (query_buffer (query_core t)))%nat;
  li_min : query_min_time (query_core t) <= q_ltime q;
  li_new : too_old (Clock.witness (query_clock t) (q_ltime q)) (length (query_buffer (query_core t)))
    (q_ltime q) = false;
  li_unheld : ¬ ring_holds (query_buffer (query_core t)) (q_ltime q) (q_id q);
  li_filters : should_process_query t (q_filters q) = true;
}.

(** The names that are not for applications. *)
Definition internal_names : list string :=
  [INTERNAL_PING; INTERNAL_CONFLICT; INTERNAL_INSTALL_KEY; INTERNAL_USE_KEY; INTERNAL_REMOVE_KEY; INTERNAL_LIST_KEYS].

Lemma listens_admits t q :
  regular (q_ltime q) → listens t q →
  ∃ qc, admit_query t (q_ltime q) (q_id q) =
    Done (set_query_core (witness_query_clock t (q_ltime q)) qc, true).
Proof.
  intros Ht [Hr Hm Hn Hu _]. destruct (admit_query_cases t (q_ltime q) (q_id q) Ht Hr) as (r & -> & Hcase).
  destruct Hcase as [[_ [Hs|[Hs|Hs]]]|slot qs qc idx Ho Hb Hre]; cbn in *; [lia|congruence|done|by eexists].
Qed.

Lemma should_process_frame s s' (fs : list (Filter I R)) :
  local_node s' = local_node s → opts s' = opts s → should_process_query s' fs = should_process_query s fs.
Proof.
  intros Hn Ho. induction fs as [|[ids|tag re] fs IH]; cbn [should_process_query]; [done|..]; rewrite IH.
  - unfold local_id. by rewrite Hn.
  - by rewrite Ho.
Qed.

(** The query is processed, given to the application, and travels on. *)
Lemma query_heard t q raw now rnd :
  regular (q_ltime q) → fits (MQuery q) → Types.encode_message_to_bytes (MQuery q) = Ok raw →
  q_name q ∉ internal_names → flags_contains (q_flags q) FLAG_NO_BROADCAST = false → listens t q →
  ∃ t' e, notify_message (R := R) t false raw now rnd = Done t' ∧ e ∈ query_events t' ∧ event_stands e q ∧
    qe_span e = Some now ∧ raw ∈ queued t' ∧ local_node t' = local_node t ∧ opts t' = opts t.
Proof.
  intros Ht Hf He Hname Hflag Hl. destruct (reads_back _ Hf) as (raw' & r & Hne & He' & Hd & Hr).
  assert (raw' = raw) as -> by congruence. destruct r as [ | | | |q'| | | | | ]; cbn in Hr; try done.
  destruct (stands_fields (QLeft q') q Hr) as (E1 & E2 & E3 & E4 & E5 & E6 & E7 & E8 & E9).
  destruct (listens_admits t q Ht Hl) as [qc Hadmit]. set (t1 := set_query_core _ qc) in Hadmit.
  set (e := mkQueryEvent (q_ltime q) (q_name q) (q_payload q) (q_timeout q) (Some now) (q_id q) (q_from q)
    (q_relay_factor q)).
  set (t2 := if flags_contains (q_flags q) FLAG_ACK then ack_query (R := R) t1 (QLeft q') (q_from q) rnd else t1).
  assert (∃ l, t2 = set_sent t1 l) as [l Hl2].
  { unfold t2. case_match; [apply ack_set_sent|exists (sent t1); apply set_sent_same]. }
  exists (queue_query (send_event t2 (EvQuery e)) raw), e. split_and!; try done; try (by rewrite Hl2).
  - unfold notify_message. destruct raw as [|x raw]; [done|]. rewrite Hd.
    assert (decode_internal_query q' = None) as ->.
    { unfold internal_names in Hname. cbn in E7. unfold decode_internal_query. rewrite E7.
      rewrite !not_elem_of_cons in Hname. repeat case_decide; try done; naive_solver. }
    unfold handle_query. rewrite E1, E2, Hadmit. unfold process_query. rewrite E9, E3, E4, Hflag. cbn.
    rewrite (should_process_frame t t1), (li_filters _ _ Hl) by done. cbn.
    unfold query_event. cbn in *. by rewrite E1, E2, E5, E6, E7, E8.
  - unfold query_events. cbn. rewrite omap_app. set_solver.
  - unfold queued. cbn. apply list_elem_of_fmap. exists (mkBroadcast raw false). set_solver.
Qed.

(** An answer in time is sent to the source of the query, whatever becomes of
    its relays. *)
Lemma answer_sent t e msg rw start now rnd :
  Types.encode_message_to_bytes (MQueryResponse (answer_of t e msg) : Message I A R) = Ok rw →
  Z.of_nat (length rw) <= query_response_size_limit (opts t) →
  qe_span e = Some start → since now start <= qe_timeout e →
  ∃ t' e' r, respond (R := R) t e msg (λ _, true) now rnd = (t', e', r) ∧
    (∃ l, t' = set_sent t l) ∧ (address (qe_from e), rw) ∈ sent t'.
Proof.
  intros He Hlen Hspan Htime. unfold respond. fold (answer_of t e msg). rewrite He.
  unfold respond_with_message_and_response, check_response_size.
  rewrite (proj2 (Z.ltb_ge _ _)), Hspan, (proj2 (Z.ltb_ge _ _)) by done.
  set (t1 := memberlist_send t _ rw). set (nd := r_from (answer_of t e msg)).
  destruct (relay_set_sent t1 (qe_relay_factor e) nd (answer_of t e msg) rnd) as [l Hl].
  destruct (relay_sent t1 (qe_relay_factor e) nd (answer_of t e msg) rnd) as (r & relays & Hs & _).
  destruct (relay_response t1 _ _ _ rnd) as [t2 [u|er]]; cbn in Hl, Hs;
    (eexists _, _, _; split; [reflexivity|split; [by exists l|]]); rewrite Hs; cbn; set_solver.
Qed.

(** The caller of [q] waits: its response is open, registered, and holds
    [nrs], from whom only those have responded. *)
Record waiting s (q : QueryMessage I A R) (h cap : nat) (dl : Z) (nrs : list (NodeResponse I A)) : Prop := {
  wt_node : local_node s = q_from q;
  wt_registered : responses (query_core s) !! q_ltime q = Some h;
  wt_response : ∃ qr, query_heap s !! h = Some qr ∧ qresp_id qr = q_id q ∧ closed qr = false ∧ deadline qr = dl ∧
    (∀ n, n ∈ resps qr → n ∈ nr_from <$> nrs) ∧ resp_ch qr = mkChannel cap nrs false;
}.

Lemma response_arrives s q h cap dl nrs m rw now rnd :
  waiting s q h cap dl nrs → (length nrs < cap)%nat → now <= dl →
  r_ltime m = q_ltime q → r_id m = q_id q → r_flags m = 0 → r_from m ∉ nr_from <$> nrs →
  fits (MQueryResponse m) → Types.encode_message_to_bytes (MQueryResponse m : Message I A R) = Ok rw →
  ∃ s', notify_message (R := R) s false rw now rnd = Done s' ∧
    waiting s' q h cap dl (nrs ++ [mkNodeResponse (r_from m) (r_payload m)]).
Proof.
  intros [Hn Hr (qr & Hq & Hid & Hc & Hdl & Hres & Hch)] Hcap Hnow Et Ei Ef Hnew Hf He.
  destruct (reads_back _ Hf) as (rw' & x & Hne & He' & Hd & Hx). assert (rw' = rw) as -> by congruence.
  destruct x; cbn in Hx; try done. destruct Hx as (-> & -> & ->).
  exists (serf_handle_query_response s (r_ltime m) (r_id m) (Ok m) now).1.
  split; [unfold notify_message; destruct rw; [done|]; by rewrite Hd|].
  unfold serf_handle_query_response. rewrite Et, Hr, Hq, Ei, Hid, Z.eqb_refl. split; try done. cbn.
  rewrite list_lookup_insert_eq by (by eapply lookup_lt_Some). eexists. split; [done|].
  assert (r_ack m = false) as Hack by (unfold r_ack; by rewrite Ef).
  assert (r_from m ∉ resps qr) as Hfresh by auto.
  unfold handle_query_response, wants_response, deliver, finished. rewrite Hack, Hc, Hdl. cbn.
  rewrite (proj2 (Z.ltb_ge _ _)), bool_decide_eq_true_2 by done. unfold send_response. cbn.
  rewrite decide_False, Hc, Hch by done. unfold poll_send. cbn [ch_closed queue capacity].
  rewrite (proj2 (Nat.ltb_lt _ _)) by done. cbn.
  split_and!; try done. intros n. rewrite elem_of_union, elem_of_singleton, fmap_app, elem_of_app. cbn.
  rewrite list_elem_of_singleton. intros [->|?]; auto.
Qed.

(** An instance that hears [q] and is to answer [msg]. *)
Record answers t (q : QueryMessage I A R) (msg : bytes) : Prop := {
  an_listens : listens t q;
  an_ack : ack_fits t (q_flags q) (q_ltime q) (q_id q);
  an_fits : fits (MQueryResponse (mkQueryResponse (q_ltime q) (q_id q) (local_node t) 0 msg));
  an_size : ∀ rw,
    Types.encode_message_to_bytes
      (MQueryResponse (mkQueryResponse (q_ltime q) (q_id q) (local_node t) 0 msg) : Message I A R) = Ok rw →
    Z.of_nat (length rw) <= query_response_size_limit (opts t);
}.

Section spread.
Context (q : QueryMessage I A R) (raw : bytes) (i : I) (h cap : nat) (dl : Z) (msg : I → bytes)
  (heard_at answered_at arrived_at : I → Z).
Hypotheses (Hreg : regular (q_ltime q)) (Hfits : fits (MQuery q))
  (Hraw : Types.encode_message_to_bytes (MQuery q) = Ok raw)
  (Hname : q_name q ∉ internal_names) (Hflag : flags_contains (q_flags q) FLAG_NO_BROADCAST = false).

(** One hop of the query and the way back of the answer. *)
Lemma answer_hop c k j sk t s nrs :
  k ≠ j → i ≠ j → nodes c !! k = Some sk → raw ∈ queued sk → nodes c !! j = Some t → answers t q (msg j) →
  nodes c !! i = Some s → waiting s q h cap dl nrs → (length nrs < cap)%nat → local_node t ∉ nr_from <$> nrs →
  since (answered_at j) (heard_at j) <= q_timeout q → arrived_at j <= dl →
  ∃ c' t' s', csteps reconnector c c' ∧ nodes c' = <[i := s']> (<[j := t']> (nodes c)) ∧ raw ∈ queued t' ∧
    waiting s' q h cap dl (nrs ++ [mkNodeResponse (local_node t) (msg j)]).
Proof.
  intros Hkj Hij Hk Hqueued Hj [Hl Hack Hf Hsize] Hi Hw Hcap Hfresh Htime Harr.
  destruct (query_heard t q raw (heard_at j) (λ _, 0) Hreg Hfits Hraw Hname Hflag Hl)
    as (t1 & e & Hn1 & He1 & Hst & Hspan & Hq1 & En1 & Eo1).
  pose proof Hst as (S1 & S2 & _ & _ & S5 & S6 & _).
  assert (answer_of t1 e (msg j) = mkQueryResponse (q_ltime q) (q_id q) (local_node t) 0 (msg j)) as Ea
    by (unfold answer_of; by rewrite S1, S2, En1).
  destruct (reads_back _ Hf) as (rw & _ & _ & Hrw & _).
  destruct (answer_sent t1 e (msg j) rw (heard_at j) (answered_at j) (λ _, 0)) as (t2 & e2 & r2 & Hr2 & [l Hl2] & Hs2);
    [by rewrite Ea|rewrite Eo1; by apply Hsize|done|by rewrite S5|].
  destruct (response_arrives s q h cap dl nrs (mkQueryResponse (q_ltime q) (q_id q) (local_node t) 0 (msg j)) rw
    (arrived_at j) (λ _, 0)) as (s' & Hn3 & Hw'); try done.
  set (c1 := set_node c j t1).
  set (c2 := mkCluster (<[j := t2]> (nodes c1)) (announced c1) (asked c1)
    (answered c1 ++ [(qe_ltime e, qe_id e, mkNodeResponse (local_node t1) (msg j))])).
  exists (set_node c2 i s'), t2, s'. split_and!; [|cbn; by rewrite insert_insert_eq|by rewrite Hl2|done].
  apply (rtc_l _ _ c1).
  { apply (cs_receive _ c k j sk t raw false (heard_at j) (λ _, 0)); try done; [by left|].
    destruct (reads_back _ Hfits) as (raw' & r & _ & He' & Hd & Hr). assert (raw' = raw) as -> by congruence.
    intros q' Hq'. rewrite Hd in Hq'. simplify_eq. destruct Hr as [Q1 Q2 _ _ Q5 _ _ _ _]. by rewrite Q1, Q2, Q5. }
  apply (rtc_l _ _ c2).
  { eapply (cs_answer _ c1 j t1 e (qe_span e)); [apply lookup_insert_eq|done|by rewrite Ea|].
    destruct e. exact Hr2. }
  apply rtc_once. apply (cs_receive _ c2 j i t2 s rw false (arrived_at j) (λ _, 0)); try done.
  - apply lookup_insert_eq.
  - cbn. by rewrite !lookup_insert_ne.
  - right. rewrite (wt_node _ _ _ _ _ _ Hw), <- S6. done.
  - destruct (reads_back _ Hf) as (rw' & r & _ & Hrw' & Hd & Hr). assert (rw' = rw) as -> by congruence.
    intros q' Hq'. rewrite Hd in Hq'. by simplify_eq.
Qed.

(** Along a chain of instances. *)
Lemma answer_chain js : ∀ c k sk s nrs,
  k ∉ js → i ∉ js → NoDup js → nodes c !! k = Some sk → raw ∈ queued sk →
  nodes c !! i = Some s → waiting s q h cap dl nrs → (length nrs + length js <= cap)%nat →
  Forall (λ nr, node_id (nr_from nr) ∉ js) nrs →
  Forall (λ j, (∃ t, nodes c !! j = Some t ∧ local_id t = j ∧ answers t q (msg j)) ∧
    since (answered_at j) (heard_at j) <= q_timeout q ∧ arrived_at j <= dl) js →
  ∃ c' s' more, csteps reconnector c c' ∧ nodes c' !! i = Some s' ∧ waiting s' q h cap dl (nrs ++ more) ∧
    Forall2 (λ j nr, ∃ t, nodes c !! j = Some t ∧ nr = mkNodeResponse (local_node t) (msg j)) js more.
Proof.
  induction js as [|j js IH]; intros c k sk s nrs Hk Hi Hnd Hsk Hq Hs Hw Hcap Hnrs Hjs.
  { exists c, s, []. rewrite app_nil_r. split_and!; first [done|apply rtc_refl|constructor]. }
  apply not_elem_of_cons in Hk as [Hkj Hk], Hi as [Hij Hi]. apply NoDup_cons in Hnd as [Hj Hnd].
  apply Forall_cons in Hjs as [((t & Ht & Hid & Hans) & Htime & Harr) Hjs]. cbn in Hcap.
  destruct (answer_hop c k j sk t s nrs) as (c1 & t1 & s1 & Hsteps & Hn1 & Hq1 & Hw1); try done; [lia| |].
  { intros (nr & Hnode & Hnr)%list_elem_of_fmap. rewrite Forall_forall in Hnrs.
    apply (Hnrs nr Hnr). rewrite <- Hnode. change (local_id t ∈ j :: js). rewrite Hid. by left. }
  assert (∀ x, x ≠ i → x ≠ j → nodes c1 !! x = nodes c !! x) as Hframe
    by (intros; by rewrite Hn1, !lookup_insert_ne).
  destruct (IH c1 j t1 s1 (nrs ++ [mkNodeResponse (local_node t) (msg j)]))
    as (c2 & s2 & more & Hsteps2 & Hs2 & Hw2 & Hmore); try done.
  - by rewrite Hn1, lookup_insert_ne, lookup_insert_eq.
  - by rewrite Hn1, lookup_insert_eq.
  - rewrite length_app. cbn. lia.
  - apply Forall_app. split; [|rewrite Forall_singleton; change (local_id t ∉ js); by rewrite Hid].
    eapply Forall_impl; [exact Hnrs|]. cbn. set_solver.
  - rewrite Forall_forall in *. intros x Hx. rewrite Hframe by set_solver. by apply Hjs.
  - exists c2, s2, (mkNodeResponse (local_node t) (msg j) :: more). rewrite <- app_assoc in Hw2.
    split_and!; [by etrans|done|done|]. constructor; [by exists t|].
    apply Forall2_same_length_lookup in Hmore as [Hlen Hmore]. apply Forall2_same_length_lookup.
    split; [done|]. intros n x nr Hx Hnr. destruct (Hmore n x nr Hx Hnr) as (t' & Ht' & ->). exists t'.
    apply list_elem_of_lookup_2 in Hx. split; [|done]. by rewrite <- Hframe by set_solver.
Qed.

End spread.

(** The caller after its call: its query is queued and it waits. *)
Lemma asked_waits s name payload params id online now ty rnd raw :
  ring_ok s → regular (query_clock s) → (0 < online)%nat →
  let q := build_query s name payload params id in
  sendable s q raw → fits (MQuery q) → ack_fits s (q_flags q) (q_ltime q) (q_id q) →
  ∃ s', issue_query (R := R) s q ty online now rnd = Done (s', Ok (length (query_heap s))) ∧
    raw ∈ queued s' ∧ waiting s' q (length (query_heap s)) online (now + p_timeout params) [].
Proof.
  intros Hring Hreg Hon q Hsend Hf Hack.
  destruct (issue_effect s q raw ty online now rnd Hring Hreg Hsend Hon)
    as (s' & resp & Hissue & _ & Hheap & _). exists s'. split; [done|].
  destruct (issue_shape _ _ _ _ _ _ _ _ Hissue) as [->|(raw' & resp' & s2 & b & He & Hn & Hh & -> & _)].
  { apply (f_equal length) in Hheap. rewrite length_app in Hheap. cbn in Hheap. lia. }
  destruct Hsend as [_ Hraw]. assert (raw' = raw) as -> by congruence.
  set (s0 := (register_query_response _ _ _ _).1) in *.
  assert (handled [] s0 q s2) as [G1 G2 _ G4 _ _] by (by apply (handle_handled s0 (QRight q) q ty now rnd s2 (Ok b))).
  split; [unfold queued; apply list_elem_of_fmap; exists (mkBroadcast raw false); set_solver|].
  revert Hn. unfold new_query_response, bounded. destruct online as [|online]; [lia|].
  intros Hn. assert (∃ ch, resp' = mkQR (now + q_timeout q) (q_id q) (q_ltime q) false ∅ ∅ ch
    (mkChannel (S online) [] false)) as [ch ->].
  { destruct (flags_contains _ _); injection Hn as <-; by eexists. }
  split; cbn; [by rewrite G4| |]; rewrite ?G1, ?G2; cbn.
  - by rewrite lookup_insert_eq.
  - eexists. rewrite list_lookup_middle by done. split; [done|]. by split_and!.
Qed.

(** C6: A query is answered by everyone it reaches: when a node asks, each node
    of a chain along which gossip passes the query on, that has not seen it,
    passes its filters and answers within the timeout, has its answer in the
    caller's channel, provided the packets arrive before the deadline: the
    channel of the response the call returned holds exactly the answers of the
    chain's nodes, in the order they arrived. *)
Theorem query_answered c i s name payload params id online now rnd raw js msg heard_at answered_at arrived_at :
  nodes c !! i = Some s → ring_ok s → regular (query_clock s) →
  let q := build_query s name payload params id in
  sendable s q raw → fits (MQuery q) → ack_fits s (q_flags q) (q_ltime q) (q_id q) →
  name ∉ internal_names → NoDup (i :: js) → js ≠ [] → (length js <= online)%nat →
  Forall (λ j, (∃ t, nodes c !! j = Some t ∧ local_id t = j ∧ answers t q (msg j)) ∧
    since (answered_at j) (heard_at j) <= p_timeout params ∧ arrived_at j <= now + p_timeout params) js →
  ∃ c' s1 s' h qr, issue_query (R := R) s q None online now rnd = Done (s1, Ok h) ∧
    csteps reconnector c c' ∧ nodes c' !! i = Some s' ∧ query_heap s' !! h = Some qr ∧
    Forall2 (λ j nr, ∃ t, nodes c !! j = Some t ∧ nr = mkNodeResponse (local_node t) (msg j)) js
      (queue (resp_ch qr)).
Proof.
  intros Hi Hring Hreg q Hsend Hf Hack Hname Hnd Hjs Hcap Hall. apply NoDup_cons in Hnd as [Hij Hnd].
  assert (0 < online)%nat as Hon by (destruct js; [done|cbn in Hcap; lia]).
  destruct (asked_waits s name payload params id online now None rnd raw Hring Hreg Hon Hsend Hf Hack)
    as (s1 & Hissue & Hq1 & Hw1). fold q in Hissue, Hw1.
  set (c1 := mkCluster (<[i := s1]> (nodes c)) (announced c) (asked c ++ [q]) (answered c)).
  assert (∀ j, j ∈ js → nodes c1 !! j = nodes c !! j) as Hframe
    by (intros j Hj; cbn; rewrite lookup_insert_ne; [done|set_solver]).
  assert (flags_contains (q_flags q) FLAG_NO_BROADCAST = false) as Hflag by (cbn; by destruct (request_ack params)).
  destruct (answer_chain q raw i (length (query_heap s)) online (now + p_timeout params) msg heard_at answered_at
    arrived_at Hreg Hf (proj2 Hsend) Hname Hflag js c1 i s1 s1 []) as (c2 & s2 & more & Hsteps & Hs2 & Hw2 & Hmore);
    try done; [apply lookup_insert_eq..| |].
  { rewrite Forall_forall in *. intros j Hj. rewrite Hframe by done. by apply Hall. }
  destruct (wt_response _ _ _ _ _ _ Hw2) as (qr & Hqr & _ & _ & _ & _ & Hch).
  exists c2, s1, s2, (length (query_heap s)), qr. split_and!; try done.
  - eapply rtc_l; [|exact Hsteps]. by eapply cs_ask.
  - rewrite Hch. cbn. apply Forall2_same_length_lookup in Hmore as [Hlen Hmore].
    apply Forall2_same_length_lookup. split; [done|]. intros n x nr Hx Hnr.
    rewrite <- Hframe by (by eapply list_elem_of_lookup_2). by apply (Hmore n).
Qed.

End queries.
