(* ===== verification/ClusterEvents.v ===== *)
(** * User events across a cluster

    The invariant follows user events from the call that announces one, over
    the bytes of gossip and of state exchanges, to the applications.  Packets
    carry replies to queries only (ClusterQuery.v), so no event travels in
    them. *)

From Stdlib Require Import ZArith Lia Strings.Byte.
From stdpp Require Import base list gmap strings.
From S2P Require Import Prelude Clock Coordinate Types Core Membership MemberTraces UserEvents.
From S2P Require Import Responses Query QueryFacts Snapshot Delegate Api Cluster ClusterQuery.
Local Open Scope serf_scope.
Local Open Scope Z_scope.

Section events.
Context {I A R : Type} `{Countable I} `{Countable A} `{!Codec I A R} `{!Gossip I A R}.
Context (reconnector : option (Member I A → Z → Z)).
Implicit Types (s t : Serf I A) (raw : bytes) (rnd : nat → Z) (c : Cluster (I := I) (A := A) (R := R)).

(** ** Operations that user events do not notice *)

Lemma quiet_set_sent s l : quiet [] s (set_sent s l).
Proof. by apply quiet_same. Qed.

Lemma quiet_handle_query s q ty now rnd s' r :
  handle_query (R := R) s q ty now rnd = Done (s', r) → quiet [] s s'.
Proof.
  unfold handle_query. destruct (admit_query s _ _) as [[s1 fresh]|] eqn:Ha; [|done].
  assert (quiet [] s s1) as H1.
  { revert Ha. unfold admit_query. repeat case_match; intros ?; simplify_eq; by apply quiet_same. }
  destruct fresh; intros ?; simplify_eq; [|done]. eapply quiet_then; [exact H1|].
  match goal with H : process_query _ _ _ _ _ = _ |- _ => revert H end. unfold process_query.
  destruct (aq_should_process s1 q) as [[]|]; intros ?; simplify_eq; try apply quiet_refl.
  revert select (_ = (s', r)). destruct (aq_from q) as [from|]; intros ?; simplify_eq; [|apply quiet_refl].
  eapply quiet_then; [|apply quiet_send; by destruct ty]. destruct (flags_contains _ _); [|apply quiet_refl].
  destruct (ack_set_sent s1 q from rnd) as [l ->]. apply quiet_set_sent.
Qed.

(** A message that is not a user event changes nothing about user events. *)
Lemma received_cases t owned raw now rnd t' :
  received (R := R) t owned raw now rnd t' →
  quiet [raw] t t' ∨
  ∃ m t1 b, Types.decode_message (R := R) (A := A) raw = Done (Ok (RUserEvent m)) ∧
    handle_user_event t m = Done (t1, b) ∧ t' = if b : bool then queue_event t1 raw else t1.
Proof.
  assert (∀ t', quiet [] t t' → quiet [raw] t t') as Hw by (intros; eapply quiet_weaken; [|done]; set_solver).
  intros [t0 Hi|um t1 b Hdu Hu|q ty t1 r' Hdq Hq|lt id resp Hdr|addr off payload b Hdr Hb]; [| |left..].
  - left. apply Hi.
  - right. eauto 10.
  - apply quiet_handle_query in Hq. destruct r' as [[]|]; [|by apply Hw..].
    eapply quiet_then; [exact Hq|]. apply idle_queue.
  - apply Hw. unfold serf_handle_query_response. repeat case_match; by apply quiet_same.
  - apply Hw. apply quiet_set_sent.
Qed.

(** Bytes that are not a user event. *)
Definition no_event raw : Prop := ∀ m, Types.decode_message (R := R) (A := A) raw ≠ Done (Ok (RUserEvent m)).

Lemma encoded_no_event (m : Message I A R) raw :
  fits m → Types.encode_message_to_bytes m = Ok raw →
  (∀ e, m ≠ MUserEvent e) → no_event raw.
Proof.
  intros Hf He Hm e Hd. destruct (reads_back m Hf) as (raw' & r & _ & He' & Hd' & Hr).
  assert (raw' = raw) as -> by congruence. rewrite Hd in Hd'. simplify_eq.
  destruct m; cbn in Hr; try done. by eapply Hm.
Qed.

(** Neither packets nor intents are user events. *)
Lemma packet_no_event c raw : packet c raw → no_event raw.
Proof.
  intros Hp m Hd. destruct (packet_decodes _ _ Hp) as (r & _ & _ & [Hr|(a & off & payload & Hr & _)]);
    by rewrite Hd in Hr.
Qed.

Lemma intent_no_event raw : intent_bytes (I := I) (A := A) (R := R) raw → no_event raw.
Proof. intros (m & Hf & He & Hm). eapply encoded_no_event; [done..|]. intros e ->. done. Qed.

Lemma local_quiet s s' : local_step reconnector s s' → ∃ raws, quiet raws s s' ∧ Forall no_event raws.
Proof.
  intros [(raws & Hi & Hraws)|[[lt ->]|(h & ack & ->)]]%local_idle.
  - exists raws. split; [apply Hi|]. eapply Forall_impl; [exact Hraws|]. apply intent_no_event.
  - exists []. split; [|constructor]. unfold close_query. case_match; by apply quiet_same.
  - exists []. split; [|constructor]. by apply quiet_same.
Qed.

Lemma ask_quiet s q ty online now rnd s' r :
  fits (MQuery q) → issue_query (R := R) s q ty online now rnd = Done (s', r) →
  ∃ raws, quiet raws s s' ∧ Forall no_event raws.
Proof.
  intros Hf [->|(raw & resp & s2 & b & He & Hn & Hh & -> & _)]%issue_shape.
  { exists []. split; [apply quiet_refl|constructor]. }
  apply quiet_handle_query in Hh. exists [raw]. split; [|repeat constructor; by eapply encoded_no_event].
  eapply quiet_then; [|apply idle_queue]. eapply quiet_then; [|exact Hh]. by apply quiet_same.
Qed.

(** ** The invariant *)

(** What identifies a user event. *)
Definition event_key (m : UserEventMessage) : Z * UserEvent := (uem_ltime m, event_of m).

(** [B] bounds the event times in use; [ann] is what was announced so far. *)
Record node_ok (B : Z) (ann : list UserEvent) s : Prop := {
  no_clock : is_u64 (event_clock s);
  no_bound : event_clock s <= B;
  no_ring : (0 < length (event_buffer (event_core s)))%nat;
  no_slots : ∀ us, Some us ∈ event_buffer (event_core s) → 0 <= ues_ltime us < B ∧ ues_events us ⊆ ann;
  no_queued : ∀ raw m, raw ∈ queued s → Types.decode_message (R := R) (A := A) raw = Done (Ok (RUserEvent m)) →
    0 <= uem_ltime m < B ∧ event_of m ∈ ann;
  no_delivered : ∀ m, m ∈ delivered s → settled s m ∧ event_of m ∈ ann;
  no_once : NoDup (event_key <$> delivered s);
}.

Lemma node_ok_mono B B' ann ann' s : B <= B' → ann ⊆ ann' → node_ok B ann s → node_ok B' ann' s.
Proof.
  intros HB Ha [C K L S Q D N]. split; try done; try lia.
  - intros us Hus. destruct (S us Hus). split; [lia|set_solver].
  - intros raw m Hr Hm. destruct (Q raw m Hr Hm). split; [lia|set_solver].
  - intros m Hm. destruct (D m Hm). split; [done|set_solver].
Qed.

Lemma settled_of s s' m :
  event_clock s' = event_clock s → event_core s' = event_core s → settled s m → settled s' m.
Proof. unfold settled. by intros -> ->. Qed.

Lemma quiet_ok B ann raws s s' : quiet raws s s' → Forall no_event raws → node_ok B ann s → node_ok B ann s'.
Proof.
  intros [Ec Ek Ed Eq] Hn [C K L S Q D N]. split; rewrite ?Ec, ?Ek, ?Ed; try done.
  - intros raw m [Hr|Hr]%Eq Hm; [by eapply Q|]. rewrite Forall_forall in Hn. by destruct (Hn raw Hr m).
  - intros m Hm. destruct (D m Hm). split; [by eapply settled_of|done].
Qed.

(** The slot an event is recorded in. *)
Lemma record_slots B ann slot (t : Z) e us :
  0 <= t < B → e ∈ ann →
  (∀ us0, slot = Some us0 → 0 <= ues_ltime us0 < B ∧ ues_events us0 ⊆ ann) →
  record_event slot t e = Some us → 0 <= ues_ltime us < B ∧ ues_events us ⊆ ann.
Proof.
  intros Ht He Hs. unfold record_event. destruct slot as [us0|].
  - destruct (Hs us0 eq_refl). case_decide; intros ?; simplify_eq; cbn. split; [done|set_solver].
  - intros ?; simplify_eq; cbn. split; [done|set_solver].
Qed.

(** Processing an announced event keeps the invariant. *)
Lemma handle_event_ok B ann s m s' b :
  node_ok B ann s → 0 <= uem_ltime m < B → B < u64_modulus → event_of m ∈ ann →
  handle_user_event s m = Done (s', b) → node_ok B ann s' ∧ queued s' = queued s.
Proof.
  intros [C K L S Q D N] Ht HB He Hh. assert (regular (uem_ltime m)) as Hreg by (unfold regular; lia).
  destruct (handle_user_event_cases s m Hreg L) as (r & Hr & Hcase). rewrite Hh in Hr. injection Hr as <-.
  destruct (event_case_frame s m _ Hreg C Hcase) as (C' & _ & L' & _ & _). cbn in C', L'.
  assert (event_clock s' <= B) as K'.
  { assert (event_clock s' = Clock.witness (event_clock s) (uem_ltime m)) as -> by (by inversion Hcase).
    rewrite Clock.witness_spec by (unfold is_u64 in *; lia). lia. }
  assert (∀ x, settled s x → settled s' x) as Hset
    by (intros x Hx; by apply (settled_preserved s x m _ Hreg C Hx Hcase)).
  pose proof (event_case_settled s m _ Hreg Hcase) as Hm. cbn in Hm.
  inversion Hcase as [Hs Es|slot us buf idx Hmin Hb Hre Es]; subst.
  - split; [|done]. split; try done. intros x Hx. destruct (D x Hx). auto.
  - split; [|done].
    assert (delivered (send_event (set_event_core (witness_event_clock s (uem_ltime m))
      (mkEventCore (event_min_time (event_core s)) (<[idx := Some us]> buf))) (EvUser m)) = delivered s ++ [m])
      as Hd by (unfold delivered; cbn; by rewrite omap_app).
    split; try done; rewrite ?Hd; try (rewrite L'; lia).
    + intros us0 Hus. cbn in Hus. apply list_elem_of_lookup in Hus as [k Hk].
      rewrite list_lookup_insert in Hk. case_decide as Hk'.
      * destruct Hk' as [_ Hlen]. simplify_eq. eapply record_slots; [done|done| |exact Hre].
        intros us1 ->. apply S. by apply list_elem_of_lookup_2 in Hb.
      * apply S. by apply list_elem_of_lookup_2 in Hk.
    + intros x [Hx|Hx]%elem_of_app; [destruct (D x Hx); auto|].
      apply list_elem_of_singleton in Hx as ->. auto.
    + rewrite fmap_app. apply NoDup_app. split_and!; [done| |apply NoDup_singleton].
      intros k Hk Hkm. apply list_elem_of_fmap in Hk as (x & -> & Hx).
      apply list_elem_of_singleton in Hkm.
      pose proof (f_equal fst Hkm : uem_ltime x = uem_ltime m) as Et.
      pose proof (f_equal snd Hkm : event_of x = event_of m) as Ex.
      destruct (D x Hx) as [Hsx _].
      assert (settled s m) as Hsm by (unfold settled in *; by rewrite <- Et, <- Ex).
      pose proof (settled_refused s m ltac:(lia) L Hsm) as Hno. rewrite Hh in Hno. done.
Qed.

(** The clock and the minimum time may move ahead. *)
Lemma node_ok_ahead B ann s s' :
  is_u64 (event_clock s') → event_clock s <= event_clock s' <= B →
  event_min_time (event_core s) <= event_min_time (event_core s') →
  event_buffer (event_core s') = event_buffer (event_core s) →
  event_tx s' = event_tx s → queued s' = queued s → node_ok B ann s → node_ok B ann s'.
Proof.
  intros C' Hc Hmin Eb Et Eq [C K L S Q D N]. unfold delivered in *.
  split; unfold delivered; rewrite ?Eb, ?Eq, ?Et; try done; [lia|].
  intros m Hm. destruct (D m Hm) as [[Hlt Hs] He]. split; [|done]. split; [lia|]. rewrite Eb.
  destruct Hs as [?|[Ho|?]]; [left; lia| |auto]. right. left. eapply too_old_mono; [exact C| |..]; done || lia.
Qed.

Lemma witness_remote_ok B ann s lt elt qlt :
  B < u64_modulus → is_u64 elt → elt <= B → node_ok B ann s → node_ok B ann (witness_remote s lt elt qlt).
Proof.
  intros HB Hu He Hs. pose proof (no_clock _ _ _ Hs) as C. pose proof (no_bound _ _ _ Hs) as K.
  assert (∀ s', event_clock s' = event_clock (if 0 <? elt then witness_event_clock s (Clock.sub elt 1) else s) →
    event_core s' = event_core s → event_tx s' = event_tx s → queued s' = queued s → node_ok B ann s') as Hk.
  { intros s' Ek Ec Et Eq. apply (node_ok_ahead B ann s); rewrite ?Ec, ?Ek; try done; destruct (0 <? elt) eqn:Hpos;
      try done; bool_to_prop; cbn; try lia; unfold Clock.sub; rewrite sub64_exact by (unfold is_u64 in *; lia).
    - by apply Clock.witness_u64.
    - rewrite Clock.witness_spec by (unfold is_u64 in *; lia). lia. }
  unfold witness_remote. apply Hk; repeat case_match; done.
Qed.

Lemma merge_events_ok B ann evs : ∀ s s',
  node_ok B ann s → B < u64_modulus →
  Forall (λ m, 0 <= uem_ltime m < B ∧ event_of m ∈ ann) evs →
  merge_events s evs = Done s' → node_ok B ann s'.
Proof.
  induction evs as [|m evs IH]; intros s s' Hs HB Hev; cbn; [by intros [= <-]|].
  apply Forall_cons in Hev as [[Ht He] Hev].
  destruct (handle_user_event s m) as [[s1 b]|] eqn:Hh; [|done].
  apply IH; [|done..]. by eapply handle_event_ok.
Qed.

(** The events of a peer's state are events it has recorded. *)
Lemma exchanged_ok B ann t :
  node_ok B ann t →
  Forall (λ m, 0 <= uem_ltime m < B ∧ event_of m ∈ ann) (exchanged_events (local_state_message t)).
Proof.
  intros Ht. apply Forall_forall. intros m Hm. unfold exchanged_events in Hm. cbn in Hm.
  apply list_elem_of_bind in Hm as (us & Hm & Hus). apply list_elem_of_bind in Hm as (e & Hm & He).
  apply list_elem_of_singleton in Hm as ->. cbn. apply list_elem_of_omap in Hus as (slot & Hslot & Hid).
  destruct slot as [us'|]; [|done]. injection Hid as ->. destruct (no_slots _ _ _ Ht us Hslot) as [Hl Hsub].
  split; [done|]. unfold event_of. cbn. destruct e. by apply Hsub.
Qed.

Lemma merge_remote_ok B ann s t is_join now t' :
  fits (MPushPull (local_state_message s)) → node_ok B ann s → node_ok B ann t → B < u64_modulus →
  merge_remote_state (R := R) t (local_state (R := R) s) is_join now = Done t' → node_ok B ann t'.
Proof.
  intros Hf Hs Ht HB. destruct (reads_back _ Hf) as (raw & r & Hne & He & Hd & Hr).
  unfold local_state. rewrite He. unfold merge_remote_state. destruct raw as [|x raw]; [done|].
  rewrite Hd. destruct r; cbn in Hr; try done. destruct Hr as (-> & -> & -> & ->).
  unfold merge_push_pull. set (t0 := witness_remote t _ _ _).
  assert (node_ok B ann t0) as H0'.
  { apply witness_remote_ok; [done| | |done]; [apply (no_clock _ _ _ Hs)|apply (no_bound _ _ _ Hs)]. }
  set (t1 := merge_status _ _ _).
  assert (node_ok B ann t1) as H1' by (eapply quiet_ok; [apply idle_merge|constructor|done]).
  apply merge_events_ok; [|done|by apply exchanged_ok].
  destruct (is_join && event_join_ignore t1); [|done]. unfold ignore_events.
  destruct (event_min_time (event_core t1) <? _) eqn:Hmin; [|done]. bool_to_prop.
  apply (node_ok_ahead B ann t1); try done.
  - apply (no_clock _ _ _ H1').
  - split; [reflexivity|apply (no_bound _ _ _ H1')].
  - by apply Z.lt_le_incl.
Qed.

(** *** Announcements *)

Lemma user_event_refused s name payload coalesce s' e :
  user_event (R := R) s name payload coalesce = Done (s', Err e) → s' = s.
Proof.
  unfold user_event. repeat (case_match; try by intros [= <- _]); intros ?; simplify_eq.
Qed.

(** What a call that succeeds has done. *)
Lemma user_event_shape s name payload coalesce s' u :
  let m := mkUserEventMessage (event_clock s) name payload coalesce in
  is_u64 (event_clock s) → user_event (R := R) s name payload coalesce = Done (s', Ok u) →
  ∃ raw s1 b, handle_user_event (set_event_clock s (Clock.increment (event_clock s)).1) m = Done (s1, b) ∧
    s' = queue_event s1 raw ∧ raw ≠ [] ∧
    Types.decode_message (R := R) (A := A) raw = Done (Ok (RUserEvent m)).
Proof.
  intros m C. unfold user_event, Clock.time. cbv zeta. fold m. do 4 (case_match; [done|]).
  destruct (Types.encode_message_to_bytes _) as [raw|] eqn:He; [|done].
  destruct (handle_user_event _ m) as [[s1 b]|] eqn:Hh; [|done]. intros [= <- _]. bool_to_prop.
  destruct (reads_back (MUserEvent m)) as (raw' & x & Hne & He' & Hd & Hx); [by apply fits_user_event; cbn; [|lia|]|].
  assert (raw' = raw) as -> by congruence. destruct x; cbn in Hx; try done. subst m0. eauto 10.
Qed.

(** What a call that succeeds encodes fits. *)
Lemma user_event_fits s name payload coalesce s' u :
  is_u64 (event_clock s) → user_event (R := R) s name payload coalesce = Done (s', Ok u) →
  fits (MUserEvent (mkUserEventMessage (event_clock s) name payload coalesce) : Message I A R).
Proof.
  intros C. unfold user_event, Clock.time. cbv zeta. do 4 (case_match; [done|]). intros _. bool_to_prop.
  apply fits_user_event; [exact C|cbn; lia|done].
Qed.

Lemma queue_event_queued s raw x : x ∈ queued (queue_event s raw) ↔ x ∈ queued s ∨ x = raw.
Proof.
  unfold queued. cbn. rewrite !list_elem_of_fmap. split.
  - intros (y & -> & Hy). set_unfold. naive_solver.
  - intros [(y & -> & Hy)| ->]; [exists y; set_solver|exists (mkBroadcast raw false); set_solver].
Qed.

Lemma node_ok_queue B ann s raw m :
  node_ok B ann s → Types.decode_message (R := R) (A := A) raw = Done (Ok (RUserEvent m)) →
  0 <= uem_ltime m < B → event_of m ∈ ann → node_ok B ann (queue_event s raw).
Proof.
  intros [C K L S Q D N] Hd Ht He. split; try done.
  intros r m' [Hr| ->]%queue_event_queued Hm'; [by eapply Q|]. rewrite Hd in Hm'. by simplify_eq.
Qed.

Lemma user_event_ok B ann s name payload coalesce s' u :
  node_ok B ann s → B + 1 < u64_modulus → user_event (R := R) s name payload coalesce = Done (s', Ok u) →
  node_ok (B + 1) (ann ++ [mkUserEvent name payload]) s'.
Proof.
  intros Hs HB Hu. pose proof (no_clock _ _ _ Hs) as C. pose proof (no_bound _ _ _ Hs) as K.
  destruct (user_event_shape _ _ _ _ _ _ C Hu) as (raw & s1 & b & Hh & -> & _ & Hd).
  set (m := mkUserEventMessage (event_clock s) name payload coalesce) in *. set (s0 := set_event_clock s _) in *.
  assert (node_ok (B + 1) (ann ++ [mkUserEvent name payload]) s0) as H0'.
  { assert (event_clock s0 = event_clock s + 1) as Ec.
    { cbn. rewrite add64_exact; unfold is_u64, u64_modulus in *; lia. }
    apply (node_ok_ahead _ _ s); try done; rewrite ?Ec; [unfold is_u64 in *; lia|lia|].
    eapply node_ok_mono; [| |exact Hs]; [lia|set_solver]. }
  assert (event_of m ∈ ann ++ [mkUserEvent name payload]) as Hin by set_solver.
  assert (0 <= uem_ltime m < B + 1) as Ht by (cbn; unfold is_u64 in C; lia).
  eapply node_ok_queue; [|exact Hd|done..]. by eapply handle_event_ok.
Qed.

Definition cluster_ok (base : Z) c : Prop :=
  map_Forall (λ _, node_ok (base + Z.of_nat (length (announced c))) (announced c)) (nodes c).

Lemma cstep_announced c c' : cstep reconnector c c' → (length (announced c) <= length (announced c'))%nat.
Proof. intros []; cbn; rewrite ?length_app; lia. Qed.

Lemma gossip_ok B ann s t raw owned now rnd t' :
  node_ok B ann s → node_ok B ann t → B < u64_modulus → raw ∈ queued s →
  notify_message (R := R) t owned raw now rnd = Done t' → node_ok B ann t'.
Proof.
  intros Hs Ht HB Hr Hn. destruct (received_cases _ _ _ _ _ _ (notify_received _ _ _ _ _ _ Hn)) as [[Ec Ek Ed Eq]|(m & t1 & b & Hd & Hh & ->)].
  - destruct Ht as [C K L S Q D N]. split; rewrite ?Ec, ?Ek, ?Ed; try done.
    + intros r m [Hr'|Hr']%Eq Hm; [by eapply Q|]. apply list_elem_of_singleton in Hr' as ->.
      by apply (no_queued _ _ _ Hs raw m).
    + intros m Hm. destruct (D m Hm). split; [by eapply settled_of|done].
  - destruct (no_queued _ _ _ Hs raw m Hr Hd) as [Hlt He].
    destruct (handle_event_ok _ _ _ _ _ _ Ht Hlt HB He Hh) as [Ht1 _]. destruct b; [|done].
    by eapply node_ok_queue.
Qed.

Lemma packet_keeps B ann t raw owned now rnd t' :
  node_ok B ann t → no_event raw → notify_message (R := R) t owned raw now rnd = Done t' → node_ok B ann t'.
Proof.
  intros Ht Hno [Hq|(m & t1 & b & Hd & _)]%notify_received%received_cases; [|by destruct (Hno m)].
  eapply quiet_ok; [exact Hq|by repeat constructor|done].
Qed.

Lemma cstep_ok base c c' :
  base + Z.of_nat (length (announced c')) < u64_modulus → replies_ok c → cstep reconnector c c' →
  cluster_ok base c → cluster_ok base c'.
Proof.
  intros HB Hrep Hstep Hc. unfold cluster_ok in *.
  destruct Hstep as [i s name payload cc s' r Hi Hf Hu|i s q ty online now rnd s' r Hi Hf Ha Hq
    |i s e span msg ok now rnd s' e' r Hi He Hf Hr|i j s t raw owned now rnd t' Hi Hj Hr Hack Hn
    |i j s t is_join now t' Hi Hj Hf Hm|i s s' Hi Hl]; cbn in *.
  - pose proof (Hc i s Hi) as Hs. cbn in Hs. destruct r as [u|e].
    + rewrite length_app in *. cbn in *.
      replace (base + Z.of_nat (length (announced c) + 1)) with (base + Z.of_nat (length (announced c)) + 1) in * by lia.
      pose proof (user_event_ok _ _ _ _ _ _ _ _ Hs ltac:(lia) Hu) as Hs'.
      apply map_Forall_insert_2; [done|]. eapply map_Forall_impl; [exact Hc|]. cbn. intros k x.
      apply node_ok_mono; [lia|set_solver].
    + rewrite app_nil_r in *.
      apply user_event_refused in Hu as ->. by apply map_Forall_insert_2.
  - apply map_Forall_insert_2; [|done]. destruct (ask_quiet _ _ _ _ _ _ _ _ Hf Hq) as (raws & Hqt & Hn).
    eapply quiet_ok; [exact Hqt|done|exact (Hc i s Hi)].
  - apply map_Forall_insert_2; [|done]. eapply quiet_ok; [|constructor|exact (Hc i s Hi)].
    destruct (respond_set_sent _ _ _ _ _ _ _ _ _ Hr) as [l ->]. apply quiet_set_sent.
  - apply map_Forall_insert_2; [|done].
    pose proof (proj1 Hrep i s Hi) as Hs. cbn in Hs. destruct Hr as [Hr|Hr].
    + eapply gossip_ok; [exact (Hc i s Hi)|exact (Hc j t Hj)|done..|exact Hn].
    + eapply packet_keeps; [exact (Hc j t Hj)| |exact Hn]. eapply packet_no_event. by eapply (qo_sent _ _ Hs).
  - apply map_Forall_insert_2; [|done].
    eapply merge_remote_ok; [exact Hf|exact (Hc i s Hi)|exact (Hc j t Hj)|done|exact Hm].
  - apply map_Forall_insert_2; [|done]. destruct (local_quiet s s' Hl) as (raws & Hq & Hn).
    eapply quiet_ok; [exact Hq|done|exact (Hc i s Hi)].
Qed.

(** ** What the cluster guarantees *)

(** An instance that has not seen a user event yet. *)
Record event_free (base : Z) s : Prop := {
  ef_clock : is_u64 (event_clock s) ∧ event_clock s <= base;
  ef_ring : (0 < length (event_buffer (event_core s)))%nat ∧ Forall (λ slot, slot = None) (event_buffer (event_core s));
  ef_silent : queued s = [] ∧ delivered s = [];
}.

Lemma event_free_ok base s : event_free base s → node_ok base [] s.
Proof.
  intros [[C K] [L S] [Q D]]. split; rewrite ?Q, ?D; try done; [|by intros; set_solver..|constructor].
  intros us Hus. rewrite Forall_forall in S. by specialize (S _ Hus).
Qed.

(** C4: No application is given a user event that was not announced, and none
    is given one twice: in every state a cluster can reach from one without
    user events and queries, whatever is lost, repeated, reordered, asked,
    answered or exchanged in bulk, every user event delivered anywhere has the name and payload of a
    successful call of [user_event] on some node, and no node has delivered
    the same event (time, name and payload) more than once.  Times must not
    run out. *)
Theorem events_announced_once base c c' :
  announced c = [] → answered c = [] → map_Forall (λ _ s, event_free base s ∧ query_free s) (nodes c) →
  csteps reconnector c c' →
  base + Z.of_nat (length (announced c')) < u64_modulus →
  ∀ i s, nodes c' !! i = Some s →
    (∀ m, m ∈ delivered s → event_of m ∈ announced c') ∧ NoDup (event_key <$> delivered s).
Proof.
  intros Ha Hans Hfree Hsteps HB.
  assert (∀ c1, csteps reconnector c c1 → replies_ok c1) as Hrep.
  { intros c1. apply csteps_replies; [done|]. eapply map_Forall_impl; [exact Hfree|]. by intros _ s []. }
  assert (cluster_ok base c') as Hok.
  { revert c' Hsteps HB. apply (rtc_ind_r (λ c', _ → cluster_ok base c')); [|intros c1 c2 Hsteps Hstep IH HB].
    - intros _. unfold cluster_ok. rewrite Ha. cbn. eapply map_Forall_impl; [exact Hfree|]. cbn. intros _ s [Hs _].
      rewrite Z.add_0_r. by apply event_free_ok.
    - pose proof (cstep_announced _ _ Hstep). eapply cstep_ok; [done|by apply Hrep|exact Hstep|]. apply IH. lia. }
  intros i s Hi. pose proof (Hok i s Hi) as Hs. cbn in Hs. split; [|apply Hs].
  intros m Hm. by apply (no_delivered _ _ _ Hs m Hm).
Qed.

(** An instance that would deliver [m]. *)
Record open_to (m : UserEventMessage) s : Prop := {
  op_ring : (0 < length (event_buffer (event_core s)))%nat;
  op_min : event_min_time (event_core s) <= uem_ltime m;
  op_new : too_old (Clock.witness (event_clock s) (uem_ltime m)) (length (event_buffer (event_core s)))
    (uem_ltime m) = false;
  op_unheld : ¬ holds (event_buffer (event_core s)) (uem_ltime m) (event_of m);
}.

(** One hop: the event is delivered and may travel on. *)
Lemma gossip_hop c i j s t raw m :
  nodes c !! i = Some s → nodes c !! j = Some t → raw ∈ queued s → raw ≠ [] →
  Types.decode_message (R := R) (A := A) raw = Done (Ok (RUserEvent m)) → regular (uem_ltime m) → open_to m t →
  ∃ t', cstep reconnector c (set_node c j t') ∧ m ∈ delivered t' ∧ raw ∈ queued t'.
Proof.
  intros Hi Hj Hr Hne Hd Ht [Hl Hmin Hnew Hno].
  destruct (user_event_delivered t m Ht Hl Hmin Hnew Hno) as (t1 & Hh & Htx & _).
  exists (queue_event t1 raw). split_and!.
  - apply (cs_receive reconnector c i j s t raw false 0 (λ _, 0)); try done; [by left|by intros q; rewrite Hd|].
    unfold notify_message. destruct raw as [|x raw]; [done|]. rewrite Hd, Hh. done.
  - unfold delivered. cbn. rewrite Htx, omap_app. set_solver.
  - unfold queued. cbn. apply list_elem_of_fmap. exists (mkBroadcast raw false). set_solver.
Qed.

(** C5: An announced event can reach everyone: along any chain of nodes that
    would still deliver it, starting at the node that announced it, gossip
    passing the bytes from each node to the next delivers it to all of
    them. *)
Theorem announcement_spreads base c i s name payload coalesce s' u js :
  cluster_ok base c → base + Z.of_nat (length (announced c)) + 1 < u64_modulus →
  nodes c !! i = Some s → user_event (R := R) s name payload coalesce = Done (s', Ok u) →
  NoDup (i :: js) →
  let m := mkUserEventMessage (event_clock s) name payload coalesce in
  Forall (λ j, ∃ t, nodes c !! j = Some t ∧ open_to m t) js →
  ∃ c', csteps reconnector c c' ∧ Forall (λ j, ∃ t, nodes c' !! j = Some t ∧ m ∈ delivered t) js.
Proof.
  intros Hc HB Hi Hu Hnd m Hopen. pose proof (Hc i s Hi) as Hs. cbn in Hs.
  pose proof (no_clock _ _ _ Hs) as C. pose proof (no_bound _ _ _ Hs) as K.
  destruct (user_event_shape _ _ _ _ _ _ C Hu) as (raw & s1 & b & _ & Es & Hne & Hd).
  assert (raw ∈ queued s') as Hr by (rewrite Es; apply queue_event_queued; by right).
  assert (regular (uem_ltime m)) as Ht by (unfold regular, is_u64 in *; cbn; lia).
  set (c1 := mkCluster (<[i := s']> (nodes c)) (announced c ++ [mkUserEvent name payload]) (asked c) (answered c)).
  assert (csteps reconnector c c1) as H1'.
  { apply rtc_once. apply (cs_announce reconnector c i s name payload coalesce s' (Ok u)); try done.
    by eapply user_event_fits. }
  assert (Forall (λ j, ∃ t, nodes c1 !! j = Some t ∧ open_to m t) js) as Hopen1.
  { apply NoDup_cons in Hnd as [Hni _]. rewrite Forall_forall in *. intros j Hj.
    cbn. rewrite lookup_insert_ne by (intros ->; done). by apply Hopen. }
  assert (nodes c1 !! i = Some s') as Hi1 by apply lookup_insert_eq.
  clearbody c1. clear Hi Hu Hopen Hs Es.
  enough (∃ c', csteps reconnector c1 c' ∧ Forall (λ j, ∃ t, nodes c' !! j = Some t ∧ m ∈ delivered t) js ∧
    ∀ k, k ∉ js → nodes c' !! k = nodes c1 !! k) as (c' & H2' & Hall & _)
    by (exists c'; split; [by etrans|done]).
  clear H1' Hc HB. revert c1 i s' Hi1 Hr Hnd Hopen1.
  induction js as [|j js IH]; intros c1 i s' Hi1 Hr Hnd Hopen; [exists c1; split; [apply rtc_refl|done]|].
  apply Forall_cons in Hopen as [(t & Hj & Hot) Hopen].
  destruct (gossip_hop c1 i j s' t raw m Hi1 Hj Hr Hne Hd Ht Hot) as (t' & Hstep & Hdel & Hr').
  apply NoDup_cons in Hnd as [_ Hnd]. pose proof Hnd as [Hnj _]%NoDup_cons.
  destruct (IH (set_node c1 j t') j t') as (c' & Hsteps & Hall & Hframe); [apply lookup_insert_eq|done|done| |].
  { rewrite Forall_forall in *. intros k Hk. cbn. rewrite lookup_insert_ne by (intros ->; done). by apply Hopen. }
  exists c'. split_and!.
  - by eapply rtc_l.
  - constructor; [|done]. exists t'. split; [|done]. rewrite Hframe by done. apply lookup_insert_eq.
  - intros k Hk. rewrite Hframe by set_solver. cbn. apply lookup_insert_ne. set_solver.
Qed.

End events.
