(* ===== verification/InternalQuery.v ===== *)
(** * Answering internal queries (serf/internal_query.rs)

    [SerfQueries] sits in the event pipeline: it keeps internal queries away
    from the application and answers them.  A conflict query is answered with
    the member this node files under the contested id; the key queries read
    and change memberlist's keyring and report what came of it.

    The keyring is memberlist's [SecretKeyring], the parameter [Keyring].
    Writing the keyring file is an I/O action whose outcome is part of the
    environment of a handler. *)

From Stdlib Require Import ZArith Lia Strings.Byte.
From stdpp Require Import base list gmap strings pretty.
From S2P Require Import Prelude Clock Coordinate Types Core Membership MemberTraces UserEvents.
From S2P Require Import Responses Query QueryFacts Delegate Wire CodecIntents CodecEvents CodecQuery.
From S2P Require Import CodecMember CodecPushPull CodecKeys CodecMessage Exchange.
Local Open Scope serf_scope.

(** memberlist's keyring.  Failures carry the text of the error. *)
Class Keyring (K KR : Type) : Type := {
  kr_insert : KR → K → KR;
  kr_use_key : KR → K → Result KR string;
  kr_remove : KR → K → Result KR string;
  kr_keys : KR → list K;
  kr_primary_key : KR → K;
}.

Definition MIN_ENCODED_KEY_LENGTH : Z := 25.

Section internal.
Context `{Wire} {I A R K KR : Type} `{Countable I} `{Countable A} `{Regex R} `{Keyring K KR}
  (DI : Data I) (DA : Data A) (SK : Scalar K)
  (meta_max_size : Z) (is_match : R → string → bool).

#[local] Instance internal_codec : Codec I A R := wire_codec DI DA SK meta_max_size is_match.

(** The world a handler answers in. *)
Record Env : Type := mkEnv {
  send_ok : A → bool;              (** memberlist's answer to a send *)
  now : Z;
  rnd : nat → Z;
  write_file : list K → Result unit string; (** what writing keys to the keyring file comes to *)
}.

(** The instance and memberlist's encryption state. *)
Record KeyNode : Type := mkKeyNode {
  kn_serf : Serf I A;
  kn_keyring : option KR;
  encryption_enabled : bool;
  keyring_file : option string;
}.

Definition set_kn_serf (n : KeyNode) (s : Serf I A) : KeyNode :=
  mkKeyNode s (kn_keyring n) (encryption_enabled n) (keyring_file n).
Definition set_kn_keyring (n : KeyNode) (kr : option KR) : KeyNode :=
  mkKeyNode (kn_serf n) kr (encryption_enabled n) (keyring_file n).

(** ** Conflicts *)

(** The reply to a conflict query: [None] to stay silent. *)
Definition conflict_answer (s : Serf I A) (conflict : I) : outcome (option bytes) :=
  if decide (conflict = local_id s) then Done None
  else
    match states (members s) !! conflict with
    | Some state =>
        match CodecMessage.encode_message_to_bytes (conflict_encodable DI DA (member state)) with
        | Ok raw => Done (Some raw)
        | Err (Failed _) => Done None
        | Err Panicked => Panic
        end
    | None => Done (Some [])
    end.

Definition answer (s : Serf I A) (ev : QueryEvent I A) (raw : bytes) (w : Env)
  : Serf I A * QueryEvent I A :=
  (respond s ev raw (send_ok w) (now w) (rnd w)).1.

Definition handle_conflict (n : KeyNode) (conflict : I) (ev : QueryEvent I A) (w : Env)
  : outcome (KeyNode * QueryEvent I A) :=
  run! raw := conflict_answer (kn_serf n) conflict in
  match raw with
  | None => Done (n, ev)
  | Some raw =>
      let '(s, ev) := answer (kn_serf n) ev raw w in Done (set_kn_serf n s, ev)
  end.

(** ** Sending a key response *)

Definition default_key_response : KeyResponseMessage K := mkKeyResponse false EmptyString [] None.

Definition create_response (s : Serf I A) (ev : QueryEvent I A) (buf : bytes) : QueryResponseMessage I A :=
  mkQueryResponse (qe_ltime ev) (qe_id ev) (local_node s) 0 buf.

Definition truncated_message (i actual : nat) : string :=
  ("truncated key list response, showing first " +:+ pretty i +:+ " of " +:+ pretty actual +:+ " keys")%string.

(** [resp.keys.drain(i..)] and the message that goes with it. *)
Definition truncate_keys (i actual : nat) (resp : KeyResponseMessage K) : KeyResponseMessage K :=
  mkKeyResponse (kres_result resp) (truncated_message i actual) (take i (kres_keys resp))
    (kres_primary_key resp).

(** [for i in (0..=max).rev()]. *)
Fixpoint truncate_loop (s : Serf I A) (ev : QueryEvent I A) (actual i : nat) (resp : KeyResponseMessage K)
  : Result (bytes * QueryResponseMessage I A) Error :=
  match CodecMessage.encode_message_to_bytes (key_response_encodable SK resp) with
  | Err e => Err (Encode e)
  | Ok kraw =>
      let qresp := create_response s ev kraw in
      match check_response_size s (Types.encoded_message_len (R := R) (MQueryResponse qresp)) with
      | Err _ =>
          let resp := truncate_keys i actual resp in
          match i with
          | O => Err FailTruncateResponse
          | S i => truncate_loop s ev actual i resp
          end
      | Ok _ =>
          match Types.encode_message_to_bytes (R := R) (MQueryResponse qresp) with
          | Err e => Err (Encode e)
          | Ok qraw => Ok (qraw, qresp)
          end
      end
  end.

Definition max_list_keys (s : Serf I A) (actual : nat) : nat :=
  Nat.min (Z.to_nat (query_response_size_limit (opts s) / MIN_ENCODED_KEY_LENGTH)) actual.

Definition key_list_response_with_correct_size (s : Serf I A) (ev : QueryEvent I A)
    (resp : KeyResponseMessage K) : Result (bytes * QueryResponseMessage I A) Error :=
  let actual := length (kres_keys resp) in
  truncate_loop s ev actual (max_list_keys s actual) resp.

Definition send_key_response (s : Serf I A) (ev : QueryEvent I A) (resp : KeyResponseMessage K) (w : Env)
  : Serf I A * QueryEvent I A :=
  if decide (qe_name ev = INTERNAL_LIST_KEYS) then
    match key_list_response_with_correct_size s ev resp with
    | Ok (raw, qresp) =>
        (respond_with_message_and_response (R := R) s ev raw qresp (send_ok w) (now w) (rnd w)).1
    | Err _ => (s, ev)
    end
  else
    match CodecMessage.encode_message_to_bytes (key_response_encodable SK resp) with
    | Ok raw => answer s ev raw w
    | Err _ => (s, ev)
    end.

(** ** Key queries *)

Definition failed (msg : string) : KeyResponseMessage K := mkKeyResponse false msg [] None.
Definition succeeded : KeyResponseMessage K := mkKeyResponse true EmptyString [] None.

Definition NOT_ENABLED : string := "encryption is not enabled".
Definition NO_KEYRING : string := "encryption enabled but keyring is empty".

(** [write_keyring_file] has nothing to do without a file or a keyring. *)
Definition write_keyring_file (n : KeyNode) (w : Env) : Result unit string :=
  match keyring_file n, kn_keyring n with
  | Some _, Some kr => write_file w (kr_keys kr)
  | _, _ => Ok tt
  end.

(** What the three handlers that change the keyring share: the keyring they
    leave behind and the response they send.  [req.key.unwrap()] panics on a
    request without a key. *)
Definition change_keyring (op : KR → K → Result KR string) (n : KeyNode) (payload : bytes) (w : Env)
  : outcome (option KR * KeyResponseMessage K) :=
  let old := kn_keyring n in
  match CodecMessage.decode_message (R := R) DI DA SK payload with
  | Err Panicked => Panic
  | Err (Failed _) => Done (old, default_key_response)
  | Ok (WKeyRequest _ _ req) =>
      if encryption_enabled n then
        match old with
        | None => Done (old, failed NO_KEYRING)
        | Some kr =>
            match kreq_key req with
            | None => Panic
            | Some key =>
                match op kr key with
                | Err e => Done (old, failed e)
                | Ok kr =>
                    match write_keyring_file (set_kn_keyring n (Some kr)) w with
                    | Err e => Done (Some kr, failed e)
                    | Ok _ => Done (Some kr, succeeded)
                    end
                end
            end
        end
      else Done (old, failed NOT_ENABLED)
  | Ok _ => Done (old, default_key_response)
  end.

Definition change_and_report op (n : KeyNode) (ev : QueryEvent I A) (w : Env)
  : outcome (KeyNode * QueryEvent I A) :=
  run! (kr, resp) := change_keyring op n (qe_payload ev) w in
  let '(s, ev) := send_key_response (kn_serf n) ev resp w in
  Done (set_kn_serf (set_kn_keyring n kr) s, ev).

Definition handle_install_key (n : KeyNode) := change_and_report (λ kr key, Ok (kr_insert kr key)) n.
Definition handle_use_key (n : KeyNode) := change_and_report kr_use_key n.
Definition handle_remove_key (n : KeyNode) := change_and_report kr_remove n.

Definition list_response (n : KeyNode) : KeyResponseMessage K :=
  if encryption_enabled n then
    match kn_keyring n with
    | None => failed NO_KEYRING
    | Some kr => mkKeyResponse true EmptyString (kr_keys kr) (Some (kr_primary_key kr))
    end
  else failed NOT_ENABLED.

Definition handle_list_keys (n : KeyNode) (ev : QueryEvent I A) (w : Env) : outcome (KeyNode * QueryEvent I A) :=
  let '(s, ev) := send_key_response (kn_serf n) ev (list_response n) w in
  Done (set_kn_serf n s, ev).

(** ** The task *)

Definition handle_internal_query (n : KeyNode) (kind : InternalQueryEvent I) (ev : QueryEvent I A) (w : Env)
  : outcome (KeyNode * QueryEvent I A) :=
  match kind with
  | IQPing => Done (n, ev)
  | IQConflict conflict => handle_conflict n conflict ev w
  | IQInstallKey => handle_install_key n ev w
  | IQUseKey => handle_use_key n ev w
  | IQRemoveKey => handle_remove_key n ev w
  | IQListKey => handle_list_keys n ev w
  end.

End internal.

Section facts.
Context `{WireLaws} {I A R K KR : Type} `{Countable I} `{Countable A} `{RegexLaws R} `{Keyring K KR}
  (DI : Data I) (DA : Data A) (SK : Scalar K)
  (meta_max_size : Z) (is_match : R → string → bool).

Abbreviation codec0 := (internal_codec DI DA SK meta_max_size is_match).

Implicit Types (s : Serf I A) (ev : QueryEvent I A) (resp : KeyResponseMessage K).

(** ** Key lists within the size limit *)

(** The answer a response makes, and whether it keeps to the limit. *)
Definition answer_of s ev resp (qresp : QueryResponseMessage I A) : Prop :=
  ∃ kraw, CodecMessage.encode_message_to_bytes (key_response_encodable SK resp) = Ok kraw ∧
    qresp = create_response s ev kraw.

Definition answer_fits s ev resp : Prop :=
  ∃ qresp, answer_of s ev resp qresp ∧
    (Types.encoded_message_len (Codec := codec0) (MQueryResponse qresp) <= query_response_size_limit (opts s))%Z.

(** Some response, or its answer, does not encode. *)
Definition encoding_fails s ev (e : EncodeError) : Prop :=
  ∃ resp, CodecMessage.encode_message_to_bytes (key_response_encodable SK resp) = Err e ∨
    ∃ qresp, answer_of s ev resp qresp ∧
      Types.encode_message_to_bytes (Codec := codec0) (MQueryResponse qresp) = Err e.

Lemma check_response_size_ok s n :
  check_response_size s n = Ok tt ↔ (n <= query_response_size_limit (opts s))%Z.
Proof. unfold check_response_size. case_match eqn:E; bool_to_prop; split; (done || lia). Qed.

Lemma truncate_twice j i actual resp :
  j ≤ i → truncate_keys j actual (truncate_keys i actual resp) = truncate_keys j actual resp.
Proof. intros Hji. unfold truncate_keys. simpl. by rewrite take_take, Nat.min_l. Qed.

Abbreviation truncating := (truncate_loop (R := R) DI DA SK meta_max_size is_match).

Lemma truncate_loop_spec s ev actual i : ∀ resp,
  match truncating s ev actual i resp with
  | Ok (qraw, qresp) =>
      ∃ resp', answer_of s ev resp' qresp ∧ answer_fits s ev resp' ∧
        Types.encode_message_to_bytes (Codec := codec0) (MQueryResponse qresp) = Ok qraw ∧
        (resp' = resp ∨
         ∃ k, 1 ≤ k ≤ i ∧ resp' = truncate_keys k actual resp ∧ ¬ answer_fits s ev resp ∧
           ∀ j, k < j ≤ i → ¬ answer_fits s ev (truncate_keys j actual resp))
  | Err FailTruncateResponse =>
      ¬ answer_fits s ev resp ∧ ∀ j, 1 ≤ j ≤ i → ¬ answer_fits s ev (truncate_keys j actual resp)
  | Err (Encode e) => encoding_fails s ev e
  | Err _ => False
  end.
Proof.
  induction i as [|i IH]; intros resp; cbn [truncate_loop];
    (destruct (CodecMessage.encode_message_to_bytes _) as [kraw|e] eqn:Hk; [|by exists resp; left]);
    set (qresp := create_response s ev kraw);
    (destruct (check_response_size s _) as [[]|e] eqn:Hc;
      [apply check_response_size_ok in Hc;
       assert (answer_of s ev resp qresp) as Ha by (by exists kraw);
       destruct (Types.encode_message_to_bytes _) as [qraw|e] eqn:Hq;
         [|exists resp; right; by exists qresp];
       exists resp; split_and!; [done|by exists qresp|exact Hq|by left]|]);
    assert (¬ answer_fits s ev resp) as Hno
      by (intros (q & (kraw' & Hk' & ->) & Hle); rewrite Hk in Hk'; simplify_eq;
          apply check_response_size_ok in Hle; unfold qresp in Hc; rewrite Hle in Hc; done).
  - split; [done|]. intros j Hj. lia.
  - specialize (IH (truncate_keys (S i) actual resp)).
    destruct (truncating _ _ _ i _) as [[qraw q]|er].
    + destruct IH as (resp' & Ha & Hf & Hq & Hcase). exists resp'. split_and!; [done..|]. right.
      destruct Hcase as [->|(k & Hk1 & -> & Hno' & Hmax)].
      * exists (S i). split_and!; [lia..|done|done|]. intros j Hj. lia.
      * exists k. split_and!; [lia..|by rewrite truncate_twice by lia|done|]. intros j Hj.
        destruct (decide (j = S i)) as [->|]; [done|]. rewrite <- (truncate_twice j (S i)) by lia.
        apply Hmax. lia.
    + destruct er; try done. destruct IH as [Hno' Hmax]. split; [done|]. intros j Hj.
      destruct (decide (j = S i)) as [->|]; [done|]. rewrite <- (truncate_twice j (S i)) by lia.
      apply Hmax. lia.
Qed.

(** C37: A list of keys is answered within the size limit, whole or cut: either
    with the whole list, when that fits, or with its first [k] keys and a
    message that says so, where [k] is the largest number of keys that fits
    among 1 to the size limit divided by 25, which the code takes for the
    length of the shortest key (more keys are never tried, so that shorter keys
    may leave room); the result and the primary key are kept.  The answer is
    given up only when an encoding fails or none of these numbers fits. *)
Theorem list_keys_truncated s ev resp :
  let actual := length (kres_keys resp) in
  let cap := Nat.min (Z.to_nat (query_response_size_limit (opts s) / 25)) actual in
  match key_list_response_with_correct_size DI DA SK meta_max_size is_match s ev resp with
  | Ok (qraw, qresp) =>
      ∃ resp', answer_of s ev resp' qresp ∧ answer_fits s ev resp' ∧
        Types.encode_message_to_bytes (Codec := codec0) (MQueryResponse qresp) = Ok qraw ∧
        (resp' = resp ∨
         ∃ k, 1 ≤ k ≤ cap ∧
           resp' = mkKeyResponse (kres_result resp) (truncated_message k actual)
                     (take k (kres_keys resp)) (kres_primary_key resp) ∧
           ¬ answer_fits s ev resp ∧
           ∀ j, k < j ≤ cap → ¬ answer_fits s ev (truncate_keys j actual resp))
  | Err FailTruncateResponse =>
      ¬ answer_fits s ev resp ∧
      ∀ j, 1 ≤ j ≤ cap → ¬ answer_fits s ev (truncate_keys j actual resp)
  | Err (Encode e) => encoding_fails s ev e
  | Err _ => False
  end.
Proof. apply truncate_loop_spec. Qed.

(** ** Changing the keyring *)

Implicit Types (n : KeyNode (I := I) (A := A) (KR := KR)) (w : Env (A := A) (K := K)).

Abbreviation changing := (change_keyring (R := R) DI DA SK).

(** C38: A key query is answered with success exactly when it asked for a key,
    the node has a keyring with encryption on, the change was carried out on
    it and the keys of the new keyring were written to the keyring file, if
    there is one.  An answer of failure means that the keyring is as it was,
    unless it was the write that failed. *)
Theorem key_change_reported op n payload w kr resp :
  changing op n payload w = Done (kr, resp) →
  (kres_result resp = true ↔
   ∃ key old new, CodecMessage.decode_message (R := R) DI DA SK payload
       = Ok (WKeyRequest DI DA (mkKeyRequest (Some key))) ∧
     encryption_enabled n = true ∧ kn_keyring n = Some old ∧ op old key = Ok new ∧
     kr = Some new ∧ write_keyring_file (set_kn_keyring n kr) w = Ok tt) ∧
  (kres_result resp = false → kr = kn_keyring n ∨ ∃ e, write_keyring_file (set_kn_keyring n kr) w = Err e).
Proof.
  unfold change_keyring, failed, succeeded, default_key_response. intros Hc.
  repeat (case_match; simplify_eq/=);
    lazymatch goal with
    | |- (true = true ↔ _) ∧ _ => split; [|done]; split; [intros _|done]
    | |- _ => split; [split; [done|intros (? & ? & ? & ? & ? & ? & ? & ? & ?); simplify_eq/=; congruence]|eauto]
    end.
  match goal with u : unit |- _ => destruct u end.
  match goal with m : KeyRequestMessage K |- _ => destruct m end. simplify_eq/=. eauto 10.
Qed.

(** Answering a key query never takes the node down unless the query is
    malformed: the handlers of the key queries run to the end whenever the
    payload decodes without a panic to a request that names a key. *)
Lemma key_change_total op n payload w :
  CodecMessage.decode_message (R := R) DI DA SK payload ≠ Err Panicked →
  (∀ req, CodecMessage.decode_message (R := R) DI DA SK payload = Ok (WKeyRequest DI DA req) →
     kreq_key req ≠ None) →
  ∃ kr resp, changing op n payload w = Done (kr, resp).
Proof.
  intros Hp Hk. unfold change_keyring. repeat (case_match; simplify_eq/=); eauto.
  exfalso. by apply (Hk _ eq_refl).
Qed.

(** ** Voting on a contested id *)

Lemma conflict_answered (p : Serf I A) c ms :
  c ≠ local_id p → states (members p) !! c = Some ms →
  member_fits DI DA (member ms) → fits_u32 (member_encoded_len DI DA (member ms)) →
  fits_u32 (conflict_encoded_len DI DA (member ms)) →
  ∃ raw, conflict_answer DI DA p c = Done (Some raw) ∧
    Types.decode_message (Codec := codec0) raw =
      Done (Ok (RConflictResponse (Ok (address (node (member ms)))))).
Proof.
  intros Hne Hms Hf Hf1 Hf2.
  destruct (conflict_reads_back (R := R) (K := K) DI DA SK (member ms) Hf Hf1 Hf2)
    as (raw & r & He & _ & Hd & Hr).
  exists raw. split.
  - unfold conflict_answer. rewrite decide_False by done. by rewrite Hms, He.
  - cbn [Types.decode_message internal_codec wire_codec]. rewrite Hd. cbn [settle message_ref_of].
    unfold conflict_from_ref, member_from_ref in Hr.
    destruct (from_ref (node_data DI DA) _) as [nd|] eqn:Hn; [|done].
    destruct (tags_from_ref _); simplify_eq. rewrite <- Hr. simpl.
    by destruct (node_parts _ _ _ _ Hn) as [_ ->].
Qed.

(** The vote of a node that files the id under [addr]. *)
Definition agrees s (addr : A) : bool := bool_decide (addr = address (local_node s)).

Definition votes s (addrs : list A) : nat := length (filter (λ a, agrees s a = true) addrs).

(** What a reply counts for: the address it names, if any. *)
Definition ballot (raw : bytes) (vote : option A) : Prop :=
  match vote with
  | Some a => Types.decode_message (Codec := codec0) raw = Done (Ok (RConflictResponse (Ok a)))
  | None => ∃ e, Types.decode_message (Codec := codec0) raw = Done (Err e)
  end.

Lemma tally_votes s payloads cast :
  Forall2 ballot payloads cast →
  tally (Codec0 := codec0) s payloads = Done (length (omap id cast), votes s (omap id cast)).
Proof.
  unfold tally. intros Hf.
  cut (∀ n k : nat, foldl (λ acc p,
      run! (n, k) := acc in
      run! decoded := Types.decode_message (Codec := codec0) p in
      match decoded with
      | Ok (RConflictResponse (Ok addr)) =>
          Done (S n, if decide (addr = address (local_node s)) then S k else k)
      | Ok (RConflictResponse (Err _)) => Done (S n, k)
      | _ => Done (n, k)
      end) (Done (n, k)) payloads
    = Done (n + length (omap id cast), k + votes s (omap id cast)));
    [intros Hcut; exact (Hcut 0 0)|].
  induction Hf as [|raw [a|] payloads cast Hd _ IH]; intros n k; cbn [foldl].
  - unfold votes. simpl. by rewrite !Nat.add_0_r.
  - unfold ballot in Hd. rewrite Hd, IH. change (omap id (Some a :: cast)) with (a :: omap id cast).
    unfold votes, agrees. rewrite filter_cons.
    f_equal. f_equal; [simpl; lia|].
    case_decide as Ha; case_decide as Hb; simpl; rewrite ?bool_decide_eq_true in Hb; try done; lia.
  - destruct Hd as [e Hd]. by rewrite Hd, IH.
Qed.

(** What a peer has on file for an id. *)
Definition on_file (c : I) (p : Serf I A) : option A :=
  (λ ms, address (node (member ms))) <$> states (members p) !! c.

(** A peer that can answer: it does not hold the id itself, and what it has
    on file encodes. *)
Definition can_answer (c : I) (p : Serf I A) : Prop :=
  c ≠ local_id p ∧
  ∀ ms, states (members p) !! c = Some ms →
    member_fits DI DA (member ms) ∧ fits_u32 (member_encoded_len DI DA (member ms)) ∧
    fits_u32 (conflict_encoded_len DI DA (member ms)).

Lemma peer_votes c p : can_answer c p →
  ∃ raw, conflict_answer DI DA p c = Done (Some raw) ∧ ballot raw (on_file c p).
Proof.
  intros [Hne Hfit]. unfold on_file. destruct (states (members p) !! c) as [ms|] eqn:Hms; cbn.
  - destruct (Hfit ms eq_refl) as (Hf & H1' & H2'). by eapply conflict_answered.
  - exists []. unfold conflict_answer. rewrite decide_False by done. rewrite Hms. eauto.
Qed.

Lemma majority_spec (n k : nat) : (n / 2 + 1 <=? k)%nat = bool_decide (n < 2 * k).
Proof.
  pose proof (Nat.div_mod n 2 ltac:(lia)). pose proof (Nat.mod_upper_bound n 2 ltac:(lia)).
  case_bool_decide; [apply Nat.leb_le|apply Nat.leb_gt]; lia.
Qed.

Lemma vote_counted s c peers :
  Forall (can_answer c) peers →
  ∃ payloads,
    Forall2 (λ p raw, conflict_answer DI DA p c = Done (Some raw)) peers payloads ∧
    survives_conflict (Codec0 := codec0) s payloads =
      Done (bool_decide (length (omap (on_file c) peers) < 2 * votes s (omap (on_file c) peers))).
Proof.
  intros Hp.
  assert (∃ payloads, Forall2 (λ p raw, conflict_answer DI DA p c = Done (Some raw)) peers payloads ∧
    Forall2 ballot payloads (on_file c <$> peers)) as (payloads & Ha & Hb).
  { induction Hp as [|p peers Hp _ (payloads & IH1 & IH2)]; [by exists []|].
    destruct (peer_votes c p Hp) as (raw & H1' & H2'). exists (raw :: payloads). by split; constructor. }
  exists payloads. split; [done|]. unfold survives_conflict. rewrite (tally_votes s _ _ Hb).
  assert (omap id (on_file c <$> peers) = omap (on_file c) peers) as ->.
  { clear. induction peers as [|p peers IH]; [done|]. cbn. destruct (on_file c p); cbn; by rewrite IH. }
  by rewrite majority_spec.
Qed.

(** One address on file counts for one contestant at most. *)
Lemma votes_disjoint s t (l : list A) :
  address (local_node s) ≠ address (local_node t) → (votes s l + votes t l <= length l)%nat.
Proof.
  intros Hne. unfold votes, agrees. induction l as [|a l IH]; [done|]. rewrite !filter_cons.
  repeat case_decide; rewrite ?bool_decide_eq_true in *; simpl; (lia || congruence).
Qed.

Lemma votes_perm s (l l' : list A) : l ≡ₚ l' → votes s l = votes s l'.
Proof. intros Hp. unfold votes. by rewrite Hp. Qed.

(** C24: The vote on a contested id is decided by what the cluster has on file:
    when two instances with different addresses contest an id and the same
    peers answer the conflict query of each, in whatever order, each of the two
    stays exactly when more than half of the peers that know the id file it
    under that instance's address, so at most one of them stays. *)
Theorem conflict_vote s t c peers peers' :
  Forall (can_answer c) peers → peers' ≡ₚ peers →
  address (local_node s) ≠ address (local_node t) →
  ∃ payloads payloads' stays stays',
    Forall2 (λ p raw, conflict_answer DI DA p c = Done (Some raw)) peers payloads ∧
    Forall2 (λ p raw, conflict_answer DI DA p c = Done (Some raw)) peers' payloads' ∧
    survives_conflict (Codec0 := codec0) s payloads = Done stays ∧
    survives_conflict (Codec0 := codec0) t payloads' = Done stays' ∧
    (stays = true ↔ length (omap (on_file c) peers) < 2 * votes s (omap (on_file c) peers)) ∧
    (stays' = true ↔ length (omap (on_file c) peers) < 2 * votes t (omap (on_file c) peers)) ∧
    ¬ (stays = true ∧ stays' = true).
Proof.
  intros Hp Hperm Hne.
  destruct (vote_counted s c peers Hp) as (payloads & Ha & Hs).
  destruct (vote_counted t c peers') as (payloads' & Ha' & Hs'); [by rewrite Hperm|].
  assert (omap (on_file c) peers' ≡ₚ omap (on_file c) peers) as Hpo by by rewrite Hperm.
  rewrite (votes_perm t _ _ Hpo), (Permutation_length Hpo) in Hs'.
  pose proof (votes_disjoint s t (omap (on_file c) peers) Hne).
  eexists payloads, payloads', _, _. split_and!; [done|done|done|done|apply bool_decide_eq_true..|].
  rewrite !bool_decide_eq_true. lia.
Qed.

End facts.
