(* ===== verification/KeyManager.v ===== *)
(** * Keys across the cluster (key_manager.rs)

    [KeyManager] sends a key query to every member and adds up the replies.
    The channel it reads is the response channel of the query: the replies
    that arrive until the query closes are the argument [replies].  The text
    of a decoding error is memberlist-proto's, the parameters [show_error] and
    [debug_error]. *)

From Stdlib Require Import ZArith Lia Strings.Byte.
From stdpp Require Import base list gmap strings pretty.
From S2P Require Import Prelude Clock Coordinate Types Core Membership MemberTraces UserEvents.
From S2P Require Import Responses Query QueryFacts Delegate Wire CodecIntents CodecEvents CodecQuery.
From S2P Require Import CodecMember CodecPushPull CodecKeys CodecMessage Exchange InternalQuery.
Local Open Scope serf_scope.

Definition message_type_str (t : MessageType.t) : string :=
  match t with
  | MessageType.Leave => "leave"
  | MessageType.Join => "join"
  | MessageType.PushPull => "push_pull"
  | MessageType.UserEvent => "user_event"
  | MessageType.Query => "query"
  | MessageType.QueryResponse => "query_response"
  | MessageType.ConflictResponse => "conflict_response"
  | MessageType.Relay => "relay"
  | MessageType.KeyRequest => "key_request"
  | MessageType.KeyResponse => "key_response"
  | MessageType.Unknown v => ("unknown(" +:+ pretty v +:+ ")")%string
  end.

Section manager.
Context `{Wire} {I A R K : Type} `{Countable I} `{Countable A} `{Countable K} `{Regex R}
  (DI : Data I) (DA : Data A) (SK : Scalar K)
  (meta_max_size : Z) (is_match : R → string → bool)
  (show_error debug_error : DecodeError → string).

#[local] Instance manager_codec : Codec I A R := wire_codec DI DA SK meta_max_size is_match.

(** [num_nodes] and the counters are [usize]. *)
Record KeyResponse : Type := mkKeyResponses {
  messages : gmap I string;
  num_nodes : nat;
  num_resp : nat;
  num_err : nat;
  key_counts : gmap K nat;
  primary_counts : gmap K nat;
}.

Definition empty_key_response (nodes : nat) : KeyResponse := mkKeyResponses ∅ nodes 0 0 ∅ ∅.

(** [*counts.entry(k).or_insert(0) += 1]. *)
Definition count_key (counts : gmap K nat) (k : K) : gmap K nat :=
  <[k := S (default 0 (counts !! k))]> counts.

(** [try_for_each] over the keys of a reply: what is counted before an error
    stays counted. *)
Fixpoint count_keys (counts : gmap K nat) (l : list (Result K DecodeError))
  : gmap K nat * Result unit DecodeError :=
  match l with
  | [] => (counts, Ok tt)
  | Err e :: _ => (counts, Err e)
  | Ok k :: l => count_keys (count_key counts k) l
  end.

(** A reply that is counted as an error, with the text kept for its node. *)
Definition report (resp : KeyResponse) (from : I) (msg : string) : KeyResponse :=
  mkKeyResponses (<[from := msg]> (messages resp)) (num_nodes resp) (num_resp resp) (num_err resp)
    (key_counts resp) (primary_counts resp).
Definition add_error (resp : KeyResponse) : KeyResponse :=
  mkKeyResponses (messages resp) (num_nodes resp) (num_resp resp) (S (num_err resp))
    (key_counts resp) (primary_counts resp).
Definition report_error (resp : KeyResponse) (from : I) (msg : string) : KeyResponse :=
  add_error (report resp from msg).

Definition set_counts (resp : KeyResponse) (ks ps : gmap K nat) : KeyResponse :=
  mkKeyResponses (messages resp) (num_nodes resp) (num_resp resp) (num_err resp) ks ps.

(** A key response that decoded. *)
Definition add_key_response (resp : KeyResponse) (from : I) (r : KeyResponseRef (K := K)) : KeyResponse :=
  let resp := if krr_result r then resp else report_error resp from (krr_message r) in
  let resp :=
    if krr_result r && str_nonempty (krr_message r) then report resp from (krr_message r) else resp in
  let '(counts, res) := count_keys (key_counts resp) (iter (scalar SK) (krr_keys r)) in
  let resp := set_counts resp counts (primary_counts resp) in
  match res with
  | Err e => report_error resp from ("Failed to decode key query response: " +:+ debug_error e)%string
  | Ok _ =>
      match krr_primary_key r with
      | Some pk => set_counts resp (key_counts resp) (count_key (primary_counts resp) pk)
      | None => resp
      end
  end.

(** One round of the loop. *)
Definition add_reply (resp : KeyResponse) (r : NodeResponse I A) : outcome KeyResponse :=
  let from := node_id (nr_from r) in
  let resp := mkKeyResponses (messages resp) (num_nodes resp) (S (num_resp resp)) (num_err resp)
                (key_counts resp) (primary_counts resp) in
  match nr_payload r with
  | [] => Done (report_error resp from "empty payload")
  | payload =>
      match CodecMessage.decode_message (R := R) DI DA SK payload with
      | Err Panicked => Panic
      | Err (Failed e) => Done (report_error resp from (show_error e))
      | Ok (WKeyResponse _ _ kr) => Done (add_key_response resp from kr)
      | Ok m =>
          Done (report_error resp from
            ("invalid key query response: " +:+ message_type_str (message_ty DI DA m))%string)
      end
  end.

(** Every branch of a round ends with the same check. *)
Fixpoint stream_key_response (resp : KeyResponse) (replies : list (NodeResponse I A)) : outcome KeyResponse :=
  match replies with
  | [] => Done resp
  | r :: replies =>
      run! resp := add_reply resp r in
      if (num_resp resp =? num_nodes resp)%nat then Done resp else stream_key_response resp replies
  end.

(** ** The operations *)

(** [s] is the instance the manager's weak reference leads to (Ownership.v has
    the request when there is none).  [relay_factor] is that of [KeyRequestOptions], if they are given; [id] and
    [n1], [n2] are what the query draws and counts; [replies] is what its
    response channel yields. *)
Definition handle_key_request (s : Serf I A) (key : option K) (ty : string) (relay_factor : option Z)
    (event : InternalQueryEvent I) (id : Z) (n1 n2 : nat) (now : Z) (rnd : nat → Z)
    (replies : list (NodeResponse I A)) : outcome (Serf I A * Result KeyResponse Error) :=
  match CodecMessage.encode_message_to_bytes (key_request_encodable SK (mkKeyRequest key)) with
  | Err e => Done (s, Err (Encode e))
  | Ok buf =>
      run! param := default_query_param (R := R) (I := I) (opts s) n1 in
      let param :=
        match relay_factor with
        | Some rf => mkQueryParam (p_filters param) (request_ack param) rf (p_timeout param)
        | None => param
        end in
      run! (s, r) := query_in (R := R) s ty buf (Some param) (Some event) id n1 n2 now rnd in
      match r with
      | Err e => Done (s, Err e)
      | Ok _ =>
          run! resp := stream_key_response (empty_key_response (size (states (members s)))) replies in
          Done (s, Ok resp)
      end
  end.

Definition install_key s (key : K) relay_factor :=
  handle_key_request s (Some key) INTERNAL_INSTALL_KEY relay_factor IQInstallKey.
Definition use_key s (key : K) relay_factor :=
  handle_key_request s (Some key) INTERNAL_USE_KEY relay_factor IQUseKey.
Definition remove_key s (key : K) relay_factor :=
  handle_key_request s (Some key) INTERNAL_REMOVE_KEY relay_factor IQRemoveKey.
Definition list_keys s := handle_key_request s None INTERNAL_LIST_KEYS None IQListKey.

End manager.

Section facts.
Context `{WireLaws} {I A R K : Type} `{Countable I} `{Countable A} `{Countable K} `{RegexLaws R}
  (DI : Data I) (DA : Data A) (SK : Scalar K)
  (show_error debug_error : DecodeError → string).
Context (Hwire : sc_wire SK = WireType.LengthDelimited)
  (Hkey : ∀ k, ∃ bs, codes_ld (scalar SK) k bs k).

Implicit Types (m : KeyResponseMessage K).

(** A key response as a member sends it, in a reply of its own. *)
Definition key_response_fits m : Prop :=
  fits_u32 (String.length (kres_message m)) ∧ fits_u32 (key_response_encoded_len SK m).

Definition reply_with (r : NodeResponse I A) m : Prop :=
  key_response_fits m ∧
  CodecMessage.encode_message_to_bytes (key_response_encodable SK m) = Ok (nr_payload r).

Lemma reply_reads_back r m : reply_with r m →
  ∃ w, CodecMessage.decode_message (R := R) DI DA SK (nr_payload r) = Ok (WKeyResponse DI DA w) ∧
    key_response_from_ref SK w = Ok m ∧ nr_payload r ≠ [].
Proof.
  intros [[Hm Hf] He]. destruct (key_response_codes SK Hwire Hkey m Hm) as (bs & w & Hc).
  destruct (envelope_roundtrip (R := R) DI DA SK (key_response_data SK) m bs w KEY_RESPONSE_BYTE
    KEY_RESPONSE_TAG (WKeyResponse DI DA) eq_refl Hc Hf) as (out & Ho & Hl & Hr);
    [intros; autounfold with steps; by arms|].
  change (mkEncodable _ _ _) with (key_response_encodable SK m) in Ho, Hl.
  assert (out = nr_payload r) as -> by congruence.
  exists w. split_and!; [done|apply (codes_from_ref _ _ _ _ Hc)|].
  intros Hnil. rewrite Hnil in Hl. unfold CodecMessage.encoded_message_len in Hl. simpl in Hl. lia.
Qed.

(** The request a node builds is the request its peers read. *)
Lemma request_reads_back (m : KeyRequestMessage K) :
  fits_u32 (key_request_encoded_len SK m) →
  ∃ raw, CodecMessage.encode_message_to_bytes (key_request_encodable SK m) = Ok raw ∧
    CodecMessage.decode_message (R := R) DI DA SK raw = Ok (WKeyRequest DI DA m).
Proof.
  intros Hf. destruct (key_request_codes SK Hkey m) as (bs & Hc).
  destruct (envelope_roundtrip (R := R) DI DA SK (key_request_data SK) m bs m KEY_REQUEST_MESSAGE_BYTE
    KEY_REQUEST_MESSAGE_TAG (WKeyRequest DI DA) eq_refl Hc Hf) as (out & Ho & _ & Hr);
    [intros; autounfold with steps; by arms|].
  exists out. split; [exact Ho|exact Hr].
Qed.

Abbreviation count_of k counts := (default 0 ((counts : gmap K nat) !! k)).

Lemma count_key_spec counts k j :
  count_of j (count_key counts k) = count_of j counts + (if decide (j = k) then 1 else 0).
Proof.
  unfold count_key. case_decide as Hj; [subst; rewrite lookup_insert_eq; simpl; lia|].
  rewrite lookup_insert_ne by done. lia.
Qed.

(** How often a key occurs in a list. *)
Definition occurrences (k : K) (l : list K) : nat := length (filter (λ x, x = k) l).

Lemma count_keys_spec l : ∀ counts,
  ∃ counts', count_keys counts (Ok <$> l) = (counts', Ok tt) ∧
    ∀ j, count_of j counts' = count_of j counts + occurrences j l.
Proof.
  induction l as [|k l IH]; intros counts.
  { exists counts. split; [done|]. intros j. unfold occurrences. simpl. lia. }
  rewrite fmap_cons. cbn [count_keys]. destruct (IH (count_key counts k)) as (c & -> & Hc).
  exists c. split; [done|]. intros j. rewrite Hc, count_key_spec. unfold occurrences. rewrite filter_cons.
  repeat case_decide; subst; simpl; (done || lia).
Qed.

(** What replies with the responses [ms] add up to. *)
Record adds_up (resp resp' : KeyResponse (I := I) (K := K)) (ms : list (KeyResponseMessage K)) : Prop := {
  au_nodes : num_nodes resp' = num_nodes resp;
  au_resp : num_resp resp' = num_resp resp + length ms;
  au_err : num_err resp' = num_err resp + length (filter (λ m, kres_result m = false) ms);
  au_keys j : count_of j (key_counts resp') =
    count_of j (key_counts resp) + sum_list ((λ m, occurrences j (kres_keys m)) <$> ms);
  au_primary j : count_of j (primary_counts resp') =
    count_of j (primary_counts resp) + length (filter (λ m, kres_primary_key m = Some j) ms);
}.

Lemma adds_up_trans r1 r2 r3 m ms : adds_up r1 r2 [m] → adds_up r2 r3 ms → adds_up r1 r3 (m :: ms).
Proof.
  intros [N1 R1 E1 K1 P1] [N2 R2 E2 K2 P2]. split.
  - congruence.
  - rewrite R2, R1. simpl. lia.
  - rewrite E2, E1. rewrite !filter_cons. repeat case_decide; simpl; (done || lia).
  - intros j. rewrite K2, K1. cbn. lia.
  - intros j. rewrite P2, P1. rewrite !filter_cons. repeat case_decide; simpl; (done || lia).
Qed.

Abbreviation adding := (add_reply (R := R) DI DA SK show_error debug_error).

Lemma add_reply_spec resp r m : reply_with r m → ∃ resp', adding resp r = Done resp' ∧ adds_up resp resp' [m].
Proof.
  intros Hr. destruct (reply_reads_back r m Hr) as (w & Hd & Hw & Hne).
  unfold add_reply. destruct (nr_payload r) as [|b payload]; [done|]. rewrite Hd.
  eexists. split; [done|]. unfold key_response_from_ref in Hw.
  destruct (collect _) as [keys|] eqn:Hc; [|done]. simplify_eq.
  assert (iter (scalar SK) (krr_keys w) = Ok <$> keys) as Hi.
  { apply collect_inv in Hc. rewrite <- Hc. rewrite <- (list_fmap_id (iter (scalar SK) _)) at 1.
    apply list_fmap_ext. intros i [x|e] _; done. }
  unfold add_key_response. rewrite Hi. unfold report_error, report, add_error.
  set (base := if krr_result w && _ then _ else _).
  destruct (count_keys_spec keys (key_counts base)) as (counts & -> & Hk).
  assert (key_counts base = key_counts resp ∧ primary_counts base = primary_counts resp ∧
    num_nodes base = num_nodes resp ∧ num_resp base = S (num_resp resp) ∧
    num_err base = num_err resp + (if krr_result w then 0 else 1)) as (Bk & Bp & Bn & Br & Be).
  { unfold base. destruct (krr_result w), (str_nonempty (krr_message w)); simpl; split_and!; (done || lia). }
  rewrite Bk in Hk. destruct (krr_primary_key w) as [pk|] eqn:Hpk; split; simpl;
    rewrite ?Bp, ?Bn, ?Br, ?Be; try done; try lia;
    try (rewrite filter_cons; simpl; destruct (krr_result w); case_decide; simpl; (done || lia));
    try (intros j; rewrite Hk; simpl; lia).
  intros j. rewrite count_key_spec, filter_cons. simpl.
    repeat case_decide; simplify_eq; simpl; (done || lia).
Qed.

(** The key manager counts what the members answered: the key responses
    of at most as many members as there are, each sent as a reply of its own,
    add up to one response per member, an error for every member that
    failed, and for every key the number of times it was listed and the
    number of members whose primary key it is. *)
Theorem key_replies_counted nodes replies ms :
  Forall2 reply_with replies ms → length replies ≤ nodes →
  ∃ resp, stream_key_response (R := R) DI DA SK show_error debug_error (empty_key_response nodes) replies
    = Done resp ∧
    num_resp resp = length ms ∧
    num_err resp = length (filter (λ m, kres_result m = false) ms) ∧
    (∀ k, default 0 (key_counts resp !! k) = sum_list ((λ m, occurrences k (kres_keys m)) <$> ms)) ∧
    (∀ k, default 0 (primary_counts resp !! k) = length (filter (λ m, kres_primary_key m = Some k) ms)).
Proof.
  intros Hf Hlen.
  assert (∃ resp, stream_key_response (R := R) DI DA SK show_error debug_error
    (empty_key_response nodes) replies = Done resp ∧ adds_up (empty_key_response nodes) resp ms)
    as (resp & Hs & [_ Hr He Hk Hp]).
  { assert (num_resp (I := I) (K := K) (empty_key_response nodes) + length replies
      ≤ num_nodes (I := I) (K := K) (empty_key_response nodes)) as Hle by done.
    revert Hle. generalize (empty_key_response (I := I) (K := K) nodes). clear Hlen.
    induction Hf as [|r m replies ms Hr _ IH]; intros acc Hle; cbn [stream_key_response].
    { exists acc. split; [done|]. split; simpl; lia. }
    destruct (add_reply_spec acc r m Hr) as (acc' & -> & Ha). cbn [length] in Hle.
    pose proof (au_nodes _ _ _ Ha) as Hn. pose proof (au_resp _ _ _ Ha) as Hc. simpl in Hc.
    case_match eqn:Heq.
    - apply Nat.eqb_eq in Heq. destruct (IH acc') as (resp & Hs & Hu); [lia|].
      assert (replies = []) as -> by (destruct replies; [done|simpl in Hle; lia]).
      simpl in Hs. simplify_eq. exists resp. split; [done|]. by eapply adds_up_trans.
    - destruct (IH acc') as (resp & Hs & Hu); [lia|]. exists resp. split; [done|].
      by eapply adds_up_trans. }
  exists resp. split_and!; [done..| |]; intros k; rewrite ?Hk, ?Hp; simpl; by rewrite lookup_empty.
Qed.

End facts.
