(* ===== verification/Ownership.v ===== *)
(** * Who keeps an instance alive (serf.rs, serf/delegate.rs, key_manager.rs)

    A [Serf] is a strong reference to a shared core; memberlist's delegate and
    the key manager, which the core itself owns, point back to it weakly.  A
    weak reference is upgraded for the length of one callback.  The store
    below has the reference counts; [SerfDelegate] and [KeyManager] hold their
    weak reference in a cell that is set once, when the instance starts.  The
    event of a query and the tasks that answer a conflict or refute a leave
    hold the instance strongly.

    A callback runs without interruption here; the clones of other tasks fall
    before or after it. *)

From Stdlib Require Import ZArith Lia Strings.Byte Floats.SpecFloat.
From stdpp Require Import base list gmap strings.
From S2P Require Import Prelude Clock Coordinate Types Core Sample Membership MemberTraces UserEvents.
From S2P Require Import Responses Query Snapshot Delegate Api Wire CodecIntents CodecEvents CodecQuery.
From S2P Require Import CodecMember CodecPushPull CodecKeys CodecMessage Exchange InternalQuery KeyManager.
Local Open Scope serf_scope.
Local Open Scope nat_scope.

(** ** Reference counts *)

Section arc.
Context {T : Type}.

(** [Arc]'s allocation: the strong count, and the value until it is dropped. *)
Record ArcInner : Type := mkArc { strong : nat; value : option T }.

Abbreviation Store := (list ArcInner).

(** A [Serf] and a [SerfWeakRef] are the place of the core in the store. *)
Record SerfRef : Type := mkSerfRef { inner : nat }.
Record SerfWeakRef : Type := mkWeakRef { weak_inner : nat }.

Implicit Types (st : Store) (r : SerfRef) (w : SerfWeakRef).

(** [Arc::new]. *)
Definition arc_new st (x : T) : Store * SerfRef := (st ++ [mkArc 1 (Some x)], mkSerfRef (length st)).

Definition clone_ref st r : Store := alter (λ c, mkArc (S (strong c)) (value c)) (inner r) st.

(** The last strong reference takes the value with it. *)
Definition release (c : ArcInner) : ArcInner :=
  match strong c with
  | O => c
  | S O => mkArc 0 None
  | S n => mkArc n (value c)
  end.
Definition drop_ref st r : Store := alter release (inner r) st.

Definition downgrade r : SerfWeakRef := mkWeakRef (inner r).

Definition upgrade st w : option (Store * SerfRef) :=
  match st !! weak_inner w with
  | Some c => if (strong c =? 0)%nat then None else Some (clone_ref st (mkSerfRef (weak_inner w)), mkSerfRef (weak_inner w))
  | None => None
  end.

(** [OnceLock::set], its error ignored. *)
Definition once_set {X} (o : option X) (x : X) : option X := match o with Some y => Some y | None => Some x end.

End arc.
Arguments ArcInner T : clear implicits.
Abbreviation Store T := (list (ArcInner T)).

(** ** The delegate *)

Section delegate.
Context {I A R D : Type} `{Countable I} `{Countable A} `{!Codec I A R}.
Implicit Types (s : Serf I A) (st : Store (Serf I A)) (buf : bytes) (rnd : nat → Z).

Record SerfDelegate : Type := mkSerfDelegate { sd_serf : option SerfWeakRef; sd_delegate : option D; sd_tags : nat }.
Implicit Types d : SerfDelegate.

(** [tags] is the cell shared with the options. *)
Definition new_delegate (delegate : option D) (tags : nat) : SerfDelegate := mkSerfDelegate None delegate tags.
Definition user_delegate d : option D := sd_delegate d.
Definition store d (w : SerfWeakRef) : SerfDelegate := mkSerfDelegate (once_set (sd_serf d) w) (sd_delegate d) (sd_tags d).

Definition this_of (cell : option SerfWeakRef) st : option (Store (Serf I A) * SerfRef) :=
  match cell with Some w => upgrade st w | None => None end.
Definition this d st : option (Store (Serf I A) * SerfRef) := this_of (sd_serf d) st.

(** The references to the instance that it has given away: each query event
    has one in its context, and so has each task that refutes a leave or
    resolves a conflict.  The timer of a query has none. *)
Definition holds_this (t : Task) : bool :=
  match t with TaskBroadcastJoin _ | TaskResolveConflict => true | _ => false end.
Definition event_holds_this (e : CrateEvent I A) : bool :=
  match e with EvQuery _ | EvInternalQuery _ _ => true | _ => false end.
Definition given s : nat :=
  length (filter (λ e, Is_true (event_holds_this e)) (event_tx s)) +
  length (filter (λ t, Is_true (holds_this t)) (spawned s)).
Definition newly_given s s' : nat := given s' - given s.

(** The rest of a callback once [this] has been asked for: the reference lives
    to its end, those given away live on.  A reference that upgraded has a
    value. *)
Definition with_this {X} (cell : option SerfWeakRef) st (absent : X) (f : Serf I A → outcome (Serf I A * X))
  : outcome (Store (Serf I A) * X) :=
  match this_of cell st with
  | None => Done (st, absent)
  | Some (st, r) =>
      match st !! inner r with
      | Some (mkArc n (Some s)) =>
          run! (s', x) := f s in
          Done (drop_ref (<[inner r := mkArc (n + newly_given s s') (Some s')]> st) r, x)
      | _ => Panic
      end
  end.

(** What memberlist calls, with what is drawn, read or measured meanwhile. *)
Inductive callback : Type :=
| CbMessage (owned : bool) (buf : bytes) (now : Z) (rnd : nat → Z)
| CbBroadcasts (limit : Z)
| CbLocalState (join : bool)
| CbMerge (buf : bytes) (is_join : bool) (now : Z)
| CbJoin (n : NodeState I A)
| CbLeave (n : NodeState I A) (now : Z)
| CbUpdate (n : NodeState I A)
| CbConflict (existing other : NodeState I A)
| CbAck
| CbPing (id : I) (rtt : Z) (payload : bytes) (rnd1 rnd2 : nat → spec_float).

(** What it gets back. *)
Inductive reply : Type := RpUnit | RpBytes (b : bytes) | RpMessages (l : list bytes).

Context (get_broadcasts : list SerfBroadcast → Z → list bytes * list SerfBroadcast) (encoded_len : bytes → Z)
  (coordinate_encoded_len : Coordinate → nat) (encode_coordinate : Coordinate → Result bytes EncodeError)
  (decode_coordinate : bytes → Result Coordinate DecodeError) (powf : spec_float → spec_float → spec_float).

(** The handler of a callback, on the instance. *)
Definition handler (cb : callback) s : outcome (Serf I A * reply) :=
  let quietly (o : outcome (Serf I A)) := run! out := o in Done (out, RpUnit) in
  match cb with
  | CbMessage owned buf now rnd => quietly (notify_message (R := R) s owned buf now rnd)
  | CbBroadcasts limit =>
      let '(s, msgs) := broadcast_messages get_broadcasts encoded_len s limit in Done (s, RpMessages msgs)
  | CbLocalState _ => Done (s, RpBytes (local_state (R := R) s))
  | CbMerge buf is_join now => quietly (merge_remote_state (R := R) s buf is_join now)
  | CbJoin n => quietly (Done (notify_join s n))
  | CbLeave n now => quietly (Done (notify_leave s n now))
  | CbUpdate n => quietly (Done (notify_update s n))
  | CbConflict existing other => quietly (Done (notify_conflict s existing other))
  | CbAck => Done (s, RpBytes (ack_payload coordinate_encoded_len encode_coordinate s))
  | CbPing id rtt payload rnd1 rnd2 =>
      quietly (notify_ping_complete decode_coordinate powf s id rtt payload rnd1 rnd2)
  end.

(** What is returned without an instance. *)
Definition absent (cb : callback) : reply :=
  match cb with
  | CbBroadcasts _ => RpMessages []
  | CbLocalState _ | CbAck => RpBytes []
  | _ => RpUnit
  end.

(** The callback of the delegate.  An empty message, state or payload returns
    before the instance is looked for; a remote state is decoded first, which
    may panic, and the instance is needed for a push/pull message only. *)
Definition call d st (cb : callback) : outcome (Store (Serf I A) * reply) :=
  let run := with_this (sd_serf d) st (absent cb) (handler cb) in
  match cb with
  | CbMessage _ [] _ _ | CbMerge [] _ _ | CbPing _ _ [] _ _ => Done (st, RpUnit)
  | CbMerge buf _ _ =>
      run! decoded := Types.decode_message (R := R) (I := I) (A := A) buf in
      match decoded with
      | Ok (RPushPull _ _ _ _) => run
      | _ => Done (st, RpUnit)
      end
  | _ => run
  end.

(** ** The key manager *)

Record KeyManager : Type := mkKeyManager { km_serf : option SerfWeakRef }.

Definition new_key_manager : KeyManager := mkKeyManager None.
Definition km_store (k : KeyManager) (w : SerfWeakRef) : KeyManager := mkKeyManager (once_set (km_serf k) w).
Definition km_this (k : KeyManager) st : option (Store (Serf I A) * SerfRef) := this_of (km_serf k) st.

(** A request: [encoded] is the encoding of the message, which comes first;
    [none] the response of no nodes; [request] the rest, on the instance. *)
Definition key_request {X} (k : KeyManager) st (encoded : Result bytes Error) (none : X)
    (request : Serf I A → outcome (Serf I A * Result X Error)) : outcome (Store (Serf I A) * Result X Error) :=
  match encoded with
  | Err e => Done (st, Err e)
  | Ok _ => with_this (km_serf k) st (Ok none) request
  end.

(** ** Starting *)

(** The end of [Serf::new_in]: the core goes behind its first reference, the
    delegate learns of it and is told of the local node, the key manager
    learns of it. *)
Definition wire_up st s d (k : KeyManager) (local_node : option (NodeState I A))
  : outcome (Store (Serf I A) * SerfRef * SerfDelegate * KeyManager) :=
  let '(st, r) := arc_new st s in
  let d := store d (downgrade r) in
  run! (st, _) := match local_node with Some n => call d st (CbJoin n) | None => Done (st, RpUnit) end in
  Done (st, r, d, km_store k (downgrade r)).

End delegate.

(** The request of [handle_key_request] in KeyManager.v, which takes the
    instance as given. *)
Section keys.
Context `{Wire} {I A R K : Type} `{Countable I} `{Countable A} `{Countable K} `{Regex R}
  (DI : Data I) (DA : Data A) (SK : Scalar K)
  (meta_max_size : Z) (is_match : R → string → bool) (show_error debug_error : DecodeError → string).

Definition managed_key_request (k : KeyManager) (st : Store (Serf I A)) (key : option K) (ty : string)
    (relay_factor : option Z) (event : InternalQueryEvent I) (id : Z) (n1 n2 : nat) (now : Z) (rnd : nat → Z)
    (replies : list (NodeResponse I A)) : outcome (Store (Serf I A) * Result (KeyResponse (I := I) (K := K)) Error) :=
  key_request k st
    (match CodecMessage.encode_message_to_bytes (key_request_encodable SK (mkKeyRequest key)) with
     | Ok buf => Ok buf
     | Err e => Err (Encode e)
     end) (empty_key_response 0)
    (λ s, handle_key_request DI DA SK meta_max_size is_match show_error debug_error s key ty relay_factor event
            id n1 n2 now rnd replies).
End keys.

(** ** The life of an instance *)

Section facts.
Context {I A R D X : Type} `{Countable I} `{Countable A} `{!Codec I A R}.
Context (get_broadcasts : list SerfBroadcast → Z → list bytes * list SerfBroadcast) (encoded_len : bytes → Z)
  (coordinate_encoded_len : Coordinate → nat) (encode_coordinate : Coordinate → Result bytes EncodeError)
  (decode_coordinate : bytes → Result Coordinate DecodeError) (powf : spec_float → spec_float → spec_float).
Implicit Types (s : Serf I A) (st : Store (Serf I A)) (d : SerfDelegate (D := D)) (k : KeyManager).

Abbreviation handle_call := (handler (R := R) get_broadcasts encoded_len coordinate_encoded_len encode_coordinate
  decode_coordinate powf).
Abbreviation call_delegate := (call (R := R) (D := D) get_broadcasts encoded_len coordinate_encoded_len
  encode_coordinate decode_coordinate powf).
Abbreviation start := (wire_up (R := R) (D := D) get_broadcasts encoded_len coordinate_encoded_len encode_coordinate
  decode_coordinate powf).

(** The store, and how many [Serf]s there are: those of the application, of
    query events, and of tasks. *)
Record World : Type := mkWorld {
  w_store : Store (Serf I A);
  w_ref : SerfRef;
  held : nat;
  w_delegate : SerfDelegate (D := D);
  w_keys : KeyManager;
}.

(** What a change of the core gives away. *)
Definition gained st st' : nat :=
  match st !! 0, st' !! 0 with
  | Some (mkArc _ (Some s)), Some (mkArc _ (Some s')) => newly_given s s'
  | _, _ => 0
  end.

(** Cloning and dropping a [Serf] that is held (also those of an event or a
    task that ends), anything that is done through one, memberlist's
    callbacks, key requests, and further attempts to set the weak
    references. *)
Inductive wstep (w : World) : World → Prop :=
| ws_clone : held w ≠ 0 →
    wstep w (mkWorld (clone_ref (w_store w) (w_ref w)) (w_ref w) (S (held w)) (w_delegate w) (w_keys w))
| ws_drop : held w ≠ 0 →
    wstep w (mkWorld (drop_ref (w_store w) (w_ref w)) (w_ref w) (pred (held w)) (w_delegate w) (w_keys w))
| ws_use n s s' : held w ≠ 0 → w_store w !! inner (w_ref w) = Some (mkArc n (Some s)) →
    wstep w (mkWorld (<[inner (w_ref w) := mkArc (n + newly_given s s') (Some s')]> (w_store w)) (w_ref w)
      (held w + newly_given s s') (w_delegate w) (w_keys w))
| ws_call cb st rp : call_delegate (w_delegate w) (w_store w) cb = Done (st, rp) →
    wstep w (mkWorld st (w_ref w) (held w + gained (w_store w) st) (w_delegate w) (w_keys w))
| ws_keys encoded (none : X) request st res : key_request (w_keys w) (w_store w) encoded none request = Done (st, res) →
    wstep w (mkWorld st (w_ref w) (held w + gained (w_store w) st) (w_delegate w) (w_keys w))
| ws_store x : wstep w (mkWorld (w_store w) (w_ref w) (held w) (store (w_delegate w) x) (km_store (w_keys w) x)).

(** The strong count is the number of references held, and the core lives
    exactly as long as there is one. *)
Record lives (w : World) (v : option (Serf I A)) : Prop := {
  lv_store : w_store w = [mkArc (held w) v];
  lv_held : v = None ↔ held w = 0;
  lv_ref : w_ref w = mkSerfRef 0;
  lv_delegate : sd_serf (w_delegate w) = Some (mkWeakRef 0);
  lv_keys : km_serf (w_keys w) = Some (mkWeakRef 0);
}.

(** One callback on a store of one core: on the core while it lives, counting
    what it gives away; nothing without it. *)
Lemma with_this_alive {Y} n s (y : Y) f :
  with_this (Some (mkWeakRef 0)) [mkArc (S n) (Some s)] y f =
  run! (s', x) := f s in Done ([mkArc (S n + newly_given s s') (Some s')], x).
Proof. unfold with_this. cbn. by destruct (f s) as [[s' x]|]. Qed.

Lemma with_this_dropped {Y} v (y : Y) f :
  with_this (Some (mkWeakRef 0)) [mkArc 0 v] y f = Done ([mkArc 0 v] : Store (Serf I A), y).
Proof. done. Qed.

Lemma newly_given_refl s n : n + newly_given s s = n.
Proof. unfold newly_given. lia. Qed.

(** While the core lives the delegate is its handlers. *)
Lemma call_alive n s d cb :
  sd_serf d = Some (mkWeakRef 0) →
  call_delegate d [mkArc (S n) (Some s)] cb =
  run! (s', rp) := handle_call cb s in Done ([mkArc (S n + newly_given s s') (Some s')], rp).
Proof.
  intros Hd. unfold call. rewrite Hd, with_this_alive.
  destruct cb as [owned buf now rnd| | |buf is_join now| | | | | |id rtt payload rnd1 rnd2]; try done.
  - destruct buf; [|done]. cbn -[newly_given Nat.add]. by rewrite (newly_given_refl s (S n)).
  - destruct buf as [|b buf]; cbn -[newly_given Nat.add]; [by rewrite (newly_given_refl s (S n))|].
    unfold merge_remote_state.
    destruct (Types.decode_message (b :: buf)) as [[[]|]|]; cbn -[newly_given Nat.add];
      rewrite ?(newly_given_refl s (S n)); done.
  - destruct payload; [|done]. cbn -[newly_given Nat.add]. by rewrite (newly_given_refl s (S n)).
Qed.

(** Without it every callback returns at once, except that a remote state is
    decoded all the same. *)
Lemma call_dropped v d cb :
  sd_serf d = Some (mkWeakRef 0) →
  call_delegate d [mkArc 0 v] cb = Done ([mkArc 0 v], absent cb) ∨
  ∃ buf is_join now, cb = CbMerge buf is_join now ∧ Types.decode_message (R := R) (I := I) (A := A) buf = Panic ∧
    call_delegate d [mkArc 0 v] cb = Panic.
Proof.
  intros Hd. unfold call. rewrite Hd, with_this_dropped.
  destruct cb as [owned buf now rnd| | |buf is_join now| | | | | |id rtt payload rnd1 rnd2]; try (by left).
  - left. by destruct buf.
  - destruct buf as [|b buf]; [by left|].
    destruct (Types.decode_message (b :: buf)) as [[[]|]|] eqn:Hb; try (by left). right. eauto 6.
  - left. by destruct payload.
Qed.

Lemma gained_same st : gained st st = 0.
Proof. unfold gained, newly_given. repeat case_match; simplify_eq; lia. Qed.

Lemma wstep_lives w w' v : lives w v → wstep w w' → ∃ v', lives w' v' ∧ (v = None → v' = None).
Proof.
  intros [Hst Hv Hr Hd Hk] Hstep.
  destruct Hstep as [Hh|Hh|n s s' Hh Hs|cb st rp Hc|encoded none request st res Hc|x].
  - rewrite Hst, Hr. exists v. split; [|done]. split; try done; cbn; rewrite Hv; lia.
  - rewrite Hst, Hr. destruct (held w) as [|[|n]] eqn:Hn; [done|exists None|exists v]; (split; [|done]); split; try done;
      cbn; rewrite Hv; done.
  - rewrite Hst, Hr in *. cbn in Hs. simplify_eq. exists (Some s'). split; [|done]. split; try done. cbn.
    split; [done|lia].
  - rewrite Hst in *. destruct v as [s|].
    + destruct (held w) as [|n] eqn:Hn; [by destruct Hv as [_ Hv]; specialize (Hv eq_refl)|].
      rewrite call_alive in Hc by done. destruct (handle_call cb s) as [[s' rp']|]; [|done]. injection Hc as <- <-.
      exists (Some s'). split; [|done]. by split.
    + rewrite (proj1 Hv eq_refl) in *.
      destruct (call_dropped None (w_delegate w) cb Hd) as [E|(b & j & t & _ & _ & E)]; rewrite E in Hc; simplify_eq.
      exists None. split; [|done]. by split.
  - rewrite Hst in *. unfold key_request in Hc. destruct encoded as [raw|e].
    + rewrite Hk in Hc. destruct v as [s|].
      * destruct (held w) as [|n] eqn:Hn; [by destruct Hv as [_ Hv]; specialize (Hv eq_refl)|].
        rewrite with_this_alive in Hc. destruct (request s) as [[s' r']|]; [|done]. injection Hc as <- <-.
        exists (Some s'). split; [|done]. by split.
      * rewrite (proj1 Hv eq_refl), with_this_dropped in *. simplify_eq. exists None. split; [|done]. by split.
    + simplify_eq. exists v. split; [|done]. rewrite gained_same, Nat.add_0_r. by split.
  - exists v. split; [|done]. split; try done; cbn; by rewrite ?Hd, ?Hk.
Qed.

(** Telling the instance of a node gives nothing away. *)
Lemma join_gives_nothing s n : newly_given s (notify_join s n) = 0.
Proof.
  assert (given (notify_join s n) = given s) as E; [|unfold newly_given; lia].
  unfold notify_join, handle_node_join. destruct (if decide _ then _ else _); [|done].
  repeat case_match; simplify_eq; unfold given; cbn; by rewrite ?filter_app, ?app_nil_r.
Qed.

(** Starting leaves one reference, and the instance has been told of itself. *)
Lemma start_lives s u tags ln :
  ∃ st d k, start [] s (new_delegate u tags) new_key_manager ln = Done (st, mkSerfRef 0, d, k) ∧
    lives (mkWorld st (mkSerfRef 0) 1 d k) (Some match ln with Some n => notify_join s n | None => s end) ∧
    user_delegate d = u.
Proof.
  unfold wire_up. cbn [arc_new app length]. destruct ln as [n|].
  - rewrite (call_alive 0 s) by done. cbn -[newly_given Nat.add]. rewrite join_gives_nothing.
    eexists _, _, _. split; [done|]. by repeat split.
  - cbn. eexists _, _, _. split; [done|]. by repeat split.
Qed.

(** An instance lives exactly as long as someone holds it, and neither
    memberlist's delegate nor the key manager does: from the start on, through
    any clones, drops, uses, callbacks and key requests, the strong count is
    the number of references held.  While there is one, every callback does
    what its handler does to the instance, and adds to the count only the
    references it gives to the events of queries and to tasks; after the last
    is dropped the core is gone for good and every callback returns empty,
    unless the remote state it decodes first makes the decoder panic. *)
Theorem instance_lifetime s u tags ln st r d k w :
  start [] s (new_delegate u tags) new_key_manager ln = Done (st, r, d, k) →
  rtc wstep (mkWorld st r 1 d k) w →
  (held w ≠ 0 ∧ ∃ s', w_store w = [mkArc (held w) (Some s')] ∧
    ∀ cb, call_delegate (w_delegate w) (w_store w) cb =
      run! (s2, rp) := handle_call cb s' in Done ([mkArc (held w + newly_given s' s2) (Some s2)], rp)) ∨
  (held w = 0 ∧ w_store w = [mkArc 0 None] ∧ (∀ w', rtc wstep w w' → w_store w' = [mkArc 0 None]) ∧
    ∀ cb, call_delegate (w_delegate w) (w_store w) cb = Done (w_store w, absent cb) ∨
      ∃ buf is_join now, cb = CbMerge buf is_join now ∧ Types.decode_message (R := R) (I := I) (A := A) buf = Panic).
Proof.
  intros Hstart Hsteps. destruct (start_lives s u tags ln) as (st' & d' & k' & Hs & Hl & _).
  rewrite Hs in Hstart. injection Hstart as <- <- <- <-.
  assert (∀ w1 w2 v, lives w1 v → rtc wstep w1 w2 → ∃ v', lives w2 v' ∧ (v = None → v' = None)) as Hmany.
  { intros w1 w2 v Hw1 H12. revert v Hw1. induction H12 as [w1|w1 w2 w3 H12 _ IH]; intros v Hw1; [by exists v|].
    destruct (wstep_lives w1 w2 v Hw1 H12) as (v2 & Hw2 & Hn2). destruct (IH v2 Hw2) as (v3 & Hw3 & Hn3).
    exists v3. auto. }
  destruct (Hmany _ w _ Hl Hsteps) as (v & Hw & _). pose proof Hw as [Hst Hv Hr Hd Hk].
  destruct v as [s'|].
  - left. split; [intros ?%Hv; done|]. exists s'. split; [done|]. intros cb. rewrite Hst.
    destruct (held w) as [|n] eqn:Hn; [by destruct Hv as [_ Hv]; specialize (Hv eq_refl)|]. by apply call_alive.
  - right. pose proof (proj1 Hv eq_refl) as Hz. rewrite Hz in Hst. split_and!; try done.
    + intros w' Hw'. destruct (Hmany _ w' _ Hw Hw') as (v' & Hl' & Hn'). rewrite (Hn' eq_refl) in Hl'.
      destruct Hl' as [Hst' Hv' _ _ _]. by rewrite (proj1 Hv' eq_refl) in Hst'.
    + intros cb. rewrite Hst. destruct (call_dropped None (w_delegate w) cb Hd) as [?|(b & j & t & ? & ? & _)];
        [by left|right; eauto].
Qed.

End facts.

(** Node 1 starts, hears of node 2 and is dropped; memberlist calls again. *)
Section example.
Let wide (q : list SerfBroadcast) (limit : Z) : list bytes * list SerfBroadcast := (bmsg <$> q, []).
Let no_coordinate (b : bytes) : Result Coordinate DecodeError := Err BufferUnderflow.
Abbreviation run_call := (call (R := string) (D := unit) wide (λ b, Z.of_nat (length b)) (λ _, 0)
  (λ _, Ok []) no_coordinate (λ x _, x)).

Lemma instance_lifetime_witness :
  ∃ st r d k st1 rp,
    wire_up (R := string) (D := unit) wide (λ b, Z.of_nat (length b)) (λ _, 0) (λ _, Ok []) no_coordinate (λ x _, x)
      [] (sample_serf 1) (new_delegate (Some tt) 0) new_key_manager (Some (sample_node 1)) = Done (st, r, d, k) ∧
    run_call d st (CbJoin (sample_node 2)) = Done (st1, rp) ∧ (strong <$> st1) = [1] ∧
    run_call d (drop_ref st1 r) (CbLocalState false) = Done (drop_ref st1 r, RpBytes []).
Proof.
  destruct (wire_up (R := string) (D := unit) wide (λ b, Z.of_nat (length b)) (λ _, 0) (λ _, Ok []) no_coordinate
    (λ x _, x) [] (sample_serf 1) (new_delegate (Some tt) 0) new_key_manager (Some (sample_node 1)))
    as [[[[st r] d] k]|] eqn:Hstart; [|by exfalso; revert Hstart; vm_compute].
  assert (∃ st1 rp, run_call d st (CbJoin (sample_node 2)) = Done (st1, rp) ∧ (strong <$> st1) = [1] ∧ gained st st1 = 0)
    as (st1 & rp & Hc & Hn & Hg).
  { destruct (start_lives (R := string) (D := unit) wide (λ b, Z.of_nat (length b)) (λ _, 0) (λ _, Ok []) no_coordinate
      (λ x _, x) (sample_serf 1) (Some tt) 0 (Some (sample_node 1))) as (st' & d' & k' & Hs & [Hst _ _ Hd _] & _).
    rewrite Hs in Hstart. injection Hstart as <- <- <- <-. cbn in Hst, Hd. rewrite Hst.
    eexists _, _. rewrite (call_alive (R := string) wide _ _ _ _ _ 0 _ d' _ Hd). cbn -[newly_given Nat.add].
    rewrite join_gives_nothing. split; [done|]. split; [done|]. apply join_gives_nothing. }
  exists st, r, d, k, st1, rp. split; [done|]. split; [done|]. split; [done|].
  destruct (instance_lifetime (R := string) (D := unit) (X := unit) wide (λ b, Z.of_nat (length b)) (λ _, 0) (λ _, Ok [])
    no_coordinate (λ x _, x) (sample_serf 1) (Some tt) 0 (Some (sample_node 1)) st r d k
    (mkWorld (drop_ref st1 r) r 0 d k) Hstart) as [[Hz _]|(_ & _ & _ & Hcalls)]; [|by destruct Hz|].
  - eapply rtc_l; [by eapply ws_call|]. cbn. rewrite Hg. apply rtc_once. by apply (ws_drop _ _ _ _ _ _ (mkWorld st1 r 1 d k)).
  - destruct (Hcalls (CbLocalState false)) as [?|(? & ? & ? & [=] & _)]; done.
Defined.
End example.
