(* ===== verification/EventStream.v ===== *)
(** * From the core to the application (event.rs, internal_query.rs, coalesce.rs, snapshot.rs, base.rs)

    Events leave the core over a chain of channels: the snapshotter's tee,
    which copies them to the snapshotter and passes them on without waiting,
    then [SerfQueries], which keeps internal queries, then the user-event
    coalescer and the member-event coalescer where [new_in] puts them, then
    the channel of the subscriber.  All tasks but the tee wait for room.  Each
    takes one event at a time, and they run in any order: [task_step].  [pstep]
    adds the core, which emits, and the passing of time.

    [lmove] is what the chain as a whole does to the events: one line of
    events in order, out of which the coalescers take some and into which they
    put what they flush. *)

From Stdlib Require Import ZArith Lia Strings.Byte.
From stdpp Require Import base list gmap strings.
From S2P Require Import Prelude Clock Coordinate Types Core Responses Coalesce.
Local Open Scope serf_scope.

(** ** The subscriber *)

Section events.
Context {I A : Type}.

Inductive Event : Type :=
| EMember (e : MemberEvent I A)
| EUser (e : UserEventMessage)
| EQuery (e : QueryEvent I A).

(** [None] for an internal query. *)
Definition event_of (ev : CrateEvent I A) : option Event :=
  match ev with
  | EvMember e => Some (EMember e)
  | EvUser e => Some (EUser e)
  | EvQuery e => Some (EQuery e)
  | EvInternalQuery _ _ => None
  end.

Definition is_internal_query (ev : CrateEvent I A) : bool :=
  match ev with EvInternalQuery _ _ => true | _ => false end.

(** [recv] and [try_recv] take events until one is for the application;
    [None] is an empty channel, on which [recv] waits or, when it is closed,
    fails. *)
Fixpoint subscriber_recv (q : list (CrateEvent I A)) : option Event * list (CrateEvent I A) :=
  match q with
  | [] => (None, [])
  | ev :: q => match event_of ev with Some e => (Some e, q) | None => subscriber_recv q end
  end.

(** [Stream::poll_next] takes one event only. *)
Inductive Poll (T : Type) : Type := Ready (x : option T) | Pending.
Arguments Ready {T}.
Arguments Pending {T}.

Definition poll_next (closed : bool) (q : list (CrateEvent I A)) : Poll Event * list (CrateEvent I A) :=
  match q with
  | [] => (if closed then Ready None else Pending, [])
  | ev :: q => (match event_of ev with Some e => Ready (Some e) | None => Pending end, q)
  end.

(** [EventProducer::bounded] and [unbounded]: the channel behind a producer
    and its subscriber, without a capacity when it is unbounded. *)
Definition producer_bounded (size : nat) : outcome (Channel (CrateEvent I A)) := bounded size.
Record Unbounded : Type := mkUnbounded { ub_queue : list (CrateEvent I A); ub_closed : bool }.
Definition producer_unbounded : Unbounded := mkUnbounded [] false.
Definition unbounded_send (c : Unbounded) (ev : CrateEvent I A) : Unbounded :=
  if ub_closed c then c else mkUnbounded (ub_queue c ++ [ev]) false.

(** What the subscriber says of its channel. *)
Definition subscriber_is_empty (c : Channel (CrateEvent I A)) : bool := bool_decide (queue c = []).
Definition subscriber_is_closed (c : Channel (CrateEvent I A)) : bool := ch_closed c.
Definition subscriber_len (c : Channel (CrateEvent I A)) : nat := length (queue c).

End events.

Arguments Event : clear implicits.
Arguments Poll : clear implicits.
Arguments Ready {T}.
Arguments Pending {T}.

(** ** The chain *)

Section chain.
Context {I A : Type} `{Countable I} `{Countable A}.
Implicit Types ev : CrateEvent I A.
Abbreviation EvChannel := (Channel (CrateEvent I A)).

(** A task of [coalesced_event]: its channel and its loop; [out] of the loop
    is what it is still sending, one event after the other. *)
Record Stage (C : Type) : Type := mkStage { st_in : EvChannel; st_loop : lstate (C := C) (E := CrateEvent I A) }.
Arguments mkStage {C}.
Arguments st_in {C}.
Arguments st_loop {C}.

Definition COALESCE_CH_SIZE : nat := 1024.

Definition coalesced_event {C} (c : C) : Stage C :=
  mkStage (mkChannel COALESCE_CH_SIZE [] false) (start c).

(** An iteration of the loop, once the previous one has sent all it had to. *)
Inductive stage_step {C} `{!Coalescer C (CrateEvent I A)} (c_period q_period now : Z)
  : Stage C → Stage C → Prop :=
| stage_event s ev c tq tz st' :
    out (st_loop s) = [] → recv (st_in s) = (Some ev, c) →
    loop_step c_period q_period now tq tz None (BEvent ev) (st_loop s) = Some st' →
    stage_step c_period q_period now s (mkStage c st')
| stage_fire s b tq tz st' :
    out (st_loop s) = [] → b = BQuantum ∨ b = BQuiescent →
    loop_step c_period q_period now tq tz None b (st_loop s) = Some st' →
    stage_step c_period q_period now s (mkStage (st_in s) st').

(** The first event of [out] is on its way. *)
Definition stage_sent {C} (s : Stage C) : Stage C :=
  let l := st_loop s in
  mkStage (st_in s) (mkLState (coalescer l) (quantum l) (quiescent l) (shutdown l) (tail (out l)) (running l)).

(** Emitting is never held back here: [pending] stands for the first channel
    and what waits to be sent on it.  [hand] is the event [SerfQueries] has
    taken and is sending on.  Shutting the tasks down is not part of this
    model. *)
Record Pipeline : Type := mkPipeline {
  emitted : list (CrateEvent I A);     (** by the core, so far *)
  now : Z;
  pending : list (CrateEvent I A);     (** not yet taken by the tee *)
  stream_ch : EvChannel;
  recorded : list (CrateEvent I A);    (** taken by the snapshotter *)
  queries_ch : EvChannel;
  hand : option (CrateEvent I A);
  spawned_queries : list (CrateEvent I A); (** handed to [SerfQueries::handle_query] *)
  user_stage : option (Stage UserEventCoalescer);
  member_stage : option (Stage (MemberEventCoalescer (I := I) (A := A)));
  out_ch : EvChannel;
  received : list (Event I A);         (** by the application *)
}.
Implicit Types p : Pipeline.

Definition EVENT_CH_SIZE : nat := 2048.
Definition QUERIES_CH_SIZE : nat := 1024.

(** Which coalescers [new_in] starts. *)
Definition coalesces_members (opts : Options) : bool :=
  (0 <? opt_coalesce_period opts)%Z && (0 <? opt_quiescent_period opts)%Z.
Definition coalesces_users (opts : Options) : bool :=
  (0 <? opt_user_coalesce_period opts)%Z && (0 <? opt_user_quiescent_period opts)%Z.

Definition start_pipeline (opts : Options) (capacity : nat) : Pipeline :=
  mkPipeline [] 0 [] (mkChannel EVENT_CH_SIZE [] false) [] (mkChannel QUERIES_CH_SIZE [] false) None []
    (if coalesces_users opts then Some (coalesced_event new_user_coalescer) else None)
    (if coalesces_members opts then Some (coalesced_event new_member_coalescer) else None)
    (mkChannel capacity [] false) [].

(** Updates of one part of the chain. *)
Definition set_emitted p l q : Pipeline :=
  mkPipeline l (now p) q (stream_ch p) (recorded p) (queries_ch p) (hand p) (spawned_queries p)
    (user_stage p) (member_stage p) (out_ch p) (received p).
Definition set_now p t : Pipeline :=
  mkPipeline (emitted p) t (pending p) (stream_ch p) (recorded p) (queries_ch p) (hand p)
    (spawned_queries p) (user_stage p) (member_stage p) (out_ch p) (received p).
Definition set_tee p q sc qc : Pipeline :=
  mkPipeline (emitted p) (now p) q sc (recorded p) qc (hand p) (spawned_queries p)
    (user_stage p) (member_stage p) (out_ch p) (received p).
Definition set_recorded p sc l : Pipeline :=
  mkPipeline (emitted p) (now p) (pending p) sc l (queries_ch p) (hand p) (spawned_queries p)
    (user_stage p) (member_stage p) (out_ch p) (received p).
Definition set_queries p qc h l : Pipeline :=
  mkPipeline (emitted p) (now p) (pending p) (stream_ch p) (recorded p) qc h l
    (user_stage p) (member_stage p) (out_ch p) (received p).
Definition set_user p s : Pipeline :=
  mkPipeline (emitted p) (now p) (pending p) (stream_ch p) (recorded p) (queries_ch p) (hand p)
    (spawned_queries p) s (member_stage p) (out_ch p) (received p).
Definition set_member p s : Pipeline :=
  mkPipeline (emitted p) (now p) (pending p) (stream_ch p) (recorded p) (queries_ch p) (hand p)
    (spawned_queries p) (user_stage p) s (out_ch p) (received p).
Definition set_out p c l : Pipeline :=
  mkPipeline (emitted p) (now p) (pending p) (stream_ch p) (recorded p) (queries_ch p) (hand p)
    (spawned_queries p) (user_stage p) (member_stage p) c l.

(** [tee_stream_flush_event!]: both sends are polled once and given up. *)
Definition offer (c : EvChannel) ev : EvChannel := default c (poll_send c ev).

Definition tee p ev (rest : list (CrateEvent I A)) : Pipeline :=
  set_tee p rest (offer (stream_ch p) ev) (offer (queries_ch p) ev).

(** What [tee_stream] does once it is told to shut down: it passes on what is
    waiting and ends. *)
Fixpoint tee_drain p (l : list (CrateEvent I A)) : Pipeline :=
  match l with
  | [] => p
  | ev :: rest => tee_drain (tee p ev rest) rest
  end.

(** The [event_tx] that the user coalescer and [SerfQueries] send on: the
    next coalescer's channel, or the application's.  [None] while it is full. *)
Definition to_member p ev : option Pipeline :=
  match member_stage p with
  | Some s => (λ c, set_member p (Some (mkStage c (st_loop s)))) <$> poll_send (st_in s) ev
  | None => (λ c, set_out p c (received p)) <$> poll_send (out_ch p) ev
  end.

Definition to_user p ev : option Pipeline :=
  match user_stage p with
  | Some s => (λ c, set_user p (Some (mkStage c (st_loop s)))) <$> poll_send (st_in s) ev
  | None => to_member p ev
  end.

Definition has_snapshot (opts : Options) : bool := bool_decide (is_Some (opt_snapshot_path opts)).

(** One step of one task. *)
Inductive task_step (opts : Options) : Pipeline → Pipeline → Prop :=
| step_tee p ev rest :
    has_snapshot opts = true → pending p = ev :: rest → task_step opts p (tee p ev rest)
| step_direct p ev rest c :
    has_snapshot opts = false → pending p = ev :: rest → poll_send (queries_ch p) ev = Some c →
    task_step opts p (set_tee p rest (stream_ch p) c)
| step_record p ev c :
    recv (stream_ch p) = (Some ev, c) → task_step opts p (set_recorded p c (recorded p ++ [ev]))
| step_answer p ev c :
    hand p = None → recv (queries_ch p) = (Some ev, c) → is_internal_query ev = true →
    task_step opts p (set_queries p c None (spawned_queries p ++ [ev]))
| step_take p ev c :
    hand p = None → recv (queries_ch p) = (Some ev, c) → is_internal_query ev = false →
    task_step opts p (set_queries p c (Some ev) (spawned_queries p))
| step_forward p ev p' :
    hand p = Some ev → to_user p ev = Some p' →
    task_step opts p (set_queries p' (queries_ch p') None (spawned_queries p'))
| step_user p s s' :
    user_stage p = Some s →
    stage_step (opt_user_coalesce_period opts) (opt_user_quiescent_period opts) (now p) s s' →
    task_step opts p (set_user p (Some s'))
| step_user_send p s ev p' :
    user_stage p = Some s → head (out (st_loop s)) = Some ev → to_member p ev = Some p' →
    task_step opts p (set_user p' (Some (stage_sent s)))
| step_member p s s' :
    member_stage p = Some s →
    stage_step (opt_coalesce_period opts) (opt_quiescent_period opts) (now p) s s' →
    task_step opts p (set_member p (Some s'))
| step_member_send p s ev c :
    member_stage p = Some s → head (out (st_loop s)) = Some ev → poll_send (out_ch p) ev = Some c →
    task_step opts p (set_member (set_out p c (received p)) (Some (stage_sent s)))
| step_receive p e q :
    subscriber_recv (queue (out_ch p)) = (Some e, q) →
    task_step opts p (set_out p (mkChannel (capacity (out_ch p)) q (ch_closed (out_ch p)))
      (received p ++ [e])).

Inductive pstep (opts : Options) : Pipeline → Pipeline → Prop :=
| step_task p p' : task_step opts p p' → pstep opts p p'
| step_emit p ev : pstep opts p (set_emitted p (emitted p ++ [ev]) (pending p ++ [ev]))
| step_wait p t : (now p <= t)%Z → pstep opts p (set_now p t).

Definition psteps (opts : Options) : Pipeline → Pipeline → Prop := rtc (pstep opts).

End chain.

Arguments Pipeline : clear implicits.
Arguments Pipeline I A {_ _ _ _}.
Arguments mkStage {I A C}.
Arguments st_in {I A C}.
Arguments st_loop {I A C}.

(** ** The line of events *)

Section line.
Context {I A : Type} `{Countable I} `{Countable A}.
Implicit Types (ev : CrateEvent I A) (l : list (CrateEvent I A)).

Abbreviation visible := (omap event_of).

(** What has been emitted, what is on its way with the oldest first, what
    the two coalescers hold back, and what the application has. *)
Record Line : Type := mkLine {
  l_emitted : list (CrateEvent I A);
  l_line : list (CrateEvent I A);
  l_user : UserEventCoalescer;
  l_member : MemberEventCoalescer (I := I) (A := A);
  l_received : list (Event I A);
}.

(** [lossy]: the tee may lose an event. *)
Inductive lmove (opts : Options) (lossy : bool) : Line → Line → Prop :=
| move_same x : lmove opts lossy x x
| move_emit es l u m r ev :
    lmove opts lossy (mkLine es l u m r) (mkLine (es ++ [ev]) (l ++ [ev]) u m r)
| move_lose es l1 ev l2 u m r :
    lossy = true → lmove opts lossy (mkLine es (l1 ++ ev :: l2) u m r) (mkLine es (l1 ++ l2) u m r)
| move_answer es l1 ev l2 u m r :
    is_internal_query ev = true →
    lmove opts lossy (mkLine es (l1 ++ ev :: l2) u m r) (mkLine es (l1 ++ l2) u m r)
| move_receive es ev e l u m r :
    event_of ev = Some e → lmove opts lossy (mkLine es (ev :: l) u m r) (mkLine es l u m (r ++ [e]))
| move_user_take es l1 e l2 u m r :
    coalesces_users opts = true → cc e = true →
    lmove opts lossy (mkLine es (l1 ++ EvUser e :: l2) u m r) (mkLine es (l1 ++ l2) (coalesce_user u e) m r)
| move_user_flush es l1 l2 u m r :
    coalesces_users opts = true →
    lmove opts lossy (mkLine es (l1 ++ l2) u m r)
      (mkLine es (l1 ++ (user_flush u).1 ++ l2) new_user_coalescer m r)
| move_member_take es l1 e l2 u m r :
    coalesces_members opts = true →
    lmove opts lossy (mkLine es (l1 ++ EvMember e :: l2) u m r)
      (mkLine es (l1 ++ l2) u (member_coalesce m (EvMember e)) r)
| move_member_flush es l1 l2 u m r :
    coalesces_members opts = true →
    lmove opts lossy (mkLine es (l1 ++ l2) u m r)
      (mkLine es (l1 ++ (member_flush m).1 ++ l2) u (member_flush m).2 r).

(** The events no coalescer takes. *)
Definition kept (opts : Options) (e : Event I A) : bool :=
  match e with
  | EMember _ => negb (coalesces_members opts)
  | EUser e => negb (coalesces_users opts && cc e)
  | EQuery _ => true
  end.

Definition sight opts (es : list (Event I A)) : list (Event I A) := filter (λ e, kept opts e = true) es.

(** User events of a list of events. *)
Definition user_of (e : Event I A) : option UserEventMessage :=
  match e with EUser e => Some e | _ => None end.
Definition member_of (e : Event I A) : option (MemberEvent I A) :=
  match e with EMember e => Some e | _ => None end.

Definition contents (u : UserEventCoalescer) : list UserEventMessage :=
  concat ((λ p, lu_events p.2) <$> u).

Lemma visible_internal ev : is_internal_query ev = true → event_of ev = None.
Proof. by destruct ev. Qed.

Lemma sight_app opts es es' : sight opts (es ++ es') = sight opts es ++ sight opts es'.
Proof. apply filter_app. Qed.

Lemma visible_mid l1 ev l2 : visible (l1 ++ ev :: l2) = visible l1 ++ option_list (event_of ev) ++ visible l2.
Proof. rewrite omap_app. cbn. by destruct (event_of ev). Qed.

Lemma visible_snoc l ev : visible (l ++ [ev]) = visible l ++ option_list (event_of ev).
Proof. rewrite visible_mid. cbn. by rewrite app_nil_r. Qed.

Lemma visible_users (es : list UserEventMessage) :
  visible ((EvUser <$> es) : list (CrateEvent I A)) = EUser <$> es.
Proof. induction es as [|e es IH]; [done|]. cbn. by rewrite <- IH. Qed.

Lemma visible_members (es : list (MemberEvent I A)) : visible (EvMember <$> es) = EMember <$> es.
Proof. induction es as [|e es IH]; [done|]. cbn. by rewrite <- IH. Qed.

Lemma sight_none opts es : Forall (λ e, kept opts e = false) es → sight opts es = [].
Proof.
  induction 1 as [|e es He _ IH]; [done|]. unfold sight. rewrite filter_cons_False; [done|]. by rewrite He.
Qed.

(** What the user coalescer holds. *)
Lemma update_latest_events x e : lu_events (update_latest x e) ⊆+ lu_events x ++ [e].
Proof.
  unfold update_latest. destruct (_ <? _)%Z; [|destruct (_ =? _)%Z]; simpl.
  - by apply submseteq_inserts_l.
  - done.
  - by apply submseteq_inserts_r.
Qed.

Lemma contents_coalesce u e : contents (coalesce_user u e) ⊆+ contents u ++ [e].
Proof.
  induction u as [|[n x] u IH]; cbn; [done|]. case_decide; cbn.
  - rewrite <- app_assoc, (Permutation_app_comm _ [e]), app_assoc.
    apply submseteq_app; [|done]. apply update_latest_events.
  - rewrite <- app_assoc. by apply submseteq_app.
Qed.

Lemma contents_taken (P : UserEventMessage → Prop) u e :
  P e → Forall P (contents u) → Forall P (contents (coalesce_user u e)).
Proof.
  rewrite !Forall_forall. intros He Hu x Hx.
  pose proof (elem_of_submseteq _ _ _ Hx (contents_coalesce u e)) as Hin.
  apply elem_of_app in Hin as [?|Hy%list_elem_of_singleton]; [auto|by subst].
Qed.

(** What the member coalescer holds. *)
Definition holds (m : MemberEventCoalescer (I := I) (A := A)) ty (x : Member I A) : Prop :=
  ∃ n, latest_events m !! n = Some (mkCoalesceEvent ty x).

Lemma insert_latest_holds ty (ms : list (Member I A)) m ty' x :
  holds (foldl (insert_latest ty) m ms) ty' x → holds m ty' x ∨ (ty' = ty ∧ x ∈ ms).
Proof.
  revert m. induction ms as [|y ms IH]; intros m Hh; [by left|]. simpl in Hh.
  destruct (IH _ Hh) as [(n & Hn)|[-> Hx]]; [|right; set_solver].
  unfold insert_latest in Hn. simpl in Hn.
  destruct (decide (node y = n)) as [<-|Hne].
  - rewrite lookup_insert_eq in Hn. simplify_eq. right. set_solver.
  - rewrite lookup_insert_ne in Hn by done. left. by exists n.
Qed.

Lemma insert_latest_size ty (ms : list (Member I A)) m :
  size (latest_events (foldl (insert_latest ty) m ms)) ≤ size (latest_events m) + length ms.
Proof.
  revert m. induction ms as [|y ms IH]; intros m; simpl; [lia|].
  etrans; [apply IH|]. unfold insert_latest. simpl. rewrite map_size_insert. case_match; cbn; lia.
Qed.

Lemma flush_one_length (xs : list (Node I A * CoalesceEvent)) last evs :
  length (foldl flush_one (last, evs) xs).2 ≤ length evs + length xs.
Proof.
  assert (∀ ty m es, length (add_event (I := I) (A := A) ty m es) ≤ S (length es)) as Hadd.
  { intros ty m es. induction es as [|e es IH]; simpl; [lia|]. case_decide; simpl; lia. }
  revert last evs. induction xs as [|[n ce] xs IH]; intros last evs; cbn [foldl flush_one]; simpl; [lia|].
  destruct (repeats last n (ce_ty ce)); etrans; try apply IH; [lia|].
  specialize (Hadd (ce_ty ce) (ce_member ce) evs). lia.
Qed.

Lemma member_flush_sends m :
  ∃ evs, (member_flush m).1 = EvMember <$> evs ∧ length evs ≤ size (latest_events m) ∧
    latest_events (member_flush m).2 = ∅ ∧ ∀ ty x, reports evs ty x → holds m ty x.
Proof.
  unfold member_flush.
  pose proof (flush_fold (last_events m) (map_to_list (latest_events m))
    (NoDup_fst_map_to_list (latest_events m))) as Hf.
  pose proof (flush_one_length (map_to_list (latest_events m)) (last_events m) []) as Hlen.
  destruct (foldl flush_one _ _) as [last' evs]. exists evs. cbn in *.
  split; [done|]. split; [by rewrite length_map_to_list in Hlen|]. split; [done|].
  intros ty x Hx. apply Hf in Hx as (n & Hn & _). exists n. by apply elem_of_map_to_list.
Qed.

Lemma reports_app (es es' : list (MemberEvent I A)) ty x :
  reports (es ++ es') ty x ↔ reports es ty x ∨ reports es' ty x.
Proof.
  unfold reports. split.
  - intros (e & [He|He]%elem_of_app & Ht & Hm); [left|right]; by exists e.
  - intros [(e & He & Ht & Hm)|(e & He & Ht & Hm)]; exists e; (split; [apply elem_of_app|done]); auto.
Qed.

Lemma omap_members (es : list (MemberEvent I A)) : omap member_of (EMember <$> es) = es.
Proof. induction es as [|e es IH]; [done|]. cbn. by rewrite IH. Qed.
Lemma omap_members_users (es : list UserEventMessage) :
  omap member_of ((EUser <$> es) : list (Event I A)) = [].
Proof. by induction es. Qed.
Lemma omap_users (es : list UserEventMessage) :
  omap user_of ((EUser <$> es) : list (Event I A)) = es.
Proof. induction es as [|e es IH]; [done|]. cbn. by rewrite IH. Qed.
Lemma omap_users_members (es : list (MemberEvent I A)) : omap user_of (EMember <$> es) = [].
Proof. by induction es. Qed.

(** *** What holds of a line *)

Definition in_flight (x : Line) : list (Event I A) := l_received x ++ visible (l_line x).

(** Order, and nothing made up: the events no coalescer takes are a part of
    those emitted, in their order; user events are as often on the way or
    held back as they were emitted, at most; a member is reported with a type
    only if it was emitted with it. *)
Record line_ok opts (x : Line) : Prop := {
  lo_order : sight opts (in_flight x) `sublist_of` sight opts (visible (l_emitted x));
  lo_users : omap user_of (in_flight x) ++ contents (l_user x) ⊆+ omap user_of (visible (l_emitted x));
  lo_taken : Forall (λ e, cc e = true) (contents (l_user x));
  lo_members : ∀ ty m, reports (omap member_of (in_flight x)) ty m ∨ holds (l_member x) ty m →
    reports (omap member_of (visible (l_emitted x))) ty m;
}.

(** The kept events a move takes or adds. *)
Lemma lmove_sight opts lossy x x' :
  Forall (λ e, cc e = true) (contents (l_user x)) → lmove opts lossy x x' →
  ∃ new, sight opts (visible (l_emitted x')) = sight opts (visible (l_emitted x)) ++ new ∧
    sight opts (in_flight x') `sublist_of` sight opts (in_flight x) ++ new ∧
    (lossy = false → sight opts (in_flight x') = sight opts (in_flight x) ++ new).
Proof.
  intros Hcc Hm. destruct Hm as [x|es l u m r ev|es l1 ev l2 u m r Hl|es l1 ev l2 u m r Hi|es ev e l u m r He
    |es l1 e l2 u m r Hon He|es l1 l2 u m r Hon|es l1 e l2 u m r Hon|es l1 l2 u m r Hon];
    unfold in_flight; cbn [l_emitted l_line l_received l_user] in *.
  - exists []. by rewrite !app_nil_r.
  - exists (sight opts (option_list (event_of ev))). rewrite !visible_snoc, !sight_app, <- !app_assoc. done.
  - exists []. rewrite !app_nil_r. split; [done|]. split; [|congruence].
    rewrite visible_mid, omap_app, !sight_app. repeat apply sublist_app; try done. by apply sublist_inserts_l.
  - exists []. rewrite !app_nil_r, visible_mid, (visible_internal _ Hi), omap_app. done.
  - exists []. rewrite !app_nil_r. cbn. rewrite He, <- app_assoc. done.
  - exists []. rewrite !app_nil_r, visible_mid, omap_app, !sight_app.
    rewrite (sight_none opts (option_list (event_of (EvUser e)))); [done|]. constructor; [|done]. cbn. by rewrite Hon, He.
  - exists []. rewrite !app_nil_r, !omap_app, !sight_app. cbn [user_flush fst].
    rewrite visible_users, (sight_none opts (EUser <$> _)); [done|]. apply Forall_fmap.
    eapply Forall_impl; [exact Hcc|]. intros e He. cbn in *. by rewrite Hon, He.
  - exists []. rewrite !app_nil_r, visible_mid, omap_app, !sight_app.
    rewrite (sight_none opts (option_list (event_of (EvMember e)))); [done|]. constructor; [|done]. cbn. by rewrite Hon.
  - exists []. rewrite !app_nil_r, !omap_app, !sight_app.
    destruct (member_flush_sends m) as (evs & -> & _).
    rewrite visible_members, (sight_none opts (EMember <$> _)); [done|]. apply Forall_fmap, Forall_true.
    intros e. cbn. by rewrite Hon.
Qed.

Lemma lmove_users opts lossy x x' :
  lmove opts lossy x x' →
  ∃ new, omap user_of (visible (l_emitted x')) = omap user_of (visible (l_emitted x)) ++ new ∧
    omap user_of (in_flight x') ++ contents (l_user x') ⊆+
      (omap user_of (in_flight x) ++ contents (l_user x)) ++ new.
Proof.
  intros Hm. destruct Hm as [x|es l u m r ev|es l1 ev l2 u m r Hl|es l1 ev l2 u m r Hi|es ev e l u m r He
    |es l1 e l2 u m r Hon He|es l1 l2 u m r Hon|es l1 e l2 u m r Hon|es l1 l2 u m r Hon];
    unfold in_flight; cbn [l_emitted l_line l_received l_user].
  - exists []. by rewrite !app_nil_r.
  - exists (omap user_of (option_list (event_of ev))). rewrite !visible_snoc, !omap_app. split; [done|].
    apply Permutation_submseteq. solve_Permutation.
  - exists []. rewrite !app_nil_r. split; [done|]. rewrite visible_mid, !omap_app.
    solve_submseteq.
  - exists []. rewrite !app_nil_r, visible_mid, (visible_internal _ Hi), !omap_app. done.
  - exists []. rewrite !app_nil_r. cbn. by rewrite He, <- app_assoc.
  - exists []. rewrite !app_nil_r. split; [done|]. rewrite visible_mid, !omap_app.
    etrans; [apply submseteq_app; [done|apply (contents_coalesce u e)]|].
    cbn. apply Permutation_submseteq. solve_Permutation.
  - exists []. rewrite !app_nil_r. split; [done|]. cbn [user_flush fst]. fold (contents u).
    rewrite !omap_app, visible_users, omap_users. cbn. apply Permutation_submseteq. solve_Permutation.
  - exists []. rewrite !app_nil_r, visible_mid, !omap_app. done.
  - exists []. rewrite !app_nil_r. split; [done|]. destruct (member_flush_sends m) as (evs & -> & _).
    rewrite !omap_app, visible_members, omap_users_members. done.
Qed.

Lemma lmove_members opts lossy x x' ty y :
  lmove opts lossy x x' →
  reports (omap member_of (in_flight x')) ty y ∨ holds (l_member x') ty y →
  (reports (omap member_of (in_flight x)) ty y ∨ holds (l_member x) ty y) ∨
    reports (omap member_of (visible (l_emitted x'))) ty y.
Proof.
  intros Hm. destruct Hm as [x|es l u m r ev|es l1 ev l2 u m r Hl|es l1 ev l2 u m r Hi|es ev e l u m r He
    |es l1 e l2 u m r Hon He|es l1 l2 u m r Hon|es l1 e l2 u m r Hon|es l1 l2 u m r Hon];
    unfold in_flight; cbn [l_emitted l_line l_received l_member].
  - tauto.
  - rewrite !visible_snoc, !omap_app, !reports_app. tauto.
  - rewrite visible_mid, !omap_app, !reports_app. tauto.
  - rewrite visible_mid, (visible_internal _ Hi), !omap_app, !reports_app. tauto.
  - cbn. rewrite He, <- app_assoc. tauto.
  - rewrite visible_mid, !omap_app, !reports_app. tauto.
  - cbn [user_flush fst]. rewrite !omap_app, visible_users, omap_members_users. tauto.
  - rewrite visible_mid, !omap_app, !reports_app. intros [?|Hh]; [tauto|].
    apply insert_latest_holds in Hh as [?|[-> Hy]]; [tauto|]. left. left. right. right. left.
    exists e. cbn. split; [by apply list_elem_of_singleton|done].
  - destruct (member_flush_sends m) as (evs & -> & _ & Hl & Hsent).
    rewrite !omap_app, visible_members, omap_members, !reports_app. intros [?|(n & Hn)].
    + specialize (Hsent ty y). tauto.
    + rewrite Hl in Hn. by rewrite lookup_empty in Hn.
Qed.

Lemma lmove_emitted opts lossy x x' ty y :
  lmove opts lossy x x' →
  reports (omap member_of (visible (l_emitted x))) ty y → reports (omap member_of (visible (l_emitted x'))) ty y.
Proof.
  intros Hm. destruct Hm; cbn [l_emitted]; try done. rewrite visible_snoc, omap_app, reports_app. by left.
Qed.

Lemma lmove_taken opts lossy x x' :
  lmove opts lossy x x' →
  Forall (λ e, cc e = true) (contents (l_user x)) → Forall (λ e, cc e = true) (contents (l_user x')).
Proof. intros Hm. destruct Hm; cbn [l_user]; try done. by apply contents_taken. Qed.

Lemma lmove_ok opts lossy x x' : line_ok opts x → lmove opts lossy x x' → line_ok opts x'.
Proof.
  intros [Ho Hu Ht Hmm] Hm. constructor.
  - destruct (lmove_sight _ _ _ _ Ht Hm) as (new & -> & Hs & _). etrans; [exact Hs|]. by apply sublist_app.
  - destruct (lmove_users _ _ _ _ Hm) as (new & -> & Hs). etrans; [exact Hs|]. by apply submseteq_app.
  - by eapply lmove_taken.
  - intros ty y [Hin|Hin]%(lmove_members _ _ _ _ _ _ Hm); [|done]. eapply lmove_emitted; [done|]. auto.
Qed.

End line.

(** ** The chain refines the line *)

Section facts.
Context {I A : Type} `{Countable I} `{Countable A}.
Implicit Types (p : Pipeline I A) (ev : CrateEvent I A) (c : Channel (CrateEvent I A)).

Abbreviation visible := (omap event_of).

Definition stage_events {C} (o : option (Stage (I := I) (A := A) C)) : list (CrateEvent I A) :=
  match o with Some s => out (st_loop s) ++ queue (st_in s) | None => [] end.

(** Beyond the user coalescer, and beyond [SerfQueries]. *)
Definition after_user p : list (CrateEvent I A) := queue (out_ch p) ++ stage_events (member_stage p).
Definition after_queries p : list (CrateEvent I A) := after_user p ++ stage_events (user_stage p).

Definition held_users p : UserEventCoalescer :=
  match user_stage p with Some s => coalescer (st_loop s) | None => new_user_coalescer end.
Definition held_members p : MemberEventCoalescer (I := I) (A := A) :=
  match member_stage p with Some s => coalescer (st_loop s) | None => new_member_coalescer end.

Definition line_of p : Line :=
  mkLine (emitted p)
    (after_queries p ++ option_list (hand p) ++ queue (queries_ch p) ++ pending p)
    (held_users p) (held_members p) (received p).

Definition channel_ok c : Prop := ch_closed c = false ∧ 0 < capacity c.

Definition stage_ok {C} (s : Stage (I := I) (A := A) C) : Prop :=
  channel_ok (st_in s) ∧ running (st_loop s) = true ∧ shutdown (st_loop s) = false.

Definition stage_wf {C} (on : bool) (o : option (Stage (I := I) (A := A) C)) : Prop :=
  match o with Some s => on = true ∧ stage_ok s | None => on = false end.

(** The tasks are running and their channels open; no internal query is
    beyond [SerfQueries]. *)
Record pipeline_ok (opts : Options) p : Prop := {
  po_stream : channel_ok (stream_ch p);
  po_queries : channel_ok (queries_ch p);
  po_out : channel_ok (out_ch p);
  po_user : stage_wf (coalesces_users opts) (user_stage p);
  po_member : stage_wf (coalesces_members opts) (member_stage p);
  po_public : Forall (λ ev, is_internal_query ev = false) (after_queries p ++ option_list (hand p));
}.

Lemma out_public opts p : pipeline_ok opts p → Forall (λ ev, is_internal_query ev = false) (queue (out_ch p)).
Proof.
  intros [_ _ _ _ _ Hpub]. unfold after_queries, after_user in Hpub. rewrite <- !app_assoc in Hpub.
  by apply Forall_app in Hpub as [? _].
Qed.

Lemma recv_queue c ev c' :
  recv c = (Some ev, c') → queue c = ev :: queue c' ∧ ch_closed c' = ch_closed c ∧ capacity c' = capacity c.
Proof. unfold recv. destruct (queue c); intros; simplify_eq. done. Qed.

Lemma poll_send_queue c ev c' :
  ch_closed c = false → poll_send c ev = Some c' →
  queue c' = queue c ++ [ev] ∧ ch_closed c' = false ∧ capacity c' = capacity c.
Proof. intros Hc. unfold poll_send. rewrite Hc. case_match; intros; by simplify_eq. Qed.

Lemma channel_send_ok c ev c' : channel_ok c → poll_send c ev = Some c' → queue c' = queue c ++ [ev] ∧ channel_ok c'.
Proof.
  intros [Hc Hcap] Hs. apply poll_send_queue in Hs as (? & ? & Hcap'); [|done].
  unfold channel_ok. by rewrite Hcap'.
Qed.

Lemma channel_recv_ok c ev c' : channel_ok c → recv c = (Some ev, c') → queue c = ev :: queue c' ∧ channel_ok c'.
Proof. intros [Hc Hcap] (? & Hc' & Hcap')%recv_queue. unfold channel_ok. by rewrite Hc', Hcap'. Qed.

Lemma offer_queue c ev :
  channel_ok c →
  channel_ok (offer c ev) ∧
  ((length (queue c) < capacity c ∧ queue (offer c ev) = queue c ++ [ev]) ∨
   (capacity c ≤ length (queue c) ∧ queue (offer c ev) = queue c)).
Proof.
  intros [Hc Hcap]. unfold offer, poll_send, channel_ok. rewrite Hc. case_match eqn:E; simpl; split_and!; try done.
  - left. by apply Nat.ltb_lt in E.
  - right. by apply Nat.ltb_ge in E.
Qed.

(** What an iteration of a coalescing task does. *)
Definition timers {C} (s : Stage (I := I) (A := A) C) : nat :=
  length (option_list (quantum (st_loop s))) + length (option_list (quiescent (st_loop s))).

Inductive stage_effect {C} `{!Coalescer C (CrateEvent I A)} (s s' : Stage C) : Prop :=
| effect_take ev :
    queue (st_in s) = ev :: queue (st_in s') → handle (coalescer (st_loop s)) ev = true →
    out (st_loop s') = [] → coalescer (st_loop s') = coalesce (coalescer (st_loop s)) ev →
    timers s' ≤ 2 → stage_effect s s'
| effect_pass ev :
    queue (st_in s) = ev :: queue (st_in s') → handle (coalescer (st_loop s)) ev = false →
    out (st_loop s') = [ev] → coalescer (st_loop s') = coalescer (st_loop s) →
    timers s' ≤ timers s → stage_effect s s'
| effect_flush :
    queue (st_in s) = queue (st_in s') → out (st_loop s') = (flush (coalescer (st_loop s))).1 →
    coalescer (st_loop s') = (flush (coalescer (st_loop s))).2 →
    timers s' < timers s → stage_effect s s'.

Lemma stage_step_effect {C} `{!Coalescer C (CrateEvent I A)} cp qp t (s s' : Stage C) :
  stage_ok s → stage_step cp qp t s s' → out (st_loop s) = [] ∧ stage_ok s' ∧ stage_effect s s'.
Proof.
  intros (Hc & Hr & Hs) Hstep. destruct Hstep as [s ev c tq tz st' Ho Hrecv Hl|s b tq tz st' Ho Hb Hl];
    (split; [done|]); unfold loop_step in Hl; rewrite Hr in Hl.
  - destruct (channel_recv_ok _ _ _ Hc Hrecv) as [Hq Hc'].
    destruct (handle _ ev) eqn:Hh; injection Hl as <-; rewrite ?Ho; (split; [by split_and!|]).
    + eapply effect_take; try done. unfold timers. cbn. destruct tq, (quantum (st_loop s)); cbn; lia.
    + eapply effect_pass; try done. unfold timers. cbn.
      destruct tq, tz, (quantum (st_loop s)), (quiescent (st_loop s)); cbn; lia.
  - destruct (flush (coalescer (st_loop s))) as [evs c'] eqn:Hf.
    assert (∃ d, (quantum (st_loop s) = Some d ∨ quiescent (st_loop s) = Some d) ∧
      st' = mkLState c' None None (shutdown (st_loop s)) (out (st_loop s) ++ evs) (negb (shutdown (st_loop s))))
      as (d & Hd & ->).
    { destruct Hb as [-> | ->]; [destruct (quantum (st_loop s)) as [d|] | destruct (quiescent (st_loop s)) as [d|]];
        try done; (destruct (d <=? t)%Z; [|done]); cbn in Hl; injection Hl as <-; eauto. }
    rewrite Hs, Ho. split; [by split_and!|]. eapply effect_flush; cbn; rewrite ?Hf, ?Ho; try done.
    unfold timers. cbn. destruct Hd as [-> | ->]; cbn; lia.
Qed.

(** Sending on. *)
Lemma to_member_line opts p ev p' :
  pipeline_ok opts p → to_member p ev = Some p' →
  after_user p' = after_user p ++ [ev] ∧ channel_ok (out_ch p') ∧
  stage_wf (coalesces_members opts) (member_stage p') ∧ held_members p' = held_members p ∧
  p' = set_member (set_out p (out_ch p') (received p)) (member_stage p').
Proof.
  intros [_ _ Ho _ Hm _]. unfold to_member, after_user, held_members.
  destruct (member_stage p) as [s|] eqn:Hs.
  - destruct Hm as (Hon & Hc & Hr). destruct (poll_send (st_in s) ev) as [c|] eqn:Hp; [|done].
    intros [= <-]. apply (channel_send_ok _ _ _ Hc) in Hp as [Hq Hc']. cbn. rewrite Hq, !app_assoc.
    by split_and!.
  - destruct (poll_send (out_ch p) ev) as [c|] eqn:Hp; [|done]. intros [= <-].
    apply (channel_send_ok _ _ _ Ho) in Hp as [Hq Hc']. cbn. rewrite Hs, Hq, !app_nil_r.
    split_and!; try done. destruct p; cbn in *; by subst.
Qed.

Lemma to_user_line opts p ev p' :
  pipeline_ok opts p → to_user p ev = Some p' →
  after_queries p' = after_queries p ++ [ev] ∧ channel_ok (out_ch p') ∧
  stage_wf (coalesces_users opts) (user_stage p') ∧ stage_wf (coalesces_members opts) (member_stage p') ∧
  held_users p' = held_users p ∧ held_members p' = held_members p ∧
  p' = set_user (set_member (set_out p (out_ch p') (received p)) (member_stage p')) (user_stage p').
Proof.
  intros Hok. destruct Hok as [Hst Hqc Ho Hu Hm Hpub] eqn:E. clear E. unfold to_user.
  destruct (user_stage p) as [s|] eqn:Hs.
  - destruct Hu as (Hon & Hc & Hr). destruct (poll_send (st_in s) ev) as [c|] eqn:Hp; [|done].
    intros [= <-]. apply (channel_send_ok _ _ _ Hc) in Hp as [Hq Hc'].
    unfold after_queries, after_user, held_users, held_members. cbn. rewrite Hs, Hq. cbn. rewrite !app_assoc.
    by split_and!.
  - intros Ht. destruct (to_member_line _ _ _ _ Hok Ht) as (Ha & Ho' & Hm' & Hh & Hp).
    assert (user_stage p' = None) as Hs' by (rewrite Hp; exact Hs).
    unfold after_queries, held_users. rewrite Ha, Hs, Hs'. cbn. rewrite !app_nil_r. split_and!; try done.
    rewrite Hp at 1. destruct p; cbn in *; by subst.
Qed.

(** Whether the tee can pass an event on. *)
Definition room p : Prop := length (queue (queries_ch p)) < capacity (queries_ch p).
#[global] Instance room_dec p : Decision (room p) := decide _.

Definition lossy (opts : Options) p : bool := has_snapshot opts && bool_decide (¬ room p).

Lemma subscriber_recv_public (q : list (CrateEvent I A)) e q' :
  Forall (λ ev, is_internal_query ev = false) q → subscriber_recv q = (Some e, q') →
  ∃ ev, q = ev :: q' ∧ event_of ev = Some e.
Proof.
  intros Hf. destruct q as [|ev q]; [done|]. apply Forall_cons in Hf as [He _].
  destruct ev; cbn; intros; simplify_eq; eauto.
Qed.

(** The coalescers' steps. *)
Lemma user_step_line opts lossy p s s' :
  pipeline_ok opts p → user_stage p = Some s →
  stage_step (opt_user_coalesce_period opts) (opt_user_quiescent_period opts) (now p) s s' →
  pipeline_ok opts (set_user p (Some s')) ∧ lmove opts lossy (line_of p) (line_of (set_user p (Some s'))).
Proof.
  intros [Hs Hq Ho Hu Hm Hpub] Hus Hst. rewrite Hus in Hu. destruct Hu as [Hon Hok].
  destruct (stage_step_effect _ _ _ _ _ Hok Hst) as (Hout & Hok' & Heff).
  unfold after_queries in Hpub. rewrite Hus in Hpub. cbn in Hpub. rewrite Hout in Hpub.
  apply Forall_app in Hpub as [[Hau Hsq]%Forall_app Hhand]. cbn in Hsq.
  assert (∀ l, out (st_loop s') ++ queue (st_in s') = l → Forall (λ ev, is_internal_query ev = false) l →
    pipeline_ok opts (set_user p (Some s'))) as Hkeep.
  { intros l Hl Hf. constructor; try done. unfold after_queries. cbn. rewrite Hl.
    apply Forall_app. split; [apply Forall_app; by split|done]. }
  unfold line_of, after_queries, held_users. cbn. rewrite Hus. cbn. rewrite Hout. cbn.
  destruct Heff as [ev Hqe Hh Ho' Hc' _|ev Hqe Hh Ho' Hc' _|Hqe Ho' Hc' _].
  - rewrite Hqe in *. apply Forall_cons in Hsq as [_ Hsq]. split.
    { eapply Hkeep; [done|]. by rewrite Ho'. }
    rewrite Ho', Hc'. destruct ev as [|e| |]; try done. cbn. rewrite <- !app_assoc. cbn.
    by apply move_user_take.
  - rewrite Hqe in *. split; [eapply Hkeep; [done|by rewrite Ho']|]. rewrite Ho', Hc'. apply move_same.
  - rewrite Hqe in *. split.
    { eapply Hkeep; [done|]. rewrite Ho'. apply Forall_app. split; [|done]. cbn. apply Forall_fmap, Forall_true. done. }
    rewrite Ho', Hc', <- !app_assoc. by apply move_user_flush.
Qed.

Lemma member_step_line opts lossy p s s' :
  pipeline_ok opts p → member_stage p = Some s →
  stage_step (opt_coalesce_period opts) (opt_quiescent_period opts) (now p) s s' →
  pipeline_ok opts (set_member p (Some s')) ∧ lmove opts lossy (line_of p) (line_of (set_member p (Some s'))).
Proof.
  intros [Hs Hq Ho Hu Hm Hpub] Hms Hst. rewrite Hms in Hm. destruct Hm as [Hon Hok].
  destruct (stage_step_effect _ _ _ _ _ Hok Hst) as (Hout & Hok' & Heff).
  unfold after_queries, after_user in Hpub. rewrite Hms in Hpub. cbn in Hpub. rewrite Hout in Hpub.
  apply Forall_app in Hpub as [[[Hau Hsq]%Forall_app Hus]%Forall_app Hhand]. cbn in Hsq.
  assert (∀ l, out (st_loop s') ++ queue (st_in s') = l → Forall (λ ev, is_internal_query ev = false) l →
    pipeline_ok opts (set_member p (Some s'))) as Hkeep.
  { intros l Hl Hf. constructor; try done. unfold after_queries, after_user. cbn. rewrite Hl.
    rewrite !Forall_app. by split_and!. }
  unfold line_of, after_queries, after_user, held_members. cbn. rewrite Hms. cbn. rewrite Hout. cbn.
  destruct Heff as [ev Hqe Hh Ho' Hc' _|ev Hqe Hh Ho' Hc' _|Hqe Ho' Hc' _].
  - rewrite Hqe in *. apply Forall_cons in Hsq as [_ Hsq]. split.
    { eapply Hkeep; [done|]. by rewrite Ho'. }
    rewrite Ho', Hc'. destruct ev as [e| | |]; try done. cbn. rewrite <- !app_assoc. cbn.
    by apply move_member_take.
  - rewrite Hqe in *. split; [eapply Hkeep; [done|by rewrite Ho']|]. rewrite Ho', Hc'. apply move_same.
  - rewrite Hqe in *. split.
    { eapply Hkeep; [done|]. rewrite Ho'. apply Forall_app. split; [|done]. cbn.
      destruct (member_flush_sends (coalescer (st_loop s))) as (evs & -> & _).
      apply Forall_fmap, Forall_true. done. }
    rewrite Ho', Hc', <- !app_assoc. by apply move_member_flush.
Qed.

Lemma sent_stage_wf {C} on (s : Stage (I := I) (A := A) C) :
  stage_wf on (Some s) → stage_wf on (Some (stage_sent s)).
Proof. done. Qed.

Lemma user_send_line opts lossy p s ev p' :
  pipeline_ok opts p → user_stage p = Some s → head (out (st_loop s)) = Some ev → to_member p ev = Some p' →
  pipeline_ok opts (set_user p' (Some (stage_sent s))) ∧
  lmove opts lossy (line_of p) (line_of (set_user p' (Some (stage_sent s)))).
Proof.
  intros Hok Hus Hhd Ht. destruct (to_member_line _ _ _ _ Hok Ht) as (Ha & Ho' & Hm' & Hh & Hp').
  destruct Hok as [Hs Hq Ho Hu Hm Hpub].
  destruct (out (st_loop s)) as [|ev0 rest] eqn:Hout; [done|]. cbn in Hhd. injection Hhd as ->.
  assert (after_queries (set_user p' (Some (stage_sent s))) = after_queries p) as Hl.
  { unfold after_queries. change (after_user (set_user _ _)) with (after_user p'). rewrite Ha, Hus. cbn.
    rewrite Hout. cbn. by rewrite <- app_assoc. }
  split.
  - rewrite Hus in Hu. constructor; rewrite ?Hl; try done; rewrite Hp'; done.
  - replace (line_of (set_user p' (Some (stage_sent s)))) with (line_of p); [apply move_same|].
    unfold line_of. rewrite Hl. change (held_members (set_user _ _)) with (held_members p'). rewrite Hh.
    unfold held_users. cbn. rewrite Hus, Hp'. done.
Qed.

Lemma member_send_line opts lossy p s ev c :
  pipeline_ok opts p → member_stage p = Some s → head (out (st_loop s)) = Some ev →
  poll_send (out_ch p) ev = Some c →
  let p' := set_member (set_out p c (received p)) (Some (stage_sent s)) in
  pipeline_ok opts p' ∧ lmove opts lossy (line_of p) (line_of p').
Proof.
  intros [Hs Hq Ho Hu Hm Hpub] Hms Hhd Hc p'. apply (channel_send_ok _ _ _ Ho) in Hc as [Hc Hok'].
  destruct (out (st_loop s)) as [|ev0 rest] eqn:Hout; [done|]. cbn in Hhd. injection Hhd as ->.
  assert (after_queries p' = after_queries p) as Hl.
  { unfold after_queries, after_user. cbn. rewrite Hms, Hc. cbn. rewrite Hout. cbn.
    rewrite <- !app_assoc. cbn. by rewrite <- !app_assoc. }
  split; [rewrite Hms in Hm; constructor; rewrite ?Hl; done|].
  replace (line_of p') with (line_of p); [apply move_same|].
  unfold line_of. rewrite Hl. unfold held_members. cbn. by rewrite Hms.
Qed.

(** One step of the chain is one move of the line. *)
Lemma task_step_line opts p p' :
  pipeline_ok opts p → task_step opts p p' →
  pipeline_ok opts p' ∧ lmove opts (lossy opts p) (line_of p) (line_of p').
Proof.
  intros Hok Hstep. destruct Hok as [Hs Hq Ho Hu Hm Hpub] eqn:E. clear E.
  destruct Hstep as [p ev rest Hsn Hp|p ev rest c Hsn Hp Hc|p ev c Hr|p ev c Hh Hr Hi|p ev c Hh Hr Hi
    |p ev p' Hh Ht|p s s' Hus Hst|p s ev p' Hus Hhd Ht|p s s' Hms Hst|p s ev c Hms Hhd Hc|p e q Hr].
  - destruct (offer_queue (stream_ch p) ev Hs) as (Hs' & _).
    destruct (offer_queue (queries_ch p) ev Hq) as (Hq' & Hcase). split; [by constructor|].
    unfold line_of, tee. cbn. rewrite Hp. destruct Hcase as [[_ ->]|[Hfull ->]].
    + rewrite <- !app_assoc. apply move_same.
    + rewrite !(app_assoc _ _ (ev :: rest)), !(app_assoc _ _ rest). apply move_lose.
      unfold lossy. rewrite Hsn. cbn. apply bool_decide_eq_true. unfold room. lia.
  - apply (channel_send_ok _ _ _ Hq) in Hc as [Hc Hok']. split; [by constructor|].
    unfold line_of. cbn. rewrite Hp, Hc, <- !app_assoc. apply move_same.
  - apply (channel_recv_ok _ _ _ Hs) in Hr as [_ Hok']. split; [by constructor|]. apply move_same.
  - apply (channel_recv_ok _ _ _ Hq) in Hr as [Hr Hok']. rewrite Hh in Hpub. split; [by constructor|].
    unfold line_of. cbn. rewrite Hh, Hr. cbn. by apply move_answer.
  - apply (channel_recv_ok _ _ _ Hq) in Hr as [Hr Hok']. rewrite Hh, app_nil_r in Hpub. split.
    { constructor; try done. cbn. apply Forall_app. by split; [|repeat constructor]. }
    unfold line_of. cbn. rewrite Hh, Hr. cbn. apply move_same.
  - destruct (to_user_line _ _ _ _ Hok Ht) as (Ha & Ho' & Hu' & Hm' & Hhu & Hhm & Hp').
    rewrite Hh in Hpub. cbn in Hpub. split.
    { rewrite Hp' in *. constructor; try done. cbn. rewrite app_nil_r. cbn in Ha. unfold after_queries, after_user in *.
      cbn in *. by rewrite Ha. }
    replace (line_of (set_queries p' (queries_ch p') None (spawned_queries p'))) with (line_of p);
      [apply move_same|].
    unfold line_of. change (held_users (set_queries _ _ _ _)) with (held_users p').
    change (held_members (set_queries _ _ _ _)) with (held_members p').
    change (after_queries (set_queries _ _ _ _)) with (after_queries p'). rewrite Hhu, Hhm, Ha, Hh, Hp'. cbn.
    by rewrite <- app_assoc.
  - by apply (user_step_line _ _ _ _ _ Hok Hus).
  - by apply (user_send_line _ _ _ _ _ _ Hok Hus Hhd).
  - by apply (member_step_line _ _ _ _ _ Hok Hms).
  - by apply (member_send_line _ _ _ _ _ _ Hok Hms Hhd).
  - pose proof (out_public _ _ Hok) as Hpo.
    destruct (subscriber_recv_public _ _ _ Hpo Hr) as (ev & Hqe & He). split.
    + constructor; try done. unfold after_queries, after_user in *. cbn. rewrite Hqe in Hpub.
      by apply Forall_cons in Hpub as [_ ?].
    + unfold line_of, after_queries, after_user. cbn. rewrite Hqe. by apply move_receive.
Qed.

Lemma pstep_line opts p p' :
  pipeline_ok opts p → pstep opts p p' →
  pipeline_ok opts p' ∧ lmove opts (lossy opts p) (line_of p) (line_of p').
Proof.
  intros Hok Hp. destruct Hp as [p p' Hstep|p ev|p t Ht].
  - by apply task_step_line.
  - destruct Hok. split; [by constructor|]. unfold line_of. cbn. rewrite !app_assoc. apply move_emit.
  - destruct Hok. split; [by constructor|]. apply move_same.
Qed.

Lemma pipeline_start_ok opts cap : 0 < cap → pipeline_ok opts (start_pipeline (I := I) (A := A) opts cap).
Proof.
  intros Hcap. constructor; cbn.
  - unfold channel_ok, EVENT_CH_SIZE. cbn. split; [done|lia].
  - unfold channel_ok, QUERIES_CH_SIZE. cbn. split; [done|lia].
  - done.
  - destruct (coalesces_users opts); [|done]. split; [done|]. split; [|done].
    split; [done|]. by apply Nat.ltb_lt.
  - destruct (coalesces_members opts); [|done]. split; [done|]. split; [|done].
    split; [done|]. by apply Nat.ltb_lt.
  - unfold after_queries, after_user. cbn. by destruct (coalesces_users opts), (coalesces_members opts).
Qed.

Lemma start_line opts cap :
  line_of (start_pipeline (I := I) (A := A) opts cap) = mkLine [] [] new_user_coalescer new_member_coalescer [].
Proof.
  unfold line_of, start_pipeline, after_queries, after_user, held_users, held_members. cbn.
  by destruct (coalesces_users opts), (coalesces_members opts).
Qed.

(** ** The tasks come to rest *)

(** The weight of an event in the member coalescer's channel, and before the
    user coalescer; an event weighs less the further it gets. *)
Definition member_weight ev : nat :=
  match ev with EvMember e => 5 + 2 * length (me_members e) | _ => 5 end.
Definition user_weight ev : nat := 10 + member_weight ev.
#[local] Arguments user_weight : simpl never.
#[local] Arguments contents : simpl never.

Definition member_stage_weight (o : option (Stage (I := I) (A := A) (MemberEventCoalescer (I := I) (A := A)))) : nat :=
  match o with
  | Some s => 2 * length (out (st_loop s)) + sum_list_with member_weight (queue (st_in s)) +
      2 * size (latest_events (coalescer (st_loop s))) + timers s
  | None => 0
  end.

Definition user_stage_weight (o : option (Stage (I := I) (A := A) UserEventCoalescer)) : nat :=
  match o with
  | Some s => sum_list_with (λ ev, 1 + member_weight ev) (out (st_loop s)) +
      sum_list_with user_weight (queue (st_in s)) + 6 * length (contents (coalescer (st_loop s))) + timers s
  | None => 0
  end.

Definition weight p : nat :=
  length (queue (out_ch p)) + member_stage_weight (member_stage p) + user_stage_weight (user_stage p) +
  sum_list_with (λ ev, 1 + user_weight ev) (option_list (hand p)) +
  sum_list_with (λ ev, 2 + user_weight ev) (queue (queries_ch p)) +
  length (queue (stream_ch p)) + sum_list_with (λ ev, 4 + user_weight ev) (pending p).

Lemma poll_send_weight (f : CrateEvent I A → nat) c ev c' :
  poll_send c ev = Some c' → sum_list_with f (queue c') ≤ sum_list_with f (queue c) + f ev.
Proof.
  unfold poll_send. repeat case_match; intros; simplify_eq; cbn; [lia|].
  rewrite sum_list_with_app. cbn. lia.
Qed.

Lemma poll_send_length c ev c' : poll_send c ev = Some c' → length (queue c') ≤ length (queue c) + 1.
Proof. unfold poll_send. repeat case_match; intros; simplify_eq; cbn; [lia|]. rewrite length_app. cbn. lia. Qed.

Lemma offer_weight (f : CrateEvent I A → nat) c ev :
  sum_list_with f (queue (offer c ev)) ≤ sum_list_with f (queue c) + f ev ∧
  length (queue (offer c ev)) ≤ length (queue c) + 1.
Proof.
  unfold offer. destruct (poll_send c ev) as [c'|] eqn:Hp; cbn; [|lia].
  split; [by apply poll_send_weight|by eapply poll_send_length].
Qed.

Lemma member_step_weight cp qp t s s' :
  stage_ok s → stage_step cp qp t s s' →
  member_stage_weight (Some s') < member_stage_weight (Some s).
Proof.
  intros Hok Hst. destruct (stage_step_effect _ _ _ _ _ Hok Hst) as (Hout & _ & Heff). cbn [member_stage_weight].
  rewrite Hout. destruct Heff as [ev Hqe Hh Ho' Hc' Ht|ev Hqe Hh Ho' Hc' Ht|Hqe Ho' Hc' Ht];
    rewrite Ho', Hc', Hqe; cbn [sum_list_with length].
  - destruct ev as [e| | |]; try done. cbn [coalesce member_coalescer member_coalesce member_weight].
    pose proof (insert_latest_size (me_ty e) (me_members e) (coalescer (st_loop s))). lia.
  - destruct ev; cbn; lia.
  - cbn [flush member_coalescer].
    destruct (member_flush_sends (coalescer (st_loop s))) as (evs & -> & Hlen & -> & _).
    rewrite map_size_empty, length_fmap. lia.
Qed.

Lemma user_step_weight cp qp t s s' :
  stage_ok s → stage_step cp qp t s s' → user_stage_weight (Some s') < user_stage_weight (Some s).
Proof.
  intros Hok Hst. destruct (stage_step_effect _ _ _ _ _ Hok Hst) as (Hout & _ & Heff). cbn [user_stage_weight].
  rewrite Hout. destruct Heff as [ev Hqe Hh Ho' Hc' Ht|ev Hqe Hh Ho' Hc' Ht|Hqe Ho' Hc' Ht];
    rewrite Ho', Hc', Hqe; cbn [sum_list_with].
  - destruct ev as [|e| |]; try done. cbn [coalesce user_coalescer user_coalesce].
    pose proof (submseteq_length _ _ (contents_coalesce (coalescer (st_loop s)) e)) as Hl.
    rewrite length_app in Hl. unfold user_weight. cbn in *. lia.
  - unfold user_weight. lia.
  - cbn [flush user_coalescer user_flush fst snd]. fold (contents (coalescer (st_loop s))).
    assert (∀ l, sum_list_with (λ ev, 1 + member_weight ev) (EvUser <$> l) = 6 * length l) as ->.
    { induction l as [|x l IH]; cbn in *; lia. }
    change (contents []) with (@nil UserEventMessage). cbn [length]. lia.
Qed.

Lemma to_member_weight p ev p' :
  to_member p ev = Some p' →
  length (queue (out_ch p')) + member_stage_weight (member_stage p') ≤
    length (queue (out_ch p)) + member_stage_weight (member_stage p) + member_weight ev ∧
  p' = set_member (set_out p (out_ch p') (received p)) (member_stage p').
Proof.
  unfold to_member. destruct (member_stage p) as [s|] eqn:Hs.
  - destruct (poll_send (st_in s) ev) as [c|] eqn:Hp; [|done]. intros [= <-]. cbn. split; [|done].
    apply (poll_send_weight member_weight) in Hp. unfold timers. cbn. lia.
  - destruct (poll_send (out_ch p) ev) as [c|] eqn:Hp; [|done]. intros [= <-]. cbn. rewrite Hs.
    split; [|destruct p; cbn in *; by subst]. apply poll_send_length in Hp. cbn. destruct ev; cbn; lia.
Qed.

Lemma to_user_weight p ev p' :
  to_user p ev = Some p' →
  length (queue (out_ch p')) + member_stage_weight (member_stage p') + user_stage_weight (user_stage p') ≤
    length (queue (out_ch p)) + member_stage_weight (member_stage p) + user_stage_weight (user_stage p) +
      user_weight ev ∧
  p' = set_user (set_member (set_out p (out_ch p') (received p)) (member_stage p')) (user_stage p').
Proof.
  unfold to_user. destruct (user_stage p) as [s|] eqn:Hs.
  - destruct (poll_send (st_in s) ev) as [c|] eqn:Hp; [|done]. intros [= <-]. cbn. split; [|done].
    apply (poll_send_weight user_weight) in Hp. unfold timers. cbn. lia.
  - intros Ht. destruct (to_member_weight _ _ _ Ht) as [Hw Hp].
    assert (user_stage p' = None) as Hs' by (rewrite Hp; exact Hs). rewrite Hs'. cbn. unfold user_weight.
    split; [lia|]. rewrite Hp at 1. destruct p; cbn in *; by subst.
Qed.

Lemma subscriber_recv_shorter (q : list (CrateEvent I A)) e q' :
  subscriber_recv q = (Some e, q') → length q' < length q.
Proof.
  induction q as [|ev q IH]; [done|]. cbn. destruct (event_of ev); intros Hr; simplify_eq; [lia|].
  apply IH in Hr. lia.
Qed.

(** Every step of a task takes weight off. *)
Lemma task_step_weight opts p p' : pipeline_ok opts p → task_step opts p p' → weight p' < weight p.
Proof.
  intros [Hs Hq Ho Hu Hm Hpub] Hstep.
  destruct Hstep as [p ev rest Hsn Hp|p ev rest c Hsn Hp Hc|p ev c Hr|p ev c Hh Hr Hi|p ev c Hh Hr Hi
    |p ev p' Hh Ht|p s s' Hus Hst|p s ev p' Hus Hhd Ht|p s s' Hms Hst|p s ev c Hms Hhd Hc|p e q Hr];
    unfold weight.
  - destruct (offer_weight (λ ev, 2 + user_weight ev) (queries_ch p) ev) as [H1 _].
    destruct (offer_weight (λ ev, 2 + user_weight ev) (stream_ch p) ev) as [_ H2].
    cbn in *. rewrite Hp. cbn. lia.
  - apply (poll_send_weight (λ ev, 2 + user_weight ev)) in Hc. cbn in *. rewrite Hp. cbn. lia.
  - apply recv_queue in Hr as [Hr _]. cbn. rewrite Hr. cbn. lia.
  - apply recv_queue in Hr as [Hr _]. cbn. rewrite Hr, Hh. cbn. lia.
  - apply recv_queue in Hr as [Hr _]. cbn. rewrite Hr, Hh. cbn. lia.
  - destruct (to_user_weight _ _ _ Ht) as [Hw Hp]. cbn. rewrite Hh.
    assert (queries_ch p' = queries_ch p ∧ stream_ch p' = stream_ch p ∧ pending p' = pending p) as (-> & -> & ->)
      by (by rewrite Hp). cbn. lia.
  - rewrite Hus in *. destruct Hu as [_ Hok]. pose proof (user_step_weight _ _ _ _ _ Hok Hst). cbn [set_user out_ch
      member_stage user_stage hand queries_ch stream_ch pending]. lia.
  - destruct (to_member_weight _ _ _ Ht) as [Hw Hp].
    destruct (out (st_loop s)) as [|ev0 rest] eqn:Hout; [done|]. cbn in Hhd. injection Hhd as ->.
    assert (queries_ch p' = queries_ch p ∧ stream_ch p' = stream_ch p ∧ pending p' = pending p ∧ hand p' = hand p)
      as (E1 & E2 & E3 & E4) by (by rewrite Hp).
    cbn. rewrite Hus, E1, E2, E3, E4. cbn. unfold timers. cbn. rewrite Hout. cbn. lia.
  - rewrite Hms in *. destruct Hm as [_ Hok]. pose proof (member_step_weight _ _ _ _ _ Hok Hst). cbn [set_member out_ch
      member_stage user_stage hand queries_ch stream_ch pending]. lia.
  - apply poll_send_length in Hc.
    destruct (out (st_loop s)) as [|ev0 rest] eqn:Hout; [done|].
    cbn. rewrite Hms. cbn. unfold timers. cbn. rewrite Hout. cbn. lia.
  - apply subscriber_recv_shorter in Hr. cbn. lia.
Qed.

Lemma task_run_bounded opts n p p' :
  pipeline_ok opts p → nsteps (task_step opts) n p p' → n + weight p' ≤ weight p.
Proof.
  intros Hok Hn. induction Hn as [p|n p p1 p' Hstep _ IH]; [lia|].
  pose proof (task_step_weight _ _ _ Hok Hstep). apply (task_step_line _ _ _ Hok) in Hstep as [Hok' _].
  specialize (IH Hok'). lia.
Qed.

Lemma poll_send_empty c ev : channel_ok c → queue c = [] → is_Some (poll_send c ev).
Proof.
  intros [Hc Hcap] Hq. unfold poll_send. rewrite Hc, Hq. cbn [length].
  by rewrite (proj2 (Nat.ltb_lt _ _) Hcap).
Qed.

Lemma stage_can_take {C} `{!Coalescer C (CrateEvent I A)} cp qp t (s : Stage C) ev q :
  stage_ok s → out (st_loop s) = [] → queue (st_in s) = ev :: q → ∃ s', stage_step cp qp t s s'.
Proof.
  intros (Hc & Hr & _) Ho Hq.
  destruct (loop_step cp qp t true true None (BEvent ev) (st_loop s)) as [st'|] eqn:Hl.
  - eexists. eapply stage_event with (ev := ev); [done| |exact Hl]. unfold recv. by rewrite Hq.
  - unfold loop_step in Hl. rewrite Hr in Hl. destruct (handle _ ev); done.
Qed.

(** A task waits only for one further down. *)
Lemma rest_after_user opts p :
  pipeline_ok opts p → (∀ p', ¬ task_step opts p p') →
  queue (out_ch p) = [] ∧ stage_events (member_stage p) = [].
Proof.
  intros Hok Hrest. destruct Hok as [Hs Hq Ho Hu Hm Hpub] eqn:E. clear E.
  assert (queue (out_ch p) = []) as Hout.
  { clear Hpub. pose proof (out_public _ _ Hok) as Hpub.
    destruct (queue (out_ch p)) as [|ev q] eqn:Hqe; [done|]. apply Forall_cons in Hpub as [Hev _].
    destruct (event_of ev) as [e|] eqn:He; [|by destruct ev].
    destruct (Hrest _ (step_receive opts p e q ltac:(rewrite Hqe; cbn; by rewrite He))). }
  split; [done|]. destruct (member_stage p) as [s|] eqn:Hms; [|done]. destruct Hm as [_ Hsok]. cbn.
  destruct (out (st_loop s)) as [|ev l] eqn:Hso.
  - destruct (queue (st_in s)) as [|ev q] eqn:Hqe; [done|].
    destruct (stage_can_take (opt_coalesce_period opts) (opt_quiescent_period opts) (now p) s ev q Hsok Hso Hqe)
      as [s' Hst]. destruct (Hrest _ (step_member opts p s s' Hms Hst)).
  - destruct (poll_send_empty (out_ch p) ev Ho Hout) as [c Hc].
    destruct (Hrest _ (step_member_send opts p s ev c Hms ltac:(by rewrite Hso) Hc)).
Qed.

Lemma to_member_free opts p ev :
  pipeline_ok opts p → queue (out_ch p) = [] → stage_events (member_stage p) = [] → is_Some (to_member p ev).
Proof.
  intros [Hs Hq Ho Hu Hm Hpub] Hout Hse. unfold to_member. destruct (member_stage p) as [s|].
  - apply app_nil in Hse as [_ Hse]. destruct Hm as (_ & Hc & _).
    destruct (poll_send_empty (st_in s) ev Hc Hse) as [c ->]. by eexists.
  - destruct (poll_send_empty (out_ch p) ev Ho Hout) as [c ->]. by eexists.
Qed.

Lemma rest_after_queries opts p :
  pipeline_ok opts p → (∀ p', ¬ task_step opts p p') → after_queries p = [].
Proof.
  intros Hok Hrest. destruct (rest_after_user _ _ Hok Hrest) as [Hout Hmem].
  unfold after_queries, after_user. rewrite Hout, Hmem. cbn.
  destruct (user_stage p) as [s|] eqn:Hus; [|done]. pose proof (po_user _ _ Hok) as Hu. rewrite Hus in Hu.
  destruct Hu as [_ Hsok]. cbn. destruct (out (st_loop s)) as [|ev l] eqn:Hso.
  - destruct (queue (st_in s)) as [|ev q] eqn:Hqe; [done|].
    destruct (stage_can_take (opt_user_coalesce_period opts) (opt_user_quiescent_period opts) (now p) s ev q
      Hsok Hso Hqe) as [s' Hst]. destruct (Hrest _ (step_user opts p s s' Hus Hst)).
  - destruct (to_member_free _ _ ev Hok Hout Hmem) as [p' Hp'].
    destruct (Hrest _ (step_user_send opts p s ev p' Hus ltac:(by rewrite Hso) Hp')).
Qed.

Lemma to_user_free opts p ev : pipeline_ok opts p → after_queries p = [] → is_Some (to_user p ev).
Proof.
  intros Hok [[Hout Hmem]%app_nil Huse]%app_nil. unfold to_user. pose proof (po_user _ _ Hok) as Hu.
  destruct (user_stage p) as [s|]; [|by eapply to_member_free].
  apply app_nil in Huse as [_ Huse]. destruct Hu as (_ & Hc & _).
  destruct (poll_send_empty (st_in s) ev Hc Huse) as [c ->]. by eexists.
Qed.

(** Where no task can go on, nothing is on its way. *)
Lemma rest_empty opts p :
  pipeline_ok opts p → (∀ p', ¬ task_step opts p p') → l_line (line_of p) = [].
Proof.
  intros Hok Hrest. pose proof (rest_after_queries _ _ Hok Hrest) as Ha. cbn. rewrite Ha. cbn.
  destruct (hand p) as [ev|] eqn:Hh.
  { destruct (to_user_free _ _ ev Hok Ha) as [p' Hp']. destruct (Hrest _ (step_forward opts p ev p' Hh Hp')). }
  cbn. destruct (queue (queries_ch p)) as [|ev q] eqn:Hq.
  - destruct (pending p) as [|ev q] eqn:Hp; [done|]. destruct (has_snapshot opts) eqn:Hsn.
    + destruct (Hrest _ (step_tee opts p ev q Hsn Hp)).
    + destruct (poll_send_empty (queries_ch p) ev (po_queries _ _ Hok) Hq) as [c Hc].
      destruct (Hrest _ (step_direct opts p ev q c Hsn Hp Hc)).
  - assert (recv (queries_ch p) = (Some ev, mkChannel (capacity (queries_ch p)) q (ch_closed (queries_ch p))))
      as Hr by (unfold recv; by rewrite Hq).
    destruct (is_internal_query ev) eqn:Hi.
    + destruct (Hrest _ (step_answer opts p ev _ Hh Hr Hi)).
    + destruct (Hrest _ (step_take opts p ev _ Hh Hr Hi)).
Qed.

(** And it is a rest when the timers are off and all channels empty. *)
Definition idle {C} (o : option (Stage (I := I) (A := A) C)) : Prop :=
  match o with
  | Some s => out (st_loop s) = [] ∧ queue (st_in s) = [] ∧ quantum (st_loop s) = None ∧
      quiescent (st_loop s) = None
  | None => True
  end.

Lemma idle_stage {C} `{!Coalescer C (CrateEvent I A)} cp qp t (s s' : Stage C) :
  idle (Some s) → ¬ stage_step cp qp t s s'.
Proof.
  intros (Ho & Hq & Hqu & Hz) Hst. destruct Hst as [s ev c tq tz st' _ Hr _|s b tq tz st' _ Hb Hl].
  - unfold recv in Hr. by rewrite Hq in Hr.
  - unfold loop_step in Hl. rewrite Hqu, Hz in Hl. by destruct (running _), Hb as [-> | ->].
Qed.

Lemma quiet_rests opts p :
  pending p = [] → queue (stream_ch p) = [] → queue (queries_ch p) = [] → hand p = None →
  queue (out_ch p) = [] → idle (user_stage p) → idle (member_stage p) → ∀ p', ¬ task_step opts p p'.
Proof.
  intros Hp Hs Hq Hh Ho Hu Hm p' Hst.
  destruct Hst as [p ev rest Hsn Hpe|p ev rest c Hsn Hpe Hc|p ev c Hr|p ev c Hha Hr Hi|p ev c Hha Hr Hi
    |p ev p' Hha Ht|p s s' Hus Hst|p s ev p' Hus Hhd Ht|p s s' Hms Hst|p s ev c Hms Hhd Hc|p e q Hr];
    try congruence; try (unfold recv in Hr; congruence).
  - unfold recv in Hr. by rewrite Hs in Hr.
  - unfold recv in Hr. by rewrite Hq in Hr.
  - unfold recv in Hr. by rewrite Hq in Hr.
  - rewrite Hus in Hu. by destruct (idle_stage _ _ _ _ _ Hu Hst).
  - rewrite Hus in Hu. destruct Hu as (Hso & _). by rewrite Hso in Hhd.
  - rewrite Hms in Hm. by destruct (idle_stage _ _ _ _ _ Hm Hst).
  - rewrite Hms in Hm. destruct Hm as (Hso & _). by rewrite Hso in Hhd.
  - by rewrite Ho in Hr.
Qed.

(** ** What the application sees *)

Lemma psteps_ok opts cap p :
  0 < cap → psteps opts (start_pipeline opts cap) p → pipeline_ok opts p ∧ line_ok opts (line_of p).
Proof.
  intros Hcap. revert p. refine (rtc_ind_r _ _ _ _).
  - split; [by apply pipeline_start_ok|]. rewrite start_line. constructor; try done.
    intros ty m [(e & He & _)|(n & Hn)]; cbn in *; [by apply not_elem_of_nil in He|by rewrite lookup_empty in Hn].
  - intros p p' _ Hstep [Hok Hl]. destruct (pstep_line _ _ _ Hok Hstep) as [Hok' Hm].
    split; [done|]. by eapply lmove_ok.
Qed.

(** Runs in which the tee always finds room, or there is no tee. *)
Definition roomy opts p p' : Prop := pstep opts p p' ∧ (has_snapshot opts = false ∨ room p).

Lemma roomy_sight opts cap p :
  0 < cap → rtc (roomy opts) (start_pipeline opts cap) p →
  sight opts (in_flight (line_of p)) = sight opts (visible (emitted p)).
Proof.
  intros Hcap Hr.
  assert (pipeline_ok opts p ∧ line_ok opts (line_of p) ∧
    sight opts (in_flight (line_of p)) = sight opts (visible (emitted p))) as (_ & _ & Heq); [|done].
  revert p Hr. refine (rtc_ind_r _ _ _ _).
  - destruct (psteps_ok opts cap _ Hcap (rtc_refl _ _)) as [Hok Hl]. split_and!; [done..|]. by rewrite start_line.
  - intros p p' _ [Hstep Hroom] (Hok & Hl & Heq). destruct (pstep_line _ _ _ Hok Hstep) as [Hok' Hm].
    split; [done|]. split; [by eapply lmove_ok|].
    destruct (lmove_sight _ _ _ _ (lo_taken _ _ Hl) Hm) as (new & He & _ & Hs). cbn [l_emitted line_of] in He.
    rewrite He, <- Heq. apply Hs. unfold lossy. destruct Hroom as [->|Hroom]; [done|].
    rewrite (bool_decide_eq_false_2 (¬ room p)); [by rewrite andb_false_r|tauto].
Qed.

Lemma sight_received opts p :
  sight opts (in_flight (line_of p)) = sight opts (received p) ++ sight opts (visible (l_line (line_of p))).
Proof. apply sight_app. Qed.

Lemma poll_next_recv closed (q : list (CrateEvent I A)) :
  Forall (λ ev, is_internal_query ev = false) q →
  poll_next closed q =
    match subscriber_recv q with
    | (Some e, q) => (Ready (Some e), q)
    | (None, q) => (if closed then Ready None else Pending, q)
    end.
Proof. destruct q as [|[] q]; intros Hf; try done. by apply Forall_cons in Hf as [? _]. Qed.

(** The drain is a run of the tee that leaves nothing waiting. *)
Lemma tee_drained opts l : ∀ p,
  has_snapshot opts = true → pending p = l →
  rtc (task_step opts) p (tee_drain p l) ∧ pending (tee_drain p l) = [].
Proof.
  induction l as [|ev rest IH]; intros p Hsn Hp; cbn; [by split; [apply rtc_refl|]|].
  destruct (IH (tee p ev rest)) as [Hs Hn]; [done..|]. split; [|done]. eapply rtc_l; [by apply step_tee|done].
Qed.

Lemma visible_length (q : list (CrateEvent I A)) :
  Forall (λ ev, is_internal_query ev = false) q → length (visible q) = length q.
Proof. induction 1 as [|[] q Hev _ IH]; cbn; try done; by rewrite IH. Qed.

(** What the subscriber counts is what it can receive. *)
Lemma subscriber_counts opts cap p :
  0 < cap → psteps opts (start_pipeline opts cap) p →
  subscriber_len (out_ch p) = length (visible (queue (out_ch p))) ∧
  (subscriber_is_empty (out_ch p) = true ↔ (subscriber_recv (queue (out_ch p))).1 = None).
Proof.
  intros Hcap Hsteps. destruct (psteps_ok _ _ _ Hcap Hsteps) as [Hok _].
  pose proof (out_public _ _ Hok) as Hall. split; [by rewrite visible_length|]. unfold subscriber_is_empty.
  rewrite bool_decide_eq_true. destruct (queue (out_ch p)) as [|ev q]; [done|].
  apply Forall_cons in Hall as [Hev _]. by destruct ev.
Qed.

(** An unbounded producer never waits and loses nothing; a bounded one waits
    exactly when as many events as it has room for are unread. *)
Lemma producers_send (size : nat) c (evs : list (CrateEvent I A)) :
  ub_queue (foldl unbounded_send producer_unbounded evs) = evs ∧
  (producer_bounded size = Done c → ∀ (l : list (CrateEvent I A)) x, (length l ≤ size)%nat →
    (poll_send (mkChannel (capacity c) l false) x = None ↔ length l = size)).
Proof.
  split.
  - assert (∀ l, foldl unbounded_send (mkUnbounded l false) evs = mkUnbounded (l ++ evs) false) as E.
    { induction evs as [|x evs IH]; intros l; cbn; [by rewrite app_nil_r|]. by rewrite IH, <- app_assoc. }
    unfold producer_unbounded. by rewrite E.
  - unfold producer_bounded, bounded. destruct size as [|size]; [done|]. intros [= <-] l x Hl.
    unfold poll_send. cbn [ch_closed queue capacity]. destruct (length l <? S size)%nat eqn:E; bool_to_prop;
      [apply Nat.ltb_lt in E|apply Nat.ltb_ge in E]; split; try done; lia.
Qed.

(** C25: The events between the core and the application, with the tee, the
    internal-query task and the two coalescers where the options ask for them,
    in every interleaving of their tasks.  The events that no coalescer takes
    (queries and plain user events, and all events without coalescing) are
    received in the order they were emitted, none twice; of user events that
    are coalesced none is received more often than it was emitted, and a
    member is reported only with a type it was emitted with.  Left alone, the
    tasks come to rest within [weight] steps, and where they rest the
    application has every event that no coalescer takes, if the snapshotter's
    tee has always found room in the next channel; otherwise some may be
    missing.  Polled as a stream, the subscriber hands out what [recv] does. *)
Theorem events_reach_application opts cap p :
  0 < cap → psteps opts (start_pipeline opts cap) p →
  sight opts (received p) `sublist_of` sight opts (visible (emitted p)) ∧
  omap user_of (received p) ⊆+ omap user_of (visible (emitted p)) ∧
  (∀ ty m, reports (omap member_of (received p)) ty m →
    reports (omap member_of (visible (emitted p))) ty m) ∧
  (∀ n p', nsteps (task_step opts) n p p' → n ≤ weight p) ∧
  ((∀ p', ¬ task_step opts p p') → rtc (roomy opts) (start_pipeline opts cap) p →
    sight opts (received p) = sight opts (visible (emitted p))) ∧
  ∀ closed, poll_next closed (queue (out_ch p)) =
    match subscriber_recv (queue (out_ch p)) with
    | (Some e, q) => (Ready (Some e), q)
    | (None, q) => (if closed then Ready None else Pending, q)
    end.
Proof.
  intros Hcap Hsteps. destruct (psteps_ok _ _ _ Hcap Hsteps) as [Hok [Ho Hu _ Hm]].
  split_and!.
  - etrans; [|exact Ho]. rewrite sight_received. by apply sublist_inserts_r.
  - etrans; [|exact Hu]. unfold in_flight. rewrite omap_app, <- app_assoc. by apply submseteq_inserts_r.
  - intros ty m Hr. apply Hm. left. unfold in_flight. rewrite omap_app, reports_app. by left.
  - intros n p' Hn. apply (task_run_bounded _ _ _ _ Hok) in Hn. lia.
  - intros Hrest Hroom. rewrite <- (roomy_sight _ _ _ Hcap Hroom), sight_received, (rest_empty _ _ Hok Hrest).
    by rewrite app_nil_r.
  - intros closed. by eapply poll_next_recv, out_public.
Qed.

End facts.

(** ** The property at work *)

(** A join and an internal query, with the user coalescer in between. *)
Section witness.
Let join : CrateEvent nat nat := EvMember (mkMemberEvent MemberEventType.Join []).
Let internal : CrateEvent nat nat :=
  EvInternalQuery IQPing (mkQueryEvent 1 "_serf_ping" [] 10 None 7 (mkNode 1 1) 0)%nat.
(** The defaults, but for a user-event coalescing of 5 and 3. *)
Let opts : Options :=
  mkOptions [] PV1 DV1 PV1 DV1 200 5 1 0 0 5 3 15 30 86400 86400 60 30 128 300 4096 0 512 512 16 1024 1024
    None false true false None 512.

Let chan (n : nat) (q : list (CrateEvent nat nat)) := mkChannel n q false.
Let stage (out q : list (CrateEvent nat nat)) : Stage UserEventCoalescer :=
  mkStage (chan COALESCE_CH_SIZE q) (mkLState new_user_coalescer None None false out true).
Let at_ es pe qc h sp uo uq oq r : Pipeline nat nat :=
  mkPipeline es 0%Z pe (chan EVENT_CH_SIZE []) [] (chan QUERIES_CH_SIZE qc) h sp (Some (stage uo uq)) None
    (chan 1 oq) r.
Let seen : Event nat nat := EMember (mkMemberEvent MemberEventType.Join []).
Let both := [join; internal].

Let run : list (Pipeline nat nat) :=
  [at_ [] [] [] None [] [] [] [] []; at_ [join] [join] [] None [] [] [] [] [];
   at_ both both [] None [] [] [] [] []; at_ both [internal] [join] None [] [] [] [] [];
   at_ both [] both None [] [] [] [] []; at_ both [] [internal] (Some join) [] [] [] [] [];
   at_ both [] [internal] None [] [] [join] [] []; at_ both [] [] None [internal] [] [join] [] [];
   at_ both [] [] None [internal] [join] [] [] []; at_ both [] [] None [internal] [] [] [join] [];
   at_ both [] [] None [internal] [] [] [] [seen]].

Lemma sample_steps i p p' : run !! i = Some p → run !! S i = Some p' → pstep opts p p'.
Proof.
  destruct i as [|[|[|[|[|[|[|[|[|[|i]]]]]]]]]]; [intros [= <-] [= <-]..|by intros _ Hp].
  - exact (step_emit opts (at_ [] [] [] None [] [] [] [] []) join).
  - exact (step_emit opts (at_ [join] [join] [] None [] [] [] [] []) internal).
  - apply step_task. apply (step_direct opts (at_ both both [] None [] [] [] [] []) join [internal]
      (chan QUERIES_CH_SIZE [join])); reflexivity.
  - apply step_task. apply (step_direct opts (at_ both [internal] [join] None [] [] [] [] []) internal []
      (chan QUERIES_CH_SIZE both)); reflexivity.
  - apply step_task. apply (step_take opts (at_ both [] both None [] [] [] [] []) join
      (chan QUERIES_CH_SIZE [internal])); reflexivity.
  - apply step_task. apply (step_forward opts (at_ both [] [internal] (Some join) [] [] [] [] []) join
      (at_ both [] [internal] (Some join) [] [] [join] [] [])); reflexivity.
  - apply step_task. apply (step_answer opts (at_ both [] [internal] None [] [] [join] [] []) internal
      (chan QUERIES_CH_SIZE [])); reflexivity.
  - apply step_task.
    apply (step_user opts (at_ both [] [] None [internal] [] [join] [] []) (stage [] [join]) (stage [join] []));
      [reflexivity|].
    apply (stage_event _ _ _ _ join (chan COALESCE_CH_SIZE []) true true); reflexivity.
  - apply step_task. apply (step_user_send opts (at_ both [] [] None [internal] [join] [] [] []) (stage [join] []) join
      (at_ both [] [] None [internal] [join] [] [join] [])); reflexivity.
  - apply step_task. apply (step_receive opts (at_ both [] [] None [internal] [] [] [join] []) seen []). reflexivity.
Qed.

Lemma sample_run i p : run !! i = Some p → rtc (roomy opts) (start_pipeline opts 1) p.
Proof.
  revert p. induction i as [|i IH]; intros p Hp; [injection Hp as <-; apply rtc_refl|].
  destruct (run !! i) as [p0|] eqn:Hp0.
  - eapply rtc_r; [by apply IH|]. split; [by eapply sample_steps|by left].
  - apply lookup_ge_None in Hp0. apply lookup_lt_Some in Hp. lia.
Qed.

Lemma events_reach_application_witness :
  ∃ p, psteps opts (start_pipeline opts 1) p ∧ emitted p = [join; internal] ∧
    sight opts (received p) = sight opts (omap event_of (emitted p)) ∧
    received p = [seen] ∧ spawned_queries p = [internal].
Proof.
  exists (at_ both [] [] None [internal] [] [] [] [seen]).
  assert (rtc (roomy opts) (start_pipeline opts 1) (at_ both [] [] None [internal] [] [] [] [seen])) as Hp
    by (by apply (sample_run 10)).
  assert (psteps opts (start_pipeline opts 1) (at_ both [] [] None [internal] [] [] [] [seen])) as Hps
    by (eapply rtc_subrel; [|exact Hp]; intros p1 p2 [Hs _]; exact Hs).
  split; [exact Hps|]. split; [reflexivity|]. split; [|by split].
  eapply (events_reach_application opts 1); [lia|exact Hps| |exact Hp].
  apply quiet_rests; [reflexivity..|by split_and!|done].
Defined.
End witness.
