(* ===== verification/F64Sample.v ===== *)
(** * Floats as eight bytes

    IEEE 754 binary64 in little-endian order, the concrete [f64] of the
    encoding layer of WireSample.v. *)

From Stdlib Require Import ZArith Lia Strings.Byte SpecFloat.
From stdpp Require Import base list gmap strings.
From S2P Require Import Prelude Coordinate Types Wire WireSample Delegate CodecCoordinate.
Local Open Scope Z_scope.
Local Open Scope serf_scope.

(** ** Bits *)

Definition sign_bit (s : bool) : Z := if s then 1 else 0.

Definition to_bits (x : spec_float) : Z :=
  match x with
  | S754_zero s => sign_bit s * 2 ^ 63
  | S754_infinity s => sign_bit s * 2 ^ 63 + 2047 * 2 ^ 52
  | S754_nan => 2047 * 2 ^ 52 + 2 ^ 51
  | S754_finite s m e =>
      sign_bit s * 2 ^ 63 +
      (if Z.pos m <? 2 ^ 52 then Z.pos m else (e + 1075) * 2 ^ 52 + (Z.pos m - 2 ^ 52))
  end.

Definition of_bits (z : Z) : spec_float :=
  let s := (2 ^ 63 <=? z) in
  let biased := z / 2 ^ 52 mod 2048 in
  let m := z mod 2 ^ 52 in
  if biased =? 0 then
    match m with Z.pos p => S754_finite s p (-1074) | _ => S754_zero s end
  else if biased =? 2047 then
    (if m =? 0 then S754_infinity s else S754_nan)
  else match m + 2 ^ 52 with Z.pos p => S754_finite s p (biased - 1075) | _ => S754_nan end.

Lemma digits2_pos_bounds p : 2 ^ (Z.pos (digits2_pos p) - 1) <= Z.pos p < 2 ^ Z.pos (digits2_pos p).
Proof.
  induction p as [p IH|p IH|]; cbn [digits2_pos]; [| |done];
    rewrite Pos2Z.inj_succ, Z.pow_succ_r by lia;
    replace (Z.succ (Z.pos (digits2_pos p)) - 1) with (Z.succ (Z.pos (digits2_pos p) - 1)) by lia;
    rewrite Z.pow_succ_r by lia; lia.
Qed.

(** A valid float has 53 bits, or fewer at the least exponent. *)
Lemma valid_finite s m e :
  valid_binary F64.prec F64.emax (S754_finite s m e) = true →
  (2 ^ 52 <= Z.pos m < 2 ^ 53 ∧ -1074 <= e <= 971) ∨ (Z.pos m < 2 ^ 52 ∧ e = -1074).
Proof.
  unfold valid_binary, bounded, canonical_mantissa, fexp, emin, F64.prec, F64.emax.
  intros Hv. apply andb_prop in Hv as [He Hmax]. apply Z.eqb_eq in He. apply Z.leb_le in Hmax.
  unfold fexp, emin in He.
  pose proof (digits2_pos_bounds m) as Hd. set (d := Z.pos (digits2_pos m)) in *.
  destruct (Z.eq_dec d 53) as [->|Hne]; [left|right].
  - change (53 - 1) with 52 in Hd. lia.
  - assert (d <= 52) by lia. split; [|lia].
    pose proof (Z.pow_le_mono_r 2 d 52 ltac:(lia) ltac:(lia)). lia.
Qed.

Lemma split_bits s hi lo :
  0 <= hi < 2048 → 0 <= lo < 2 ^ 52 →
  let z := sign_bit s * 2 ^ 63 + hi * 2 ^ 52 + lo in
  (2 ^ 63 <=? z) = s ∧ z / 2 ^ 52 mod 2048 = hi ∧ z mod 2 ^ 52 = lo ∧ 0 <= z < 2 ^ 64.
Proof.
  intros Hhi Hlo z.
  assert (z = lo + (sign_bit s * 2048 + hi) * 2 ^ 52) as Hz by (unfold z; lia).
  split_and!.
  - destruct s; [apply Z.leb_le|apply Z.leb_gt]; unfold z, sign_bit; lia.
  - rewrite Hz, Z.div_add by lia. rewrite (Z.div_small lo) by lia. rewrite Z.add_0_l.
    rewrite Z.add_comm, Z.mod_add by lia. apply Z.mod_small. lia.
  - rewrite Hz, Z.mod_add by lia. apply Z.mod_small. lia.
  - unfold z, sign_bit. destruct s; lia.
  - unfold z, sign_bit. destruct s; lia.
Qed.

Lemma bits_roundtrip x :
  valid_binary F64.prec F64.emax x = true → of_bits (to_bits x) = x ∧ 0 <= to_bits x < 2 ^ 64.
Proof.
  intros Hv. destruct x as [s|s| |s m e]; [by destruct s..|done|].
  unfold to_bits. destruct (valid_finite s m e Hv) as [[Hm He]|[Hm ->]].
  - rewrite (proj2 (Z.ltb_ge _ _)) by lia.
    destruct (split_bits s (e + 1075) (Z.pos m - 2 ^ 52)) as (Hs & Hb & Hr & Hz); [lia..|].
    rewrite <- Z.add_assoc in Hs, Hb, Hr, Hz. split; [|lia]. unfold of_bits. rewrite Hs, Hb, Hr.
    rewrite (proj2 (Z.eqb_neq (e + 1075) 0)), (proj2 (Z.eqb_neq (e + 1075) 2047)) by lia.
    rewrite Z.sub_add. f_equal. lia.
  - rewrite (proj2 (Z.ltb_lt _ _)) by lia.
    destruct (split_bits s 0 (Z.pos m)) as (Hs & Hb & Hr & Hz); [lia..|].
    rewrite Z.mul_0_l, Z.add_0_r in Hs, Hb, Hr, Hz. split; [|lia].
    unfold of_bits. by rewrite Hs, Hb, Hr.
Qed.

(** ** Bytes *)

Definition sample_f64 : Scalar spec_float :=
  mkScalar WireType.Fixed64 (λ _, 8%nat) (λ x, fill (to_le 8 (to_bits x)))
    (λ b, if (length b <? 8)%nat then Err BufferUnderflow else Ok (8%nat, of_bits (of_le (take 8 b)))).

#[export] Instance sample_f64_laws : F64Laws sample_f64.
Proof.
  split; [done| |].
  - intros x Hx. destruct (bits_roundtrip x Hx) as [Hb Hz].
    pose proof (le_roundtrip 8 (to_bits x) Hz) as Hle. pose proof (to_le_length 8 (to_bits x)) as Hlen.
    exists (to_le 8 (to_bits x)). split; cbn -[to_le]; [done|intros; by apply fill_ok|intros; by apply fill_err|done|].
    intros rest _. rewrite length_app, Hlen.
    replace (8 + length rest <? 8)%nat with false by (symmetry; apply Nat.ltb_ge; lia).
    rewrite take_app_le, take_ge by lia. by rewrite Hle, Hb.
  - intros x bs tag rest Hc Ht. pose proof (codes_len _ _ _ _ Hc) as Hl. cbn in Hl.
    cbn [skip merge sample_wire]. unfold sample_skip. rewrite merge_value by lia.
    replace ((tag * 8 + wire_code WireType.Fixed64) mod 8) with 4
      by (simpl; rewrite Z.add_comm, Z.mod_add; [done|lia]).
    cbn [Z.eqb Pos.eqb]. rewrite Hl.
    by rewrite (proj2 (Nat.ltb_ge _ _)) by (rewrite length_app, Hl; lia).
Qed.
