(* ===== verification/ToyConsul.v ===== *)
(** * An application on top: toyconsul (examples/toyconsul/src/main.rs)

    A service registry: a service registered at one node is announced as a
    user event and listed by every node that hears of it.  Clients talk to a
    node over a socket, in frames of a length and a bincode value.  bincode
    is the parameter [Bincode]; the text of an error is [show].  The channels
    inside a node only hand a request to the task that owns the instance, so
    a request is one step here. *)

From Stdlib Require Import ZArith Lia Strings.Byte.
From stdpp Require Import base list gmap strings.
From S2P Require Import Prelude Clock Coordinate Types Core Membership MemberTraces UserEvents.
From S2P Require Import Responses Query QueryFacts Snapshot Delegate Api.
From S2P Require Import Wire CodecIntents CodecEvents CodecQuery CodecMember CodecPushPull CodecKeys CodecMessage Exchange Cluster ClusterQuery ClusterEvents EventStream.
Local Open Scope serf_scope.

(** bincode with the standard configuration: [encode_to_vec] and
    [decode_from_slice], which also says how much it has read. *)
Class Bincode (T : Type) : Type := {
  encode_to_vec : T → Result bytes string;
  decode_from_slice : bytes → Result (T * nat) string;
}.

Class BincodeLaws (T : Type) `{Bincode T} : Prop := {
  bincode_roundtrip x : ∃ b, encode_to_vec x = Ok b ∧ decode_from_slice b = Ok (x, length b);
}.

Record Service (S : Type) : Type := mkService { sv_name : string; sv_addr : S }.
Arguments mkService {S}.
Arguments sv_name {S}.
Arguments sv_addr {S}.

Inductive Op (S : Type) : Type :=
| OpRegister (name : string) (addr : S)
| OpList
| OpJoinAddr (addr : S).
Arguments OpRegister {S}.
Arguments OpList {S}.
Arguments OpJoinAddr {S}.

Definition REGISTER : string := "register".

(** ** Frames *)

Definition prefixed (data : bytes) : bytes :=
  to_le 4 (Z.of_nat (length data) mod u32_modulus) ++ data.

(** [read_exact] of [n] bytes: the bytes and what follows. *)
Definition read_exact (n : nat) (stream : bytes) : option (bytes * bytes) :=
  if (length stream <? n)%nat then None else Some (take n stream, drop n stream).

(** The two reads of a frame, which fail differently. *)
Inductive Frame : Type := NoLength | NoBody | Body (data : bytes).

Definition read_frame (stream : bytes) : Frame :=
  match read_exact 4 stream with
  | None => NoLength
  | Some (len, rest) =>
      match read_exact (Z.to_nat (of_le len)) rest with
      | None => NoBody
      | Some (data, _) => Body data
      end
  end.

(** crossbeam's [SkipMap], keyed by strings: [insert] replaces, and iterating
    yields the values. *)
Class SkipMap (V M : Type) : Type := {
  skip_new : M;
  skip_insert : string → V → M → M;
  skip_get : string → M → option V;
  skip_values : M → list V;
}.

Class SkipMapLaws (V M : Type) `{SkipMap V M} : Prop := {
  skip_insert_get k v m j : skip_get j (skip_insert k v m) = if decide (k = j) then Some v else skip_get j m;
  skip_get_value k v m : skip_get k m = Some v → v ∈ skip_values m;
}.

Section consul.
Context {I A R S M : Type} `{Countable I} `{Countable A} `{!Codec I A R} `{!SkipMap (Service S) M}
  `{!Bincode (Service S)} `{!Bincode (Op S)} `{!Bincode (Result unit string)}
  `{!Bincode (Result (list (Service S)) string)}
  (show : Error → string).

Record ToyConsul : Type := mkConsul {
  tc_serf : Serf I A;
  services : M;
}.
Implicit Types c : ToyConsul.

(** ** The tasks *)

(** [handle_serf_events], one event of the subscriber. *)
Definition handle_serf_event c (ev : Event I A) : ToyConsul :=
  match ev with
  | EUser m =>
      if decide (uem_name m = REGISTER) then
        match decode_from_slice (T := Service S) (uem_payload m) with
        | Ok (service, _) => mkConsul (tc_serf c) (skip_insert (sv_name service) service (services c))
        | Err _ => c
        end
      else c
  | _ => c
  end.

Definition handle_serf_events c (evs : list (Event I A)) : ToyConsul := foldl handle_serf_event c evs.

(** [handle_rpc_events]: what each request comes to. *)
Definition rpc_register c (name : string) (addr : S) : outcome (ToyConsul * Result unit string) :=
  match encode_to_vec (mkService name addr) with
  | Err e => Done (c, Err e)
  | Ok data =>
      run! (s, r) := user_event (R := R) (tc_serf c) REGISTER data false in
      Done (mkConsul s (services c), match r with Ok _ => Ok tt | Err e => Err (show e) end)
  end.

Definition rpc_list c : Result (list (Service S)) string := Ok (skip_values (services c)).

Definition rpc_join c (memberlist_join : Serf I A → Serf I A * option A) (now : Z)
  : ToyConsul * Result unit string :=
  let '(s, r) := join (R := R) (tc_serf c) false memberlist_join now in
  (mkConsul s (services c), match r with Ok _ => Ok tt | Err e => Err (show e) end).

(** The bytes written back, if the reply encodes. *)
Definition reply {T} `{Bincode T} (x : T) : option bytes :=
  match encode_to_vec x with Ok b => Some (prefixed b) | Err _ => None end.

Definition handle_register c (name : string) (addr : S) : outcome (ToyConsul * option bytes) :=
  run! (c, r) := rpc_register c name addr in Done (c, reply r).
Definition handle_join c (memberlist_join : Serf I A → Serf I A * option A) (now : Z)
  : ToyConsul * option bytes :=
  let '(c, r) := rpc_join c memberlist_join now in (c, reply r).
Definition handle_list c : option bytes := reply (rpc_list c).

(** ** The server *)

(** How a connection ends: with what was written back, without an answer, or
    with the end of the server ([?] in the loop of [handle_start_cmd]). *)
Inductive Served : Type := Replied (b : option bytes) | Ignored | Quit.

Definition serve c (input : bytes) (memberlist_join : S → Serf I A → Serf I A * option A) (now : Z)
  : outcome (ToyConsul * Served) :=
  match read_frame input with
  | NoLength => Done (c, Quit)
  | NoBody => Done (c, Ignored)
  | Body data =>
      match decode_from_slice (T := Op S) data with
      | Err _ => Done (c, Ignored)
      | Ok (OpJoinAddr addr, _) =>
          let '(c, b) := handle_join c (memberlist_join addr) now in Done (c, Replied b)
      | Ok (OpRegister name addr, _) =>
          run! (c, b) := handle_register c name addr in Done (c, Replied b)
      | Ok (OpList, _) => Done (c, Replied (handle_list c))
      end
  end.

(** ** The clients *)

(** What is sent, and what is made of the answer. *)
Definition request (op : Op S) : Result bytes string :=
  try! data := encode_to_vec op in Ok (prefixed data).

Definition read_reply {T} `{Bincode T} (stream : bytes) : Result T string :=
  match read_frame stream with
  | Body data => try! (x, _) := decode_from_slice data in Ok x
  | _ => Err "early eof"%string
  end.

(** [conversation] is what the socket brings back for what is sent. *)
Definition handle_join_cmd (conversation : bytes → bytes) (addr : S) : Result (Result unit string) string :=
  try! b := request (OpJoinAddr addr) in read_reply (conversation b).
Definition handle_register_cmd (conversation : bytes → bytes) (name : string) (addr : S)
  : Result (Result unit string) string :=
  try! b := request (OpRegister name addr) in read_reply (conversation b).
Definition handle_list_cmd (conversation : bytes → bytes)
  : Result (Result (list (Service S)) string) string :=
  try! b := request OpList in read_reply (conversation b).

End consul.

Arguments ToyConsul : clear implicits.
Arguments ToyConsul I A M {_ _ _ _}.

(** ** Facts *)

Lemma frame_read data rest :
  (Z.of_nat (length data) < u32_modulus)%Z → read_frame (prefixed data ++ rest) = Body data.
Proof.
  intros Hlen. unfold prefixed, read_frame. rewrite Z.mod_small by lia. rewrite <- app_assoc.
  set (n := Z.of_nat (length data)) in *.
  unfold read_exact at 1. rewrite length_app, to_le_length.
  rewrite (proj2 (Nat.ltb_ge _ _)) by lia.
  rewrite (take_app_length' (to_le 4 n)), (drop_app_length' (to_le 4 n)) by (by rewrite to_le_length).
  rewrite le_roundtrip by (unfold u32_modulus in *; cbn; lia).
  unfold n, read_exact. rewrite Nat2Z.id, length_app, (proj2 (Nat.ltb_ge _ _)) by lia.
  by rewrite take_app_length.
Qed.

Section facts.
Context {I A R S M : Type} `{Countable I} `{Countable A} `{!Codec I A R} `{!Gossip I A R}
  `{SkipMapLaws (Service S) M}
  `{BincodeLaws (Service S)} `{BincodeLaws (Op S)} `{BincodeLaws (Result unit string)}
  `{BincodeLaws (Result (list (Service S)) string)}
  (show : Error → string).

Implicit Types c d : ToyConsul I A M.

(** A frame whose length fits its four bytes. *)
Definition short (b : bytes) : Prop := (Z.of_nat (length b) < u32_modulus)%Z.

Lemma short_body data : short (prefixed data) → short data.
Proof. unfold short, prefixed. rewrite length_app. lia. Qed.

Lemma prefixed_read data : short (prefixed data) → read_frame (prefixed data) = Body data.
Proof.
  intros Hs. pose proof (frame_read data [] (short_body data Hs)) as Hf. by rewrite app_nil_r in Hf.
Qed.

(** A reply is read as what it was made from. *)
Lemma reply_read {T} `{BincodeLaws T} (x y : T) b :
  reply x = Some b → short b → read_reply b = Ok y → y = x.
Proof.
  unfold reply, read_reply. destruct (bincode_roundtrip x) as (data & He & Hd). rewrite He.
  intros [= <-] Hs. rewrite prefixed_read by done. rewrite Hd. by intros [= ->].
Qed.

Lemma reply_total {T} `{BincodeLaws T} (x : T) : ∃ b, reply x = Some b ∧ (short b → read_reply b = Ok x).
Proof.
  unfold reply, read_reply. destruct (bincode_roundtrip x) as (data & He & Hd). rewrite He.
  eexists. split; [done|]. intros Hs. rewrite prefixed_read by done. by rewrite Hd.
Qed.

Lemma request_served c op req mj now :
  request op = Ok req → short req →
  serve (R := R) show c req mj now =
  match op with
  | OpJoinAddr addr => let '(c, b) := handle_join (R := R) show c (mj addr) now in Done (c, Replied b)
  | OpRegister name addr => run! (c, b) := handle_register (R := R) show c name addr in Done (c, Replied b)
  | OpList => Done (c, Replied (handle_list c))
  end.
Proof.
  unfold request, serve. destruct (bincode_roundtrip op) as (data & He & Hd). rewrite He.
  intros [= <-] Hs. rewrite prefixed_read by done. rewrite Hd. by destruct op.
Qed.

(** What the subscriber has received between two states of an instance. *)
Definition new_events (s s' : Serf I A) : list (Event I A) :=
  omap event_of (drop (length (event_tx s)) (event_tx s')).

(** C27: A registered service is listed: when a client asks a node to register
    a service and reads success, the node has bytes queued that, delivered by
    gossip to any other node that would still deliver the event, make that
    node know the service; a client that asks that node for the list reads
    one that holds it. *)
Theorem registration_listed c d name addr data mj now owned rnd c' rep :
  let m := mkUserEventMessage (event_clock (tc_serf c)) REGISTER data false in
  regular (event_clock (tc_serf c)) → encode_to_vec (mkService name addr) = Ok data →
  (∀ req, request (OpRegister name addr) = Ok req → short req ∧
     serve (R := R) show c req mj now = Done (c', Replied (Some rep))) → short rep →
  handle_register_cmd (λ _, rep) name addr = Ok (Ok tt) →
  open_to m (tc_serf d) →
  ∃ raw t', raw ∈ queued (tc_serf c') ∧
    notify_message (R := R) (tc_serf d) owned raw now rnd = Done t' ∧
    let d' := handle_serf_events (mkConsul t' (services d)) (new_events (tc_serf d) t') in
    skip_get name (services d') = Some (mkService name addr) ∧
    ∀ req', request OpList = Ok req' → short req' →
      ∃ rep', serve (R := R) show d' req' mj now = Done (d', Replied (Some rep')) ∧
        (short rep' → ∃ l, handle_list_cmd (λ _, rep') = Ok (Ok l) ∧ mkService name addr ∈ l).
Proof.
  intros m Hreg Hdata Hserve Hrep Hread Hopen. revert Hread. unfold handle_register_cmd.
  destruct (request (OpRegister name addr)) as [req|] eqn:Hreq; [|done]. intros Hread.
  destruct (Hserve req eq_refl) as [Hshort Hs]. clear Hserve.
  rewrite (request_served _ _ _ _ _ Hreq Hshort) in Hs. unfold handle_register, rpc_register in Hs.
  rewrite Hdata in Hs.
  destruct (user_event (tc_serf c) REGISTER data false) as [[s' r]|] eqn:Hu; [|done]. simplify_eq.
  pose proof (reply_read _ _ _ ltac:(eassumption) Hrep Hread) as Hr. destruct r as [u|e]; [|done]. clear Hr.
  assert (is_u64 (event_clock (tc_serf c))) as Hc by (unfold regular, is_u64 in *; lia).
  destruct (user_event_shape _ _ _ _ _ _ Hc Hu) as (raw & s1 & b & _ & -> & Hne & Hd). fold m in Hd.
  destruct Hopen as [Hl Hmin Hnew Hno].
  destruct (user_event_delivered (tc_serf d) m Hreg Hl Hmin Hnew Hno) as (t1 & Hh & Htx & _).
  exists raw, (queue_event t1 raw). split; [apply queue_event_queued; by right|]. split.
  { unfold notify_message. destruct raw as [|x raw]; [done|]. by rewrite Hd, Hh. }
  assert (new_events (tc_serf d) (queue_event t1 raw) = [EUser m]) as ->.
  { unfold new_events. cbn. by rewrite Htx, drop_app_length. }
  cbv zeta. set (d' := handle_serf_events _ _). destruct (bincode_roundtrip (mkService name addr)) as (data' & He' & Hd').
  assert (skip_get name (services d') = Some (mkService name addr)) as Hget.
  { unfold d', handle_serf_events. cbn [foldl]. assert (data' = data) as -> by congruence.
    unfold handle_serf_event. rewrite decide_True by done. cbn [uem_payload m]. rewrite Hd'.
    cbn [services sv_name]. by rewrite skip_insert_get, decide_True. }
  split; [done|]. intros req' Hreq' Hs'. rewrite (request_served _ _ _ _ _ Hreq' Hs').
  unfold handle_list, handle_list_cmd.
  destruct (reply_total (rpc_list d')) as (rep' & -> & Hrd). exists rep'. split; [done|].
  intros Hs1. exists (skip_values (services d')). rewrite Hreq'. split; [by apply Hrd|]. by eapply skip_get_value.
Qed.

End facts.
