(* ===== verification/WireExamples.v ===== *)
(** * Messages on a concrete wire

    The statements about the codecs and about nodes that talk to each other,
    at work on the encoding layer of WireSample.v: ids and addresses are
    numbers, expressions are their own text. *)

From Stdlib Require Import ZArith Lia Strings.Byte.
From stdpp Require Import base list gmap strings.
From S2P Require Import Prelude Clock Coordinate Types Core Sample Membership MemberTraces UserEvents.
From S2P Require Import Responses Query QueryFacts Snapshot Delegate Api Wire CodecIntents CodecEvents.
From S2P Require Import CodecQuery CodecMember CodecPushPull CodecKeys CodecMessage WireSample Exchange CodecCoordinate F64Sample.
From S2P Require Import InternalQuery KeyManager.
Local Open Scope serf_scope.

(** Numbers as ids and addresses, delimited by their length. *)
Definition sample_nat : Scalar nat :=
  mkScalar WireType.LengthDelimited (λ n, length (leb (Z.of_nat n))) (λ n, fill (leb (Z.of_nat n)))
    (λ b, try! (k, z) := leb_decode 10 b in Ok (k, Z.to_nat z)).
Definition nat_data : Data nat := scalar sample_nat.

#[export] Instance sample_regex : Regex string := {| re_new s := Ok s; re_as_str s := s |}.
#[export] Instance sample_regex_laws : RegexLaws string.
Proof. by constructor. Qed.

Lemma nat_codes n : is_u64 (Z.of_nat n) → ∃ bs r, codes nat_data n bs r.
Proof.
  intros Hn. exists (leb (Z.of_nat n)), n.
  split; simpl; [done|intros; by apply fill_ok|intros; by apply fill_err|done|].
  intros rest _. rewrite leb_u64 by done. by rewrite Nat2Z.id.
Qed.

Lemma nat_ld n : is_u64 (Z.of_nat n) → fits_u32 (encoded_len nat_data n) →
  ∃ bs r, codes_ld nat_data n bs r.
Proof. intros Hn Hf. apply delimited_ld; [done|by apply nat_codes|done]. Qed.

Lemma node_ld i a :
  is_u64 (Z.of_nat i) → is_u64 (Z.of_nat a) →
  fits_u32 (encoded_len nat_data i) → fits_u32 (encoded_len nat_data a) →
  fits_u32 (encoded_len (node_data nat_data nat_data) (mkNode i a)) →
  node_fits nat_data nat_data (mkNode i a).
Proof.
  intros Hi Ha Fi Fa Hf. destruct (nat_codes i Hi) as (bi & ri & Ci), (nat_codes a Ha) as (ba & ra & Ca).
  destruct (node_codes nat_data nat_data (mkNode i a) bi ri ba ra Ci Ca) as [bs Hc];
    [by rewrite (codes_len _ _ _ _ Ci)|by rewrite (codes_len _ _ _ _ Ca)|].
  apply delimited_ld; [done|by exists bs, (mkNode ri ra)|done].
Qed.

(** Sizes and ranges of concrete values. *)
Ltac concrete :=
  match goal with
  | |- fits_u32 _ => apply (bool_decide_eq_true_1 (fits_u32 _)); vm_compute; reflexivity
  | |- is_u64 _ => apply (bool_decide_eq_true_1 (is_u64 _)); vm_compute; reflexivity
  end.

Abbreviation node0 := (mkNode 0%nat 0%nat).
Abbreviation fits := (message_fits (R := string) nat_data nat_data).

Lemma node0_fits : node_fits nat_data nat_data node0.
Proof. apply node_ld; concrete. Qed.

(** A query with a filter of each kind. *)
Definition sample_query : QueryMessage nat nat string :=
  mkQuery 3 77 node0 [FilterId [0%nat; 300%nat]; FilterTag "role" (Some "db")]
    FLAG_ACK 2 1000 "deploy" [x01; xff].
Definition sample_response : QueryResponseMessage nat nat :=
  mkQueryResponse 3 77 node0 0 [x05; x06].

Lemma sample_query_fits : fits (MQuery sample_query).
Proof.
  split; [concrete|]. split; simpl; try concrete; try (unfold u32_modulus; lia); [apply node0_fits| |done].
  repeat constructor; simpl; try concrete; try done; apply nat_ld; concrete.
Qed.

Lemma sample_response_fits : fits (MQueryResponse sample_response).
Proof.
  split; [concrete|]. split_and!; simpl; try concrete; try (unfold u32_modulus; lia). apply node0_fits.
Qed.

(** ** Round trips *)

Lemma message_roundtrip_witness :
  ∃ out w, encode_message_to_bytes (message_encodable nat_data nat_data (MQuery sample_query)) = Ok out ∧
    length out = encoded_message_len (message_encodable nat_data nat_data (MQuery sample_query)) ∧
    decode_message (R := string) nat_data nat_data leb_scalar out = Ok w ∧
    stands_for nat_data nat_data w (MQuery sample_query).
Proof. apply (message_roundtrip nat_data nat_data leb_scalar (MQuery sample_query)), sample_query_fits. Defined.

(** ** Hostile bytes *)

Lemma relay_overrun_panics_witness :
  decode_message (R := string) nat_data nat_data leb_scalar
    (RELAY_MESSAGE_BYTE :: RELAY_MSG_BYTE :: x06 :: leb 200 ++ [x01; x02]) = Err Panicked.
Proof.
  apply (relay_overrun_panics nat_data nat_data leb_scalar 200%Z x06 (leb 200) [x01; x02]).
  - unfold u32_modulus. lia.
  - apply leb_codes. concrete.
  - simpl. lia.
  - vm_compute. lia.
Defined.

Lemma decoders_terminate_witness :
  terminates (leave_step nat_data) ∧ terminates (message_step (R := string) nat_data nat_data leb_scalar).
Proof.
  pose proof (decoders_terminate (R := string) nat_data nat_data leb_scalar sample_f64) as Ht. naive_solver.
Defined.

(** ** Nodes that talk *)

Definition matches (r s : string) : bool := bool_decide (r = s).


Abbreviation codec0 := (codec nat_data nat_data leb_scalar 512 matches).

Lemma message_heard_witness :
  ∃ raw, Types.encode_message_to_bytes (Codec := codec0) (MQuery sample_query) = Ok raw ∧
    notify_message (Codec0 := codec0) (sample_serf 1) true raw 9 (λ _, 0%Z)
    = hear nat_data nat_data leb_scalar 512 matches (sample_serf 1) (MQuery sample_query) raw 9 (λ _, 0%Z).
Proof.
  apply (message_heard nat_data nat_data leb_scalar 512 matches (sample_serf 1) true
    (MQuery sample_query) 9 (λ _, 0%Z)), sample_query_fits.
Defined.

Lemma relay_delivers_witness :
  ∃ raw payload,
    Types.encode_relay_message_to_bytes (Codec := codec0) sample_response node0 = Ok raw ∧
    notify_message (Codec0 := codec0) (sample_serf 1) true raw 9 (λ _, 0%Z)
    = Done (memberlist_send (sample_serf 1) 0%nat payload) ∧
    notify_message (Codec0 := codec0) (sample_serf 0) false payload 10 (λ _, 0%Z)
    = Done (serf_handle_query_response (sample_serf 0) 3 77 (Ok sample_response) 10).1.
Proof.
  apply (relay_delivers nat_data nat_data leb_scalar 512 matches (sample_serf 1) (sample_serf 0)
    true false sample_response node0 9 10 (λ _, 0%Z) (λ _, 0%Z)).
  - apply sample_response_fits.
  - apply node0_fits.
Defined.

(** Node 1 has seen node 2 leave; node 0 learns it from the bytes node 1 sends. *)
Definition peer : Serf nat nat := run None (sample_serf 1)
  [OpJoin (sample_node 1); OpJoin (sample_node 2); OpLeaveIntent (mkLeave 3%Z 2%nat false) 5%Z;
   OpLeave (sample_node 2) 6%Z].

Lemma peer_state :
  local_state_message peer = mkPushPull 4 [(2%nat, 3%Z); (1%nat, 0%Z)] [2%nat] 1 [] 1.
Proof. vm_compute. reflexivity. Qed.

Lemma peer_fits : push_pull_fits nat_data (local_state_message peer).
Proof.
  rewrite peer_state. split; simpl; try concrete.
  - apply (bool_decide_eq_true_1 (NoDup _)). vm_compute. reflexivity.
  - rewrite !Forall_cons. split_and!; simpl; try concrete; try (apply nat_codes; concrete). constructor.
  - apply (bool_decide_eq_true_1 (NoDup _)). vm_compute. reflexivity.
  - rewrite Forall_cons. split; [apply nat_ld; concrete|constructor].
  - constructor.
Qed.

Lemma exchange_catches_up_witness :
  ∃ s', merge_remote_state (Codec0 := codec0) (sample_serf 0) (local_state (Codec0 := codec0) peer) false 9
    = Done s' ∧ (3 < seen s' 2%nat)%Z.
Proof.
  destruct (exchange_catches_up nat_data nat_data leb_scalar 512 matches (sample_serf 0) peer false 9)
    as (s' & H1 & _ & _ & _ & H2).
  - apply peer_fits.
  - concrete.
  - apply default_members_wf.
  - apply (run_wf None (sample_serf 1)), default_members_wf.
  - assert (forallb (λ p, (0 <=? status_time p.2)%Z && (status_time p.2 <? u64_modulus - 1)%Z)
      (map_to_list (states (members peer))) = true) as HF by (vm_compute; reflexivity).
    intros id ms Hms. apply elem_of_map_to_list in Hms.
    apply (proj1 (forallb_forall _ _)) with (x := (id, ms)) in HF; [|by apply list_elem_of_In].
    simpl in HF. bool_to_prop. done.
  - rewrite peer_state. constructor.
  - concrete.
  - simpl. lia.
  - exists s'. split; [exact H1|].
    destruct (states (members peer) !! 2%nat) as [ms|] eqn:Hms; [|discriminate].
    destruct (H2 2%nat ms Hms) as [_ H3]; [discriminate|].
    assert (status_time ms = 3%Z) as <- by (vm_compute in Hms; by injection Hms as <-).
    apply H3. apply elem_of_cons. left. reflexivity.
Defined.

Lemma tags_announced_witness :
  let tg := [("role", "db"); ("dc", "east")] in
  ∃ meta, node_meta (Codec0 := codec0) (opt_tags (opts (set_tags (Codec0 := codec0) (sample_serf 0) tg true).1)) 512
    = Done meta ∧
    node_to_member (Codec0 := codec0) (mkNodeState node0 meta NSAlive PV1 DV1)
    = Ok (mkMember node0 tg MemberStatus.None PV1 DV1 PV1 DV1).
Proof.
  intros tg.
  apply (tags_announced nat_data nat_data leb_scalar 512 matches (sample_serf 0) _ tg 512 node0 NSAlive PV1 DV1).
  - split; [apply (bool_decide_eq_true_1 (NoDup _)); vm_compute; reflexivity|].
    repeat constructor; concrete.
  - concrete.
  - lia.
  - vm_compute. reflexivity.
Defined.

(** ** Pings *)

Definition core0 : CoordCore nat :=
  mkCoordCore (client_with_options default_coordinate_options) ∅.
Definition pinging (i : nat) : Serf nat nat := set_coord_core (sample_serf i) (Some core0).

Lemma ping_carries_coordinate_witness :
  notify_ping_complete (read_coordinate sample_f64) (λ x _, x) (pinging 0) 1%nat 5000000
    (ack_payload (coordinate_encoded_len sample_f64) (write_coordinate sample_f64) (pinging 1))
    (λ _, F64.zero) (λ _, F64.zero) =
  run! (cl, r) := Coordinate.update (λ x _, x) (λ _, F64.zero) (λ _, F64.zero) (client core0) 1%nat
    (get_coordinate (client core0)) 5000000 in
  Done (set_coord_core (pinging 0) (Some (mkCoordCore cl
    match r with
    | Ok _ => <[0%nat := get_coordinate cl]> (<[1%nat := get_coordinate (client core0)]> (cache core0))
    | Err _ => cache core0
    end))).
Proof.
  apply (ping_carries_coordinate sample_f64 (λ x _, x) (pinging 0) (pinging 1) core0 core0).
  - reflexivity.
  - reflexivity.
  - split_and!; [|reflexivity..]. repeat constructor.
Defined.

(** ** Keys *)

(** Two keys, one byte each. *)
Definition sample_key : Scalar bool :=
  mkScalar WireType.LengthDelimited (λ _, 1%nat) (λ k : bool, fill [byte_of_Z (if k then 1 else 0)])
    (λ b, match b with
          | [] => Err BufferUnderflow
          | x :: _ => Ok (1%nat, negb (Z_of_byte x =? 0)%Z)
          end).

Lemma sample_key_ld k : ∃ bs, codes_ld (scalar sample_key) k bs k.
Proof.
  assert (codes (scalar sample_key) k [byte_of_Z (if k then 1 else 0)] k) as Hc.
  { apply (byte_codes _ (λ b : bool, byte_of_Z (if b then 1 else 0)) (λ z, negb (z =? 0)%Z)).
    by destruct k. }
  destruct (ld_delimited (scalar sample_key) k _ k eq_refl Hc) as (pre & _ & Hld); [concrete|eauto].
Qed.

(** A keyring is a list of keys, the primary key first. *)
#[export] Instance sample_keyring : Keyring bool (list bool) := {|
  kr_insert kr k := if decide (k ∈ kr) then kr else kr ++ [k];
  kr_use_key kr k := if decide (k ∈ kr) then Ok (k :: filter (λ x, x ≠ k) kr) else Err "not installed"%string;
  kr_remove kr k := if decide (k ∈ kr) then Ok (filter (λ x, x ≠ k) kr) else Ok kr;
  kr_keys kr := kr;
  kr_primary_key kr := default false (head kr);
|}.

Definition key_node : KeyNode (I := nat) (A := nat) (KR := list bool) :=
  mkKeyNode (sample_serf 1) (Some [false]) true (Some "keyring.json"%string).
(** A disk with room for two keys. *)
Definition calm : Env (A := nat) (K := bool) :=
  mkEnv (λ _, true) 9 (λ _, 0%Z)
    (λ ks, if decide (length ks ≤ 2)%nat then Ok tt else Err "disk full"%string).

(** The request to install [true], as it is sent. *)
Definition key_payload : bytes :=
  match encode_message_to_bytes (key_request_encodable sample_key (mkKeyRequest (Some true))) with
  | Ok b => b
  | Err _ => []
  end.

Lemma key_payload_reads :
  decode_message (R := string) nat_data nat_data sample_key key_payload
  = Ok (WKeyRequest nat_data nat_data (mkKeyRequest (Some true))).
Proof.
  destruct (request_reads_back (R := string) nat_data nat_data sample_key sample_key_ld
    (mkKeyRequest (Some true))) as (raw & He & Hd); [concrete|].
  unfold key_payload. by rewrite He.
Qed.

Lemma key_change_reported_witness :
  change_keyring (R := string) nat_data nat_data sample_key (λ kr k, Ok (kr_insert kr k)) key_node key_payload calm
  = Done (Some [false; true], succeeded) ∧
  ∃ key old new, decode_message (R := string) nat_data nat_data sample_key key_payload
      = Ok (WKeyRequest nat_data nat_data (mkKeyRequest (Some key))) ∧
    encryption_enabled key_node = true ∧ kn_keyring key_node = Some old ∧
    Ok (kr_insert old key) = Ok (E := string) new ∧ Some [false; true] = Some new ∧
    write_keyring_file (set_kn_keyring key_node (Some [false; true])) calm = Ok tt.
Proof.
  assert (change_keyring (R := string) nat_data nat_data sample_key (λ kr k, Ok (kr_insert kr k))
    key_node key_payload calm = Done (Some [false; true], succeeded)) as Hc
    by (unfold change_keyring; rewrite key_payload_reads; reflexivity).
  split; [exact Hc|]. apply (key_change_reported nat_data nat_data sample_key _ _ _ _ _ _ Hc). reflexivity.
Defined.

(** Three peers: two file node 9 at its address, one does not know it. *)
Definition member9 : Member nat nat := mkMember (mkNode 9%nat 9%nat) [] MemberStatus.Alive PV1 DV1 PV1 DV1.
Definition knows9 (i : nat) : Serf nat nat :=
  set_members (sample_serf i)
    (mkMembers {[ 9%nat := mkMemberState member9 0 None ]} ∅ [] []).

Lemma member9_fits : member_fits nat_data nat_data member9.
Proof.
  split; simpl; try (by split); [apply node_ld; concrete|].
  split; [by repeat constructor|concrete].
Qed.

Lemma can_answer9 i : 9%nat ≠ i → can_answer nat_data nat_data 9%nat (knows9 i).
Proof.
  intros Hi. split; [exact Hi|]. intros ms Hms. cbn [states members knows9 set_members] in Hms. apply lookup_singleton_Some in Hms as [_ <-].
  split_and!; [apply member9_fits|concrete..].
Qed.

Lemma conflict_vote_witness :
  ∃ payloads payloads',
    Forall2 (λ p raw, conflict_answer nat_data nat_data p 9%nat = Done (Some raw))
      [knows9 1; knows9 2; sample_serf 3] payloads ∧
    survives_conflict (Codec0 := internal_codec nat_data nat_data sample_key 512 matches)
      (sample_serf 9) payloads = Done true ∧
    survives_conflict (Codec0 := internal_codec nat_data nat_data sample_key 512 matches)
      (sample_serf 8) payloads' = Done false.
Proof.
  destruct (conflict_vote nat_data nat_data sample_key 512 matches (sample_serf 9) (sample_serf 8) 9%nat
    [knows9 1; knows9 2; sample_serf 3] [knows9 2; knows9 1; sample_serf 3])
    as (payloads & payloads' & b & b' & Ha & _ & Hs & Hs' & Hb & Hb' & _).
  - constructor; [by apply can_answer9|]. constructor; [by apply can_answer9|].
    constructor; [split; [discriminate|intros ms Hms; discriminate]|constructor].
  - constructor.
  - discriminate.
  - exists payloads, payloads'. split_and!; [exact Ha| |].
    + rewrite (proj2 Hb) in Hs; [exact Hs|]. vm_compute. lia.
    + destruct b'; [|exact Hs']. exfalso. pose proof (proj1 Hb' eq_refl) as Hlt. vm_compute in Hlt. lia.
Defined.

(** Two members answer a list of keys, one of them with a failure. *)
Definition good_list : KeyResponseMessage bool := mkKeyResponse true EmptyString [true; false] (Some true).
Definition bad_list : KeyResponseMessage bool := mkKeyResponse false "no keyring" [] None.

Definition reply_of (i : nat) (m : KeyResponseMessage bool) : NodeResponse nat nat :=
  mkNodeResponse (mkNode i i)
    match encode_message_to_bytes (key_response_encodable sample_key m) with Ok b => b | Err _ => [] end.

Lemma key_replies_counted_witness :
  ∃ resp, stream_key_response (R := string) nat_data nat_data sample_key (λ _, EmptyString) (λ _, EmptyString)
      (empty_key_response 3) [reply_of 1 good_list; reply_of 2 bad_list] = Done resp ∧
    num_resp resp = 2%nat ∧ num_err resp = 1%nat ∧ default 0%nat (key_counts resp !! true) = 1%nat.
Proof.
  destruct (key_replies_counted (R := string) nat_data nat_data sample_key (λ _, EmptyString)
    (λ _, EmptyString) eq_refl sample_key_ld 3 [reply_of 1 good_list; reply_of 2 bad_list] [good_list; bad_list])
    as (resp & Hs & Hr & He & Hk & _).
  - repeat constructor; simpl; try concrete; vm_compute; reflexivity.
  - simpl. lia.
  - exists resp. split_and!; [exact Hs|exact Hr|exact He|exact (Hk true)].
Defined.
