(* ===== verification/ClusterExamples.v ===== *)
(** * A small cluster

    Nodes 1, 2 and 3 on the encoding layer of WireSample.v: node 1 announces
    an event, gossip brings it to node 2, twice, and from there to node 3;
    then it asks the others a query and they answer.  A toyconsul runs on
    nodes 1 and 2, with a bincode that writes the bits of a value's number as
    bytes. *)

From Stdlib Require Import ZArith Lia Strings.Byte.
From stdpp Require Import base list gmap strings.
From S2P Require Import Prelude Clock Coordinate Types Core Sample Membership MemberTraces UserEvents.
From S2P Require Import Responses Query QueryFacts Snapshot Delegate Api.
From S2P Require Import Wire CodecIntents CodecEvents CodecQuery CodecMember CodecPushPull CodecKeys CodecMessage.
From S2P Require Import WireSample Exchange Cluster ClusterQuery ClusterEvents WireExamples ToyConsul.
Local Open Scope Z_scope.

#[export] Instance example_codec : Codec nat nat string :=
  cluster_codec nat_data nat_data sample_key 512 (λ r x, bool_decide (r = x)).
#[export] Instance example_gossip : Gossip nat nat string :=
  wire_gossip nat_data nat_data sample_key 512 (λ r x, bool_decide (r = x)).

Definition three_nodes : Cluster (I := nat) (A := nat) (R := string) :=
  mkCluster {[ 1%nat := sample_serf 1; 2%nat := sample_serf 2; 3%nat := sample_serf 3 ]} [] [] [].

(** The instance a call leaves behind. *)
Definition after {X} (s : Serf nat nat) (o : outcome (Serf nat nat * X)) : Serf nat nat :=
  match o with Done (s, _) => s | Panic => s end.
Definition heard (t : Serf nat nat) (raw : bytes) : Serf nat nat :=
  match notify_message (R := string) t false raw 9 (λ _, 0) with Done t => t | Panic => t end.

Definition deployer : Serf nat nat :=
  after (sample_serf 1) (user_event (R := string) (sample_serf 1) "deploy" [x01; x02] false).
Definition deploy_raw : bytes := default [] (head (queued deployer)).
Definition twice_told : Serf nat nat := heard (heard (sample_serf 2) deploy_raw) deploy_raw.

Lemma nodes_free : map_Forall (λ _ s, event_free 1 s ∧ query_free s) (nodes three_nodes).
Proof.
  intros i s Hi. cbn in Hi.
  rewrite !lookup_insert_Some, lookup_singleton_Some in Hi.
  destruct Hi as [[_ <-]|[_ [[_ <-]|[_ [_ <-]]]]];
    (split; [split; [split; [concrete|cbn; lia]|split; [cbn; lia|by repeat constructor]|split; reflexivity]|by split]).
Qed.

Lemma deploy_fits : Cluster.fits (MUserEvent (mkUserEventMessage 1 "deploy" [x01; x02] false) : Message nat nat string).
Proof. split; [concrete|split_and!; concrete]. Qed.

Lemma deploy_no_query t q :
  Types.decode_message (R := string) (A := nat) deploy_raw = Done (Ok (RQuery q)) →
  ack_fits t (qr_flags q) (qr_ltime q) (qr_id q).
Proof.
  intros Hq. assert (Types.decode_message (R := string) (A := nat) deploy_raw =
    Done (Ok (RUserEvent (mkUserEventMessage 1 "deploy" [x01; x02] false)))) as Hd by (vm_compute; reflexivity).
  congruence.
Qed.

Lemma events_announced_once_witness :
  (∀ m, m ∈ delivered twice_told → event_of m ∈ [mkUserEvent "deploy" [x01; x02]]) ∧
  NoDup (event_key <$> delivered twice_told) ∧ delivered twice_told ≠ [].
Proof.
  set (c1 := mkCluster (R := string) (<[1%nat := deployer]> (nodes three_nodes)) [mkUserEvent "deploy" [x01; x02]] [] []).
  set (c2 := set_node c1 2%nat (heard (sample_serf 2) deploy_raw)).
  assert (csteps None three_nodes (set_node c2 2%nat twice_told)) as Hsteps.
  { apply (rtc_l _ _ c1).
    { apply (cs_announce None three_nodes 1%nat (sample_serf 1) "deploy" [x01; x02] false deployer (Ok tt));
        [vm_compute; reflexivity|apply deploy_fits|vm_compute; reflexivity]. }
    apply (rtc_l _ _ c2).
    { apply (cs_receive None c1 1%nat 2%nat deployer (sample_serf 2) deploy_raw false 9 (λ _, 0));
        [reflexivity|reflexivity|left; vm_compute; by left|apply deploy_no_query|vm_compute; reflexivity]. }
    apply rtc_once.
    apply (cs_receive None c2 1%nat 2%nat deployer (heard (sample_serf 2) deploy_raw) deploy_raw false 9 (λ _, 0));
      [reflexivity|reflexivity|left; vm_compute; by left|apply deploy_no_query|vm_compute; reflexivity]. }
  destruct (events_announced_once None 1 three_nodes _ eq_refl eq_refl nodes_free Hsteps
    ltac:(reflexivity) 2%nat twice_told) as [H1 H2]; [reflexivity|].
  split; [exact H1|]. split; [exact H2|]. vm_compute. discriminate.
Defined.

Lemma announcement_spreads_witness :
  ∃ c', csteps None three_nodes c' ∧
    Forall (λ j, ∃ t, nodes c' !! j = Some t ∧
      mkUserEventMessage 1 "deploy" [x01; x02] false ∈ delivered t) [2%nat; 3%nat].
Proof.
  apply (announcement_spreads None 1 three_nodes 1%nat (sample_serf 1) "deploy" [x01; x02] false deployer tt).
  - unfold cluster_ok. eapply map_Forall_impl; [exact nodes_free|]. intros i s [Hs _].
    exact (event_free_ok 1 s Hs).
  - reflexivity.
  - reflexivity.
  - vm_compute. reflexivity.
  - apply (bool_decide_eq_true_1 (NoDup _)). reflexivity.
  - repeat constructor; (eexists; split; [reflexivity|]);
      (split; [cbn; lia|cbn; lia|reflexivity|]); intros (us & Hl & _); vm_compute in Hl; discriminate.
Defined.

(** ** A query

    Node 1 asks everyone for their uptime, with acks; the others answer with
    their number. *)

Definition uptime_params : QueryParam nat string := mkQueryParam [] true 0 1000.
Definition uptime : QueryMessage nat nat string := build_query (sample_serf 1) "uptime" [x05] uptime_params 77.
Definition uptime_raw : bytes :=
  match Types.encode_message_to_bytes (MQuery uptime) with Ok raw => raw | Err _ => [] end.
Definition uptime_answer (j : nat) : bytes := [byte_of (Z.of_nat j)].

Definition asker : Serf nat nat := after (sample_serf 1) (issue_query (R := string) (sample_serf 1) uptime None 3 5 (λ _, 0)).
Definition listener : Serf nat nat := heard (sample_serf 2) uptime_raw.
Definition uptime_event : QueryEvent nat nat :=
  mkQueryEvent 1 "uptime" [x05] 1000 (Some 9) 77 (mkNode 1%nat 1%nat) 0.
Definition answerer : Serf nat nat :=
  (respond (R := string) listener uptime_event (uptime_answer 2) (λ _, true) 10 (λ _, 0)).1.1.
Definition answer_raw : bytes := match last (sent answerer) with Some (_, raw) => raw | None => [] end.
Definition informed : Serf nat nat := heard asker answer_raw.

Lemma uptime_fits : Cluster.fits (MQuery uptime).
Proof.
  split; [concrete|]. split; simpl; try concrete; try (unfold u32_modulus; lia); try done.
  apply node_ld; concrete.
Qed.

(** Small replies of the first nodes fit. *)
Lemma reply_fits i flags payload :
  i ∈ [1; 2; 3]%nat → flags ∈ [0; 1] → payload ∈ [[]; uptime_answer i] →
  Cluster.fits (MQueryResponse (mkQueryResponse 1 77 (mkNode i i) flags payload) : Message nat nat string).
Proof.
  rewrite !elem_of_cons, !elem_of_nil. intros Hi Hf Hp.
  destruct Hi as [->|[->|[->|[]]]], Hf as [->|[->|[]]], Hp as [->|[->|[]]];
    (split; [concrete|]; split_and!; simpl; try concrete; try (unfold u32_modulus; lia); apply node_ld; concrete).
Qed.

Lemma uptime_decoded q :
  Types.decode_message (R := string) (A := nat) uptime_raw = Done (Ok (RQuery q)) →
  qr_flags q = 1 ∧ qr_ltime q = 1 ∧ qr_id q = 77.
Proof.
  destruct (reads_back _ uptime_fits) as (raw & r & _ & He & Hd & Hr). unfold uptime_raw. rewrite He, Hd.
  intros [= ->]. destruct Hr as [-> -> _ _ -> _ _ _ _]. done.
Qed.

Lemma replies_genuine_witness :
  ∃ c', csteps None three_nodes c' ∧ nodes c' !! 1%nat = Some informed ∧
    ∃ q, q ∈ query_heap informed ∧ queue (resp_ch q) = [mkNodeResponse (mkNode 2%nat 2%nat) (uptime_answer 2)] ∧
      (qresp_ltime q, qresp_id q, mkNodeResponse (mkNode 2%nat 2%nat) (uptime_answer 2)) ∈ answered c' ∧
      processed c' (mkNode 2%nat 2%nat) 1 77.
Proof.
  set (c1 := mkCluster (<[1%nat := asker]> (nodes three_nodes)) [] [uptime] []).
  set (c2 := set_node c1 2%nat listener).
  set (c3 := mkCluster (<[2%nat := answerer]> (nodes c2)) [] [uptime]
    [(1, 77, mkNodeResponse (mkNode 2%nat 2%nat) (uptime_answer 2))]).
  assert (csteps None three_nodes (set_node c3 1%nat informed)) as Hsteps.
  { apply (rtc_l _ _ c1).
    { apply (cs_ask None three_nodes 1%nat (sample_serf 1) uptime None 3 5 (λ _, 0) asker (Ok 0%nat));
        [reflexivity|apply uptime_fits|intros _; apply (reply_fits 1 1 []); set_solver|vm_compute; reflexivity]. }
    apply (rtc_l _ _ c2).
    { apply (cs_receive None c1 1%nat 2%nat asker (sample_serf 2) uptime_raw false 9 (λ _, 0));
        [reflexivity|reflexivity|left; vm_compute; by left| |vm_compute; reflexivity].
      intros q (_ & -> & ->)%uptime_decoded _. apply (reply_fits 2 1 []); set_solver. }
    apply (rtc_l _ _ c3).
    { eapply (cs_answer None c2 2%nat listener uptime_event (Some 9) (uptime_answer 2) (λ _, true) 10 (λ _, 0));
        [reflexivity|vm_compute; by left|apply (reply_fits 2 0 (uptime_answer 2)); set_solver|vm_compute; reflexivity]. }
    apply rtc_once.
    apply (cs_receive None c3 2%nat 1%nat answerer asker answer_raw false 9 (λ _, 0));
      [reflexivity|reflexivity|right; vm_compute; by right; left| |vm_compute; reflexivity].
    intros q Hq. exfalso. revert Hq. vm_compute. discriminate. }
  assert (map_Forall (λ _, query_free) (nodes three_nodes)) as Hfree
    by (eapply map_Forall_impl; [exact nodes_free|]; by intros i s []).
  destruct (replies_genuine None three_nodes _ eq_refl Hfree Hsteps 1%nat informed eq_refl) as (H1 & _ & _).
  eexists. split; [exact Hsteps|]. split; [reflexivity|].
  assert (∃ q, query_heap informed = [q] ∧ qresp_ltime q = 1 ∧ qresp_id q = 77 ∧
    queue (resp_ch q) = [mkNodeResponse (mkNode 2%nat 2%nat) (uptime_answer 2)]) as (q & Hh & Ht & Hid & Hq)
    by (eexists; split; [vm_compute; reflexivity|split_and!; vm_compute; reflexivity]).
  destruct (H1 q (mkNodeResponse (mkNode 2%nat 2%nat) (uptime_answer 2))) as [Ha Hp];
    [rewrite Hh; by left|rewrite Hq; by left|].
  exists q. rewrite Ht, Hid in *. split; [rewrite Hh; by left|]. split; [exact Hq|]. split; [exact Ha|exact Hp].
Defined.

Lemma ring_free i : ring_ok (sample_serf i).
Proof.
  split_and!; [concrete|cbn; lia|]. intros k qs Hk. exfalso. cbn in Hk.
  destruct k as [|[|[|[|k]]]]; cbn in Hk; by simplify_eq.
Qed.

Lemma uptime_answers j : j ∈ [2; 3]%nat → answers (sample_serf j) uptime (uptime_answer j).
Proof.
  intros Hj. assert (j ∈ [1; 2; 3]%nat) as Hj' by set_solver. split.
  - split; [cbn; lia|cbn; lia|reflexivity| |reflexivity]. intros (qs & Hl & _). by vm_compute in Hl.
  - intros _. apply (reply_fits j 1 []); [done|set_solver..].
  - apply (reply_fits j 0 (uptime_answer j)); [done|set_solver..].
  - rewrite !elem_of_cons, elem_of_nil in Hj. intros rw Hrw.
    destruct Hj as [->|[->|[]]]; vm_compute in Hrw; injection Hrw as <-; vm_compute; discriminate.
Qed.

Lemma query_answered_witness :
  ∃ c' s1 s' h qr,
    issue_query (R := string) (sample_serf 1) uptime None 3 5 (λ _, 0) = Done (s1, Ok h) ∧
    csteps None three_nodes c' ∧ nodes c' !! 1%nat = Some s' ∧ query_heap s' !! h = Some qr ∧
    Forall2 (λ j nr, ∃ t, nodes three_nodes !! j = Some t ∧ nr = mkNodeResponse (local_node t) (uptime_answer j))
      [2; 3]%nat (queue (resp_ch qr)).
Proof.
  apply (query_answered None three_nodes 1%nat (sample_serf 1) "uptime" [x05] uptime_params 77 3 5 (λ _, 0)
    uptime_raw [2; 3]%nat uptime_answer (λ _, 9) (λ j, 20 + Z.of_nat j) (λ j, 30 + Z.of_nat j)).
  - reflexivity.
  - apply ring_free.
  - vm_compute. split; [discriminate|reflexivity].
  - split; [vm_compute; discriminate|vm_compute; reflexivity].
  - apply uptime_fits.
  - intros _. apply (reply_fits 1 1 []); set_solver.
  - apply (bool_decide_eq_true_1 (_ ∉ _)). reflexivity.
  - apply (bool_decide_eq_true_1 (NoDup _)). reflexivity.
  - discriminate.
  - cbn. lia.
  - apply Forall_forall. intros j Hj. pose proof (uptime_answers j Hj) as Hans.
    rewrite !elem_of_cons, elem_of_nil in Hj.
    destruct Hj as [->|[->|[]]];
      (split; [eexists; split; [reflexivity|split; [reflexivity|exact Hans]]|split; vm_compute; discriminate]).
Defined.

(** ** A registry *)

Fixpoint bits (p : positive) : bytes :=
  match p with xH => [] | xO p => x00 :: bits p | xI p => x01 :: bits p end.
Fixpoint of_bits (b : bytes) : positive :=
  match b with [] => xH | x00 :: b => xO (of_bits b) | _ :: b => xI (of_bits b) end.

Lemma string_bits_roundtrip p : of_bits (bits p) = p.
Proof. induction p as [p IH|p IH|]; cbn; by rewrite ?IH. Qed.

#[export] Instance bits_bincode {T} `{Countable T} : Bincode T := {|
  encode_to_vec x := Ok (bits (countable.encode x));
  decode_from_slice b :=
    match countable.decode (of_bits b) with Some x => Ok (x, length b) | None => Err "invalid"%string end;
|}.
#[export] Instance bits_laws {T} `{Countable T} : BincodeLaws T.
Proof. split. intros x. eexists. split; [done|]. cbn. by rewrite string_bits_roundtrip, countable.decode_encode. Qed.

#[export] Instance Service_eq_dec : EqDecision (Service nat).
Proof. solve_decision. Defined.
#[export] Instance Service_countable : Countable (Service nat).
Proof. by refine (inj_countable' (λ s, (sv_name s, sv_addr s)) (λ p, mkService p.1 p.2) _); intros []. Defined.
#[export] Instance Op_eq_dec : EqDecision (Op nat).
Proof. solve_decision. Defined.
#[export] Instance Op_countable : Countable (Op nat).
Proof.
  refine (inj_countable'
    (λ o, match o with OpRegister n a => inl (n, a) | OpList => inr None | OpJoinAddr a => inr (Some a) end)
    (λ x, match x with inl (n, a) => OpRegister n a | inr None => OpList | inr (Some a) => OpJoinAddr a end) _).
  by intros [].
Defined.
#[export] Instance Result_eq_dec {X E} `{EqDecision X} `{EqDecision E} : EqDecision (Result X E).
Proof. solve_decision. Defined.
#[export] Instance Result_countable {X E} `{Countable X} `{Countable E} : Countable (Result X E).
Proof.
  refine (inj_countable' (λ r, match r with Ok a => inl a | Err e => inr e end)
    (λ x, match x with inl a => Ok a | inr e => Err e end) _). by intros [].
Defined.

(** A map as a list in the order of the names. *)
Fixpoint sorted_insert {V} (k : string) (v : V) (m : list (string * V)) : list (string * V) :=
  match m with
  | [] => [(k, v)]
  | (k', v') :: r =>
      match String.compare k k' with
      | Lt => (k, v) :: m
      | Eq => (k, v) :: r
      | Gt => (k', v') :: sorted_insert k v r
      end
  end.

Fixpoint assoc {V} (k : string) (m : list (string * V)) : option V :=
  match m with [] => None | (k', v) :: r => if decide (k' = k) then Some v else assoc k r end.

#[export] Instance sorted_skip_map {V} : SkipMap V (list (string * V)) := {|
  skip_new := []; skip_insert := sorted_insert; skip_get := assoc; skip_values m := snd <$> m |}.

Lemma sorted_insert_get {V} k (v : V) m j :
  assoc j (sorted_insert k v m) = if decide (k = j) then Some v else assoc j m.
Proof.
  induction m as [|[k' v'] m IH]; cbn; [done|].
  destruct (String.compare k k') eqn:E; cbn; [|done|rewrite IH].
  - apply String.compare_eq_iff in E as ->. by case_decide.
  - repeat case_decide; try done. subst.
    pose proof (String.compare_antisym j j) as Hr. by rewrite E in Hr.
Qed.

#[export] Instance sorted_skip_laws {V} : SkipMapLaws V (list (string * V)).
Proof.
  split; [apply @sorted_insert_get|]. intros k v m. cbn.
  induction m as [|[k' v'] m IH]; cbn; [done|]. case_decide; [intros [= ->]; by left|right; by apply IH].
Qed.

Definition consul (i : nat) : ToyConsul nat nat (list (string * Service nat)) := mkConsul (sample_serf i) skip_new.
Definition nobody (addr : nat) (s : Serf nat nat) : Serf nat nat * option nat := (s, None).
Definition register_request : bytes :=
  match request (OpRegister "web" 7%nat) with Ok b => b | Err _ => [] end.
Definition registered : ToyConsul nat nat (list (string * Service nat)) * option bytes :=
  match serve (R := string) (λ _, EmptyString) (consul 1) register_request nobody 9 with
  | Done (c, Replied r) => (c, r)
  | _ => (consul 1, None)
  end.

Lemma registration_listed_witness :
  ∃ raw t', raw ∈ queued (tc_serf registered.1) ∧
    notify_message (R := string) (sample_serf 2) false raw 9 (λ _, 0) = Done t' ∧
    skip_get "web" (services (handle_serf_events (mkConsul t' (services (consul 2)))
      (new_events (tc_serf (consul 2)) t'))) = Some (mkService "web" 7%nat).
Proof.
  destruct (registration_listed (R := string) (λ _, EmptyString) (consul 1) (consul 2) "web" 7%nat
    (bits (countable.encode (mkService "web" 7%nat))) nobody 9 false (λ _, 0)
    registered.1 (default [] registered.2)) as (raw & t' & Hr & Hn & Hg & _).
  - unfold regular, u64_modulus. cbn. lia.
  - reflexivity.
  - assert (request (OpRegister "web" 7%nat) = Ok register_request) as -> by (vm_compute; reflexivity).
    intros req Hreq. injection Hreq as <-. split; [unfold short|]; vm_compute; reflexivity.
  - unfold short. vm_compute. reflexivity.
  - vm_compute. reflexivity.
  - split; [cbn; lia|cbn; lia|reflexivity|]. intros (us & Hl & _). vm_compute in Hl. discriminate.
  - exists raw, t'. split; [exact Hr|]. split; [exact Hn|exact Hg].
Defined.
