(* ===== verification/FuzzExamples.v ===== *)
(** * Drawing from a list of numbers

    A source that hands out numbers one after the other, and the properties of
    the round-trip check at a message that is given and at one that is
    drawn. *)

From Stdlib Require Import ZArith Lia Strings.Byte.
From stdpp Require Import base list gmap strings.
From S2P Require Import Prelude Clock Coordinate Types Wire CodecIntents CodecEvents CodecQuery.
From S2P Require Import CodecMember CodecPushPull CodecKeys CodecMessage WireSample WireExamples Fuzzy Generators.
Local Open Scope Z_scope.
Local Open Scope gen_scope.

(** ** The source *)

Definition next : gen (list Z) Z := λ g,
  match g with [] => Got 0 [] | z :: g => Got z g end.

Fixpoint times {T} (n : nat) (x : gen (list Z) T) : gen (list Z) (list T) :=
  match n with
  | O => gret []
  | S n => draw! v := x in draw! l := times n x in gret (v :: l)
  end.

Definition some_of {T} (x : gen (list Z) T) : gen (list Z) (list T) :=
  draw! n := next in times (Z.to_nat (n mod 4)) x.

#[export] Instance number_source : Source (list Z) := {|
  draw_bool := gmap_ Z.odd next;
  draw_u8 := gmap_ (λ z, z mod 256) next;
  draw_u32 := gmap_ (λ z, z mod u32_modulus) next;
  draw_u64 := gmap_ (λ z, z mod u64_modulus) next;
  draw_usize := gmap_ (λ z, z mod u64_modulus) next;
  draw_duration := gmap_ Z.abs next;
  draw_f64 := gmap_ (λ z, if z <? 0 then SpecFloat.S754_nan else F64.zero) next;
  draw_string := gmap_ (λ z, if Z.odd z then "role"%string else EmptyString) next;
  draw_bytes := gmap_ (λ z, replicate (Z.to_nat (z mod 4)) x07) next;
  draw_vec T x := some_of x;
  draw_option T x := draw! b := next in if Z.odd b then gmap_ Some x else gret None;
  draw_choose n := gmap_ (λ z, Z.to_nat (z mod Z.of_nat n)) next;
  draw_range lo hi := gmap_ (λ z, lo + z mod (hi - lo + 1)) next;
  draw_ratio a b := gmap_ (λ z, z mod b <? a) next;
  draw_map K V _ k v := gmap_ index_map_of (some_of (draw! x := k in draw! y := v in gret (x, y)));
  draw_set K _ k := gmap_ index_set_of (some_of k);
|}.

Lemma next_map {T} (f : Z → T) (P : T → Prop) : (∀ z, P (f z)) → yields (gmap_ f next) P.
Proof. intros Hf g. by destruct g; cbn. Qed.

Lemma times_yields {T} bad (x : gen (list Z) T) P n :
  yields_or bad x P → yields_or bad (times n x) (Forall P).
Proof.
  intros Hx. induction n as [|n IH]; [by apply yields_ret|]. cbn [times].
  eapply yields_bind; [exact Hx|]. intros v Hv. eapply yields_bind; [exact IH|]. intros l Hl.
  apply yields_ret. by constructor.
Qed.

Lemma next_yields : yields next (λ _, True).
Proof. by intros [|z g]. Qed.

Lemma some_of_yields {T} bad (x : gen (list Z) T) P : yields_or bad x P → yields_or bad (some_of x) (Forall P).
Proof.
  intros Hx. eapply yields_bind; [apply yields_lift, next_yields|]. intros n _. by apply times_yields.
Qed.

#[export] Instance number_source_laws : SourceLaws (list Z).
Proof.
  split; cbn [draw_bool draw_u8 draw_u32 draw_u64 draw_usize draw_duration draw_f64 draw_string draw_bytes
    draw_vec draw_option draw_choose draw_range draw_ratio draw_map draw_set number_source];
    try (apply next_map; done || (intros z; unfold is_u64; apply Z.mod_pos_bound; done)).
  - apply next_map. lia.
  - intros T bad x P. apply some_of_yields.
  - intros T bad x P Hx. apply (yields_bind _ _ _ (λ _, True)); [apply yields_lift, next_yields|]. intros b _.
    destruct (Z.odd b); [|by apply yields_ret]. eapply yields_map; [exact Hx|]. by intros v Hv ? [= <-].
  - intros n Hn. apply next_map. intros z. pose proof (Z.mod_pos_bound z (Z.of_nat n)). lia.
  - intros lo hi Hle. apply next_map. intros z. pose proof (Z.mod_pos_bound z (hi - lo + 1)). lia.
  - intros a b. by apply next_map.
  - intros K V ? k v P Q Hk Hv. eapply yields_map; [apply (some_of_yields _ _ (λ p, P p.1 ∧ Q p.2))|].
    + eapply yields_bind; [exact Hk|]. intros x Hx. eapply yields_bind; [exact Hv|]. intros y Hy.
      by apply yields_ret.
    + intros l Hl. destruct (index_map_of_keys l) as [Hn Hs]. split; [done|].
      rewrite Forall_forall in *. intros p Hp. by apply Hl, Hs.
  - intros K ? k P Hk. eapply yields_map; [by apply some_of_yields|].
    intros l Hl. destruct (index_set_of_keys l) as [Hn Hs]. split; [done|].
    rewrite Forall_forall in *. intros p Hp. by apply Hl, Hs.
Qed.

#[export] Instance number_unstructured : Unstructured (list Z).
Proof.
  exists (length (A := Z)). intros [|z g] f g'; cbn; intros [= <- <-]; [done|simpl; lia].
Defined.

#[export] Instance sample_regex_text : RegexText string.
Proof. intros p r Hr. by injection Hr as <-. Qed.

(** ** Truth values as ids, addresses and keys *)

Definition bool_data_ : Data bool := scalar sample_key.

Lemma bool_ld b : ∃ bs r, codes_ld bool_data_ b bs r.
Proof. destruct (sample_key_ld b) as [bs Hb]. by exists bs, b. Qed.

Lemma bool_codes_ b : ∃ bs r, codes bool_data_ b bs r.
Proof.
  exists [byte_of_Z (if b then 1 else 0)], b.
  apply (byte_codes _ (λ b : bool, byte_of_Z (if b then 1 else 0)) (λ z, negb (z =? 0)%Z)). by destruct b.
Qed.

Lemma bool_nodes n : node_fits bool_data_ bool_data_ n.
Proof.
  destruct n as [i a]. destruct (bool_codes_ i) as (bi & ri & Ci), (bool_codes_ a) as (ba & ra & Ca).
  destruct (node_codes bool_data_ bool_data_ (mkNode i a) bi ri ba ra Ci Ca) as [bs Hc];
    [rewrite (codes_len _ _ _ _ Ci); concrete|rewrite (codes_len _ _ _ _ Ca); concrete|].
  apply delimited_ld; [done|by exists bs, (mkNode ri ra)|]. destruct i, a; concrete.
Qed.

(** ** The properties at work *)

Definition bool_node : gen (list Z) (Node bool bool) :=
  draw! i := draw_bool in draw! a := draw_bool in gret (mkNode i a).
Definition version1 : gen (list Z) ProtocolVersion := gret PV1.
Definition delegate1 : gen (list Z) DelegateVersion := gret DV1.

Abbreviation drawn_message := (qc_Message (R := string) draw_bool bool_node draw_bool version1 delegate1).

(** Kind 8 is no message of the fuzzer, kind 5 is a query; it gets one filter
    on a tag. *)
Definition numbers : list Z :=
  [8; 5; 3; 1; 77; 0; 1; 1; 0; 1; 1; 2; 4; 1; 2; 3; 0; 1; 2; 3; 4; 5; 6; 7; 8; 9; 2; 1000; 1; 3].

Definition drawn_query : QueryMessage bool bool string :=
  mkQuery 3 77 (mkNode false true) [FilterTag "role" (Some "^([A-Z]*)\s?\d*\s?"%string)] 2 7 8 "role" [x07; x07].

Lemma query_drawn : drawn_message 3 numbers = Got (FQuery drawn_query) [1000; 1; 3].
Proof. vm_compute. reflexivity. Qed.

Lemma fuzz_target_passes_witness :
  fuzz_target (R := string) nat_data nat_data sample_key (FQuery sample_query, Some node0) = Done tt.
Proof.
  apply (fuzz_target_passes nat_data nat_data sample_key eq_refl sample_key_ld);
    [apply sample_query_fits|intros n [= <-]; apply node0_fits].
Defined.

Lemma random_messages_pass_witness :
  drawn_message 3 numbers = Got (FQuery drawn_query) [1000; 1; 3] ∧
  encodable_round_trip (R := string) bool_data_ bool_data_ sample_key (FQuery drawn_query)
    (Some (mkNode true false)) = Done true.
Proof.
  split; [exact query_drawn|].
  assert (yields bool_node (λ _, True)) as HN by (do 2 (eapply yields_bind; [apply bool_yields|intros]); by apply yields_ret).
  pose proof (random_messages_pass (R := string) bool_data_ bool_data_ sample_key
    draw_bool bool_node draw_bool version1 delegate1 bool_yields HN bool_yields
    (yields_ret _ _ _ eq_refl) (yields_ret _ _ _ eq_refl) bool_codes_ bool_ld bool_nodes eq_refl sample_key_ld
    3 numbers (Some (mkNode true false))) as Hp.
  rewrite query_drawn in Hp. apply Hp. cbn [sized].
  split_and!; try concrete. apply Forall_singleton. split; [concrete|].
  split_and!; [concrete|intros r [= <-]; concrete|concrete].
Defined.
